(* ===== verification/_CoqProject ===== *)
-Q . S2P
Prelude.v
NetIP.v
IpLookup.v
Strconv.v
Sha1.v
ReclaimAlias.v
ReclaimAliasInv.v
Reclaim.v
ReclaimInv.v
ReclaimSafety.v
ReclaimLive.v
ReclaimKeys.v
ReclaimReload.v
Resp.v
RespProofs.v
RelaySession.v
RedisExec.v
RedisExecProofs.v
RedisVerbs.v
RedisPool.v
RedisClient.v
RedisTimed.v
Float64.v
WindowCounter.v
WindowClient.v
ProbeHTTP.v
WindowBuffer.v
WindowFlush.v
WindowFleet.v
WindowTimer.v
StoredLimiter.v
ExpiryMap.v
TokenBucket.v
BucketClient.v
Backoff.v
Emulator.v
