(* ===== verification/Prelude.v ===== *)
(** * A verification of traefik-middleware-utilities

    The repository is a set of Go packages that Traefik middleware plugins share.
    This development models those packages and proves what makes them correct.

    ** The program and its parts

    - [iplookup/] keeps CIDR blocks with metadata in two binary radix trees, one
      per address family, and answers longest-prefix lookups.
    - [reclaim/] is a table of shared values that survive a reload of the Traefik
      configuration: a value is created once per key, put to sleep when its last
      holder's context ends, woken by the next Open, closed after a grace period.
      Aliases publish a value under public names to watchers.
    - [simpleredis/] is a Redis client: a RESP codec, a retry loop, the verbs, and
      a pool of sockets bounded by in-use turns.
    - [windowcounter/] is a sliding-window hit counter on that client, exact (one
      INCR per hit) or buffered (local deltas flushed by a timer).
    - [tokenbucket/] is Traefik's token bucket, in process or as a Lua script run
      through the client.
    - [backendbackoff/] is an in-process admission gate per backend, with closed,
      open and half-open states.
    - [traefikemulator/] builds configuration generations for tests, and
      [e2e/respdroprelay/] is the relay of the end-to-end tests that drops replies;
      [e2e/simpleredisprobe/] serves the Redis client's verbs over HTTP.

    windowcounter and tokenbucket call simpleredis; their clients keep them in
    reclaim tables.  In the model the verbs take [exec] as an argument that
    threads the engine's state, windowcounter and tokenbucket are built on the
    verbs, and what they need of the engine is a type class.

    ** Files

    - this file: 64-bit integers, byte strings and the generic lemmas;
    - [NetIP]: the parts of Go's net package that iplookup calls; [IpLookup]:
      Module [Tree] ([tree.go]) and Module [Helper] ([helper.go]);
    - [Strconv]: [strconv.ParseInt] and [FormatInt], shared by the codecs; [Sha1]:
      [ScriptSHA1Hex] with SHA-1 and hexadecimal, checked on standard vectors;
    - [ReclaimAlias], [ReclaimAliasInv]: [reclaim/alias.go] and its invariant;
    - [Reclaim]: [reclaim/table.go] and [opentyped.go] as a labelled transition
      system; [ReclaimInv] its invariant, [ReclaimSafety] the lifecycle,
      [ReclaimLive] the release of parked goroutines, [ReclaimKeys] the uniqueness
      of the live value of a key, [ReclaimReload] a reload within the grace;
    - [Resp], [RespProofs]: [simpleredis/resp.go], and the relay's own codec in
      Module [Relay]; [RelaySession]: [e2e/respdroprelay/main.go];
    - [RedisExec], [RedisExecProofs]: [commands_exec.go], [config.go] and [do] of
      [resp.go]; [RedisVerbs]: [commands.go], [commands_eval.go],
      [commands_msetex.go]; [RedisPool]: [pool.go], Close and the context's watch
      on a used socket; [RedisClient]: New, the accessors and the error predicates
      of [simpleredis.go]; [RedisTimed]: a
      command against the clock, with its deadlines, backoff sleeps and the dial;
    - [Float64]: IEEE binary64 over the rationals, for the packages that compute
      with float64;
    - [WindowCounter]: the window arithmetic and the exact mode of
      [windowcounter/limiter.go]; [WindowClient]: that mode over the whole client
      and connections that lose replies; [ProbeHTTP]: [e2e/simpleredisprobe/]
      over that client; [WindowBuffer]: the counter's buffered mode;
      [WindowFlush]: its Lua script; [WindowFleet]: many buffered limiters on one
      Redis; [WindowTimer]: its flush timer; [StoredLimiter]: that timer as the
      hooks of a value in a reclaim table;
    - [ExpiryMap]: the bounded map with idle expiry that [tokenbucket/memory.go]
      and [backendbackoff/allow.go] both write out; [TokenBucket]: [tokenbucket/];
      [BucketClient]: its Redis limiter over the whole client; [Backoff]:
      [backendbackoff/];
    - [Emulator]: [traefikemulator/emulator.go].

    Definitions carry the names of the Go functions they translate.

    ** How the code is modelled

    Code under one mutex for its whole body (iplookup, tokenbucket, the gate) is a
    function on the state, and a history is a list of calls.  Code that unlocks in
    the middle (reclaim, the pool, the buffered counter and its timer) is a step
    relation: every goroutine is a program counter, a step is one critical
    section, one channel or WaitGroup operation or one return of a hook, and the
    theorems hold in every reachable state, by induction on the steps.  Pointers
    that outlive a critical section are heap identifiers.  A Go panic is [None] or
    a result of its own; errors are values.  Integers are [Z] with [wrap64] where
    an operation can overflow; clock readings and deadlines are unbounded
    nanoseconds.

    What the code reads from outside is an argument or a choice of the step: the
    clock, replies, dial results, jitter samples, hook outcomes, the order of a
    range over a map ([FirstKey] in [ExpiryMap]), what int64 of an out-of-range
    float gives.  [CounterServer] in [WindowCounter] is what the exact mode
    needs of the client; Module [CounterEngine] and the whole client over a lossy
    network ([wire_counter] in [WindowClient]) implement it.

    ** What is proved

    - iplookup: any history of calls keeps the trees equal to a map from networks
      to metadata, and a lookup returns the longest network that contains the
      address; a bare IPv4 address is stored as its /32.
    - reclaim: in every schedule the hooks follow the documented lifecycle, a held
      value is awake, a key has one live value, an enforced Close is exclusive, no
      channel is closed twice, and a parked goroutine always has an owner that is
      about to release it; the callback of a watcher was last called with the
      current value of its name and never twice in a row with the same one; every
      Open of a reload that comes within the grace gets the same incarnation back,
      unless its own context has ended.
    - simpleredis: values survive the wire and leave the stream on a boundary, a
      socket counts as reusable only there; a command is sent at most
      MaxRetries+1 times; sockets have one owner, the watch of an ended context
      never cuts a parked one or one of another command, turns are conserved, live
      sockets are capped; the verbs return the engine's answer; a group write
      settles on one path; New fails exactly on an idle trim above the pool size
      and else returns a client with the settings given or their defaults; on the
      clock, a command ends within its timeout up to the scheduling lag of its
      steps, and an ended context, a closed client, one not from New and a pool
      that stays full fail without a send or a retry.
    - windowcounter: one window never admits more than its limit, also through
      the retrying client over a network that loses replies; the hits recorded in
      buffered mode are those carried to Redis plus those a mapped window holds,
      except hits whose Take outlived its window, waiting for a GET; the flushes
      of all clients add up, and with the same exception Redis never under-counts
      a fleet of limiters; the timer's WaitGroup counts
      what runs and there is one ticker; a limiter stored in a reclaim table is
      quiet while its slot sleeps and after its Close.
    - tokenbucket: the Lua script equals the in-process bucket, and the Redis
      limiter over the client and the in-process limiter refine one abstract
      bucket; a burst is admitted exactly; buckets and map stay bounded.
    - backendbackoff: a key trips on its TripFailures-th failure, is refused for
      its whole cooldown and admitted after it, as long as it is not idle for its
      TTL; refusals are bounded by MaxCooldown, cooldowns double up to it, probes
      are exclusive.
    - emulator, relay and probe: one live generation, first routes constructed; the
      relay is transparent up to the dropped verb, and its sessions end with any
      client and an engine that answers or hangs up; the probe sends
      nothing for a request it refuses, and what one group write puts in is what a
      group read returns until the expiry, whichever way the client wrote it.

    Each theorem with hypotheses has a witness at a concrete input.  Theorems
    about behaviour that contradicts a comment or an intention of the code are
    kept too: [Contains_empty_ip_panics], [stale_timer_closes_early],
    [drop_park_reachable], [negative_retries_send_nothing],
    [skip_idle_exceeds_pool_size], [peek_error_sticks],
    [lost_reply_leaves_no_expiry],
    [overlapping_sleeps_start_two_tickers], [sub_microsecond_delay_admits_all],
    [tiny_rate_admits], [nan_ratio_never_trips].

    ** Fuel and bounds

    Walks of the trees recurse on the remaining bits (at most 128); decimal digits
    on the logarithm of the number; [exec_loop] on the attempts the configuration
    allows; [cooldown_loop] on the rounds of the Go loop.  [readRawRESP] recurses
    on the nesting and [relay_loop] on the commands: the length of the stream is
    enough for the first ([readRawRESP_fuel]), and the second reports fuel that is
    used up, which never happens ([relay_ends]).  The float
    theorems say for which ranges they hold (2^53 where integers must be exact).

    ** Not modelled, and why

    - log lines other than those of the reclaim lifecycle, and the test hook
      SetNowForTest: no effect on behaviour;
    - time as a bounded type (Go's time.Time and saturating Sub), fused
      multiply-add (not used by the compiler on amd64), and the sign of a zero;
    - values of an uncomparable type in an alias, on which [sameValue] panics: the
      values of the alias model are nil, pointers and comparable values;
    - the accept loop of the relay and the reclaim probe under [e2e/]: glue around
      calls that are modelled;
    - the decimal text of the floats that [tokenbucket/redis.go] sends and the
      script returns, which FormatFloat and ParseFloat keep exact: arguments;
    - Redis itself beyond the documented effect of the commands used, the network,
      the Go scheduler beyond interleaving of the steps, and Yaegi. *)

From Stdlib Require Import ZArith Lia List String Ascii.
From Stdlib Require Import Strings.Byte.
From stdpp Require Import base list strings gmap option.

#[global] Set Default Goal Selector "!".

Declare Scope go_scope.
Delimit Scope go_scope with go.

(** ** Automation *)

Create HintDb go.

(** Case-split every [if]/[match] scrutinee that is a Boolean comparison on Z
    and turn it into the proposition it decides. *)
Ltac bool_cases :=
  repeat match goal with
  | |- context [Z.ltb ?a ?b] => destruct (Z.ltb_spec a b)
  | |- context [Z.leb ?a ?b] => destruct (Z.leb_spec a b)
  | |- context [Z.eqb ?a ?b] => destruct (Z.eqb_spec a b)
  | H : context [Z.ltb ?a ?b] |- _ => destruct (Z.ltb_spec a b)
  | H : context [Z.leb ?a ?b] |- _ => destruct (Z.leb_spec a b)
  | H : context [Z.eqb ?a ?b] |- _ => destruct (Z.eqb_spec a b)
  end.

(** ** Machine integers *)

Open Scope Z_scope.

Definition int64_min : Z := - 2 ^ 63.
Definition int64_max : Z := 2 ^ 63 - 1.
Definition in_int64 (z : Z) : Prop := int64_min <= z <= int64_max.

(** Two's complement wrap-around of a 64-bit signed integer. *)
Definition wrap64 (z : Z) : Z := (z + 2 ^ 63) mod 2 ^ 64 - 2 ^ 63.

#[export] Instance in_int64_dec z : Decision (in_int64 z).
Proof. unfold in_int64. apply _. Defined.

Lemma wrap64_id z : in_int64 z -> wrap64 z = z.
Proof.
  unfold in_int64, int64_min, int64_max, wrap64. intros H.
  rewrite Z.mod_small by lia. lia.
Qed.

Lemma wrap64_range z : in_int64 (wrap64 z).
Proof.
  unfold in_int64, int64_min, int64_max, wrap64.
  pose proof (Z.mod_pos_bound (z + 2 ^ 63) (2 ^ 64) ltac:(lia)). lia.
Qed.

#[export] Hint Resolve wrap64_range : go.

(** ** Bytes *)

Abbreviation bytes := (list byte).

#[export] Instance byte_eq_decision : EqDecision byte.
Proof. intros a b. apply Byte.byte_eq_dec. Defined.

#[export] Instance byte_countable : Countable byte.
Proof. refine (inj_countable Byte.to_N Byte.of_N _). apply Byte.of_to_N. Defined.

(** The numeric value of a byte and the byte of a (wrapped) number. *)
Definition byteZ (b : byte) : Z := Z.of_N (Byte.to_N b).
Definition byte_of_Z (z : Z) : byte :=
  match Byte.of_N (Z.to_N (z mod 256)) with Some b => b | None => x00 end.

(** [[]byte(s)] and [string(b)] *)
Definition bs (s : string) : bytes := String.list_byte_of_string s.
Definition str (b : bytes) : string := String.string_of_list_byte b.

Lemma byteZ_bound b : 0 <= byteZ b < 256.
Proof. unfold byteZ. pose proof (Byte.to_N_bounded b). lia. Qed.

Lemma byteZ_of_Z z : byteZ (byte_of_Z z) = z mod 256.
Proof.
  unfold byteZ, byte_of_Z.
  pose proof (Z.mod_pos_bound z 256 ltac:(lia)) as Hb.
  destruct (Byte.of_N (Z.to_N (z mod 256))) as [b|] eqn:E.
  - apply Byte.to_of_N in E. rewrite E. lia.
  - apply Byte.of_N_None_iff in E. lia.
Qed.

Lemma byteZ_inj a b : byteZ a = byteZ b -> a = b.
Proof.
  unfold byteZ. intros H.
  assert (Byte.to_N a = Byte.to_N b) as E by lia.
  apply (f_equal Byte.of_N) in E. rewrite !Byte.of_to_N in E. congruence.
Qed.

Lemma byte_of_Z_byteZ b : byte_of_Z (byteZ b) = b.
Proof.
  apply byteZ_inj. rewrite byteZ_of_Z. apply Z.mod_small, byteZ_bound.
Qed.

Lemma str_bs s : str (bs s) = s.
Proof. apply String.string_of_list_byte_of_string. Qed.

Lemma bs_str b : bs (str b) = b.
Proof. apply String.list_byte_of_string_of_list_byte. Qed.

#[export] Hint Rewrite str_bs bs_str byte_of_Z_byteZ : go.

(** ** Sums over finite maps *)

(** The sum of [f] over the values of a map; counting arguments over the
    goroutines or slots of a table are sums of this form. *)
Definition msum {A} (f : A -> Z) (m : gmap nat A) : Z := map_fold (fun _ a n => f a + n) 0 m.

Section msum.
Context {A : Type}.
Implicit Types (f g : A -> Z) (m : gmap nat A).

Lemma msum_empty f : msum f ∅ = 0.
Proof. apply map_fold_empty. Qed.

Lemma msum_insert_new f m k a : m !! k = None -> msum f (<[k := a]> m) = f a + msum f m.
Proof. intros H. unfold msum. rewrite map_fold_insert_L.
- done.
- intros. simpl. lia.
- done.
Qed.

Lemma msum_delete f m k a : m !! k = Some a -> msum f m = f a + msum f (delete k m).
Proof.
  intros H. rewrite <- (insert_delete_id m k a) at 1 by done.
  apply msum_insert_new, lookup_delete_eq.
Qed.

Lemma msum_insert f m k a b : m !! k = Some a -> msum f (<[k := b]> m) = msum f m - f a + f b.
Proof.
  intros H. rewrite (msum_delete f m k a H), <- insert_delete_eq.
  rewrite msum_insert_new by apply lookup_delete_eq. lia.
Qed.

Lemma msum_nonneg f m : (forall a, 0 <= f a) -> 0 <= msum f m.
Proof.
  intros Hf. induction m as [|k a m Hk IH] using map_ind.
  - by rewrite msum_empty.
  - rewrite msum_insert_new by done. specialize (Hf a). lia.
Qed.

Lemma msum_lookup f m k a : (forall a, 0 <= f a) -> m !! k = Some a -> f a <= msum f m.
Proof.
  intros Hf H. rewrite (msum_delete f m k a H). pose proof (msum_nonneg f (delete k m) Hf). lia.
Qed.

Lemma msum_lookup2 f m i j a b : (forall a, 0 <= f a) ->
  m !! i = Some a -> m !! j = Some b -> i <> j -> f a + f b <= msum f m.
Proof.
  intros Hf Hi Hj Hij. rewrite (msum_delete f m i a Hi).
  pose proof (msum_lookup f (delete i m) j b Hf). rewrite lookup_delete_ne in H by done.
  specialize (H Hj). lia.
Qed.

Lemma msum_zero f m k a : (forall a, 0 <= f a) -> msum f m = 0 -> m !! k = Some a -> f a = 0.
Proof. intros Hf H0 H. pose proof (msum_lookup f m k a Hf H). specialize (Hf a). lia. Qed.

Lemma msum_zero_all f m : (forall k a, m !! k = Some a -> f a = 0) -> msum f m = 0.
Proof.
  induction m as [|k a m Hk IH] using map_ind; intros H; [apply msum_empty|].
  rewrite msum_insert_new by done. rewrite (H k a) by apply lookup_insert_eq. rewrite IH; [done|].
  intros i b Hi. apply (H i). rewrite lookup_insert_ne; [done|]. intros ->. congruence.
Qed.

Lemma msum_le f g m : (forall a, f a <= g a) -> msum f m <= msum g m.
Proof.
  intros Hfg. induction m as [|k a m Hk IH] using map_ind; [by rewrite !msum_empty|].
  rewrite !msum_insert_new by done. specialize (Hfg a). lia.
Qed.

(** Strictly less at one key. *)
Lemma msum_le_at f g m k a :
  (forall a, f a <= g a) -> m !! k = Some a -> msum f m + (g a - f a) <= msum g m.
Proof.
  intros Hfg H. rewrite (msum_delete f m k a H), (msum_delete g m k a H).
  pose proof (msum_le f g (delete k m) Hfg). lia.
Qed.

Lemma msum_pos f m : (forall a, 0 <= f a) -> 0 < msum f m -> exists k a, m !! k = Some a /\ 0 < f a.
Proof.
  intros Hf. induction m as [|k a m Hk IH] using map_ind.
  - rewrite msum_empty. lia.
  - rewrite msum_insert_new by done. intros H. destruct (decide (0 < f a)) as [Ha|Ha].
    + exists k, a. by rewrite lookup_insert_eq.
    + destruct IH as (i & b & Hi & Hb); [lia|]. exists i, b. split; [|done].
      rewrite lookup_insert_ne; [done|]. intros ->. congruence.
Qed.
End msum.

(** How often [x] occurs in [l]. *)
Fixpoint occ (x : nat) (l : list nat) : Z :=
  match l with
  | [] => 0
  | y :: l => (if decide (y = x) then 1 else 0) + occ x l
  end.

Lemma occ_nonneg x l : 0 <= occ x l.
Proof. induction l; simpl; [lia|]. destruct (decide _); lia. Qed.

Lemma occ_elem_of x l : x ∈ l <-> 0 < occ x l.
Proof.
  induction l as [|y l IH]; simpl.
  - split; [inversion 1|lia].
  - pose proof (occ_nonneg x l). rewrite elem_of_cons, IH. destruct (decide (y = x)); naive_solver lia.
Qed.
