(* ===== verification/NetIP.v ===== *)
(** * NetIP: the part of Go's [net] package the CIDR store is built on

    [net.IP], [net.IPMask] and [net.IPNet] as byte lists, with [To4],
    [IPMask.Size], [CIDRMask], [IP.Mask], [IPNet.Contains], [ParseIP],
    [ParseCIDR] and [IP.String], following the standard library.  The lemmas
    relate the byte-level operations to the most-significant-bit-first bit
    string of an address ([bits_of]). *)

From S2P Require Import Prelude.
From Stdlib Require Import ZArith Lia List String Ascii.
From Stdlib Require Import Strings.Byte.
From stdpp Require Import base list strings option.

Open Scope Z_scope.

(** ** Bits of a byte list, most significant first *)

Definition byte_bits (b : byte) : list bool :=
  map (Z.testbit (byteZ b)) [7; 6; 5; 4; 3; 2; 1; 0].

Definition bits_of (l : bytes) : list bool := flat_map byte_bits l.

Definition byte_and (a b : byte) : byte := byte_of_Z (Z.land (byteZ a) (byteZ b)).

(** ** Addresses and masks *)

(** A [net.IP] is [None] when the slice is nil. *)
Abbreviation IP := (option bytes).

Record IPNet := { n_ip : bytes; n_mask : bytes }.

Definition isZeros (l : bytes) : bool := forallb (fun b => bool_decide (b = x00)) l.

(** [IP.To4] *)
Definition To4 (ip : bytes) : option bytes :=
  if (length ip =? 4)%nat then Some ip
  else if (length ip =? 16)%nat && isZeros (take 10 ip)
          && bool_decide (ip !! 10%nat = Some xff) && bool_decide (ip !! 11%nat = Some xff)
       then Some (drop 12 ip)
  else None.

(** Leading one bits of a byte, [None] when a one follows a zero. *)
Fixpoint lead_ones (l : list bool) : option nat :=
  match l with
  | [] => Some 0%nat
  | true :: r => S <$> lead_ones r
  | false :: r => if forallb negb r then Some 0%nat else None
  end.

(** [simpleMaskLength]: [None] stands for -1. *)
Fixpoint simpleMaskLength (mask : bytes) : option nat :=
  match mask with
  | [] => Some 0%nat
  | v :: rest =>
      if bool_decide (v = xff) then Nat.add 8 <$> simpleMaskLength rest
      else n ← lead_ones (byte_bits v);
           if isZeros rest then Some n else None
  end.

(** [IPMask.Size] *)
Definition Mask_Size (mask : bytes) : Z * Z :=
  match simpleMaskLength mask with
  | Some ones => (Z.of_nat ones, 8 * Z.of_nat (length mask))
  | None => (0, 0)
  end.

(** The loop of [CIDRMask] over [l] bytes with [n] one bits left. *)
Fixpoint cidr_mask_bytes (l n : nat) : bytes :=
  match l with
  | O => []
  | S l' =>
      if (8 <=? n)%nat then xff :: cidr_mask_bytes l' (n - 8)
      else byte_of_Z (Z.lxor 255 (Z.shiftr 255 (Z.of_nat n))) :: cidr_mask_bytes l' 0
  end.

(** [CIDRMask(ones, bits)] for [bits] 32 or 128 and [0 <= ones <= bits]. *)
Definition CIDRMask (ones bits : nat) : bytes := cidr_mask_bytes (bits / 8) ones.

(** [IP.Mask] for equal lengths (the only case [ParseCIDR] reaches after
    dropping the IPv4-in-IPv6 prefix). *)
Definition Mask (ip mask : bytes) : bytes := zip_with byte_and ip mask.

(** [networkNumberAndMask] and [IPNet.Contains]. *)
Definition networkNumberAndMask (n : IPNet) : option (bytes * bytes) :=
  ip ← match To4 (n_ip n) with
       | Some v4 => Some v4
       | None => if (length (n_ip n) =? 16)%nat then Some (n_ip n) else None
       end;
  match length (n_mask n) with
  | 4%nat => if (length ip =? 4)%nat then Some (ip, n_mask n) else None
  | 16%nat => if (length ip =? 4)%nat then Some (ip, drop 12 (n_mask n)) else Some (ip, n_mask n)
  | _ => None
  end.

Definition IPNet_Contains (n : IPNet) (ip : bytes) : bool :=
  match networkNumberAndMask n with
  | None => (length ip =? 0)%nat
  | Some (nn, m) =>
      let ip := match To4 ip with Some x => x | None => ip end in
      bool_decide (length ip = length nn) && bool_decide (Mask nn m = Mask ip m)
  end.

(** ** Text forms *)

Definition b_dot : byte := x2e.
Definition b_colon : byte := x3a.
Definition b_slash : byte := x2f.
Definition b_percent : byte := x25.

Definition is_digit (b : byte) : bool := (48 <=? byteZ b) && (byteZ b <=? 57).

(** [strings.IndexByte]: the text before the first [c] and the text after it. *)
Fixpoint cut_at (c : byte) (s : bytes) : option (bytes * bytes) :=
  match s with
  | [] => None
  | b :: r => if bool_decide (b = c) then Some ([], r)
              else match cut_at c r with
                   | Some (p, q) => Some (b :: p, q)
                   | None => None
                   end
  end.

(** State of the dotted-quad scanner of [netip.parseIPv4]: finished fields,
    current value, its digit count, and whether the previous byte was a dot
    (or there was none). *)
Fixpoint parse_v4_loop (s : bytes) (fields : bytes) (val : Z) (digLen : nat) (atStart : bool)
  : option bytes :=
  match s with
  | [] =>
      if (length fields =? 3)%nat && negb atStart then Some (fields ++ [byte_of_Z val]) else None
  | c :: r =>
      if is_digit c then
        if (digLen =? 1)%nat && (val =? 0) then None
        else let val' := val * 10 + (byteZ c - 48) in
             if 255 <? val' then None else parse_v4_loop r fields val' (S digLen) false
      else if bool_decide (c = b_dot) then
        if atStart then None
        else if (length fields =? 3)%nat then None
        else parse_v4_loop r (fields ++ [byte_of_Z val]) 0 0 true
      else None
  end.

Definition parseIPv4 (s : bytes) : option bytes := parse_v4_loop s [] 0 0 true.

Definition hex_val (b : byte) : option Z :=
  let c := byteZ b in
  if (48 <=? c) && (c <=? 57) then Some (c - 48)
  else if (97 <=? c) && (c <=? 102) then Some (c - 97 + 10)
  else if (65 <=? c) && (c <=? 70) then Some (c - 65 + 10)
  else None.

(** One hexadecimal group: value, digit count and the remaining text;
    [None] for a fifth digit. *)
Fixpoint hex_group (s : bytes) (acc : Z) (off : nat) : option (Z * nat * bytes) :=
  match s with
  | [] => Some (acc, off, [])
  | c :: r =>
      match hex_val c with
      | None => Some (acc, off, s)
      | Some d => if (4 <=? off)%nat then None else hex_group r (acc * 16 + d) (S off)
      end
  end.

(** The group loop of [netip.parseIPv6]; [fuel] counts the two-byte groups
    left.  Returns the bytes read, the ellipsis position and the text that was
    not consumed. *)
Fixpoint parse_v6_loop (fuel : nat) (s : bytes) (ip : bytes) (ell : option nat)
  : option (bytes * option nat * bytes) :=
  match fuel with
  | O => Some (ip, ell, s)
  | S fuel' =>
      match hex_group s 0 0 with
      | None => None
      | Some (acc, off, rest) =>
          if (off =? 0)%nat then None
          else match rest with
          | c :: r =>
              if bool_decide (c = b_dot) then
                if (match ell with None => negb (length ip =? 12)%nat | Some _ => false end)
                   || (16 <? length ip + 4)%nat
                then None
                else match parseIPv4 s with
                     | Some v4 => Some (ip ++ v4, ell, [])
                     | None => None
                     end
              else
                let ip := ip ++ [byte_of_Z (Z.shiftr acc 8); byte_of_Z acc] in
                if negb (bool_decide (c = b_colon)) then None
                else match r with
                | [] => None
                | c2 :: r2 =>
                    if bool_decide (c2 = b_colon) then
                      match ell with
                      | Some _ => None
                      | None => match r2 with
                                | [] => Some (ip, Some (length ip), [])
                                | _ => parse_v6_loop fuel' r2 ip (Some (length ip))
                                end
                      end
                    else parse_v6_loop fuel' r ip ell
                end
          | [] => Some (ip ++ [byte_of_Z (Z.shiftr acc 8); byte_of_Z acc], ell, [])
          end
      end
  end.

(** Expand the ellipsis to sixteen bytes. *)
Definition expand_v6 (ip : bytes) (ell : option nat) : option bytes :=
  if (length ip <? 16)%nat then
    match ell with
    | None => None
    | Some e => Some (take e ip ++ replicate (16 - length ip) x00 ++ drop e ip)
    end
  else match ell with None => Some ip | Some _ => None end.

(** [netip.parseIPv6], zone-free: the caller has already refused ['%']. *)
Definition parseIPv6 (s : bytes) : option bytes :=
  let '(s', ell) :=
    match s with
    | c1 :: c2 :: r => if bool_decide (c1 = b_colon) && bool_decide (c2 = b_colon)
                       then (r, Some 0%nat) else (s, None)
    | _ => (s, None)
    end in
  match s', ell with
  | [], Some _ => Some (replicate 16 x00)
  | _, _ =>
      match parse_v6_loop 8 s' [] ell with
      | Some (ip, e, []) => expand_v6 ip e
      | _ => None
      end
  end.

(** [netip.ParseAddr] for addresses without a zone: [inl] is an IPv4 address
    (four bytes), [inr] an IPv6 address (sixteen bytes).  [net.ParseIP] and
    [net.ParseCIDR] both refuse a zone. *)
Fixpoint ParseAddr_kind (s : bytes) : option bool :=
  match s with
  | [] => None
  | c :: r => if bool_decide (c = b_dot) then Some true
              else if bool_decide (c = b_colon) then Some false
              else if bool_decide (c = b_percent) then None
              else ParseAddr_kind r
  end.

Definition ParseAddr (s : bytes) : option (bytes + bytes) :=
  match ParseAddr_kind s with
  | Some true => inl <$> parseIPv4 s
  | Some false => inr <$> parseIPv6 s
  | None => None
  end.

Definition v4InV6Prefix : bytes := replicate 10 x00 ++ [xff; xff].

(** [net.ParseIP]: the sixteen-byte form. *)
Definition ParseIP (s : bytes) : IP :=
  match ParseAddr s with
  | Some (inl v4) => Some (v4InV6Prefix ++ v4)
  | Some (inr v6) => Some v6
  | None => None
  end.

(** [dtoi]: the decimal prefix of [s], refused from [0xFFFFFF] on. *)
Fixpoint dtoi_loop (s : bytes) (n : Z) : option (Z * bytes) :=
  match s with
  | [] => Some (n, [])
  | c :: r => if is_digit c
              then let n' := n * 10 + (byteZ c - 48) in
                   if 16777215 <=? n' then None else dtoi_loop r n'
              else Some (n, s)
  end.

Definition dtoi_all (s : bytes) : option Z :=
  match s with
  | [] => None
  | _ => match dtoi_loop s 0 with
         | Some (n, []) => Some n
         | _ => None
         end
  end.

(** [net.ParseCIDR]: only the network is used by the program. *)
Definition ParseCIDR (s : bytes) : option IPNet :=
  '(addr, mask) ← cut_at b_slash s;
  a ← ParseAddr addr;
  n ← dtoi_all mask;
  match a with
  | inl v4 => if 32 <? n then None
              else let m := CIDRMask (Z.to_nat n) 32 in
                   Some {| n_ip := Mask v4 m; n_mask := m |}
  | inr v6 => if 128 <? n then None
              else let m := CIDRMask (Z.to_nat n) 128 in
                   Some {| n_ip := Mask v6 m; n_mask := m |}
  end.

Example ParseCIDR_v4 :
  ParseCIDR (bs "10.1.2.3/8") = Some {| n_ip := [x0a; x00; x00; x00]; n_mask := [xff; x00; x00; x00] |}.
Proof. vm_compute. reflexivity. Qed.

Example ParseCIDR_mapped :
  n_ip <$> ParseCIDR (bs "::ffff:10.0.0.0/104")
  = Some (v4InV6Prefix ++ [x0a; x00; x00; x00]).
Proof. vm_compute. reflexivity. Qed.

Example ParseIP_ellipsis :
  ParseIP (bs "2001:db8::1") = Some (map byte_of_Z [32;1;13;184;0;0;0;0;0;0;0;0;0;0;0;1]).
Proof. vm_compute. reflexivity. Qed.

(** ** Bit-level lemmas *)

Lemma length_byte_bits b : length (byte_bits b) = 8%nat.
Proof. reflexivity. Qed.

Lemma bits_of_cons b l : bits_of (b :: l) = byte_bits b ++ bits_of l.
Proof. reflexivity. Qed.

Lemma length_bits_of l : length (bits_of l) = (8 * length l)%nat.
Proof.
  induction l as [|b l IH]; [done|].
  rewrite bits_of_cons, length_app, IH, length_byte_bits. simpl. lia.
Qed.

Lemma bits_of_app a b : bits_of (a ++ b) = bits_of a ++ bits_of b.
Proof. apply flat_map_app. Qed.

Lemma byte_bits_inj a b : byte_bits a = byte_bits b -> a = b.
Proof.
  intros H. apply byteZ_inj, Z.bits_inj'. intros n Hn.
  destruct (decide (n < 8)) as [Hlt|Hge].
  - unfold byte_bits in H. simpl in H. simplify_eq.
    assert (n = 0 \/ n = 1 \/ n = 2 \/ n = 3 \/ n = 4 \/ n = 5 \/ n = 6 \/ n = 7) as Hc by lia.
    naive_solver.
  - pose proof (byteZ_bound a). pose proof (byteZ_bound b).
    assert (forall z, 0 <= z < 256 -> Z.testbit z n = false) as Hhi; [|by rewrite !Hhi].
    intros z Hz. destruct (decide (z = 0)) as [->|]; [apply Z.testbit_0_l|].
    apply Z.bits_above_log2; [lia|].
    assert (Z.log2 z < 8) by (apply Z.log2_lt_pow2; lia). lia.
Qed.

Lemma bits_of_inj a b : bits_of a = bits_of b -> a = b.
Proof.
  revert b. induction a as [|x a IH]; intros [|y b] H; try done.
  rewrite !bits_of_cons in H. apply app_inj_1 in H as [Hx Hr]; [|reflexivity].
  f_equal; [by apply byte_bits_inj | by apply IH].
Qed.

Lemma bits_of_lookup l q r :
  (r < 8)%nat ->
  bits_of l !! (8 * q + r)%nat = (fun b => Z.testbit (byteZ b) (7 - Z.of_nat r)) <$> (l !! q).
Proof.
  intros Hr. revert q. induction l as [|b l IH]; intros q; [done|].
  rewrite bits_of_cons. destruct q as [|q].
  - rewrite lookup_app_l by (rewrite length_byte_bits; lia). rewrite Nat.mul_0_r, Nat.add_0_l.
    unfold byte_bits. rewrite list_lookup_fmap.
    do 8 (destruct r as [|r]; [reflexivity|]). lia.
  - rewrite lookup_app_r by (rewrite length_byte_bits; lia).
    rewrite length_byte_bits.
    replace (8 * S q + r - 8)%nat with (8 * q + r)%nat by lia. apply IH.
Qed.

Lemma byte_bits_and a b : byte_bits (byte_and a b) = zip_with andb (byte_bits a) (byte_bits b).
Proof.
  unfold byte_bits, byte_and. rewrite byteZ_of_Z.
  assert (Z.land (byteZ a) (byteZ b) mod 256 = Z.land (byteZ a) (byteZ b)) as ->.
  { change 256 with (2 ^ 8). rewrite <- Z.land_ones by lia. rewrite <- Z.land_assoc.
    rewrite (Z.land_ones (byteZ b)) by lia. by rewrite (Z.mod_small (byteZ b)) by apply byteZ_bound. }
  cbn [map zip_with]. by rewrite !Z.land_spec.
Qed.

Lemma bits_of_Mask ip m :
  length ip = length m ->
  bits_of (Mask ip m) = zip_with andb (bits_of ip) (bits_of m).
Proof.
  revert m. induction ip as [|a ip IH]; intros [|b m] H; try done.
  simpl in H. injection H as H. change (Mask (a :: ip) (b :: m)) with (byte_and a b :: Mask ip m).
  rewrite !bits_of_cons, byte_bits_and, IH by done.
  rewrite zip_with_app by done. done.
Qed.

Lemma length_Mask ip m : length ip = length m -> length (Mask ip m) = length ip.
Proof. intros H. unfold Mask. rewrite length_zip_with. lia. Qed.

Lemma bits_of_cidr_mask l n :
  (n <= 8 * l)%nat ->
  bits_of (cidr_mask_bytes l n) = replicate n true ++ replicate (8 * l - n) false.
Proof.
  revert n. induction l as [|l IH]; intros n Hn.
  - by replace n with 0%nat by lia.
  - cbn [cidr_mask_bytes]. destruct (Nat.leb_spec 8 n) as [H8|H8].
    + rewrite bits_of_cons, IH by lia.
      replace (byte_bits xff) with (replicate 8 true) by reflexivity.
      rewrite app_assoc, <- replicate_add. f_equal; f_equal; lia.
    + rewrite bits_of_cons, IH by lia.
      rewrite Nat.sub_0_r. cbn [replicate app].
      replace (8 * S l - n)%nat with ((8 - n) + 8 * l)%nat by lia.
      rewrite replicate_add, app_assoc. f_equal.
      do 8 (destruct n as [|n]; [vm_compute; reflexivity|]). lia.
Qed.

Lemma isZeros_cidr_mask_0 l : isZeros (cidr_mask_bytes l 0) = true.
Proof. induction l as [|l IH]; [done|]. apply IH. Qed.

Lemma simpleMaskLength_cidr l n :
  (n <= 8 * l)%nat -> simpleMaskLength (cidr_mask_bytes l n) = Some n.
Proof.
  revert n. induction l as [|l IH]; intros n Hn.
  - by replace n with 0%nat by lia.
  - cbn [cidr_mask_bytes]. destruct (Nat.leb_spec 8 n) as [H8|H8].
    + cbn [simpleMaskLength]. rewrite bool_decide_eq_true_2 by done.
      rewrite IH by lia. cbn. f_equal. lia.
    + cbn [simpleMaskLength]. rewrite bool_decide_eq_false_2.
      2: { do 8 (destruct n as [|n]; [vm_compute; discriminate|]). lia. }
      rewrite isZeros_cidr_mask_0.
      do 8 (destruct n as [|n]; [vm_compute; reflexivity|]). lia.
Qed.

Lemma length_cidr_mask l n : length (cidr_mask_bytes l n) = l.
Proof.
  revert n. induction l as [|l IH]; intros n; [done|]. cbn [cidr_mask_bytes].
  destruct (8 <=? n)%nat; cbn; by rewrite IH.
Qed.

(** ** Masked comparison is prefix comparison *)

Lemma zip_andb_mask (bits : list bool) k r :
  length bits = (k + r)%nat ->
  zip_with andb bits (replicate k true ++ replicate r false) = take k bits ++ replicate r false.
Proof.
  revert k r. induction bits as [|b bits IH]; intros k r H.
  - destruct k, r; try done; simpl in H; lia.
  - destruct k as [|k].
    + destruct r as [|r]; [simpl in H; lia|]. cbn. rewrite andb_false_r. f_equal.
      apply (IH 0%nat r). simpl in *. lia.
    + cbn. rewrite andb_true_r. f_equal. apply IH. simpl in *. lia.
Qed.

Lemma bits_of_masked ip l k :
  length ip = l -> (k <= 8 * l)%nat ->
  bits_of (Mask ip (cidr_mask_bytes l k)) = take k (bits_of ip) ++ replicate (8 * l - k) false.
Proof.
  intros Hl Hk. rewrite bits_of_Mask by (by rewrite length_cidr_mask).
  rewrite bits_of_cidr_mask by done. apply zip_andb_mask. rewrite length_bits_of. lia.
Qed.

Lemma Mask_eq_iff a b l k :
  length a = l -> length b = l -> (k <= 8 * l)%nat ->
  Mask a (cidr_mask_bytes l k) = Mask b (cidr_mask_bytes l k)
  <-> take k (bits_of a) = take k (bits_of b).
Proof.
  intros Ha Hb Hk. split.
  - intros H. apply (f_equal bits_of) in H. rewrite !bits_of_masked in H by done.
    by apply app_inv_tail in H.
  - intros H. apply bits_of_inj. by rewrite !bits_of_masked, H by done.
Qed.

Lemma take_bits_masked ip l k :
  length ip = l -> (k <= 8 * l)%nat ->
  take k (bits_of (Mask ip (cidr_mask_bytes l k))) = take k (bits_of ip).
Proof.
  intros Hl Hk. rewrite bits_of_masked by done.
  rewrite take_app_le by (rewrite length_take, length_bits_of; lia).
  rewrite take_take. f_equal. lia.
Qed.

Lemma drop_cidr_mask j l k :
  (8 * j <= k)%nat -> drop j (cidr_mask_bytes (j + l) k) = cidr_mask_bytes l (k - 8 * j).
Proof.
  revert k. induction j as [|j IH]; intros k Hk; [by rewrite Nat.sub_0_r|].
  cbn [Nat.add cidr_mask_bytes]. rewrite (proj2 (Nat.leb_le 8 k)) by lia.
  cbn [drop]. rewrite IH by lia. f_equal. lia.
Qed.

(** ** [To4] *)

Lemma To4_length ip v4 : To4 ip = Some v4 -> length v4 = 4%nat.
Proof.
  unfold To4. destruct (Nat.eqb_spec (length ip) 4) as [H4|H4]; [by intros; simplify_eq|].
  destruct (Nat.eqb_spec (length ip) 16) as [H16|H16]; [|done]. cbn [andb].
  destruct (isZeros _ && _ && _); [|done]. intros; simplify_eq. rewrite length_drop. lia.
Qed.

Lemma To4_4 ip : length ip = 4%nat -> To4 ip = Some ip.
Proof. intros H. unfold To4. by rewrite H. Qed.

Lemma To4_16 ip v4 :
  length ip = 16%nat -> To4 ip = Some v4 -> v4 = drop 12 ip /\ ip !! 11%nat = Some xff.
Proof.
  intros H. unfold To4. rewrite H. cbn [Nat.eqb andb].
  destruct (isZeros (take 10 ip)); [|done]. cbn [andb].
  case_bool_decide as H10; [|done]. case_bool_decide as H11; [|done].
  cbn. intros; by simplify_eq.
Qed.

(** ** What [ParseCIDR] returns: a masked address of four or sixteen bytes
    with the canonical mask of its prefix length *)

Definition canonical (n : IPNet) (l k : nat) : Prop :=
  (l = 4%nat \/ l = 16%nat) /\ (k <= 8 * l)%nat /\
  exists ip, length ip = l /\
    n = {| n_ip := Mask ip (cidr_mask_bytes l k); n_mask := cidr_mask_bytes l k |}.

Lemma parse_v4_loop_length s fields val dl st v4 :
  parse_v4_loop s fields val dl st = Some v4 -> length v4 = 4%nat.
Proof.
  revert fields val dl st. induction s as [|c r IH]; intros fields val dl st; cbn [parse_v4_loop].
  - destruct (Nat.eqb_spec (length fields) 3); [|done]. destruct st; [done|].
    cbn. intros; simplify_eq. rewrite length_app. simpl. lia.
  - destruct (is_digit c).
    + destruct (_ && _); [done|]. destruct (255 <? _); [done|]. apply IH.
    + case_bool_decide; [|done]. destruct st; [done|].
      destruct (length fields =? 3)%nat; [done|]. apply IH.
Qed.

Lemma parse_v6_loop_length fuel : forall s ip ell ip' e' s',
  (length ip + 2 * fuel = 16)%nat ->
  parse_v6_loop fuel s ip ell = Some (ip', e', s') -> (length ip' <= 16)%nat.
Proof.
  induction fuel as [|fuel IH]; intros s ip ell ip' e' s' Hl H; cbn [parse_v6_loop] in H.
  { simplify_eq. lia. }
  destruct (hex_group s 0 0) as [[[acc off] rest]|]; [|done].
  destruct (off =? 0)%nat; [done|].
  destruct rest as [|c r].
  { simplify_eq. rewrite length_app. cbn. lia. }
  case_bool_decide.
  { destruct (match ell with None => _ | Some _ => _ end); cbn [orb] in H; [done|].
    destruct (Nat.ltb_spec 16 (length ip + 4)); [done|].
    destruct (parseIPv4 s) as [v4|] eqn:E; [|done]. simplify_eq.
    apply parse_v4_loop_length in E. rewrite length_app. lia. }
  destruct (negb _); [done|]. destruct r as [|c2 r2]; [done|].
  case_bool_decide.
  - destruct ell; [done|]. destruct r2.
    + simplify_eq. rewrite length_app. cbn. lia.
    + eapply IH; [|exact H]. rewrite length_app. cbn. lia.
  - eapply IH; [|exact H]. rewrite length_app. cbn. lia.
Qed.

Lemma expand_v6_length ip e v6 :
  (length ip <= 16)%nat -> expand_v6 ip e = Some v6 -> length v6 = 16%nat.
Proof.
  unfold expand_v6. intros Hl. destruct (Nat.ltb_spec (length ip) 16), e; intros; simplify_eq; [|lia].
  rewrite !length_app, length_replicate, length_take, length_drop. lia.
Qed.

Lemma ParseAddr_length s a :
  ParseAddr s = Some a ->
  match a with inl v4 => length v4 = 4%nat | inr v6 => length v6 = 16%nat end.
Proof.
  unfold ParseAddr. destruct (ParseAddr_kind s) as [[]|]; [| |done].
  - destruct (parseIPv4 s) eqn:E; [|done]. cbn. intros; simplify_eq. by eapply parse_v4_loop_length.
  - unfold parseIPv6.
    destruct (match s with _ :: _ :: _ => _ | _ => _ end) as [s' ell].
    destruct s' as [|c s'], ell as [e|]; cbn [fmap option_fmap option_map]; intros H;
      try (simplify_eq; reflexivity).
    all: destruct (parse_v6_loop 8 _ [] _) as [[[ip e'] [|? ?]]|] eqn:E; try done.
    all: destruct (expand_v6 ip e') as [v|] eqn:Ex; [|done]; cbn in H; simplify_eq.
    all: eapply expand_v6_length; [|exact Ex]; eapply parse_v6_loop_length; [|exact E]; done.
Qed.

Lemma ParseCIDR_canonical s n : ParseCIDR s = Some n -> exists l k, canonical n l k.
Proof.
  unfold ParseCIDR. destruct (cut_at b_slash s) as [[addr mask]|]; [|done].
  cbn [mbind option_bind].
  destruct (ParseAddr addr) as [a|] eqn:Ea; [|done]. cbn [mbind option_bind].
  destruct (dtoi_all mask) as [z|]; [|done]. cbn [mbind option_bind]. apply ParseAddr_length in Ea.
  destruct a as [v4|v6].
  - destruct (Z.ltb_spec 32 z); [done|]. intros; simplify_eq.
    exists 4%nat, (Z.to_nat z). split; [by left|]. split; [lia|]. by exists v4.
  - destruct (Z.ltb_spec 128 z); [done|]. intros; simplify_eq.
    exists 16%nat, (Z.to_nat z). split; [by right|]. split; [lia|]. by exists v6.
Qed.
