(* ===== verification/IpLookup.v ===== *)
(** * IpLookup: the CIDR store of package [iplookup]

    [Tree] models [iplookup/tree.go] (the per-family radix tree) and [Helper]
    models [iplookup/helper.go] (two trees and a counter behind one lock).
    Every access that can index past the end of an address returns [option]:
    [None] is Go's index-out-of-range panic.

    The abstract store is a finite map from (family, prefix bits) to metadata;
    [elems] and [abs] are the abstraction functions, and the theorems show
    that insert, remove and reset are the map operations and that lookup is
    longest-prefix match, agreeing with [net.IPNet.Contains]. *)

From S2P Require Import Prelude.
From S2P Require Import NetIP.
From Stdlib Require Import ZArith Lia List String.
From Stdlib Require Import Strings.Byte.
From stdpp Require Import base list strings option gmap.

Open Scope Z_scope.

Module Tree.

(** ** Data: [radixNode]; [Nil] is the nil pointer *)

Inductive radixNode :=
| Nil
| Node (isEndpoint : bool) (prefixLen : Z) (metadata : string) (left right : radixNode).

(** [&radixNode{}] *)
Definition emptyNode : radixNode := Node false 0 EmptyString Nil Nil.

Definition newIPRadixTree : radixNode := emptyNode.

(** [bitAt]: [None] is the index-out-of-range panic. *)
Definition bitAt (walk : bytes) (actualBitPos : nat) : option Z :=
  let bytePos := (actualBitPos / 8)%nat in
  let bitPos := 7 - Z.of_nat (actualBitPos mod 8)%nat in
  b ← walk !! bytePos;
  Some (Z.land (Z.shiftr (byteZ b) bitPos) 1).

(** [familyWalk] *)
Definition familyWalk (ip : bytes) : bytes * nat :=
  match To4 ip with
  | Some v4 => (v4, 32%nat)
  | None => (ip, 128%nat)
  end.

(** [prefixWalk] *)
Definition prefixWalk (cidr : IPNet) : bytes * Z :=
  let walk := fst (familyWalk (n_ip cidr)) in
  let '(ones, bits) := Mask_Size (n_mask cidr) in
  let prefixLen :=
    match To4 (n_ip cidr) with
    | Some _ => if (bits =? 128) && (96 <=? ones) then ones - 96 else ones
    | None => ones
    end in
  (walk, prefixLen).

(** The walk of [insert] from bit [i] with [fuel] prefix bits to go, then the
    endpoint update. *)
Fixpoint insert_walk (walk : bytes) (prefixLen : Z) (meta : string) (i fuel : nat)
    (current : radixNode) : option (bool * radixNode) :=
  match current with
  | Nil => None
  | Node isEndpoint plen metadata lc rc =>
      match fuel with
      | O =>
          if isEndpoint then Some (false, Node isEndpoint plen meta lc rc)
          else Some (true, Node true prefixLen meta lc rc)
      | S fuel' =>
          bit ← bitAt walk i;
          if bit =? 0 then
            let child := match lc with Nil => emptyNode | _ => lc end in
            '(added, child') ← insert_walk walk prefixLen meta (S i) fuel' child;
            Some (added, Node isEndpoint plen metadata child' rc)
          else
            let child := match rc with Nil => emptyNode | _ => rc end in
            '(added, child') ← insert_walk walk prefixLen meta (S i) fuel' child;
            Some (added, Node isEndpoint plen metadata lc child')
      end
  end.

(** [ipRadixTree.insert] *)
Definition insert (root : radixNode) (cidr : IPNet) (meta : string) : option (bool * radixNode) :=
  let '(ip, prefixLen) := prefixWalk cidr in
  insert_walk ip prefixLen meta 0 (Z.to_nat prefixLen) root.

(** The loop of [contains]: [acc] is the last endpoint seen. *)
Fixpoint contains_walk (walk : bytes) (i fuel : nat) (current : radixNode)
    (acc : bool * Z * string) : option (bool * Z * string) :=
  match current with
  | Nil => Some acc
  | Node isEndpoint plen metadata lc rc =>
      let acc := if isEndpoint then (true, plen, metadata) else acc in
      match fuel with
      | O => Some acc
      | S fuel' =>
          bit ← bitAt walk i;
          contains_walk walk (S i) fuel' (if bit =? 0 then lc else rc) acc
      end
  end.

(** [ipRadixTree.contains] *)
Definition contains (root : radixNode) (ip : bytes) : option (bool * Z * string) :=
  let '(walk, maxPrefixLen) := familyWalk ip in
  contains_walk walk 0 maxPrefixLen root (false, 0, EmptyString).

(** [node.isEndpoint || node.left != nil || node.right != nil] *)
Definition holds_something (n : radixNode) : bool :=
  match n with
  | Nil => false
  | Node e _ _ l r =>
      e || match l with Nil => false | _ => true end || match r with Nil => false | _ => true end
  end.

(** The prune loop: a child that holds nothing becomes nil.  Once a node
    holds something its ancestors do too, so the source's [break] and this
    bottom-up test agree. *)
Definition prune (n : radixNode) : radixNode := if holds_something n then n else Nil.

(** The descent of [remove], its endpoint reset and the prune on the way back. *)
Fixpoint remove_walk (walk : bytes) (i fuel : nat) (current : radixNode)
    : option (bool * radixNode) :=
  match current with
  | Nil => Some (false, Nil)
  | Node isEndpoint plen metadata lc rc =>
      match fuel with
      | O =>
          if isEndpoint then Some (true, Node false 0 EmptyString lc rc)
          else Some (false, current)
      | S fuel' =>
          bit ← bitAt walk i;
          if bit =? 0 then
            '(removed, child) ← remove_walk walk (S i) fuel' lc;
            Some (removed, if removed : bool then Node isEndpoint plen metadata (prune child) rc
                           else current)
          else
            '(removed, child) ← remove_walk walk (S i) fuel' rc;
            Some (removed, if removed : bool then Node isEndpoint plen metadata lc (prune child)
                           else current)
      end
  end.

(** [ipRadixTree.remove] *)
Definition remove (root : radixNode) (cidr : IPNet) : option (bool * radixNode) :=
  let '(ip, prefixLen) := prefixWalk cidr in
  remove_walk ip 0 (Z.to_nat prefixLen) root.

(** ** Abstraction: the stored prefixes *)

(** The prefix bits stored below a node, with their metadata. *)
Fixpoint find (t : radixNode) (p : list bool) : option string :=
  match t with
  | Nil => None
  | Node e _ m l r =>
      match p with
      | [] => if e then Some m else None
      | b :: p' => find (if b then r else l) p'
      end
  end.

Fixpoint elems (t : radixNode) : gmap (list bool) string :=
  match t with
  | Nil => ∅
  | Node e _ m l r =>
      (if e then {[ [] := m ]} else ∅)
      ∪ kmap (cons false) (elems l) ∪ kmap (cons true) (elems r)
  end.

(** ** Invariant: an endpoint at depth [d] records length [d], and every node
    below the root holds an endpoint (no empty leaf survives). *)

Fixpoint depth_ok (d : Z) (t : radixNode) : Prop :=
  match t with
  | Nil => True
  | Node e p _ l r => (e = true -> p = d) /\ depth_ok (d + 1) l /\ depth_ok (d + 1) r
  end.

Fixpoint pruned (t : radixNode) : Prop :=
  match t with
  | Nil => True
  | Node e p m l r =>
      (l = Nil \/ holds_something l = true) /\ (r = Nil \/ holds_something r = true)
      /\ pruned l /\ pruned r
  end.

Definition wf (root : radixNode) : Prop := root <> Nil /\ depth_ok 0 root /\ pruned root.

(** ** Lemmas *)

Lemma bitAt_bits walk i : bitAt walk i = (fun b : bool => if b then 1 else 0) <$> bits_of walk !! i.
Proof.
  unfold bitAt. pose proof (Nat.mod_upper_bound i 8 ltac:(lia)) as Hr.
  replace (bits_of walk !! i) with (bits_of walk !! (8 * (i / 8) + i mod 8)%nat)
    by (f_equal; symmetry; apply Nat.div_mod_eq).
  rewrite bits_of_lookup by done.
  destruct (walk !! (i / 8)%nat) as [b|]; [|done].
  cbn [mbind option_bind fmap option_fmap option_map]. f_equal.
  set (k := 7 - Z.of_nat (i mod 8)). assert (0 <= k) by lia.
  apply Z.bits_inj'. intros n Hn.
  rewrite Z.land_spec, Z.shiftr_spec by done.
  destruct (decide (n = 0)) as [->|].
  - rewrite Z.add_0_l. destruct (Z.testbit (byteZ b) k); reflexivity.
  - replace (Z.testbit 1 n) with false.
    2: { symmetry. apply Z.bits_above_log2; cbn; lia. }
    rewrite andb_false_r. destruct (Z.testbit (byteZ b) k); symmetry.
    + apply Z.bits_above_log2; cbn; lia.
    + apply Z.testbit_0_l.
Qed.

#[local] Instance cons_bit_inj (b : bool) : Inj (=) (=) (cons b).
Proof. intros p q H. by injection H. Qed.

Lemma elems_lookup t p : elems t !! p = find t p.
Proof.
  revert p. induction t as [|e k m l IHl r IHr]; intros p; [apply lookup_empty|].
  simpl elems. rewrite !lookup_union.
  destruct p as [|b p]; simpl find.
  - rewrite (proj2 (lookup_kmap_None (M1:=gmap (list bool)) (cons false) (elems l) [])) by done.
    rewrite (proj2 (lookup_kmap_None (cons true) (elems r) [])) by done.
    destruct e; by simplify_map_eq.
  - destruct b.
    + rewrite (proj2 (lookup_kmap_None (cons false) (elems l) (true :: p))) by done.
      rewrite (lookup_kmap (cons true)), <- IHr.
      destruct e; simplify_map_eq; by destruct (elems r !! p).
    + rewrite (proj2 (lookup_kmap_None (cons true) (elems r) (false :: p))) by done.
      rewrite (lookup_kmap (cons false)), <- IHl.
      destruct e; simplify_map_eq; by destruct (elems l !! p).
Qed.

(** The bits a walk of [n] steps from bit [i] reads. *)
Definition pbits (walk : bytes) (i n : nat) : list bool := take n (drop i (bits_of walk)).

Lemma pbits_S walk i n :
  (i + S n <= length (bits_of walk))%nat ->
  exists b, bitAt walk i = Some (if b : bool then 1 else 0) /\ pbits walk i (S n) = b :: pbits walk (S i) n.
Proof.
  intros H. unfold pbits.
  destruct (lookup_lt_is_Some_2 (bits_of walk) i) as [b Hb]; [lia|].
  exists b. rewrite bitAt_bits, Hb. split; [done|].
  by rewrite (drop_S _ _ _ Hb).
Qed.

Lemma find_empty q : find emptyNode q = None.
Proof. destruct q as [|[] q]; done. Qed.

(** What an insertion of prefix [p] did to a subtree. *)
Record inserted (p : list bool) (meta : string) (t : radixNode) (res : bool * radixNode) : Prop := {
  ins_added : fst res = bool_decide (find t p = None);
  ins_find : forall q, find (snd res) q = if decide (q = p) then Some meta else find t q;
  ins_some : holds_something (snd res) = true;
}.

Lemma insert_walk_spec walk plen meta fuel : forall i t,
  t <> Nil -> (i + fuel <= length (bits_of walk))%nat ->
  exists res, insert_walk walk plen meta i fuel t = Some res
    /\ inserted (pbits walk i fuel) meta t res.
Proof.
  induction fuel as [|fuel IH]; intros i [|e k m l r] Hnil Hlen; try done.
  - cbn [insert_walk]. destruct e; eexists; (split; [reflexivity|]); split; try done.
    all: intros [|b q]; cbn; [done|]; by destruct b.
  - destruct (pbits_S walk i fuel Hlen) as (b & Hb & Hp). rewrite Hp.
    cbn [insert_walk]. rewrite Hb. cbn [mbind option_bind].
    set (c := if b then r else l).
    set (c0 := match c with Nil => emptyNode | _ => c end).
    assert (c0 <> Nil) as Hc0 by (unfold c0; by destruct c).
    assert (forall q, find c0 q = find c q) as Hfc.
    { intros q. unfold c0. destruct c; [by rewrite find_empty|done]. }
    destruct (IH (S i) c0 Hc0 ltac:(lia)) as ([added c'] & Hins & [Ha Hf Hs]).
    cbn [fst snd] in *.
    assert (exists t', (if (if b then 1 else 0) =? 0
        then '(added, child') ← insert_walk walk plen meta (S i) fuel (match l with Nil => emptyNode | _ => l end);
             Some (added, Node e k m child' r)
        else '(added, child') ← insert_walk walk plen meta (S i) fuel (match r with Nil => emptyNode | _ => r end);
             Some (added, Node e k m l child')) = Some (added, t')
        /\ t' = if b then Node e k m l c' else Node e k m c' r) as (t' & Heq & ->).
    { destruct b; unfold c0, c in Hins; cbn; rewrite Hins; cbn; eauto. }
    exists (added, if b then Node e k m l c' else Node e k m c' r). split; [exact Heq|].
    split; cbn [fst snd].
    + rewrite Ha, Hfc. unfold c. by destruct b.
    + intros [|b' q]; [by destruct b|].
      destruct (decide (b' = b)) as [->|Hne].
      * transitivity (find c' q); [by destruct b|]. rewrite Hf, Hfc.
        destruct (decide (q = pbits walk (S i) fuel)) as [->|Hq].
        -- by rewrite decide_True.
        -- rewrite decide_False by congruence. unfold c. by destruct b.
      * rewrite decide_False by congruence. by destruct b, b'.
    + destruct c'; [done|]. destruct b, e; cbn; destruct l; done.
Qed.

Lemma insert_walk_depth walk plen meta fuel : forall i t d added t',
  depth_ok d t -> plen = d + Z.of_nat fuel ->
  insert_walk walk plen meta i fuel t = Some (added, t') -> depth_ok d t'.
Proof.
  induction fuel as [|fuel IH]; intros i [|e k m l r] d added t' Hd Hp Hi; try done.
  - cbn in Hi. destruct e; simplify_eq; cbn in *; naive_solver lia.
  - cbn [insert_walk] in Hi. destruct (bitAt walk i) as [bit|]; [|done].
    cbn [mbind option_bind] in Hi. destruct Hd as (He & Hl & Hr).
    assert (forall c, depth_ok (d + 1) c ->
              depth_ok (d + 1) (match c with Nil => emptyNode | _ => c end)) as Hc.
    { intros [|]; cbn; [naive_solver|done]. }
    destruct (bit =? 0).
    + destruct (insert_walk _ _ _ _ _ _) as [[? c']|] eqn:E; [|done]. cbn in Hi. simplify_eq.
      cbn. split_and!; [done| |done]. eapply IH; [|lia|exact E]. by apply Hc.
    + destruct (insert_walk _ _ _ _ _ _) as [[? c']|] eqn:E; [|done]. cbn in Hi. simplify_eq.
      cbn. split_and!; [done|done|]. eapply IH; [|lia|exact E]. by apply Hc.
Qed.

Lemma insert_walk_pruned walk plen meta fuel : forall i t added t',
  pruned t -> insert_walk walk plen meta i fuel t = Some (added, t') ->
  pruned t' /\ holds_something t' = true.
Proof.
  induction fuel as [|fuel IH]; intros i [|e k m l r] added t' Hd Hi; try done.
  - cbn in Hi. destruct e; simplify_eq; cbn in *; naive_solver.
  - cbn [insert_walk] in Hi. destruct (bitAt walk i) as [bit|]; [|done].
    cbn [mbind option_bind] in Hi. destruct Hd as (Hle & Hre & Hl & Hr).
    assert (forall c, pruned c -> pruned (match c with Nil => emptyNode | _ => c end)) as Hc.
    { intros [|]; cbn; [naive_solver|done]. }
    destruct (bit =? 0).
    + destruct (insert_walk _ _ _ _ _ _) as [[? c']|] eqn:E; [|done]. cbn in Hi. simplify_eq.
      apply IH in E as [Hp Hs]; [|by apply Hc]. cbn. destruct c'; [done|]. split; [|by destruct e].
      naive_solver.
    + destruct (insert_walk _ _ _ _ _ _) as [[? c']|] eqn:E; [|done]. cbn in Hi. simplify_eq.
      apply IH in E as [Hp Hs]; [|by apply Hc]. cbn. destruct c'; [done|].
      split; [|by destruct e, l]. naive_solver.
Qed.

Lemma find_prune t q : find (prune t) q = find t q.
Proof.
  unfold prune. destruct t as [|e k m [] []]; try done; cbn.
  all: destruct e; try done. destruct q as [|[] q]; done.
Qed.

Lemma prune_ok t : prune t = Nil \/ holds_something (prune t) = true.
Proof. unfold prune. destruct (holds_something t) eqn:E; [by right|by left]. Qed.

Lemma pruned_prune t : pruned t -> pruned (prune t).
Proof. unfold prune. by destruct (holds_something t). Qed.

Lemma depth_ok_prune d t : depth_ok d t -> depth_ok d (prune t).
Proof. unfold prune. by destruct (holds_something t). Qed.

(** What a removal of prefix [p] did to a subtree. *)
Record removed_at (p : list bool) (t : radixNode) (res : bool * radixNode) : Prop := {
  rem_removed : fst res = bool_decide (is_Some (find t p));
  rem_find : forall q, find (snd res) q = if decide (q = p) then None else find t q;
  rem_nil : t <> Nil -> snd res <> Nil;
  rem_depth : forall d, depth_ok d t -> depth_ok d (snd res);
  rem_pruned : pruned t -> pruned (snd res);
}.

Lemma removed_at_absent p t : find t p = None -> removed_at p t (false, t).
Proof.
  intros Hn. split; cbn; try done.
  - rewrite Hn. symmetry. apply bool_decide_eq_false_2. by intros [? ?].
  - intros q. case_decide; by subst.
Qed.

Lemma removed_at_child p (b : bool) e k m l r c' :
  removed_at p (if b then r else l) (true, c') ->
  removed_at (b :: p) (Node e k m l r)
    (true, if b then Node e k m l (prune c') else Node e k m (prune c') r).
Proof.
  intros [Hr Hf Hnil Hd Hp]. cbn [fst snd] in *. split; cbn [fst snd].
  - rewrite Hr. by destruct b.
  - intros [|b' q]; [by destruct b|].
    destruct (decide (b' = b)) as [->|Hne].
    + transitivity (find c' q); [destruct b; apply find_prune|]. rewrite Hf.
      destruct (decide (q = p)) as [->|Hq]; [by rewrite decide_True|].
      rewrite decide_False by congruence. by destruct b.
    + rewrite decide_False by congruence. by destruct b, b'.
  - by destruct b.
  - intros d (He & Hl & Hrr). destruct b; cbn; split_and!; auto using depth_ok_prune.
  - intros (Hle & Hre & Hl & Hrr). pose proof (prune_ok c').
    destruct b; cbn; split_and!; auto using pruned_prune.
Qed.

Lemma remove_walk_spec walk fuel : forall i t,
  (i + fuel <= length (bits_of walk))%nat ->
  exists res, remove_walk walk i fuel t = Some res /\ removed_at (pbits walk i fuel) t res.
Proof.
  induction fuel as [|fuel IH]; intros i [|e k m l r] Hlen.
  1,3: eexists; split; [reflexivity|by apply removed_at_absent].
  - cbn [remove_walk]. destruct e.
    + eexists; split; [reflexivity|]. split; cbn; try done.
      * intros [|b q]; [done|]. by destruct b.
      * naive_solver.
    + eexists; split; [reflexivity|]. by apply removed_at_absent.
  - destruct (pbits_S walk i fuel Hlen) as (b & Hb & Hp). rewrite Hp.
    cbn [remove_walk]. rewrite Hb. cbn [mbind option_bind].
    destruct (IH (S i) (if b then r else l) ltac:(lia)) as ([rem c'] & Hrw & Hra).
    exists (rem, if rem then if b then Node e k m l (prune c') else Node e k m (prune c') r
                 else Node e k m l r).
    split.
    + by destruct b; cbn; rewrite Hrw.
    + destruct rem; [by apply removed_at_child|].
      apply removed_at_absent. destruct Hra as [Hr _ _ _ _]. cbn in Hr.
      symmetry in Hr. apply bool_decide_eq_false in Hr. apply eq_None_not_Some.
      by destruct b.
Qed.

(** Longest-prefix match: [res] is the deepest prefix of [bits] stored in
    [t], or [acc] when there is none. *)
Definition longest (t : radixNode) (bits : list bool) (d : Z) (acc res : bool * Z * string) : Prop :=
  (exists n m, (n <= length bits)%nat /\ find t (take n bits) = Some m /\ res = (true, d + Z.of_nat n, m)
     /\ forall n', (n < n' <= length bits)%nat -> find t (take n' bits) = None)
  \/ ((forall n, (n <= length bits)%nat -> find t (take n bits) = None) /\ res = acc).

Lemma contains_walk_spec walk fuel : forall i t d acc,
  (i + fuel <= length (bits_of walk))%nat -> depth_ok d t ->
  exists res, contains_walk walk i fuel t acc = Some res
    /\ longest t (pbits walk i fuel) d acc res.
Proof.
  induction fuel as [|fuel IH]; intros i [|e k m l r] d acc Hlen Hd.
  1,3: eexists; split; [reflexivity|right; done].
  - change (pbits walk i 0) with (@nil bool).
    cbn. eexists; split; [reflexivity|]. destruct Hd as (He & _). destruct e.
    + left. exists 0%nat, m. rewrite He, Z.add_0_r by done. split_and!; [done|done|done|]. intros n' Hn'. cbn in Hn'. lia.
    + right. split; [|done]. intros n _. by destruct n.
  - destruct (pbits_S walk i fuel Hlen) as (b & Hb & Hp). rewrite Hp.
    cbn [contains_walk]. rewrite Hb. cbn [mbind option_bind].
    destruct Hd as (He & Hl & Hr).
    destruct (IH (S i) (if b then r else l) (d + 1) (if e then (true, k, m) else acc) ltac:(lia))
      as (res & Hc & Hlong); [by destruct b|].
    exists res. split; [by destruct b|].
    destruct Hlong as [(n & m' & Hn & Hf & -> & Hmax)|[Hnone ->]].
    + left. exists (S n), m'. cbn [length take find]. split_and!; [lia|done|f_equal; f_equal; lia|].
      intros [|n'] Hn'; [lia|]. cbn. apply Hmax. lia.
    + destruct e.
      * left. exists 0%nat, m. rewrite He, Z.add_0_r by done. split_and!; [lia|done|done|].
        intros [|n'] Hn'; [lia|]. cbn in *. apply Hnone. lia.
      * right. split; [|done]. intros [|n'] Hn'; [done|]. cbn in *. apply Hnone. lia.
Qed.

End Tree.

Module Helper.
Import Tree.

(** ** State and errors *)

Record Helper := { ipv4Tree : radixNode; ipv6Tree : radixNode; count : Z }.

Inductive lookup_err :=
| ErrParseCIDR (cidr : bytes)      (* iplookup: parse CIDR %q *)
| ErrParseEntry (entry : bytes)    (* iplookup: parse address or CIDR %q *)
| ErrNilIP.                        (* iplookup: IP address is nil *)

(** [New] *)
Definition New : Helper :=
  {| ipv4Tree := newIPRadixTree; ipv6Tree := newIPRadixTree; count := 0 |}.

(** [treeFor]: the tree a lookup reads, and the write-back of a changed tree. *)
Definition is4 (ip : bytes) : bool := match To4 ip with Some _ => true | None => false end.

Definition treeFor (h : Helper) (ip : bytes) : radixNode :=
  if is4 ip then ipv4Tree h else ipv6Tree h.

Definition setTreeFor (h : Helper) (ip : bytes) (t : radixNode) (c : Z) : Helper :=
  if is4 ip then {| ipv4Tree := t; ipv6Tree := ipv6Tree h; count := c |}
  else {| ipv4Tree := ipv4Tree h; ipv6Tree := t; count := c |}.

(** [AddCIDR]; the outer [option] is a panic, the result an error or nil. *)
Definition AddCIDR (h : Helper) (cidr : bytes) (metadata : string)
    : option (option lookup_err * Helper) :=
  match ParseCIDR cidr with
  | None => Some (Some (ErrParseCIDR cidr), h)
  | Some block =>
      '(added, t) ← insert (treeFor h (n_ip block)) block metadata;
      Some (None, setTreeFor h (n_ip block) t (if added : bool then count h + 1 else count h))
  end.

(** [RemoveCIDR] *)
Definition RemoveCIDR (h : Helper) (cidr : bytes)
    : option ((bool * option lookup_err) * Helper) :=
  match ParseCIDR cidr with
  | None => Some ((false, Some (ErrParseCIDR cidr)), h)
  | Some block =>
      '(removed, t) ← remove (treeFor h (n_ip block)) block;
      if removed : bool
      then Some ((true, None), setTreeFor h (n_ip block) t (count h - 1))
      else Some ((false, None), setTreeFor h (n_ip block) t (count h))
  end.

(** [Contains] *)
Definition Contains (h : Helper) (ipAddr : IP) : option ((bool * Z * string) * option lookup_err) :=
  match ipAddr with
  | None => Some ((false, 0, EmptyString), Some ErrNilIP)
  | Some ip => res ← contains (treeFor h ip) ip; Some (res, None)
  end.

(** [Reset] and [Count] *)
Definition Reset (h : Helper) : Helper :=
  {| ipv4Tree := newIPRadixTree; ipv6Tree := newIPRadixTree; count := 0 |}.

Definition Count (h : Helper) : Z := count h.

(** ** Host entries *)

(** The UTF-8 encodings [unicode.IsSpace] accepts. *)
Definition space_runes : list bytes :=
  [[x09]; [x0a]; [x0b]; [x0c]; [x0d]; [x20]; [xc2; x85]; [xc2; xa0]; [xe1; x9a; x80];
   [xe2; x80; x80]; [xe2; x80; x81]; [xe2; x80; x82]; [xe2; x80; x83]; [xe2; x80; x84];
   [xe2; x80; x85]; [xe2; x80; x86]; [xe2; x80; x87]; [xe2; x80; x88]; [xe2; x80; x89];
   [xe2; x80; x8a]; [xe2; x80; xa8]; [xe2; x80; xa9]; [xe2; x80; xaf]; [xe2; x81; x9f];
   [xe3; x80; x80]].

Definition strip_one (pats : list bytes) (s : bytes) : option bytes :=
  head (omap (fun p => if bool_decide (take (length p) s = p) then Some (drop (length p) s) else None) pats).

Fixpoint strip_front (fuel : nat) (pats : list bytes) (s : bytes) : bytes :=
  match fuel with
  | O => s
  | S f => match strip_one pats s with Some r => strip_front f pats r | None => s end
  end.

(** [strings.TrimSpace]: every strip removes at least one byte, so the length
    is enough fuel. *)
Definition TrimSpace (s : bytes) : bytes :=
  let s1 := strip_front (length s) space_runes s in
  rev (strip_front (length s1) (map (@rev byte) space_runes) (rev s1)).

Definition digitb (n : Z) : byte := byte_of_Z (48 + n).

(** Decimal text of a byte, as [netip] writes a dotted quad. *)
Definition itoa_byte (b : byte) : bytes :=
  let n := byteZ b in
  if n <? 10 then [digitb n]
  else if n <? 100 then [digitb (n / 10); digitb (n mod 10)]
  else [digitb (n / 100); digitb (n / 10 mod 10); digitb (n mod 10)].

Definition v4_String (v4 : bytes) : bytes :=
  match v4 with
  | [a; b; c; d] => itoa_byte a ++ b_dot :: itoa_byte b ++ b_dot :: itoa_byte c ++ b_dot :: itoa_byte d
  | _ => []
  end.

Definition hexdig (n : Z) : byte := if n <? 10 then byte_of_Z (48 + n) else byte_of_Z (87 + n).

(** [appendHex]: no leading zeros. *)
Definition hex16 (n : Z) : bytes :=
  (if 4096 <=? n then [hexdig (n / 4096)] else [])
  ++ (if 256 <=? n then [hexdig (n / 256 mod 16)] else [])
  ++ (if 16 <=? n then [hexdig (n / 16 mod 16)] else [])
  ++ [hexdig (n mod 16)].

Fixpoint v6_groups (ip : bytes) : list Z :=
  match ip with
  | a :: b :: r => (byteZ a * 256 + byteZ b) :: v6_groups r
  | _ => []
  end.

Fixpoint zero_run (l : list Z) : nat :=
  match l with
  | 0 :: r => S (zero_run r)
  | _ => 0%nat
  end.

(** The longest run of at least two zero groups, first on ties. *)
Fixpoint zero_span (i : nat) (l : list Z) (best : nat * nat) : nat * nat :=
  match l with
  | [] => best
  | _ :: r =>
      let len := zero_run l in
      let best' := if (2 <=? len)%nat && (snd best <? len)%nat then (i, len) else best in
      zero_span (S i) r best'
  end.

Fixpoint hex_join (l : list Z) : bytes :=
  match l with
  | [] => []
  | [g] => hex16 g
  | g :: r => hex16 g ++ b_colon :: hex_join r
  end.

Definition v6_String (ip : bytes) : bytes :=
  let g := v6_groups ip in
  let '(start, len) := zero_span 0 g (0%nat, 0%nat) in
  if (len =? 0)%nat then hex_join g
  else hex_join (take start g) ++ b_colon :: b_colon :: hex_join (drop (start + len) g).

(** [IP.String] *)
Definition hexString (l : bytes) : bytes :=
  flat_map (fun b => [hexdig (byteZ b / 16); hexdig (byteZ b mod 16)]) l.

Definition IP_String (ip : bytes) : bytes :=
  match ip with
  | [] => bs "<nil>"
  | _ => if (length ip =? 4)%nat || (length ip =? 16)%nat
         then match To4 ip with Some v4 => v4_String v4 | None => v6_String ip end
         else bs "?" ++ hexString ip
  end.

(** [HostCIDR] *)
Definition HostCIDR (ip : bytes) : bytes :=
  match To4 ip with
  | Some v4 => IP_String v4 ++ bs "/32"
  | None => IP_String ip ++ bs "/128"
  end.

(** [entryCIDR] *)
Definition entryCIDR (entry : bytes) : bytes + lookup_err :=
  let trimmed := TrimSpace entry in
  match cut_at b_slash trimmed with
  | Some _ => inl trimmed
  | None =>
      match ParseIP trimmed with
      | None => inr (ErrParseEntry entry)
      | Some ip => inl (HostCIDR ip)
      end
  end.

(** [AddEntry] *)
Definition AddEntry (h : Helper) (entry : bytes) (metadata : string)
    : option (option lookup_err * Helper) :=
  match entryCIDR entry with
  | inr err => Some (Some err, h)
  | inl cidr => AddCIDR h cidr metadata
  end.

Example IP_String_v6 :
  map IP_String (option_list (ParseIP (bs "2001:0db8:0:0:1:0:0:1"))) = [bs "2001:db8::1:0:0:1"].
Proof. vm_compute. reflexivity. Qed.

Example AddEntry_mapped :
  (r ← AddEntry New (bs " ::ffff:10.0.0.1 ") "x"; Contains (snd r) (ParseIP (bs "10.0.0.1")))
  = Some ((true, 32, "x"%string), None).
Proof. vm_compute. reflexivity. Qed.

(** ** The abstract store *)

Abbreviation store := (gmap (bool * list bool) string).

(** The (family, prefix bits) key a network is stored under. *)
Definition net_key (n : IPNet) : bool * list bool :=
  (is4 (n_ip n), take (Z.to_nat (snd (prefixWalk n))) (bits_of (fst (prefixWalk n)))).

(** The (family, bits) of an address. *)
Definition addr_key (ip : bytes) : bool * list bool :=
  (is4 ip, bits_of (fst (familyWalk ip))).

Definition abs (h : Helper) : store :=
  kmap (pair true) (elems (ipv4Tree h)) ∪ kmap (pair false) (elems (ipv6Tree h)).

(** The helper's invariant: both trees well formed and the counter exact. *)
Definition inv (h : Helper) : Prop :=
  wf (ipv4Tree h) /\ wf (ipv6Tree h) /\ count h = Z.of_nat (size (abs h)).

(** ** Lemmas *)

Lemma abs_lookup h f p : abs h !! (f, p) = find (if f : bool then ipv4Tree h else ipv6Tree h) p.
Proof.
  unfold abs. rewrite lookup_union, <- !elems_lookup. destruct f.
  - rewrite (lookup_kmap (pair true)).
    rewrite (proj2 (lookup_kmap_None (pair false) (elems (ipv6Tree h)) (true, p))) by done.
    by destruct (elems _ !! p).
  - rewrite (lookup_kmap (pair false)).
    rewrite (proj2 (lookup_kmap_None (pair true) (elems (ipv4Tree h)) (false, p))) by done.
    by destruct (elems _ !! p).
Qed.

Lemma treeFor_wf h ip : inv h -> wf (treeFor h ip).
Proof. intros (H4 & H6 & _). unfold treeFor. by destruct (is4 ip). Qed.

(** The walk of a canonical network covers its prefix length. *)
Lemma prefixWalk_canonical n l k :
  canonical n l k ->
  exists w, prefixWalk n = (fst (familyWalk (n_ip n)), Z.of_nat w)
    /\ (w <= length (bits_of (fst (familyWalk (n_ip n)))))%nat
    /\ exists j, k = (w + 8 * j)%nat /\ l = (length (fst (familyWalk (n_ip n))) + j)%nat
        /\ fst (familyWalk (n_ip n)) = drop j (n_ip n)
        /\ (j <> 0%nat -> j = 12%nat /\ l = 16%nat /\ is4 (n_ip n) = true)
        /\ (l = 16%nat -> is4 (n_ip n) = true -> j = 12%nat).
Proof.
  intros (Hl & Hk & ip & Hip & ->). cbn [n_ip n_mask].
  unfold prefixWalk, familyWalk, is4. cbn [n_ip n_mask].
  set (m := cidr_mask_bytes l k). set (a := Mask ip m).
  assert (length a = l) as Ha by (unfold a; rewrite length_Mask by (unfold m; by rewrite length_cidr_mask); done).
  assert (Mask_Size m = (Z.of_nat k, 8 * Z.of_nat l)) as Hsz.
  { unfold Mask_Size, m. rewrite simpleMaskLength_cidr by done. by rewrite length_cidr_mask. }
  rewrite Hsz. destruct (To4 a) as [v4|] eqn:E; cbn [fst snd].
  - destruct Hl as [->| ->].
    + rewrite To4_4 in E by done. simplify_eq. exists k. rewrite length_bits_of, Ha.
      split_and!; [done|lia|]. exists 0%nat. rewrite drop_0. split_and!; try done; lia.
    + apply To4_16 in E as [-> H11]; [|done].
      assert (96 <= k)%nat as H96.
      { pose proof (bits_of_lookup a 11 7 ltac:(lia)) as Hb. rewrite H11 in Hb.
        change ((fun b => Z.testbit (byteZ b) (7 - Z.of_nat 7)) <$> Some xff) with (Some true) in Hb.
        unfold a, m in Hb. rewrite bits_of_masked in Hb by done.
        destruct (decide (k <= 95)%nat) as [Hk95|]; [|lia].
        rewrite lookup_app_r in Hb by (rewrite length_take, length_bits_of; lia).
        rewrite length_take, length_bits_of, Hip in Hb.
        rewrite lookup_replicate_2 in Hb by lia. done. }
      exists (k - 96)%nat. rewrite length_bits_of, length_drop, Ha.
      change (8 * Z.of_nat 16) with 128. rewrite Z.eqb_refl.
      rewrite (proj2 (Z.leb_le 96 (Z.of_nat k))) by lia. cbn [andb].
      split_and!; [f_equal; lia|lia|].
      exists 12%nat. split_and!; try done; lia.
  - exists k. destruct Hl as [->| ->]; [by rewrite To4_4 in E|].
    rewrite length_bits_of, Ha. split_and!; [done|lia|].
    exists 0%nat. rewrite drop_0. split_and!; try done; lia.
Qed.

(** Updating one family's tree updates the map at that family's key. *)
Lemma abs_setTreeFor h ip t c q v :
  (forall p, find t p = if decide (p = q) then v else find (treeFor h ip) p) ->
  forall f p, abs (setTreeFor h ip t c) !! (f, p)
    = if decide ((f, p) = (is4 ip, q)) then v else abs h !! (f, p).
Proof.
  intros Hf f p. rewrite !abs_lookup. unfold setTreeFor, treeFor in *.
  destruct (is4 ip), f; cbn; rewrite ?Hf; repeat case_decide; simplify_eq; try done.
Qed.

Lemma inv_New : inv New.
Proof.
  assert (wf newIPRadixTree) by (split_and!; [done|cbn; naive_solver..]).
  split_and!; [done|done|]. vm_compute. reflexivity.
Qed.

(** [IPNet.Contains] is prefix-of on keys of the same family. *)
Definition covers (k : bool * list bool) (a : bool * list bool) : Prop :=
  fst k = fst a /\ exists n, (n <= length (snd a))%nat /\ snd k = take n (snd a).

Lemma familyWalk_length ip :
  length ip = 4%nat \/ length ip = 16%nat ->
  length (fst (familyWalk ip)) = if is4 ip then 4%nat else 16%nat.
Proof.
  intros H. unfold familyWalk, is4. destruct (To4 ip) as [v4|] eqn:E; cbn.
  - by eapply To4_length.
  - destruct H as [H|H]; [|done]. by rewrite To4_4 in E.
Qed.

Lemma covers_iff n l k ip :
  canonical n l k -> length ip = 4%nat \/ length ip = 16%nat ->
  IPNet_Contains n ip = true <-> covers (net_key n) (addr_key ip).
Proof.
  intros Hc Hip. pose proof (prefixWalk_canonical n l k Hc) as (w & Hpw & Hw & j & Hk & Hl & Hd & Hj & Hj').
  pose proof Hc as (Hl4 & Hkl & a & Ha & En).
  assert (length (n_ip n) = l /\ n_mask n = cidr_mask_bytes l k) as [Hni Hnm].
  { subst n; cbn. rewrite length_Mask; by rewrite ?length_cidr_mask. }
  set (nn := fst (familyWalk (n_ip n))) in *. set (x := fst (familyWalk ip)).
  assert (networkNumberAndMask n = Some (nn, cidr_mask_bytes (length nn) w)) as Hnet.
  { unfold networkNumberAndMask, nn, familyWalk, is4 in *. rewrite Hnm, length_cidr_mask.
    assert (drop j (cidr_mask_bytes l k) = cidr_mask_bytes (length nn) w) as Hdm.
    { rewrite Hl, (Nat.add_comm _ j), drop_cidr_mask by lia. f_equal. lia. }
    unfold nn, familyWalk in Hdm.
    destruct (To4 (n_ip n)) as [v4|] eqn:E; cbn [fst mbind option_bind] in *.
    - pose proof (To4_length _ _ E) as H4. rewrite H4 in *. cbn [Nat.eqb].
      destruct Hl4 as [->| ->].
      + replace j with 0%nat in Hdm by lia. rewrite drop_0 in Hdm. by rewrite Hdm.
      + rewrite Hj' in Hdm by done. by rewrite Hdm.
    - rewrite Hni in *. destruct (decide (j = 0%nat)) as [->|Hjn]; [|by destruct (Hj Hjn) as (_ & _ & ?)].
      rewrite drop_0 in Hdm.
      destruct Hl4 as [->| ->]; [by rewrite To4_4 in E|]. cbn [Nat.eqb mbind option_bind]. by rewrite Hdm, Hni. }
  unfold IPNet_Contains. rewrite Hnet.
  replace (match To4 ip with Some y => y | None => ip end) with x
    by (unfold x, familyWalk; by destruct (To4 ip)).
  unfold covers, net_key, addr_key. rewrite Hpw. cbn [fst snd]. rewrite Nat2Z.id. fold nn x.
  pose proof (familyWalk_length ip Hip) as Hx. fold x in Hx.
  pose proof (familyWalk_length (n_ip n)) as Hn. fold nn in Hn. rewrite Hni in Hn.
  specialize (Hn Hl4).
  rewrite andb_true_iff, !bool_decide_eq_true.
  rewrite length_bits_of in *.
  split.
  - intros [Hlen Hm]. split; [rewrite Hx, Hn in Hlen; by destruct (is4 (n_ip n)), (is4 ip)|].
    exists w. split; [lia|]. by apply Mask_eq_iff in Hm.
  - intros [Hfam (n' & Hn' & Htk)]. rewrite Hfam in Hn.
    split; [congruence|]. apply Mask_eq_iff; [done|congruence|done|].
    rewrite Htk. f_equal.
    apply (f_equal length) in Htk. rewrite !length_take, !length_bits_of in Htk. lia.
Qed.

(** ** Operations refine the abstract store *)

Lemma setTreeFor_wf h ip t c :
  inv h -> wf t -> wf (ipv4Tree (setTreeFor h ip t c)) /\ wf (ipv6Tree (setTreeFor h ip t c)).
Proof. intros (H4 & H6 & _) Ht. unfold setTreeFor. by destruct (is4 ip). Qed.

Lemma count_setTreeFor h ip t c : count (setTreeFor h ip t c) = c.
Proof. unfold setTreeFor. by destruct (is4 ip). Qed.

Lemma add_block h n l k meta :
  inv h -> canonical n l k ->
  exists added t, insert (treeFor h (n_ip n)) n meta = Some (added, t) /\
    let h' := setTreeFor h (n_ip n) t (if added : bool then count h + 1 else count h) in
    inv h' /\ abs h' = <[net_key n := meta]> (abs h)
    /\ added = bool_decide (abs h !! net_key n = None).
Proof.
  intros Hinv Hc. pose proof (treeFor_wf h (n_ip n) Hinv) as (Hnil & Hdep & Hpr).
  pose proof (prefixWalk_canonical n l k Hc) as (w & Hpw & Hw & _).
  unfold insert, net_key. rewrite Hpw. cbn [fst snd]. rewrite Nat2Z.id.
  set (walk := fst (familyWalk (n_ip n))) in *.
  destruct (insert_walk_spec walk (Z.of_nat w) meta w 0 _ Hnil Hw) as ([added t] & Hi & [Ha Hf _]).
  cbn [fst snd] in *. change (pbits walk 0 w) with (take w (bits_of walk)) in *.
  exists added, t. split; [done|]. cbn zeta.
  set (h' := setTreeFor _ _ _ _).
  assert (abs h' = <[(is4 (n_ip n), take w (bits_of walk)) := meta]> (abs h)) as Habs.
  { apply map_eq. intros [f p]. unfold h'.
    rewrite (abs_setTreeFor h (n_ip n) t _ _ _ Hf f p), lookup_insert.
    repeat case_decide; congruence. }
  assert (abs h !! (is4 (n_ip n), take w (bits_of walk)) = find (treeFor h (n_ip n)) (take w (bits_of walk)))
    as Hlk by (rewrite abs_lookup; unfold treeFor; by destruct (is4 _)).
  split_and!; [|done|by rewrite Hlk].
  assert (wf t) as Hwt.
  { destruct (insert_walk_pruned _ _ _ _ _ _ _ _ Hpr Hi) as [Hp Hs].
    split_and!; [by intros ->|by eapply insert_walk_depth; [| |exact Hi]|done]. }
  destruct (setTreeFor_wf h (n_ip n) t (if added then count h + 1 else count h) Hinv Hwt) as [H4 H6].
  destruct Hinv as (_ & _ & Hcount). split_and!; [done|done|].
  rewrite Habs. unfold h'. rewrite count_setTreeFor, Ha, <- Hlk.
  destruct (abs h !! _) eqn:E.
  - rewrite bool_decide_eq_false_2 by done. rewrite map_size_insert_Some by eauto. done.
  - rewrite bool_decide_eq_true_2 by done. rewrite map_size_insert_None by done. lia.
Qed.

Lemma remove_block h n l k :
  inv h -> canonical n l k ->
  exists removed t, remove (treeFor h (n_ip n)) n = Some (removed, t) /\
    let h' := setTreeFor h (n_ip n) t (if removed : bool then count h - 1 else count h) in
    inv h' /\ abs h' = delete (net_key n) (abs h)
    /\ removed = bool_decide (is_Some (abs h !! net_key n)).
Proof.
  intros Hinv Hc. pose proof (treeFor_wf h (n_ip n) Hinv) as (Hnil & Hdep & Hpr).
  pose proof (prefixWalk_canonical n l k Hc) as (w & Hpw & Hw & _).
  unfold remove, net_key. rewrite Hpw. cbn [fst snd]. rewrite Nat2Z.id.
  set (walk := fst (familyWalk (n_ip n))) in *.
  destruct (remove_walk_spec walk w 0 (treeFor h (n_ip n)) Hw) as ([rem t] & Hi & [Ha Hf Hn Hd Hp]).
  cbn [fst snd] in *. change (pbits walk 0 w) with (take w (bits_of walk)) in *.
  exists rem, t. split; [done|]. cbn zeta.
  set (h' := setTreeFor _ _ _ _).
  assert (abs h' = delete (is4 (n_ip n), take w (bits_of walk)) (abs h)) as Habs.
  { apply map_eq. intros [f p]. unfold h'.
    rewrite (abs_setTreeFor h (n_ip n) t _ _ _ Hf f p), lookup_delete.
    repeat case_decide; congruence. }
  assert (abs h !! (is4 (n_ip n), take w (bits_of walk)) = find (treeFor h (n_ip n)) (take w (bits_of walk)))
    as Hlk by (rewrite abs_lookup; unfold treeFor; by destruct (is4 _)).
  split_and!; [|done|by rewrite Hlk].
  assert (wf t) as Hwt by (split_and!; auto).
  destruct (setTreeFor_wf h (n_ip n) t (if rem then count h - 1 else count h) Hinv Hwt) as [H4 H6].
  destruct Hinv as (_ & _ & Hcount). split_and!; [done|done|].
  rewrite Habs. unfold h'. rewrite count_setTreeFor, Ha, <- Hlk.
  destruct (abs h !! _) eqn:E.
  - rewrite bool_decide_eq_true_2 by eauto. rewrite map_size_delete_Some by eauto.
    assert (size (abs h) <> 0%nat); [|lia].
    intros Hz%map_size_empty_inv. by rewrite Hz in E.
  - rewrite bool_decide_eq_false_2 by (by intros [? ?]). rewrite map_size_delete_None by done. done.
Qed.

(** ** Histories *)

Inductive op :=
| OpAddCIDR (cidr : bytes) (metadata : string)
| OpAddEntry (entry : bytes) (metadata : string)
| OpRemoveCIDR (cidr : bytes)
| OpReset.

Definition apply_op (h : Helper) (o : op) : option Helper :=
  match o with
  | OpAddCIDR c m => snd <$> AddCIDR h c m
  | OpAddEntry e m => snd <$> AddEntry h e m
  | OpRemoveCIDR c => snd <$> RemoveCIDR h c
  | OpReset => Some (Reset h)
  end.

Fixpoint run (h : Helper) (ops : list op) : option Helper :=
  match ops with
  | [] => Some h
  | o :: rest => h' ← apply_op h o; run h' rest
  end.

(** The same history on the abstract store. *)
Definition spec_add (s : store) (cidr : bytes) (m : string) : store :=
  match ParseCIDR cidr with Some n => <[net_key n := m]> s | None => s end.

Definition spec_op (s : store) (o : op) : store :=
  match o with
  | OpAddCIDR c m => spec_add s c m
  | OpAddEntry e m => match entryCIDR e with inl c => spec_add s c m | inr _ => s end
  | OpRemoveCIDR c => match ParseCIDR c with Some n => delete (net_key n) s | None => s end
  | OpReset => ∅
  end.

Definition spec_run (s : store) (ops : list op) : store := fold_left spec_op ops s.

Lemma AddCIDR_spec h c m :
  inv h -> exists err h', AddCIDR h c m = Some (err, h') /\ inv h' /\ abs h' = spec_add (abs h) c m
    /\ (err = None <-> is_Some (ParseCIDR c)).
Proof.
  intros Hinv. unfold AddCIDR, spec_add. destruct (ParseCIDR c) as [n|] eqn:E.
  - destruct (ParseCIDR_canonical _ _ E) as (l & k & Hc).
    destruct (add_block h n l k m Hinv Hc) as (added & t & -> & Hi & Ha & _). cbn.
    eexists _, _. split; [done|]. split_and!; [done|done|]. naive_solver.
  - eexists _, _. split; [done|]. split_and!; [done|done|]. split; [done|by intros [? ?]].
Qed.

Lemma apply_op_spec h o :
  inv h -> exists h', apply_op h o = Some h' /\ inv h' /\ abs h' = spec_op (abs h) o.
Proof.
  intros Hinv. destruct o as [c m|e m|c|]; cbn [apply_op spec_op].
  - destruct (AddCIDR_spec h c m Hinv) as (? & h' & -> & ? & ? & _). by exists h'.
  - unfold AddEntry. destruct (entryCIDR e) as [c|err]; [|by exists h].
    destruct (AddCIDR_spec h c m Hinv) as (? & h' & -> & ? & ? & _). by exists h'.
  - unfold RemoveCIDR. destruct (ParseCIDR c) as [n|] eqn:E; [|by exists h].
    destruct (ParseCIDR_canonical _ _ E) as (l & k & Hc).
    destruct (remove_block h n l k Hinv Hc) as (rem & t & -> & Hi & Ha & _). cbn.
    destruct rem; eexists; done.
  - exists (Reset h). split; [done|]. split; [apply inv_New|]. reflexivity.
Qed.

Lemma run_spec h ops :
  inv h -> exists h', run h ops = Some h' /\ inv h' /\ abs h' = spec_run (abs h) ops.
Proof.
  revert h. induction ops as [|o ops IH]; intros h Hinv; [by exists h|].
  cbn [run]. destruct (apply_op_spec h o Hinv) as (h1 & -> & Hi1 & Ha1). cbn.
  destruct (IH h1 Hi1) as (h2 & ? & ? & ?). exists h2. by rewrite <- Ha1.
Qed.

Lemma spec_run_keys ops s :
  (forall k, is_Some (s !! k) -> exists n l j, canonical n l j /\ net_key n = k) ->
  forall k, is_Some (spec_run s ops !! k) -> exists n l j, canonical n l j /\ net_key n = k.
Proof.
  revert s. induction ops as [|o ops IH]; intros s Hs; [done|]. apply IH.
  assert (forall c m k, is_Some (spec_add s c m !! k) -> exists n l j, canonical n l j /\ net_key n = k) as Hadd.
  { intros c m k. unfold spec_add. destruct (ParseCIDR c) as [n|] eqn:E; [|apply Hs].
    rewrite lookup_insert. case_decide; [subst|apply Hs].
    intros _. destruct (ParseCIDR_canonical _ _ E) as (l & j & ?). eauto. }
  intros k. destruct o as [c m|e m|c|]; cbn [spec_op].
  - apply Hadd.
  - destruct (entryCIDR e); [apply Hadd|apply Hs].
  - destruct (ParseCIDR c) as [n|]; [|apply Hs].
    rewrite lookup_delete. case_decide; [by intros [? ?]|apply Hs].
  - by intros [? ?].
Qed.

Lemma Contains_longest_lemma h ip :
  inv h -> length ip = 4%nat \/ length ip = 16%nat ->
  exists res, Contains h (Some ip) = Some (res, None)
    /\ longest (treeFor h ip) (snd (addr_key ip)) 0 (false, 0, EmptyString) res.
Proof.
  intros Hinv Hip. pose proof (treeFor_wf h ip Hinv) as (Hnil & Hdep & Hpr).
  cbn [Contains]. unfold contains, addr_key.
  assert (exists w, familyWalk ip = (w, length (bits_of w))) as (w & Hw).
  { unfold familyWalk. destruct (To4 ip) as [v4|] eqn:E.
    - exists v4. rewrite length_bits_of, (To4_length _ _ E). done.
    - destruct Hip as [H|H]; [by rewrite To4_4 in E|]. exists ip. by rewrite length_bits_of, H. }
  rewrite Hw. cbn [fst snd].
  destruct (contains_walk_spec w (length (bits_of w)) 0 (treeFor h ip) 0 (false, 0, EmptyString))
    as (res & -> & Hl); [lia|done|].
  exists res. split; [done|]. unfold pbits in Hl. by rewrite drop_0, firstn_all in Hl.
Qed.

(** ** Host entries *)

Lemma itoa_byte_scan b rest fields :
  exists dl, parse_v4_loop (itoa_byte b ++ rest) fields 0 0 true
    = parse_v4_loop rest fields (byteZ b) dl false.
Proof. destruct b; eexists; reflexivity. Qed.

Lemma itoa_byte_cut b rest p q :
  cut_at b_slash rest = Some (p, q) -> cut_at b_slash (itoa_byte b ++ rest) = Some (itoa_byte b ++ p, q).
Proof. intros H. destruct b; cbn -[b_slash]; rewrite H; reflexivity. Qed.

Lemma itoa_byte_kind b rest : ParseAddr_kind (itoa_byte b ++ rest) = ParseAddr_kind rest.
Proof. destruct b; reflexivity. Qed.

Lemma parse_v4_dot rest fields val dl :
  (length fields < 3)%nat ->
  parse_v4_loop (b_dot :: rest) fields val dl false
  = parse_v4_loop rest (fields ++ [byte_of_Z val]) 0 0 true.
Proof.
  intros H. cbn [parse_v4_loop]. replace (is_digit b_dot) with false by reflexivity.
  rewrite bool_decide_eq_true_2 by done.
  by rewrite (proj2 (Nat.eqb_neq (length fields) 3)) by lia.
Qed.

Lemma parseIPv4_String a b c d : parseIPv4 (v4_String [a; b; c; d]) = Some [a; b; c; d].
Proof.
  unfold parseIPv4, v4_String.
  destruct (itoa_byte_scan a (b_dot :: itoa_byte b ++ b_dot :: itoa_byte c ++ b_dot :: itoa_byte d) []) as [n1 ->].
  rewrite parse_v4_dot by (cbn; lia). rewrite byte_of_Z_byteZ. cbn [app].
  destruct (itoa_byte_scan b (b_dot :: itoa_byte c ++ b_dot :: itoa_byte d) [a]) as [n2 ->].
  rewrite parse_v4_dot by (cbn; lia). rewrite byte_of_Z_byteZ. cbn [app].
  destruct (itoa_byte_scan c (b_dot :: itoa_byte d) [a; b]) as [n3 ->].
  rewrite parse_v4_dot by (cbn; lia). rewrite byte_of_Z_byteZ. cbn [app].
  destruct (itoa_byte_scan d [] [a; b; c]) as [n4 Hd]. rewrite app_nil_r in Hd. rewrite Hd.
  cbn [parse_v4_loop length Nat.eqb andb negb app]. by rewrite byte_of_Z_byteZ.
Qed.

Lemma Mask_full (v4 : bytes) : length v4 = 4%nat -> Mask v4 (CIDRMask 32 32) = v4.
Proof.
  intros H. apply bits_of_inj. unfold CIDRMask. change (32 / 8)%nat with 4%nat.
  rewrite bits_of_masked by (cbn; lia). change (8 * 4 - 32)%nat with 0%nat.
  rewrite app_nil_r. apply firstn_all2. rewrite length_bits_of. lia.
Qed.

Lemma ParseCIDR_host4 v4 :
  length v4 = 4%nat ->
  ParseCIDR (v4_String v4 ++ bs "/32") = Some {| n_ip := v4; n_mask := CIDRMask 32 32 |}.
Proof.
  intros H. destruct v4 as [|a [|b [|c [|d [|? ?]]]]]; try done. unfold ParseCIDR.
  assert (cut_at b_slash (v4_String [a; b; c; d] ++ bs "/32") = Some (v4_String [a; b; c; d], bs "32")) as ->.
  { unfold v4_String. repeat (rewrite <- ?app_assoc; cbn [app]).
    assert (forall r p q, cut_at b_slash r = Some (p, q) ->
              cut_at b_slash (b_dot :: r) = Some (b_dot :: p, q)) as Hdot.
    { intros r p q Hr. cbn [cut_at]. rewrite bool_decide_eq_false_2 by done. by rewrite Hr. }
    apply itoa_byte_cut, Hdot, itoa_byte_cut, Hdot, itoa_byte_cut, Hdot.
    rewrite <- (app_nil_r (itoa_byte d)) at 2. by apply itoa_byte_cut. }
  cbn [mbind option_bind]. unfold ParseAddr.
  assert (ParseAddr_kind (v4_String [a; b; c; d]) = Some true) as ->.
  { unfold v4_String. rewrite itoa_byte_kind. reflexivity. }
  rewrite parseIPv4_String. cbn [fmap option_fmap option_map mbind option_bind].
  change (dtoi_all (bs "32")) with (Some 32). cbn [mbind option_bind].
  rewrite (proj2 (Z.ltb_ge 32 32)) by lia. change (Z.to_nat 32) with 32%nat. by rewrite Mask_full.
Qed.

Lemma entryCIDR_host4 entry ip v4 :
  cut_at b_slash (TrimSpace entry) = None -> ParseIP (TrimSpace entry) = Some ip ->
  To4 ip = Some v4 ->
  exists c n, entryCIDR entry = inl c /\ ParseCIDR c = Some n /\ net_key n = (true, bits_of v4).
Proof.
  intros Hcut Hp H4. pose proof (To4_length _ _ H4) as Hlen.
  exists (v4_String v4 ++ bs "/32"), {| n_ip := v4; n_mask := CIDRMask 32 32 |}.
  unfold entryCIDR. rewrite Hcut, Hp. unfold HostCIDR. rewrite H4.
  split_and!.
  - f_equal. f_equal. unfold IP_String. destruct v4; [done|]. rewrite Hlen. cbn [Nat.eqb orb].
    by rewrite To4_4.
  - by apply ParseCIDR_host4.
  - unfold net_key, prefixWalk, familyWalk, is4. cbn [n_ip n_mask]. rewrite To4_4 by done. cbn [fst snd].
    f_equal. change (Mask_Size (CIDRMask 32 32)) with (32, 32). cbn.
    apply firstn_all2. rewrite length_bits_of. lia.
Qed.

(** ** Properties *)

(** C5 (refinement).  Whatever sequence of AddCIDR, AddEntry, RemoveCIDR and
    Reset calls a helper has seen, no call panics, the two radix trees hold
    exactly the abstract (family, prefix) map obtained by replaying the calls
    as map inserts and deletes, Count is the number of distinct stored
    prefixes, and both trees keep their shape invariant (endpoint lengths equal
    depths, no empty leaf). *)
Theorem history_refines_store (ops : list op) :
  exists h, run New ops = Some h
    /\ abs h = spec_run ∅ ops
    /\ Count h = Z.of_nat (size (spec_run ∅ ops))
    /\ wf (ipv4Tree h) /\ wf (ipv6Tree h).
Proof.
  destruct (run_spec New ops inv_New) as (h & Hr & (H4 & H6 & Hc) & Ha).
  exists h. change (abs New) with (∅ : store) in Ha.
  split_and!; try done. unfold Count. by rewrite Hc, Ha.
Qed.

(** C13 (functional).  After any history, Contains of a four- or sixteen-byte
    address neither panics nor errs.  It reports found exactly when some
    network whose prefix is stored contains the address in the sense of
    net.IPNet.Contains, and then the reported length and metadata are those of
    a stored network that contains the address and is at least as long as
    every other stored network containing it. *)
Theorem Contains_longest_network ops h ip :
  run New ops = Some h -> length ip = 4%nat \/ length ip = 16%nat ->
  exists found plen meta, Contains h (Some ip) = Some ((found, plen, meta), None)
    /\ (found = true <-> exists n l k, canonical n l k /\ is_Some (abs h !! net_key n)
                                        /\ IPNet_Contains n ip = true)
    /\ (found = true -> exists n l k, canonical n l k /\ abs h !! net_key n = Some meta
           /\ IPNet_Contains n ip = true /\ plen = Z.of_nat (length (snd (net_key n)))
           /\ forall n' l' k', canonical n' l' k' -> is_Some (abs h !! net_key n') ->
               IPNet_Contains n' ip = true -> Z.of_nat (length (snd (net_key n'))) <= plen).
Proof.
  intros Hrun Hip. destruct (run_spec New ops inv_New) as (h' & Hr & Hinv & Ha).
  rewrite Hrun in Hr. injection Hr as <-.
  destruct (Contains_longest_lemma h ip Hinv Hip) as ([[found plen] meta] & Hcon & Hlong).
  exists found, plen, meta. split; [done|].
  assert (forall n l k, canonical n l k -> IPNet_Contains n ip = true -> is_Some (abs h !! net_key n) ->
            exists j, (j <= length (snd (addr_key ip)))%nat
              /\ is_Some (find (treeFor h ip) (take j (snd (addr_key ip))))
              /\ length (snd (net_key n)) = j) as Hst.
  { intros n l k Hc Hin Hs. apply (covers_iff n l k ip Hc Hip) in Hin as [Hf (j & Hj & Hk)].
    exists j. split; [done|]. rewrite <- Hk. split.
    - rewrite (surjective_pairing (net_key n)), Hf, abs_lookup in Hs.
      exact Hs.
    - rewrite Hk, length_take. lia. }
  destruct Hlong as [(j & m & Hj & Hfind & Heq & Hmax)|[Hnone Heq]]; injection Heq as -> -> ->.
  - assert (abs h !! (is4 ip, take j (snd (addr_key ip))) = Some m) as Hlk.
    { rewrite abs_lookup. unfold treeFor in Hfind. by destruct (is4 ip). }
    destruct (spec_run_keys ops ∅ ltac:(by intros ? [? ?]) (is4 ip, take j (snd (addr_key ip))))
      as (n & l & k & Hc & Hnk).
    { change (∅ : store) with (abs New). rewrite <- Ha. eauto. }
    assert (IPNet_Contains n ip = true) as Hcn.
    { apply (covers_iff n l k ip Hc Hip). rewrite Hnk. split; [done|]. by exists j. }
    pose proof Hlk as Hlk'. rewrite <- Hnk in Hlk'.
    split; [split; [intros _; exists n, l, k; eauto|done]|]. intros _.
    exists n, l, k. split_and!; try done.
    + rewrite Hnk. cbn [snd]. rewrite length_take. lia.
    + intros n' l' k' Hc' Hs' Hi'. destruct (Hst n' l' k' Hc' Hi' Hs') as (j' & Hj' & [m' Hm'] & ->).
      destruct (decide (j < j')%nat) as [Hlt|]; [|lia].
      rewrite Hmax in Hm' by lia. done.
  - split; [|done]. split; [done|]. intros (n & l & k & Hc & Hs & Hi).
    destruct (Hst n l k Hc Hi Hs) as (j & Hj & [m Hm] & _). by rewrite Hnone in Hm.
Qed.

Definition sample_ops : list op :=
  [OpAddCIDR (bs "10.0.0.0/8") "office"; OpAddCIDR (bs "10.1.0.0/16") "lab";
   OpAddCIDR (bs "2001:db8::/32") "v6"; OpRemoveCIDR (bs "10.1.0.0/16")].

Lemma Contains_longest_network_witness :
  exists h ip, run New sample_ops = Some h /\ length ip = 16%nat
    /\ exists found plen meta, Contains h (Some ip) = Some ((found, plen, meta), None).
Proof.
  destruct (run New sample_ops) as [h|] eqn:E; [|vm_compute in E; discriminate].
  exists h, (v4InV6Prefix ++ [x0a; x01; x02; x03]). split; [done|]. split; [reflexivity|].
  destruct (Contains_longest_network sample_ops h (v4InV6Prefix ++ [x0a; x01; x02; x03]) E
              (or_intror eq_refl)) as (f & p & m & H & _).
  by exists f, p, m.
Defined.

(**  (functional).  RemoveCIDR after any history: a text that is not a CIDR
    returns false with the parse error and changes nothing; otherwise the call
    returns a nil error, reports true exactly when that canonical prefix was
    stored, drops it from the store and lowers Count exactly then. *)
Theorem RemoveCIDR_reports_presence ops h cidr :
  run New ops = Some h ->
  match ParseCIDR cidr with
  | None => RemoveCIDR h cidr = Some ((false, Some (ErrParseCIDR cidr)), h)
  | Some n => exists h', RemoveCIDR h cidr
        = Some ((bool_decide (is_Some (abs h !! net_key n)), None), h')
      /\ abs h' = delete (net_key n) (abs h)
      /\ Count h' = Count h - (if bool_decide (is_Some (abs h !! net_key n)) then 1 else 0)
  end.
Proof.
  intros Hrun. destruct (run_spec New ops inv_New) as (h' & Hr & Hinv & _).
  rewrite Hrun in Hr. injection Hr as <-. unfold RemoveCIDR.
  destruct (ParseCIDR cidr) as [n|] eqn:E; [|done].
  destruct (ParseCIDR_canonical _ _ E) as (l & k & Hc).
  destruct (remove_block h n l k Hinv Hc) as (rem & t & -> & Hi & Ha & Hrem).
  cbn [mbind option_bind]. subst rem. unfold Count.
  case_bool_decide; eexists; (split; [reflexivity|]); split; try exact Ha;
    rewrite count_setTreeFor; lia.
Qed.

Lemma RemoveCIDR_reports_presence_witness :
  exists h, run New sample_ops = Some h
    /\ (exists h', RemoveCIDR h (bs "10.9.9.9/8") = Some ((true, None), h')).
Proof.
  destruct (run New sample_ops) as [h|] eqn:E; [|vm_compute in E; discriminate].
  exists h. split; [done|].
  pose proof (RemoveCIDR_reports_presence sample_ops h (bs "10.9.9.9/8") E) as H.
  destruct (ParseCIDR (bs "10.9.9.9/8")) as [n|] eqn:En; [|vm_compute in En; discriminate].
  destruct H as (h' & H & _). exists h'. rewrite H. f_equal. f_equal. f_equal.
  vm_compute in E. injection E as <-. vm_compute in En. injection En as <-.
  vm_compute. reflexivity.
Defined.

(**  (roundtrip).  AddEntry of a bare IPv4 address, or of an IPv4-mapped
    IPv6 literal, stores exactly that one host: the text HostCIDR prints parses
    back to the /32 of the address, on the IPv4 tree, and nothing else
    changes. *)
Theorem AddEntry_stores_ipv4_host ops h entry ip v4 meta :
  run New ops = Some h ->
  cut_at b_slash (TrimSpace entry) = None ->
  ParseIP (TrimSpace entry) = Some ip -> To4 ip = Some v4 ->
  exists h', AddEntry h entry meta = Some (None, h')
    /\ abs h' = <[(true, bits_of v4) := meta]> (abs h).
Proof.
  intros Hrun Hcut Hp H4. destruct (run_spec New ops inv_New) as (h' & Hr & Hinv & _).
  rewrite Hrun in Hr. injection Hr as <-.
  destruct (entryCIDR_host4 entry ip v4 Hcut Hp H4) as (c & n & He & Hn & Hk).
  unfold AddEntry. rewrite He.
  destruct (AddCIDR_spec h c meta Hinv) as (err & h' & -> & _ & Ha & Herr).
  exists h'. rewrite (proj2 Herr) by eauto. split; [done|].
  rewrite Ha. unfold spec_add. by rewrite Hn, Hk.
Qed.

Lemma AddEntry_stores_ipv4_host_witness :
  exists h', AddEntry New (bs " ::ffff:10.0.0.1") "proxy" = Some (None, h')
    /\ abs h' = <[(true, bits_of [x0a; x00; x00; x01]) := "proxy"%string]> (abs New).
Proof.
  apply (AddEntry_stores_ipv4_host [] New (bs " ::ffff:10.0.0.1")
           (v4InV6Prefix ++ [x0a; x00; x00; x01]) [x0a; x00; x00; x01] "proxy");
    vm_compute; reflexivity.
Defined.

(**  (error).  The nil check of Contains does not cover an empty non-nil
    address: for every state the store can be in, Contains(net.IP{}) panics
    with an index out of range, while a nil address gives the documented
    error. *)
Theorem Contains_empty_ip_panics ops h :
  run New ops = Some h ->
  Contains h (Some []) = None /\ Contains h None = Some ((false, 0, EmptyString), Some ErrNilIP).
Proof.
  intros Hrun. destruct (run_spec New ops inv_New) as (h' & Hr & (H4 & (Hnil & _) & _) & _).
  rewrite Hrun in Hr. injection Hr as <-. split; [|done].
  cbn [Contains]. unfold contains, treeFor. cbn. destruct (ipv6Tree h); done.
Qed.

Lemma Contains_empty_ip_panics_witness : Contains New (Some []) = None.
Proof. exact (proj1 (Contains_empty_ip_panics [] New eq_refl)). Defined.

End Helper.
