(* ===== verification/Strconv.v ===== *)
(** * Strconv: decimal integers in bytes

    What the clients use of Go's strconv: [Itoa]/[FormatInt]/[AppendInt] in base
    10 and [ParseInt]/[Atoi] for 64-bit integers, with their round trip. *)

From S2P Require Import Prelude.
From Stdlib Require Import ZArith Lia List.
From Stdlib Require Import Strings.Byte.
From stdpp Require Import base list option.

Open Scope Z_scope.

Definition b_minus : byte := x2d.
Definition b_plus : byte := x2b.

Definition isDigit (b : byte) : bool := (48 <=? byteZ b) && (byteZ b <=? 57).
Definition digit (d : Z) : byte := byte_of_Z (48 + d).

(** The value of a run of digits read onto [acc]; [None] on another byte. *)
Fixpoint digits_value (s : bytes) (acc : Z) : option Z :=
  match s with
  | [] => Some acc
  | b :: s => if isDigit b then digits_value s (acc * 10 + (byteZ b - 48)) else None
  end.

Fixpoint dec (fuel : nat) (n : Z) : bytes :=
  match fuel with
  | O => [digit (n mod 10)]
  | S fuel => if n <? 10 then [digit n] else dec fuel (n / 10) ++ [digit (n mod 10)]
  end.

(** Base-10 text of an integer. *)
Definition FormatInt (n : Z) : bytes :=
  if n <? 0 then b_minus :: dec (Z.to_nat (Z.log2 (- n))) (- n) else dec (Z.to_nat (Z.log2 n)) n.

(** [strconv.ParseInt(s, 10, 64)], which [Atoi] agrees with on 64-bit ints. *)
Definition ParseInt (s : bytes) : option Z :=
  match s with
  | [] => None
  | b :: r =>
      let '(neg, ds) := if decide (b = b_minus) then (true, r)
                        else if decide (b = b_plus) then (false, r) else (false, s) in
      match ds with
      | [] => None
      | _ =>
          v ← digits_value ds 0;
          if neg then if v <=? 2 ^ 63 then Some (- v) else None
          else if v <=? int64_max then Some v else None
      end
  end.

(** ** Lemmas *)

Lemma byteZ_digit d : 0 <= d <= 9 -> byteZ (digit d) = 48 + d.
Proof. intros H. unfold digit. rewrite byteZ_of_Z. apply Z.mod_small. lia. Qed.

Lemma isDigit_digit d : 0 <= d <= 9 -> isDigit (digit d) = true.
Proof. intros H. unfold isDigit. rewrite byteZ_digit by done. bool_cases; (done || lia). Qed.

Lemma digits_value_app a b acc :
  digits_value (a ++ b) acc = v ← digits_value a acc; digits_value b v.
Proof. revert acc. induction a as [|x a IH]; intros acc; simpl; [done|]. by destruct (isDigit x). Qed.

Lemma digits_value_mono s acc v : 0 <= acc -> digits_value s acc = Some v -> acc <= v.
Proof.
  revert acc. induction s as [|b s IH]; intros acc Ha; simpl; [intros [= <-]; lia|].
  destruct (isDigit b) eqn:Hb; [|done]. unfold isDigit in Hb. bool_cases; try done.
  intros Hv. apply IH in Hv; lia.
Qed.

Lemma log2_div10 n : 10 <= n -> Z.log2 (n / 10) < Z.log2 n.
Proof.
  intros H. assert (0 < n / 10) by (apply Z.div_str_pos; lia).
  assert (Z.log2 (2 * (n / 10)) <= Z.log2 n).
  { apply Z.log2_le_mono. pose proof (Z.mul_div_le n 10 ltac:(lia)). lia. }
  rewrite Z.log2_double in H1 by done. lia.
Qed.

Lemma dec_value fuel n acc :
  0 <= n -> Z.log2 n <= Z.of_nat fuel ->
  exists k, digits_value (dec fuel n) acc = Some (acc * 10 ^ k + n) /\ 0 <= k.
Proof.
  revert n. induction fuel as [|fuel IH]; intros n Hn Hl; cbn [dec].
  - assert (n <= 1) by (apply Z.log2_null; pose proof (Z.log2_nonneg n); lia).
    exists 1. split; [|lia]. rewrite Z.mod_small by lia. cbn [digits_value].
    rewrite isDigit_digit, byteZ_digit by lia. f_equal. lia.
  - destruct (Z.ltb_spec n 10).
    + exists 1. split; [|lia]. cbn [digits_value]. rewrite isDigit_digit, byteZ_digit by lia. f_equal. lia.
    + destruct (IH (n / 10)) as (k & Hk & Hk0); [apply Z.div_pos; lia|pose proof (log2_div10 n); lia|].
      exists (k + 1). split; [|lia]. rewrite digits_value_app, Hk. cbn [mbind option_bind digits_value].
      pose proof (Z.mod_pos_bound n 10). rewrite isDigit_digit, byteZ_digit by lia. f_equal.
      rewrite Z.pow_add_r by lia. pose proof (Z.div_mod n 10). lia.
Qed.

Lemma dec_digits fuel n : 0 <= n -> Forall (fun b => isDigit b = true) (dec fuel n) /\ dec fuel n <> [].
Proof.
  revert n. induction fuel as [|fuel IH]; intros n Hn; cbn [dec];
    pose proof (Z.mod_pos_bound n 10 ltac:(lia)).
  - split; [|done]. constructor; [apply isDigit_digit; lia|constructor].
  - destruct (Z.ltb_spec n 10).
    + split; [|done]. constructor; [apply isDigit_digit; lia|constructor].
    + destruct (IH (n / 10)) as [H1 H2]; [apply Z.div_pos; lia|]. split; [|by destruct (dec fuel (n / 10))].
      apply Forall_app. split; [done|]. constructor; [apply isDigit_digit; lia|constructor].
Qed.

Lemma dec_length fuel n : (length (dec fuel n) <= S fuel)%nat.
Proof.
  revert n. induction fuel as [|fuel IH]; intros n; cbn [dec]; [done|].
  destruct (n <? 10); simpl; [lia|]. rewrite length_app. simpl. specialize (IH (n / 10)). lia.
Qed.

(** Non-negative numbers print as digits, at most 64 of them for an int64. *)
Lemma FormatInt_nonneg n :
  0 <= n -> digits_value (FormatInt n) 0 = Some n
            /\ Forall (fun b => isDigit b = true) (FormatInt n) /\ FormatInt n <> [].
Proof.
  intros Hn. unfold FormatInt. destruct (Z.ltb_spec n 0); [lia|].
  destruct (dec_value (Z.to_nat (Z.log2 n)) n 0 Hn) as (k & Hk & _).
  { pose proof (Z.log2_nonneg n). lia. }
  split; [by rewrite Hk|]. by apply dec_digits.
Qed.

Lemma FormatInt_length n : in_int64 n -> (length (FormatInt n) <= 65)%nat.
Proof.
  unfold in_int64, int64_min, int64_max, FormatInt. intros H.
  assert (Hl : forall m, 0 <= m <= 2 ^ 63 -> (Z.to_nat (Z.log2 m) <= 63)%nat).
  { intros m Hm. pose proof (Z.log2_le_mono m (2 ^ 63)). rewrite Z.log2_pow2 in H0 by lia. lia. }
  destruct (n <? 0) eqn:E.
  - simpl. pose proof (dec_length (Z.to_nat (Z.log2 (- n))) (- n)). specialize (Hl (- n)). lia.
  - pose proof (dec_length (Z.to_nat (Z.log2 n)) n). specialize (Hl n). bool_cases; lia.
Qed.

(** [ParseInt] reads what [FormatInt] prints. *)
Lemma ParseInt_FormatInt n : in_int64 n -> ParseInt (FormatInt n) = Some n.
Proof.
  unfold in_int64, int64_min. intros Hn. destruct (Z.ltb_spec n 0) as [Hneg|Hpos].
  - unfold FormatInt. rewrite (proj2 (Z.ltb_lt n 0)) by done. unfold ParseInt. rewrite decide_True by done.
    destruct (dec_digits (Z.to_nat (Z.log2 (- n))) (- n) ltac:(lia)) as [_ Hne].
    destruct (dec_value (Z.to_nat (Z.log2 (- n))) (- n) 0 ltac:(lia)) as (k & Hk & _).
    { pose proof (Z.log2_nonneg (- n)). lia. }
    destruct (dec _ _) as [|b s]; [done|]. rewrite Hk. cbn [mbind option_bind].
    destruct (Z.leb_spec (0 * 10 ^ k + - n) (2 ^ 63)); [f_equal; lia|lia].
  - destruct (FormatInt_nonneg n Hpos) as (Hv & Hd & Hne). unfold ParseInt.
    destruct (FormatInt n) as [|b s] eqn:E; [done|]. rewrite decide_False, decide_False.
    + rewrite Hv. cbn [mbind option_bind]. by rewrite (proj2 (Z.leb_le n int64_max)) by lia.
    + intros ->. by inversion Hd.
    + intros ->. by inversion Hd.
Qed.
