(* ===== verification/Sha1.v ===== *)
(** * Sha1: the digest of a script ([simpleredis/commands_eval.go])

    [ScriptSHA1Hex] with what it uses of Go's standard library: [crypto/sha1.Sum]
    (FIPS 180-4, on 32-bit words kept in [Z]) and [hex.EncodeToString]. *)

From S2P Require Import Prelude.
From Stdlib Require Import ZArith Lia List String.
From Stdlib Require Import Strings.Byte.
From stdpp Require Import base list option.

Open Scope Z_scope.

Module SHA.

(** ** 32-bit words *)

Definition w32 (x : Z) : Z := x mod 2 ^ 32.
Definition add32 (x y : Z) : Z := w32 (x + y).
Definition rotl (n x : Z) : Z := w32 (Z.lor (Z.shiftl x n) (Z.shiftr x (32 - n))).
Definition not32 (x : Z) : Z := 2 ^ 32 - 1 - x.

(** The [n] low bytes of a number, most significant first. *)
Fixpoint be_bytes (n : nat) (x : Z) : bytes :=
  match n with O => [] | S n => byte_of_Z (Z.shiftr x (8 * Z.of_nat n)) :: be_bytes n x end.

Definition be_value (b : bytes) : Z := fold_left (fun acc c => acc * 256 + byteZ c) b 0.

(** ** The message: padding, blocks of 16 words, the schedule of 80 *)

(** 0x80, zeros up to 56 modulo 64, the length in bits as 64 bits. *)
Definition pad (msg : bytes) : bytes :=
  let n := Z.of_nat (length msg) in
  msg ++ x80 :: repeat x00 (Z.to_nat ((55 - n) mod 64)) ++ be_bytes 8 (8 * n).

Fixpoint chunks {A} (fuel n : nat) (l : list A) : list (list A) :=
  match fuel with O => [] | S fuel => take n l :: chunks fuel n (drop n l) end.

Definition block_words (b : bytes) : list Z := be_value <$> chunks 16 4 b.

(** [ws] holds the schedule so far, newest word first. *)
Fixpoint extend (n : nat) (ws : list Z) : list Z :=
  match n with
  | O => ws
  | S n =>
      let at_ i := default 0 (ws !! i) in
      extend n (rotl 1 (Z.lxor (Z.lxor (at_ 2%nat) (at_ 7%nat)) (Z.lxor (at_ 13%nat) (at_ 15%nat))) :: ws)
  end.

Definition schedule (b : bytes) : list Z := rev (extend 64 (rev (block_words b))).

(** ** The compression function *)

Record state := mkState { ha : Z; hb : Z; hc : Z; hd : Z; he : Z }.

Definition initial : state := mkState 0x67452301 0xEFCDAB89 0x98BADCFE 0x10325476 0xC3D2E1F0.

Definition round_fk (t : nat) (b c d : Z) : Z * Z :=
  if (t <? 20)%nat then (Z.lor (Z.land b c) (Z.land (not32 b) d), 0x5A827999)
  else if (t <? 40)%nat then (Z.lxor b (Z.lxor c d), 0x6ED9EBA1)
  else if (t <? 60)%nat then (Z.lor (Z.land b c) (Z.lor (Z.land b d) (Z.land c d)), 0x8F1BBCDC)
  else (Z.lxor b (Z.lxor c d), 0xCA62C1D6).

Fixpoint rounds (t : nat) (ws : list Z) (s : state) : state :=
  match ws with
  | [] => s
  | w :: ws =>
      let '(f, k) := round_fk t (hb s) (hc s) (hd s) in
      let v := add32 (add32 (add32 (rotl 5 (ha s)) f) (add32 (he s) k)) w in
      rounds (S t) ws (mkState v (ha s) (rotl 30 (hb s)) (hc s) (hd s))
  end.

Definition compress (s : state) (b : bytes) : state :=
  let r := rounds 0 (schedule b) s in
  mkState (add32 (ha s) (ha r)) (add32 (hb s) (hb r)) (add32 (hc s) (hc r)) (add32 (hd s) (hd r)) (add32 (he s) (he r)).

(** [sha1.Sum] *)
Definition sha1_Sum (msg : bytes) : bytes :=
  let p := pad msg in
  let s := fold_left compress (chunks (length p / 64) 64 p) initial in
  be_bytes 4 (ha s) ++ be_bytes 4 (hb s) ++ be_bytes 4 (hc s) ++ be_bytes 4 (hd s) ++ be_bytes 4 (he s).

(** ** Lemmas *)

Lemma length_be_bytes n x : length (be_bytes n x) = n.
Proof. induction n; simpl; congruence. Qed.

Lemma length_sha1_Sum msg : length (sha1_Sum msg) = 20%nat.
Proof. unfold sha1_Sum. by rewrite !length_app, !length_be_bytes. Qed.

(** The padded message is whole blocks, so no byte of it is left out. *)
Lemma length_pad msg : (64 | Z.of_nat (length (pad msg))).
Proof.
  unfold pad. rewrite length_app. cbn [length]. rewrite length_app, repeat_length, length_be_bytes.
  set (n := Z.of_nat (length msg)). pose proof (Z.mod_pos_bound (55 - n) 64 ltac:(lia)).
  exists (1 + - ((55 - n) / 64)). pose proof (Z.div_mod (55 - n) 64 ltac:(lia)). lia.
Qed.

Lemma chunks_concat {A} k n (l : list A) : (length l <= k * n)%nat -> concat (chunks k n l) = l.
Proof.
  revert l. induction k as [|k IH]; simpl; intros l Hl; [by destruct l; simpl in Hl; [|lia]|].
  rewrite IH; [apply take_drop|]. rewrite length_drop. lia.
Qed.

Lemma pad_blocks msg : concat (chunks (length (pad msg) / 64) 64 (pad msg)) = pad msg.
Proof.
  apply chunks_concat. destruct (length_pad msg) as [q Hq]. set (n := length (pad msg)) in *.
  pose proof (Nat.div_mod n 64 ltac:(lia)). pose proof (Nat.mod_upper_bound n 64 ltac:(lia)). lia.
Qed.

End SHA.

(** ** Lower-case hexadecimal *)

Definition hexdigit (d : Z) : byte := byte_of_Z (if d <? 10 then 48 + d else 87 + d).

Definition hexvalue (b : byte) : option Z :=
  let c := byteZ b in
  if (48 <=? c) && (c <=? 57) then Some (c - 48)
  else if (97 <=? c) && (c <=? 102) then Some (c - 87) else None.

(** [hex.EncodeToString] *)
Fixpoint EncodeToString (b : bytes) : bytes :=
  match b with [] => [] | c :: b => hexdigit (byteZ c / 16) :: hexdigit (byteZ c mod 16) :: EncodeToString b end.

(** The reader of what [EncodeToString] writes. *)
Fixpoint hex_decode (s : bytes) : option bytes :=
  match s with
  | [] => Some []
  | h :: l :: s => x ← hexvalue h; y ← hexvalue l; r ← hex_decode s; Some (byte_of_Z (16 * x + y) :: r)
  | _ => None
  end.

(** [ScriptSHA1Hex] *)
Definition ScriptSHA1Hex (script : bytes) : bytes := EncodeToString (SHA.sha1_Sum script).

(** ** Lemmas *)

Lemma hexvalue_hexdigit d : 0 <= d < 16 -> hexvalue (hexdigit d) = Some d.
Proof.
  intros Hd. unfold hexvalue, hexdigit. rewrite byteZ_of_Z, Z.mod_small by (destruct (d <? 10) eqn:E; lia).
  bool_cases; (f_equal; lia) || lia.
Qed.

Lemma hex_decode_EncodeToString b : hex_decode (EncodeToString b) = Some b.
Proof.
  induction b as [|c b IH]; [done|]. cbn [EncodeToString hex_decode]. pose proof (byteZ_bound c).
  rewrite (hexvalue_hexdigit (byteZ c / 16)) by (split; [apply Z.div_pos|apply Z.div_lt_upper_bound]; lia).
  rewrite (hexvalue_hexdigit (byteZ c mod 16)) by (apply Z.mod_pos_bound; lia). cbn [mbind option_bind]. rewrite IH. cbn [mbind option_bind].
  by rewrite <- Z.div_mod, byte_of_Z_byteZ by lia.
Qed.

Lemma length_EncodeToString b : length (EncodeToString b) = (2 * length b)%nat.
Proof. induction b as [|c b IH]; cbn [EncodeToString length]; lia. Qed.

Lemma digest_shape script :
  length (ScriptSHA1Hex script) = 40%nat /\ hex_decode (ScriptSHA1Hex script) = Some (SHA.sha1_Sum script).
Proof. split; [|apply hex_decode_EncodeToString]. unfold ScriptSHA1Hex. by rewrite length_EncodeToString, SHA.length_sha1_Sum. Qed.

(** The vectors of FIPS 180-4: no block boundary, and a message whose padding
    takes a second block. *)
Example sha1_abc : ScriptSHA1Hex (bs "abc"%string) = bs "a9993e364706816aba3e25717850c26c9cd0d89d"%string.
Proof. vm_compute. reflexivity. Qed.

Example sha1_two_blocks :
  ScriptSHA1Hex (bs "abcdbcdecdefdefgefghfghighijhijkijkljklmklmnlmnomnopnopq"%string) = bs "84983e441c3bd26ebaae4aa1f95129e5e54670f1"%string.
Proof. vm_compute. reflexivity. Qed.

#[global] Opaque ScriptSHA1Hex.
