(* ===== verification/ReclaimAlias.v ===== *)
(** * ReclaimAlias: public names for reclaim values ([reclaim/alias.go])

    The alias half of [reclaim.Table]: SetAlias, Watch, ClearPublisher, the
    unbinding that ends an incarnation, and delivery to watchers.  All of it
    runs under [t.mu], so each exported call is one function on the alias
    store.  Go pointers to [aliasEntry] and [aliasWatcher] are identifiers into
    two heaps, because SetAlias, the incarnation's reverse slice and the table's
    map share them.  The part of [slot] these functions read (state and value)
    is passed in; its [aliases] slice is the map [rev].

    Map iteration order in SetAlias and ClearPublisher only permutes calls on
    different entries; the model iterates in key order. *)

From S2P Require Import Prelude.
From Stdlib Require Import ZArith Lia List String.
From stdpp Require Import base list strings option gmap.

Open Scope Z_scope.

(** ** Values of type [any] *)

(** A nil interface, a pointer ([None] is a typed nil), or a value of another
    comparable type.  A slice, map or func is outside the model: [sameValue]
    compares two of them with [==], which panics. *)
Inductive any := ANil | APtr (p : option nat) | AOther (v : Z).

#[export] Instance any_eq_dec : EqDecision any.
Proof. solve_decision. Defined.

(** [isNilValue] *)
Definition isNilValue (value : any) : bool :=
  match value with
  | ANil => true
  | APtr None => true
  | _ => false
  end.

(** [sameValue] *)
Definition sameValue (l r : any) : bool :=
  if isNilValue l && isNilValue r then true
  else if isNilValue l || isNilValue r then false
  else match l, r with
       | APtr p, APtr q => bool_decide (p = q)
       | _, _ => bool_decide (l = r)
       end.

(** ** State *)

Abbreviation sid := nat.
Abbreviation eid := nat.
Abbreviation wid := nat.

(** [aliasWatcher]: [changed] says whether the callback is non-nil. *)
Record aliasWatcher := { w_changed : bool; w_last : any }.

(** [aliasEntry] *)
Record aliasEntry := {
  e_incarnation : option sid;
  e_publisher : string;
  e_group : string;
  e_empty : any;
  e_watchers : list wid;
}.

Record astore := {
  a_aliases : gmap string eid;             (* Table.aliases *)
  a_entries : gmap eid aliasEntry;         (* heap of entries *)
  a_watchers : gmap wid aliasWatcher;      (* heap of watchers *)
  a_rev : gmap sid (list eid);             (* slot.aliases *)
  a_calls : list (wid * any);              (* calls of changed, newest first *)
}.

Definition emptyAliases : astore :=
  {| a_aliases := ∅; a_entries := ∅; a_watchers := ∅; a_rev := ∅; a_calls := [] |}.

Definition set_entry (a : astore) (e : eid) (v : aliasEntry) : astore :=
  {| a_aliases := a_aliases a; a_entries := <[e := v]> (a_entries a);
     a_watchers := a_watchers a; a_rev := a_rev a; a_calls := a_calls a |}.

Definition set_rev (a : astore) (s : sid) (l : list eid) : astore :=
  {| a_aliases := a_aliases a; a_entries := a_entries a;
     a_watchers := a_watchers a; a_rev := <[s := l]> (a_rev a); a_calls := a_calls a |}.

(** What the callback of a watcher was last called with; [ANil] before the first
    call. *)
Fixpoint last_call (calls : list (wid * any)) (w : wid) : any :=
  match calls with
  | [] => ANil
  | (w', v) :: calls => if decide (w' = w) then v else last_call calls w
  end.

Definition received (a : astore) (w : wid) : any := last_call (a_calls a) w.

(** Every call brings a value other than the one before. *)
Fixpoint only_changes (calls : list (wid * any)) : Prop :=
  match calls with
  | [] => True
  | (w, v) :: calls => sameValue (last_call calls w) v = false /\ only_changes calls
  end.

Definition rev_of (a : astore) (s : sid) : list eid := default [] (a_rev a !! s).

(** ** Delivery *)

(** [deliverLocked]; a panic of [changed] is recovered and ignored. *)
Definition deliverLocked (a : astore) (w : wid) (value : any) : astore :=
  match a_watchers a !! w with
  | None => a
  | Some watcher =>
      if sameValue (w_last watcher) value then a
      else {| a_aliases := a_aliases a; a_entries := a_entries a;
              a_watchers := <[w := {| w_changed := w_changed watcher; w_last := value |}]> (a_watchers a);
              a_rev := a_rev a;
              a_calls := if w_changed watcher then (w, value) :: a_calls a else a_calls a |}
  end.

(** [storeWatchersLocked] *)
Definition storeWatchersLocked (a : astore) (e : eid) (current : any) : astore :=
  match a_entries a !! e with
  | None => a
  | Some entry =>
      let value := if isNilValue current then e_empty entry else current in
      fold_left (fun a w => deliverLocked a w value) (e_watchers entry) a
  end.

(** ** Binding *)

(** [detachAliasLocked] *)
Definition detachAliasLocked (a : astore) (e : eid) : astore :=
  match a_entries a !! e with
  | None => a
  | Some entry =>
      match e_incarnation entry with
      | None => a
      | Some s =>
          set_entry (set_rev a s (filter (fun other => other <> e) (rev_of a s))) e
            {| e_incarnation := None; e_publisher := e_publisher entry; e_group := e_group entry;
               e_empty := e_empty entry; e_watchers := e_watchers entry |}
      end
  end.

(** The field writes [publisher = p; group = g] on an entry. *)
Definition set_owner (a : astore) (e : eid) (p g : string) : astore :=
  match a_entries a !! e with
  | None => a
  | Some entry =>
      set_entry a e {| e_incarnation := e_incarnation entry; e_publisher := p; e_group := g;
                       e_empty := e_empty entry; e_watchers := e_watchers entry |}
  end.

Definition empty_of (a : astore) (e : eid) : any :=
  match a_entries a !! e with Some entry => e_empty entry | None => ANil end.

(** [clearAliasLocked] *)
Definition clearAliasLocked (a : astore) (e : eid) : astore :=
  let a := detachAliasLocked a e in
  let a := set_owner a e EmptyString EmptyString in
  storeWatchersLocked a e (empty_of a e).

(** One iteration of [unbindIncarnationLocked]. *)
Definition unbind_entry (a : astore) (e : eid) : astore :=
  match a_entries a !! e with
  | None => a
  | Some entry =>
      let a := set_entry a e {| e_incarnation := None; e_publisher := EmptyString;
                                e_group := EmptyString; e_empty := e_empty entry;
                                e_watchers := e_watchers entry |} in
      storeWatchersLocked a e (e_empty entry)
  end.

(** [unbindIncarnationLocked] *)
Definition unbindIncarnationLocked (a : astore) (s : sid) : astore :=
  fold_left unbind_entry (rev_of a s) (set_rev a s []).

(** ** Exported operations *)

Inductive alias_err :=
| ErrNoMappedKey (alias key : string)
| ErrHeldBy (alias holder publisher : string).

(** What SetAlias reads of the slot mapped at [key]: its id and its value,
    when it is awake or asleep. *)
Abbreviation mapped_slot := (option (sid * any)).

Definition fresh_key {V} (m : gmap nat V) : nat := fresh (dom m).

(** The rename loop: every other entry of this publisher in this group. *)
Definition clear_others (a : astore) (current : option eid) (publisher group : string) : astore :=
  fold_left (fun a '(_, e) =>
      match a_entries a !! e with
      | None => a
      | Some other =>
          if bool_decide (Some e = current) || negb (bool_decide (e_publisher other = publisher))
             || negb (bool_decide (e_group other = group))
          then a else clearAliasLocked a e
      end) (map_to_list (a_aliases a)) a.

(** The entry for [alias], created when absent. *)
Definition ensure_entry (a : astore) (alias : string) (empty : any) : astore * eid :=
  match a_aliases a !! alias with
  | Some e => (a, e)
  | None =>
      let e := fresh_key (a_entries a) in
      ({| a_aliases := <[alias := e]> (a_aliases a);
          a_entries := <[e := {| e_incarnation := None; e_publisher := EmptyString;
                                 e_group := EmptyString; e_empty := empty; e_watchers := [] |}]> (a_entries a);
          a_watchers := a_watchers a; a_rev := a_rev a; a_calls := a_calls a |}, e)
  end.

(** [incarnation.aliases = append(...); entry.incarnation = incarnation] after
    a detach, skipped when already bound. *)
Definition bind_entry (a : astore) (e : eid) (s : sid) : astore :=
  match a_entries a !! e with
  | None => a
  | Some entry =>
      if bool_decide (e_incarnation entry = Some s) then a
      else
        let a := detachAliasLocked a e in
        set_entry (set_rev a s (rev_of a s ++ [e])) e
          {| e_incarnation := Some s; e_publisher := e_publisher entry; e_group := e_group entry;
             e_empty := e_empty entry; e_watchers := e_watchers entry |}
  end.

(** [SetAlias] on a non-nil table. *)
Definition SetAlias (a : astore) (slot : mapped_slot) (key alias publisher group : string)
    : option alias_err * astore :=
  if bool_decide (alias = EmptyString) || bool_decide (key = EmptyString) then (None, a)
  else match slot with
  | None => (Some (ErrNoMappedKey alias key), a)
  | Some (s, value) =>
      let held := match a_aliases a !! alias with
                  | Some e => match a_entries a !! e with Some en => e_publisher en | None => EmptyString end
                  | None => EmptyString end in
      if negb (bool_decide (held = EmptyString)) && negb (bool_decide (held = publisher))
      then (Some (ErrHeldBy alias held publisher), a)
      else
        let a := clear_others a (a_aliases a !! alias) publisher group in
        let '(a, e) := ensure_entry a alias ANil in
        let a := bind_entry a e s in
        let a := set_owner a e publisher group in
        (None, storeWatchersLocked a e value)
  end.

(** [Watch] with a live context on a non-nil table; [value_of] reads the
    incarnation's value.  Returns the watcher to be dropped when ctx is done. *)
Definition Watch (a : astore) (value_of : sid -> any) (alias : string) (empty : any) (changed : bool)
    : astore * option wid :=
  if bool_decide (alias = EmptyString) then (a, None)
  else
    let '(a, e) := ensure_entry a alias empty in
    match a_entries a !! e with
    | None => (a, None)
    | Some entry =>
        let empty' := match e_empty entry, empty with
                      | ANil, ANil => ANil
                      | ANil, x => x
                      | y, _ => y
                      end in
        let w := fresh_key (a_watchers a) in
        let entry' := {| e_incarnation := e_incarnation entry; e_publisher := e_publisher entry;
                         e_group := e_group entry; e_empty := empty';
                         e_watchers := e_watchers entry ++ [w] |} in
        let a := {| a_aliases := a_aliases a; a_entries := <[e := entry']> (a_entries a);
                    a_watchers := <[w := {| w_changed := changed; w_last := ANil |}]> (a_watchers a);
                    a_rev := a_rev a; a_calls := a_calls a |} in
        let current := match e_incarnation entry with
                       | Some s => if isNilValue (value_of s) then empty' else value_of s
                       | None => empty'
                       end in
        (deliverLocked a w current, Some w)
    end.

(** [dropWatcher] *)
Definition dropWatcher (a : astore) (alias : string) (w : wid) : astore :=
  match a_aliases a !! alias with
  | None => a
  | Some e =>
      match a_entries a !! e with
      | None => a
      | Some entry =>
          set_entry a e {| e_incarnation := e_incarnation entry; e_publisher := e_publisher entry;
                           e_group := e_group entry; e_empty := e_empty entry;
                           e_watchers := filter (fun other => other <> w) (e_watchers entry) |}
      end
  end.

(** [ClearPublisher] *)
Definition ClearPublisher (a : astore) (publisher group : string) : astore :=
  if bool_decide (publisher = EmptyString) || bool_decide (group = EmptyString) then a
  else fold_left (fun a '(_, e) =>
      match a_entries a !! e with
      | None => a
      | Some entry =>
          if bool_decide (e_publisher entry = publisher) && bool_decide (e_group entry = group)
          then clearAliasLocked a e else a
      end) (map_to_list (a_aliases a)) a.

(** The alias part of [takeAll]: unbind every mapped incarnation, then forget
    the public map. *)
Definition resetAliases (a : astore) (ss : list sid) : astore :=
  let a := fold_left unbindIncarnationLocked ss a in
  {| a_aliases := ∅; a_entries := a_entries a; a_watchers := a_watchers a;
     a_rev := a_rev a; a_calls := a_calls a |}.
