(* ===== verification/ReclaimAliasInv.v ===== *)
(** * ReclaimAliasInv: what SetAlias, Watch and ClearPublisher promise

    The invariant of the alias store of [reclaim/alias.go]: forward and reverse
    links agree, one publisher holds at most one alias of a group, and every
    watcher last received the value that is published now. *)

From S2P Require Import Prelude.
From S2P Require Import ReclaimAlias.
From Stdlib Require Import ZArith Lia List String.
From stdpp Require Import base list strings option gmap.

Open Scope Z_scope.

(** ** Values *)

Lemma sameValue_nonnil u v : isNilValue v = false -> sameValue u v = true -> u = v.
Proof.
  unfold sameValue. intros Hv. rewrite Hv, andb_false_r, orb_false_r.
  destruct (isNilValue u); [done|]. destruct u, v; intros H; try apply bool_decide_eq_true in H; congruence.
Qed.

Lemma sameValue_nil u v : isNilValue v = true -> sameValue u v = true -> isNilValue u = true.
Proof.
  unfold sameValue. intros Hv. rewrite Hv, andb_true_r, orb_true_r. by destruct (isNilValue u).
Qed.

Lemma sameValue_refl v : sameValue v v = true.
Proof.
  unfold sameValue. destruct (isNilValue v); simpl; [done|]. destruct v; by apply bool_decide_eq_true.
Qed.

(** ** Delivery *)

(** Delivery touches watchers only. *)
Definition same_links (a a' : astore) : Prop :=
  a_aliases a' = a_aliases a /\ a_entries a' = a_entries a /\ a_rev a' = a_rev a.

(** [w]'s last value is what [value] delivers. *)
Definition last_is (a : astore) (value : any) (w : wid) : Prop :=
  exists wt, a_watchers a !! w = Some wt /\ sameValue (w_last wt) value = true.

Lemma deliver_spec a w value :
  let a' := deliverLocked a w value in
  same_links a a' /\ dom (a_watchers a') = dom (a_watchers a)
  /\ (w ∈ dom (a_watchers a) -> last_is a' value w)
  /\ (forall w', w' <> w -> a_watchers a' !! w' = a_watchers a !! w').
Proof.
  unfold deliverLocked, last_is. destruct (a_watchers a !! w) as [wt|] eqn:Hw; simpl.
  - destruct (sameValue (w_last wt) value) eqn:Hs; simpl.
    + split_and!; try done. eauto.
    + split_and!; try done.
      * apply dom_insert_lookup_L. by exists wt.
      * intros _. eexists. rewrite lookup_insert_eq. split; [done|]. apply sameValue_refl.
      * intros w' Hne. by rewrite lookup_insert_ne.
  - split_and!; try done. intros Hin%elem_of_dom. rewrite Hw in Hin. by destruct Hin.
Qed.

Lemma deliver_ext a b ws value :
  a_watchers b = a_watchers a ->
  a_watchers (fold_left (fun a w => deliverLocked a w value) ws b)
  = a_watchers (fold_left (fun a w => deliverLocked a w value) ws a).
Proof.
  revert a b. induction ws as [|w ws IH]; intros a b E; simpl; [done|]. apply IH.
  unfold deliverLocked. rewrite E. repeat case_match; simpl; by rewrite ?E.
Qed.

Lemma deliver_all a ws value :
  let a' := fold_left (fun a w => deliverLocked a w value) ws a in
  same_links a a' /\ dom (a_watchers a') = dom (a_watchers a)
  /\ (forall w, w ∈ ws -> w ∈ dom (a_watchers a) -> last_is a' value w)
  /\ (forall w, w ∉ ws -> a_watchers a' !! w = a_watchers a !! w).
Proof.
  revert a. induction ws as [|w ws IH]; intros a; simpl.
  { split_and!; try done. intros w Hw. by inversion Hw. }
  destruct (deliver_spec a w value) as ((L1 & L2 & L3) & D & Hw & Ho).
  destruct (IH (deliverLocked a w value)) as ((M1 & M2 & M3) & E & Hws & Hos). split_and!.
  - split_and!; congruence.
  - congruence.
  - intros w' Hin Hd. destruct (decide (w' ∈ ws)) as [Hi|Hi]; [apply Hws; [done|by rewrite D]|].
    assert (w' = w) as -> by set_solver. unfold last_is. rewrite Hos by done. by apply Hw.
  - intros w' [H1 H2]%not_elem_of_cons. rewrite Hos, Ho; done.
Qed.

(** ** The invariant *)

(** What watchers of an entry must have received: the value of its incarnation
    when that is not nil; otherwise the empty value, or nil still. *)
Definition current_ok (val : sid -> any) (en : aliasEntry) (last : any) : Prop :=
  match e_incarnation en with
  | Some s => if isNilValue (val s) then isNilValue last = true \/ sameValue last (e_empty en) = true
              else last = val s
  | None => isNilValue last = true \/ sameValue last (e_empty en) = true
  end.

Record ainv (val : sid -> any) (a : astore) : Prop := {
  ai_dom : forall n e, a_aliases a !! n = Some e -> is_Some (a_entries a !! e);
  ai_inj : forall n n' e, a_aliases a !! n = Some e -> a_aliases a !! n' = Some e -> n = n';
  ai_link : forall e s, e ∈ rev_of a s <-> exists en, a_entries a !! e = Some en /\ e_incarnation en = Some s;
  ai_nodup : forall s, NoDup (rev_of a s);
  ai_free : forall e en, a_entries a !! e = Some en -> e_incarnation en = None ->
    e_publisher en = EmptyString /\ e_group en = EmptyString;
  ai_one : forall n n' e e' en en', a_aliases a !! n = Some e -> a_aliases a !! n' = Some e' ->
    a_entries a !! e = Some en -> a_entries a !! e' = Some en' ->
    e_publisher en = e_publisher en' -> e_group en = e_group en' -> e_publisher en <> EmptyString -> e = e';
  ai_wdom : forall e en w, a_entries a !! e = Some en -> w ∈ e_watchers en -> w ∈ dom (a_watchers a);
  ai_wone : forall e e' en en' w, a_entries a !! e = Some en -> a_entries a !! e' = Some en' ->
    w ∈ e_watchers en -> w ∈ e_watchers en' -> e = e';
  ai_last : forall e en w wt, a_entries a !! e = Some en -> w ∈ e_watchers en ->
    a_watchers a !! w = Some wt -> current_ok val en (w_last wt);
}.

Lemma ainv_empty val : ainv val emptyAliases.
Proof.
  split; simpl; try done.
  - intros e s. unfold rev_of. simpl. set_solver.
  - intros s. unfold rev_of. simpl. constructor.
Qed.

(** ** Entry-level effect of the helpers *)

(** An entry without incarnation and owner. *)
Definition cleared (en : aliasEntry) : aliasEntry :=
  {| e_incarnation := None; e_publisher := EmptyString; e_group := EmptyString;
     e_empty := e_empty en; e_watchers := e_watchers en |}.

Lemma store_spec a e en cur :
  a_entries a !! e = Some en -> (forall w, w ∈ e_watchers en -> w ∈ dom (a_watchers a)) ->
  let a' := storeWatchersLocked a e cur in
  same_links a a' /\ dom (a_watchers a') = dom (a_watchers a)
  /\ (forall w, w ∈ e_watchers en -> last_is a' (if isNilValue cur then e_empty en else cur) w)
  /\ (forall w, w ∉ e_watchers en -> a_watchers a' !! w = a_watchers a !! w).
Proof.
  intros He Hd. unfold storeWatchersLocked. rewrite He.
  destruct (deliver_all a (e_watchers en) (if isNilValue cur then e_empty en else cur)) as (? & ? & H & ?).
  split_and!; auto.
Qed.

Lemma store_ext a b e cur :
  a_entries b !! e = a_entries a !! e -> a_watchers b = a_watchers a ->
  a_watchers (storeWatchersLocked b e cur) = a_watchers (storeWatchersLocked a e cur).
Proof.
  intros E W. unfold storeWatchersLocked. rewrite E. case_match; [by apply deliver_ext|done].
Qed.

(** One entry changes, its watchers are told, and the rest is as before: the
    frame rule of every operation. *)
Lemma ainv_update val a a1 a' e en en' cur :
  ainv val a -> a_entries a !! e = Some en ->
  a_aliases a1 = a_aliases a -> a_entries a1 = <[e := en']> (a_entries a) -> a_watchers a1 = a_watchers a ->
  e_watchers en' = e_watchers en ->
  (forall e0 s, e0 ∈ rev_of a1 s <-> if decide (e0 = e) then e_incarnation en' = Some s else e0 ∈ rev_of a s) ->
  (forall s, NoDup (rev_of a1 s)) ->
  (e_incarnation en' = None -> e_publisher en' = EmptyString /\ e_group en' = EmptyString) ->
  (e_publisher en' <> EmptyString -> forall n n' e0 en0, a_aliases a !! n = Some e -> a_aliases a !! n' = Some e0 ->
     a_entries a !! e0 = Some en0 -> e_publisher en0 = e_publisher en' -> e_group en0 = e_group en' -> e0 = e) ->
  (forall last, sameValue last (if isNilValue cur then e_empty en' else cur) = true -> current_ok val en' last) ->
  a' = storeWatchersLocked a1 e cur ->
  ainv val a' /\ a_aliases a' = a_aliases a /\ a_entries a' = <[e := en']> (a_entries a)
  /\ a_rev a' = a_rev a1.
Proof.
  intros [Idom Iinj Ilink Ind Ifree Ione Iwd Iwo Ilast] He Ea Ee Ew Hws Hrev Hnd Hfree Hone Hcur ->.
  assert (Hd : forall w, w ∈ e_watchers en' -> w ∈ dom (a_watchers a1)).
  { intros w Hw. rewrite Ew. apply (Iwd e en w He). by rewrite <- Hws. }
  destruct (store_spec a1 e en' cur) as ((L1 & L2 & L3) & D & Hl & Ho); [by rewrite Ee, lookup_insert_eq|done|].
  set (a' := storeWatchersLocked a1 e cur) in *. clearbody a'.
  assert (Hent : a_entries a' = <[e := en']> (a_entries a)) by congruence.
  assert (Hals : a_aliases a' = a_aliases a) by congruence.
  assert (Hlook : forall e0 en0, a_entries a' !! e0 = Some en0 ->
    (e0 = e /\ en0 = en') \/ (e0 <> e /\ a_entries a !! e0 = Some en0)).
  { intros e0 en0. rewrite Hent, lookup_insert_Some. naive_solver. }
  split; [|done]. split.
  - intros n e0 Hn. rewrite Hals in Hn. rewrite Hent. destruct (decide (e = e0)) as [->|Hne].
    + rewrite lookup_insert_eq. eauto.
    + rewrite lookup_insert_ne by done. eauto.
  - intros n n' e0. rewrite Hals. apply Iinj.
  - intros e0 s. unfold rev_of at 1. rewrite L3. fold (rev_of a1 s). rewrite Hrev, Hent.
    case_decide as Hd0; [subst; rewrite lookup_insert_eq; naive_solver|].
    rewrite lookup_insert_ne by done. apply Ilink.
  - intros s. unfold rev_of. rewrite L3. apply Hnd.
  - intros e0 en0 [[-> ->]|[_ H0]]%Hlook; [done|]. by eapply Ifree.
  - intros n n' e0 e1 en0 en1. rewrite Hals.
    intros Hn Hn' [[-> ->]|[H0n H0]]%Hlook [[-> ->]|[H1n H1]]%Hlook Hp Hg Hne; [done| | |by eapply Ione].
    + symmetry. by eapply (Hone Hne n n').
    + eapply (Hone ltac:(congruence) n' n); eauto.
  - intros e0 en0 w [[-> ->]|[_ H0]]%Hlook Hw; rewrite D; [by apply Hd|rewrite Ew; eauto].
  - intros e0 e1 en0 en1 w [[-> ->]|[_ H0]]%Hlook [[-> ->]|[_ H1]]%Hlook; rewrite ?Hws; eauto.
  - intros e0 en0 w wt [[-> ->]|[H0n H0]]%Hlook Hw Hwt.
    + destruct (Hl w Hw) as (wt' & Hwt' & Hs). rewrite Hwt in Hwt'. simplify_eq. by apply Hcur.
    + assert (w ∉ e_watchers en').
      { rewrite Hws. intros Hin. by apply H0n, (Iwo e0 e en0 en w). }
      rewrite Ho, Ew in Hwt by done. eauto.
Qed.

Lemma filter_ne (e : nat) (l : list nat) : e ∉ l -> filter (fun other => other <> e) l = l.
Proof.
  induction l as [|x l IH]; intros Hin; [done|]. apply not_elem_of_cons in Hin as [H1 H2].
  rewrite filter_cons_True by congruence. by rewrite IH.
Qed.

(** Unlinking an entry: the reverse slices after [detachAliasLocked]. *)
Lemma detach_rev val a e en s :
  ainv val a -> a_entries a !! e = Some en ->
  rev_of (detachAliasLocked a e) s = filter (fun other => other <> e) (rev_of a s).
Proof.
  intros I He. unfold detachAliasLocked. rewrite He.
  destruct (e_incarnation en) as [s0|] eqn:Hi.
  - unfold rev_of at 1. simpl. destruct (decide (s0 = s)) as [->|Hne].
    + by rewrite lookup_insert_eq.
    + rewrite lookup_insert_ne by done. fold (rev_of a s). symmetry. apply filter_ne.
      rewrite (ai_link _ _ I). naive_solver.
  - symmetry. apply filter_ne. rewrite (ai_link _ _ I). naive_solver.
Qed.

Lemma detach_entries a e en :
  a_entries a !! e = Some en ->
  a_entries (detachAliasLocked a e) =
    <[e := {| e_incarnation := None; e_publisher := e_publisher en; e_group := e_group en;
              e_empty := e_empty en; e_watchers := e_watchers en |}]> (a_entries a)
  /\ a_aliases (detachAliasLocked a e) = a_aliases a /\ a_watchers (detachAliasLocked a e) = a_watchers a.
Proof.
  intros He. unfold detachAliasLocked. rewrite He. destruct (e_incarnation en) as [s|] eqn:Hi; [done|].
  split; [|done]. symmetry. apply insert_id. rewrite He. destruct en; simpl in *. by subst.
Qed.

(** [clearAliasLocked] clears the entry. *)
Lemma clear_spec val a e en :
  ainv val a -> a_entries a !! e = Some en ->
  ainv val (clearAliasLocked a e) /\ a_aliases (clearAliasLocked a e) = a_aliases a
  /\ a_entries (clearAliasLocked a e) = <[e := cleared en]> (a_entries a)
  /\ (forall s, rev_of (clearAliasLocked a e) s = filter (fun other => other <> e) (rev_of a s))
  /\ a_watchers (clearAliasLocked a e) =
     a_watchers (storeWatchersLocked (set_entry a e (cleared en)) e (e_empty en)).
Proof.
  intros I He. destruct (detach_entries a e en He) as (E & A & W).
  set (a1 := set_owner (detachAliasLocked a e) e EmptyString EmptyString).
  assert (E1 : a_entries a1 = <[e := cleared en]> (a_entries a)).
  { unfold a1, set_owner. rewrite E, lookup_insert_eq. simpl. by rewrite E, insert_insert_eq. }
  assert (R1 : forall s, rev_of a1 s = filter (fun other => other <> e) (rev_of a s)).
  { intros s. rewrite <- (detach_rev _ _ _ _ s I He). unfold a1, set_owner. rewrite E, lookup_insert_eq. done. }
  assert (Ec : clearAliasLocked a e = storeWatchersLocked a1 e (e_empty en)).
  { unfold clearAliasLocked. fold a1. unfold empty_of. by rewrite E1, lookup_insert_eq. }
  assert (W1 : a_watchers a1 = a_watchers a) by (unfold a1, set_owner; by rewrite E, lookup_insert_eq).
  assert (ainv val (clearAliasLocked a e) /\ a_aliases (clearAliasLocked a e) = a_aliases a
    /\ a_entries (clearAliasLocked a e) = <[e := cleared en]> (a_entries a)
    /\ a_rev (clearAliasLocked a e) = a_rev a1) as (? & ? & ? & R).
  2: { split_and!; try done; [intros s; unfold rev_of at 1; rewrite R; apply R1|].
       rewrite Ec. apply store_ext; [by rewrite E1|done]. }
  eapply (ainv_update val a a1 _ e en (cleared en) (e_empty en) I He).
  - unfold a1, set_owner. by rewrite E, lookup_insert_eq.
  - done.
  - exact W1.
  - done.
  - intros e0 s. rewrite R1, list_elem_of_filter. case_decide; subst; naive_solver.
  - intros s. rewrite R1. apply NoDup_filter, I.
  - done.
  - done.
  - intros last Hl. right. by destruct (isNilValue (e_empty en)).
  - exact Ec.
Qed.

(** ** Loops over the public map *)

(** Entries after a loop that clears those [test] selects. *)
Definition clears (test : eid -> aliasEntry -> bool) (l : list eid) (a a' : astore) : Prop :=
  a_aliases a' = a_aliases a
  /\ (forall e en', a_entries a' !! e = Some en' ->
        a_entries a !! e = Some en' \/ exists en, a_entries a !! e = Some en /\ en' = cleared en)
  /\ (forall e en, a_entries a !! e = Some en -> is_Some (a_entries a' !! e))
  /\ (forall e en', e ∈ l -> a_entries a' !! e = Some en' -> test e en' = false \/ e_publisher en' = EmptyString).

Definition clear_loop (f : astore -> string * eid -> astore) (test : eid -> aliasEntry -> bool) : Prop :=
  forall a n e, f a (n, e) = match a_entries a !! e with
                             | None => a
                             | Some en => if test e en then clearAliasLocked a e else a
                             end.

Lemma clear_loop_spec val f test l a :
  clear_loop f test -> ainv val a ->
  ainv val (fold_left f l a) /\ clears test (map snd l) a (fold_left f l a).
Proof.
  intros Hf. revert a. induction l as [|[n e] l IH]; intros a I; simpl.
  { split; [done|]. split_and!; try done; [by left|]. intros e en' Hin. inversion Hin. }
  assert (ainv val (f a (n, e)) /\ clears test [e] a (f a (n, e))) as [I1 (A1 & B1 & C1 & D1)].
  { rewrite Hf. destruct (a_entries a !! e) as [en|] eqn:He; [destruct (test e en) eqn:Ht|].
    - destruct (clear_spec val a e en I He) as (I' & A' & E' & _ & _). split; [done|]. split_and!; [done|..].
      + intros e0 en0. rewrite E', lookup_insert_Some. intros [[<- <-]|[_ ?]]; eauto.
      + intros e0 en0 H0. rewrite E'. destruct (decide (e = e0)) as [->|]; [rewrite lookup_insert_eq|rewrite lookup_insert_ne by done]; eauto.
      + intros e0 en0 ->%list_elem_of_singleton. rewrite E', lookup_insert_eq. intros [= <-]. by right.
    - split; [done|]. split_and!; [done|by left|eauto|]. intros e0 en0 ->%list_elem_of_singleton. rewrite He. intros [= <-]. by left.
    - split; [done|]. split_and!; [done|by left|eauto|]. intros e0 en0 ->%list_elem_of_singleton. by rewrite He. }
  destruct (IH _ I1) as [I2 (A2 & B2 & C2 & D2)]. split; [done|]. split_and!.
  - congruence.
  - intros e0 en0 [H0|(en1 & H1 & ->)]%B2; [by apply B1|].
    destruct (B1 _ _ H1) as [?|(en2 & ? & ->)]; eauto.
  - intros e0 en0 [en1 H1]%C1. eauto.
  - intros e0 en0 [->|Hin]%elem_of_cons H0; [|by apply D2].
    destruct (B2 _ _ H0) as [H1|(en1 & _ & ->)]; [|by right]. eapply D1; [by constructor|done].
Qed.

Lemma elem_of_aliases (m : gmap string eid) n e : m !! n = Some e -> e ∈ map snd (map_to_list m).
Proof. intros H%elem_of_map_to_list. by apply (list_elem_of_fmap_2 snd) in H. Qed.

(** ** The operations keep the invariant *)

Lemma ainv_ClearPublisher val a p g : ainv val a -> ainv val (ClearPublisher a p g).
Proof.
  intros I. unfold ClearPublisher. case_match; [done|].
  apply (clear_loop_spec val _ (fun _ en => bool_decide (e_publisher en = p) && bool_decide (e_group en = g))); [|done].
  intros a0 n e. done.
Qed.

Lemma ainv_clear_others val a cur p g :
  ainv val a ->
  ainv val (clear_others a cur p g)
  /\ clears (fun e en => negb (bool_decide (Some e = cur) || negb (bool_decide (e_publisher en = p))
                               || negb (bool_decide (e_group en = g))))
       (map snd (map_to_list (a_aliases a))) a (clear_others a cur p g).
Proof.
  intros I. apply clear_loop_spec; [|done]. intros a0 n e.
  destruct (a_entries a0 !! e); [|done]. by destruct (bool_decide (Some e = cur) || _ || _).
Qed.

(** Only the reverse slices' contents matter. *)
Lemma ainv_rev_ext val a b :
  a_aliases b = a_aliases a -> a_entries b = a_entries a -> a_watchers b = a_watchers a ->
  (forall s, rev_of b s = rev_of a s) -> ainv val a -> ainv val b.
Proof.
  intros E1 E2 E3 E4 []. split; rewrite ?E1, ?E2, ?E3; eauto.
  - intros e s. rewrite E4. auto.
  - intros s. rewrite E4. auto.
Qed.

(** The loop of unbindIncarnationLocked, which empties the reverse slice first,
    does what clearing the entries one by one does. *)
Lemma unbind_sim val s l a b :
  ainv val a -> rev_of a s = l ->
  a_aliases b = a_aliases a -> a_entries b = a_entries a -> a_watchers b = a_watchers a ->
  (forall s', rev_of b s' = if decide (s' = s) then [] else rev_of a s') ->
  ainv val (fold_left unbind_entry l b)
  /\ a_aliases (fold_left unbind_entry l b) = a_aliases b
  /\ (forall e en', a_entries (fold_left unbind_entry l b) !! e = Some en' -> e_incarnation en' <> Some s)
  /\ (forall s', rev_of (fold_left unbind_entry l b) s' = if decide (s' = s) then [] else rev_of b s').
Proof.
  revert a b. induction l as [|e l IH]; intros a b I Hl E1 E2 E3 E4; simpl.
  - split_and!; [|done| |].
    + eapply ainv_rev_ext; [done..| |done]. intros s'. rewrite E4. by case_decide; subst.
    + intros e en'. rewrite E2. intros He Hi. assert (e ∈ rev_of a s) as Hin by (apply (ai_link _ _ I); eauto).
      rewrite Hl in Hin. inversion Hin.
    + intros s'. rewrite E4. by case_decide.
  - assert (exists en, a_entries a !! e = Some en /\ e_incarnation en = Some s) as (en & He & Hi).
    { apply (ai_link _ _ I). rewrite Hl. by constructor. }
    destruct (clear_spec val a e en I He) as (I' & A' & E' & R' & W').
    assert (Hnd : NoDup (e :: l)) by (rewrite <- Hl; apply I). apply NoDup_cons in Hnd as [Hnin _].
    assert (Eb : unbind_entry b e = storeWatchersLocked (set_entry b e (cleared en)) e (e_empty en)).
    { unfold unbind_entry. by rewrite E2, He. }
    destruct (store_spec (set_entry b e (cleared en)) e (cleared en) (e_empty en)) as ((L1 & L2 & L3) & _ & _ & _).
    { simpl. by rewrite lookup_insert_eq. }
    { intros w Hw. simpl. rewrite E3. by apply (ai_wdom _ _ I e en). }
    rewrite <- Eb in L1, L2, L3. simpl in L1, L2, L3.
    assert (Rb : forall s', rev_of (unbind_entry b e) s' = rev_of b s') by (intros; unfold rev_of; by rewrite L3).
    destruct (IH (clearAliasLocked a e) (unbind_entry b e) I') as (R1 & R2 & R3 & R4).
    + rewrite R', Hl, filter_cons_False by congruence. by apply filter_ne.
    + congruence.
    + rewrite L2, E'. by rewrite E2.
    + rewrite Eb, W'. apply store_ext; simpl; [by rewrite E2|done].
    + intros s'. rewrite Rb, E4. case_decide as Hs; [done|]. rewrite R'. symmetry. apply filter_ne.
      rewrite (ai_link _ _ I). naive_solver.
    + split_and!; [done|congruence|done|]. intros s'. rewrite R4. case_decide; [done|apply Rb].
Qed.

Lemma ainv_unbind val a s :
  ainv val a ->
  ainv val (unbindIncarnationLocked a s)
  /\ a_aliases (unbindIncarnationLocked a s) = a_aliases a
  /\ (forall e en, a_entries (unbindIncarnationLocked a s) !! e = Some en -> e_incarnation en <> Some s).
Proof.
  intros I. unfold unbindIncarnationLocked.
  assert (Hr : forall s', rev_of (set_rev a s []) s' = if decide (s' = s) then [] else rev_of a s').
  { intros s'. unfold rev_of. simpl. case_decide as Hs; [subst; by rewrite lookup_insert_eq|].
    by rewrite lookup_insert_ne. }
  destruct (unbind_sim val s (rev_of a s) a (set_rev a s []) I eq_refl eq_refl eq_refl eq_refl Hr)
    as (R1 & R2 & R3 & _). by split_and!.
Qed.

Lemma fresh_key_None {V} (m : gmap nat V) : m !! fresh_key m = None.
Proof. apply not_elem_of_dom. unfold fresh_key. apply is_fresh. Qed.

(** The entry for a name, found or created. *)
Lemma ensure_spec val a n empty a' e :
  ainv val a -> ensure_entry a n empty = (a', e) ->
  ainv val a' /\ a_aliases a' !! n = Some e /\ a_watchers a' = a_watchers a
  /\ (forall s, rev_of a' s = rev_of a s)
  /\ (forall n0 e0, a_aliases a' !! n0 = Some e0 -> a_aliases a !! n0 = Some e0 \/ (n0 = n /\ a_aliases a !! n = None))
  /\ (forall e0 en0, a_entries a' !! e0 = Some en0 -> a_entries a !! e0 = Some en0 \/ e0 = e /\ e_watchers en0 = []).
Proof.
  intros I. unfold ensure_entry. destruct (a_aliases a !! n) as [e1|] eqn:Hn; intros E; simplify_eq.
  { split_and!; try done; by left. }
  pose proof (fresh_key_None (a_entries a)) as Hf. revert Hf. generalize (fresh_key (a_entries a)). intros e Hf.
  destruct I as [Idom Iinj Ilink Ind Ifree Ione Iwd Iwo Ilast].
  assert (Hnew : forall n0, a_aliases a !! n0 <> Some e).
  { intros n0 H0. destruct (Idom _ _ H0). congruence. }
  split_and!; simpl; [|by rewrite lookup_insert_eq|done|done| |].
  - split; simpl.
    + intros n0 e0 [[<- <-]|[Hne H0]]%lookup_insert_Some; [by rewrite lookup_insert_eq|].
      rewrite lookup_insert_ne; [eauto|]. intros ->. by apply (Hnew n0).
    + intros n0 n1 e0 H0 H1. apply lookup_insert_Some in H0, H1. naive_solver.
    + intros e0 s. rewrite (Ilink e0 s). destruct (decide (e = e0)) as [->|Hne].
      * rewrite lookup_insert_eq. naive_solver.
      * by rewrite lookup_insert_ne.
    + done.
    + intros e0 en0 [[<- <-]|[Hne H0]]%lookup_insert_Some; [done|eauto].
    + intros n0 n1 e0 e1 en0 en1 Hn0 Hn1 He0 He1 Hp Hg Hpe. 
      apply lookup_insert_Some in Hn0, Hn1, He0, He1.
      destruct He0 as [[<- <-]|[Hne0 He0]]; [done|]. destruct He1 as [[? <-]|[Hne1 He1]]; [simpl in *; congruence|].
      destruct Hn0 as [[_ <-]|[_ Hn0]]; [done|]. destruct Hn1 as [[_ <-]|[_ Hn1]]; [done|]. eauto.
    + intros e0 en0 w [[<- <-]|[Hne H0]]%lookup_insert_Some Hw; [inversion Hw|eauto].
    + intros e0 e1 en0 en1 w H0 H1 Hw Hw1. apply lookup_insert_Some in H0, H1.
      destruct H0 as [[? <-]|[_ H0]]; [inversion Hw|]. destruct H1 as [[? <-]|[_ H1]]; [inversion Hw1|]. eauto.
    + intros e0 en0 w wt [[<- <-]|[Hne H0]]%lookup_insert_Some Hw; [inversion Hw|eauto].
  - intros n0 e0 [[<- <-]|[Hne H0]]%lookup_insert_Some; eauto.
  - intros e0 en0 [[<- <-]|[Hne H0]]%lookup_insert_Some; eauto.
Qed.

(** The entry [SetAlias] leaves. *)
Definition published (en : aliasEntry) (s : sid) (p g : string) : aliasEntry :=
  {| e_incarnation := Some s; e_publisher := p; e_group := g; e_empty := e_empty en; e_watchers := e_watchers en |}.

Lemma bind_spec val a e en s p g :
  ainv val a -> a_entries a !! e = Some en ->
  let a1 := set_owner (bind_entry a e s) e p g in
  a_aliases a1 = a_aliases a /\ a_watchers a1 = a_watchers a
  /\ a_entries a1 = <[e := published en s p g]> (a_entries a)
  /\ (forall e0 s0, e0 ∈ rev_of a1 s0 <-> if decide (e0 = e) then s = s0 else e0 ∈ rev_of a s0)
  /\ (forall s0, NoDup (rev_of a1 s0)).
Proof.
  intros I He. unfold set_owner, bind_entry. rewrite He. case_bool_decide as Hb.
  - rewrite He. simpl. split_and!; [done|done| | |apply I].
    + unfold published. by rewrite Hb.
    + intros e0 s0. unfold rev_of at 1. simpl. fold (rev_of a s0). case_decide; [subst|done].
      rewrite (ai_link _ _ I), He. naive_solver.
  - destruct (detach_entries a e en He) as (E & A & W). simpl. rewrite E, !insert_insert_eq, lookup_insert_eq. simpl.
    rewrite E, A, W, !insert_insert_eq.
    assert (R : forall s0, default [] (<[s:=rev_of (detachAliasLocked a e) s ++ [e]]> (a_rev (detachAliasLocked a e)) !! s0)
      = if decide (s0 = s) then filter (fun other => other <> e) (rev_of a s) ++ [e]
        else filter (fun other => other <> e) (rev_of a s0)).
    { intros s0. case_decide as Hs.
      - subst. rewrite lookup_insert_eq. simpl. by rewrite (detach_rev _ _ _ _ s I He).
      - rewrite lookup_insert_ne by done. by rewrite <- (detach_rev _ _ _ _ s0 I He). }
    split_and!; try done.
    + intros e0 s0. unfold rev_of at 1. simpl. rewrite R.
      case_decide as Hs; [subst s0; rewrite elem_of_app, list_elem_of_singleton|];
        rewrite list_elem_of_filter; case_decide; subst; naive_solver.
    + intros s0. unfold rev_of at 1. simpl. rewrite R. case_decide; [|apply NoDup_filter, I].
      apply NoDup_app. split_and!; [apply NoDup_filter, I| |apply NoDup_singleton].
      intros x [Hx _]%list_elem_of_filter ->%list_elem_of_singleton. done.
Qed.

(** What a successful [SetAlias] does. *)
Lemma set_spec val a s key alias p g a' :
  ainv val a -> alias <> EmptyString -> key <> EmptyString ->
  SetAlias a (Some (s, val s)) key alias p g = (None, a') ->
  ainv val a' /\ exists e en, a_aliases a' !! alias = Some e /\ a_entries a' !! e = Some (published en s p g).
Proof.
  intros I Ha Hk. unfold SetAlias. rewrite !bool_decide_eq_false_2 by done. simpl.
  case_match; [done|]. clear H.
  destruct (ainv_clear_others val a (a_aliases a !! alias) p g I) as [I1 (C1 & C2 & C3 & C4)].
  set (a1 := clear_others a (a_aliases a !! alias) p g) in *. clearbody a1.
  destruct (ensure_entry a1 alias ANil) as [a2 e] eqn:E2.
  destruct (ensure_spec val a1 alias ANil a2 e I1 E2) as (I2 & Hn & _ & _ & Hn2 & He2).
  destruct (ai_dom _ _ I2 _ _ Hn) as [en He].
  destruct (bind_spec val a2 e en s p g I2 He) as (B1 & B2 & B3 & B4 & B5).
  intros [= <-].
  set (b := set_owner (bind_entry a2 e s) e p g) in *.
  destruct (ainv_update val a2 b (storeWatchersLocked b e (val s)) e en (published en s p g) (val s)
              I2 He B1 B3 B2 eq_refl) as (I3 & A3 & E3 & _); try done.
  - intros e0 s0. rewrite B4. case_decide; simpl; naive_solver.
  - simpl. intros Hp n n' e0 en0 Hn0 Hn0' He0 Hp0 Hg0.
    destruct (Hn2 _ _ Hn0') as [Hold|[-> _]]; [|congruence].
    destruct (He2 _ _ He0) as [Hold'|[-> _]]; [|done].
    destruct (C4 e0 en0) as [Ht|Ht]; [rewrite C1 in Hold; by eapply elem_of_aliases|done| |congruence].
    apply negb_false_iff in Ht. rewrite (bool_decide_eq_true_2 _ Hp0), (bool_decide_eq_true_2 _ Hg0) in Ht.
    rewrite !orb_false_r in Ht. apply bool_decide_eq_true in Ht. rewrite <- C1 in Ht.
    destruct (Hn2 _ _ Hn) as [?|[_ ?]]; congruence.
  - simpl. unfold current_ok. simpl. intros last Hl. destruct (isNilValue (val s)) eqn:Hv; [by right|].
    by apply sameValue_nonnil.
  - split; [done|]. exists e, en. rewrite A3, E3. split; [done|]. by rewrite lookup_insert_eq.
Qed.

Lemma ainv_SetAlias val a slot key alias p g :
  ainv val a -> (forall s v, slot = Some (s, v) -> v = val s) ->
  ainv val (snd (SetAlias a slot key alias p g)).
Proof.
  intros I Hv. destruct (SetAlias a slot key alias p g) as [[err|] a'] eqn:E; simpl.
  - unfold SetAlias in E. repeat case_match; simplify_eq; done.
  - destruct (decide (alias = EmptyString)) as [->|Ha]; [by unfold SetAlias in E; simplify_eq/=|].
    destruct (decide (key = EmptyString)) as [->|Hk].
    { unfold SetAlias in E. rewrite (bool_decide_eq_true_2 (EmptyString = EmptyString)), orb_true_r in E by done.
      by simplify_eq. }
    destruct slot as [[s v]|].
    + rewrite (Hv s v eq_refl) in E. by destruct (set_spec val a s key alias p g a' I Ha Hk E).
    + unfold SetAlias in E. rewrite !bool_decide_eq_false_2 in E by done. done.
Qed.

(** A new watcher on entry [e]. *)
Lemma ainv_Watch val a alias empty changed : ainv val a -> ainv val (fst (Watch a val alias empty changed)).
Proof.
  intros I. unfold Watch. case_bool_decide; [done|].
  destruct (ensure_entry a alias empty) as [a1 e] eqn:E.
  destruct (ensure_spec val a alias empty a1 e I E) as (I1 & Hn & _). clear I E.
  destruct (a_entries a1 !! e) as [en|] eqn:He; [|done]. simpl.
  pose proof (fresh_key_None (a_watchers a1)) as Hf. revert Hf. generalize (fresh_key (a_watchers a1)). intros w Hf.
  set (empty' := match e_empty en, empty with ANil, ANil => ANil | ANil, x => x | y, _ => y end).
  set (en' := {| e_incarnation := e_incarnation en; e_publisher := e_publisher en; e_group := e_group en;
                 e_empty := empty'; e_watchers := e_watchers en ++ [w] |}).
  set (cur := match e_incarnation en with Some s => _ | None => _ end).
  match goal with |- ainv _ (deliverLocked ?x _ _) => set (a2 := x) end.
  destruct (deliver_spec a2 w cur) as ((L1 & L2 & L3) & D & Hw & Ho).
  set (a3 := deliverLocked a2 w cur) in *. clearbody a3. simpl in *.
  assert (Hcl : forall u, current_ok val en u -> current_ok val en' u).
  { intros u. unfold current_ok, en'; simpl. assert (sameValue u (e_empty en) = true -> isNilValue u = true \/ sameValue u empty' = true).
    { unfold empty'. destruct (e_empty en) eqn:Ee; [|by right..]. intros Hu. left. by apply (sameValue_nil u ANil). }
    repeat case_match; naive_solver. }
  assert (Hcur : forall u, sameValue u cur = true -> current_ok val en' u).
  { intros u. unfold cur, current_ok, en'; simpl. destruct (e_incarnation en) as [s|]; [|by right].
    destruct (isNilValue (val s)) eqn:Hv; [by right|]. by apply sameValue_nonnil. }
  destruct I1 as [Idom Iinj Ilink Ind Ifree Ione Iwd Iwo Ilast].
  assert (Hwn : forall e0 en0, a_entries a1 !! e0 = Some en0 -> w ∉ e_watchers en0).
  { intros e0 en0 H0 Hin. apply (Iwd _ _ _ H0) in Hin. apply elem_of_dom in Hin as [? ?]. congruence. }
  split.
  - intros n e0. rewrite L1, L2. intros Hn0. destruct (decide (e = e0)) as [->|]; [by rewrite lookup_insert_eq|].
    rewrite lookup_insert_ne by done. eauto.
  - intros n n' e0. rewrite L1. eauto.
  - intros e0 s. unfold rev_of. rewrite L3. fold (rev_of a1 s). rewrite Ilink, L2.
    destruct (decide (e = e0)) as [->|]; [rewrite lookup_insert_eq, He; naive_solver|by rewrite lookup_insert_ne].
  - intros s. unfold rev_of. rewrite L3. apply Ind.
  - intros e0 en0. rewrite L2. intros [[<- <-]|[_ H0]]%lookup_insert_Some; [by apply (Ifree e en)|eauto].
  - intros n n' e0 e1 en0 en1. rewrite L1, L2. intros Hn0 Hn1 H0 H1 Hp Hg Hpe.
    apply lookup_insert_Some in H0, H1.
    destruct H0 as [[<- <-]|[_ H0]], H1 as [[Heq <-]|[_ H1]]; [done| | |by eapply (Ione n n')].
    + by eapply (Ione n n' e e1 en en1).
    + subst. by eapply (Ione n n' e0 e1 en0 en).
  - intros e0 en0 w0. rewrite L2, D. rewrite dom_insert.
    intros [[<- <-]|[_ H0]]%lookup_insert_Some; simpl; [|set_solver].
    intros [Hw0|Hw0]%elem_of_app; [set_solver|]. apply list_elem_of_singleton in Hw0. set_solver.
  - intros e0 e1 en0 en1 w0. rewrite L2. intros H0 H1. apply lookup_insert_Some in H0, H1.
    destruct H0 as [[<- <-]|[_ H0]], H1 as [[Heq <-]|[_ H1]]; simpl; [done| | |by apply Iwo].
    + intros [Hw0|Hw0]%elem_of_app Hw1; [by eapply (Iwo e e1)|]. apply list_elem_of_singleton in Hw0. subst.
      by apply Hwn in H1.
    + intros Hw1 [Hw0|Hw0]%elem_of_app; [subst; by eapply (Iwo e0 e1)|].
      apply list_elem_of_singleton in Hw0. subst. by apply Hwn in H0.
  - intros e0 en0 w0 wt. rewrite L2. intros H0 Hw0 Hwt. destruct (decide (w0 = w)) as [->|Hne].
    + apply lookup_insert_Some in H0. destruct H0 as [[<- <-]|[_ H0]]; [|by apply Hwn in H0].
      destruct (Hw ltac:(set_solver)) as (wt' & Hwt' & Hs). simplify_eq. by apply Hcur.
    + rewrite Ho, lookup_insert_ne in Hwt by congruence. apply lookup_insert_Some in H0.
      destruct H0 as [[<- <-]|[_ H0]]; [|by eapply Ilast]. simpl in Hw0.
      apply elem_of_app in Hw0 as [Hw0|Hw0]; [|by apply list_elem_of_singleton in Hw0].
      apply Hcl. by eapply Ilast.
Qed.

Lemma ainv_dropWatcher val a alias w : ainv val a -> ainv val (dropWatcher a alias w).
Proof.
  intros I. unfold dropWatcher. destruct (a_aliases a !! alias) as [e|]; [|done].
  destruct (a_entries a !! e) as [en|] eqn:He; [|done].
  destruct I as [Idom Iinj Ilink Ind Ifree Ione Iwd Iwo Ilast]. split; simpl; try done.
  - intros n e0 Hn0. destruct (decide (e = e0)) as [->|]; [by rewrite lookup_insert_eq|].
    rewrite lookup_insert_ne by done. eauto.
  - intros e0 s. specialize (Ilink e0 s). unfold rev_of in *. simpl. rewrite Ilink. destruct (decide (e = e0)) as [->|];
      [rewrite lookup_insert_eq, He; naive_solver|by rewrite lookup_insert_ne].
  - intros e0 en0 [[<- <-]|[_ H0]]%lookup_insert_Some; [by apply (Ifree e en)|eauto].
  - intros n n' e0 e1 en0 en1 Hn0 Hn1 H0 H1 Hp Hg Hpe. apply lookup_insert_Some in H0, H1.
    destruct H0 as [[<- <-]|[_ H0]], H1 as [[Heq <-]|[_ H1]]; [done| | |by eapply (Ione n n')].
    + by eapply (Ione n n' e e1 en en1).
    + subst. by eapply (Ione n n' e0 e1 en0 en).
  - intros e0 en0 w0 [[<- <-]|[_ H0]]%lookup_insert_Some; simpl; [|eauto].
    intros [_ Hw]%list_elem_of_filter. eauto.
  - intros e0 e1 en0 en1 w0 H0 H1. apply lookup_insert_Some in H0, H1.
    destruct H0 as [[<- <-]|[_ H0]], H1 as [[Heq <-]|[_ H1]]; simpl; rewrite ?list_elem_of_filter; naive_solver.
  - intros e0 en0 w0 wt [[<- <-]|[_ H0]]%lookup_insert_Some; simpl; [|eauto].
    intros [_ Hw]%list_elem_of_filter Hwt. by apply (Ilast e en w0 wt).
Qed.

Lemma ainv_resetAliases val a ss : ainv val a -> ainv val (resetAliases a ss).
Proof.
  intros I. unfold resetAliases.
  assert (I' : ainv val (fold_left unbindIncarnationLocked ss a)).
  { revert a I. induction ss as [|s ss IH]; intros a I; simpl; [done|]. by apply IH, ainv_unbind. }
  destruct I'. by split.
Qed.

(** ** Histories *)

(** One call into alias.go, or the end of an incarnation. *)
Inductive aop :=
| ASet (slot : option sid) (key alias publisher group : string)
| AWatch (alias : string) (empty : any) (changed : bool)
| ADropWatcher (alias : string) (w : wid)
| AClear (publisher group : string)
| AUnbind (s : sid)
| AReset (ss : list sid).

(** [val] gives the values of the incarnations; a value never changes while its
    incarnation is mapped. *)
Definition arun (val : sid -> any) (a : astore) (op : aop) : astore :=
  match op with
  | ASet slot key alias p g =>
      snd (SetAlias a (match slot with Some s => Some (s, val s) | None => None end) key alias p g)
  | AWatch alias empty changed => fst (Watch a val alias empty changed)
  | ADropWatcher alias w => dropWatcher a alias w
  | AClear p g => ClearPublisher a p g
  | AUnbind s => unbindIncarnationLocked a s
  | AReset ss => resetAliases a ss
  end.

Definition ahistory (val : sid -> any) (ops : list aop) : astore := fold_left (arun val) ops emptyAliases.

Lemma ainv_history val ops : ainv val (ahistory val ops).
Proof.
  unfold ahistory. generalize (ainv_empty val). generalize emptyAliases.
  induction ops as [|op ops IH]; intros a I; simpl; [done|]. apply IH. destruct op; simpl.
  - apply ainv_SetAlias; [done|]. intros s v. case_match; naive_solver.
  - by apply ainv_Watch.
  - by apply ainv_dropWatcher.
  - by apply ainv_ClearPublisher.
  - by apply ainv_unbind.
  - by apply ainv_resetAliases.
Qed.

(** ** Guarantees *)

(** ** What the callbacks saw *)

(** The calls of [changed] agree with the watchers' books: a callback was last
    called with what its watcher keeps, and no watcher without one was called. *)
Definition calls_ok (a : astore) : Prop :=
  only_changes (a_calls a) /\
  forall w, received a w = match a_watchers a !! w with Some wt => if w_changed wt then w_last wt else ANil | None => ANil end.

Lemma calls_ok_same a a' : a_watchers a' = a_watchers a -> a_calls a' = a_calls a -> calls_ok a -> calls_ok a'.
Proof. intros Hw Hc. unfold calls_ok, received. by rewrite Hw, Hc. Qed.

Lemma calls_ok_deliver a w v : calls_ok a -> calls_ok (deliverLocked a w v).
Proof.
  intros [Hc Hr]. unfold deliverLocked. destruct (a_watchers a !! w) as [wt|] eqn:Hw; [|done].
  destruct (sameValue (w_last wt) v) eqn:Hs; [done|]. pose proof (Hr w) as Hrw. rewrite Hw in Hrw.
  unfold calls_ok, received in *. cbn [a_calls a_watchers]. destruct (w_changed wt) eqn:Hch; cbn [only_changes last_call].
  - split; [by rewrite Hrw|]. intros w'. destruct (decide (w = w')) as [->|]; [by rewrite lookup_insert_eq; cbn|by rewrite lookup_insert_ne].
  - split; [done|]. intros w'. destruct (decide (w = w')) as [->|]; [by rewrite lookup_insert_eq; cbn|by rewrite lookup_insert_ne].
Qed.

Lemma calls_ok_fold {B} (f : astore -> B -> astore) l a : (forall a x, calls_ok a -> calls_ok (f a x)) -> calls_ok a -> calls_ok (fold_left f l a).
Proof. intros Hf. revert a. induction l as [|x l IH]; intros a Ha; simpl; [done|]. by apply IH, Hf. Qed.

Lemma calls_ok_store a e v : calls_ok a -> calls_ok (storeWatchersLocked a e v).
Proof. intros Ha. unfold storeWatchersLocked. case_match; [|done]. apply calls_ok_fold; [|done]. intros. by apply calls_ok_deliver. Qed.

Lemma calls_ok_detach a e : calls_ok a -> calls_ok (detachAliasLocked a e).
Proof. intros Ha. unfold detachAliasLocked. repeat case_match; try done. Qed.

Lemma calls_ok_owner a e p g : calls_ok a -> calls_ok (set_owner a e p g).
Proof. intros Ha. unfold set_owner. case_match; [|done]. by eapply calls_ok_same. Qed.

Lemma calls_ok_clear a e : calls_ok a -> calls_ok (clearAliasLocked a e).
Proof. intros Ha. unfold clearAliasLocked. by apply calls_ok_store, calls_ok_owner, calls_ok_detach. Qed.

Lemma calls_ok_unbind a s : calls_ok a -> calls_ok (unbindIncarnationLocked a s).
Proof.
  intros Ha. apply calls_ok_fold; [|by eapply calls_ok_same]. intros a' e Ha'. unfold unbind_entry. case_match; [|done].
  apply calls_ok_store. by eapply calls_ok_same.
Qed.

Lemma calls_ok_ensure a alias empty : calls_ok a -> calls_ok (ensure_entry a alias empty).1.
Proof. intros Ha. unfold ensure_entry. case_match; [done|]. by eapply calls_ok_same. Qed.

Lemma calls_ok_bind a e s : calls_ok a -> calls_ok (bind_entry a e s).
Proof. intros Ha. unfold bind_entry. repeat case_match; try done. eapply (calls_ok_same (detachAliasLocked a e)); [done..|]. by apply calls_ok_detach. Qed.

Lemma calls_ok_SetAlias a slot key alias p g : calls_ok a -> calls_ok (SetAlias a slot key alias p g).2.
Proof.
  intros Ha. unfold SetAlias. destruct (_ || _); [done|]. destruct slot as [[s v]|]; [|done]. destruct (_ && _); [done|].
  set (a1 := clear_others a _ p g).
  assert (H1 : calls_ok a1).
  { apply calls_ok_fold; [|done]. intros a' [n e] Ha'. repeat case_match; try done. by apply calls_ok_clear. }
  pose proof (calls_ok_ensure a1 alias ANil H1) as H2. destruct (ensure_entry a1 alias ANil) as [a2 e]. cbn [fst snd] in *.
  by apply calls_ok_store, calls_ok_owner, calls_ok_bind.
Qed.

Lemma calls_ok_Watch a val alias empty changed : calls_ok a -> calls_ok (Watch a val alias empty changed).1.
Proof.
  intros Ha. unfold Watch. case_bool_decide; [done|]. pose proof (calls_ok_ensure a alias empty Ha) as H1.
  destruct (ensure_entry a alias empty) as [a1 e]. cbn [fst] in H1. destruct (a_entries a1 !! e) as [en|]; [|done]. cbn [fst].
  apply calls_ok_deliver. destruct H1 as [Hc Hr]. split; [done|]. intros w. unfold received in *. cbn [a_calls a_watchers]. rewrite Hr.
  destruct (decide (w = fresh_key (a_watchers a1))) as [->|]; [|by rewrite lookup_insert_ne].
  rewrite lookup_insert_eq, (fresh_key_None (a_watchers a1)). cbn. by destruct changed.
Qed.

Lemma calls_ok_history val ops : calls_ok (ahistory val ops).
Proof.
  apply calls_ok_fold; [|done]. intros a op Ha. destruct op; cbn [arun].
  - by apply calls_ok_SetAlias.
  - by apply calls_ok_Watch.
  - unfold dropWatcher. repeat case_match; try done.
  - unfold ClearPublisher. destruct (_ || _); [done|]. apply calls_ok_fold; [|done]. intros a' [n e] Ha'. repeat case_match; try done. by apply calls_ok_clear.
  - by apply calls_ok_unbind.
  - unfold resetAliases. eapply calls_ok_same; [reflexivity|reflexivity|]. apply calls_ok_fold; [|done]. intros. by apply calls_ok_unbind.
Qed.

(** C19: after any history of SetAlias, Watch, ClearPublisher, watcher drops,
    incarnation ends and Resets: the callback of each watcher of a name that is
    bound to an incarnation with a non-nil value was last called with exactly
    that value; that of a watcher of any other name with the name's empty value,
    or with nil or not at all, never with a retired value; and no callback was
    ever called twice in a row with the same value. *)
Theorem watchers_hold_current val ops :
  let a := ahistory val ops in
  only_changes (a_calls a) /\
  forall e en w wt, a_entries a !! e = Some en -> w ∈ e_watchers en -> a_watchers a !! w = Some wt -> w_changed wt = true ->
    match e_incarnation en with
    | Some s => if isNilValue (val s) then isNilValue (received a w) = true \/ sameValue (received a w) (e_empty en) = true
                else received a w = val s
    | None => isNilValue (received a w) = true \/ sameValue (received a w) (e_empty en) = true
    end.
Proof.
  intros a. destruct (calls_ok_history val ops) as [Hc Hr]. split; [done|]. intros e en w wt He Hw Hwt Hch.
  pose proof (ai_last _ _ (ainv_history val ops) _ _ _ _ He Hw Hwt) as H. fold a in Hr. rewrite Hr, Hwt, Hch. exact H.
Qed.

(** C31: after any history, one publisher holds at most one name of a group,
    and the reverse slice of an incarnation lists exactly the entries bound to
    it, each once. *)
Theorem one_alias_per_group val ops :
  let a := ahistory val ops in
  (forall n n' e e' en en', a_aliases a !! n = Some e -> a_aliases a !! n' = Some e' ->
     a_entries a !! e = Some en -> a_entries a !! e' = Some en' ->
     e_publisher en = e_publisher en' -> e_group en = e_group en' -> e_publisher en <> EmptyString -> n = n')
  /\ forall s, NoDup (rev_of a s)
       /\ forall e, e ∈ rev_of a s <-> exists en, a_entries a !! e = Some en /\ e_incarnation en = Some s.
Proof.
  intros a. pose proof (ainv_history val ops) as I. split.
  - intros n n' e e' en en' Hn Hn' He He' Hp Hg Hne.
    pose proof (ai_one _ _ I _ _ _ _ _ _ Hn Hn' He He' Hp Hg Hne) as ->. by apply (ai_inj _ _ I n n' e').
  - intros s. split; [apply I|]. intros e. apply (ai_link _ _ I).
Qed.

(** SetAlias on a mapped incarnation either fails, because another
    publisher holds the name, and changes nothing; or succeeds, and the name is
    bound to that incarnation for that publisher and group. *)
Theorem SetAlias_outcome val ops s key alias p g :
  alias <> EmptyString -> key <> EmptyString ->
  let a := ahistory val ops in
  match SetAlias a (Some (s, val s)) key alias p g with
  | (Some err, a') =>
      a' = a /\ exists e en, a_aliases a !! alias = Some e /\ a_entries a !! e = Some en
        /\ e_publisher en <> EmptyString /\ e_publisher en <> p /\ err = ErrHeldBy alias (e_publisher en) p
  | (None, a') =>
      exists e en, a_aliases a' !! alias = Some e /\ a_entries a' !! e = Some en
        /\ e_incarnation en = Some s /\ e_publisher en = p /\ e_group en = g
  end.
Proof.
  intros Ha Hk a. pose proof (ainv_history val ops) as I. fold a in I. clearbody a.
  destruct (SetAlias a (Some (s, val s)) key alias p g) as [[err|] a'] eqn:E.
  - unfold SetAlias in E. rewrite !bool_decide_eq_false_2 in E by done. simpl in E.
    destruct (a_aliases a !! alias) as [e|] eqn:Hn.
    + destruct (ai_dom _ _ I _ _ Hn) as [en He]. rewrite He in E.
      destruct (bool_decide_reflect (e_publisher en = EmptyString)), (bool_decide_reflect (e_publisher en = p));
        simpl in E; try (by repeat case_match; simplify_eq).
      simplify_eq. split; [done|]. by exists e, en.
    + simpl in E. by repeat case_match; simplify_eq.
  - destruct (set_spec val a s key alias p g a' I Ha Hk E) as (_ & e & en & H1 & H2). eauto 8.
Qed.

(** ** Concrete histories *)

Definition demo_val (s : sid) : any := APtr (Some (10 + s)%nat).

(** A watcher waits for a name, then incarnation 0 is published under it. *)
Definition demo_ops : list aop := [AWatch "db" ANil true; ASet (Some 0%nat) "k" "db" "pub" "grp"].

Lemma watchers_hold_current_witness : received (ahistory demo_val demo_ops) 0%nat = demo_val 0%nat.
Proof.
  destruct (watchers_hold_current demo_val demo_ops) as [_ H].
  assert (E : exists en wt, a_entries (ahistory demo_val demo_ops) !! 0%nat = Some en /\ e_watchers en = [0%nat] /\ e_incarnation en = Some 0%nat
    /\ a_watchers (ahistory demo_val demo_ops) !! 0%nat = Some wt /\ w_changed wt = true) by (eexists _, _; vm_compute; repeat split).
  destruct E as (en & wt & He & Hw & Hi & Hwt & Hch). specialize (H 0%nat en 0%nat wt He). rewrite Hw, Hi in H.
  apply H; [by constructor|exact Hwt|exact Hch].
Defined.

Lemma SetAlias_outcome_witness :
  match SetAlias (ahistory demo_val demo_ops) (Some (1%nat, demo_val 1)) "k2" "db" "other" "grp" with
  | (Some err, a') => a' = ahistory demo_val demo_ops
  | (None, a') => False
  end.
Proof.
  pose proof (SetAlias_outcome demo_val demo_ops 1%nat "k2" "db" "other" "grp" ltac:(done) ltac:(done)) as H.
  cbv zeta in H.
  assert (exists e, fst (SetAlias (ahistory demo_val demo_ops) (Some (1%nat, demo_val 1)) "k2" "db" "other" "grp")
    = Some e) as [err He] by (eexists; vm_compute; reflexivity).
  destruct (SetAlias _ _ _ _ _ _) as [o a']. simpl in He. subst o. apply H.
Defined.
