(* ===== verification/Reclaim.v ===== *)
(** * Reclaim: the concurrent reclaim table ([reclaim/table.go])

    Goroutines are program counters ([pc]); every step of a goroutine is one
    critical section under [t.mu] or one action outside it (a hook returning,
    a channel close, a wait).  User code (create, Sleep, Wake, Close) is
    nondeterministic: the label of a step says how it ended.  [run] is the
    executable step of one goroutine and [step] the labelled transition of the
    whole table, so schedules are explicit label sequences.

    Closing a closed channel is Go's panic: it sets [w_panic]. *)

From S2P Require Import Prelude.
From S2P Require Import ReclaimAlias.
From Stdlib Require Import ZArith Lia List String.
From stdpp Require Import base list strings option gmap.

Open Scope Z_scope.

(** ** Data *)

Abbreviation chan := nat.
Abbreviation tid := nat.

(** [Hooks]: which funcs are set, and the enforce flag. *)
Record Hooks := { h_Sleep : bool; h_Wake : bool; h_Close : bool; h_Enforce : bool }.

Definition noHooks : Hooks := {| h_Sleep := false; h_Wake := false; h_Close := false; h_Enforce := false |}.

Inductive slotState := slotBusy | slotAwake | slotAsleep | slotGone.

#[export] Instance slotState_eq_dec : EqDecision slotState.
Proof. solve_decision. Defined.

Inductive rerr :=
| ErrNilTable (key : string)      (* reclaim: open %q: nil table *)
| ErrUninitialized (key : string) (* reclaim: open %q: uninitialized table *)
| ErrNilLogger (key : string)     (* reclaim: open %q: nil logger *)
| ErrNilCreate (key : string)     (* reclaim: create %q: nil create *)
| ErrTyped (key : string)         (* reclaim: open %q: want %T, got %T *)
| ErrCreate (e : Z)               (* what create returned *)
| ErrCreatePanic (key : string)   (* reclaim: create %q: panic *)
| ErrWakePanic (key : string)     (* reclaim: wake %q: panic *)
| ErrCtx.                         (* ctx.Err() *)

(** [slot]; its [aliases] slice is kept in the alias store.  [finished] is made
    once per incarnation and only ever set to nil, so the channel is named by
    the slot and the field says whether it is still non-nil. *)
Record slot := {
  s_value : any;
  s_hooks : Hooks;
  s_createErr : option rerr;
  s_state : slotState;
  s_holders : Z;
  s_ready : chan;
  s_graceTimer : option tid;
  s_finished : bool;             (* the finished channel is not nil *)
  s_logger : nat;
}.

Record ctx := { c_id : nat; c_hasDone : bool }.

Inductive result := RVal (s : sid) (v : any) | RErr (e : rerr) | RVoid.

(** Where a goroutine is.  [lg] is a logger, [h] the hooks the goroutine read
    under the lock, [r] what it returns when it is done. *)
Inductive pc :=
| POpen (c : ctx) (key : string) (lg : nat)
| PPark (c : ctx) (key : string) (lg : nat) (s : sid) (ch : chan)
| PCreate (c : ctx) (key : string) (lg : nat) (s : sid)
| PPut (c : ctx) (key : string) (lg : nat) (s : sid) (v : any) (h : Hooks)
| PFailed (key : string) (s : sid) (e : rerr)
| PWake (c : ctx) (key : string) (lg : nat) (s : sid) (v : any) (h : Hooks)
| PWoken (c : ctx) (key : string) (lg : nat) (s : sid) (v : any)
| PBound (c : ctx) (key : string) (s : sid) (v : any)
| PFinishedAtBind (c : ctx) (key : string) (s : sid) (v : any)
| PDrop (key : string) (s : sid) (r : result)
| PClaim (key : string) (s : sid) (r : result)
| PParkDrop (key : string) (s : sid) (ch : chan) (r : result)
| PSleep (key : string) (s : sid) (lg : nat) (h : Hooks) (grace : Z) (r : result)
| PParkAsleep (key : string) (s : sid) (h : Hooks) (grace : Z) (r : result)
| PExpire (key : string) (s : sid) (r : result)
| PEndBusy (key : string) (s : sid) (lg : nat) (h : Hooks) (e : option rerr) (r : result)
| PInstall (key : string) (s : sid) (lg : nat) (h : Hooks) (e : option rerr) (r : result)
| PCloseOld (key : string) (s cl : sid) (old : chan) (lg : nat) (h : Hooks) (r : result)
| PDispose (key : string) (s : sid) (lg : nat) (h : Hooks) (k : pc)
| PUnmap (key : string) (s : sid) (r : result)
| PUnmapCloser (key : string) (cl : sid) (r : result)
| PCloseReady (ch : chan) (r : result)
| PUnbind (s : sid) (r : result)
| PAfter (c : ctx) (key : string) (s : sid)
| PWatch (c : ctx) (key : string) (s : sid)
| PWatchErr (c : ctx) (key : string) (s : sid)
| PTimer (key : string) (s : sid)
| PReset
| PResetLoop (l : list (string * sid))
| PResetSleep (key : string) (s : sid) (lg : nat) (h : Hooks) (l : list (string * sid))
| PRet (r : result).

(** ** Observations *)

(** Lifecycle events of one incarnation and the log lines written for it. *)
Inductive event :=
| ECreate | ECreated | ECreateFailed
| ESleep | ESlept | ESleepPanic
| EWake | EWoke | EWakePanic
| EClose | EClosed
| ELog (lg : nat) (msg key : string).

Definition MsgPut : string := "reclaim_put".
Definition MsgBind : string := "reclaim_bind".
Definition MsgOrphan : string := "reclaim_orphan".
Definition MsgReclaim : string := "reclaim_reclaim".
Definition MsgDispose : string := "reclaim_dispose".
Definition MsgHookPanic : string := "reclaim_hook_panic".

Definition DefaultGrace : Z := 10000000000.

Record world := {
  w_grace : Z;
  w_items : gmap string sid;
  w_slots : gmap sid slot;
  w_aliases : astore;
  w_closed : gset chan;          (* closed ready channels *)
  w_fin : gset sid;              (* incarnations whose finished channel is closed *)
  w_chan : chan;                 (* next fresh channel *)
  w_threads : gmap tid pc;
  w_tid : tid;                   (* next fresh goroutine *)
  w_done : gset nat;             (* contexts that are done *)
  w_trace : list (sid * event);  (* newest first *)
  w_panic : bool;                (* a channel was closed twice *)
}.

(** [New]: a negative grace becomes the default. *)
Definition NewTable (grace : Z) : world :=
  {| w_grace := if grace <? 0 then DefaultGrace else grace;
     w_items := ∅; w_slots := ∅; w_aliases := emptyAliases; w_closed := ∅; w_fin := ∅; w_chan := 0;
     w_threads := ∅; w_tid := 0; w_done := ∅; w_trace := []; w_panic := false |}.

(** ** Field updates *)

Definition set_items (w : world) (x : gmap string sid) : world :=
  {| w_grace := w_grace w; w_items := x; w_slots := w_slots w; w_aliases := w_aliases w;
     w_closed := w_closed w; w_fin := w_fin w; w_chan := w_chan w; w_threads := w_threads w; w_tid := w_tid w;
     w_done := w_done w; w_trace := w_trace w; w_panic := w_panic w |}.

Definition set_slot (w : world) (s : sid) (x : slot) : world :=
  {| w_grace := w_grace w; w_items := w_items w; w_slots := <[s := x]> (w_slots w);
     w_aliases := w_aliases w; w_closed := w_closed w; w_fin := w_fin w; w_chan := w_chan w;
     w_threads := w_threads w; w_tid := w_tid w; w_done := w_done w; w_trace := w_trace w;
     w_panic := w_panic w |}.

Definition set_aliases (w : world) (x : astore) : world :=
  {| w_grace := w_grace w; w_items := w_items w; w_slots := w_slots w; w_aliases := x;
     w_closed := w_closed w; w_fin := w_fin w; w_chan := w_chan w; w_threads := w_threads w; w_tid := w_tid w;
     w_done := w_done w; w_trace := w_trace w; w_panic := w_panic w |}.

Definition set_pc (w : world) (t : tid) (p : pc) : world :=
  {| w_grace := w_grace w; w_items := w_items w; w_slots := w_slots w; w_aliases := w_aliases w;
     w_closed := w_closed w; w_fin := w_fin w; w_chan := w_chan w; w_threads := <[t := p]> (w_threads w);
     w_tid := w_tid w; w_done := w_done w; w_trace := w_trace w; w_panic := w_panic w |}.

(** Start a goroutine (or arm a timer). *)
Definition spawn (w : world) (p : pc) : world :=
  {| w_grace := w_grace w; w_items := w_items w; w_slots := w_slots w; w_aliases := w_aliases w;
     w_closed := w_closed w; w_fin := w_fin w; w_chan := w_chan w; w_threads := <[w_tid w := p]> (w_threads w);
     w_tid := S (w_tid w); w_done := w_done w; w_trace := w_trace w; w_panic := w_panic w |}.

(** [timer.Stop]: a timer that has not fired never will; one that has is a
    goroutine already and is not affected. *)
Definition stop_timer (w : world) (t : option tid) : world :=
  match t with
  | Some t =>
      match w_threads w !! t with
      | Some (PTimer _ _) => set_pc w t (PRet RVoid)
      | _ => w
      end
  | None => w
  end.

(** [make(chan struct{})] *)
Definition fresh_chan (w : world) : world :=
  {| w_grace := w_grace w; w_items := w_items w; w_slots := w_slots w; w_aliases := w_aliases w;
     w_closed := w_closed w; w_fin := w_fin w; w_chan := S (w_chan w); w_threads := w_threads w; w_tid := w_tid w;
     w_done := w_done w; w_trace := w_trace w; w_panic := w_panic w |}.

(** [close(ch)] *)
Definition close_chan (w : world) (ch : chan) : world :=
  {| w_grace := w_grace w; w_items := w_items w; w_slots := w_slots w; w_aliases := w_aliases w;
     w_closed := {[ch]} ∪ w_closed w; w_fin := w_fin w; w_chan := w_chan w; w_threads := w_threads w;
     w_tid := w_tid w; w_done := w_done w; w_trace := w_trace w;
     w_panic := w_panic w || bool_decide (ch ∈ w_closed w) |}.

(** [close(incarnation.finished)] *)
Definition close_fin (w : world) (s : sid) : world :=
  {| w_grace := w_grace w; w_items := w_items w; w_slots := w_slots w; w_aliases := w_aliases w;
     w_closed := w_closed w; w_fin := {[s]} ∪ w_fin w; w_chan := w_chan w;
     w_threads := w_threads w; w_tid := w_tid w; w_done := w_done w; w_trace := w_trace w;
     w_panic := w_panic w || bool_decide (s ∈ w_fin w) |}.

Definition emit (w : world) (s : sid) (e : event) : world :=
  {| w_grace := w_grace w; w_items := w_items w; w_slots := w_slots w; w_aliases := w_aliases w;
     w_closed := w_closed w; w_fin := w_fin w; w_chan := w_chan w; w_threads := w_threads w; w_tid := w_tid w;
     w_done := w_done w; w_trace := (s, e) :: w_trace w; w_panic := w_panic w |}.

Definition cancelCtx (w : world) (c : nat) : world :=
  {| w_grace := w_grace w; w_items := w_items w; w_slots := w_slots w; w_aliases := w_aliases w;
     w_closed := w_closed w; w_fin := w_fin w; w_chan := w_chan w; w_threads := w_threads w; w_tid := w_tid w;
     w_done := {[c]} ∪ w_done w; w_trace := w_trace w; w_panic := w_panic w |}.

(** Slot field updates. *)
Definition sl_state (x : slot) (st : slotState) : slot :=
  {| s_value := s_value x; s_hooks := s_hooks x; s_createErr := s_createErr x; s_state := st;
     s_holders := s_holders x; s_ready := s_ready x; s_graceTimer := s_graceTimer x;
     s_finished := s_finished x; s_logger := s_logger x |}.

Definition sl_holders (x : slot) (n : Z) : slot :=
  {| s_value := s_value x; s_hooks := s_hooks x; s_createErr := s_createErr x; s_state := s_state x;
     s_holders := n; s_ready := s_ready x; s_graceTimer := s_graceTimer x;
     s_finished := s_finished x; s_logger := s_logger x |}.

Definition sl_ready (x : slot) (ch : chan) : slot :=
  {| s_value := s_value x; s_hooks := s_hooks x; s_createErr := s_createErr x; s_state := s_state x;
     s_holders := s_holders x; s_ready := ch; s_graceTimer := s_graceTimer x;
     s_finished := s_finished x; s_logger := s_logger x |}.

Definition sl_timer (x : slot) (t : option tid) : slot :=
  {| s_value := s_value x; s_hooks := s_hooks x; s_createErr := s_createErr x; s_state := s_state x;
     s_holders := s_holders x; s_ready := s_ready x; s_graceTimer := t;
     s_finished := s_finished x; s_logger := s_logger x |}.

Definition sl_finished (x : slot) (f : bool) : slot :=
  {| s_value := s_value x; s_hooks := s_hooks x; s_createErr := s_createErr x; s_state := s_state x;
     s_holders := s_holders x; s_ready := s_ready x; s_graceTimer := s_graceTimer x;
     s_finished := f; s_logger := s_logger x |}.

Definition sl_logger (x : slot) (lg : nat) : slot :=
  {| s_value := s_value x; s_hooks := s_hooks x; s_createErr := s_createErr x; s_state := s_state x;
     s_holders := s_holders x; s_ready := s_ready x; s_graceTimer := s_graceTimer x;
     s_finished := s_finished x; s_logger := lg |}.

Definition sl_err (x : slot) (e : option rerr) : slot :=
  {| s_value := s_value x; s_hooks := s_hooks x; s_createErr := e; s_state := s_state x;
     s_holders := s_holders x; s_ready := s_ready x; s_graceTimer := s_graceTimer x;
     s_finished := s_finished x; s_logger := s_logger x |}.

Definition sl_put (x : slot) (v : any) (h : Hooks) : slot :=
  {| s_value := v; s_hooks := h; s_createErr := s_createErr x; s_state := slotAwake;
     s_holders := s_holders x + 1; s_ready := s_ready x; s_graceTimer := s_graceTimer x;
     s_finished := s_finished x; s_logger := s_logger x |}.

(** ** Critical sections and helpers of table.go *)

Definition unbind (w : world) (s : sid) : world :=
  set_aliases w (unbindIncarnationLocked (w_aliases w) s).

(** [if t.items[key] == incarnation { delete(t.items, key) }] *)
Definition unmap_if (w : world) (key : string) (s : sid) : world :=
  set_items w (if bool_decide (w_items w !! key = Some s) then delete key (w_items w) else w_items w).

(** [closeFinished] *)
Definition closeFinished (w : world) (s : sid) (x : slot) : world :=
  if s_finished x then set_slot (close_fin w s) s (sl_finished x false) else w.

(** The common end of an incarnation: state gone, [closeFinished], unbind its
    aliases. *)
Definition end_incarnation (w : world) (s : sid) (x : slot) : world :=
  let x := sl_state x slotGone in
  unbind (closeFinished (set_slot w s x) s x) s.

(** [endBusySlot] *)
Definition endBusySlot (w : world) (key : string) (s : sid) (x : slot) (e : option rerr) : world :=
  let w := end_incarnation w s (sl_err x e) in
  close_chan (unmap_if w key s) (s_ready x).

(** [unmapLocked]; [unmapAfterClose] closes the returned channel next. *)
Definition unmapLocked (w : world) (key : string) (s : sid) (x : slot) : world :=
  end_incarnation (unmap_if w key s) s x.

Definition mkSlot (ready : chan) (finished : bool) (lg : nat) : slot :=
  {| s_value := ANil; s_hooks := noHooks; s_createErr := None; s_state := slotBusy; s_holders := 0;
     s_ready := ready; s_graceTimer := None; s_finished := finished; s_logger := lg |}.

(** [installCloser]: the world and the closer's id. *)
Definition installCloser (w : world) (key : string) (s : sid) (x : slot) (lg : nat) (e : option rerr)
    : world * sid :=
  let w := end_incarnation w s (sl_err x e) in
  let cl := fresh_key (w_slots w) in
  let w := set_slot (fresh_chan w) cl (mkSlot (w_chan w) false lg) in
  (set_items w (<[key := cl]> (w_items w)), cl).

(** [lookupOpen] for goroutine [t], with the continuation Open chooses, on a table
    whose map is not nil; its guard for a nil map is in [OpenWithHooks]. *)
Definition lookupOpen (w : world) (t : tid) (c : ctx) (key : string) (lg : nat) : option world :=
  match w_items w !! key with
  | None =>
      let s := fresh_key (w_slots w) in
      let x := mkSlot (w_chan w) true lg in
      let w := set_slot (fresh_chan w) s x in
      let w := set_items w (<[key := s]> (w_items w)) in
      Some (set_pc (emit w s ECreate) t (PCreate c key lg s))
  | Some s =>
      x ← w_slots w !! s;
      match s_state x with
      | slotAwake =>
          let x := sl_holders (sl_logger x lg) (s_holders x + 1) in
          Some (set_pc (emit (set_slot w s x) s (ELog lg MsgBind key)) t (PBound c key s (s_value x)))
      | slotAsleep =>
          let w := stop_timer w (s_graceTimer x) in
          let x := sl_ready (sl_state (sl_logger x lg) slotBusy) (w_chan w) in
          let x := sl_timer (sl_holders x (s_holders x + 1)) None in
          let w := set_slot (fresh_chan w) s x in
          Some (set_pc (emit w s EWake) t (PWake c key lg s (s_value x) (s_hooks x)))
      | slotBusy => Some (set_pc w t (PPark c key lg s (s_ready x)))
      | slotGone => Some (set_pc (unmap_if w key s) t (POpen c key lg))
      end
  end.

(** [publishPut] *)
Definition publishPut (w : world) (key : string) (s : sid) (x : slot) (v : any) (h : Hooks) : world :=
  let w := set_slot w s (sl_put x v h) in
  close_chan (set_items w (<[key := s]> (w_items w))) (s_ready x).

(** [publishWake] *)
Definition publishWake (w : world) (s : sid) (x : slot) : world :=
  close_chan (set_slot w s (sl_state x slotAwake)) (s_ready x).

(** [claimDrop] *)
Definition claimDrop (w : world) (t : tid) (key : string) (s : sid) (x : slot) (r : result) : world :=
  match s_state x with
  | slotBusy => set_pc w t (PParkDrop key s (s_ready x) r)
  | slotAwake =>
      if s_holders x =? 0 then
        let w1 := set_slot (fresh_chan w) s (sl_ready (sl_state x slotBusy) (w_chan w)) in
        set_pc (emit w1 s ESleep) t (PSleep key s (s_logger x) (s_hooks x) (w_grace w) r)
      else set_pc w t (PRet r)
  | _ => set_pc w t (PRet r)
  end.

(** [parkAsleep] and the branch of drop that follows it. *)
Definition parkAsleep (w : world) (t : tid) (key : string) (s : sid) (x : slot) (grace : Z) (r : result)
    : world :=
  let mapped := bool_decide (w_items w !! key = Some s) in
  let w := close_chan w (s_ready x) in
  let x := sl_state x slotAsleep in
  if mapped && (grace <=? 0) then
    set_pc (set_slot (set_items w (delete key (w_items w))) s x) t (PExpire key s r)
  else if mapped then
    let x := sl_timer x (Some (w_tid w)) in
    set_pc (spawn (set_slot w s x) (PTimer key s)) t (PRet r)
  else set_pc (set_slot w s x) t (PExpire key s r).

(** [claimExpire] and the branch of expire that follows it. *)
Definition claimExpire (w : world) (t : tid) (key : string) (s : sid) (x : slot) (r : result) : world :=
  if bool_decide (s_state x = slotAsleep) && (s_holders x =? 0) then
    if h_Enforce (s_hooks x) then
      let w1 := set_slot (fresh_chan w) s (sl_ready (sl_state x slotBusy) (w_chan w)) in
      set_pc (emit w1 s EClose) t (PDispose key s (s_logger x) (s_hooks x) (PUnmap key s r))
    else
      let x' := sl_state x slotGone in
      let w1 := unmap_if (closeFinished (set_slot w s x') s x') key s in
      set_pc (emit w1 s EClose) t (PDispose key s (s_logger x) (s_hooks x) (PUnbind s r))
  else set_pc w t (PRet r).

(** The loop of takeAll that stops the grace timers, one mapped slot. *)
Definition stop_grace (w : world) (item : string * sid) : world :=
  match w_slots w !! snd item with
  | Some x =>
      match s_graceTimer x with
      | Some t => set_slot (stop_timer w (Some t)) (snd item) (sl_timer x None)
      | None => w
      end
  | None => w
  end.

(** [takeAll] *)
Definition takeAll (w : world) : world * list (string * sid) :=
  let items := map_to_list (w_items w) in
  let w := set_items w ∅ in
  let w := set_aliases w (resetAliases (w_aliases w) (map snd items)) in
  (fold_left stop_grace items w, items).

(** [endResetSlot] and the branch of the Reset loop that follows it. *)
Definition endResetSlot (w : world) (t : tid) (key : string) (s : sid) (x : slot)
    (l : list (string * sid)) : world :=
  let ended := closeFinished (set_slot w s (sl_state x slotGone)) s (sl_state x slotGone) in
  match s_state x with
  | slotAwake => set_pc (emit ended s ESleep) t (PResetSleep key s (s_logger x) (s_hooks x) l)
  | slotAsleep =>
      set_pc (emit ended s EClose) t (PDispose key s (s_logger x) (s_hooks x) (PResetLoop l))
  | _ => set_pc w t (PResetLoop l)
  end.

(** ** One step of one goroutine *)

(** How user code ended: a hook returned or panicked, create returned a
    value, an error or panicked. *)
Inductive outcome := OReturn | OPanic | OCreate (v : any) (h : Hooks) | OCreateErr (e : Z).

(** [runHook]: what happened to a hook that is set ([true]) or nil. *)
Definition hook_panicked (hook : bool) (o : outcome) : bool :=
  hook && match o with OPanic => true | _ => false end.

(** [endBusyAfterPanic]: the branch on the stored enforce flag. *)
Definition after_panic (key : string) (s : sid) (lg : nat) (h : Hooks) (e : option rerr) (r : result) : pc :=
  if h_Enforce h then PInstall key s lg h e r else PEndBusy key s lg h e r.

Definition is_done (w : world) (c : ctx) : bool := bool_decide (c_id c ∈ w_done w).

(** The park of Open: wait for the transition, replay its failure, look again. *)
Definition run_open (w : world) (t : tid) (p : pc) : option world :=
  match p with
  | POpen c key lg => lookupOpen w t c key lg
  | PPark c key lg s ch =>
      if bool_decide (ch ∈ w_closed w) then
        x ← w_slots w !! s;
        match s_createErr x with
        | Some e => Some (set_pc w t (PRet (RErr e)))
        | None => Some (set_pc w t (POpen c key lg))
        end
      else None
  | _ => None
  end.

(** [put] *)
Definition run_put (w : world) (t : tid) (p : pc) (o : outcome) : option world :=
  match p with
  | PCreate c key lg s =>
      match o with
      | OCreate v h => Some (set_pc (emit w s ECreated) t (PPut c key lg s v h))
      | OCreateErr e => Some (set_pc (emit w s ECreateFailed) t (PFailed key s (ErrCreate e)))
      | OPanic => Some (set_pc (emit w s ECreateFailed) t (PFailed key s (ErrCreatePanic key)))
      | OReturn => None
      end
  | PPut c key lg s v h =>
      x ← w_slots w !! s;
      let w := publishPut w key s x v h in
      let w := emit (emit w s (ELog lg MsgPut key)) s (ELog lg MsgBind key) in
      Some (set_pc w t (PBound c key s v))
  | PFailed key s e =>
      x ← w_slots w !! s;
      Some (set_pc (endBusySlot w key s x (Some e)) t (PRet (RErr e)))
  | _ => None
  end.

(** [wakeAndBind] *)
Definition run_wakeAndBind (w : world) (t : tid) (p : pc) (o : outcome) : option world :=
  match p with
  | PWake c key lg s v h =>
      if hook_panicked (h_Wake h) o
      then let e := ErrWakePanic key in
           Some (set_pc (emit w s EWakePanic) t (after_panic key s lg h (Some e) (RErr e)))
      else Some (set_pc (emit w s EWoke) t (PWoken c key lg s v))
  | PWoken c key lg s v =>
      x ← w_slots w !! s;
      let w := publishWake w s x in
      let w := emit (emit w s (ELog lg MsgReclaim key)) s (ELog lg MsgBind key) in
      Some (set_pc w t (PBound c key s v))
  | _ => None
  end.

(** [finishBind] *)
Definition run_finishBind (w : world) (t : tid) (p : pc) : option world :=
  match p with
  | PBound c key s v =>
      if is_done w c then Some (set_pc w t (PDrop key s (RErr ErrCtx)))
      else if c_hasDone c then Some (set_pc (spawn w (PAfter c key s)) t (PRet (RVal s v)))
      else Some (set_pc w t (PFinishedAtBind c key s v))
  | _ => None
  end.

(** [finishedAtBind] and the AfterFunc of [dropWhenDone] *)
Definition run_dropWhenDone (w : world) (t : tid) (p : pc) : option world :=
  match p with
  | PFinishedAtBind c key s v =>
      x ← w_slots w !! s;
      if s_finished x
      then Some (set_pc (spawn w (PWatch c key s)) t (PRet (RVal s v)))
      else Some (set_pc w t (PRet (RVal s v)))
  | PAfter c key s => if is_done w c then Some (set_pc w t (PDrop key s RVoid)) else None
  | _ => None
  end.

(** [waitCtx] in [watch] *)
Definition run_watch (w : world) (t : tid) (p : pc) : option world :=
  match p with
  | PWatch c key s =>
      if bool_decide (s ∈ w_fin w) then Some (set_pc w t (PRet RVoid))
      else Some (set_pc w t (PWatchErr c key s))
  | PWatchErr c key s =>
      if is_done w c then Some (set_pc w t (PDrop key s RVoid))
      else Some (set_pc w t (PWatch c key s))
  | _ => None
  end.

(** [drop], from [releaseHolder] on *)
Definition run_drop (w : world) (t : tid) (p : pc) (o : outcome) : option world :=
  match p with
  | PDrop key s r =>
      x ← w_slots w !! s;
      Some (set_pc (set_slot w s (sl_holders x (s_holders x - 1))) t (PClaim key s r))
  | PClaim key s r => x ← w_slots w !! s; Some (claimDrop w t key s x r)
  | PParkDrop key s ch r =>
      if bool_decide (ch ∈ w_closed w) then Some (set_pc w t (PClaim key s r)) else None
  | PSleep key s lg h grace r =>
      if hook_panicked (h_Sleep h) o
      then Some (set_pc (emit (emit w s ESleepPanic) s (ELog lg MsgHookPanic key)) t
                   (after_panic key s lg h None r))
      else
        let w := emit (emit w s ESlept) s (ELog lg MsgOrphan key) in
        if h_Enforce h && (grace <=? 0)
        then Some (set_pc (emit w s EClose) t (PDispose key s lg h (PUnmap key s r)))
        else Some (set_pc w t (PParkAsleep key s h grace r))
  | PParkAsleep key s h grace r => x ← w_slots w !! s; Some (parkAsleep w t key s x grace r)
  | _ => None
  end.

(** [expire], and the firing of its timer *)
Definition run_expire (w : world) (t : tid) (p : pc) : option world :=
  match p with
  | PTimer key s => Some (set_pc w t (PExpire key s RVoid))
  | PExpire key s r => x ← w_slots w !! s; Some (claimExpire w t key s x r)
  | PUnbind s r => Some (set_pc (unbind w s) t (PRet r))
  | _ => None
  end.

(** [endBusyAfterPanic] *)
Definition run_endBusyAfterPanic (w : world) (t : tid) (p : pc) : option world :=
  match p with
  | PEndBusy key s lg h e r =>
      x ← w_slots w !! s;
      Some (set_pc (emit (endBusySlot w key s x e) s EClose) t (PDispose key s lg h (PRet r)))
  | PInstall key s lg h e r =>
      x ← w_slots w !! s;
      let '(w, cl) := installCloser w key s x lg e in
      Some (set_pc w t (PCloseOld key s cl (s_ready x) lg h r))
  | PCloseOld key s cl old lg h r =>
      Some (set_pc (emit (close_chan w old) s EClose) t (PDispose key s lg h (PUnmapCloser key cl r)))
  | _ => None
  end.

(** [dispose] *)
Definition run_dispose (w : world) (t : tid) (p : pc) (o : outcome) : option world :=
  match p with
  | PDispose key s lg h k =>
      let w := emit w s EClosed in
      let w := if hook_panicked (h_Close h) o then emit w s (ELog lg MsgHookPanic key) else w in
      Some (set_pc (emit w s (ELog lg MsgDispose key)) t k)
  | _ => None
  end.

(** [unmapAfterClose] *)
Definition run_unmapAfterClose (w : world) (t : tid) (p : pc) : option world :=
  match p with
  | PUnmap key s r =>
      x ← w_slots w !! s;
      Some (set_pc (unmapLocked w key s x) t (PCloseReady (s_ready x) r))
  | PUnmapCloser key cl r =>
      x ← w_slots w !! cl;
      Some (set_pc (unmapLocked w key cl x) t (PCloseReady (s_ready x) r))
  | PCloseReady ch r => Some (set_pc (close_chan w ch) t (PRet r))
  | _ => None
  end.

(** [Reset] *)
Definition run_Reset (w : world) (t : tid) (p : pc) (o : outcome) : option world :=
  match p with
  | PReset => let '(w, l) := takeAll w in Some (set_pc w t (PResetLoop l))
  | PResetLoop [] => Some (set_pc w t (PRet RVoid))
  | PResetLoop ((key, s) :: l) => x ← w_slots w !! s; Some (endResetSlot w t key s x l)
  | PResetSleep key s lg h l =>
      let w := if hook_panicked (h_Sleep h) o
               then emit (emit w s ESleepPanic) s (ELog lg MsgHookPanic key)
               else emit (emit w s ESlept) s (ELog lg MsgOrphan key) in
      Some (set_pc (emit w s EClose) t (PDispose key s lg h (PResetLoop l)))
  | _ => None
  end.

Definition run (w : world) (t : tid) (p : pc) (o : outcome) : option world :=
  match p with
  | POpen _ _ _ | PPark _ _ _ _ _ => run_open w t p
  | PCreate _ _ _ _ | PPut _ _ _ _ _ _ | PFailed _ _ _ => run_put w t p o
  | PWake _ _ _ _ _ _ | PWoken _ _ _ _ _ => run_wakeAndBind w t p o
  | PBound _ _ _ _ => run_finishBind w t p
  | PFinishedAtBind _ _ _ _ | PAfter _ _ _ => run_dropWhenDone w t p
  | PWatch _ _ _ | PWatchErr _ _ _ => run_watch w t p
  | PDrop _ _ _ | PClaim _ _ _ | PParkDrop _ _ _ _ | PSleep _ _ _ _ _ _ | PParkAsleep _ _ _ _ _ => run_drop w t p o
  | PTimer _ _ | PExpire _ _ _ | PUnbind _ _ => run_expire w t p
  | PEndBusy _ _ _ _ _ _ | PInstall _ _ _ _ _ _ | PCloseOld _ _ _ _ _ _ _ => run_endBusyAfterPanic w t p
  | PDispose _ _ _ _ _ => run_dispose w t p o
  | PUnmap _ _ _ | PUnmapCloser _ _ _ | PCloseReady _ _ => run_unmapAfterClose w t p
  | PReset | PResetLoop _ | PResetSleep _ _ _ _ _ => run_Reset w t p o
  | PRet _ => None
  end.

(** ** The table as a labelled transition system *)

Inductive label :=
| LOpen (c : ctx) (key : string) (lg : nat)   (* a goroutine calls Open *)
| LReset                                       (* a goroutine calls Reset *)
| LSetAlias (key alias publisher group : string)
| LWatch (alias : string) (empty : any) (changed : bool)
| LDropWatcher (alias : string) (wt : wid)     (* the context of a Watch is done *)
| LClearPublisher (publisher group : string)
| LCancel (c : nat)                            (* a context becomes done *)
| LRun (t : tid) (o : outcome).                (* goroutine t takes its next step *)

(** What a call of Open does before it enters its loop: fail, panic in
    [requireContext], or enter it ([LOpen]).  The flags say which arguments are
    nil; [nilItems] is a zero Table, which the guard of the first [lookupOpen]
    refuses.  Only [New] and [takeAll] write [t.items], never nil, so a call that
    passes the guard once passes it always. *)
Inductive open_entry := EnterErr (e : rerr) | EnterPanic | Enter.

(** [OpenWithHooks] up to its loop. *)
Definition OpenWithHooks (nilTable nilLogger nilCreate nilCtx nilItems : bool) (key : string) : open_entry :=
  if nilTable then EnterErr (ErrNilTable key)
  else if nilLogger then EnterErr (ErrNilLogger key)
  else if nilCreate then EnterErr (ErrNilCreate key)
  else if nilCtx then EnterPanic
  else if nilItems then EnterErr (ErrUninitialized key)
  else Enter.

(** [Open] up to the loop: it guards a nil create itself, because the closure
    it passes on is never nil. *)
Definition Open (nilTable nilLogger nilCreate nilCtx nilItems : bool) (key : string) : open_entry :=
  if nilCreate then
    if nilTable then EnterErr (ErrNilTable key)
    else if nilLogger then EnterErr (ErrNilLogger key)
    else EnterErr (ErrNilCreate key)
  else OpenWithHooks nilTable nilLogger false nilCtx nilItems key.

(** [OpenTyped]: the type assertion on what OpenWithHooks returned; [isT]
    decides whether a stored value has dynamic type T. *)
Definition OpenTyped (isT : any -> bool) (key : string) (r : result) : result :=
  match r with
  | RVal s v => if isT v then RVal s v else RErr (ErrTyped key)
  | r => r
  end.

(** The slot SetAlias finds at [key], when it is awake or asleep. *)
Definition mapped_at (w : world) (key : string) : mapped_slot :=
  s ← w_items w !! key;
  x ← w_slots w !! s;
  match s_state x with
  | slotAwake | slotAsleep => Some (s, s_value x)
  | _ => None
  end.

Definition value_at (w : world) (s : sid) : any :=
  match w_slots w !! s with Some x => s_value x | None => ANil end.

Definition step (w : world) (l : label) : option world :=
  match l with
  | LOpen c key lg => Some (spawn w (POpen c key lg))
  | LReset => Some (spawn w PReset)
  | LSetAlias key alias pub grp =>
      Some (set_aliases w (snd (SetAlias (w_aliases w) (mapped_at w key) key alias pub grp)))
  | LWatch alias empty changed =>
      Some (set_aliases w (fst (Watch (w_aliases w) (value_at w) alias empty changed)))
  | LDropWatcher alias wt => Some (set_aliases w (dropWatcher (w_aliases w) alias wt))
  | LClearPublisher pub grp => Some (set_aliases w (ClearPublisher (w_aliases w) pub grp))
  | LCancel c => Some (cancelCtx w c)
  | LRun t o => p ← w_threads w !! t; run w t p o
  end.

Fixpoint steps (w : world) (ls : list label) : option world :=
  match ls with
  | [] => Some w
  | l :: rest => w' ← step w l; steps w' rest
  end.

(** Reset is for tests only: [resets] says whether it may be called. *)
Definition allowed (resets : bool) (l : label) : Prop :=
  match l with LReset => resets = true | _ => True end.

(** The worlds a table built with [grace] can reach. *)
Inductive reachable (resets : bool) (grace : Z) : world -> Prop :=
| reach_init : reachable resets grace (NewTable grace)
| reach_step w l w' :
    reachable resets grace w -> allowed resets l -> step w l = Some w' -> reachable resets grace w'.

(** Peek *)
Definition Peek (w : world) (key : string) : option (any * bool) :=
  s ← w_items w !! key;
  x ← w_slots w !! s;
  match s_state x with
  | slotAwake => Some (s_value x, true)
  | slotAsleep => Some (s_value x, false)
  | _ => None
  end.
