(* ===== verification/ReclaimInv.v ===== *)
(** * ReclaimInv: safety of the reclaim table

    The lifecycle automaton of the diagram above [Table] in
    [reclaim/table.go], read off the trace of hook calls and log lines of one
    incarnation, and the inductive invariant of the transition system of
    Reclaim.v: who is in charge of an incarnation, who keeps it busy, how many
    holders it has, and what becomes of every channel. *)

From S2P Require Import Prelude.
From S2P Require Import ReclaimAlias.
From S2P Require Import Reclaim.
From Stdlib Require Import ZArith Lia List String.
From stdpp Require Import base list strings option gmap.

Open Scope Z_scope.

(** ** The lifecycle automaton *)

Inductive phase :=
| PhNone | PhCreating | PhFailed | PhAwake
| PhSleeping | PhSlept | PhAsleep | PhWaking | PhBroken
| PhClosing | PhClosed | PhDisposed | PhBad.

#[export] Instance phase_eq_dec : EqDecision phase.
Proof. solve_decision. Defined.

(** One event of an incarnation.  Orphan is only written after Sleep returned
    and dispose only after Close returned; the other log lines are free. *)
Definition next (ph : phase) (e : event) : phase :=
  match e, ph with
  | ECreate, PhNone => PhCreating
  | ECreated, PhCreating => PhAwake
  | ECreateFailed, PhCreating => PhFailed
  | ESleep, PhAwake => PhSleeping
  | ESlept, PhSleeping => PhSlept
  | ESleepPanic, PhSleeping => PhBroken
  | EWake, PhAsleep => PhWaking
  | EWoke, PhWaking => PhAwake
  | EWakePanic, PhWaking => PhBroken
  | EClose, PhAsleep | EClose, PhBroken => PhClosing
  | EClosed, PhClosing => PhClosed
  | ELog _ msg _, _ =>
      if String.eqb msg MsgOrphan then match ph with PhSlept => PhAsleep | _ => PhBad end
      else if String.eqb msg MsgDispose then match ph with PhClosed => PhDisposed | _ => PhBad end
      else ph
  | _, _ => PhBad
  end.

Fixpoint phase_of (tr : list (sid * event)) (s : sid) : phase :=
  match tr with
  | [] => PhNone
  | (s', e) :: tr => if decide (s' = s) then next (phase_of tr s) e else phase_of tr s
  end.

(** Nothing more happens to an incarnation in one of these phases. *)
Definition final (ph : phase) : bool :=
  match ph with PhNone | PhFailed | PhDisposed => true | _ => false end.

(** ** What a goroutine owns *)

(** The incarnations a goroutine is in charge of, with the phase it has brought
    them to: nobody else moves them. *)
Definition charges (p : pc) : list (sid * phase) :=
  match p with
  | PCreate _ _ _ s => [(s, PhCreating)]
  | PPut _ _ _ s _ _ => [(s, PhAwake)]
  | PFailed _ s _ => [(s, PhFailed)]
  | PWake _ _ _ s _ _ => [(s, PhWaking)]
  | PWoken _ _ _ s _ => [(s, PhAwake)]
  | PSleep _ s _ _ _ _ => [(s, PhSleeping)]
  | PParkAsleep _ s _ _ _ => [(s, PhAsleep)]
  | PEndBusy _ s _ _ _ _ | PInstall _ s _ _ _ _ => [(s, PhBroken)]
  | PCloseOld _ s cl _ _ _ _ => [(s, PhBroken); (cl, PhNone)]
  | PDispose _ s _ _ (PUnmapCloser _ cl _) => [(s, PhClosing); (cl, PhNone)]
  | PDispose _ s _ _ _ => [(s, PhClosing)]
  | PUnmap _ s _ => [(s, PhDisposed)]
  | PUnmapCloser _ cl _ => [(cl, PhNone)]
  | PResetSleep _ s _ _ _ => [(s, PhSleeping)]
  | _ => []
  end.

(** The busy slots a goroutine will end the transition of. *)
Definition busies (p : pc) : list sid :=
  match p with
  | PCreate _ _ _ s | PPut _ _ _ s _ _ | PFailed _ s _ | PWake _ _ _ s _ _ | PWoken _ _ _ s _
  | PSleep _ s _ _ _ _ | PParkAsleep _ s _ _ _ | PEndBusy _ s _ _ _ _ | PInstall _ s _ _ _ _ => [s]
  | PCloseOld _ _ cl _ _ _ _ => [cl]
  | PDispose _ _ _ _ (PUnmap _ s _) | PDispose _ _ _ _ (PUnmapCloser _ s _) => [s]
  | PUnmap _ s _ | PUnmapCloser _ s _ => [s]
  | _ => []
  end.

(** The holders that are bound: Open has returned the value, or is about to,
    and the drop has not released it. *)
Definition helds (p : pc) : list sid :=
  match p with
  | PBound _ _ s _ | PFinishedAtBind _ _ s _ | PDrop _ s _ | PAfter _ _ s
  | PWatch _ _ s | PWatchErr _ _ s => [s]
  | _ => []
  end.

(** The holder an Open registered before running Wake. *)
Definition wakers (p : pc) : list sid :=
  match p with
  | PWake _ _ _ s _ _ | PWoken _ _ _ s _ => [s]
  | PEndBusy _ s _ _ (Some _) _ | PInstall _ s _ _ (Some _) _ => [s]
  | _ => []
  end.

(** The other goroutines that keep a slot busy: they hold nothing. *)
Definition plains (p : pc) : list sid :=
  match wakers p with [] => busies p | _ => [] end.

(** The channels a goroutine took out of the table and closes next. *)
Definition pends (p : pc) : list chan :=
  match p with
  | PCloseOld _ _ _ old _ _ _ => [old]
  | PCloseReady ch _ => [ch]
  | _ => []
  end.

(** Continuations of dispose, and that only Reset runs Reset's code. *)
Definition shape_ok (rs : bool) (p : pc) : Prop :=
  match p with
  | PDispose _ s _ _ k =>
      match k with
      | PUnmap _ s' _ => s' = s
      | PUnmapCloser _ _ _ | PUnbind _ _ | PRet _ => True
      | PResetLoop _ => rs = true
      | _ => False
      end
  | PReset | PResetLoop _ | PResetSleep _ _ _ _ _ => rs = true
  | _ => True
  end.

(** The count of [g] at [s] over all goroutines. *)
Definition cnt (g : pc -> list nat) (th : gmap tid pc) (s : nat) : Z :=
  msum (fun p => occ s (g p)) th.

Definition charged (p : pc) : list sid := map fst (charges p).

(** ** The invariant *)

Definition slot_ok (rs : bool) (th : gmap tid pc) (sl : gmap sid slot) (tr : list (sid * event)) (fin : gset sid)
    (s : sid) : Prop :=
  let nc := cnt charged th s in
  let nh := cnt helds th s in
  let nw := cnt wakers th s in
  let ns := cnt plains th s in
  match sl !! s with
  | None => nc = 0 /\ nh = 0 /\ nw = 0 /\ ns = 0 /\ phase_of tr s = PhNone /\ s ∉ fin
  | Some x =>
      match s_state x with
      | slotBusy => nc = 1 /\ nw + ns = 1 /\ nh = 0 /\ s_holders x = nw
                    /\ s ∉ fin /\ (phase_of tr s <> PhNone -> s_finished x = true)
      | slotAwake => nc = 0 /\ nw = 0 /\ ns = 0 /\ s_holders x = nh
                     /\ phase_of tr s = PhAwake /\ s ∉ fin /\ s_finished x = true
      | slotAsleep => nc = 0 /\ nw = 0 /\ nh = 0 /\ ns = 0 /\ s_holders x = 0
                      /\ phase_of tr s = PhAsleep /\ s ∉ fin /\ s_finished x = true
      | slotGone => nc <= 1 /\ nw = 0 /\ ns = 0 /\ s_finished x = false
                    /\ (nc = 0 -> final (phase_of tr s) = true) /\ (rs = false -> nh = 0)
      end
  end.

Definition thread_ok (rs : bool) (tr : list (sid * event)) (p : pc) : Prop :=
  Forall (fun '(s, ph) => phase_of tr s = ph) (charges p) /\ shape_ok rs p.

(** Does this slot guard channel [ch]? *)
Definition guards (ch : chan) (x : slot) : Z :=
  if decide (s_state x = slotBusy /\ s_ready x = ch) then 1 else 0.

(** Every channel that was made guards exactly one busy slot, or is about to be
    closed by exactly one goroutine, or is closed. *)
Definition chan_ok (th : gmap tid pc) (sl : gmap sid slot) (closed : gset chan) (fresh_ch ch : chan) : Prop :=
  msum (guards ch) sl + cnt pends th ch + (if decide (ch ∈ closed) then 1 else 0)
  = if decide (ch < fresh_ch)%nat then 1 else 0.

Record inv (rs : bool) (w : world) : Prop := {
  inv_slot : forall s, slot_ok rs (w_threads w) (w_slots w) (w_trace w) (w_fin w) s;
  inv_thread : forall t p, w_threads w !! t = Some p -> thread_ok rs (w_trace w) p;
  inv_chan : forall ch, chan_ok (w_threads w) (w_slots w) (w_closed w) (w_chan w) ch;
  inv_tid : forall t, (w_tid w <= t)%nat -> w_threads w !! t = None;
  inv_panic : w_panic w = false;
}.

Arguments inv_slot {rs w} _ s.
Arguments inv_thread {rs w} _ t p.
Arguments inv_chan {rs w} _ ch.
Arguments inv_tid {rs w} _ t.
Arguments inv_panic {rs w} _.

(** ** Counting lemmas *)

Lemma cnt_insert g th t p q s :
  th !! t = Some p -> cnt g (<[t := q]> th) s = cnt g th s - occ s (g p) + occ s (g q).
Proof. intros H. unfold cnt. by rewrite (msum_insert _ _ _ p). Qed.

Lemma cnt_spawn g th t q s : th !! t = None -> cnt g (<[t := q]> th) s = cnt g th s + occ s (g q).
Proof. intros H. unfold cnt. rewrite msum_insert_new by done. lia. Qed.

Lemma cnt_nonneg g th s : 0 <= cnt g th s.
Proof. apply msum_nonneg. intros p. apply occ_nonneg. Qed.

Lemma cnt_lookup g th t p s : th !! t = Some p -> occ s (g p) <= cnt g th s.
Proof. apply (msum_lookup (fun p => occ s (g p))). intros. apply occ_nonneg. Qed.

Lemma cnt_lookup2 g th t t' p q s :
  th !! t = Some p -> th !! t' = Some q -> t <> t' -> occ s (g p) + occ s (g q) <= cnt g th s.
Proof. apply (msum_lookup2 (fun p => occ s (g p))). intros. apply occ_nonneg. Qed.

(** The goroutines after one step: [t] moves to [q] and may start [r]. *)
Definition moved (th : gmap tid pc) (t : tid) (q : pc) (fresh_t : tid) (r : option pc) : gmap tid pc :=
  match r with Some r => <[t := q]> (<[fresh_t := r]> th) | None => <[t := q]> th end.

Definition moved_tid (fresh_t : tid) (r : option pc) : tid :=
  match r with Some _ => S fresh_t | None => fresh_t end.

Definition occo (g : pc -> list nat) (r : option pc) (s : nat) : Z :=
  match r with Some r => occ s (g r) | None => 0 end.

Lemma cnt_moved g th t p q n r s :
  th !! t = Some p -> th !! n = None ->
  cnt g (moved th t q n r) s = cnt g th s - occ s (g p) + occ s (g q) + occo g r s.
Proof.
  intros Ht Hn. destruct r as [r|]; simpl.
  - rewrite (cnt_insert _ _ _ p) by (rewrite lookup_insert_ne; congruence).
    rewrite cnt_spawn by done. lia.
  - rewrite (cnt_insert _ _ _ p) by done. lia.
Qed.

(** ** One step *)

(** [p] and what replaces it own the same at [s]. *)
Definition same_at (p q : pc) (r : option pc) (s : sid) : Prop :=
  occ s (charged p) = occ s (charged q) + occo charged r s
  /\ occ s (helds p) = occ s (helds q) + occo helds r s
  /\ occ s (wakers p) = occ s (wakers q) + occo wakers r s
  /\ occ s (plains p) = occ s (plains q) + occo plains r s.

Lemma slot_ok_frame {rs} th sl tr fin th' sl' tr' fin' t p q n r s :
  th !! t = Some p -> th !! n = None -> th' = moved th t q n r ->
  same_at p q r s -> sl' !! s = sl !! s -> phase_of tr' s = phase_of tr s -> (s ∈ fin' <-> s ∈ fin) ->
  slot_ok rs th sl tr fin s -> slot_ok rs th' sl' tr' fin' s.
Proof.
  intros Ht Hn -> (H1 & H2 & H3 & H4) Hs Hp Hf. unfold slot_ok.
  rewrite Hs, Hp, !(cnt_moved _ _ _ p) by done.
  replace (cnt charged _ _ - _ + _ + _) with (cnt charged th s) by lia.
  replace (cnt helds _ _ - _ + _ + _) with (cnt helds th s) by lia.
  replace (cnt wakers _ _ - _ + _ + _) with (cnt wakers th s) by lia.
  replace (cnt plains _ _ - _ + _ + _) with (cnt plains th s) by lia.
  destruct (sl !! s) as [x|]; [destruct (s_state x)|]; tauto.
Qed.

(** The frame rule of a step: an incarnation is left alone, or it is touched
    and checked. *)
Lemma inv_update_gen {rs} w w' t p q r :
  inv rs w -> w_threads w !! t = Some p ->
  w_threads w' = moved (w_threads w) t q (w_tid w) r -> w_tid w' = moved_tid (w_tid w) r ->
  (forall s, (same_at p q r s /\ w_slots w' !! s = w_slots w !! s
              /\ phase_of (w_trace w') s = phase_of (w_trace w) s /\ (s ∈ w_fin w' <-> s ∈ w_fin w))
             \/ (slot_ok rs (moved (w_threads w) t q (w_tid w) r) (w_slots w') (w_trace w') (w_fin w') s
                 /\ (phase_of (w_trace w') s = phase_of (w_trace w) s
                     \/ cnt charged (w_threads w) s <= occ s (charged p)))) ->
  thread_ok rs (w_trace w') q ->
  (match r with Some r => thread_ok rs (w_trace w') r | None => True end) ->
  (forall ch, chan_ok (moved (w_threads w) t q (w_tid w) r) (w_slots w') (w_closed w') (w_chan w') ch) ->
  w_panic w' = false ->
  inv rs w'.
Proof.
  intros [Is It Ic Id Ip] Ht Hth Htid Hs Hq Hr Hc Hpan. rewrite <- Hth in Hc.
  assert (w_threads w !! w_tid w = None) as Hn by (apply Id; lia).
  split; [ | | done | | done].
  - intros s. destruct (Hs s) as [(? & ? & ? & ?)|[? _]]; [|by rewrite Hth].
    eapply slot_ok_frame; eauto.
  - intros t' p' Hp'.
    assert (Hold : w_threads w !! t' = Some p' -> t' <> t -> thread_ok rs (w_trace w') p').
    { intros Hp Htt. destruct (It _ _ Hp) as [Hf Hd]. split; [|done].
      rewrite Forall_forall in Hf |- *. intros [s ph] Hin. rewrite <- (Hf _ Hin).
      destruct (Hs s) as [?|[_ [?|Hle]]]; [tauto|done|].
      pose proof (cnt_lookup2 charged _ _ _ _ _ s Ht Hp ltac:(congruence)).
      assert (0 < occ s (charged p')); [|lia]. apply occ_elem_of.
      apply (list_elem_of_fmap_2 fst) in Hin. done. }
    rewrite Hth in Hp'. destruct (decide (t' = t)) as [->|Htt].
    + destruct r; simpl in Hp'; rewrite lookup_insert_eq in Hp'; naive_solver.
    + destruct r as [r|]; simpl in Hp'; rewrite lookup_insert_ne in Hp' by done; [|by apply Hold].
      destruct (decide (t' = w_tid w)) as [->|Htn].
      * rewrite lookup_insert_eq in Hp'. naive_solver.
      * rewrite lookup_insert_ne in Hp' by done. by apply Hold.
  - intros t' Ht'. rewrite Hth. rewrite Htid in Ht'.
    assert (w_threads w !! t' = None) by (apply Id; destruct r; simpl in *; lia).
    destruct r; simpl in *; rewrite !lookup_insert_ne; try done; intros E; subst t'; try congruence; lia.
Qed.

(** A step that touches one incarnation [s]. *)
Lemma inv_update {rs} w w' t p q r s :
  inv rs w -> w_threads w !! t = Some p ->
  w_threads w' = moved (w_threads w) t q (w_tid w) r -> w_tid w' = moved_tid (w_tid w) r ->
  (forall s', s' <> s -> same_at p q r s' /\ w_slots w' !! s' = w_slots w !! s'
     /\ phase_of (w_trace w') s' = phase_of (w_trace w) s' /\ (s' ∈ w_fin w' <-> s' ∈ w_fin w)) ->
  slot_ok rs (moved (w_threads w) t q (w_tid w) r) (w_slots w') (w_trace w') (w_fin w') s ->
  thread_ok rs (w_trace w') q ->
  (match r with Some r => thread_ok rs (w_trace w') r | None => True end) ->
  (phase_of (w_trace w') s = phase_of (w_trace w) s \/ cnt charged (w_threads w) s <= occ s (charged p)) ->
  (forall ch, chan_ok (moved (w_threads w) t q (w_tid w) r) (w_slots w') (w_closed w') (w_chan w') ch) ->
  w_panic w' = false ->
  inv rs w'.
Proof.
  intros I Ht Hth Htid Hfr Hs Hq Hr Hph Hc Hpan. eapply inv_update_gen; eauto.
  intros s'. destruct (decide (s' = s)) as [->|Hne]; [right|left]; auto.
Qed.

(** What the invariant says of a slot somebody keeps busy, and of channels. *)
Lemma inv_busy {rs} w t p s :
  inv rs w -> w_threads w !! t = Some p -> s ∈ busies p ->
  exists x, w_slots w !! s = Some x /\ s_state x = slotBusy.
Proof.
  intros I Ht Ho%occ_elem_of. pose proof (inv_slot I s) as Hs.
  pose proof (cnt_lookup wakers _ _ _ s Ht). pose proof (cnt_lookup plains _ _ _ s Ht).
  pose proof (cnt_nonneg wakers (w_threads w) s). pose proof (cnt_nonneg plains (w_threads w) s).
  assert (0 < occ s (wakers p) \/ 0 < occ s (plains p)).
  { destruct p; cbn in *; try lia; destruct e; cbn in *; lia. }
  unfold slot_ok in Hs. destruct (w_slots w !! s) as [x|]; [|lia].
  exists x. destruct (s_state x); [done|lia..].
Qed.

Lemma guards_nonneg ch x : 0 <= guards ch x.
Proof. unfold guards. case_decide; lia. Qed.

Lemma guards_busy ch x : s_state x = slotBusy -> guards ch x = if decide (s_ready x = ch) then 1 else 0.
Proof. intros H. unfold guards. repeat case_decide; naive_solver. Qed.

Lemma guards_idle ch x : s_state x <> slotBusy -> guards ch x = 0.
Proof. intros H. unfold guards. case_decide; naive_solver. Qed.

Lemma closed_insert (cl : gset chan) c ch : c ∉ cl ->
  (if decide (ch ∈ {[c]} ∪ cl) then 1 else 0)
  = (if decide (ch ∈ cl) then 1 else 0) + (if decide (c = ch) then 1 else 0).
Proof. intros. repeat case_decide; set_solver. Qed.

Lemma made_fresh n ch :
  (if decide (ch < S n)%nat then 1 else 0)
  = (if decide (ch < n)%nat then 1 else 0) + (if decide (n = ch) then 1 else 0).
Proof. repeat case_decide; lia. Qed.

Lemma fin_insert (fin : gset sid) s s' : s' <> s -> s' ∈ {[s]} ∪ fin <-> s' ∈ fin.
Proof. set_solver. Qed.

Lemma inv_guard_open {rs} w s x :
  inv rs w -> w_slots w !! s = Some x -> s_state x = slotBusy ->
  (s_ready x < w_chan w)%nat /\ s_ready x ∉ w_closed w.
Proof.
  intros I Hx Hb. pose proof (inv_chan I (s_ready x)) as Hc. unfold chan_ok in Hc.
  pose proof (cnt_nonneg pends (w_threads w) (s_ready x)).
  assert (guards (s_ready x) x <= msum (guards (s_ready x)) (w_slots w)) as Hle.
  { apply (msum_lookup _ _ s); [|done]. apply guards_nonneg. }
  unfold guards at 1 in Hle. rewrite decide_True in Hle by done.
  destruct (decide (s_ready x ∈ w_closed w)), (decide (s_ready x < w_chan w)%nat);
    first [by split | exfalso; lia].
Qed.

Lemma inv_fin_open {rs} w s x :
  inv rs w -> w_slots w !! s = Some x -> s_state x <> slotGone -> s ∉ w_fin w.
Proof.
  intros I Hx Hg. pose proof (inv_slot I s) as Hs. unfold slot_ok in Hs. rewrite Hx in Hs.
  destruct (s_state x); tauto.
Qed.

Lemma inv_pend_open {rs} w t p ch :
  inv rs w -> w_threads w !! t = Some p -> 0 < occ ch (pends p) -> ch ∉ w_closed w.
Proof.
  intros I Ht Ho. pose proof (inv_chan I ch) as Hc. unfold chan_ok in Hc.
  pose proof (cnt_lookup pends _ _ _ ch Ht).
  assert (0 <= msum (guards ch) (w_slots w)).
  { apply msum_nonneg, guards_nonneg. }
  destruct (decide (ch ∈ w_closed w)), (decide (ch < w_chan w)%nat); (done || lia).
Qed.

(** Free log lines. *)
Lemma next_free ph lg msg key :
  msg = MsgPut \/ msg = MsgBind \/ msg = MsgReclaim \/ msg = MsgHookPanic ->
  next ph (ELog lg msg key) = ph.
Proof. destruct ph; naive_solver. Qed.

Lemma next_orphan lg key : next PhSlept (ELog lg MsgOrphan key) = PhAsleep.
Proof. done. Qed.

Lemma next_dispose lg key : next PhClosed (ELog lg MsgDispose key) = PhDisposed.
Proof. done. Qed.

(** ** Automation for single steps *)

(** Compute one step of a goroutine. *)
Ltac run_cbn :=
  cbn [run run_open run_put run_wakeAndBind run_finishBind run_dropWhenDone run_watch run_drop run_expire
       run_endBusyAfterPanic run_dispose run_unmapAfterClose run_Reset] in *.

(** Compute the fields of an updated world. *)
Ltac wcbn :=
  cbn [w_grace w_items w_slots w_aliases w_closed w_fin w_chan w_threads w_tid w_done w_trace w_panic
       set_items set_slot set_aliases set_pc spawn fresh_chan close_chan close_fin emit cancelCtx unbind unmap_if
       publishPut publishWake
       s_value s_hooks s_createErr s_state s_holders s_ready s_graceTimer s_finished s_logger
       sl_state sl_holders sl_ready sl_timer sl_finished sl_logger sl_err sl_put mkSlot] in *.

(** Compute what the goroutine owned before and after the step. *)
Ltac owncbn := cbn [charges map fst plains busies helds wakers pends occ occo] in *.

Ltac decides :=
  repeat match goal with
  | |- context [decide (?a = ?a)] => rewrite (decide_True (P := a = a)) by reflexivity
  | H : context [decide (?a = ?a)] |- _ => rewrite (decide_True (P := a = a)) in H by reflexivity
  | Hn : ?b <> ?a |- context [decide (?a = ?b)] => rewrite (decide_False (P := a = b)) by congruence
  | Hn : ?b <> ?a |- context [decide (?b = ?a)] => rewrite (decide_False (P := b = a)) by congruence
  | Hn : ?b <> ?a, H : context [decide (?b = ?a)] |- _ =>
      rewrite (decide_False (P := b = a)) in H by congruence
  end.

(** Run the lifecycle automaton over the new events, from the known phase. *)
Ltac run_phase :=
  cbn [phase_of]; decides;
  repeat match goal with H : phase_of ?tr ?s = _ |- context [phase_of ?tr ?s] => rewrite H end;
  repeat (rewrite next_free by tauto || rewrite next_orphan || rewrite next_dispose || cbn [next final]).

Ltac step_frame :=
  let s' := fresh "s'" in let Hne := fresh "Hne" in
  intros s' Hne; unfold same_at, charged; owncbn; cbn [phase_of]; decides;
  rewrite ?insert_insert_eq, ?lookup_insert_ne, ?(fin_insert _ _ _ Hne) by congruence;
  repeat split; first [lia | done | set_solver].

Ltac state_known :=
  repeat match goal with Hst : s_state ?x = _ |- _ => rewrite ?Hst in *; clear Hst end.

(** What the invariant says of the moving goroutine and the slot it touches. *)
Ltac owner_facts I Ht s :=
  pose proof (inv_slot I s);
  let Hf := fresh "Hf" in
  pose proof (proj1 (inv_thread I _ _ Ht)) as Hf; cbn [charges] in Hf;
  repeat match type of Hf with Forall _ (_ :: _) => apply Forall_cons in Hf as [? Hf] end;
  let Hd := fresh "Hd" in
  pose proof (proj2 (inv_thread I _ _ Ht)) as Hd; cbn [shape_ok] in Hd;
  pose proof (cnt_lookup charged _ _ _ s Ht);
  pose proof (cnt_lookup helds _ _ _ s Ht);
  pose proof (cnt_lookup wakers _ _ _ s Ht);
  pose proof (cnt_lookup plains _ _ _ s Ht);
  unfold slot_ok in *;
  repeat match goal with Hx : w_slots _ !! s = _ |- _ => rewrite Hx in *; clear Hx end;
  cbn [charged charges map fst plains busies helds wakers occ] in *; decides.

Ltac real_incarnation :=
  repeat match goal with
  | H : phase_of ?tr ?s = _, Hr : phase_of ?tr ?s <> PhNone -> _ |- _ =>
      specialize (Hr ltac:(rewrite H; discriminate))
  end.

(** Goals left after the counts are computed: arithmetic under implications. *)
Ltac finish :=
  intros;
  repeat match goal with H : ?b = false -> _, Hb : ?b = false |- _ => specialize (H Hb) end;
  first [lia | done | congruence | match goal with H : _ -> final _ = true |- _ => apply H; lia end].

Ltac step_slot I Ht Hn s :=
  owner_facts I Ht s; rewrite ?insert_insert_eq, ?lookup_insert_eq, !(cnt_moved _ _ _ _ _ _ _ _ Ht Hn);
  cbn [charged charges map fst plains busies helds wakers occ occo]; decides; wcbn;
  state_known; destruct_and?; real_incarnation; run_phase; repeat split;
  first [lia | done | finish | set_solver | naive_solver lia].

Ltac step_thread I Ht s :=
  owner_facts I Ht s; state_known; destruct_and?;
  split; [|done || (cbn; tauto)];
  cbn [charges]; rewrite ?Forall_cons, Forall_nil; repeat split; run_phase; done.

Ltac step_phase I Ht s :=
  owner_facts I Ht s; state_known; destruct_and?;
  first [left; run_phase; done | right; lia].

Ltac not_closed I Ht :=
  first [ eapply inv_guard_open; eassumption
        | eapply inv_fin_open; [eassumption..|congruence]
        | eapply (inv_pend_open _ _ _ _ I Ht); cbn; decides; lia ].

Ltac step_chan I Ht Hn :=
  let ch := fresh "ch" in
  intros ch; pose proof (inv_chan I ch); unfold chan_ok in *;
  rewrite (cnt_moved _ _ _ _ _ _ _ _ Ht Hn), ?made_fresh, ?insert_insert_eq;
  rewrite ?closed_insert by not_closed I Ht;
  repeat match goal with Hx : w_slots _ !! _ = Some _ |- _ => rewrite ?(msum_insert _ _ _ _ _ Hx); clear Hx
         | Hx : w_slots _ !! _ = None |- _ => rewrite ?(msum_insert_new _ _ _ _ Hx); clear Hx end;
  repeat match goal with
  | |- context [guards ?ch ?x] =>
      first [ rewrite (guards_busy ch x) by (wcbn; congruence)
            | rewrite (guards_idle ch x) by (wcbn; congruence) ]
  end;
  cbn [pends occ occo]; wcbn; lia.

Ltac step_panic I Ht :=
  rewrite (inv_panic I); cbn [orb];
  rewrite ?(bool_decide_eq_false_2 (_ ∈ _)) by not_closed I Ht; reflexivity.

(** One step of goroutine [t] that touches slot [s] only and starts [r]. *)
Ltac step_inv I Ht s r :=
  let Hn := fresh "Hn" in
  assert (Hn := inv_tid I _ (le_n _));
  eapply (inv_update _ _ _ _ _ r s I Ht);
  [ reflexivity | reflexivity | wcbn; step_frame | wcbn; step_slot I Ht Hn s
  | wcbn; step_thread I Ht s | wcbn; exact Logic.I || step_thread I Ht s
  | wcbn; step_phase I Ht s | wcbn; step_chan I Ht Hn | wcbn; step_panic I Ht ].

(** A goroutine moves and the table does not change. *)
Lemma inv_move {rs} w t p q :
  inv rs w -> w_threads w !! t = Some p ->
  charges q = charges p -> helds q = helds p -> wakers q = wakers p -> plains q = plains p ->
  pends q = pends p -> shape_ok rs q ->
  inv rs (set_pc w t q).
Proof.
  intros I Ht Hch Hh Hw Hsl Hp Hd.
  assert (Hn := inv_tid I _ (le_n _)).
  assert (Hsame : forall s, same_at p q None s).
  { intros s. unfold same_at, charged. rewrite Hch, Hh, Hw, Hsl. simpl. lia. }
  apply (inv_update _ _ _ _ q None 0%nat I Ht); wcbn; try done.
  - eapply (slot_ok_frame _ _ _ _ _ _ _ _ t p q (w_tid w) None); try done. apply I.
  - split; [|done]. rewrite Hch. apply (inv_thread I _ _ Ht).
  - by left.
  - intros ch. unfold chan_ok. rewrite (cnt_moved _ _ _ _ _ _ _ _ Ht Hn), Hp. cbn.
    pose proof (inv_chan I ch) as Hc. unfold chan_ok in Hc. lia.
  - apply I.
Qed.

(** The owner of a busy slot publishes, fails or gives it up. *)
Lemma inv_run_owner {rs} w t p o w' :
  inv rs w -> w_threads w !! t = Some p -> run w t p o = Some w' ->
  match p with
  | PCreate _ _ _ _ | PPut _ _ _ _ _ _ | PWake _ _ _ _ _ _ | PWoken _ _ _ _ _ => inv rs w'
  | _ => True
  end.
Proof.
  intros I Ht Hrun. destruct p; try done; run_cbn;
    (destruct (inv_busy _ _ _ s I Ht) as (x & Hx & Hst); [set_solver|]);
    rewrite ?Hx in Hrun; cbn in Hrun; unfold after_panic in Hrun; simplify_option_eq;
    repeat case_match; simplify_eq; step_inv I Ht s (@None pc).
Qed.

(** The owner of a busy slot puts it to sleep or ends it. *)
Lemma inv_run_end {rs} w t p o w' :
  inv rs w -> w_threads w !! t = Some p -> run w t p o = Some w' ->
  match p with
  | PFailed _ _ _ | PSleep _ _ _ _ _ _ | PEndBusy _ _ _ _ _ _ | PUnmap _ _ _ | PUnmapCloser _ _ _ => inv rs w'
  | _ => True
  end.
Proof.
  intros I Ht Hrun. destruct p; try done; run_cbn;
    (match type of Ht with
     | context [PUnmapCloser _ ?cl _] => destruct (inv_busy _ _ _ cl I Ht) as (x & Hx & Hst); [set_solver|]
     | _ => destruct (inv_busy _ _ _ s I Ht) as (x & Hx & Hst); [set_solver|]
     end);
    rewrite ?Hx in Hrun; cbn in Hrun; unfold after_panic in Hrun; simplify_option_eq;
    unfold endBusySlot, unmapLocked, end_incarnation, closeFinished; wcbn;
    repeat case_match; simplify_eq;
    match goal with Hs : w_slots _ !! ?s = Some _ |- _ =>
      first [step_inv I Ht s (@None pc) | destruct e; step_inv I Ht s (@None pc)]
    end.
Qed.

(** A slot that is not busy is claimed for sleep, wake or close, or bound. *)
Lemma inv_run_claim {rs} w t p o w' :
  inv rs w -> w_threads w !! t = Some p -> run w t p o = Some w' ->
  match p with PClaim _ _ _ | PExpire _ _ _ | PResetLoop _ => inv rs w' | _ => True end.
Proof.
  intros I Ht Hrun. destruct p; try done; [ | | destruct l as [|[key s] l]]; run_cbn;
    try (destruct (w_slots w !! s) as [x|] eqn:Hx; [|done]); cbn [mbind option_bind] in Hrun; simplify_eq;
    unfold claimDrop, claimExpire, endResetSlot, closeFinished; wcbn; [ | | by apply (inv_move _ _ _ _ I Ht) | ];
    try (case_bool_decide; [|by apply (inv_move _ _ _ _ I Ht)]);
    repeat (case_match; try (by apply (inv_move _ _ _ _ I Ht))); cbn [andb] in *; bool_cases; try done.
  all: step_inv I Ht s (@None pc).
Qed.

Lemma inv_run_park {rs} w t p o w' :
  inv rs w -> w_threads w !! t = Some p -> run w t p o = Some w' ->
  match p with PParkAsleep _ _ _ _ _ => inv rs w' | _ => True end.
Proof.
  intros I Ht Hrun. destruct p; try done; run_cbn.
  destruct (inv_busy _ _ _ s I Ht) as (x & Hx & Hst); [set_solver|].
  rewrite Hx in Hrun. cbn [mbind option_bind] in Hrun. simplify_eq. unfold parkAsleep.
  case_bool_decide; [destruct (grace <=? 0)|]; cbn [andb].
  - step_inv I Ht s (@None pc).
  - step_inv I Ht s (Some (PTimer key s)).
  - step_inv I Ht s (@None pc).
Qed.

Lemma inv_run_bound {rs} w t p o w' :
  inv rs w -> w_threads w !! t = Some p -> run w t p o = Some w' ->
  match p with
  | PBound _ _ _ _ | PFinishedAtBind _ _ _ _ | PAfter _ _ _ | PWatch _ _ _ | PWatchErr _ _ _ | PDrop _ _ _ => inv rs w'
  | _ => True
  end.
Proof.
  intros I Ht Hrun. destruct p; try done; run_cbn;
    destruct (w_slots w !! s) as [x|] eqn:Hx; cbn [mbind option_bind] in Hrun; try done;
    repeat case_match; simplify_eq; try (by apply (inv_move _ _ _ _ I Ht)).
  all: try (destruct (s_state x) eqn:Hst).
  all: match goal with
       | |- context [spawn _ ?r] => step_inv I Ht s (Some r)
       | H : s_finished _ = false, Hst : s_state _ = slotAwake |- _ => idtac
       | H : bool_decide _ = true, Hst : s_state _ = slotAwake |- _ => idtac
       | _ => step_inv I Ht s (@None pc)
       end.
  all: exfalso; pose proof (inv_slot I s) as Hs; unfold slot_ok in Hs; rewrite Hx, Hst in Hs;
    destruct_and?; rewrite ?bool_decide_eq_true in *; congruence.
Qed.

Lemma inv_close_ready {rs} w t ch r :
  inv rs w -> w_threads w !! t = Some (PCloseReady ch r) -> inv rs (set_pc (close_chan w ch) t (PRet r)).
Proof.
  intros I Ht. assert (Hn := inv_tid I _ (le_n _)).
  apply (inv_update _ _ _ _ (PRet r) None 0%nat I Ht); wcbn; try done.
  - eapply (slot_ok_frame _ _ _ _ _ _ _ _ t _ (PRet r) (w_tid w) None); try done. apply I.
  - by left.
  - step_chan I Ht Hn.
  - step_panic I Ht.
Qed.

(** Who keeps a slot busy. *)
Lemma busies_split p s : 0 < occ s (wakers p) \/ 0 < occ s (plains p) -> s ∈ busies p.
Proof.
  intros Ho. apply occ_elem_of. unfold plains in Ho.
  destruct p; cbn in *; repeat (case_match; cbn in *); lia.
Qed.

(** A busy slot has an owner. *)
Lemma busy_owner {rs} w s x :
  inv rs w -> w_slots w !! s = Some x -> s_state x = slotBusy ->
  exists t p, w_threads w !! t = Some p /\ s ∈ busies p.
Proof.
  intros I Hx Hb. pose proof (inv_slot I s) as Hs. unfold slot_ok in Hs. rewrite Hx, Hb in Hs.
  pose proof (cnt_nonneg wakers (w_threads w) s).
  assert (0 < cnt wakers (w_threads w) s \/ 0 < cnt plains (w_threads w) s) as [Hp|Hp] by lia;
    apply msum_pos in Hp as (t & q & ? & ?); eauto 6 using occ_nonneg, busies_split.
Qed.

Lemma busies_charged {rs} p s : shape_ok rs p -> s ∈ busies p -> 0 < occ s (charged p).
Proof.
  intros Hd Hs%occ_elem_of.
  destruct p; cbn in *; try lia; repeat (case_match; cbn in *; subst); repeat case_decide; lia.
Qed.

(** A busy slot has one owner. *)
Lemma busy_owner_unique {rs} w t t' p q s :
  inv rs w -> w_threads w !! t = Some p -> w_threads w !! t' = Some q -> s ∈ charged p -> s ∈ busies q -> t = t'.
Proof.
  intros I Hp Hq Hc%occ_elem_of Hs. destruct (inv_busy _ _ _ s I Hq Hs) as (x & Hx & Hb).
  pose proof (busies_charged q s (proj2 (inv_thread I _ _ Hq)) Hs).
  destruct (decide (t = t')) as [|Hne]; [done|].
  pose proof (cnt_lookup2 charged _ _ _ _ _ s Hp Hq Hne).
  pose proof (inv_slot I s) as Hsl. unfold slot_ok in Hsl. rewrite Hx, Hb in Hsl. lia.
Qed.

Lemma inv_charge_gone {rs} w t p s :
  inv rs w -> w_threads w !! t = Some p -> s ∈ charged p -> s ∉ busies p ->
  exists x, w_slots w !! s = Some x /\ s_state x = slotGone.
Proof.
  intros I Ht Hc Hb. pose proof (inv_slot I s) as Hs. unfold slot_ok in Hs.
  pose proof (cnt_lookup charged _ _ _ s Ht). pose proof (proj1 (occ_elem_of _ _) Hc).
  destruct (w_slots w !! s) as [x|] eqn:Hx; [|lia]. exists x. split; [done|].
  destruct (s_state x) eqn:Hst; [|lia..|done]. exfalso.
  destruct (busy_owner _ _ _ I Hx Hst) as (t' & q & Hq & Hsq).
  by rewrite (busy_owner_unique _ _ _ _ _ s I Ht Hq Hc Hsq), Hq in Ht; simplify_eq.
Qed.

Lemma inv_run_dispose {rs} w t p o w' :
  inv rs w -> w_threads w !! t = Some p -> run w t p o = Some w' ->
  match p with
  | PCloseOld _ _ _ _ _ _ _ | PDispose _ _ _ _ _ | PResetSleep _ _ _ _ _ => inv rs w'
  | _ => True
  end.
Proof.
  intros I Ht Hrun. destruct (inv_thread I _ _ Ht) as [Hf Hd].
  destruct p; try done; run_cbn.
  - assert (cl <> s) as Hcl.
    { intros ->. apply Forall_cons in Hf as [H1 [H2 _]%Forall_cons]. congruence. }
    clear Hf Hd. destruct (inv_charge_gone _ _ _ s I Ht) as (x & Hx & Hst); [cbn; set_solver..|].
    simplify_eq. step_inv I Ht s (@None pc).
  - destruct p; try done; cbn in Hd; subst.
    1: destruct (inv_busy _ _ _ s I Ht) as (x & Hx & Hst); [set_solver|].
    2: assert (cl <> s) as Hcl by
      (intros ->; apply Forall_cons in Hf as [H1 [H2 _]%Forall_cons]; congruence).
    all: clear Hf; try (destruct (inv_charge_gone _ _ _ s I Ht) as (x & Hx & Hst); [cbn; set_solver..|]).
    all: repeat case_match; simplify_eq; step_inv I Ht s (@None pc).
  - clear Hf Hd. destruct (inv_charge_gone _ _ _ s I Ht) as (x & Hx & Hst); [cbn; set_solver..|].
    case_match; simplify_eq; step_inv I Ht s (@None pc).
Qed.

Lemma inv_stop_timer {rs} w o : inv rs w -> inv rs (stop_timer w o).
Proof.
  intros I. destruct o as [t|]; simpl; [|done]. repeat case_match; try done.
  by eapply (inv_move _ _ _ _ I).
Qed.

Lemma fresh_key_spec {V} (m : gmap nat V) : m !! fresh_key m = None.
Proof. apply not_elem_of_dom. unfold fresh_key. apply is_fresh. Qed.

(** [stop_timer] only ends a timer. *)
Lemma stop_timer_frame w o t p :
  w_threads w !! t = Some p -> (forall key s, p <> PTimer key s) ->
  w_threads (stop_timer w o) !! t = Some p /\ w_slots (stop_timer w o) = w_slots w.
Proof.
  intros Ht Hp. destruct o as [t'|]; simpl; [|done]. repeat case_match; try done.
  simpl. rewrite lookup_insert_ne; [done|]. intros ->. naive_solver.
Qed.

Lemma inv_run_open {rs} w t p o w' :
  inv rs w -> w_threads w !! t = Some p -> run w t p o = Some w' ->
  match p with POpen _ _ _ => inv rs w' | _ => True end.
Proof.
  intros I Ht Hrun. destruct p; try done; run_cbn. unfold lookupOpen in Hrun.
  destruct (w_items w !! key) as [s|].
  - destruct (w_slots w !! s) as [x|] eqn:Hx; [|done]. cbn [mbind option_bind] in Hrun.
    destruct (s_state x) eqn:Hst; simplify_eq.
    + by apply (inv_move _ _ _ _ I Ht).
    + step_inv I Ht s (@None pc).
    + destruct (stop_timer_frame w (s_graceTimer x) _ _ Ht) as [Ht' Hsl]; [done|].
      apply (inv_stop_timer _ (s_graceTimer x)) in I. rewrite <- Hsl in Hx. clear Ht Hsl.
      revert I Ht' Hx. generalize (stop_timer w (s_graceTimer x)). clear w. intros w I Ht Hx.
      step_inv I Ht s (@None pc).
    + step_inv I Ht s (@None pc).
  - pose proof (fresh_key_spec (w_slots w)) as Hx. revert Hx Hrun.
    generalize (fresh_key (w_slots w)). intros s Hx Hrun. simplify_eq.
    step_inv I Ht s (@None pc).
Qed.

(** The world after [installCloser] put closer [cl] in the place of [s]. *)
Definition installed (w : world) (t : tid) (key : string) (s cl : sid) (lg : nat) (h : Hooks)
    (e : option rerr) (r : result) (x : slot) : world :=
  set_pc (set_items (set_slot (fresh_chan (unbind (set_slot
      (close_fin (set_slot w s (sl_state (sl_err x e) slotGone)) s) s
      (sl_finished (sl_state (sl_err x e) slotGone) false)) s)) cl (mkSlot (w_chan w) false lg))
      (<[key := cl]> (w_items w))) t (PCloseOld key s cl (s_ready x) lg h r).

Lemma inv_install {rs} w t key s cl lg h e r x :
  inv rs w -> w_threads w !! t = Some (PInstall key s lg h e r) ->
  w_slots w !! s = Some x -> s_state x = slotBusy -> s_finished x = true ->
  s <> cl -> w_slots w !! cl = None ->
  inv rs (installed w t key s cl lg h e r x).
Proof.
  intros I Ht Hx Hst Hfin Hne Hcl. assert (cl <> s) as Hne' by congruence.
  assert (Hn := inv_tid I _ (le_n _)).
  eapply (inv_update_gen _ _ _ _ _ None I Ht); [reflexivity|reflexivity|..]; unfold installed; wcbn.
  - intros s'. destruct (decide (s' = s)) as [->|Hs]; [right|destruct (decide (s' = cl)) as [->|Hc]; [right|left]].
    + split; [|step_phase I Ht s]. unfold slot_ok. rewrite lookup_insert_ne by done.
      destruct e; step_slot I Ht Hn s.
    + split; [|step_phase I Ht cl]. destruct e; step_slot I Ht Hn cl.
    + unfold same_at. destruct e; cbn; decides; rewrite !lookup_insert_ne by congruence; set_solver.
  - assert (phase_of (w_trace w) cl = PhNone).
    { pose proof (inv_slot I cl) as Hs. unfold slot_ok in Hs. rewrite Hcl in Hs. tauto. }
    step_thread I Ht s.
  - done.
  - intros ch. pose proof (inv_chan I ch). unfold chan_ok in *.
    rewrite (cnt_moved _ _ _ _ _ _ _ _ Ht Hn), made_fresh, insert_insert_eq.
    rewrite msum_insert_new by (by rewrite lookup_insert_ne).
    rewrite (msum_insert _ _ _ _ _ Hx), (guards_busy _ _ Hst), guards_busy, guards_idle by done.
    cbn [pends occ occo]; wcbn; lia.
  - step_panic I Ht.
Qed.

Lemma run_install {rs} w t key s lg h e r o w' :
  inv rs w -> w_threads w !! t = Some (PInstall key s lg h e r) ->
  run w t (PInstall key s lg h e r) o = Some w' ->
  exists cl x, w_slots w !! s = Some x /\ s_state x = slotBusy /\ s_finished x = true /\ s <> cl
    /\ w_slots w !! cl = None /\ w' = installed w t key s cl lg h e r x.
Proof.
  intros I Ht Hrun. run_cbn.
  destruct (inv_busy _ _ _ s I Ht) as (x & Hx & Hst); [set_solver|].
  rewrite Hx in Hrun. cbn [mbind option_bind] in Hrun. unfold installCloser in Hrun.
  assert (s_finished x = true) as Hfin.
  { pose proof (inv_slot I s) as Hs. pose proof (proj1 (inv_thread I _ _ Ht)) as Hf.
    apply Forall_cons in Hf as [Hf _]. unfold slot_ok in Hs. rewrite Hx, Hst in Hs.
    destruct_and?. real_incarnation. done. }
  unfold end_incarnation, closeFinished in Hrun. wcbn. rewrite Hfin in Hrun. wcbn. rewrite insert_insert_eq in Hrun.
  pose proof (fresh_key_spec (<[s:=sl_finished (sl_state (sl_err x e) slotGone) false]> (w_slots w))) as Hcl.
  revert Hcl Hrun. generalize (fresh_key (<[s:=sl_finished (sl_state (sl_err x e) slotGone) false]> (w_slots w))).
  intros cl Hcl Hrun. wcbn. simplify_eq.
  assert (s <> cl) as Hne by (intros ->; by rewrite lookup_insert_eq in Hcl).
  rewrite lookup_insert_ne in Hcl by done. by exists cl, x.
Qed.

Lemma inv_run_install {rs} w t p o w' :
  inv rs w -> w_threads w !! t = Some p -> run w t p o = Some w' ->
  match p with PInstall _ _ _ _ _ _ => inv rs w' | _ => True end.
Proof.
  intros I Ht Hrun. destruct p; try done.
  destruct (run_install _ _ _ _ _ _ _ _ o _ I Ht Hrun) as (cl & x & ? & ? & ? & ? & ? & ->). by apply inv_install.
Qed.

(** The key map, the aliases and the contexts are not part of the invariant. *)
Lemma inv_set_items {rs} w m : inv rs w -> inv rs (set_items w m).
Proof. intros []. by split. Qed.

Lemma inv_set_aliases {rs} w a : inv rs w -> inv rs (set_aliases w a).
Proof. intros []. by split. Qed.

Lemma inv_cancel {rs} w c : inv rs w -> inv rs (cancelCtx w c).
Proof. intros []. by split. Qed.

#[export] Hint Resolve inv_set_items inv_set_aliases inv_cancel inv_stop_timer : go.

Lemma inv_set_timer {rs} w s x o :
  inv rs w -> w_slots w !! s = Some x -> inv rs (set_slot w s (sl_timer x o)).
Proof.
  intros [Is It Ic Id Ip] Hx. split; wcbn; try done.
  - intros s'. specialize (Is s'). unfold slot_ok in *. destruct (decide (s' = s)) as [->|Hne].
    + rewrite lookup_insert_eq. rewrite Hx in Is. wcbn. done.
    + by rewrite lookup_insert_ne by congruence.
  - intros ch. specialize (Ic ch). unfold chan_ok in *. rewrite (msum_insert _ _ _ _ _ Hx).
    assert (guards ch (sl_timer x o) = guards ch x) as -> by done. lia.
Qed.

(** A goroutine that owns nothing starts. *)
Lemma inv_spawn {rs} w p :
  inv rs w -> charges p = [] -> helds p = [] -> wakers p = [] -> plains p = [] -> pends p = [] -> shape_ok rs p ->
  inv rs (spawn w p).
Proof.
  intros [Is It Ic Id Ip] Hc Hh Hw Hp Hpd Hd. assert (Hn := Id _ (le_n _)).
  split; wcbn; [ | | | |done].
  - intros s. specialize (Is s). unfold slot_ok in *. rewrite !cnt_spawn by done.
    assert (charged p = []) as -> by (unfold charged; by rewrite Hc).
    rewrite Hh, Hw, Hp. cbn [occ]. rewrite !Z.add_0_r. done.
  - intros t q Hq. destruct (decide (t = w_tid w)) as [->|Hne].
    + rewrite lookup_insert_eq in Hq. simplify_eq. split; [by rewrite Hc|exact Hd].
    + rewrite lookup_insert_ne in Hq by done. eauto.
  - intros ch. specialize (Ic ch). unfold chan_ok in *. rewrite cnt_spawn, Hpd by done. cbn. lia.
  - intros t Ht. rewrite lookup_insert_ne by lia. apply Id. lia.
Qed.

Lemma inv_stop_grace {rs} w item : inv rs w -> inv rs (stop_grace w item).
Proof.
  intros I. unfold stop_grace. repeat case_match; try done. apply inv_set_timer.
  - by apply inv_stop_timer.
  - unfold stop_timer. repeat case_match; done.
Qed.

(** What every step of a loop keeps, the loop keeps. *)
Lemma fold_left_keeps {A B} (P : A -> Prop) (f : A -> B -> A) l a :
  (forall a b, P a -> P (f a b)) -> P a -> P (fold_left f l a).
Proof. intros Hf. revert a. induction l; simpl; auto. Qed.

Lemma inv_takeAll {rs} w : inv rs w -> inv rs (fst (takeAll w)).
Proof.
  intros I. unfold takeAll. cbn [fst]. apply fold_left_keeps; [intros; by apply inv_stop_grace|].
  by apply inv_set_aliases, inv_set_items.
Qed.

Lemma takeAll_threads w t p :
  w_threads w !! t = Some p -> (forall key s, p <> PTimer key s) ->
  w_threads (fst (takeAll w)) !! t = Some p.
Proof.
  intros Ht Hp. unfold takeAll. cbn [fst].
  apply (fold_left_keeps (fun w => w_threads w !! t = Some p)); [|done].
  intros w' item Ht'. unfold stop_grace. repeat case_match; try done. wcbn. by apply stop_timer_frame.
Qed.

(** Every step of a goroutine keeps the invariant. *)
Lemma inv_run {rs} w t p o w' :
  inv rs w -> w_threads w !! t = Some p -> run w t p o = Some w' -> inv rs w'.
Proof.
  intros I Ht Hrun.
  pose proof (inv_run_owner w t p o w' I Ht Hrun). pose proof (inv_run_end w t p o w' I Ht Hrun).
  pose proof (inv_run_claim w t p o w' I Ht Hrun). pose proof (inv_run_park w t p o w' I Ht Hrun).
  pose proof (inv_run_bound w t p o w' I Ht Hrun). pose proof (inv_run_dispose w t p o w' I Ht Hrun).
  pose proof (inv_run_open w t p o w' I Ht Hrun). pose proof (inv_run_install w t p o w' I Ht Hrun).
  destruct p; try done; run_cbn.
  - destruct (bool_decide _); [|done]. destruct (w_slots w !! s); [|done]. cbn in Hrun.
    case_match; simplify_eq; by apply (inv_move _ _ _ _ I Ht).
  - case_match; simplify_eq. by apply (inv_move _ _ _ _ I Ht).
  - simplify_eq. by apply inv_close_ready.
  - simplify_eq. apply (inv_move (unbind w s) _ (PUnbind s r)); [by apply inv_set_aliases|done..].
  - simplify_eq. by apply (inv_move _ _ _ _ I Ht).
  - pose proof (inv_takeAll w I) as I'. pose proof (takeAll_threads w t _ Ht ltac:(done)) as Ht'.
    pose proof (proj2 (inv_thread I _ _ Ht)) as Hrs.
    destruct (takeAll w) as [w1 l]. simplify_eq. by apply (inv_move _ _ _ _ I' Ht').
Qed.

Lemma inv_step {rs} w l w' : inv rs w -> allowed rs l -> step w l = Some w' -> inv rs w'.
Proof.
  intros I Hal Hst. destruct l; cbn [step] in Hst; simplify_eq; auto with go.
  - by apply inv_spawn.
  - by apply inv_spawn.
  - destruct (w_threads w !! t) as [p|] eqn:Ht; [|done]. by eapply inv_run.
Qed.

Lemma inv_init {rs} grace : inv rs (NewTable grace).
Proof.
  split; cbn; try done.
Qed.

Lemma inv_reachable {rs} grace w : reachable rs grace w -> inv rs w.
Proof. induction 1; [apply inv_init|by eapply inv_step]. Qed.

(** A schedule of allowed labels stays reachable. *)
Lemma steps_reachable resets grace ls w w' :
  reachable resets grace w -> Forall (allowed resets) ls -> steps w ls = Some w' -> reachable resets grace w'.
Proof.
  revert w. induction ls as [|l ls IH]; intros w Hr Ha Hs; simpl in Hs; [by simplify_eq|].
  apply Forall_cons in Ha as [Ha1 Ha2]. destruct (step w l) as [w1|] eqn:E; [|done].
  eapply IH; [|done|done]. by eapply reach_step.
Qed.

(** Without Reset, a bound holder keeps its incarnation awake. *)
Lemma held_awake w t p s :
  inv false w -> w_threads w !! t = Some p -> s ∈ helds p ->
  exists x, w_slots w !! s = Some x /\ s_state x = slotAwake /\ 1 <= s_holders x
    /\ phase_of (w_trace w) s = PhAwake.
Proof.
  intros I Ht Hh%occ_elem_of.
  pose proof (inv_slot I s) as Hs. unfold slot_ok in Hs. pose proof (cnt_lookup helds _ _ _ s Ht).
  destruct (w_slots w !! s) as [x|]; [|lia]. exists x.
  destruct (s_state x); destruct_and?; try lia.
  split_and!; (done || lia).
Qed.
