(* ===== verification/ReclaimSafety.v ===== *)
(** * ReclaimSafety: what the reclaim table guarantees

    Consequences of the invariant of ReclaimInv.v for every schedule of the
    table, and schedules that show two races of the code. *)

From S2P Require Import Prelude.
From S2P Require Import ReclaimAlias.
From S2P Require Import Reclaim.
From S2P Require Import ReclaimInv.
From Stdlib Require Import ZArith Lia List String.
From stdpp Require Import base list strings option gmap.

Open Scope Z_scope.

(** ** Reading the trace *)

(** How often Close was called on incarnation [s]. *)
Fixpoint closes (tr : list (sid * event)) (s : sid) : nat :=
  match tr with
  | [] => 0
  | (s', e) :: tr =>
      (if decide (s' = s) then match e with EClose => 1 | _ => 0 end else 0) + closes tr s
  end%nat.

(** On the lifecycle automaton, Close is called once, on the way into
    [PhClosing]. *)
Lemma closes_phase tr s :
  match phase_of tr s with
  | PhBad => True
  | PhClosing | PhClosed | PhDisposed => closes tr s = 1%nat
  | _ => closes tr s = 0%nat
  end.
Proof.
  induction tr as [|[s' e] tr IH]; simpl; [done|].
  destruct (decide (s' = s)) as [->|Hne]; [|done].
  destruct (phase_of tr s), e; simpl in *; repeat case_match; simpl; try lia; done.
Qed.

(** Somebody in charge, or a slot at rest: the phase is never the error
    state. *)
Lemma inv_phase rs w s : inv rs w -> phase_of (w_trace w) s <> PhBad.
Proof.
  intros I Hbad. pose proof (inv_slot I s) as Hs. unfold slot_ok in Hs. rewrite Hbad in Hs.
  assert (0 < cnt charged (w_threads w) s) as Hp.
  { pose proof (cnt_nonneg charged (w_threads w) s).
    destruct (w_slots w !! s) as [x|]; [destruct (s_state x)|]; destruct_and?; try lia; try done.
    destruct (decide (cnt charged (w_threads w) s = 0)); [naive_solver|lia]. }
  apply msum_pos in Hp as (t & p & Ht & Ho); [|intros; apply occ_nonneg].
  apply occ_elem_of in Ho. unfold charged in Ho. apply list_elem_of_fmap in Ho as ([s' ph] & -> & Hin).
  pose proof (proj1 (inv_thread I _ _ Ht)) as Hf. rewrite Forall_forall in Hf.
  specialize (Hf _ Hin). simpl in Hf, Hbad. rewrite Hbad in Hf. subst ph.
  destruct p; simpl in Hin; repeat (case_match; simpl in Hin); set_solver.
Qed.

(** ** Guarantees *)

(** C1: in every schedule, with Reset or without, the hooks and log lines of
    every incarnation follow the documented lifecycle: create once, Wake only
    asleep, Sleep only awake, Close only after Sleep returned or a hook
    panicked, orphan only after Sleep returned and dispose only after Close
    returned; and Close is called at most once. *)
Theorem lifecycle_followed resets grace w s :
  reachable resets grace w ->
  phase_of (w_trace w) s <> PhBad /\ (closes (w_trace w) s <= 1)%nat.
Proof.
  intros Hr. pose proof (inv_phase _ _ s (inv_reachable _ _ Hr)) as Hb. split; [done|].
  pose proof (closes_phase (w_trace w) s). destruct (phase_of (w_trace w) s); lia || done.
Qed.

(** No schedule closes a ready or finished channel twice, so the table
    never panics on a close. *)
Theorem no_double_close resets grace w : reachable resets grace w -> w_panic w = false.
Proof. intros Hr. apply (inv_panic (inv_reachable _ _ Hr)). Qed.

(** C2: without Reset, while a holder is bound (Open is returning the value or
    has returned it, and the drop has not released it) its incarnation is
    awake, counted as held, and not slept or closed. *)
Theorem held_value_awake grace w t p s :
  reachable false grace w -> w_threads w !! t = Some p -> s ∈ helds p ->
  exists x, w_slots w !! s = Some x /\ s_state x = slotAwake /\ 1 <= s_holders x
    /\ phase_of (w_trace w) s = PhAwake.
Proof.
  intros Hr Ht Hh. eapply held_awake; [by eapply inv_reachable|done..].
Qed.

(** ** Schedules *)

Definition demo_ctx (i : nat) : ctx := {| c_id := i; c_hasDone := true |}.
Definition allHooks : Hooks := {| h_Sleep := true; h_Wake := true; h_Close := true; h_Enforce := false |}.
Definition go (t : tid) : label := LRun t OReturn.
Definition create_ok (t : tid) : label := LRun t (OCreate (APtr (Some 7%nat)) allHooks).

(** Goroutine 0 opens key k and creates; its holder is goroutine 1.  Goroutine
    2 binds to it; its holder is goroutine 3. *)
Definition sched_two_holders : list label :=
  [LOpen (demo_ctx 0) "k" 0; go 0; create_ok 0; go 0; go 0;
   LOpen (demo_ctx 1) "k" 0; go 2; go 2].

(** Both contexts end; both drops release before either claims; the first claim
    takes the slot, the second finds it busy. *)
Definition sched_drop_park : list label :=
  sched_two_holders ++ [LCancel 0; LCancel 1; go 1; go 3; go 1; go 3; go 1; go 3].

(** A sleep whose timer has fired ([go 2]) is reclaimed by goroutine 3 and slept
    again by its holder, goroutine 4; timer 5 of the second sleep has not
    fired when the goroutine of the first one claims and closes the value. *)
Definition sched_stale_timer : list label :=
  [LOpen (demo_ctx 0) "k" 0; go 0; create_ok 0; go 0; go 0;
   LCancel 0; go 1; go 1; go 1; go 1; go 1; go 2;
   LOpen (demo_ctx 1) "k" 0; go 3; go 3; go 3; go 3;
   LCancel 1; go 4; go 4; go 4; go 4; go 4; go 2].

Lemma reach_schedule grace ls w : Forall (allowed false) ls -> steps (NewTable grace) ls = Some w -> reachable false grace w.
Proof. intros Ha Hs. by eapply steps_reachable; [apply reach_init|..]. Qed.

Lemma lifecycle_followed_witness :
  exists w, steps (NewTable 5) sched_stale_timer = Some w
    /\ phase_of (w_trace w) 0%nat <> PhBad /\ (closes (w_trace w) 0%nat <= 1)%nat.
Proof.
  eexists. split; [vm_compute; reflexivity|].
  apply (lifecycle_followed false 5), (reach_schedule 5 sched_stale_timer); [by repeat constructor|].
  vm_compute; reflexivity.
Defined.

Lemma no_double_close_witness :
  exists w, steps (NewTable 5) sched_stale_timer = Some w /\ w_panic w = false.
Proof.
  eexists. split; [vm_compute; reflexivity|].
  apply (no_double_close false 5), (reach_schedule 5 sched_stale_timer); [by repeat constructor|].
  vm_compute; reflexivity.
Defined.

Lemma held_value_awake_witness :
  exists w p, steps (NewTable 5) sched_two_holders = Some w /\ w_threads w !! 3%nat = Some p /\ 0%nat ∈ helds p
    /\ exists x, w_slots w !! 0%nat = Some x /\ s_state x = slotAwake /\ 1 <= s_holders x
       /\ phase_of (w_trace w) 0%nat = PhAwake.
Proof.
  eexists _, _. split; [vm_compute; reflexivity|]. split; [vm_compute; reflexivity|]. split; [by constructor|].
  eapply (held_value_awake 5 _ 3%nat).
  - apply (reach_schedule 5 sched_two_holders); [by repeat constructor|vm_compute; reflexivity].
  - vm_compute; reflexivity.
  - by constructor.
Defined.

(** A drop does wait on a busy slot: with two holders released before
    either claims, the second claim finds the first one's Sleep in flight and
    parks (the comment in claimDrop says no schedule gets there). *)
Theorem drop_park_reachable :
  exists w key s ch, reachable false 5 w
    /\ w_threads w !! 3%nat = Some (PParkDrop key s ch RVoid)
    /\ ch ∉ w_closed w.
Proof.
  destruct (steps (NewTable 5) sched_drop_park) as [w|] eqn:E; [|by vm_compute in E].
  exists w, "k"%string, 0%nat, 1%nat. split; [|split].
  - eapply steps_reachable; [apply reach_init| |exact E]. by repeat constructor.
  - revert E. vm_compute. intros E. by injection E as <-.
  - revert E. vm_compute. intros E. injection E as <-. intros Hin. discriminate Hin.
Qed.

(** A grace timer that fired before an Open reclaimed the value is not
    cancelled by it; its goroutine closes the value after the next Sleep while
    the timer of that sleep is still armed, before its grace has elapsed. *)
Theorem stale_timer_closes_early :
  exists w x, reachable false 5 w
    /\ w_slots w !! 0%nat = Some x /\ s_state x = slotGone
    /\ phase_of (w_trace w) 0%nat = PhClosing
    /\ s_graceTimer x = Some 5%nat /\ w_threads w !! 5%nat = Some (PTimer "k" 0%nat).
Proof.
  destruct (steps (NewTable 5) sched_stale_timer) as [w|] eqn:E; [|by vm_compute in E].
  destruct (w_slots w !! 0%nat) as [x|] eqn:Ex.
  - exists w, x. split; [|split; [done|]].
    + eapply steps_reachable; [apply reach_init| |exact E]. by repeat constructor.
    + revert E Ex. vm_compute. intros E. injection E as <-. intros Ex. by injection Ex as <-.
  - revert E Ex. vm_compute. intros E. by injection E as <-.
Qed.
