(* ===== verification/ReclaimLive.v ===== *)
(** * ReclaimLive: a goroutine parked on a slot is released

    Every channel an Open or a drop waits on has an owner: a goroutine that can
    always take its next step, and that closes the channel within four of its
    own steps, whatever the other goroutines and the hooks do in between. *)

From S2P Require Import Prelude.
From S2P Require Import ReclaimAlias.
From S2P Require Import Reclaim.
From S2P Require Import ReclaimInv.
From Stdlib Require Import ZArith Lia List String.
From stdpp Require Import base list strings option gmap.

Open Scope Z_scope.

(** ** References are never dangling *)

(** The slots a goroutine looks up, now or in its continuation. *)
Fixpoint refs (p : pc) : list sid :=
  match p with
  | PPark _ _ _ s _ | PCreate _ _ _ s | PPut _ _ _ s _ _ | PFailed _ s _ | PWake _ _ _ s _ _
  | PWoken _ _ _ s _ | PBound _ _ s _ | PFinishedAtBind _ _ s _ | PDrop _ s _ | PClaim _ s _
  | PParkDrop _ s _ _ | PSleep _ s _ _ _ _ | PParkAsleep _ s _ _ _ | PExpire _ s _
  | PEndBusy _ s _ _ _ _ | PInstall _ s _ _ _ _ | PUnmap _ s _ | PUnmapCloser _ s _
  | PUnbind s _ | PAfter _ _ s | PWatch _ _ s | PWatchErr _ _ s | PTimer _ s => [s]
  | PCloseOld _ s cl _ _ _ _ => [s; cl]
  | PDispose _ s _ _ k => s :: refs k
  | PResetLoop l => map snd l
  | PResetSleep _ s _ _ l => s :: map snd l
  | POpen _ _ _ | PCloseReady _ _ | PReset | PRet _ => []
  end.

(** The channel a goroutine is parked on. *)
Definition waits (p : pc) : option chan :=
  match p with PPark _ _ _ _ ch | PParkDrop _ _ ch _ => Some ch | _ => None end.

Definition pc_wf (sl : gset sid) (n : chan) (p : pc) : Prop :=
  (forall s, s ∈ refs p -> s ∈ sl) /\ (forall ch, waits p = Some ch -> (ch < n)%nat).

Record wf (w : world) : Prop := {
  wf_items : forall k s, w_items w !! k = Some s -> s ∈ dom (w_slots w);
  wf_pc : forall t p, w_threads w !! t = Some p -> pc_wf (dom (w_slots w)) (w_chan w) p;
}.

Arguments wf_items {w} _ k s.
Arguments wf_pc {w} _ t p.

Lemma wf_update w w' t q r :
  wf w -> w_threads w' = moved (w_threads w) t q (w_tid w) r ->
  dom (w_slots w) ⊆ dom (w_slots w') -> (w_chan w <= w_chan w')%nat ->
  (forall k s, w_items w' !! k = Some s -> w_items w !! k = Some s \/ s ∈ dom (w_slots w')) ->
  pc_wf (dom (w_slots w')) (w_chan w') q ->
  (match r with Some r => pc_wf (dom (w_slots w')) (w_chan w') r | None => True end) ->
  wf w'.
Proof.
  intros W Hth Hd Hc Hi Hq Hr. split.
  - intros k s [Hk|Hk]%Hi; [|done]. apply Hd, (wf_items W _ _ Hk).
  - intros t' p Hp. rewrite Hth in Hp.
    assert (Hold : w_threads w !! t' = Some p -> pc_wf (dom (w_slots w')) (w_chan w') p).
    { intros Ho. destruct (wf_pc W _ _ Ho) as [H1 H2]. split; [set_solver|].
      intros ch Hch. specialize (H2 ch Hch). lia. }
    destruct r as [r|]; simpl in Hp; rewrite !lookup_insert_Some in Hp; naive_solver.
Qed.

Lemma wf_move w t q : wf w -> pc_wf (dom (w_slots w)) (w_chan w) q -> wf (set_pc w t q).
Proof. intros W Hq. eapply (wf_update w _ t q None W); wcbn; eauto. Qed.

Ltac step_wf W t r :=
  let H := fresh in
  eapply (wf_update _ _ t _ r W); wcbn;
  [ reflexivity
  | rewrite ?dom_insert; set_solver
  | lia
  | intros ? ? H; rewrite ?dom_insert;
    repeat (case_bool_decide; try rewrite lookup_delete_Some in H);
    rewrite ?lookup_insert_Some in H; set_solver
  | split; [cbn [refs map snd]; rewrite ?dom_insert; set_solver | cbn [waits]; intros; simplify_eq; lia]
  | first [exact Logic.I
          | split; [cbn [refs map snd]; rewrite ?dom_insert; set_solver | cbn [waits]; intros; simplify_eq; lia]] ].

Lemma wf_stop_timer w o : wf w -> wf (stop_timer w o).
Proof.
  intros W. destruct o as [t|]; simpl; [|done]. repeat case_match; try done.
  apply wf_move; [done|]. by split; [set_solver|].
Qed.

Lemma stop_timer_fields w o :
  w_slots (stop_timer w o) = w_slots w /\ w_chan (stop_timer w o) = w_chan w
  /\ w_items (stop_timer w o) = w_items w /\ w_closed (stop_timer w o) = w_closed w.
Proof. destruct o as [t|]; simpl; [|done]. by repeat case_match. Qed.

Lemma wf_lookupOpen rs w t c key lg w' :
  inv rs w -> wf w -> lookupOpen w t c key lg = Some w' -> wf w'.
Proof.
  intros I W Hrun. unfold lookupOpen in Hrun.
  destruct (w_items w !! key) as [s|] eqn:Hk; [|simplify_eq; step_wf W t (@None pc)].
  pose proof (wf_items W _ _ Hk) as Hs.
  destruct (w_slots w !! s) as [x|] eqn:Hx; [|done]. cbn [mbind option_bind] in Hrun.
  destruct (s_state x) eqn:Hst; simplify_eq.
  - pose proof (inv_guard_open _ _ _ I Hx Hst). step_wf W t (@None pc).
  - step_wf W t (@None pc).
  - destruct (stop_timer_fields w (s_graceTimer x)) as (E & _ & _ & _).
    apply (wf_stop_timer _ (s_graceTimer x)) in W. rewrite <- E in Hs. clear E.
    revert W Hs. generalize (stop_timer w (s_graceTimer x)). intros w1 W Hs. step_wf W t (@None pc).
  - step_wf W t (@None pc).
Qed.

Lemma wf_takeAll w : wf w ->
  wf (fst (takeAll w)) /\ dom (w_slots (fst (takeAll w))) = dom (w_slots w).
Proof.
  intros W. unfold takeAll. cbn [fst].
  apply (fold_left_keeps (fun w' => wf w' /\ dom (w_slots w') = dom (w_slots w))).
  - intros w' item [W' Hd]. unfold stop_grace.
    destruct (w_slots w' !! item.2) as [x|] eqn:Hx; [|done]. destruct (s_graceTimer x) as [t|]; [|done].
    destruct (stop_timer_fields w' (Some t)) as (E1 & E2 & E3 & _).
    pose proof (wf_stop_timer w' (Some t) W') as [Wi Wp].
    assert (item.2 ∈ dom (w_slots w')) by (apply elem_of_dom; eauto).
    assert (dom (<[item.2:=sl_timer x None]> (w_slots w')) = dom (w_slots w')) as Ed.
    { rewrite dom_insert_L. set_solver. }
    split; [|wcbn; rewrite E1; set_solver].
    split; wcbn; rewrite E1 in *; rewrite Ed; [exact Wi|exact Wp].
  - split; [|done]. destruct W as [Wi Wp]. split; wcbn; [done|exact Wp].
Qed.

Lemma wf_run rs w t p o w' :
  inv rs w -> wf w -> w_threads w !! t = Some p -> run w t p o = Some w' ->
  match p with PReset => True | _ => wf w' end.
Proof.
  intros I W Ht Hrun. pose proof (wf_pc W _ _ Ht) as [Hrefs _]. pose proof (proj2 (inv_thread I _ _ Ht)) as Hd.
  destruct p; run_cbn; try done; try (by eapply wf_lookupOpen).
  all: try match goal with l : list (string * sid) |- _ => destruct l as [|[key s] l] end.
  all: try match type of Ht with context [PDispose _ _ _ _ ?k] => destruct k; try done end.
  all: cbn [refs map snd] in *.
  all: try (match type of Hrun with context [w_slots ?w !! ?s] => destruct (w_slots w !! s) as [x|] eqn:Hx end;
            cbn [mbind option_bind] in Hrun; [|try done]).
  all: unfold claimDrop, claimExpire, endResetSlot, parkAsleep, installCloser, endBusySlot, unmapLocked,
    end_incarnation, closeFinished, after_panic in *.
  all: repeat case_match; simplify_eq.
  all: try match goal with Hx : w_slots _ !! _ = Some ?x, Hb : s_state ?x = slotBusy |- _ =>
    pose proof (inv_guard_open _ _ _ I Hx Hb) end.
  all: match goal with |- context [spawn _ ?r] => step_wf W t (Some r) | _ => step_wf W t (@None pc) end.
Qed.

Lemma wf_step rs w l w' : inv rs w -> wf w -> step w l = Some w' -> wf w'.
Proof.
  intros I W Hs. destruct l; cbn [step] in Hs; simplify_eq; try (destruct W; by split).
  - by apply (wf_update w _ (w_tid w) (POpen c key lg) None W); wcbn; auto; split; set_solver.
  - by apply (wf_update w _ (w_tid w) PReset None W); wcbn; auto; split; set_solver.
  - destruct (w_threads w !! t) as [p|] eqn:Ht; [|done]. cbn in Hs.
    pose proof (wf_run rs w t p o w' I W Ht Hs). destruct p; try done. clear H. run_cbn.
    destruct (wf_takeAll w W) as [W' Hd].
    assert (forall k s, (k, s) ∈ (takeAll w).2 -> s ∈ dom (w_slots w)) as Hl.
    { intros k s Hin%elem_of_map_to_list. by eapply (wf_items W). }
    destruct (takeAll w) as [w1 l]. simplify_eq. apply wf_move; [done|]. split; [|done].
    cbn [refs]. intros s ([k ?] & -> & Hin)%list_elem_of_fmap. cbn [fst snd] in *. rewrite Hd. eauto.
Qed.

Lemma wf_reachable rs grace w : reachable rs grace w -> inv rs w /\ wf w.
Proof.
  induction 1 as [|w l w' ? [I W] Ha Hs]; [split; [apply inv_init|by split]|].
  split; [by eapply inv_step|by eapply wf_step].
Qed.

(** ** Owners of channels *)

(** How many of its own steps the owner of a busy slot needs at most before
    the slot's ready channel is closed. *)
Definition rank (p : pc) : nat :=
  match p with
  | PPut _ _ _ _ _ _ | PFailed _ _ _ | PWoken _ _ _ _ _ | PParkAsleep _ _ _ _ _ | PEndBusy _ _ _ _ _ _ => 1
  | PCreate _ _ _ _ | PInstall _ _ _ _ _ _ | PUnmap _ _ _ | PUnmapCloser _ _ _ => 2
  | PWake _ _ _ _ _ _ | PDispose _ _ _ _ _ => 3
  | _ => 4
  end.

(** Goroutine at [p] will close [ch] within [n] of its steps. *)
Definition owns_pc (sl : gmap sid slot) (p : pc) (ch : chan) (n : nat) : Prop :=
  (ch ∈ pends p /\ (1 <= n)%nat)
  \/ exists s x, s ∈ busies p /\ sl !! s = Some x /\ s_ready x = ch /\ (rank p <= n)%nat.

Definition owns (w : world) (t : tid) (ch : chan) (n : nat) : Prop :=
  exists p, w_threads w !! t = Some p /\ owns_pc (w_slots w) p ch n.

(** A channel that was made and is not closed has an owner. *)
Lemma open_chan_owned rs w ch :
  inv rs w -> (ch < w_chan w)%nat -> ch ∉ w_closed w -> exists t, owns w t ch 4.
Proof.
  intros I Hlt Hcl. pose proof (inv_chan I ch) as Hc. unfold chan_ok in Hc.
  rewrite decide_False, decide_True in Hc by done.
  pose proof (cnt_nonneg pends (w_threads w) ch).
  destruct (decide (0 < cnt pends (w_threads w) ch)) as [Hp|Hp].
  - apply msum_pos in Hp as (t & p & Ht & Ho); [|intros; apply occ_nonneg].
    exists t, p. split; [done|]. left. split; [by apply occ_elem_of|lia].
  - assert (0 < msum (guards ch) (w_slots w)) as Hg by lia.
    apply msum_pos in Hg as (s & x & Hx & Hg); [|apply guards_nonneg].
    unfold guards in Hg. case_decide as Hb; [|lia]. destruct Hb as [Hb Hr].
    destruct (busy_owner _ _ _ I Hx Hb) as (t & p & Ht & Hs).
    exists t, p. split; [done|]. right. exists s, x. split_and!; try done. destruct p; simpl; lia.
Qed.

(** What a step of one goroutine leaves alone: the other goroutines (a timer
    apart), closed channels, and the ready channel of a busy slot it does not
    own. *)
Definition keeps (w w' : world) (t : tid) (p : pc) : Prop :=
  (forall t' q, t' <> t -> w_threads w !! t' = Some q -> (forall key s, q <> PTimer key s) ->
     w_threads w' !! t' = Some q)
  /\ w_closed w ⊆ w_closed w'
  /\ (forall s x, w_slots w !! s = Some x -> s_state x = slotBusy -> s ∉ busies p ->
        exists x', w_slots w' !! s = Some x' /\ s_ready x' = s_ready x).

Ltac step_keeps Hn :=
  split_and!;
  [ intros; wcbn; rewrite ?lookup_insert_ne by congruence;
    first [done | rewrite lookup_insert_ne; [done|congruence]]
  | wcbn; set_solver
  | let s0 := fresh "s0" in let x0 := fresh "x0" in
    intros s0 x0 ? ? ?; wcbn;
    repeat match goal with
    | |- context [<[?s1:=_]> _ !! s0] =>
        destruct (decide (s1 = s0)); [subst; rewrite ?lookup_insert_eq|rewrite lookup_insert_ne by done]
    end;
    simplify_eq; wcbn; first [ by eauto | congruence | set_solver
                            | rewrite ?lookup_insert_None in *; naive_solver ] ].

Lemma keeps_lookupOpen rs w t c key lg w' :
  inv rs w -> lookupOpen w t c key lg = Some w' -> keeps w w' t (POpen c key lg).
Proof.
  intros I Hrun. assert (Hn := inv_tid I _ (le_n _)). unfold lookupOpen in Hrun.
  destruct (w_items w !! key) as [s|] eqn:Hk.
  - destruct (w_slots w !! s) as [x|] eqn:Hx; [|done]. cbn [mbind option_bind] in Hrun.
    destruct (s_state x) eqn:Hst; simplify_eq; [step_keeps Hn|step_keeps Hn| |step_keeps Hn].
    destruct (stop_timer_fields w (s_graceTimer x)) as (E1 & _ & _ & E4).
    split_and!; wcbn.
    + intros t' q Hne Hq Hp. rewrite lookup_insert_ne by done. by apply stop_timer_frame.
    + by rewrite E4.
    + intros s0 x0 Hx0 Hb _. rewrite E1, lookup_insert_ne by congruence. eauto.
  - pose proof (fresh_key_spec (w_slots w)) as Hf. simplify_eq. step_keeps Hn.
Qed.

Lemma keeps_run rs w t p o w' :
  inv rs w -> w_threads w !! t = Some p -> run w t p o = Some w' ->
  match p with PReset => True | _ => keeps w w' t p end.
Proof.
  intros I Ht Hrun. assert (Hn := inv_tid I _ (le_n _)). pose proof (proj2 (inv_thread I _ _ Ht)) as Hd.
  destruct p; run_cbn; try done; try (by eapply keeps_lookupOpen).
  all: try match goal with l : list (string * sid) |- _ => destruct l as [|[key s] l] end.
  all: try (match type of Hrun with context [w_slots ?w !! ?s] => destruct (w_slots w !! s) as [x|] eqn:Hx end;
            cbn [mbind option_bind] in Hrun; [|try done]).
  all: unfold claimDrop, claimExpire, endResetSlot, parkAsleep, installCloser, endBusySlot, unmapLocked,
    end_incarnation, closeFinished, after_panic in *.
  all: repeat case_match; simplify_eq.
  all: try match goal with H : bool_decide _ && _ = true |- _ => apply andb_true_iff in H as [H%bool_decide_eq_true _] end.
  all: try match goal with |- context [fresh_key ?m] =>
    pose proof (fresh_key_spec m) as Hf; revert Hf; generalize (fresh_key m); intros cl Hf; wcbn end.
  all: step_keeps Hn.
Qed.

Lemma keeps_reset w t o w' : run w t PReset o = Some w' -> keeps w w' t PReset.
Proof.
  intros Hrun. run_cbn.
  assert (forall t' q, t' <> t -> w_threads w !! t' = Some q -> (forall key s, q <> PTimer key s) ->
    w_threads (fst (takeAll w)) !! t' = Some q) as K1 by (intros; by apply takeAll_threads).
  assert (w_closed (fst (takeAll w)) = w_closed w /\ forall s x, w_slots w !! s = Some x ->
    exists x', w_slots (fst (takeAll w)) !! s = Some x' /\ s_ready x' = s_ready x) as [K2 K3].
  { unfold takeAll. cbn [fst]. apply (fold_left_keeps (fun w' => w_closed w' = w_closed w /\
      forall s x, w_slots w !! s = Some x -> exists x', w_slots w' !! s = Some x' /\ s_ready x' = s_ready x));
      [|split; [done|eauto]].
    intros w1 [k s1] [H1 H2]. unfold stop_grace. cbn [snd].
    destruct (w_slots w1 !! s1) as [x1|] eqn:Hx1; [|done]. destruct (s_graceTimer x1) as [t1|]; [|done].
    destruct (stop_timer_fields w1 (Some t1)) as (E1 & _ & _ & E4). wcbn. rewrite E1, E4. split; [done|].
    intros s x Hx. destruct (H2 _ _ Hx) as (x' & Hx' & Hr). destruct (decide (s1 = s)) as [->|Hne].
    - rewrite lookup_insert_eq. simplify_eq. eauto.
    - rewrite lookup_insert_ne by done. eauto. }
  destruct (takeAll w) as [w1 l]. cbn [fst] in *. simplify_eq. split_and!; wcbn.
  - intros t' q Hne Hq Hp. rewrite lookup_insert_ne by done. by apply K1.
  - by rewrite K2.
  - intros s x Hx _ _. by apply K3.
Qed.

(** Another label, or a step of another goroutine, does not end ownership. *)
Lemma owns_other rs w l w' t ch n :
  inv rs w -> step w l = Some w' -> (forall o, l <> LRun t o) -> owns w t ch n -> owns w' t ch n.
Proof.
  intros I Hs Hl (p & Ht & Ho). pose proof (inv_tid I _ (le_n _)) as Hn.
  destruct l; cbn [step] in Hs; simplify_eq; try (by exists p).
  - exists p. split; [|done]. wcbn. rewrite lookup_insert_ne; [done|congruence].
  - exists p. split; [|done]. wcbn. rewrite lookup_insert_ne; [done|congruence].
  - destruct (w_threads w !! t0) as [q|] eqn:Hq; [|done]. cbn in Hs.
    assert (t <> t0) by naive_solver.
    assert (forall key s, p <> PTimer key s) as Hp.
    { intros key s ->. destruct Ho as [[Ho _]|(? & ? & Ho & _)]; inversion Ho. }
    assert (keeps w w' t0 q) as (K1 & K2 & K3).
    { pose proof (keeps_run _ _ _ _ _ _ I Hq Hs) as K. destruct q; try done. clear K. by eapply keeps_reset. }
    exists p. split; [by apply K1|]. destruct Ho as [?|(s & x & Hb & Hx & Hr & Hk)]; [by left|right].
    destruct (inv_busy _ _ _ s I Ht Hb) as (x1 & Hx1 & Hst). simplify_eq.
    destruct (K3 _ _ Hx Hst) as (x' & Hx' & <-); [|eauto 6].
    intros Hbq. apply (busies_charged p s (proj2 (inv_thread I _ _ Ht))), occ_elem_of in Hb.
    by pose proof (busy_owner_unique _ _ _ _ _ s I Ht Hq Hb Hbq).
Qed.

(** The owner's own step closes the channel or brings it closer to. *)
Lemma owner_run rs w t p o w' ch n :
  inv rs w -> w_threads w !! t = Some p -> run w t p o = Some w' ->
  owns_pc (w_slots w) p ch (S n) -> ch ∈ w_closed w' \/ owns w' t ch n.
Proof.
  intros I Ht Hrun Ho. pose proof (proj2 (inv_thread I _ _ Ht)) as Hd.
  destruct Ho as [[Ho Hn]|(s & x & Hb & Hx & <- & Hk)].
  - destruct p; simpl in Ho; try (by inversion Ho); apply list_elem_of_singleton in Ho as ->;
      run_cbn; simplify_eq; left; wcbn; set_solver.
  - destruct p; simpl in Hb; repeat (case_match; simpl in Hb); try (by inversion Hb);
      apply list_elem_of_singleton in Hb as ->; run_cbn; rewrite ?Hx in Hrun;
      cbn [mbind option_bind] in Hrun; unfold after_panic, installCloser, parkAsleep in Hrun;
      repeat case_match; simplify_eq;
      unfold publishPut, publishWake, endBusySlot, unmapLocked, end_incarnation, closeFinished;
      repeat case_match.
    all: try (left; wcbn; set_solver).
    all: right; eexists; (split; [wcbn; apply lookup_insert_eq|]).
    all: try (right; eexists _, _; split_and!; [by constructor|wcbn; eassumption|done|simpl in *; lia]).
    all: try (left; split; [set_solver|simpl in *; lia]).
Qed.

(** The owner can always take its next step. *)
Lemma owner_enabled w t ch n : owns w t ch n -> exists o w', step w (LRun t o) = Some w'.
Proof.
  intros (p & Ht & Ho). cbn [step]. rewrite Ht. cbn [mbind option_bind].
  destruct Ho as [[Ho _]|(s & x & Hb & Hx & _ & _)].
  { destruct p; try (by inversion Ho); exists OReturn; run_cbn; eauto. }
  exists (match p with PCreate _ _ _ _ => OPanic | _ => OReturn end).
  destruct p; simpl in Hb; repeat (case_match; simpl in Hb); try (by inversion Hb); run_cbn.
  all: try (apply list_elem_of_singleton in Hb; subst); rewrite ?Hx; cbn; eauto.
  all: repeat case_match; eauto.
Qed.

(** How many steps of goroutine [t] a schedule has. *)
Definition own_step (t : tid) (l : label) : nat :=
  match l with LRun t' _ => if decide (t' = t) then 1 else 0 | _ => 0 end.

Fixpoint own_steps (t : tid) (ls : list label) : nat :=
  match ls with [] => 0 | l :: ls => own_step t l + own_steps t ls end.

Lemma steps_closed rs w ls w' ch :
  inv rs w -> Forall (allowed rs) ls -> steps w ls = Some w' -> ch ∈ w_closed w -> ch ∈ w_closed w'.
Proof.
  revert w. induction ls as [|l ls IH]; intros w I Ha Hs Hc; simpl in Hs; [by simplify_eq|].
  apply Forall_cons in Ha as [Ha1 Ha2]. destruct (step w l) as [w1|] eqn:E; [|done].
  apply (IH w1); [by eapply inv_step|done|done|].
  destruct l; cbn [step] in E; simplify_eq; try done.
  destruct (w_threads w !! t) as [q|] eqn:Hq; [|done]. cbn in E.
  assert (keeps w w1 t q) as (_ & K & _); [|by apply K].
  pose proof (keeps_run _ _ _ _ _ _ I Hq E) as K. destruct q; try done. clear K. by eapply keeps_reset.
Qed.

Lemma owns_pos w t ch n : owns w t ch n -> (1 <= n)%nat.
Proof.
  intros (p & _ & [[_ ?]|(s & x & Hb & _ & _ & Hk)]); [lia|].
  destruct p; simpl in *; try lia; by inversion Hb.
Qed.

Lemma owns_steps rs w ls w' t ch n :
  inv rs w -> Forall (allowed rs) ls -> steps w ls = Some w' -> owns w t ch n ->
  ch ∈ w_closed w' \/ exists m, (own_steps t ls + m <= n)%nat /\ owns w' t ch m.
Proof.
  revert w n. induction ls as [|l ls IH]; intros w n I Ha Hs Ho; simpl in Hs.
  - simplify_eq. right. exists n. done.
  - apply Forall_cons in Ha as [Ha1 Ha2]. destruct (step w l) as [w1|] eqn:E; [|done]. cbn in Hs.
    assert (I1 : inv rs w1) by (by eapply inv_step).
    assert (ch ∈ w_closed w1 \/ exists m, (own_step t l + m <= n)%nat /\ owns w1 t ch m) as [Hc|(m & Hm & Ho1)].
    { pose proof (owns_pos _ _ _ _ Ho) as Hn. destruct (decide (own_step t l = 0%nat)) as [H0|H1].
      - right. exists n. split; [lia|]. apply (owns_other rs w l w1 t ch n I E); [|exact Ho].
        intros o ->. simpl in H0. by rewrite decide_True in H0.
      - destruct l; simpl in H1; try lia. case_decide; [subst|lia]. destruct Ho as (p & Ht & Ho).
        cbn [step] in E. rewrite Ht in E. cbn in E. destruct n as [|n]; [lia|].
        destruct (owner_run _ _ _ _ _ _ _ _ I Ht E Ho); [by left|right; exists n].
        simpl. rewrite decide_True by done. split; [lia|done]. }
    + left. by eapply steps_closed.
    + destruct (IH w1 m I1 Ha2 Hs Ho1) as [?|(m' & ? & ?)]; [by left|right].
      exists m'. simpl. split; [lia|done].
Qed.

(** ** The guarantee *)

(** C17: a goroutine that waits on a slot (an Open or a drop) always has an
    owner of that channel: along every schedule the channel is closed, or the
    owner has taken fewer than four steps since and can take its next one.  So
    no set of goroutines deadlocks and a waiter is released after at most four
    steps of one goroutine, however hooks end. *)
Theorem parked_is_released resets grace w t p ch :
  reachable resets grace w -> w_threads w !! t = Some p -> waits p = Some ch ->
  ch ∈ w_closed w \/
  exists owner, owner <> t /\ forall ls w', Forall (allowed resets) ls -> steps w ls = Some w' ->
    ch ∈ w_closed w' \/
    (own_steps owner ls < 4)%nat /\ exists o w'', step w' (LRun owner o) = Some w''.
Proof.
  intros Hr Ht Hw. destruct (decide (ch ∈ w_closed w)) as [|Hc]; [by left|right].
  destruct (wf_reachable _ _ _ Hr) as [I W]. pose proof (proj2 (wf_pc W _ _ Ht) _ Hw) as Hlt.
  destruct (open_chan_owned _ _ _ I Hlt Hc) as (owner & Ho). exists owner. split.
  - intros ->. destruct Ho as (q & Hq & Ho). simplify_eq.
    destruct p; try done; destruct Ho as [[Ho _]|(? & ? & Ho & _)]; inversion Ho.
  - intros ls w' Ha Hs. destruct (owns_steps _ _ _ _ _ _ _ I Ha Hs Ho) as [?|(m & Hm & Hom)]; [by left|right].
    pose proof (owns_pos _ _ _ _ Hom). split; [lia|]. by eapply owner_enabled.
Qed.

(** An Open that meets a key whose create is in flight. *)
Definition sched_park : list label :=
  [LOpen {| c_id := 0; c_hasDone := true |} "k" 0; LRun 0 OReturn;
   LOpen {| c_id := 1; c_hasDone := true |} "k" 0; LRun 1 OReturn].

Lemma parked_is_released_witness :
  exists w p, steps (NewTable 5) sched_park = Some w /\ w_threads w !! 1%nat = Some p /\ waits p = Some 0%nat
    /\ (0%nat ∈ w_closed w \/
    exists owner, owner <> 1%nat /\ forall ls w', Forall (allowed false) ls -> steps w ls = Some w' ->
      0%nat ∈ w_closed w' \/
      (own_steps owner ls < 4)%nat /\ exists o w'', step w' (LRun owner o) = Some w'').
Proof.
  eexists _, _. split; [vm_compute; reflexivity|]. split; [vm_compute; reflexivity|]. split; [reflexivity|].
  eapply (parked_is_released false 5).
  - eapply (steps_reachable false 5 sched_park); [apply reach_init|by repeat constructor|vm_compute; reflexivity].
  - vm_compute; reflexivity.
  - reflexivity.
Defined.
