(* ===== verification/ReclaimKeys.v ===== *)
(** * ReclaimKeys: one live incarnation per key

    Without Reset, the key map always points at the one incarnation of a key
    that is being created, is awake, or is changing state; with
    EnforceCloseBeforeOpen it also does while Close runs, so no Open of the key
    gets past it. *)

From S2P Require Import Prelude.
From S2P Require Import ReclaimAlias.
From S2P Require Import Reclaim.
From S2P Require Import ReclaimInv.
From S2P Require Import ReclaimSafety.
From Stdlib Require Import ZArith Lia List String.
From stdpp Require Import base list strings option gmap.

Open Scope Z_scope.

(** The key a goroutine uses for an incarnation it works on. *)
Fixpoint pairs (p : pc) : list (string * sid) :=
  match p with
  | PCreate _ key _ s | PPut _ key _ s _ _ | PFailed key s _ | PWake _ key _ s _ _ | PWoken _ key _ s _
  | PBound _ key s _ | PFinishedAtBind _ key s _ | PDrop key s _ | PClaim key s _ | PParkDrop key s _ _
  | PSleep key s _ _ _ _ | PParkAsleep key s _ _ _ | PExpire key s _ | PEndBusy key s _ _ _ _
  | PInstall key s _ _ _ _ | PCloseOld key _ s _ _ _ _ | PUnmap key s _ | PUnmapCloser key s _
  | PAfter _ key s | PWatch _ key s | PWatchErr _ key s | PTimer key s => [(key, s)]
  | PDispose _ _ _ _ k => pairs k
  | _ => []
  end.

(** The hooks a goroutine carries are the stored ones, and the enforce flag
    chose its path. *)
Definition hooks_ok (sl : gmap sid slot) (p : pc) : Prop :=
  match p with
  | PSleep _ s _ h _ _ => forall x, sl !! s = Some x -> s_hooks x = h
  | PParkAsleep _ s h grace _ =>
      (forall x, sl !! s = Some x -> s_hooks x = h) /\ (h_Enforce h = true -> 0 < grace)
  | PEndBusy _ _ _ h _ _ => h_Enforce h = false
  | PDispose key s _ h k =>
      h_Enforce h = true ->
      match k with PUnmap key' _ _ | PUnmapCloser key' _ _ => key' = key | _ => False end
  | _ => True
  end.

(** Goroutine [p] agrees with the key map. *)
Record pc_keyed (K : gmap sid string) (items : gmap string sid) (sl : gmap sid slot) (p : pc) : Prop := {
  pk_key : forall key s, (key, s) ∈ pairs p -> K !! s = Some key;
  pk_map : forall key s, (key, s) ∈ pairs p -> s ∈ busies p -> items !! key = Some s;
  pk_hooks : hooks_ok sl p;
}.

(** An awake incarnation is mapped; a sleeping one is unless zero grace
    unmapped it, which needs the enforce flag unset. *)
Definition slot_mapped (items : gmap string sid) (s : sid) (key : string) (x : slot) : Prop :=
  (s_state x = slotAwake \/ s_state x = slotAsleep /\ h_Enforce (s_hooks x) = true) ->
  items !! key = Some s.

Record keyed (K : gmap sid string) (w : world) : Prop := {
  k_fresh : forall s, w_slots w !! s = None -> K !! s = None;
  k_items : forall key s, w_items w !! key = Some s -> K !! s = Some key;
  k_slot : forall s x key, w_slots w !! s = Some x -> K !! s = Some key -> slot_mapped (w_items w) s key x;
  k_pc : forall t p, w_threads w !! t = Some p -> pc_keyed K (w_items w) (w_slots w) p;
}.

Arguments k_fresh {K w} _ s.
Arguments k_items {K w} _ key s.
Arguments k_slot {K w} _ s x key.
Arguments k_pc {K w} _ t p.
Arguments pk_key {K items sl p} _ key s.
Arguments pk_map {K items sl p} _ key s.
Arguments pk_hooks {K items sl p} _.

(** Nobody but goroutine [t] keeps [s] busy. *)
Definition unowned (w : world) (t : tid) (s : sid) : Prop :=
  forall t' q, w_threads w !! t' = Some q -> t' <> t -> s ∉ busies q.

(** A slot that is not busy, or that this goroutine is in charge of, is
    nobody else's. *)
Lemma unowned_rest {rs} w t s x :
  inv rs w -> w_slots w !! s = Some x -> s_state x <> slotBusy -> unowned w t s.
Proof.
  intros I Hx Hst t' q Hq _ Hb. destruct (inv_busy _ _ _ s I Hq Hb) as (x' & Hx' & Hst'). congruence.
Qed.

Lemma unowned_charged {rs} w t p s :
  inv rs w -> w_threads w !! t = Some p -> s ∈ charged p -> unowned w t s.
Proof.
  intros I Ht Hc t' q Hq Hne Hb. by pose proof (busy_owner_unique _ _ _ _ _ s I Ht Hq Hc Hb).
Qed.

Lemma unowned_fresh {rs} w t s : inv rs w -> w_slots w !! s = None -> unowned w t s.
Proof.
  intros I Hx t' q Hq _ Hb. destruct (inv_busy _ _ _ s I Hq Hb) as (x' & Hx' & Hst'). congruence.
Qed.

(** A step of goroutine [t] that touches the incarnations of [l] only. *)
Lemma keyed_update K K' w w' t q r (l : list sid) :
  keyed K w -> K ⊆ K' ->
  w_threads w' = moved (w_threads w) t q (w_tid w) r ->
  (forall s, s ∉ l -> w_slots w' !! s = w_slots w !! s) ->
  (forall s, s ∉ l -> K' !! s = K !! s) ->
  (forall s, s ∈ l -> unowned w t s) ->
  (forall key s, w_items w !! key = Some s -> s ∉ l -> w_items w' !! key = Some s) ->
  (forall key s, w_items w' !! key = Some s -> K' !! s = Some key) ->
  (forall s, s ∈ l -> exists x, w_slots w' !! s = Some x
     /\ forall key, K' !! s = Some key -> slot_mapped (w_items w') s key x) ->
  pc_keyed K' (w_items w') (w_slots w') q ->
  (match r with Some r => pc_keyed K' (w_items w') (w_slots w') r | None => True end) ->
  keyed K' w'.
Proof.
  intros [Kf Ki Ks Kp] HK Hth Hsl HKl Hun Hit Hit' Hl Hq Hr. split; [ |done| | ].
  - intros s Hs. destruct (decide (s ∈ l)) as [Hin|Hin]; [destruct (Hl _ Hin) as (? & ? & _); congruence|].
    rewrite HKl by done. apply Kf. by rewrite <- Hsl.
  - intros s x key Hx Hk. destruct (decide (s ∈ l)) as [Hin|Hin].
    + destruct (Hl _ Hin) as (x' & Hx' & Hm). simplify_eq. auto.
    + rewrite Hsl in Hx by done. rewrite HKl in Hk by done. intros Hst. apply Hit; [|done]. by eapply Ks.
  - assert (Hold : forall t' p, w_threads w !! t' = Some p -> t' <> t -> pc_keyed K' (w_items w') (w_slots w') p).
    { intros t' p Hp Hne. destruct (Kp _ _ Hp) as [P1 P2 P3].
      assert (forall s, s ∈ busies p -> s ∉ l) as Hb by (intros s Hb Hin; by apply (Hun s Hin t' p)).
      split.
      - intros key s Hin. eapply lookup_weaken; eauto.
      - intros key s Hin Hbs. apply Hit; auto.
      - destruct p; simpl in *; try done; rewrite Hsl; auto; apply Hb; by constructor. }
    intros t' p Hp. rewrite Hth in Hp. destruct r as [r|]; simpl in Hp; rewrite !lookup_insert_Some in Hp; naive_solver.
Qed.

(** ** Automation *)

Ltac kpairs := cbn [pairs busies] in *.

Ltac keyed_items Kw :=
  let key' := fresh "key'" in let s' := fresh "s'" in let Hi := fresh "Hi" in
  intros key' s' Hi; intros; wcbn;
  repeat (case_bool_decide; try (rewrite lookup_delete_Some in Hi; destruct Hi as [? Hi]));
  first [ done | exact (k_items Kw _ _ Hi)
        | rewrite lookup_delete_ne; [done|set_solver by congruence]
        | rewrite lookup_insert_ne; [done|set_solver by congruence]
        | rewrite lookup_insert_Some in Hi; destruct Hi as [[<- <-]|[? Hi]]; [done|exact (k_items Kw _ _ Hi)] ].

Ltac keyed_pc Hp :=
  split; kpairs;
  [ intros ? ? Hin; first [by inversion Hin
      | apply list_elem_of_singleton in Hin; simplify_eq; first [done | apply (pk_key Hp); by constructor]]
  | intros ? ? Hin Hb; first [by inversion Hin | by inversion Hb
      | apply list_elem_of_singleton in Hin; simplify_eq; wcbn;
        first [apply (pk_map Hp); by constructor | by rewrite lookup_insert_eq | done] ]
  | cbn [hooks_ok]; wcbn; intros; first [done | split; [|done]; intros | idtac];
    repeat match goal with
    | H : <[?s:=_]> _ !! ?s = Some _ |- _ => rewrite lookup_insert_eq in H; simplify_eq; wcbn
    end; first [done | congruence] ].

Ltac touched_slot :=
  let s' := fresh "s'" in
  intros s' ->%list_elem_of_singleton; eexists; wcbn; split;
  [ first [rewrite ?insert_insert_eq; apply lookup_insert_eq | eassumption]
  | let Hc := fresh "Hc" in let key' := fresh "key'" in
    intros key' ?; simplify_eq; intros Hc; wcbn;
    first [ by rewrite ?lookup_insert_eq | done
          | destruct Hc as [?|[? ?]]; first [congruence|done] | idtac] ].

(** A step that touches incarnation [s], which nobody else keeps busy ([Hu]). *)
Ltac step_keyed Kw K t r s Hu :=
  eapply (keyed_update K K _ _ t _ r [s] Kw);
  [ reflexivity | reflexivity
  | let Hs' := fresh in intros ? Hs'; wcbn; rewrite ?insert_insert_eq, ?lookup_insert_ne by set_solver; done
  | done
  | intros ? ->%list_elem_of_singleton; exact Hu
  | keyed_items Kw
  | keyed_items Kw
  | touched_slot
  |
  | try exact Logic.I ].

(** A goroutine moves and the table stays as it is. *)
Lemma keyed_move K w t q :
  keyed K w -> pc_keyed K (w_items w) (w_slots w) q -> keyed K (set_pc w t q).
Proof.
  intros Kw Hq. eapply (keyed_update K K w _ t q None [] Kw); wcbn; try done; try set_solver.
  apply (k_items Kw).
Qed.

Lemma keyed_spawn K w q : keyed K w -> pc_keyed K (w_items w) (w_slots w) q -> keyed K (spawn w q).
Proof.
  intros Kw Hq. eapply (keyed_update K K w _ (w_tid w) q None [] Kw); wcbn; try done; try set_solver.
  apply (k_items Kw).
Qed.

Lemma keyed_owner K w t p o w' :
  inv false w -> keyed K w -> w_threads w !! t = Some p -> run w t p o = Some w' ->
  match p with
  | PCreate _ _ _ _ | PPut _ _ _ _ _ _ | PFailed _ _ _ | PWake _ _ _ _ _ _ | PWoken _ _ _ _ _ => keyed K w'
  | _ => True
  end.
Proof.
  intros I Kw Ht Hrun. pose proof (k_pc Kw _ _ Ht) as Hp.
  destruct p; try done; run_cbn;
    (destruct (inv_busy _ _ _ s I Ht) as (x & Hx & Hst); [set_solver|]);
    assert (unowned w t s) as Hu by (eapply (unowned_charged _ _ _ s I Ht); cbn; set_solver);
    assert (Hk := pk_key Hp key s ltac:(kpairs; set_solver));
    assert (Hm := pk_map Hp key s ltac:(kpairs; set_solver) ltac:(kpairs; set_solver));
    rewrite ?Hx in Hrun; cbn [mbind option_bind] in Hrun; unfold after_panic in Hrun;
    repeat case_match; simplify_eq;
    unfold endBusySlot, end_incarnation, closeFinished; repeat case_match.
  all: step_keyed Kw K t (@None pc) s Hu; keyed_pc Hp.
Qed.

Lemma keyed_end K w t p o w' :
  inv false w -> keyed K w -> w_threads w !! t = Some p -> run w t p o = Some w' ->
  match p with
  | PSleep _ _ _ _ _ _ | PParkAsleep _ _ _ _ _ | PEndBusy _ _ _ _ _ _ | PUnmap _ _ _ => keyed K w'
  | _ => True
  end.
Proof.
  intros I Kw Ht Hrun. pose proof (k_pc Kw _ _ Ht) as Hp. pose proof (pk_hooks Hp) as Hh.
  destruct p; try done; run_cbn;
    (destruct (inv_busy _ _ _ s I Ht) as (x & Hx & Hst); [set_solver|]);
    assert (unowned w t s) as Hu by (eapply (unowned_charged _ _ _ s I Ht); cbn; set_solver);
    assert (Hk := pk_key Hp key s ltac:(kpairs; set_solver));
    assert (Hm := pk_map Hp key s ltac:(kpairs; set_solver) ltac:(kpairs; set_solver));
    rewrite ?Hx in Hrun; cbn [mbind option_bind] in Hrun; unfold after_panic, parkAsleep in Hrun;
    repeat case_match; simplify_eq;
    unfold endBusySlot, unmapLocked, end_incarnation, closeFinished; repeat case_match.
  all: cbn [hooks_ok] in Hh.
  all: try match goal with H : h_Enforce ?h && (?grace <=? 0) = false |- _ =>
    assert (h_Enforce h = true -> 0 < grace)
      by (intros E; rewrite E in H; cbn [andb] in H; destruct (Z.leb_spec grace 0); (lia || done)) end.
  all: match goal with
  | |- context [spawn _ ?r] => step_keyed Kw K t (Some r) s Hu
  | _ => step_keyed Kw K t (@None pc) s Hu end.
  all: try keyed_pc Hp.
  destruct Hh as [Hh Hg]. destruct Hc as [Hc|[_ Hc]]; [done|]. rewrite (Hh _ Hx) in Hc. specialize (Hg Hc).
  destruct (Z.leb_spec grace 0); [lia|]. by rewrite andb_false_r in *.
Qed.

(** Channels, trace and contexts are not part of it. *)
Lemma keyed_close_chan K w ch : keyed K w -> keyed K (close_chan w ch).
Proof. intros []. by split. Qed.

Lemma keyed_emit K w s e : keyed K w -> keyed K (emit w s e).
Proof. intros []. by split. Qed.

Lemma keyed_set_aliases K w a : keyed K w -> keyed K (set_aliases w a).
Proof. intros []. by split. Qed.

Lemma keyed_cancel K w c : keyed K w -> keyed K (cancelCtx w c).
Proof. intros []. by split. Qed.

#[export] Hint Resolve keyed_close_chan keyed_emit keyed_set_aliases keyed_cancel : go.

Lemma keyed_claim K w t p o w' :
  inv false w -> keyed K w -> w_threads w !! t = Some p -> run w t p o = Some w' ->
  match p with PClaim _ _ _ | PExpire _ _ _ | PDrop _ _ _ | PUnmapCloser _ _ _ => keyed K w' | _ => True end.
Proof.
  intros I Kw Ht Hrun. pose proof (k_pc Kw _ _ Ht) as Hp.
  destruct p; try done; run_cbn.
  - destruct (held_awake _ _ _ s I Ht) as (x & Hx & Hst & _ & _); [cbn; set_solver|].
    assert (Hk := pk_key Hp key s ltac:(kpairs; set_solver)).
    pose proof (k_slot Kw _ _ _ Hx Hk (or_introl Hst)) as Hm.
    assert (Hu := unowned_rest w t s x I Hx ltac:(congruence)).
    rewrite Hx in Hrun. cbn in Hrun. simplify_eq. step_keyed Kw K t (@None pc) s Hu; keyed_pc Hp.
  - destruct (w_slots w !! s) as [x|] eqn:Hx; [|done]. cbn [mbind option_bind] in Hrun.
    assert (Hk := pk_key Hp key s ltac:(kpairs; set_solver)).
    unfold claimDrop in Hrun. destruct (s_state x) eqn:Hst; [|destruct (s_holders x =? 0)|..]; simplify_eq;
      [apply (keyed_move _ _ _ _ Kw); keyed_pc Hp| |apply (keyed_move _ _ _ _ Kw); keyed_pc Hp..].
    pose proof (k_slot Kw _ _ _ Hx Hk (or_introl Hst)) as Hm.
    assert (Hu := unowned_rest w t s x I Hx ltac:(congruence)).
    step_keyed Kw K t (@None pc) s Hu; keyed_pc Hp.
  - destruct (w_slots w !! s) as [x|] eqn:Hx; [|done]. cbn [mbind option_bind] in Hrun.
    assert (Hk := pk_key Hp key s ltac:(kpairs; set_solver)).
    unfold claimExpire in Hrun. simplify_eq. case_bool_decide as Hst; cbn [andb];
      [case_match; [destruct (h_Enforce (s_hooks x)) eqn:He|]|];
      [| |apply (keyed_move _ _ _ _ Kw); keyed_pc Hp..].
    all: assert (Hu := unowned_rest w t s x I Hx ltac:(congruence)).
    + pose proof (k_slot Kw _ _ _ Hx Hk (or_intror (conj Hst He))) as Hm.
      step_keyed Kw K t (@None pc) s Hu; keyed_pc Hp.
    + unfold closeFinished. case_match; step_keyed Kw K t (@None pc) s Hu; keyed_pc Hp.
  - destruct (inv_busy _ _ _ cl I Ht) as (x & Hx & Hst); [set_solver|].
    assert (unowned w t cl) as Hu by (eapply (unowned_charged _ _ _ cl I Ht); cbn; set_solver).
    assert (Hk := pk_key Hp key cl ltac:(kpairs; set_solver)).
    assert (Hm := pk_map Hp key cl ltac:(kpairs; set_solver) ltac:(kpairs; set_solver)).
    rewrite Hx in Hrun. cbn in Hrun. simplify_eq. unfold unmapLocked, end_incarnation, closeFinished.
    case_match; step_keyed Kw K t (@None pc) cl Hu; keyed_pc Hp.
Qed.

Lemma keyed_stop_timer K w o : keyed K w -> keyed K (stop_timer w o).
Proof.
  intros Kw. destruct o as [t|]; simpl; [|done]. destruct (w_threads w !! t) as [p|] eqn:Ht; [|done].
  destruct p; try done. apply (keyed_move _ _ _ _ Kw). pose proof (k_pc Kw _ _ Ht) as Hp. keyed_pc Hp.
Qed.

Lemma keyed_lookupOpen K w t c key lg w' :
  inv false w -> keyed K w -> w_threads w !! t = Some (POpen c key lg) ->
  lookupOpen w t c key lg = Some w' -> exists K', keyed K' w'.
Proof.
  intros I Kw Ht Hrun. unfold lookupOpen in Hrun. pose proof (k_pc Kw _ _ Ht) as Hp.
  destruct (w_items w !! key) as [s|] eqn:Hm.
  - exists K. assert (Hk := k_items Kw _ _ Hm).
    destruct (w_slots w !! s) as [x|] eqn:Hx; [|done]. cbn [mbind option_bind] in Hrun.
    destruct (s_state x) eqn:Hst; simplify_eq.
    + apply (keyed_move _ _ _ _ Kw); keyed_pc Hp.
    + assert (Hu := unowned_rest w t s x I Hx ltac:(congruence)).
      step_keyed Kw K t (@None pc) s Hu; keyed_pc Hp.
    + destruct (stop_timer_frame w (s_graceTimer x) _ _ Ht) as [Ht' Hsl]; [done|].
      apply (inv_stop_timer _ (s_graceTimer x)) in I. apply (keyed_stop_timer _ _ (s_graceTimer x)) in Kw.
      assert (w_items (stop_timer w (s_graceTimer x)) = w_items w) as Hi.
      { destruct (s_graceTimer x) as [t'|]; simpl; [|done]. by repeat case_match. }
      rewrite <- Hsl in Hx. rewrite <- Hi in Hm. clear Ht Hsl Hi Hp.
      revert I Ht' Hx Hm Kw. generalize (stop_timer w (s_graceTimer x)). clear w. intros w I Ht Hx Hm Kw.
      pose proof (k_pc Kw _ _ Ht) as Hp. assert (Hu := unowned_rest w t s x I Hx ltac:(congruence)).
      step_keyed Kw K t (@None pc) s Hu; keyed_pc Hp.
    + assert (Hu := unowned_rest w t s x I Hx ltac:(congruence)).
      step_keyed Kw K t (@None pc) s Hu; keyed_pc Hp.
  - pose proof (fresh_key_spec (w_slots w)) as Hx. revert Hx Hrun.
    generalize (fresh_key (w_slots w)). intros s Hx Hrun. simplify_eq.
    exists (<[s := key]> K). assert (Hu := unowned_fresh w t s I Hx). assert (Hf := k_fresh Kw s Hx).
    eapply (keyed_update K _ _ _ t _ None [s] Kw); wcbn.
    + by apply insert_subseteq.
    + reflexivity.
    + intros s' Hs'. rewrite lookup_insert_ne by set_solver. done.
    + intros s' Hs'. rewrite lookup_insert_ne by set_solver. done.
    + intros s' ->%list_elem_of_singleton. done.
    + intros key' s' Hi Hs'. rewrite lookup_insert_ne; [done|congruence].
    + intros key' s'. rewrite lookup_insert_Some. intros [[<- <-]|[Hne Hi]]; [by rewrite lookup_insert_eq|].
      rewrite lookup_insert_ne; [by apply (k_items Kw)|]. intros <-. apply (k_items Kw) in Hi. congruence.
    + intros s' ->%list_elem_of_singleton. eexists. rewrite lookup_insert_eq. split; [done|].
      intros key' _ [Hc|[Hc _]]; done.
    + split; kpairs; [| |done]; intros ? ? Hin%list_elem_of_singleton; simplify_eq;
        by rewrite lookup_insert_eq.
    + done.
Qed.

Lemma keyed_install K w t key s cl lg h e r x :
  inv false w -> keyed K w -> w_threads w !! t = Some (PInstall key s lg h e r) ->
  w_slots w !! s = Some x -> s_state x = slotBusy -> s <> cl -> w_slots w !! cl = None ->
  keyed (<[cl := key]> K) (installed w t key s cl lg h e r x).
Proof.
  intros I Kw Ht Hx Hst Hne Hcl. pose proof (k_pc Kw _ _ Ht) as Hp.
  assert (Hm := pk_map Hp key s ltac:(kpairs; set_solver) ltac:(kpairs; set_solver)).
  assert (Hf := k_fresh Kw cl Hcl).
  eapply (keyed_update K _ _ _ t _ None [s; cl] Kw); unfold installed; wcbn.
  - by apply insert_subseteq.
  - reflexivity.
  - intros s' Hs'. rewrite insert_insert_eq, !lookup_insert_ne by set_solver. done.
  - intros s' Hs'. rewrite lookup_insert_ne by set_solver. done.
  - intros s' [->|[->|[]%elem_of_nil]%elem_of_cons]%elem_of_cons; [|by eapply unowned_fresh].
    eapply (unowned_charged _ _ _ s I Ht). cbn. set_solver.
  - intros key' s' Hi Hs'. rewrite lookup_insert_ne; [done|]. intros <-. set_solver.
  - intros key' s'. rewrite lookup_insert_Some. intros [[<- <-]|[Hnk Hi]]; [by rewrite lookup_insert_eq|].
    rewrite lookup_insert_ne; [by apply (k_items Kw)|]. intros <-. apply (k_items Kw) in Hi. congruence.
  - intros s' [->|[->|[]%elem_of_nil]%elem_of_cons]%elem_of_cons; eexists.
    + rewrite lookup_insert_ne, insert_insert_eq, lookup_insert_eq by done. split; [done|].
      intros ? ? [Hc|[Hc _]]; done.
    + rewrite lookup_insert_eq. split; [done|]. intros ? ? [Hc|[Hc _]]; done.
  - split; kpairs; [| |done]; intros ? ? Hin%list_elem_of_singleton; simplify_eq;
        by rewrite lookup_insert_eq.
  - done.
Qed.

Lemma keyed_run K w t p o w' :
  inv false w -> keyed K w -> w_threads w !! t = Some p -> run w t p o = Some w' -> exists K', keyed K' w'.
Proof.
  intros I Kw Ht Hrun.
  pose proof (keyed_owner K w t p o w' I Kw Ht Hrun). pose proof (keyed_end K w t p o w' I Kw Ht Hrun).
  pose proof (keyed_claim K w t p o w' I Kw Ht Hrun).
  pose proof (proj2 (inv_thread I _ _ Ht)) as Hd. pose proof (k_pc Kw _ _ Ht) as Hp.
  destruct p; try (by eauto); try done; try (by eapply keyed_lookupOpen); run_cbn.
  5: { destruct (run_install _ _ _ _ _ _ _ _ o _ I Ht Hrun) as (cl & x & ? & ? & ? & ? & ? & ->).
       eexists. by apply keyed_install. }
  6: { exists K. simplify_eq. case_match; (apply keyed_move; [auto with go|]);
       destruct p; try done; keyed_pc Hp. }
  all: exists K; try (destruct (w_slots w !! s) as [x|] eqn:Hx; cbn [mbind option_bind] in Hrun);
    repeat case_match; simplify_eq;
    repeat first [apply keyed_move | apply keyed_spawn | apply keyed_emit | apply keyed_close_chan
                 | apply keyed_set_aliases | exact Kw].
  all: try keyed_pc Hp.
Qed.

Lemma keyed_reachable grace w : reachable false grace w -> exists K, keyed K w.
Proof.
  induction 1 as [|w l w' Hr [K Kw] Ha Hs]; [by exists ∅; split|].
  apply inv_reachable in Hr as I.
  destruct l; cbn [step] in Hs; simplify_eq; try done; try (exists K; by auto with go).
  - exists K. apply keyed_spawn; [done|]. by split; [intros ? ? Hin; inversion Hin..|].
  - destruct (w_threads w !! t) as [p|] eqn:Ht; [|done]. by eapply keyed_run.
Qed.

(** ** Guarantees *)

(** The incarnation of [key] goroutine [p] creates, wakes, sleeps, closes before
    unmapping, or holds. *)
Definition live_on (p : pc) (key : string) (s : sid) : Prop :=
  (key, s) ∈ pairs p /\ (s ∈ busies p \/ s ∈ helds p).

Lemma live_mapped K w t p key s :
  inv false w -> keyed K w -> w_threads w !! t = Some p -> live_on p key s -> w_items w !! key = Some s.
Proof.
  intros I Kw Ht [Hin [Hb|Hh]]; [by apply (pk_map (k_pc Kw _ _ Ht))|].
  destruct (held_awake _ _ _ s I Ht Hh) as (x & Hx & Hst & _).
  apply (k_slot Kw _ _ _ Hx); [by apply (pk_key (k_pc Kw _ _ Ht))|by left].
Qed.

(** C18: without Reset, at any moment all goroutines that create, wake, sleep,
    enforce-close or hold key [key] work on one and the same incarnation, the
    one the table maps. *)
Theorem one_live_incarnation grace w t1 t2 p1 p2 key s1 s2 :
  reachable false grace w ->
  w_threads w !! t1 = Some p1 -> w_threads w !! t2 = Some p2 ->
  live_on p1 key s1 -> live_on p2 key s2 ->
  s1 = s2 /\ w_items w !! key = Some s1.
Proof.
  intros Hr H1 H2 L1 L2. destruct (keyed_reachable _ _ Hr) as [K Kw]. apply inv_reachable in Hr as I.
  pose proof (live_mapped _ _ _ _ _ _ I Kw H1 L1). pose proof (live_mapped _ _ _ _ _ _ I Kw H2 L2).
  split; congruence.
Qed.

(** C14: without Reset, while Close runs for an incarnation whose stored hooks
    set EnforceCloseBeforeOpen, nothing else is live on its key: no other
    goroutine creates, wakes, sleeps or holds a value for it, and Peek finds
    nothing.  An Open of the key waits. *)
Theorem enforced_close_is_exclusive grace w t key s lg h k :
  reachable false grace w ->
  w_threads w !! t = Some (PDispose key s lg h k) -> h_Enforce h = true ->
  Peek w key = None
  /\ forall t' q s', w_threads w !! t' = Some q -> live_on q key s' -> t' = t.
Proof.
  intros Hr Ht He. destruct (keyed_reachable _ _ Hr) as [K Kw]. apply inv_reachable in Hr as I.
  pose proof (pk_hooks (k_pc Kw _ _ Ht) He) as Hk.
  assert (exists m, live_on (PDispose key s lg h k) key m /\ m ∈ busies (PDispose key s lg h k)) as (m & Lm & Hb).
  { destruct k; try done; simplify_eq; eexists; (split; [split; [by constructor|left; by constructor]|by constructor]). }
  pose proof (live_mapped _ _ _ _ _ _ I Kw Ht Lm) as Hm.
  destruct (inv_busy _ _ _ m I Ht Hb) as (x & Hx & Hst). split.
  - unfold Peek. rewrite Hm. cbn [mbind option_bind]. rewrite Hx. cbn [mbind option_bind]. by rewrite Hst.
  - intros t' q s' Hq Lq. pose proof (live_mapped _ _ _ _ _ _ I Kw Hq Lq). assert (s' = m) as -> by congruence.
    destruct Lq as [_ [Hbq|Hhq]].
    + apply (busies_charged q m (proj2 (inv_thread I _ _ Hq))), occ_elem_of in Hbq as Hcq.
      by apply (busy_owner_unique _ _ _ _ _ m I Hq Ht).
    + destruct (held_awake _ _ _ m I Hq Hhq) as (x' & Hx' & Hst' & _). congruence.
Qed.

(** ** Schedules *)

Lemma one_live_incarnation_witness :
  exists w p1 p2, steps (NewTable 5) sched_two_holders = Some w
    /\ w_threads w !! 1%nat = Some p1 /\ w_threads w !! 3%nat = Some p2
    /\ live_on p1 "k" 0%nat /\ live_on p2 "k" 0%nat
    /\ (0 = 0 /\ w_items w !! "k"%string = Some 0)%nat.
Proof.
  eexists _, _, _. split; [vm_compute; reflexivity|]. split; [vm_compute; reflexivity|].
  split; [vm_compute; reflexivity|].
  split; [split; [by constructor|right; by constructor]|].
  split; [split; [by constructor|right; by constructor]|].
  eapply (one_live_incarnation 5 _ 1%nat 3%nat).
  - apply (reach_schedule 5 sched_two_holders); [by repeat constructor|vm_compute; reflexivity].
  - vm_compute; reflexivity.
  - vm_compute; reflexivity.
  - split; [by constructor|right; by constructor].
  - split; [by constructor|right; by constructor].
Defined.

Definition enforceHooks : Hooks := {| h_Sleep := true; h_Wake := true; h_Close := true; h_Enforce := true |}.

(** A zero-grace table: the last holder ends and Close is running when a second
    Open of the key arrives. *)
Definition sched_enforced : list label :=
  [LOpen (demo_ctx 0) "k" 0; go 0; LRun 0 (OCreate (APtr (Some 7%nat)) enforceHooks); go 0; go 0;
   LCancel 0; go 1; go 1; go 1; go 1; LOpen (demo_ctx 1) "k" 0; go 2].

Lemma enforced_close_is_exclusive_witness :
  exists w key s lg h k, steps (NewTable 0) sched_enforced = Some w
    /\ w_threads w !! 1%nat = Some (PDispose key s lg h k) /\ h_Enforce h = true
    /\ Peek w key = None
    /\ forall t' q s', w_threads w !! t' = Some q -> live_on q key s' -> t' = 1%nat.
Proof.
  eexists _, _, _, _, _, _. split; [vm_compute; reflexivity|]. split; [vm_compute; reflexivity|].
  split; [reflexivity|].
  eapply (enforced_close_is_exclusive 0).
  - apply (reach_schedule 0 sched_enforced); [by repeat constructor|vm_compute; reflexivity].
  - vm_compute; reflexivity.
  - reflexivity.
Defined.
