(* ===== verification/ReclaimReload.v ===== *)
(** * ReclaimReload: a value outlives a configuration reload

    What the reclaim table is for: when every context of a generation ends and
    the next generation opens the same key before the grace is over, it gets the
    same incarnation with the same value, whatever the interleaving of the drops,
    the Sleep, the Wake and the Opens; nothing is closed and nothing is created
    again. *)

From S2P Require Import Prelude.
From S2P Require Import ReclaimAlias.
From S2P Require Import Reclaim.
From S2P Require Import ReclaimInv.
From S2P Require Import ReclaimSafety.
From S2P Require Import ReclaimLive.
From S2P Require Import ReclaimKeys.
From Stdlib Require Import ZArith Lia List String.
From stdpp Require Import base list strings option gmap.

Open Scope Z_scope.

(** A goroutine that is neither creating nor ending incarnation [s]. *)
Fixpoint harmless (s : sid) (p : pc) : Prop :=
  match p with
  | PCreate _ _ _ s' | PPut _ _ _ s' _ _ | PFailed _ s' _ | PExpire _ s' _ | PEndBusy _ s' _ _ _ _ | PInstall _ s' _ _ _ _
  | PUnmap _ s' _ | PUnmapCloser _ s' _ => s' <> s
  | PCloseOld _ s' cl _ _ _ _ => s' <> s /\ cl <> s
  | PDispose _ s' _ _ k => s' <> s /\ harmless s k
  | PSleep _ s' _ _ g _ | PParkAsleep _ s' _ g _ => s' = s -> 0 < g
  | PReset | PResetLoop _ | PResetSleep _ _ _ _ _ => False
  | _ => True
  end.

(** The table maps [key] to incarnation [s] with value [v], which is awake,
    asleep or changing between the two. *)
Record kept (key : string) (s : sid) (v : any) (w : world) : Prop := {
  kept_map : w_items w !! key = Some s;
  kept_slot : exists x, w_slots w !! s = Some x /\ s_value x = v /\ s_createErr x = None /\ s_state x <> slotGone;
  kept_grace : 0 < w_grace w;
  kept_pcs : forall t p, w_threads w !! t = Some p -> harmless s p;
}.

(** The next step is not the end of the grace of [s], nor a panic of its Sleep
    or Wake; Reset is for tests. *)
Definition calm (s : sid) (w : world) (l : label) : Prop :=
  match l with
  | LReset => False
  | LRun t o =>
      match w_threads w !! t with
      | Some (PTimer _ s') => s' <> s
      | Some (PSleep _ s' _ _ _ _) | Some (PWake _ _ _ s' _ _) => s' = s -> o <> OPanic
      | _ => True
      end
  | _ => True
  end.


Lemma kept_update key s v w w' t q r :
  kept key s v w ->
  w_threads w' = moved (w_threads w) t q (w_tid w) r -> w_grace w' = w_grace w ->
  w_items w' !! key = Some s ->
  (exists x, w_slots w' !! s = Some x /\ s_value x = v /\ s_createErr x = None /\ s_state x <> slotGone) ->
  harmless s q -> (match r with Some r => harmless s r | None => True end) -> kept key s v w'.
Proof.
  intros [_ _ Hg Hp] Hth Hgr Hi Hx Hq Hr. split; [done|done|by rewrite Hgr|]. intros t' p Ht. rewrite Hth in Ht.
  destruct r as [r|]; simpl in Ht; rewrite !lookup_insert_Some in Ht; naive_solver.
Qed.

Ltac kept_items Hm :=
  wcbn; repeat (case_bool_decide; [|try exact Hm]); try exact Hm;
  first [ rewrite lookup_delete_ne by congruence; exact Hm | rewrite lookup_insert_ne by congruence; exact Hm
        | rewrite lookup_insert_eq; congruence | idtac ].

Ltac kept_slots s Hx :=
  wcbn; rewrite ?insert_insert_eq;
  first [ by eexists
        | rewrite !lookup_insert_ne by congruence; by eexists
        | eexists; split; [first [exact Hx | apply lookup_insert_eq]|]; wcbn; split_and!; congruence | idtac ].

Lemma hook_panicked_true h o : hook_panicked h o = true -> o = OPanic.
Proof. by destruct h, o. Qed.

Lemma kept_stop_timer key s v w o : kept key s v w -> kept key s v (stop_timer w o).
Proof.
  intros Hk. destruct o as [t|]; simpl; [|done]. destruct (w_threads w !! t) as [p|] eqn:Ht; [|done]. destruct p; try done.
  pose proof Hk as [Hm Hx _ _]. by apply (kept_update key s v w _ t (PRet RVoid) None Hk).
Qed.

Ltac kept_step Hk t r Hm Hy s :=
  eapply (kept_update _ _ _ _ _ t _ r Hk);
  [ reflexivity | reflexivity | kept_items Hm | kept_slots s Hy | cbn [harmless] | cbn [harmless]; try exact Logic.I ].

Lemma kept_run K key s v w t p o w' :
  inv false w -> keyed K w -> kept key s v w -> w_threads w !! t = Some p -> calm s w (LRun t o) -> run w t p o = Some w' ->
  match p with POpen _ _ _ | PInstall _ _ _ _ _ _ => True | _ => kept key s v w' end.
Proof.
  intros I Kw Hk Ht Hc Hrun. pose proof (kept_pcs _ _ _ _ Hk t p Ht) as Hh. pose proof (k_pc Kw _ _ Ht) as Hp.
  destruct (kept_slot _ _ _ _ Hk) as (y & Hy & Hv & He & Hg). pose proof (kept_map _ _ _ _ Hk) as Hm.
  pose proof (kept_grace _ _ _ _ Hk) as Hgr.
  cbn [calm] in Hc. rewrite Ht in Hc.
  assert (Hpm : forall k s', (k, s') ∈ pairs p -> s' ∈ busies p -> s' <> s -> k <> key).
  { intros k s' H1 H2 Hne ->. apply Hne. pose proof (pk_map Hp _ _ H1 H2). congruence. }
  destruct p; cbn [harmless] in Hh; try done; run_cbn;
    repeat (match type of Hrun with context [w_slots w !! ?u ≫= _] => destruct (w_slots w !! u) as [x|] eqn:Hx; [|try done; by repeat case_match] end;
         cbn [mbind option_bind] in Hrun);
    unfold claimDrop, parkAsleep, claimExpire, endBusySlot, unmapLocked, end_incarnation, closeFinished, after_panic in Hrun;
    repeat case_match; simplify_eq;
    (match goal with
     | |- context [spawn _ ?r] => kept_step Hk t (Some r) Hm Hy s
     | _ => kept_step Hk t (@None pc) Hm Hy s end).
  all: try done.
  all: try match goal with |- exists _, <[?u := _]> _ !! _ = _ /\ _ =>
    destruct (decide (u = s)) as [->|]; [eexists; split; [apply lookup_insert_eq|]; cbn; split_and!; congruence
                                        |rewrite lookup_insert_ne by done; by eexists] end.
  all: try match goal with H : hook_panicked _ _ = true |- _ => apply hook_panicked_true in H; intros ->; by apply (Hc eq_refl) end.
  all: try (by destruct Hh).
  all: repeat match goal with H : _ && _ = true |- _ => apply andb_true_iff in H as [? ?] end.
  all: repeat match goal with H : bool_decide _ = true |- _ => apply bool_decide_eq_true_1 in H end.
  all: try match goal with H : (?g <=? 0) = true |- _ => apply Z.leb_le in H end.
  - rewrite lookup_insert_ne; [done|]. apply (Hpm key0 s0); [set_solver..|done].
  - split; intros ->; specialize (Hh eq_refl); lia.
  - rewrite lookup_delete_ne; [done|]. intros ->. assert (s0 = s) by congruence. specialize (Hh ltac:(done)). lia.
  - intros ->. specialize (Hh eq_refl). lia.
  - intros ->. assert (bool_decide (w_items w !! key0 = Some s) = true) as E; [|by rewrite E in *].
    apply bool_decide_eq_true_2. apply (pk_map Hp key0 s); set_solver.
Qed.

Lemma kept_lookupOpen K key s v w t c k lg w' :
  inv false w -> keyed K w -> kept key s v w -> w_threads w !! t = Some (POpen c k lg) -> lookupOpen w t c k lg = Some w' -> kept key s v w'.
Proof.
  intros I Kw Hk Ht Hrun. unfold lookupOpen in Hrun.
  destruct (w_items w !! k) as [s'|] eqn:Hi.
  - destruct (w_slots w !! s') as [x|] eqn:Hx; [|done]. cbn [mbind option_bind] in Hrun.
    assert (Hsame : forall w0, kept key s v w0 -> w_slots w0 !! s' = Some x -> forall x', s_value x' = s_value x -> s_createErr x' = s_createErr x -> s_state x' <> slotGone ->
      exists x0, <[s' := x']> (w_slots w0) !! s = Some x0 /\ s_value x0 = v /\ s_createErr x0 = None /\ s_state x0 <> slotGone).
    { intros w0 Hk0 Hx0 x' E1 E2 E3. destruct (kept_slot _ _ _ _ Hk0) as (y & Hy & Hv & He & Hg). destruct (decide (s' = s)) as [->|].
      - exists x'. rewrite lookup_insert_eq. split_and!; congruence.
      - exists y. by rewrite lookup_insert_ne. }
    destruct (s_state x) eqn:Hst; simplify_eq.
    + pose proof Hk as [Hm Hy _ _]. by apply (kept_update key s v w _ t (PPark c k lg s' (s_ready x)) None Hk).
    + pose proof Hk as [Hm _ _ _]. eapply (kept_update key s v w _ t _ None Hk); wcbn; try done.
      apply (Hsame w Hk Hx); wcbn; congruence.
    + destruct (stop_timer_frame w (s_graceTimer x) _ _ Ht) as [Ht' Hsl]; [done|]. apply (kept_stop_timer key s v w (s_graceTimer x)) in Hk.
      rewrite <- Hsl in Hx. pose proof Hk as [Hm _ _ _]. eapply (kept_update key s v (stop_timer w (s_graceTimer x)) _ t _ None Hk); wcbn; try done.
      apply (Hsame _ Hk Hx); wcbn; congruence.
    + pose proof Hk as [Hm Hy _ _]. eapply (kept_update key s v w _ t _ None Hk); wcbn; try done.
      case_bool_decide; [|done]. rewrite lookup_delete_ne; [done|]. intros ->. destruct Hy as (y & Hy & _ & _ & Hg). congruence.
  - pose proof (fresh_key_spec (w_slots w)) as Hx. simplify_eq. pose proof Hk as [Hm (y & Hy & ?) _ _].
    assert (Hne : fresh_key (w_slots w) <> s) by (intros E; rewrite E in Hx; congruence).
    eapply (kept_update key s v w _ t _ None Hk); wcbn; try done.
    + rewrite lookup_insert_ne; [done|]. intros ->. congruence.
    + exists y. by rewrite lookup_insert_ne.
Qed.

Lemma kept_step K key s v w l w' :
  inv false w -> keyed K w -> kept key s v w -> calm s w l -> step w l = Some w' -> kept key s v w'.
Proof.
  intros I Kw Hk Hc Hs. destruct l; cbn [step] in Hs; simplify_eq; try done; try (by destruct Hk; split).
  - pose proof Hk as [Hm Hy _ _]. by apply (kept_update key s v w _ (w_tid w) (POpen c key0 lg) None Hk).
  - destruct (w_threads w !! t) as [p|] eqn:Ht; [|done]. cbn [mbind option_bind] in Hs.
    pose proof (kept_run K key s v w t p o w' I Kw Hk Ht Hc Hs) as Hr. destruct p; try done; run_cbn; [by eapply kept_lookupOpen|].
    pose proof (kept_pcs _ _ _ _ Hk _ _ Ht) as Hne. cbn [harmless] in Hne. pose proof (k_pc Kw _ _ Ht) as Hp.
    assert (Hmi := pk_map Hp key0 s0 ltac:(kpairs; set_solver) ltac:(kpairs; set_solver)).
    destruct (run_install w t key0 s0 lg h e r o w' I Ht Hs) as (cl & x & H1 & H2 & H3 & H4 & H5 & ->).
    pose proof Hk as [Hm (y & Hy & Hrest) _ _].
    assert (Hcl : cl <> s) by (intros ->; congruence).
    eapply (kept_update key s v w _ t _ None Hk); unfold installed; wcbn; try done.
    + rewrite lookup_insert_ne; [done|]. intros ->. congruence.
    + exists y. by rewrite insert_insert_eq, !lookup_insert_ne.
Qed.



Lemma set_pc_self w t p : w_threads (set_pc w t p) !! t = Some p.
Proof. apply lookup_insert_eq. Qed.







(** ** Where a run may start *)







(** ** The reload *)







(** ** A schedule *)






