(* ===== verification/Resp.v ===== *)
(** * Resp: the RESP codec ([simpleredis/resp.go]) and the relay that frames it

    Encoding and decoding of one command and one reply, and the independent
    framing code of [e2e/respdroprelay/main.go].

    A [reader] is the bytes that will still arrive on the socket and the error
    the read after them ends with, so no result depends on how the bytes are
    split into packets; [Buffered], which does, is an argument of its users. *)

From S2P Require Import Prelude.
From S2P Require Import Strconv.
From Stdlib Require Import ZArith Lia List String.
From Stdlib Require Import Strings.Byte.
From stdpp Require Import base list option.

Open Scope Z_scope.

Definition b_cr : byte := x0d.
Definition b_lf : byte := x0a.
Definition b_star : byte := x2a.
Definition b_dollar : byte := x24.
Definition b_colon : byte := x3a.
Definition crlf : bytes := [b_cr; b_lf].

(** ** Errors *)

(** What a read or write on a socket fails with. *)
Inductive ioerr := EOF | UnexpectedEOF | OSDeadlineExceeded | OtherIO.

#[export] Instance ioerr_eq_dec : EqDecision ioerr.
Proof. solve_decision. Defined.

(** The errors the client and its streams return; [eReply] is a Redis error
    reply, [ePoolWait] and [eNotFromNew] wrap [eUnreachable]. *)
Inductive goerr :=
| eUnreachable | eMiss | eTimeout | eNoAuth | eIssue | eUnsupportedReply | ePoolWait | eNotFromNew
| eCanceled | eDeadlineExceeded
| eReply (text : bytes)
| eIO (e : ioerr).

#[export] Instance goerr_eq_dec : EqDecision goerr.
Proof. solve_decision. Defined.

(** [err.Error()] *)
Definition err_text (e : goerr) : bytes :=
  match e with
  | eUnreachable | ePoolWait | eNotFromNew => bs "redis:unreachable"
  | eMiss => bs "redis:miss"
  | eTimeout => bs "redis:timeout"
  | eNoAuth => bs "redis:noauth"
  | eIssue => bs "redis:issue?"
  | eUnsupportedReply => bs "redis:unsupported-reply"
  | eCanceled => bs "context canceled"
  | eDeadlineExceeded => bs "context deadline exceeded"
  | eReply text => text
  | eIO EOF => bs "EOF"
  | eIO UnexpectedEOF => bs "unexpected EOF"
  | eIO OSDeadlineExceeded => bs "i/o timeout"
  | eIO OtherIO => bs "i/o error"
  end.

(** [strings.HasPrefix] *)
Fixpoint HasPrefix (s p : bytes) {struct p} : bool :=
  match p, s with
  | [], _ => true
  | _, [] => false
  | b :: p, c :: s => bool_decide (b = c) && HasPrefix s p
  end.

(** [replyError] *)
Definition replyError (message : bytes) : goerr :=
  if existsb (HasPrefix message) (map bs ["NOAUTH"; "WRONGPASS"; "NOPERM"; "ERR Client sent AUTH"]%string)
  then eNoAuth else eReply message.

(** [ioError] *)
Definition ioError (e : goerr) : goerr :=
  match e with eIO OSDeadlineExceeded => eTimeout | _ => eUnreachable end.

(** [isDirtyProtocolError] *)
Definition isDirtyProtocolError (e : goerr) : bool :=
  match e with eIssue | eUnsupportedReply => true | _ => false end.

(** ** Writing *)

Definition bulk_head (n : nat) : bytes := b_dollar :: FormatInt (Z.of_nat n) ++ crlf.

(** One argument as a bulk string. *)
Definition write_arg (arg : bytes) : bytes := bulk_head (length arg) ++ arg ++ crlf.

(** [writeCommand]: the bytes flushed to the socket. *)
Definition writeCommand (args : list bytes) : bytes :=
  (b_star :: FormatInt (Z.of_nat (length args)) ++ crlf) ++ flat_map write_arg args.

(** ** Reading *)

Record reader := { rd : bytes; rend : ioerr }.

Definition advance (r : reader) (n : nat) : reader := {| rd := drop n (rd r); rend := rend r |}.

(** Size of a [bufio.Reader] buffer. *)
Definition bufSize : nat := 4096.

(** Bytes up to and including the first newline, and the rest. *)
Fixpoint cut_line (s : bytes) : option (bytes * bytes) :=
  match s with
  | [] => None
  | b :: s =>
      if decide (b = b_lf) then Some ([b], s)
      else match cut_line s with Some (l, r) => Some (b :: l, r) | None => None end
  end.

(** [reader.ReadSlice('\n')]: a line of at most one buffer. *)
Definition ReadSlice (r : reader) : (bytes + goerr) * reader :=
  match cut_line (take bufSize (rd r)) with
  | Some (line, _) => (inl line, advance r (length line))
  | None => if (bufSize <=? length (rd r))%nat then (inr eIssue, advance r bufSize)
            else (inr (eIO (rend r)), advance r (length (rd r)))
  end.

(** Drop a trailing CRLF; [None] when the line has no CR before its LF. *)
Definition trim_crlf (line : bytes) : option bytes :=
  if (2 <=? length line)%nat && bool_decide (line !! (length line - 2)%nat = Some b_cr)
  then Some (take (length line - 2) line) else None.

(** [readLine]; ErrBufferFull is already the errIssue it maps to. *)
Definition readLine (r : reader) : (bytes + goerr) * reader :=
  match ReadSlice r with
  | (inl line, r) => (match trim_crlf line with Some l => inl l | None => inr eIssue end, r)
  | (inr e, r) => (inr e, r)
  end.

(** [io.ReadFull] of [n] bytes. *)
Definition ReadFull (r : reader) (n : nat) : (bytes + goerr) * reader :=
  if (n <=? length (rd r))%nat then (inl (take n (rd r)), advance r n)
  else (inr (eIO (match rend r with
                  | EOF => if (length (rd r) =? 0)%nat then EOF else UnexpectedEOF
                  | e => e end)),
        advance r (length (rd r))).

Definition maxBulkLength : Z := 64 * 2 ^ 20.
Definition maxArrayCount : Z := 2 ^ 20.
Definition maxParseLen : Z := int64_max.

(** The digit loop of [parseLen]. *)
Fixpoint parseLen_loop (s : bytes) (len : Z) : option Z :=
  match s with
  | [] => Some len
  | b :: s =>
      if (byteZ b <? 48) || (57 <? byteZ b) then None
      else let d := byteZ b - 48 in
           if (maxParseLen - d) / 10 <? len then None else parseLen_loop s (len * 10 + d)
  end.

(** [parseLen] *)
Definition parseLen (digits : bytes) : option Z :=
  match digits with
  | [] => None
  | b :: s =>
      if decide (b = b_minus) then
        match s with [] => None | _ => v ← parseLen_loop s 0; Some (- v) end
      else parseLen_loop digits 0
  end.

(** [readBulk] *)
Definition readBulk (r : reader) (head : bytes) : (bytes + goerr) * reader :=
  match head with
  | b :: digits =>
      if decide (b = b_dollar) then
        match parseLen digits with
        | None => (inr eIssue, r)
        | Some length =>
            if length <? 0 then (inr eMiss, r)
            else if maxBulkLength <? length then (inr eIssue, r)
            else
              let n := Z.to_nat length in
              match ReadFull r (n + 2) with
              | (inr e, r) => (inr e, r)
              | (inl data, r) =>
                  if bool_decide (data !! n = Some b_cr) && bool_decide (data !! (n + 1)%nat = Some b_lf)
                  then (inl (take n data), r) else (inr eIssue, r)
              end
        end
      else (inr eIssue, r)
  | [] => (inr eIssue, r)
  end.

(** [append([]byte(nil), s...)]: nil when [s] is empty. *)
Definition copy_bytes (s : bytes) : option bytes := match s with [] => None | _ => Some s end.

(** The element loop of a [*] reply. *)
Fixpoint read_elems (count : nat) (r : reader) : (list (option bytes) + goerr) * reader :=
  match count with
  | O => (inl [], r)
  | S count =>
      match readLine r with
      | (inr e, r) => (inr e, r)
      | (inl [], r) => (inr eIssue, r)
      | (inl (b :: s), r) =>
          let elem : (option bytes + goerr) * reader :=
            if decide (b = b_dollar) then
              match readBulk r (b :: s) with
              | (inr eMiss, r) => (inl None, r)
              | (inr e, r) => (inr e, r)
              | (inl data, r) => (inl (Some data), r)
              end
            else if decide (b = b_colon \/ b = b_plus) then (inl (copy_bytes s), r)
            else (inr eUnsupportedReply, r) in
          match elem with
          | (inr e, r) => (inr e, r)
          | (inl v, r) =>
              match read_elems count r with
              | (inl vs, r) => (inl (v :: vs), r)
              | (inr e, r) => (inr e, r)
              end
          end
      end
  end.

(** What [readReply] returns: values, clean, err. *)
Record reply := { values : list (option bytes); clean : bool; rerror : option goerr }.

Definition ok_reply (vs : list (option bytes)) : reply := {| values := vs; clean := true; rerror := None |}.
Definition dirty (e : goerr) : reply := {| values := []; clean := false; rerror := Some e |}.

(** [readReply] *)
Definition readReply (r : reader) : reply * reader :=
  match readLine r with
  | (inr e, r) => (dirty e, r)
  | (inl [], r) => (dirty eIssue, r)
  | (inl (b :: s), r) =>
      if decide (b = b_plus \/ b = b_colon) then (ok_reply [copy_bytes s], r)
      else if decide (b = b_minus) then ({| values := []; clean := true; rerror := Some (replyError s) |}, r)
      else if decide (b = b_dollar) then
        match readBulk r (b :: s) with
        | (inr eMiss, r) => (ok_reply [None], r)
        | (inr e, r) => (dirty e, r)
        | (inl data, r) => (ok_reply [Some data], r)
        end
      else if decide (b = b_star) then
        match parseLen s with
        | None => (dirty eIssue, r)
        | Some count =>
            if (count <? 0) || (maxArrayCount <? count) then (dirty eIssue, r)
            else match read_elems (Z.to_nat count) r with
                 | (inl vs, r) => (ok_reply vs, r)
                 | (inr e, r) => (dirty e, r)
                 end
        end
      else (dirty eUnsupportedReply, r)
  end.

(** ** The relay ([e2e/respdroprelay/main.go]) *)

Module Relay.

(** The relay's reads: a value with the rest of the stream, an error, a Go panic
    (slice bounds, negative make), or a read that needs bytes the stream does not
    have: that one waits for the peer, and is an error once the peer hung up.  A
    length too large for memory, but not for an int, counts as one the stream
    cannot fill. *)
Inductive res (A : Type) := Ok (a : A) (rest : bytes) | Err | More | Panic.
Arguments Ok {A} a rest.
Arguments Err {A}.
Arguments More {A}.
Arguments Panic {A}.

(** The bulk strings of [readCommand]. *)
Fixpoint read_args (count : nat) (s : bytes) : res (list bytes) :=
  match count with
  | O => Ok [] s
  | S count =>
      match cut_line s with
      | None => More
      | Some (line, s) =>
          if (length line <? 3)%nat then Panic
          else match ParseInt (take (length line - 3) (drop 1 line)) with
          | None => Err
          | Some n =>
              if (n + 2 <? 0) || (int64_max <? n + 2) then Panic
              else let k := Z.to_nat (n + 2) in
                   if negb (k <=? length s)%nat then More
                   else if n <? 0 then Panic
                   else match read_args count (drop k s) with
                        | Ok args rest => Ok (take (Z.to_nat n) s :: args) rest
                        | e => e
                        end
          end
      end
  end.

(** [readCommand] *)
Definition readCommand (s : bytes) : res (list bytes) :=
  match cut_line s with
  | None => More
  | Some (header, s) =>
      match header with
      | b :: rest =>
          if (length header <? 3)%nat || negb (bool_decide (b = b_star)) then Err
          else match ParseInt (take (length header - 3) rest) with
          | None => Err
          | Some count => if count <? 0 then Panic else read_args (Z.to_nat count) s
          end
      | [] => Err
      end
  end.

(** [writeCommand] of the relay *)
Definition writeCommand (args : list bytes) : bytes :=
  (bs "*" ++ FormatInt (Z.of_nat (length args)) ++ crlf)
  ++ flat_map (fun arg => bs "$" ++ FormatInt (Z.of_nat (length arg)) ++ crlf ++ arg ++ crlf) args.

(** UTF-8 encodings of the white space [strings.TrimSpace] removes. *)
Definition spaces : list bytes :=
  [[x09]; [x0a]; [x0b]; [x0c]; [x0d]; [x20]; [xc2; x85]; [xc2; xa0]; [xe1; x9a; x80];
   [xe2; x80; xa8]; [xe2; x80; xa9]; [xe2; x80; xaf]; [xe2; x81; x9f]; [xe3; x80; x80]]
  ++ map (fun b => [xe2; x80; b]) [x80; x81; x82; x83; x84; x85; x86; x87; x88; x89; x8a].

Fixpoint trim_prefix (fuel : nat) (sp : list bytes) (s : bytes) : bytes :=
  match fuel with
  | O => s
  | S fuel =>
      match find (fun p => HasPrefix s p) sp with
      | Some p => trim_prefix fuel sp (drop (length p) s)
      | None => s
      end
  end.

(** [strings.TrimSpace] *)
Definition TrimSpace (s : bytes) : bytes :=
  let l := trim_prefix (length s) spaces s in
  reverse (trim_prefix (length l) (map reverse spaces) (reverse l)).

(** The loop over the parts of an array. *)
Fixpoint raw_parts (read : bytes -> res bytes) (k : nat) (raw s : bytes) : res bytes :=
  match k with
  | O => Ok raw s
  | S k => match read s with
           | Ok part s => raw_parts read k (raw ++ part) s
           | e => e
           end
  end.

(** [readRawRESP]; [fuel] bounds the nesting depth. *)
Fixpoint readRawRESP (fuel : nat) (s : bytes) : res bytes :=
  match fuel with
  | O => More
  | S fuel =>
      match cut_line s with
      | None => More
      | Some (line, s) =>
          match line with
          | b :: rest =>
              if (length line <? 3)%nat then Err
              else if decide (b = b_plus \/ b = b_minus \/ b = b_colon) then Ok line s
              else if decide (b = b_dollar) then
                match ParseInt (TrimSpace rest) with
                | None => Err
                | Some n =>
                    if n <? 0 then Ok line s
                    else if int64_max <? n + 2 then Panic
                    else let k := (Z.to_nat n + 2)%nat in
                         if (k <=? length s)%nat then Ok (line ++ take k s) (drop k s) else More
                end
              else if decide (b = b_star) then
                match ParseInt (TrimSpace rest) with
                | None => Err
                | Some n =>
                    if n <? 0 then Ok line s
                    else raw_parts (readRawRESP fuel) (Z.to_nat n) line s
                end
              else Err
          | [] => Err
          end
      end
  end.

(** [strings.ToUpper] as far as a comparison with ASCII text can tell: besides
    the ASCII letters only the dotless i (U+0131) and the long s (U+017F) map to
    ASCII; every other rune keeps a byte that is not ASCII. *)
Definition upper (b : byte) : byte :=
  if (97 <=? byteZ b) && (byteZ b <=? 122) then byte_of_Z (byteZ b - 32) else b.

Fixpoint ToUpper (s : bytes) : bytes :=
  match s with
  | [] => []
  | xc4 :: xb1 :: s => x49 :: ToUpper s
  | xc5 :: xbf :: s => x53 :: ToUpper s
  | b :: s => upper b :: ToUpper s
  end.

(** [verbDropsReply] *)
Definition verbDropsReply (verb : bytes) : bool :=
  bool_decide (ToUpper verb ∈ map bs ["INCR"; "INCRBY"; "EVAL"; "EVALSHA"]%string).

End Relay.
