(* ===== verification/RespProofs.v ===== *)
(** * RespProofs: the codec reads what Redis writes and stops where it ends *)

From S2P Require Import Prelude.
From S2P Require Import Strconv.
From S2P Require Import Resp.
From Stdlib Require Import ZArith Lia List String.
From Stdlib Require Import Strings.Byte.
From stdpp Require Import base list option sets.

Open Scope Z_scope.

(** ** Lines *)

Lemma cut_line_app l rest : b_lf ∉ l -> cut_line (l ++ b_lf :: rest) = Some (l ++ [b_lf], rest).
Proof.
  induction l as [|b l IH]; intros Hl; simpl; [done|].
  apply not_elem_of_cons in Hl as [Hb Hl]. rewrite decide_False by congruence. by rewrite IH.
Qed.

Lemma cut_line_Some s line rest :
  cut_line s = Some (line, rest) -> s = line ++ rest /\ exists l, line = l ++ [b_lf] /\ b_lf ∉ l.
Proof.
  revert line. induction s as [|b s IH]; intros line; simpl; [done|].
  destruct (decide (b = b_lf)) as [->|Hb].
  - intros [= <- <-]. split; [done|]. exists []. split; [done|]. apply not_elem_of_nil.
  - destruct (cut_line s) as [[l r]|]; [|done]. intros [= <- <-]. destruct (IH l eq_refl) as (-> & l' & -> & Hl).
    split; [done|]. exists (b :: l'). split; [done|]. by apply not_elem_of_cons.
Qed.

Lemma cut_line_take n s line rest :
  cut_line (take n s) = Some (line, rest) -> cut_line s = Some (line, drop (length line) s).
Proof.
  intros H. apply cut_line_Some in H as (E & l & -> & Hl).
  rewrite <- (take_drop n s) at 1. rewrite E, <- !app_assoc. simpl. rewrite cut_line_app by done.
  do 2 f_equal. rewrite <- (take_drop n s) at 2. rewrite E, <- !app_assoc.
  rewrite length_app, drop_app. simpl.
  rewrite (drop_ge l) by lia. replace (length l + 1 - length l)%nat with 1%nat by lia. done.
Qed.

Lemma trim_crlf_app l : trim_crlf (l ++ crlf) = Some l.
Proof.
  unfold trim_crlf. rewrite length_app. cbn [length crlf].
  replace (length l + 2 - 2)%nat with (length l) by lia.
  rewrite lookup_app_r, Nat.sub_diag by lia. rewrite (bool_decide_eq_true_2 (crlf !! 0%nat = Some b_cr)) by done.
  rewrite (proj2 (Nat.leb_le _ _)) by lia. cbn [andb]. by rewrite take_app_length.
Qed.

Lemma trim_crlf_Some line l : trim_crlf line = Some l -> b_lf ∉ l \/ True -> exists c, line = l ++ [b_cr; c].
Proof.
  unfold trim_crlf. destruct (Nat.leb_spec 2 (length line)); [|done]. simpl.
  case_bool_decide as Hc; [|done]. intros [= <-] _.
  destruct (line !! (length line - 1)%nat) as [c|] eqn:Hl.
  - exists c. rewrite <- (take_drop (length line - 2) line) at 1. f_equal.
    apply list_eq. intros [|[|i]]; rewrite ?lookup_drop; simpl.
    + by rewrite Nat.add_0_r.
    + rewrite <- Hl. f_equal. lia.
    + apply lookup_ge_None_2. lia.
  - apply lookup_ge_None_1 in Hl. lia.
Qed.

Lemma advance_app l rest e : advance {| rd := l ++ rest; rend := e |} (length l) = {| rd := rest; rend := e |}.
Proof. unfold advance. simpl. by rewrite drop_app_length. Qed.

(** A line that fits the buffer is read whole. *)
Lemma readLine_ok l rest e :
  b_lf ∉ l -> (length l + 2 <= bufSize)%nat ->
  readLine {| rd := l ++ crlf ++ rest; rend := e |} = (inl l, {| rd := rest; rend := e |}).
Proof.
  intros Hl Hn. unfold readLine, ReadSlice. cbn [rd].
  assert (E : l ++ crlf ++ rest = (l ++ [b_cr]) ++ b_lf :: rest) by (by rewrite <- app_assoc).
  rewrite E, take_app, (take_ge (l ++ [b_cr])) by (rewrite length_app; simpl; lia).
  destruct (bufSize - length (l ++ [b_cr]))%nat as [|k] eqn:Ek; [rewrite length_app in Ek; simpl in Ek; lia|].
  simpl. rewrite cut_line_app by set_solver.
  replace ((l ++ [b_cr]) ++ [b_lf]) with (l ++ crlf) by (by rewrite <- app_assoc).
  rewrite trim_crlf_app, <- E, app_assoc. by rewrite advance_app.
Qed.

(** What a line read leaves: the line, CRLF and the rest. *)
Lemma readLine_inl r l r' :
  readLine r = (inl l, r') ->
  rd r = l ++ crlf ++ rd r' /\ rend r' = rend r /\ b_lf ∉ l /\ (length l + 2 <= bufSize)%nat
  /\ cut_line (rd r) = Some (l ++ crlf, rd r').
Proof.
  unfold readLine, ReadSlice. destruct (cut_line (take bufSize (rd r))) as [[line x]|] eqn:E.
  - destruct (trim_crlf line) as [l0|] eqn:Ht; [|done]. intros [= <- <-].
    pose proof (cut_line_take _ _ _ _ E) as E'. pose proof E as E0.
    apply cut_line_Some in E as (Ex & m & -> & Hm).
    destruct (trim_crlf_Some _ _ Ht (or_intror Logic.I)) as (c & Hc).
    assert (m = l0 ++ [b_cr] /\ c = b_lf) as [-> ->].
    { replace (l0 ++ [b_cr; c]) with ((l0 ++ [b_cr]) ++ [c]) in Hc by (by rewrite <- app_assoc).
      apply app_inj_tail in Hc. naive_solver. }
    assert (Hll : (l0 ++ [b_cr]) ++ [b_lf] = l0 ++ crlf) by (by rewrite <- app_assoc).
    rewrite Hll in *. unfold advance. simpl. split_and!.
    + apply cut_line_Some in E' as [E' _]. rewrite E' at 1. by rewrite <- app_assoc.
    + done.
    + set_solver.
    + assert (length (l0 ++ crlf) <= bufSize)%nat as Hle.
      { assert (length (take bufSize (rd r)) <= bufSize)%nat by (rewrite length_take; lia).
        rewrite Ex, length_app in H. lia. }
      rewrite length_app in Hle. simpl in Hle. lia.
    + exact E'.
  - by destruct (bufSize <=? length (rd r))%nat.
Qed.

(** ** Lengths *)

Lemma parseLen_loop_spec s acc :
  0 <= acc <= maxParseLen ->
  parseLen_loop s acc = match digits_value s acc with
                        | Some v => if v <=? maxParseLen then Some v else None
                        | None => None
                        end.
Proof.
  unfold maxParseLen, int64_max. revert acc. induction s as [|b s IH]; intros acc Ha; cbn [parseLen_loop digits_value].
  - destruct (Z.leb_spec acc (2 ^ 63 - 1)); [done|lia].
  - unfold isDigit. destruct (Z.ltb_spec (byteZ b) 48), (Z.ltb_spec 57 (byteZ b)), (Z.leb_spec 48 (byteZ b)),
      (Z.leb_spec (byteZ b) 57); try lia; cbn [orb andb]; try done.
    unfold maxParseLen, int64_max.
    destruct (Z.ltb_spec ((2 ^ 63 - 1 - (byteZ b - 48)) / 10) acc) as [Ho|Ho].
    + destruct (digits_value s (acc * 10 + (byteZ b - 48))) as [v|] eqn:Ev; [|done].
      apply digits_value_mono in Ev; [|lia]. destruct (Z.leb_spec v (2 ^ 63 - 1)); [|done].
      pose proof (Z.div_mod (2 ^ 63 - 1 - (byteZ b - 48)) 10). pose proof (Z.mod_pos_bound (2 ^ 63 - 1 - (byteZ b - 48)) 10).
      lia.
    + rewrite IH; [done|]. pose proof (Z.mul_div_le (2 ^ 63 - 1 - (byteZ b - 48)) 10). lia.
Qed.

Lemma parseLen_iff s n :
  parseLen s = Some n <->
  exists (neg : bool) ds v, s = (if neg then b_minus :: ds else ds) /\ ds <> [] /\ digits_value ds 0 = Some v
    /\ v <= maxParseLen /\ n = if neg then - v else v.
Proof.
  assert (H0 : 0 <= 0 <= maxParseLen) by (unfold maxParseLen, int64_max; lia).
  unfold parseLen. split.
  - destruct s as [|b s]; [done|]. destruct (decide (b = b_minus)) as [->|Hb].
    + destruct s as [|c s]; [done|]. rewrite (parseLen_loop_spec _ 0 H0).
      destruct (digits_value (c :: s) 0) as [v|] eqn:Ev; [|done]. destruct (Z.leb_spec v maxParseLen); [|done].
      intros [= <-]. by exists true, (c :: s), v.
    + rewrite (parseLen_loop_spec _ 0 H0). destruct (digits_value (b :: s) 0) as [v|] eqn:Ev; [|done].
      destruct (Z.leb_spec v maxParseLen); [|done]. intros [= <-]. by exists false, (b :: s), v.
  - intros ([] & ds & v & -> & Hne & Hv & Hle & ->).
    + rewrite decide_True by done. destruct ds; [done|]. rewrite (parseLen_loop_spec _ 0 H0), Hv.
      rewrite (proj2 (Z.leb_le v maxParseLen)) by done. done.
    + destruct ds as [|b ds]; [done|]. rewrite decide_False.
      * rewrite (parseLen_loop_spec _ 0 H0), Hv. by rewrite (proj2 (Z.leb_le v maxParseLen)).
      * intros ->. done.
Qed.

(** [parseLen] accepts exactly an optional minus and decimal digits whose
    value fits in an int, and returns that value: no overflow on the way. *)
Theorem parseLen_spec s n :
  parseLen s = Some n <->
  exists (neg : bool) ds v, s = (if neg then b_minus :: ds else ds) /\ ds <> [] /\ digits_value ds 0 = Some v
    /\ v <= maxParseLen /\ n = if neg then - v else v.
Proof. apply parseLen_iff. Qed.


Lemma parseLen_FormatInt n : 0 <= n <= maxParseLen -> parseLen (FormatInt n) = Some n.
Proof.
  intros Hn. destruct (FormatInt_nonneg n ltac:(lia)) as (Hv & Hd & Hne).
  assert (H0 : 0 <= 0 <= maxParseLen) by (unfold maxParseLen, int64_max; lia).
  unfold parseLen. destruct (FormatInt n) as [|b s] eqn:E; [done|]. rewrite decide_False.
  - rewrite (parseLen_loop_spec _ 0 H0), Hv. by rewrite (proj2 (Z.leb_le n maxParseLen)) by lia.
  - intros ->. by inversion Hd.
Qed.

(** A length Redis' own parser accepts is the one [parseLen] reads. *)
Lemma parseLen_ParseInt s n : parseLen s = Some n -> ParseInt s = Some n.
Proof.
  assert (H0 : 0 <= 0 <= maxParseLen) by (unfold maxParseLen, int64_max; lia).
  unfold parseLen, ParseInt. destruct s as [|b s]; [done|]. destruct (decide (b = b_minus)).
  - destruct s as [|c s]; [done|]. rewrite (parseLen_loop_spec _ 0 H0).
    destruct (digits_value (c :: s) 0) as [v|]; [|done]. cbn [mbind option_bind].
    destruct (Z.leb_spec v maxParseLen); [|done]. unfold maxParseLen, int64_max in *.
    by rewrite (proj2 (Z.leb_le v (2 ^ 63))) by lia.
  - rewrite (parseLen_loop_spec _ 0 H0). destruct (decide (b = b_plus)) as [->|]; [done|].
    by destruct (digits_value (b :: s) 0).
Qed.

(** Digits are not line ends. *)
Lemma digits_no_lf s : Forall (fun b => isDigit b = true) s -> b_lf ∉ s.
Proof. intros H Hin. rewrite Forall_forall in H. by specialize (H _ Hin). Qed.

Lemma FormatInt_no_lf n : b_lf ∉ FormatInt n.
Proof.
  unfold FormatInt. destruct (Z.ltb_spec n 0).
  - destruct (dec_digits (Z.to_nat (Z.log2 (- n))) (- n)) as [Hd _]; [lia|].
    apply not_elem_of_cons. split; [done|by apply digits_no_lf].
  - destruct (dec_digits (Z.to_nat (Z.log2 n)) n) as [Hd _]; [lia|]. by apply digits_no_lf.
Qed.

(** ** Commands *)

(** Slice lengths are ints. *)
Definition sized (args : list bytes) : Prop :=
  Z.of_nat (length args) <= int64_max /\ Forall (fun a : bytes => Z.of_nat (length a) + 2 <= int64_max) args.

(** A header line [c<n>CRLF] as the relay reads it. *)
Lemma relay_head c n rest :
  c <> b_lf -> 0 <= n <= int64_max ->
  cut_line ((c :: FormatInt n ++ crlf) ++ rest) = Some (c :: FormatInt n ++ crlf, rest)
  /\ (3 <= length (c :: FormatInt n ++ crlf))%nat
  /\ ParseInt (take (length (c :: FormatInt n ++ crlf) - 3) (FormatInt n ++ crlf)) = Some n.
Proof.
  intros Hc Hn. split_and!.
  - replace ((c :: FormatInt n ++ crlf) ++ rest) with ((c :: FormatInt n ++ [b_cr]) ++ b_lf :: rest)
      by (simpl; by rewrite <- !app_assoc).
    rewrite cut_line_app; [simpl; by rewrite <- !app_assoc|].
    apply not_elem_of_cons. split; [done|]. rewrite elem_of_app, list_elem_of_singleton.
    intros [Hin|Hin]; [by apply FormatInt_no_lf in Hin|done].
  - simpl. rewrite length_app. simpl. lia.
  - replace (length (c :: FormatInt n ++ crlf) - 3)%nat with (length (FormatInt n))
      by (simpl; rewrite length_app; simpl; lia).
    rewrite take_app_length. apply ParseInt_FormatInt. unfold in_int64, int64_min. lia.
Qed.

Lemma relay_args args rest :
  Forall (fun a : bytes => Z.of_nat (length a) + 2 <= int64_max) args ->
  Relay.read_args (length args) (flat_map write_arg args ++ rest) = Relay.Ok args rest.
Proof.
  induction args as [|arg args IH]; intros Hl; [done|]. inversion Hl; subst.
  cbn [length flat_map Relay.read_args].
  replace ((write_arg arg ++ flat_map write_arg args) ++ rest)
    with ((b_dollar :: FormatInt (Z.of_nat (length arg)) ++ crlf) ++ (arg ++ crlf ++ flat_map write_arg args ++ rest))
    by (unfold write_arg, bulk_head; by rewrite <- !app_assoc).
  destruct (relay_head b_dollar (Z.of_nat (length arg)) (arg ++ crlf ++ flat_map write_arg args ++ rest))
    as (E1 & E2 & E3); [done|lia|].
  rewrite E1. rewrite (proj2 (Nat.ltb_ge _ _)) by lia.
  change (drop 1 (b_dollar :: ?x)) with x. rewrite E3.
  destruct (Z.ltb_spec (Z.of_nat (length arg) + 2) 0), (Z.ltb_spec int64_max (Z.of_nat (length arg) + 2)); try lia.
  cbn [orb]. replace (Z.to_nat (Z.of_nat (length arg) + 2)) with (length arg + 2)%nat by lia. rewrite Nat2Z.id.
  assert (L : (length arg + 2 = length (arg ++ crlf))%nat) by (rewrite length_app; done).
  rewrite (proj2 (Nat.leb_le _ _)) by (rewrite !length_app; simpl; lia).
  cbn [negb]. destruct (Z.ltb_spec (Z.of_nat (length arg)) 0); [lia|].
  assert (D : drop (length arg + 2) (arg ++ crlf ++ flat_map write_arg args ++ rest) = flat_map write_arg args ++ rest).
  { rewrite L, app_assoc, drop_app_length. done. }
  rewrite D, IH by done. by rewrite take_app_length.
Qed.

Lemma readCommand_write args rest :
  sized args -> Relay.readCommand (writeCommand args ++ rest) = Relay.Ok args rest.
Proof.
  intros [Hn Hl]. unfold writeCommand, Relay.readCommand. rewrite <- app_assoc.
  destruct (relay_head b_star (Z.of_nat (length args)) (flat_map write_arg args ++ rest)) as (E1 & E2 & E3); [done|lia|].
  rewrite E1. rewrite (proj2 (Nat.ltb_ge _ _)) by lia. rewrite bool_decide_eq_true_2 by done. cbn [orb negb].
  rewrite E3. destruct (Z.ltb_spec (Z.of_nat (length args)) 0); [lia|]. rewrite Nat2Z.id. by apply relay_args.
Qed.

(** The relay reads back exactly the argument list the client wrote and
    leaves the rest of the stream untouched. *)
Theorem command_roundtrip args rest :
  sized args -> Relay.readCommand (writeCommand args ++ rest) = Relay.Ok args rest.
Proof. apply readCommand_write. Qed.

Lemma command_roundtrip_witness :
  sized [bs "SET"; bs "k"; bs "a b"] /\
  Relay.readCommand (writeCommand [bs "SET"; bs "k"; bs "a b"] ++ bs "*1") = Relay.Ok [bs "SET"; bs "k"; bs "a b"] (bs "*1").
Proof.
  assert (H : sized [bs "SET"; bs "k"; bs "a b"]) by (split; [done|repeat constructor; done]).
  split; [exact H|]. apply (command_roundtrip _ (bs "*1") H).
Defined.

(** ** Replies *)

(** What a RESP2 server sends, as far as this client decodes it. *)
Inductive elem := EBulk (v : option bytes) | EInt (n : Z) | EStatus (s : bytes).
Inductive rvalue := VElem (e : elem) | VError (s : bytes) | VArray (l : list elem).

Definition encode_elem (e : elem) : bytes :=
  match e with
  | EBulk None => b_dollar :: FormatInt (-1) ++ crlf
  | EBulk (Some d) => write_arg d
  | EInt n => b_colon :: FormatInt n ++ crlf
  | EStatus s => b_plus :: s ++ crlf
  end.

Definition encode (v : rvalue) : bytes :=
  match v with
  | VElem e => encode_elem e
  | VError s => b_minus :: s ++ crlf
  | VArray l => (b_star :: FormatInt (Z.of_nat (length l)) ++ crlf) ++ flat_map encode_elem l
  end.

(** The slot an element becomes; an empty status is a nil slice. *)
Definition decode_elem (e : elem) : option bytes :=
  match e with EBulk v => v | EInt n => Some (FormatInt n) | EStatus s => copy_bytes s end.

Definition decode (v : rvalue) : reply :=
  match v with
  | VElem e => ok_reply [decode_elem e]
  | VError s => {| values := []; clean := true; rerror := Some (replyError s) |}
  | VArray l => ok_reply (map decode_elem l)
  end.

(** Status and error lines fit the buffer; bulks and arrays are within the
    caps. *)
Definition line_ok (s : bytes) : Prop := b_lf ∉ s /\ (length s + 3 <= bufSize)%nat.

Definition elem_ok (e : elem) : Prop :=
  match e with
  | EBulk None => True
  | EBulk (Some d) => Z.of_nat (length d) <= maxBulkLength
  | EInt n => in_int64 n
  | EStatus s => line_ok s
  end.

Definition value_ok (v : rvalue) : Prop :=
  match v with
  | VElem e => elem_ok e
  | VError s => line_ok s
  | VArray l => Z.of_nat (length l) <= maxArrayCount /\ Forall elem_ok l
  end.

Lemma readLine_head c s rest e :
  c <> b_lf -> b_lf ∉ s -> (length s + 3 <= bufSize)%nat ->
  readLine {| rd := (c :: s ++ crlf) ++ rest; rend := e |} = (inl (c :: s), {| rd := rest; rend := e |}).
Proof.
  intros Hc Hs Hl. replace ((c :: s ++ crlf) ++ rest) with ((c :: s) ++ crlf ++ rest) by (simpl; by rewrite <- app_assoc).
  apply readLine_ok; [set_solver|simpl; lia].
Qed.

Lemma readLine_int c n rest e :
  c <> b_lf -> in_int64 n ->
  readLine {| rd := (c :: FormatInt n ++ crlf) ++ rest; rend := e |} = (inl (c :: FormatInt n), {| rd := rest; rend := e |}).
Proof.
  intros Hc Hn. apply readLine_head; [done|apply FormatInt_no_lf|]. pose proof (FormatInt_length n Hn). unfold bufSize. lia.
Qed.

Lemma readBulk_ok d rest e :
  Z.of_nat (length d) <= maxBulkLength ->
  readBulk {| rd := (d ++ crlf) ++ rest; rend := e |} (b_dollar :: FormatInt (Z.of_nat (length d)))
  = (inl d, {| rd := rest; rend := e |}).
Proof.
  intros Hd. unfold readBulk. rewrite decide_True by done. rewrite parseLen_FormatInt by (unfold maxBulkLength, maxParseLen, int64_max in *; lia).
  destruct (Z.ltb_spec (Z.of_nat (length d)) 0); [lia|].
  destruct (Z.ltb_spec maxBulkLength (Z.of_nat (length d))); [lia|].
  rewrite Nat2Z.id. unfold ReadFull. cbn [rd rend].
  assert (L : (length d + 2 = length (d ++ crlf))%nat) by (rewrite length_app; done).
  rewrite (proj2 (Nat.leb_le _ _)) by (rewrite length_app; lia).
  rewrite L, take_app_length, advance_app.
  rewrite !lookup_app_r by lia. replace (length d + 1 - length d)%nat with 1%nat by lia. rewrite Nat.sub_diag.
  rewrite (bool_decide_eq_true_2 (crlf !! 0%nat = Some b_cr)) by done.
  rewrite (bool_decide_eq_true_2 (crlf !! 1%nat = Some b_lf)) by done. cbn [andb].
  by rewrite take_app_length.
Qed.

Lemma readBulk_nil r : readBulk r (b_dollar :: FormatInt (-1)) = (inr eMiss, r).
Proof. reflexivity. Qed.

Lemma copy_FormatInt n : copy_bytes (FormatInt n) = Some (FormatInt n).
Proof.
  unfold FormatInt. destruct (Z.ltb_spec n 0); [done|].
  destruct (dec_digits (Z.to_nat (Z.log2 n)) n) as [_ Hne]; [lia|]. by destruct (dec _ _).
Qed.

(** One element of an array. *)
Lemma read_elems_ok l rest e :
  Forall elem_ok l ->
  read_elems (length l) {| rd := flat_map encode_elem l ++ rest; rend := e |}
  = (inl (map decode_elem l), {| rd := rest; rend := e |}).
Proof.
  induction l as [|x l IH]; intros Hl; [done|]. inversion Hl as [|? ? Hx Hl']; subst. clear Hl.
  specialize (IH Hl'). cbn [length flat_map read_elems map]. rewrite <- app_assoc.
  set (tl := flat_map encode_elem l ++ rest) in *.
  destruct x as [[d|]|n|s]; unfold encode_elem; unfold elem_ok in Hx.
  - replace (write_arg d ++ tl) with ((b_dollar :: FormatInt (Z.of_nat (length d)) ++ crlf) ++ ((d ++ crlf) ++ tl))
      by (unfold write_arg, bulk_head; by rewrite <- !app_assoc).
    rewrite readLine_int by (done || unfold in_int64, int64_min, int64_max, maxBulkLength in *; lia).
    rewrite decide_True by done. rewrite readBulk_ok by done. rewrite IH. done.
  - rewrite readLine_int by done. rewrite decide_True by done. rewrite readBulk_nil, IH. done.
  - rewrite readLine_int by done. rewrite decide_False by done. rewrite decide_True by (by left).
    by rewrite IH, copy_FormatInt.
  - destruct Hx as [H1 H2]. rewrite readLine_head by done. rewrite decide_False by done.
    rewrite decide_True by (by right). rewrite IH. done.
Qed.

Lemma readReply_encode v rest e :
  value_ok v -> readReply {| rd := encode v ++ rest; rend := e |} = (decode v, {| rd := rest; rend := e |}).
Proof.
  intros Hv. unfold readReply. destruct v as [[[d|]|n|s]|s|l]; cbn [value_ok elem_ok encode encode_elem decode decode_elem] in *.
  - replace (write_arg d ++ rest) with ((b_dollar :: FormatInt (Z.of_nat (length d)) ++ crlf) ++ ((d ++ crlf) ++ rest))
      by (unfold write_arg, bulk_head; by rewrite <- !app_assoc).
    rewrite readLine_int by (done || unfold in_int64, int64_min, int64_max, maxBulkLength in *; lia).
    rewrite decide_False by (intros [?|?]; done). rewrite decide_False, decide_True by done.
    by rewrite readBulk_ok.
  - rewrite readLine_int by done. rewrite decide_False by (intros [?|?]; done).
    rewrite decide_False, decide_True by done. by rewrite readBulk_nil.
  - rewrite readLine_int by done. rewrite decide_True by (by right). by rewrite copy_FormatInt.
  - destruct Hv as [H1 H2]. rewrite readLine_head by done. by rewrite decide_True by (by left).
  - destruct Hv as [H1 H2]. rewrite readLine_head by done. rewrite decide_False by (intros [?|?]; done).
    by rewrite decide_True.
  - destruct Hv as [H1 H2]. unfold maxArrayCount in H1. rewrite <- app_assoc.
    rewrite readLine_int by (done || unfold in_int64, int64_min, int64_max; lia).
    rewrite decide_False by (intros [?|?]; done). rewrite !decide_False, decide_True by done.
    rewrite parseLen_FormatInt by (unfold maxParseLen, int64_max; lia). unfold maxArrayCount.
    destruct (Z.ltb_spec (Z.of_nat (length l)) 0), (Z.ltb_spec (2 ^ 20) (Z.of_nat (length l))); try lia. cbn [orb].
    rewrite Nat2Z.id. by rewrite read_elems_ok.
Qed.

(** C24: whatever well-formed RESP2 value the server sends (status, error,
    integer, bulk, nil bulk, or flat array of them) within the caps, [readReply]
    decodes it, reports the stream clean and stops at its last byte. *)
Theorem reply_roundtrip v rest e :
  value_ok v -> readReply {| rd := encode v ++ rest; rend := e |} = (decode v, {| rd := rest; rend := e |}).
Proof. apply readReply_encode. Qed.

Lemma reply_roundtrip_witness :
  let v := VArray [EBulk (Some (bs "a")); EBulk None; EInt 42; EStatus (bs "OK")] in
  value_ok v /\ readReply {| rd := encode v ++ bs "+"; rend := EOF |} = (decode v, {| rd := bs "+"; rend := EOF |}).
Proof.
  intros v. assert (H : value_ok v).
  { split; [vm_compute; discriminate|]. repeat constructor; try (vm_compute; discriminate); try lia.
    intros Hin. by repeat (apply elem_of_cons in Hin as [Hin|Hin]; [discriminate Hin|]); inversion Hin. }
  split; [exact H|]. apply (reply_roundtrip v (bs "+") EOF H).
Defined.

(** ** Framing *)

Definition lenish (b : byte) : bool := isDigit b || bool_decide (b = b_minus).

Lemma find_none b s sp :
  lenish b = true -> forallb (fun p => match p with [] => false | c :: _ => negb (lenish c) end) sp = true ->
  find (fun p => HasPrefix (b :: s) p) sp = None.
Proof.
  intros Hb. induction sp as [|p sp IH]; simpl; [done|]. intros [Hp Hsp]%andb_true_iff.
  destruct p as [|c p]; [done|]. simpl. destruct (bool_decide_reflect (c = b)) as [->|].
  - by rewrite Hb in Hp.
  - simpl. by apply IH.
Qed.

Lemma find_lf s : find (fun p => HasPrefix (b_lf :: s) p) (map reverse Relay.spaces) = Some [b_lf].
Proof. by vm_compute. Qed.

Lemma find_cr s : find (fun p => HasPrefix (b_cr :: s) p) (map reverse Relay.spaces) = Some [b_cr].
Proof. by vm_compute. Qed.

(** Trimming the CRLF off a length. *)
Lemma TrimSpace_len ds :
  ds <> [] -> Forall (fun b => lenish b = true) ds -> Relay.TrimSpace (ds ++ crlf) = ds.
Proof.
  intros Hne Hds. unfold Relay.TrimSpace.
  assert (E1 : forall k, Relay.trim_prefix k Relay.spaces (ds ++ crlf) = ds ++ crlf).
  { intros [|k]; [done|]. destruct ds as [|b ds]; [done|]. inversion Hds; subst.
    cbn [Relay.trim_prefix]. change ((b :: ds) ++ crlf) with (b :: (ds ++ crlf)).
    rewrite find_none; [done|done|by vm_compute]. }
  rewrite E1, length_app. cbn [length crlf]. rewrite reverse_app.
  replace (length ds + 2)%nat with (S (S (length ds))) by lia. change (reverse crlf) with [b_lf; b_cr].
  cbn [app Relay.trim_prefix].
  rewrite find_lf.
  change (drop (length [b_lf]) (b_lf :: b_cr :: reverse ds)) with (b_cr :: reverse ds).
  rewrite find_cr.
  change (drop (length [b_cr]) (b_cr :: reverse ds)) with (reverse ds).
  assert (E2 : forall k, Relay.trim_prefix k (map reverse Relay.spaces) (reverse ds) = reverse ds).
  { intros [|k]; [done|]. destruct (reverse ds) as [|b s] eqn:E.
    - apply (f_equal reverse) in E. rewrite reverse_involutive in E. done.
    - cbn [Relay.trim_prefix]. rewrite find_none; [done| |by vm_compute].
      rewrite Forall_forall in Hds. apply Hds. rewrite <- (reverse_involutive ds), E, reverse_cons. set_solver. }
  by rewrite E2, reverse_involutive.
Qed.

Lemma digits_lenish s acc v : digits_value s acc = Some v -> Forall (fun b => lenish b = true) s.
Proof.
  revert acc. induction s as [|b s IH]; intros acc; simpl; [constructor|].
  unfold lenish at 1. destruct (isDigit b) eqn:Hb; [|done]. intros H. constructor; [by rewrite Hb|by eapply IH].
Qed.

(** Both decoders read the same length. *)
Lemma lengths_agree ds n :
  parseLen ds = Some n -> ds <> [] /\ ParseInt (Relay.TrimSpace (ds ++ crlf)) = Some n.
Proof.
  intros H. pose proof (parseLen_ParseInt _ _ H) as HP. apply parseLen_iff in H as (neg & s & v & -> & Hne & Hv & _).
  assert (Hd : Forall (fun b => lenish b = true) (if neg then b_minus :: s else s)).
  { pose proof (digits_lenish _ _ _ Hv). destruct neg; [by constructor|done]. }
  assert (Hn : (if neg then b_minus :: s else s) <> []) by (by destruct neg).
  split; [done|]. by rewrite TrimSpace_len.
Qed.

(** [raw] is what the relay copies off the front of [rd r], and the rest is
    what is left in [r']. *)
Definition frames (fuel : nat) (r r' : reader) : Prop :=
  exists raw, rd r = raw ++ rd r' /\ Relay.readRawRESP fuel (rd r) = Relay.Ok raw (rd r').

Lemma frames_line fuel r c s r' :
  readLine r = (inl (c :: s), r') -> c = b_plus \/ c = b_minus \/ c = b_colon -> frames (S fuel) r r'.
Proof.
  intros H Hc. apply readLine_inl in H as (Hr & _ & _ & _ & Hcut). exists ((c :: s) ++ crlf).
  split; [by rewrite Hr, <- app_assoc|]. cbn [Relay.readRawRESP]. rewrite Hcut. cbn [app].
  rewrite (proj2 (Nat.ltb_ge _ _)) by (simpl; rewrite length_app; simpl; lia). by rewrite decide_True.
Qed.

Lemma frames_bulk fuel r s r1 :
  readLine r = (inl (b_dollar :: s), r1) ->
  match readBulk r1 (b_dollar :: s) with
  | (inl _, r') | (inr eMiss, r') => frames (S fuel) r r'
  | _ => True
  end.
Proof.
  intros H. apply readLine_inl in H as (Hr & _ & _ & _ & Hcut).
  unfold readBulk. rewrite decide_True by done. destruct (parseLen s) as [n|] eqn:Hn; [|done].
  destruct (lengths_agree _ _ Hn) as [Hne HP].
  assert (Hraw : Relay.readRawRESP (S fuel) (rd r) =
    if n <? 0 then Relay.Ok ((b_dollar :: s) ++ crlf) (rd r1)
    else if int64_max <? n + 2 then Relay.Panic
    else if (Z.to_nat n + 2 <=? length (rd r1))%nat
         then Relay.Ok (((b_dollar :: s) ++ crlf) ++ take (Z.to_nat n + 2) (rd r1)) (drop (Z.to_nat n + 2) (rd r1))
         else Relay.More).
  { cbn [Relay.readRawRESP]. rewrite Hcut. cbn [app].
    rewrite (proj2 (Nat.ltb_ge _ _)) by (simpl; rewrite length_app; simpl; lia).
    rewrite decide_False by (intros [?|[?|?]]; done). rewrite decide_True by done. by rewrite HP. }
  destruct (Z.ltb_spec n 0).
  - exists ((b_dollar :: s) ++ crlf). split; [by rewrite Hr, <- app_assoc|done].
  - destruct (Z.ltb_spec maxBulkLength n); [done|]. unfold ReadFull.
    destruct (Nat.leb_spec (Z.to_nat n + 2) (length (rd r1))) as [Hl|Hl].
    + destruct (bool_decide _ && bool_decide _); [|done]. exists (((b_dollar :: s) ++ crlf) ++ take (Z.to_nat n + 2) (rd r1)). unfold advance. simpl rd.
      split; [rewrite Hr, <- !app_assoc; by rewrite take_drop|].
      rewrite Hraw. destruct (Z.ltb_spec int64_max (n + 2)); [|done].
      unfold maxBulkLength, int64_max in *. lia.
    + done.
Qed.

(** The element loop stops where the relay's loop does. *)
Lemma frames_elems fuel count raw r vs r' :
  read_elems count r = (inl vs, r') ->
  exists body, rd r = body ++ rd r'
    /\ Relay.raw_parts (Relay.readRawRESP (S fuel)) count raw (rd r) = Relay.Ok (raw ++ body) (rd r').
Proof.
  revert raw r vs. induction count as [|count IH]; intros raw r vs; cbn [read_elems Relay.raw_parts].
  { intros [= <- <-]. exists []. by rewrite app_nil_r. }
  destruct (readLine r) as [[l|e] r1] eqn:Hl; [|done]. destruct l as [|b s]; [done|].
  assert (Hgo : forall (v : option bytes) r2, frames (S fuel) r r2 ->
    match read_elems count r2 with (inl vs0, r3) => (inl (v :: vs0), r3) | (inr e, r3) => (inr e, r3) end = (inl vs, r') ->
    exists body, rd r = body ++ rd r' /\
      match Relay.readRawRESP (S fuel) (rd r) with
      | Relay.Ok part s0 => Relay.raw_parts (Relay.readRawRESP (S fuel)) count (raw ++ part) s0
      | e => e end = Relay.Ok (raw ++ body) (rd r')).
  { intros v r2 (part & Hp & Hraw) He. destruct (read_elems count r2) as [[vs0|e] r3] eqn:E2; [|done].
    injection He as <- <-. destruct (IH (raw ++ part) r2 vs0 E2) as (body & Hb & Hparts).
    exists (part ++ body). split; [by rewrite Hp, Hb, <- app_assoc|]. by rewrite Hraw, Hparts, <- app_assoc. }
  destruct (decide (b = b_dollar)) as [->|Hb].
  - pose proof (frames_bulk fuel r s r1 Hl) as Hf. destruct (readBulk r1 (b_dollar :: s)) as [[d|e] r2].
    + by apply (Hgo (Some d)).
    + destruct e; try done. by apply (Hgo None).
  - destruct (decide (b = b_colon \/ b = b_plus)) as [Hc|]; [|done].
    apply (Hgo (copy_bytes s)). eapply frames_line; [done|]. tauto.
Qed.

(** When [readReply] reports the stream clean, it has consumed exactly one RESP
    value: the relay's independent framing copies the same bytes and leaves the
    same rest. *)
Lemma readReply_frames r p r' :
  readReply r = (p, r') -> clean p = true -> frames 2 r r'.
Proof.
  unfold readReply. destruct (readLine r) as [[l|e] r1] eqn:Hl; [|by intros [= <- <-]].
  destruct l as [|b s]; [by intros [= <- <-]|].
  destruct (decide (b = b_plus \/ b = b_colon)) as [Hb|_].
  { intros [= <- <-] _. eapply frames_line; [done|]. tauto. }
  destruct (decide (b = b_minus)) as [Hb|_].
  { intros [= <- <-] _. eapply frames_line; [done|]. tauto. }
  destruct (decide (b = b_dollar)) as [->|_].
  { pose proof (frames_bulk 1 r s r1 Hl) as Hf. destruct (readBulk r1 (b_dollar :: s)) as [[d|e] r2].
    - by intros [= <- <-].
    - destruct e; try (by intros [= <- <-]). }
  destruct (decide (b = b_star)) as [->|_]; [|by intros [= <- <-]].
  destruct (parseLen s) as [n|] eqn:Hn; [|by intros [= <- <-]].
  destruct ((n <? 0) || (maxArrayCount <? n)) eqn:Hrange; [by intros [= <- <-]|].
  destruct (read_elems (Z.to_nat n) r1) as [[vs|e] r2] eqn:He; [|by intros [= <- <-]].
  intros [= <- <-] _. apply readLine_inl in Hl as (Hr & _ & _ & _ & Hcut).
  destruct (lengths_agree _ _ Hn) as [Hne HP].
  destruct (frames_elems 0 (Z.to_nat n) ((b_star :: s) ++ crlf) r1 vs r2 He) as (body & Hb & Hparts).
  exists (((b_star :: s) ++ crlf) ++ body). split; [by rewrite Hr, Hb, <- !app_assoc|].
  cbn [Relay.readRawRESP]. rewrite Hcut. cbn [app] in *.
  rewrite (proj2 (Nat.ltb_ge _ _)) by (simpl; rewrite length_app; simpl; lia).
  rewrite decide_False by (intros [?|[?|?]]; done). rewrite decide_False, decide_True by done. rewrite HP.
  apply orb_false_iff in Hrange as [Hz _]. rewrite Hz. exact Hparts.
Qed.

(** A reply without an error is clean. *)
Lemma readReply_error r p r' : readReply r = (p, r') -> clean p = false -> rerror p <> None.
Proof.
  unfold readReply. intros H Hc. repeat case_match; simplify_eq; try done; cbn in *; congruence.
Qed.
