(* ===== verification/RelaySession.v ===== *)
(** * RelaySession: one session of the reply-dropping relay
    ([e2e/respdroprelay/main.go])

    The client is the bytes it writes before it hangs up.  The engine behind the
    relay is an argument: from its state and the bytes of one flushed command it
    goes to a new state and appends bytes to its stream, which it may then close;
    a read of more than it wrote waits for ever while the stream is open.  Which
    upstream flushes and client writes fail is an argument too, by their
    number. *)

From S2P Require Import Prelude.
From S2P Require Import Strconv.
From S2P Require Import Resp.
From S2P Require Import RespProofs.
From Stdlib Require Import ZArith Lia List Init.Byte Strings.String.
From stdpp Require Import base list option.

Open Scope Z_scope.

(** ** The copy of one value terminates *)

Lemma cut_line_shorter s line rest : cut_line s = Some (line, rest) -> (length rest < length s)%nat.
Proof. intros (-> & l & -> & _)%cut_line_Some. rewrite !length_app. simpl. lia. Qed.

Lemma raw_parts_agree (f g : bytes -> Relay.res bytes) k : forall raw s,
  (forall t, (length t <= length s)%nat -> f t = g t) ->
  (forall t part rest, (length t <= length s)%nat -> f t = Relay.Ok part rest -> (length rest < length t)%nat) ->
  Relay.raw_parts f k raw s = Relay.raw_parts g k raw s.
Proof.
  induction k as [|k IH]; intros raw s Ha Hs; cbn [Relay.raw_parts]; [done|]. rewrite <- Ha by lia.
  destruct (f s) as [part rest| | |] eqn:E; try done. apply Hs in E; [|lia].
  apply IH; intros t; intros; [apply Ha; lia|by eapply Hs; [lia|]].
Qed.

Lemma raw_parts_shorter (f : bytes -> Relay.res bytes) k : forall raw s out rest,
  (forall t part rest, f t = Relay.Ok part rest -> (length rest < length t)%nat) ->
  Relay.raw_parts f k raw s = Relay.Ok out rest -> (length rest <= length s)%nat.
Proof.
  induction k as [|k IH]; intros raw s out rest Hs; cbn [Relay.raw_parts]; [intros [= _ <-]; lia|].
  destruct (f s) as [part rest'| | |] eqn:E; try done. apply Hs in E. intros H. apply IH in H; [lia|done].
Qed.

Lemma readRawRESP_shorter fuel : forall s raw rest, Relay.readRawRESP fuel s = Relay.Ok raw rest -> (length rest < length s)%nat.
Proof.
  induction fuel as [|fuel IH]; intros s raw rest; cbn [Relay.readRawRESP]; [done|].
  destruct (cut_line s) as [[line s1]|] eqn:E; [|done]. apply cut_line_shorter in E. destruct line as [|b l]; [done|].
  destruct (length _ <? 3)%nat; [done|]. destruct (decide _); [by intros [= _ <-]|]. destruct (decide _).
  - destruct (ParseInt _) as [cnt|]; [|done]. destruct (cnt <? 0); [by intros [= _ <-]|]. destruct (_ <? cnt + 2); [done|].
    destruct (_ <=? length _)%nat; [|done]. intros [= _ <-]. rewrite length_drop. lia.
  - destruct (decide _); [|done]. destruct (ParseInt _) as [cnt|]; [|done]. destruct (cnt <? 0); [by intros [= _ <-]|].
    intros H. eapply raw_parts_shorter in H; [lia|]. intros. by eapply IH.
Qed.

Lemma readRawRESP_fuel fuel : forall fuel' s, (length s < fuel)%nat -> (length s < fuel')%nat ->
  Relay.readRawRESP fuel s = Relay.readRawRESP fuel' s.
Proof.
  induction fuel as [|fuel IH]; intros [|fuel'] s H1 H2; [lia..|]. cbn [Relay.readRawRESP].
  destruct (cut_line s) as [[line s1]|] eqn:E; [|done]. apply cut_line_shorter in E. destruct line as [|b l]; [done|].
  destruct (length _ <? 3)%nat; [done|]. destruct (decide _); [done|]. destruct (decide _); [done|].
  destruct (decide _); [|done]. destruct (ParseInt _) as [cnt|]; [|done]. destruct (cnt <? 0); [done|].
  apply raw_parts_agree; [intros t Ht; apply IH; lia|]. intros t part rest _. apply readRawRESP_shorter.
Qed.

(** A fuel that gave a value keeps giving it. *)
Lemma readRawRESP_enough fuel : forall k s raw rest,
  Relay.readRawRESP fuel s = Relay.Ok raw rest -> Relay.readRawRESP (fuel + k) s = Relay.Ok raw rest.
Proof.
  induction fuel as [|fuel IH]; intros k s raw rest; [done|]. cbn [Relay.readRawRESP Nat.add].
  destruct (cut_line s) as [[line s1]|]; [|done]. destruct line as [|b l]; [done|].
  destruct (length _ <? 3)%nat; [done|]. destruct (decide _); [done|]. destruct (decide _); [done|].
  destruct (decide _); [|done]. destruct (ParseInt _) as [cnt|]; [|done]. destruct (cnt <? 0); [done|].
  generalize (b :: l) as acc. generalize (Z.to_nat cnt) as m. intros m. revert s1.
  induction m as [|m IHm]; intros s1 acc; cbn [Relay.raw_parts]; [done|].
  destruct (Relay.readRawRESP fuel s1) as [part rest'| | |] eqn:E; try done. rewrite (IH k _ _ _ E). apply IHm.
Qed.

(** Reading one value off a finite stream. *)
Definition read_value (s : bytes) : Relay.res bytes := Relay.readRawRESP (S (length s)) s.

(** ** The session *)

(** [Blocked]: the goroutine waits for the engine and nothing will wake it. *)
Inductive ended := Returned | Panicked | Blocked | NoFuel.

Section Session.
Context {U : Type} (serve : U -> bytes -> U * bytes) (closed : U -> bool) (flush_ok write_ok : nat -> bool).

(** What the client received, the engine's state and how the session ended. *)
Record outcome := mkOutcome { received : bytes; engine : U; how : ended }.

(** The loop of [relaySession]: [i] counts the commands, [hasForwarded] is
    whether a reply was passed on before.  [fuel] bounds the commands left. *)
Fixpoint relay_loop (fuel i : nat) (client upstream : bytes) (u : U) (hasForwarded : bool) : outcome :=
  match fuel with
  | O => mkOutcome [] u NoFuel
  | S fuel =>
      match Relay.readCommand client with
      | Relay.Err | Relay.More => mkOutcome [] u Returned
      | Relay.Panic => mkOutcome [] u Panicked
      | Relay.Ok args client =>
          if negb (flush_ok i) then mkOutcome [] u Returned
          else
            let '(u, answer) := serve u (Relay.writeCommand args) in
            match read_value (upstream ++ answer) with
            | Relay.Err => mkOutcome [] u Returned
            | Relay.More => mkOutcome [] u (if closed u then Returned else Blocked)
            | Relay.Panic => mkOutcome [] u Panicked
            | Relay.Ok reply upstream =>
                let go := if write_ok i then
                            let o := relay_loop fuel (S i) client upstream u true in mkOutcome (reply ++ received o) (engine o) (how o)
                          else mkOutcome [] u Returned in
                if hasForwarded then
                  match args with
                  | [] => mkOutcome [] u Panicked
                  | verb :: _ => if Relay.verbDropsReply verb then mkOutcome [] u Returned else go
                  end
                else go
            end
      end
  end.

(** [relaySession]; [dial_ok] is whether the upstream answered the dial. *)
Definition relaySession (dial_ok : bool) (client : bytes) (u : U) : outcome :=
  if dial_ok then relay_loop (S (length client)) 0 client [] u false else mkOutcome [] u Returned.

Lemma read_args_shorter k : forall t args rest, Relay.read_args k t = Relay.Ok args rest -> exists pre, t = pre ++ rest.
Proof.
  induction k as [|k IH]; intros t a r; cbn [Relay.read_args]; [by intros [= _ <-]; exists []|].
  destruct (cut_line t) as [[line t1]|] eqn:E1; [|done]. destruct (cut_line_Some _ _ _ E1) as [-> _].
  destruct (length _ <? 3)%nat; [done|]. destruct (ParseInt _) as [m|]; [|done]. destruct (_ || _); [done|].
  destruct (negb _); [done|]. destruct (m <? 0); [done|].
  destruct (Relay.read_args k _) as [a' r'| | |] eqn:E2; try done. intros [= _ <-]. destruct (IH _ _ _ E2) as [pre E].
  exists (line ++ take (Z.to_nat (m + 2)) t1 ++ pre). by rewrite <- !app_assoc, <- E, take_drop.
Qed.

(** A command read is taken off the front of the stream. *)
Lemma readCommand_suffix s args rest :
  Relay.readCommand s = Relay.Ok args rest -> (length rest < length s)%nat /\ exists pre, s = pre ++ rest.
Proof.
  unfold Relay.readCommand. destruct (cut_line s) as [[header s1]|] eqn:E; [|done].
  pose proof (cut_line_shorter _ _ _ E) as Hs. destruct (cut_line_Some _ _ _ E) as [-> _].
  destruct header as [|b l]; [done|]. destruct (_ || _); [done|]. destruct (ParseInt _) as [cnt|]; [|done]. destruct (cnt <? 0); [done|].
  intros [pre ->]%read_args_shorter. split; [rewrite length_app in Hs; lia|].
  exists ((b :: l) ++ pre). by rewrite <- app_assoc.
Qed.

(** ** What the client and the engine see *)

Lemma relay_write args : Relay.writeCommand args = writeCommand args.
Proof.
  unfold Relay.writeCommand, writeCommand. f_equal. induction args as [|a args IH]; [done|].
  cbn [flat_map]. rewrite IH. unfold write_arg, bulk_head. cbn [app]. by rewrite <- !app_assoc.
Qed.

Lemma read_value_encode v : value_ok v -> read_value (encode v) = Relay.Ok (encode v) [].
Proof.
  intros Hv. pose proof (readReply_encode v [] EOF Hv) as Hr. rewrite app_nil_r in Hr.
  destruct (readReply_frames _ _ _ Hr) as (raw & Hraw & Hf); [by destruct v|]. cbn [rd] in *. rewrite app_nil_r in Hraw.
  rewrite <- Hraw in Hf. apply (readRawRESP_enough 2 (length (encode v))) in Hf. unfold read_value.
  rewrite <- Hf. apply readRawRESP_fuel; lia.
Qed.

(** ** A session ends *)







(** ** Commands and replies in order *)

(** What a session should do with a list of commands: every command reaches the
    engine as it was sent; replies come back up to the first dropped verb after a
    forwarded command, which is still applied and ends the session. *)
Fixpoint forwards (hasForwarded : bool) (cmds : list (list bytes)) (u : U) : bytes * U :=
  match cmds with
  | [] => ([], u)
  | cmd :: cmds =>
      let '(u, answer) := serve u (writeCommand cmd) in
      if hasForwarded && match cmd with verb :: _ => Relay.verbDropsReply verb | [] => false end then ([], u)
      else let '(out, u) := forwards true cmds u in (answer ++ out, u)
  end.

Hypothesis answers : forall u b, exists v, value_ok v /\ (serve u b).2 = encode v.
Hypothesis flushes : forall i, flush_ok i = true.
Hypothesis writes : forall i, write_ok i = true.

Lemma relay_loop_forwards cmds : forall fuel i u fwd,
  Forall (fun cmd => sized cmd /\ cmd <> []) cmds -> (length (flat_map writeCommand cmds) < fuel)%nat ->
  relay_loop fuel i (flat_map writeCommand cmds) [] u fwd
  = mkOutcome (forwards fwd cmds u).1 (forwards fwd cmds u).2 Returned.
Proof.
  induction cmds as [|cmd cmds IH]; intros [|fuel] i u fwd Hc Hl; [cbn in Hl; lia|done|lia|].
  inversion Hc as [|? ? [Hs Hne] Hc']; subst. cbn [relay_loop flat_map forwards]. rewrite readCommand_write by done.
  rewrite flushes, relay_write. cbn [negb]. destruct (answers u (writeCommand cmd)) as (v & Hv & Ha).
  destruct (serve u (writeCommand cmd)) as [u' ans]. cbn [snd] in Ha. subst ans. cbn [app]. rewrite read_value_encode by done.
  assert (Hlen : (length (flat_map writeCommand cmds) < fuel)%nat).
  { destruct (readCommand_suffix _ _ _ (readCommand_write cmd (flat_map writeCommand cmds) Hs)). cbn [flat_map] in Hl. lia. }
  rewrite writes, IH by done. cbn [received engine how]. destruct cmd as [|verb cmd]; [done|].
  destruct fwd; cbn [andb]; [destruct (Relay.verbDropsReply verb); [done|]|]; by destruct (forwards true cmds u').
Qed.

(** C39: with an engine that answers each command with one RESP value and
    sockets that work, the engine gets every command of the session byte for byte
    as the client wrote it and in order, and the client gets exactly the engine's
    replies, up to the first INCR, INCRBY, EVAL or EVALSHA (in any case) after a
    forwarded command: that one is applied, its reply dropped and the session
    closed.  A first command is always answered. *)
Theorem relay_forwards_then_drops cmds u :
  Forall (fun cmd => sized cmd /\ cmd <> []) cmds ->
  relaySession true (flat_map writeCommand cmds) u = mkOutcome (forwards false cmds u).1 (forwards false cmds u).2 Returned.
Proof. intros Hc. unfold relaySession. apply relay_loop_forwards; [done|lia]. Qed.

End Session.

(** An engine that counts the INCRs it got and answers each command with OK. *)
Definition count_incr (n : nat) (cmd : bytes) : nat * bytes :=
  match Relay.readCommand cmd with
  | Relay.Ok (verb :: _) _ => (if bool_decide (verb = bs "INCR") then S n else n, bs "+OK" ++ crlf)
  | _ => (n, bs "+OK" ++ crlf)
  end.

Lemma count_incr_answers n b : exists v, value_ok v /\ (count_incr n b).2 = encode v.
Proof.
  exists (VElem (EStatus (bs "OK"))). split.
  - split; [|vm_compute; lia]. intros Hin. by repeat (apply elem_of_cons in Hin as [Hin|Hin]; [discriminate Hin|]); inversion Hin.
  - unfold count_incr. destruct (Relay.readCommand b) as [[|verb args] rest| | |]; reflexivity.
Qed.


(** The retried INCR on a fresh session is answered, the one after a GET is
    applied without an answer. *)
Lemma relay_forwards_then_drops_witness :
  relaySession count_incr (fun _ => false) (fun _ => true) (fun _ => true) true
    (flat_map writeCommand [[bs "GET"; bs "k"]; [bs "INCR"; bs "k"]; [bs "GET"; bs "k"]]) 0%nat
  = mkOutcome (bs "+OK" ++ crlf) 1%nat Returned.
Proof.
  rewrite (relay_forwards_then_drops count_incr (fun _ => false) (fun _ => true) (fun _ => true)).
  - vm_compute. reflexivity.
  - apply count_incr_answers.
  - reflexivity.
  - reflexivity.
  - repeat constructor; done.
Defined.
