(* ===== verification/RedisExec.v ===== *)
(** * RedisExec: one command of the Redis client

    [do], [exec] with its retry policy, the frozen configuration and the command
    verbs of [simpleredis/resp.go], [commands_exec.go], [config.go],
    [commands.go], [commands_eval.go] and [commands_msetex.go].

    What the outside decides is an argument: when the context fires, what the
    socket delivers, which socket borrowing yields, the jitter of the backoff.
    Log lines are not modelled. *)

From S2P Require Import Prelude.
From S2P Require Import Strconv.
From S2P Require Import Resp.
From Stdlib Require Import ZArith Lia List String.
From Stdlib Require Import Strings.Byte.
From stdpp Require Import base list option.

Open Scope Z_scope.

Definition Millisecond : Z := 1000000.
Definition Second : Z := 1000 * Millisecond.

(** ** Configuration *)

Record Config := {
  PoolSize : Z; MaxIdleConns : Z;
  PoolTimeout : Z; IdleTimeout : Z; DialTimeout : Z; CommandTimeout : Z;
  MaxRetries : Z; MinRetryBackoff : Z; MaxRetryBackoff : Z;
}.

Definition positive_or (x d : Z) : Z := if x <=? 0 then d else x.

(** [applyDefaults]; [None] is ErrMaxIdleConnsAbovePoolSize. *)
Definition applyDefaults (cfg : Config) : option Config :=
  let poolSize := positive_or (PoolSize cfg) 8 in
  maxIdle ← (if MaxIdleConns cfg <=? 0 then Some (if poolSize <? 8 then poolSize else 8)
             else if poolSize <? MaxIdleConns cfg then None else Some (MaxIdleConns cfg));
  Some {| PoolSize := poolSize; MaxIdleConns := maxIdle;
          PoolTimeout := positive_or (PoolTimeout cfg) (200 * Millisecond);
          IdleTimeout := positive_or (IdleTimeout cfg) (30 * Second);
          DialTimeout := positive_or (DialTimeout cfg) (200 * Millisecond);
          CommandTimeout := positive_or (CommandTimeout cfg) (900 * Millisecond);
          MaxRetries := if MaxRetries cfg =? 0 then 1 else MaxRetries cfg;
          MinRetryBackoff := MinRetryBackoff cfg; MaxRetryBackoff := MaxRetryBackoff cfg |}.

(** [retryLimits] *)
Definition retryLimits (maxRetries minBackoff maxBackoff : Z) : Z * Z * Z :=
  (if maxRetries =? -1 then 0 else if maxRetries =? 0 then 3 else maxRetries,
   if minBackoff =? -1 then 0 else if minBackoff =? 0 then 8 * Millisecond else minBackoff,
   if maxBackoff =? -1 then 0 else if maxBackoff =? 0 then 512 * Millisecond else maxBackoff).

(** [retryBackoff]; [rnd] is what [rand.Int63n(span)] returns.  Shifts by 64 or
    more give zero in Go, as the wrap-around does here. *)
Definition retryBackoff (retry minBackoff maxBackoff : Z) (rnd : Z -> Z) : Z :=
  if minBackoff =? 0 then 0
  else if retry <? 0 then maxBackoff
  else
    let backoff := wrap64 (Z.shiftl minBackoff retry) in
    if backoff <? minBackoff then maxBackoff
    else
      let backoff := if 0 <? backoff then wrap64 (minBackoff + rnd backoff) else backoff in
      if (maxBackoff <? backoff) || (backoff <? minBackoff) then maxBackoff else backoff.

(** ** Classification of errors *)

Definition isRetryableRedisReply (e : goerr) : bool :=
  let text := err_text e in
  bool_decide (text = bs "ERR max number of clients reached")
  || existsb (HasPrefix text) (map bs ["LOADING "; "READONLY "; "MASTERDOWN "; "CLUSTERDOWN "; "TRYAGAIN "]%string).

(** [shouldRetry] of a non-nil error. *)
Definition shouldRetry (e : goerr) (handshakeFailed : bool) : bool :=
  match e with
  | eCanceled | eDeadlineExceeded => false
  | eTimeout => false
  | _ => if handshakeFailed then false
         else match e with eUnreachable => true | _ => isRetryableRedisReply e end
  end.

(** [libraryTimeout] *)
Definition libraryTimeout (e : goerr) (libraryOwnsDeadline : bool) : goerr :=
  match e with eDeadlineExceeded => if libraryOwnsDeadline then eTimeout else e | _ => e end.

(** [ioOrContext]: [stop] is contextStop then, [hasDeadline] whether ctx has a
    deadline. *)
Definition ioOrContext (stop : option goerr) (hasDeadline : bool) (e : goerr) : goerr :=
  match stop with
  | Some s => s
  | None => if hasDeadline && bool_decide (e = eIO OSDeadlineExceeded) then eDeadlineExceeded else ioError e
  end.

(** ** One command on one socket *)

(** What the context and the socket do during one [do]. *)
Record io := {
  d_stop_entry : option goerr;     (* contextStop at entry *)
  d_budget : Z;                    (* commandBudgetLeft *)
  d_stop_budget : option goerr;    (* contextStop when no budget is left *)
  d_hasDeadline : bool;            (* ctx.Deadline() ok *)
  d_setDeadline : bool;            (* SetDeadline succeeded *)
  d_unread : nat;                  (* reader.Buffered() before the write *)
  d_write : option ioerr;          (* writeCommand failed *)
  d_stop_write : option goerr;     (* contextStop after a failed write *)
  d_stream : reader;               (* what arrives after the write *)
  d_stop_read : option goerr;      (* contextStop after readReply *)
  d_stop_map : option goerr;       (* contextStop in ioOrContext after it *)
  d_arrived : nat;                 (* bytes after the reply that are buffered *)
}.

(** [do]: values, reusable, err. *)
Definition do_cmd (w : io) : list (option bytes) * bool * option goerr :=
  match d_stop_entry w with
  | Some e => ([], false, Some e)
  | None =>
  if d_budget w <=? 0 then
    ([], false, Some (match d_stop_budget w with Some e => e | None => eTimeout end))
  else if negb (d_setDeadline w) then ([], false, Some eUnreachable)
  else if negb (d_unread w =? 0)%nat then ([], false, Some eUnreachable)
  else match d_write w with
  | Some e => ([], false, Some (ioOrContext (d_stop_write w) (d_hasDeadline w) (eIO e)))
  | None =>
      let '(p, r) := readReply (d_stream w) in
      match d_stop_read w with
      | Some e => ([], false, Some e)
      | None =>
          match rerror p, clean p with
          | Some e, false =>
              ([], false, Some (if isDirtyProtocolError e then e
                                else ioOrContext (d_stop_map w) (d_hasDeadline w) e))
          | err, _ =>
              (* leftover in the buffer: at most what is left of the stream *)
              if negb (Nat.min (d_arrived w) (length (rd r)) =? 0)%nat then (values p, false, err)
              else (values p, true, err)
          end
      end
  end
  end.

(** [runOnConn]: values, what [release] is told, err; [stop] is contextStop after
    do. *)
Definition runOnConn (w : io) (stop : option goerr) : list (option bytes) * bool * option goerr :=
  let '(vs, reusable, err) := do_cmd w in
  match stop with Some e => ([], false, Some e) | None => (vs, reusable, err) end.

(** ** Borrowing a socket *)

(** [dial]: [None] is a socket, else the error and handshakeFailed.  [tcp] is
    whether the connection was made, the rest what the context and the two
    handshake commands meet. *)
Definition dial (pass database : bytes) (stop : option goerr) (tcp : bool) (stop_tcp : option goerr) (auth sel : io)
    : option (goerr * bool) :=
  match stop with
  | Some e => Some (e, false)
  | None =>
  if negb tcp then Some (match stop_tcp with Some e => e | None => eUnreachable end, false)
  else match (match pass with [] => None | _ => (do_cmd auth).2 end) with
  | Some e => Some (e, true)
  | None => match (match database with [] => None | _ => (do_cmd sel).2 end) with
            | Some e => Some (e, true)
            | None => None
            end
  end
  end.

(** What [borrowSocket] yields. *)
Inductive borrowed := BorrowErr (e : goerr) (handshakeFailed : bool) | Borrowed (fromIdle : bool).

(** What [takeIdleConn] yields: closed, a socket, or none. *)
Inductive taken := TakeClosed | TakeReused | TakeMiss.

(** [borrowSocket]: [isClosed] is what it reads at entry, [turn] what waiting
    for a turn ends with, [closed_turn] what it reads with the turn. *)
Definition borrowSocket (isClosed notFromNew : bool) (stop turn : option goerr) (take : taken) (closed_turn : bool)
    (dialed : option (goerr * bool)) (skipIdle : bool) : borrowed :=
  let dial_now := match dialed with Some (e, hs) => BorrowErr e hs | None => Borrowed false end in
  if isClosed then BorrowErr eUnreachable false
  else if notFromNew then BorrowErr eNotFromNew false
  else match stop with
  | Some e => BorrowErr e false
  | None =>
  match turn with
  | Some e => BorrowErr e false
  | None =>
      if negb skipIdle then
        match take with
        | TakeClosed => BorrowErr eUnreachable false
        | TakeReused => Borrowed true
        | TakeMiss => dial_now
        end
      else if closed_turn then BorrowErr eUnreachable false
      else dial_now
  end
  end.

(** ** The retry loop *)

(** What happens during one attempt; borrowing may depend on skipIdle. *)
Record attempt := {
  at_stop : option goerr;          (* contextStop at the top of the loop *)
  at_wait : option goerr;          (* waitUntil, when it is a retry *)
  at_borrow : bool -> borrowed;
  at_closed : bool;                (* isClosed after a failed borrow *)
  at_io : bool -> io;              (* on a socket from idle, or a dialed one *)
  at_stop_do : option goerr;       (* contextStop after do *)
}.

(** What one call did: its result, and per attempt whether it sent and how it
    ended. *)
Record outcome := {
  o_values : list (option bytes);
  o_err : option goerr;
  o_sent : nat;                    (* do calls *)
  o_retried : list (goerr * bool); (* errors that were retried, handshakeFailed *)
}.

(** The loop of [exec] from [attempt] on. *)
Fixpoint exec_loop (budget : nat) (attempt_no : nat) (env : nat -> attempt) (libraryOwns skipIdle : bool)
    (last : option goerr) (sent : nat) (retried : list (goerr * bool)) : outcome :=
  let fail e := {| o_values := []; o_err := Some e; o_sent := sent; o_retried := retried |} in
  match budget with
  | O => fail (match last with Some e => libraryTimeout e libraryOwns | None => eTimeout end)
  | S budget =>
      let a := env attempt_no in
      match at_stop a with
      | Some e => fail (libraryTimeout e libraryOwns)
      | None =>
      match (if (attempt_no =? 0)%nat then None else at_wait a) with
      | Some e => fail (libraryTimeout e libraryOwns)
      | None =>
      match at_borrow a skipIdle with
      | BorrowErr e hs =>
          if at_closed a || negb (shouldRetry e hs) then fail (libraryTimeout e libraryOwns)
          else exec_loop budget (S attempt_no) env libraryOwns skipIdle (Some e) sent (retried ++ [(e, hs)])
      | Borrowed fromIdle =>
          let '(vs, _, err) := runOnConn (at_io a fromIdle) (at_stop_do a) in
          match err with
          | None => {| o_values := vs; o_err := None; o_sent := S sent; o_retried := retried |}
          | Some e =>
              let skipIdle := skipIdle || (fromIdle && bool_decide (e = eUnreachable)) in
              if negb (shouldRetry e false)
              then {| o_values := vs; o_err := Some (libraryTimeout e libraryOwns);
                      o_sent := S sent; o_retried := retried |}
              else exec_loop budget (S attempt_no) env libraryOwns skipIdle (Some e) (S sent) (retried ++ [(e, false)])
          end
      end
      end
      end
  end.

(** [exec]: [entry] is ctx.Err() at entry, [libraryOwns] what
    bindCommandDeadline returned. *)
Definition exec (cfg : Config) (entry : option goerr) (libraryOwns : bool) (env : nat -> attempt) : outcome :=
  match entry with
  | Some e => {| o_values := []; o_err := Some e; o_sent := 0; o_retried := [] |}
  | None =>
      let '(maxRetries, _, _) := retryLimits (MaxRetries cfg) (MinRetryBackoff cfg) (MaxRetryBackoff cfg) in
      exec_loop (Z.to_nat (maxRetries + 1)) 0 env libraryOwns false None 0 []
  end.

(** [bindCommandDeadline]: whether the library's deadline is the sooner one. *)
Definition bindCommandDeadline (now timeout : Z) (parent : option Z) : Z * bool :=
  let libraryDeadline := now + timeout in
  match parent with
  | Some p => if p <=? libraryDeadline then (p, false) else (libraryDeadline, true)
  | None => (libraryDeadline, true)
  end.
