(* ===== verification/RedisExecProofs.v ===== *)
(** * RedisExecProofs: sockets stay on a reply boundary, retries are bounded

    Theorems about [do], [exec], the retry backoff and the configuration. *)

From S2P Require Import Prelude.
From S2P Require Import Strconv.
From S2P Require Import Resp.
From S2P Require Import RespProofs.
From S2P Require Import RedisExec.
From Stdlib Require Import ZArith Lia List String.
From Stdlib Require Import Strings.Byte.
From stdpp Require Import base list option.

Open Scope Z_scope.

(** ** One command on one socket *)

(** C12: [do] calls a socket reusable only when it sits on a reply boundary:
    nothing was unread before the write, exactly one RESP value (as the relay's
    independent framing delimits it) was consumed since, the result is what that
    value decodes to, and no byte after it is buffered.  So the next command on
    that socket cannot be answered by this one's leftovers. *)
Theorem reusable_socket_on_boundary w vs err :
  do_cmd w = (vs, true, err) ->
  d_unread w = 0%nat /\
  exists r', readReply (d_stream w) = ({| values := vs; clean := true; rerror := err |}, r') /\
    frames 2 (d_stream w) r' /\ (d_arrived w = 0%nat \/ rd r' = []).
Proof.
  unfold do_cmd. destruct (d_stop_entry w); [done|]. destruct (d_budget w <=? 0); [done|].
  destruct (d_setDeadline w); [|done]. destruct (Nat.eqb_spec (d_unread w) 0) as [Hu|]; [|done]. cbn [negb].
  destruct (d_write w); [done|]. destruct (readReply (d_stream w)) as [p r] eqn:Hr.
  destruct (d_stop_read w); [done|].
  pose proof (readReply_error _ _ _ Hr) as He. pose proof (readReply_frames _ _ _ Hr) as Hf.
  destruct p as [pvs [|] perr]; cbn [values clean rerror] in *; [|by destruct perr; [|specialize (He eq_refl)]].
  intros H. split; [done|]. exists r.
  destruct (Nat.eqb_spec (Nat.min (d_arrived w) (length (rd r))) 0) as [Hm|]; [|by destruct perr].
  assert (Hb : d_arrived w = 0%nat \/ rd r = []).
  { destruct (rd r); [by right|left]. simpl in Hm. lia. }
  cbn [negb] in H. destruct perr; injection H as <- <-; auto.
Qed.

Definition io_ok (stream : bytes) : io :=
  {| d_stop_entry := None; d_budget := 1; d_stop_budget := None; d_hasDeadline := true; d_setDeadline := true;
     d_unread := 0; d_write := None; d_stop_write := None; d_stream := {| rd := stream; rend := EOF |};
     d_stop_read := None; d_stop_map := None; d_arrived := 9 |}.

Lemma reusable_socket_on_boundary_witness :
  let w := io_ok (bs "*1" ++ crlf ++ bs ":7" ++ crlf) in
  do_cmd w = ([Some (bs "7")], true, None) /\ exists r', frames 2 (d_stream w) r' /\ rd r' = [].
Proof.
  intros w. assert (H : do_cmd w = ([Some (bs "7")], true, None)) by (vm_compute; reflexivity).
  split; [exact H|]. destruct (reusable_socket_on_boundary w _ _ H) as (_ & r' & _ & Hf & [Ha|Hb]); [discriminate Ha|].
  by exists r'.
Defined.

(** On a live socket with no context stop, [do] returns what the server sent. *)
Lemma do_cmd_ok v w :
  d_stop_entry w = None -> 0 < d_budget w -> d_setDeadline w = true -> d_unread w = 0%nat -> d_write w = None ->
  d_stop_read w = None -> value_ok v -> rd (d_stream w) = encode v ->
  do_cmd w = (values (decode v), true, rerror (decode v)).
Proof.
  intros H1 H2 H3 H4 H5 H6 Hv Hr. unfold do_cmd. rewrite H1, H3, H4, H5, H6.
  destruct (Z.leb_spec (d_budget w) 0); [lia|]. cbn [negb Nat.eqb].
  destruct (d_stream w) as [s e] eqn:Es. cbn [rd] in Hr. subst s.
  pose proof (readReply_encode v [] e Hv) as HR. rewrite app_nil_r in HR. rewrite HR.
  cbn [rd length]. rewrite Nat.min_0_r. cbn [negb Nat.eqb].
  destruct v as [el|s|l]; reflexivity.
Qed.

(** ** The retry loop *)

(** An error that may be sent again. *)
Definition retryable (r : goerr * bool) : Prop :=
  r.2 = false /\ (r.1 = eUnreachable \/ exists text, r.1 = eReply text /\ isRetryableRedisReply (eReply text) = true).

Lemma shouldRetry_retryable e hs : shouldRetry e hs = true -> retryable (e, hs).
Proof.
  destruct e; simpl; destruct hs; try done; intros H; try (vm_compute in H; discriminate H); (split; [done|]).
  - by left.
  - right. by exists text.
  - by destruct e.
Qed.

Lemma exec_loop_bounds budget : forall n env lo skip last sent retried,
  Forall retryable retried ->
  let o := exec_loop budget n env lo skip last sent retried in
  (sent <= o_sent o <= sent + budget)%nat /\ (length (o_retried o) <= length retried + budget)%nat
  /\ Forall retryable (o_retried o) /\ (o_err o = None -> (length (o_retried o) < length retried + budget)%nat).
Proof.
  induction budget as [|budget IH]; intros n env lo skip last sent retried Hre; cbn [exec_loop].
  { cbn. repeat split; try lia; try done. }
  assert (Hstop : forall vs e s, (sent <= s <= S sent)%nat ->
    let o := {| o_values := vs; o_err := e; o_sent := s; o_retried := retried |} in
    (sent <= o_sent o <= sent + S budget)%nat /\ (length (o_retried o) <= length retried + S budget)%nat
    /\ Forall retryable (o_retried o) /\ (o_err o = None -> (length (o_retried o) < length retried + S budget)%nat)).
  { intros vs e s Hs. cbn. repeat split; try lia; try done. }
  assert (Hgo : forall e hs skip s, shouldRetry e hs = true -> (sent <= s <= S sent)%nat ->
    let o := exec_loop budget (S n) env lo skip (Some e) s (retried ++ [(e, hs)]) in
    (sent <= o_sent o <= sent + S budget)%nat /\ (length (o_retried o) <= length retried + S budget)%nat
    /\ Forall retryable (o_retried o) /\ (o_err o = None -> (length (o_retried o) < length retried + S budget)%nat)).
  { intros e hs sk s He Hs. destruct (IH (S n) env lo sk (Some e) s (retried ++ [(e, hs)])) as (A & B & C & D).
    { apply Forall_app. split; [done|]. constructor; [by eapply shouldRetry_retryable|done]. }
    rewrite length_app in B, D. cbn [length] in B, D. repeat split; try lia; try done.
    intros Hn. specialize (D Hn). lia. }
  destruct (at_stop (env n)); [apply Hstop; lia|].
  destruct (if (n =? 0)%nat then None else at_wait (env n)); [apply Hstop; lia|].
  destruct (at_borrow (env n) skip) as [e hs|fromIdle].
  { destruct (at_closed (env n)); [apply Hstop; lia|]. destruct (shouldRetry e hs) eqn:He; cbn [orb negb].
    - apply (Hgo e hs); [done|lia].
    - apply Hstop; lia. }
  destruct (runOnConn _ _) as [[vs reus] [e|]]; [|apply Hstop; lia].
  destruct (shouldRetry e false) eqn:He; cbn [negb]; [|apply Hstop; lia].
  apply (Hgo e false); [done|lia].
Qed.

(** C26: whatever the server, the pool and the context do, one command is sent at
    most once more than the configured retries, and only failures that may be
    retried are: an unreachable socket or one of the transient Redis replies,
    never a timeout, a cancellation, an auth error, a protocol error, a full
    pool or a failed handshake. *)
Theorem exec_retries_bounded cfg entry lo env :
  let o := exec cfg entry lo env in
  let '(maxRetries, _, _) := retryLimits (MaxRetries cfg) (MinRetryBackoff cfg) (MaxRetryBackoff cfg) in
  Z.of_nat (o_sent o) <= Z.max 0 (maxRetries + 1) /\
  Z.of_nat (length (o_retried o)) <= Z.max 0 (maxRetries + 1) /\
  Forall retryable (o_retried o).
Proof.
  unfold exec. destruct (retryLimits _ _ _) as [[m mn] mx]. destruct entry as [e|]; cbn; [lia || split; [lia|split; [lia|done]]|].
  destruct (exec_loop_bounds (Z.to_nat (m + 1)) 0 env lo false None 0 [] (Forall_nil_2 _)) as (A & B & C & _).
  cbn [length] in B. split; [lia|]. split; [lia|done].
Qed.

Lemma libraryTimeout_true e : libraryTimeout e true <> eDeadlineExceeded.
Proof. by destruct e. Qed.

Lemma exec_loop_deadline budget : forall n env skip last sent retried,
  o_err (exec_loop budget n env true skip last sent retried) <> Some eDeadlineExceeded.
Proof.
  pose proof libraryTimeout_true as HL.
  assert (HS : forall e, Some (libraryTimeout e true) <> Some eDeadlineExceeded) by (intros e [= H]; by apply (HL e)).
  induction budget as [|budget IH]; intros n env skip last sent retried; cbn [exec_loop].
  { cbn. destruct last; [apply HS|done]. }
  destruct (at_stop (env n)); [apply HS|]. destruct (if (n =? 0)%nat then None else at_wait (env n)); [apply HS|].
  destruct (at_borrow (env n) skip) as [e hs|fromIdle].
  { destruct (at_closed (env n) || negb (shouldRetry e hs)); [apply HS|apply IH]. }
  destruct (runOnConn _ _) as [[vs reus] [e|]]; [|done].
  destruct (negb (shouldRetry e false)); [apply HS|apply IH].
Qed.

(** A command whose deadline is the library's own budget never fails with
    context.DeadlineExceeded: the caller sees redis:timeout, so a
    DeadlineExceeded is always the caller's own deadline. *)
Theorem library_deadline_is_redis_timeout cfg env :
  o_err (exec cfg None true env) <> Some eDeadlineExceeded.
Proof. unfold exec. destruct (retryLimits _ _ _) as [[m mn] mx]. apply exec_loop_deadline. Qed.

(** An attempt during which the context does not stop the command. *)
Definition undisturbed (a : attempt) : Prop :=
  at_stop a = None /\ at_wait a = None /\ at_stop_do a = None.

(** C30: a command recovers from a pool of dead sockets on its own: when the
    socket taken from the idle list is dead, a new dial reaches the server, and
    at least one retry is configured, the second attempt skips the idle list
    and the command returns what the server answered, after two sends. *)
Theorem exec_recovers_from_dead_idle cfg lo env vs err :
  1 <= (retryLimits (MaxRetries cfg) (MinRetryBackoff cfg) (MaxRetryBackoff cfg)).1.1 ->
  undisturbed (env 0%nat) -> undisturbed (env 1%nat) ->
  at_borrow (env 0%nat) false = Borrowed true ->
  (do_cmd (at_io (env 0%nat) true)).2 = Some eUnreachable ->
  at_borrow (env 1%nat) true = Borrowed false ->
  do_cmd (at_io (env 1%nat) false) = (vs, true, err) ->
  (forall e, err = Some e -> shouldRetry e false = false /\ e <> eDeadlineExceeded) ->
  exec cfg None lo env = {| o_values := vs; o_err := err; o_sent := 2; o_retried := [(eUnreachable, false)] |}.
Proof.
  unfold exec. destruct (retryLimits _ _ _) as [[m mn] mx]. cbn [fst snd]. intros Hm (A0 & W0 & D0) (A1 & W1 & D1) B0 I0 B1 I1 He.
  replace (Z.to_nat (m + 1)) with (S (S (Z.to_nat (m - 1)))) by lia.
  cbn [exec_loop]. rewrite A0, B0. cbn [Nat.eqb]. unfold runOnConn. rewrite D0.
  destruct (do_cmd (at_io (env 0%nat) true)) as [[v0 r0] e0]. cbn [snd] in I0. subst e0.
  rewrite A1, W1, D1. cbn [andb orb negb Nat.eqb]. rewrite bool_decide_eq_true_2 by done. cbn [andb orb negb shouldRetry app].
  rewrite B1, I1. destruct err as [e|]; [|done]. destruct (He e eq_refl) as [Hs Hd]. rewrite Hs. cbn [negb].
  by destruct e, lo.
Qed.

(** A dead socket and a live one. *)
Definition recovery_env (_ : nat) : attempt :=
  {| at_stop := None; at_wait := None;
     at_borrow skip := Borrowed (negb skip); at_closed := false;
     at_io idle := io_ok (if idle then [] else bs "+OK" ++ crlf); at_stop_do := None |}.

Definition default_config : Config :=
  {| PoolSize := 8; MaxIdleConns := 8; PoolTimeout := 200 * Millisecond; IdleTimeout := 30 * Second;
     DialTimeout := 200 * Millisecond; CommandTimeout := 900 * Millisecond; MaxRetries := 1;
     MinRetryBackoff := 0; MaxRetryBackoff := 0 |}.

Lemma exec_recovers_from_dead_idle_witness :
  exec default_config None true recovery_env
  = {| o_values := [Some (bs "OK")]; o_err := None; o_sent := 2; o_retried := [(eUnreachable, false)] |}.
Proof.
  apply (exec_recovers_from_dead_idle default_config true recovery_env).
  - vm_compute. discriminate.
  - by repeat split.
  - by repeat split.
  - reflexivity.
  - vm_compute. reflexivity.
  - reflexivity.
  - vm_compute. reflexivity.
  - discriminate.
Defined.

(** A [MaxRetries] below -1, which no check rejects, makes every command
    fail with redis:timeout at once, without borrowing a socket or sending
    anything. *)
Theorem negative_retries_send_nothing cfg lo env :
  MaxRetries cfg < -1 -> exec cfg None lo env = {| o_values := []; o_err := Some eTimeout; o_sent := 0; o_retried := [] |}.
Proof.
  intros H. unfold exec, retryLimits. destruct (Z.eqb_spec (MaxRetries cfg) (-1)); [lia|].
  destruct (Z.eqb_spec (MaxRetries cfg) 0); [lia|]. by replace (Z.to_nat (MaxRetries cfg + 1)) with 0%nat by lia.
Qed.

Lemma negative_retries_send_nothing_witness :
  applyDefaults {| PoolSize := 0; MaxIdleConns := 0; PoolTimeout := 0; IdleTimeout := 0; DialTimeout := 0;
    CommandTimeout := 0; MaxRetries := -2; MinRetryBackoff := 0; MaxRetryBackoff := 0 |} <> None /\
  o_err (exec {| PoolSize := 8; MaxIdleConns := 8; PoolTimeout := 1; IdleTimeout := 1; DialTimeout := 1;
    CommandTimeout := 1; MaxRetries := -2; MinRetryBackoff := 0; MaxRetryBackoff := 0 |} None true recovery_env)
  = Some eTimeout.
Proof.
  split; [vm_compute; discriminate|]. rewrite negative_retries_send_nothing; [reflexivity|reflexivity].
Defined.

(** ** Backoff and configuration *)

(** The wait before a retry never exceeds the configured cap, whatever the
    jitter, the attempt and the shift's overflow do, and is at least the base
    unless it is the cap. *)
Theorem retryBackoff_capped retry minBackoff maxBackoff rnd :
  minBackoff <> 0 ->
  let d := retryBackoff retry minBackoff maxBackoff rnd in
  d <= maxBackoff /\ (d = maxBackoff \/ minBackoff <= d).
Proof.
  intros H. unfold retryBackoff. destruct (Z.eqb_spec minBackoff 0); [done|].
  destruct (retry <? 0); [cbn; lia|]. cbn zeta. destruct (_ <? minBackoff); [lia|].
  set (b := if 0 <? wrap64 _ then _ else _). destruct (Z.ltb_spec maxBackoff b), (Z.ltb_spec b minBackoff); cbn [orb]; lia.
Qed.

Lemma retryBackoff_capped_witness :
  retryBackoff 62 (8 * Millisecond) (512 * Millisecond) (fun n => n - 1) <= 512 * Millisecond.
Proof. apply (retryBackoff_capped 62 (8 * Millisecond) (512 * Millisecond) (fun n => n - 1)). discriminate. Defined.

Lemma positive_or_pos x d : 0 < d -> 0 < positive_or x d.
Proof. unfold positive_or. destruct (Z.leb_spec x 0); lia. Qed.

Lemma positive_or_id x d : 0 < x -> positive_or x d = x.
Proof. unfold positive_or. destruct (Z.leb_spec x 0); lia. Qed.

(** [applyDefaults] accepts a configuration exactly when an explicit idle
    trim fits the pool size; what it accepts has a positive pool, an idle trim
    within it, positive timeouts, and every explicit positive knob as given. *)
Lemma defaults_sound cfg :
  match applyDefaults cfg with
  | None => 0 < MaxIdleConns cfg /\ (if 0 <? PoolSize cfg then PoolSize cfg else 8) < MaxIdleConns cfg
  | Some c =>
      0 < MaxIdleConns c <= PoolSize c /\ 0 < PoolTimeout c /\ 0 < IdleTimeout c /\ 0 < DialTimeout c /\
      0 < CommandTimeout c /\ MaxRetries c <> 0 /\
      (0 < PoolSize cfg -> PoolSize c = PoolSize cfg) /\ (0 < MaxIdleConns cfg -> MaxIdleConns c = MaxIdleConns cfg) /\
      (0 < CommandTimeout cfg -> CommandTimeout c = CommandTimeout cfg) /\
      applyDefaults c = Some c
  end.
Proof.
  assert (Hms : forall k, 0 < k -> 0 < k * Millisecond) by (unfold Millisecond; lia).
  assert (Hs : 0 < 30 * Second) by (unfold Second, Millisecond; lia).
  pose proof (positive_or_pos (PoolSize cfg) 8 ltac:(lia)) as Hp.
  unfold applyDefaults. destruct (Z.leb_spec (MaxIdleConns cfg) 0) as [Hi|Hi].
  - cbn [mbind option_bind]. set (mi := if positive_or (PoolSize cfg) 8 <? 8 then _ else _).
    assert (Hmi : 0 < mi <= positive_or (PoolSize cfg) 8) by (subst mi; destruct (Z.ltb_spec (positive_or (PoolSize cfg) 8) 8); lia).
    cbn [PoolSize MaxIdleConns PoolTimeout IdleTimeout DialTimeout CommandTimeout MaxRetries MinRetryBackoff MaxRetryBackoff].
    rewrite !(positive_or_id (positive_or _ _)) by (apply positive_or_pos; auto with lia).
    destruct (Z.leb_spec mi 0); [lia|]. destruct (Z.ltb_spec (positive_or (PoolSize cfg) 8) mi); [lia|]. cbn [mbind option_bind].
    repeat split; try (apply positive_or_pos; auto with lia); try apply positive_or_id; try lia.
    + destruct (Z.eqb_spec (MaxRetries cfg) 0); lia.
    + by destruct (Z.eqb_spec (MaxRetries cfg) 0) as [|Hr]; [|apply Z.eqb_neq in Hr as ->].
  - destruct (Z.ltb_spec (positive_or (PoolSize cfg) 8) (MaxIdleConns cfg)) as [Hl|Hl].
    + cbn [mbind option_bind]. split; [done|]. unfold positive_or in Hl. destruct (Z.leb_spec (PoolSize cfg) 0), (Z.ltb_spec 0 (PoolSize cfg)); lia.
    + cbn [mbind option_bind PoolSize MaxIdleConns PoolTimeout IdleTimeout DialTimeout CommandTimeout MaxRetries MinRetryBackoff MaxRetryBackoff].
      rewrite !(positive_or_id (positive_or _ _)) by (apply positive_or_pos; auto with lia).
      destruct (Z.leb_spec (MaxIdleConns cfg) 0); [lia|]. destruct (Z.ltb_spec (positive_or (PoolSize cfg) 8) (MaxIdleConns cfg)); [lia|].
      cbn [mbind option_bind]. repeat split; try (apply positive_or_pos; auto with lia); try apply positive_or_id; try lia.
      * destruct (Z.eqb_spec (MaxRetries cfg) 0); lia.
      * by destruct (Z.eqb_spec (MaxRetries cfg) 0) as [|Hr]; [|apply Z.eqb_neq in Hr as ->].
Qed.
