(* ===== verification/RedisVerbs.v ===== *)
(** * RedisVerbs: the command verbs of the Redis client

    [commands.go], [commands_eval.go] and [commands_msetex.go].  [exec] is an
    argument on a world [W], so that a verb that sends several commands threads
    the server's state through them. *)

From S2P Require Import Prelude.
From S2P Require Import Strconv.
From S2P Require Import Sha1.
From S2P Require Import Resp.
From S2P Require Import RespProofs.
From S2P Require Import RedisExec.
From S2P Require Import RedisExecProofs.
From Stdlib Require Import ZArith Lia List String.
From Stdlib Require Import Strings.Byte.
From stdpp Require Import base list option.

Open Scope Z_scope.

(** What [exec] returns. *)
Abbreviation exec_result := (list (option bytes) * option goerr)%type.

(** [string(v)] of a possibly nil slice. *)
Definition slot_text (v : option bytes) : bytes := default [] v.

(** [parseIntegerReply] *)
Definition parseIntegerReply (r : exec_result) : Z + goerr :=
  let '(vs, err) := r in
  match err with
  | Some e => inr e
  | None => match vs with
            | [v] => match ParseInt (slot_text v) with Some n => inl n | None => inr eIssue end
            | _ => inr eIssue
            end
  end.

(** [evalArgv] *)
Definition evalArgv (verb scriptOrDigest : bytes) (keys args : list bytes) : list bytes :=
  [verb; scriptOrDigest; FormatInt (Z.of_nat (length keys))] ++ keys ++ args.

Inductive groupWritePath := groupWriteUnknown | groupWriteNative | groupWriteLua.

Definition maxMSetEXPairs : nat := 1024.

(** [msetexArgs]; the lists have the same length. *)
Definition msetexArgs (names vals : list bytes) (expireToken : bytes) (ttl : Z) : list bytes :=
  [bs "MSETEX"; FormatInt (Z.of_nat (length names))]
  ++ flat_map (fun '(name, v) => [name; v]) (combine names vals)
  ++ [expireToken; FormatInt ttl].

(** [msetexSuccess] *)
Definition msetexSuccess (r : Z + goerr) : option goerr :=
  match r with
  | inr e => Some e
  | inl n => if n =? 1 then None else Some eIssue
  end.

(** [unknownCommand] *)
Definition unknownCommand (r : Z + goerr) : bool :=
  match r with inr e => HasPrefix (err_text e) (bs "ERR unknown command") | inl _ => false end.

(** Text of [msetexFallbackScript]. *)
Definition msetexFallbackScript : bytes :=
  let nl := String (Ascii.ascii_of_nat 10) EmptyString in
  bs (String.concat nl
    ["local token = ARGV[#ARGV - 1]"; "local ttl = ARGV[#ARGV]"; "for i = 1, #KEYS do";
     "  redis.call('SET', KEYS[i], ARGV[i], token, ttl)"; "end"; "return 1"]%string).

(** [msetexFallbackDigest] *)
Definition msetexFallbackDigest : bytes := ScriptSHA1Hex msetexFallbackScript.

Example msetexFallbackDigest_value : msetexFallbackDigest = bs "53a964da67c670fd47ccf2346fa72f0e34876aad".
Proof. vm_compute. reflexivity. Qed.

#[global] Opaque msetexFallbackDigest.

(** What running that script does: the SET commands it calls, in order, and its
    result; Lua indexes from 1 and an absent slot is nil, which [redis.call]
    refuses ([None]). *)
Definition run_msetexFallbackScript (KEYS ARGV : list bytes) : option (list (list bytes) * Z) :=
  let call token ttl i : option (list bytes) :=
    match KEYS !! i, ARGV !! i with
    | Some key, Some arg => Some [bs "SET"; key; arg; token; ttl]
    | _, _ => None
    end in
  match length ARGV with
  | S (S n) =>
      match ARGV !! n, ARGV !! S n with
      | Some token, Some ttl => (fun calls => (calls, 1)) <$> mapM (call token ttl) (seq 0 (length KEYS))
      | _, _ => None
      end
  | _ => None
  end.

Section Verbs.
Context {W : Type} (exec : list bytes -> W -> exec_result * W).

(** [Get] *)
Definition Get (name : bytes) (w : W) : (bytes + goerr) * W :=
  let '((vs, err), w) := exec [bs "GET"; name] w in
  (match err with
   | Some e => inr e
   | None => match vs with [Some v] => inl v | [None] => inr eMiss | _ => inr eIssue end
   end, w).

(** [MGet] *)
Definition MGet (names : list bytes) (w : W) : (list (option bytes) + goerr) * W :=
  match names with
  | [] => (inl [], w)
  | _ =>
      let '((vs, err), w) := exec (bs "MGET" :: names) w in
      (match err with
       | Some e => inr e
       | None => if (length vs =? length names)%nat then inl vs else inr eIssue
       end, w)
  end.

(** The verbs that only report an error: [Set], [Del], [Expire], [ExpireAt]. *)
Definition Set_ (name data : bytes) (duration : Z) (w : W) : option goerr * W :=
  let '((_, err), w) := exec [bs "SET"; name; data; bs "EX"; FormatInt duration] w in (err, w).
Definition Del (name : bytes) (w : W) : option goerr * W :=
  let '((_, err), w) := exec [bs "DEL"; name] w in (err, w).
Definition Expire (name : bytes) (seconds : Z) (w : W) : option goerr * W :=
  let '((_, err), w) := exec [bs "EXPIRE"; name; FormatInt seconds] w in (err, w).
Definition ExpireAt (name : bytes) (unixSeconds : Z) (w : W) : option goerr * W :=
  let '((_, err), w) := exec [bs "EXPIREAT"; name; FormatInt unixSeconds] w in (err, w).

(** [Incr], [IncrBy] *)
Definition Incr (name : bytes) (w : W) : (Z + goerr) * W :=
  let '(r, w) := exec [bs "INCR"; name] w in (parseIntegerReply r, w).
Definition IncrBy (name : bytes) (delta : Z) (w : W) : (Z + goerr) * W :=
  let '(r, w) := exec [bs "INCRBY"; name; FormatInt delta] w in (parseIntegerReply r, w).

Definition noScript (err : option goerr) : bool :=
  match err with Some e => HasPrefix (err_text e) (bs "NOSCRIPT") | None => false end.

(** [Eval] *)
Definition Eval (script digest : bytes) (keys args : list bytes) (w : W) : exec_result * W :=
  let '((vs, err), w) := exec (evalArgv (bs "EVALSHA") digest keys args) w in
  if noScript err then exec (evalArgv (bs "EVAL") script keys args) w
  else ((vs, err), w).

(** ARGV of the fallback. *)
Definition msetexArgv (vals : list bytes) (expireToken : bytes) (ttl : Z) : list bytes :=
  vals ++ [expireToken; FormatInt ttl].

(** [msetexEval] *)
Definition msetexEval (names vals : list bytes) (expireToken : bytes) (ttl : Z) (w : W) : option goerr * W :=
  let '(r, w) := Eval msetexFallbackScript msetexFallbackDigest names
                      (msetexArgv vals expireToken ttl) w in
  (msetexSuccess (parseIntegerReply r), w).

(** [msetex]; the client's [groupWrite] is threaded. *)
Definition msetex (names vals : list bytes) (expireToken : bytes) (ttl : Z) (gw : groupWritePath) (w : W)
    : option goerr * groupWritePath * W :=
  if (length names =? 0)%nat || negb (length names =? length vals)%nat || (maxMSetEXPairs <? length names)%nat
  then (Some eIssue, gw, w)
  else match gw with
  | groupWriteLua => let '(err, w) := msetexEval names vals expireToken ttl w in (err, gw, w)
  | _ =>
      let '(reply, w) := exec (msetexArgs names vals expireToken ttl) w in
      let r := parseIntegerReply reply in
      if unknownCommand r then
        let '(err, w) := msetexEval names vals expireToken ttl w in (err, groupWriteLua, w)
      else (msetexSuccess r, (match r with inl _ => groupWriteNative | inr _ => gw end), w)
  end.

(** [MSetEX], [MSetEXAt] *)
Definition MSetEX (names vals : list bytes) (seconds : Z) := msetex names vals (bs "EX") seconds.
Definition MSetEXAt (names vals : list bytes) (unixSeconds : Z) := msetex names vals (bs "EXAT") unixSeconds.

End Verbs.

(** ** Verbs over a live connection *)

(** [exec] on a server that answers the n-th command with the n-th value of a
    list, over one socket and a context that does not fire. *)
Definition serve (cfg : Config) (argv : list bytes) (w : list rvalue * list (list bytes))
    : exec_result * (list rvalue * list (list bytes)) :=
  let '(answers, seen) := w in
  match answers with
  | [] => (([], Some eTimeout), w)
  | v :: answers =>
      let o := exec cfg None true (fun _ =>
        {| at_stop := None; at_wait := None; at_borrow := fun _ => Borrowed false; at_closed := false;
           at_io := fun _ => io_ok (encode v); at_stop_do := None |}) in
      ((o_values o, o_err o), (answers, seen ++ [argv]))
  end.

Lemma do_io_ok v : value_ok v -> do_cmd (io_ok (encode v)) = (values (decode v), true, rerror (decode v)).
Proof. intros Hv. by apply do_cmd_ok. Qed.

(** The answer is not one [exec] sends again. *)
Definition final (v : rvalue) : Prop :=
  match v with VError s => shouldRetry (replyError s) false = false | _ => True end.

Lemma serve_answer v answers seen argv :
  value_ok v -> final v ->
  serve default_config argv (v :: answers, seen) = ((values (decode v), rerror (decode v)), (answers, seen ++ [argv])).
Proof.
  intros Hv Hf. unfold serve, exec, default_config, retryLimits, MaxRetries, MinRetryBackoff, MaxRetryBackoff.
  cbn [Z.eqb Pos.eqb]. change (Z.to_nat (1 + 1)) with 2%nat. cbn [exec_loop at_stop at_borrow at_io at_stop_do at_closed Nat.eqb].
  unfold runOnConn. rewrite (do_io_ok v Hv).
  destruct v as [el|s|l]; cbn [decode ok_reply values rerror]; try done.
  unfold final in Hf. rewrite Hf. cbn [negb o_values o_err].
  unfold replyError. by destruct (existsb _ _).
Qed.

(** Over a connection to a server that answers, the verbs return that
    answer: a bulk is GET's value and a nil bulk a miss, an integer is INCR's
    count exactly, an array is MGET's slots when it has one per name, an error
    reply is the error; each sends exactly one command, with its key. *)
Theorem verbs_return_the_answer name names answers seen :
  let W := (list rvalue * list (list bytes))%type in
  let serve := serve default_config in
  (forall d, elem_ok (EBulk (Some d)) ->
     Get serve name (VElem (EBulk (Some d)) :: answers, seen) = (inl d, (answers, seen ++ [[bs "GET"; name]]))) /\
  Get serve name (VElem (EBulk None) :: answers, seen) = (inr eMiss, (answers, seen ++ [[bs "GET"; name]])) /\
  (forall n, in_int64 n ->
     Incr serve name (VElem (EInt n) :: answers, seen) = (inl n, (answers, seen ++ [[bs "INCR"; name]]))) /\
  (forall l, names <> [] -> value_ok (VArray l) ->
     MGet serve names (VArray l :: answers, seen)
     = (if (length l =? length names)%nat then inl (map decode_elem l) else inr eIssue,
        (answers, seen ++ [bs "MGET" :: names]))) /\
  (forall s, line_ok s -> final (VError s) ->
     (Incr serve name (VError s :: answers, seen)).1 = inr (replyError s) /\
     (Get serve name (VError s :: answers, seen)).1 = inr (replyError s)).
Proof.
  cbn zeta. refine (conj _ (conj _ (conj _ (conj _ _)))); unfold Get, Incr, MGet.
  - intros d Hd. by rewrite serve_answer.
  - by rewrite serve_answer.
  - intros n Hn. rewrite serve_answer by done. cbn [decode decode_elem ok_reply values rerror].
    unfold parseIntegerReply, slot_text, default, from_option, id. by rewrite ParseInt_FormatInt.
  - intros l Hne Hl. destruct names as [|x names]; [done|]. rewrite serve_answer by done.
    cbn [decode ok_reply values rerror]. by rewrite length_map.
  - intros s Hs Hf. by rewrite !serve_answer.
Qed.

(** [Eval] sends the digest first, and the script body once more exactly
    when the server does not know it; the result is the last answer's. *)
Theorem Eval_sends_body_on_noscript script digest keys args v v' answers seen :
  value_ok v -> final v -> value_ok v' -> final v' ->
  let sha := evalArgv (bs "EVALSHA") digest keys args in
  Eval (serve default_config) script digest keys args (v :: v' :: answers, seen)
  = if noScript (rerror (decode v))
    then ((values (decode v'), rerror (decode v')), (answers, (seen ++ [sha]) ++ [evalArgv (bs "EVAL") script keys args]))
    else ((values (decode v), rerror (decode v)), (v' :: answers, seen ++ [sha])).
Proof.
  intros H1 H2 H3 H4. cbn zeta. unfold Eval. rewrite serve_answer by done.
  destruct (noScript _); [|done]. by rewrite serve_answer.
Qed.

Lemma Eval_sends_body_on_noscript_witness :
  let v := VError (bs "NOSCRIPT No matching script.") in
  (Eval (serve default_config) (bs "return 1") (bs "e0e1f9") [bs "k"] [] ([v; VElem (EInt 1)], [])).2
  = ([], [[bs "EVALSHA"; bs "e0e1f9"; bs "1"; bs "k"]; [bs "EVAL"; bs "return 1"; bs "1"; bs "k"]]).
Proof.
  cbn zeta. rewrite Eval_sends_body_on_noscript.
  - vm_compute. reflexivity.
  - split; [|vm_compute; lia]. apply (bool_decide_unpack _). vm_compute. exact I.
  - reflexivity.
  - vm_compute. split; discriminate.
  - exact I.
Defined.

(** ** Group writes *)

Lemma mapM_pairs {A B C} (f : nat -> option C) (g : A * B -> C) (xs : list A) (ys : list B) k :
  length xs = length ys ->
  (forall i x y, xs !! i = Some x -> ys !! i = Some y -> f (k + i)%nat = Some (g (x, y))) ->
  mapM f (seq k (length xs)) = Some (map g (combine xs ys)).
Proof.
  revert ys k. induction xs as [|x xs IH]; intros [|y ys] k Hl Hf; try done. cbn [length seq combine map mapM].
  rewrite <- (Nat.add_0_r k) at 1. rewrite (Hf 0%nat x y) by done. cbn [mbind option_bind].
  rewrite (IH ys (S k)).
  - done.
  - by injection Hl.
  - intros i x' y' Hx Hy. replace (S k + i)%nat with (k + S i)%nat by lia. by apply Hf.
Qed.

(** The Lua fallback does what MSETEX does: run on the KEYS and ARGV that
    [msetexEval] passes, the script sets every name to its own value, in order,
    with the shared expiry, and returns the 1 that [msetexSuccess] expects. *)
Theorem msetex_fallback_sets_pairs names vals expireToken ttl :
  length names = length vals ->
  run_msetexFallbackScript names (msetexArgv vals expireToken ttl)
  = Some (map (fun '(name, v) => [bs "SET"; name; v; expireToken; FormatInt ttl]) (combine names vals), 1)
  /\ msetexSuccess (parseIntegerReply ([Some (FormatInt 1)], None)) = None.
Proof.
  intros Hl. split; [|reflexivity]. unfold run_msetexFallbackScript, msetexArgv.
  replace (length (vals ++ [expireToken; FormatInt ttl])) with (S (S (length vals))) by (rewrite length_app; simpl; lia).
  rewrite !lookup_app_r by lia. rewrite Nat.sub_diag, Nat.sub_succ_l, Nat.sub_diag by lia. cbn [lookup list_lookup].
  rewrite (mapM_pairs _ (fun '(name, v) => [bs "SET"; name; v; expireToken; FormatInt ttl]) names vals); [done|done|].
  intros i x y Hx Hy. cbn [Nat.add]. rewrite Hx. by rewrite (lookup_app_l_Some _ _ _ _ Hy).
Qed.

Lemma msetex_fallback_sets_pairs_witness :
  run_msetexFallbackScript [bs "a"; bs "b"] (msetexArgv [bs "1"; bs "2"] (bs "EX") 60)
  = Some ([[bs "SET"; bs "a"; bs "1"; bs "EX"; bs "60"]; [bs "SET"; bs "b"; bs "2"; bs "EX"; bs "60"]], 1).
Proof. apply (msetex_fallback_sets_pairs [bs "a"; bs "b"] [bs "1"; bs "2"] (bs "EX") 60). reflexivity. Defined.

(** [exec] that also records what it sent. *)
Definition logged {W} (exec : list bytes -> W -> exec_result * W) (argv : list bytes) (s : W * list (list bytes))
    : exec_result * (W * list (list bytes)) :=
  let '(r, w) := exec argv s.1 in (r, (w, s.2 ++ [argv])).

(** A client's group writes one after the other. *)
Fixpoint msetex_all {W} (exec : list bytes -> W -> exec_result * W)
    (calls : list (list bytes * list bytes * bytes * Z)) (gw : groupWritePath) (w : W) : groupWritePath * W :=
  match calls with
  | [] => (gw, w)
  | (names, vals, token, ttl) :: calls =>
      let '(_, gw, w) := msetex exec names vals token ttl gw w in msetex_all exec calls gw w
  end.

Definition is_native (argv : list bytes) : bool := bool_decide (head argv = Some (bs "MSETEX")).

Definition natives (log : list (list bytes)) : nat := length (List.filter is_native log).

Lemma natives_snoc l a : natives (l ++ [a]) = ((if is_native a then 1 else 0) + natives l)%nat.
Proof. unfold natives. rewrite filter_app, length_app. simpl. destruct (is_native a); simpl; lia. Qed.

Lemma is_native_sha s keys args : is_native (evalArgv (bs "EVALSHA") s keys args) = false.
Proof. reflexivity. Qed.

Lemma is_native_eval s keys args : is_native (evalArgv (bs "EVAL") s keys args) = false.
Proof. reflexivity. Qed.

Lemma is_native_msetex names vals token ttl : is_native (msetexArgs names vals token ttl) = true.
Proof. reflexivity. Qed.

Section Paths.
Context {W : Type} (exec : list bytes -> W -> exec_result * W).

(** The Lua path sends EVALSHA and EVAL only. *)
Lemma msetexEval_log names vals token ttl w log :
  natives (msetexEval (logged exec) names vals token ttl (w, log)).2.2 = natives log.
Proof.
  unfold msetexEval, Eval, logged. cbn [fst snd]. destruct (exec (evalArgv (bs "EVALSHA") _ _ _) w) as [[vs err] w1].
  destruct (noScript err).
  - destruct (exec (evalArgv (bs "EVAL") _ _ _) _) as [r w2]. cbn [fst snd]. by rewrite !natives_snoc, ?is_native_sha, ?is_native_eval.
  - cbn [fst snd]. by rewrite !natives_snoc, ?is_native_sha, ?is_native_eval.
Qed.

Lemma msetex_lua names vals token ttl w log :
  let '(_, gw, (_, log')) := msetex (logged exec) names vals token ttl groupWriteLua (w, log) in
  gw = groupWriteLua /\ natives log' = natives log.
Proof.
  unfold msetex. destruct (_ || _); [done|]. pose proof (msetexEval_log names vals token ttl w log) as H.
  destruct (msetexEval _ _ _ _ _ _) as [err [w' log']]. done.
Qed.

Lemma msetex_all_lua calls w log :
  natives (msetex_all (logged exec) calls groupWriteLua (w, log)).2.2 = natives log.
Proof.
  revert w log. induction calls as [|[[[names vals] token] ttl] calls IH]; intros w log; [done|]. cbn [msetex_all].
  pose proof (msetex_lua names vals token ttl w log) as H.
  destruct (msetex _ _ _ _ _ _ _) as [[err gw] [w' log']]. destruct H as [-> <-]. apply IH.
Qed.

(** A server without MSETEX. *)
Hypothesis no_native : forall argv w, is_native argv = true -> unknownCommand (parseIntegerReply (exec argv w).1) = true.

Lemma msetex_probe names vals token ttl gw w log :
  let '(_, gw', (_, log')) := msetex (logged exec) names vals token ttl gw (w, log) in
  natives log' = natives log /\ gw' = gw \/ natives log' = S (natives log) /\ gw' = groupWriteLua.
Proof.
  unfold msetex. destruct (_ || _); [by left|].
  assert (HL := msetexEval_log names vals token ttl).
  assert (HN := no_native (msetexArgs names vals token ttl) w eq_refl).
  destruct gw.
  3: { specialize (HL w log). destruct (msetexEval _ _ _ _ _ _) as [err [w' log']]. by left. }
  all: unfold logged at 1; cbn [fst snd]; destruct (exec _ w) as [r w1]; cbn [fst] in HN; rewrite HN;
    specialize (HL w1 (log ++ [msetexArgs names vals token ttl]));
    destruct (msetexEval _ _ _ _ _ _) as [err [w' log']]; cbn [fst snd] in HL; right; split; [|done];
    by rewrite HL, natives_snoc, is_native_msetex.
Qed.

Lemma msetex_all_probe calls gw w log :
  (natives (msetex_all (logged exec) calls gw (w, log)).2.2 <= S (natives log))%nat.
Proof.
  revert gw w log. induction calls as [|[[[names vals] token] ttl] calls IH]; intros gw w log; [apply Nat.le_succ_diag_r|]. cbn [msetex_all].
  pose proof (msetex_probe names vals token ttl gw w log) as H.
  destruct (msetex _ _ _ _ _ _ _) as [[err gw'] [w' log']]. destruct H as [[<- ->]|[H ->]]; [apply IH|].
  rewrite msetex_all_lua, H. done.
Qed.
End Paths.

(** A server with MSETEX. *)
Lemma msetex_all_native {W} (exec : list bytes -> W -> exec_result * W) calls gw w log :
  (forall argv w, is_native argv = true -> unknownCommand (parseIntegerReply (exec argv w).1) = false) ->
  gw <> groupWriteLua -> Forall (fun a => is_native a = true) log ->
  Forall (fun a => is_native a = true) (msetex_all (logged exec) calls gw (w, log)).2.2.
Proof.
  intros Hn. revert gw w log. induction calls as [|[[[names vals] token] ttl] calls IH]; intros gw w log Hgw Hlog; [done|].
  cbn [msetex_all]. unfold msetex. destruct (_ || _); [by apply IH|].
  assert (HN := Hn (msetexArgs names vals token ttl) w eq_refl).
  destruct gw; [| |done].
  all: unfold logged at 1; cbn [fst snd]; destruct (exec _ w) as [r w1]; cbn [fst] in HN; rewrite HN; apply IH;
    [by destruct (parseIntegerReply r)|apply Forall_app; by repeat constructor].
Qed.

(** C37: a client settles on one way of group writing: over any number of calls,
    a server that answers every MSETEX as an unknown command is handed it in at
    most one call of [exec], and one that never does is never sent the Lua
    fallback. *)
Theorem msetex_settles {W} (exec : list bytes -> W -> exec_result * W) calls w :
  let log := (msetex_all (logged exec) calls groupWriteUnknown (w, [])).2.2 in
  ((forall argv w, is_native argv = true -> unknownCommand (parseIntegerReply (exec argv w).1) = true) -> (natives log <= 1)%nat) /\
  ((forall argv w, is_native argv = true -> unknownCommand (parseIntegerReply (exec argv w).1) = false) ->
     Forall (fun a => is_native a = true) log).
Proof.
  split.
  - intros H. by apply (msetex_all_probe exec H).
  - intros H. by apply msetex_all_native.
Qed.

(** A server without MSETEX, for the witness. *)
Definition old_server (argv : list bytes) (w : unit) : exec_result * unit :=
  if is_native argv then (([], Some (eReply (bs "ERR unknown command 'MSETEX'"))), w) else (([Some (bs "1")], None), w).

Lemma msetex_settles_witness :
  let call := ([bs "a"], [bs "1"], bs "EX", 60) in
  (natives (msetex_all (logged old_server) [call; call; call] groupWriteUnknown (tt, [])).2.2 <= 1)%nat.
Proof.
  intros call. apply (proj1 (msetex_settles old_server [call; call; call] tt)).
  intros argv w H. unfold old_server. rewrite H. reflexivity.
Defined.

Lemma verbs_return_the_answer_witness :
  Incr (serve default_config) (bs "k") ([VElem (EInt 41)], []) = (inl 41, ([], [[bs "INCR"; bs "k"]])).
Proof.
  apply (proj1 (proj2 (proj2 (verbs_return_the_answer (bs "k") [] [] [])))). split; vm_compute; discriminate.
Defined.
