(* ===== verification/RedisPool.v ===== *)
(** * RedisPool: the connection pool of the Redis client ([simpleredis/pool.go])

    The in-use turns, the idle list, dialing, release and [Close], as a step
    relation over the goroutines that use one client.  A step is one critical
    section under [idleConnsMu], one channel operation, one atomic access, one
    socket event, the end of a context, or the close a context's watch does
    ([watchConnClose], [resp.go]), so every interleaving of those is a
    schedule. *)

From S2P Require Import Prelude.
From Stdlib Require Import ZArith Lia List.
From stdpp Require Import base list option gmap sets.

Open Scope Z_scope.

(** A parked socket and when it was last used. *)
Record pooledConn := { sock : nat; lastUsed : Z }.

(** Where a goroutine is in [borrowSocket], [runOnConn]/[release] or [Close]. *)
Inductive pc :=
| PBorrow (skipIdle : bool)                          (* entry of borrowSocket *)
| PTry (skipIdle : bool)                             (* first select on inUseTurns *)
| PWait (skipIdle : bool)                            (* second select: turn, ctx or timer *)
| PTaken (skipIdle : bool)                           (* turn held *)
| PSweep (stale : list nat) (reused : option nat)    (* closing stale sockets *)
| PDial
| PHand (s : nat)                                    (* AUTH / SELECT *)
| PUse (s : nat)                                     (* the command runs on s *)
| PRelease (s : nat) (reusable : bool)
| PShut (s : nat)                                    (* conn.close in release *)
| PFree                                              (* freeInUseTurn next *)
| PRet                                               (* returned *)
| PClose                                             (* entry of Close *)
| PDrain                                             (* won the CompareAndSwap *)
| PCloseAll (conns : list nat).

(** The client's pool fields; [opened] are the sockets dialed and not yet closed
    by the pool, [drained] is set once [Close] has emptied the idle list.
    [ended] are the goroutines whose command's context is done, [fired] the
    sockets whose watch has started, and [cut] those it has closed under the
    goroutine that uses them. *)
Record pool := mkPool {
  turns : nat;                (* len(inUseTurns) *)
  idleConns : list pooledConn;
  closed : bool;
  overFrees : nat;
  opened : gset nat;
  next : nat;
  drained : bool;
  threads : gmap nat pc;
  ended : gset nat;
  fired : gset nat;
  cut : gset nat;
}.

Definition set_pc (p : pool) (t : nat) (c : pc) : pool :=
  mkPool (turns p) (idleConns p) (closed p) (overFrees p) (opened p) (next p) (drained p) (<[t := c]> (threads p)) (ended p) (fired p) (cut p).
Definition set_idle (p : pool) (l : list pooledConn) : pool :=
  mkPool (turns p) l (closed p) (overFrees p) (opened p) (next p) (drained p) (threads p) (ended p) (fired p) (cut p).
Definition close_sock (p : pool) (s : nat) : pool :=
  mkPool (turns p) (idleConns p) (closed p) (overFrees p) (opened p ∖ {[s]}) (next p) (drained p) (threads p) (ended p) (fired p) (cut p).
Definition open_sock (p : pool) : pool :=
  mkPool (turns p) (idleConns p) (closed p) (overFrees p) ({[next p]} ∪ opened p) (S (next p)) (drained p) (threads p) (ended p) (fired p) (cut p).
Definition take_turn (p : pool) : pool :=
  mkPool (pred (turns p)) (idleConns p) (closed p) (overFrees p) (opened p) (next p) (drained p) (threads p) (ended p) (fired p) (cut p).
Definition set_closed (p : pool) : pool :=
  mkPool (turns p) (idleConns p) true (overFrees p) (opened p) (next p) (drained p) (threads p) (ended p) (fired p) (cut p).
Definition drain (p : pool) : pool :=
  mkPool (turns p) [] (closed p) (overFrees p) (opened p) (next p) true (threads p) (ended p) (fired p) (cut p).
Definition set_ended (p : pool) (e : gset nat) : pool :=
  mkPool (turns p) (idleConns p) (closed p) (overFrees p) (opened p) (next p) (drained p) (threads p) e (fired p) (cut p).

(** The context of goroutine [t] ends. *)
Definition end_context (p : pool) (t : nat) : pool := set_ended p ({[t]} ∪ ended p).
(** Its next command has a context of its own. *)
Definition new_context (p : pool) (t : nat) : pool := set_ended p (ended p ∖ {[t]}).
(** [watchConnClose]: the context's AfterFunc starts, and closes the socket. *)
Definition fire_watch (p : pool) (s : nat) : pool :=
  mkPool (turns p) (idleConns p) (closed p) (overFrees p) (opened p) (next p) (drained p) (threads p) (ended p) ({[s]} ∪ fired p) (cut p).
Definition watch_close (p : pool) (s : nat) : pool :=
  mkPool (turns p) (idleConns p) (closed p) (overFrees p) (opened p) (next p) (drained p) (threads p) (ended p) (fired p) ({[s]} ∪ cut p).

Section Pool.
(** Frozen at New: liveCap, maxIdleConns, idleTimeout. *)
Context (liveCap maxIdleConns : nat) (idleTimeout : Z).

(** [ensureInUseTurns], from New. *)
Definition ensureInUseTurns : pool := mkPool liveCap [] false 0 ∅ 0 false ∅ ∅ ∅ ∅.

(** [freeInUseTurn]: a return to a full semaphore is dropped and counted. *)
Definition freeInUseTurn (p : pool) : pool :=
  if (turns p <? liveCap)%nat
  then mkPool (S (turns p)) (idleConns p) (closed p) (overFrees p) (opened p) (next p) (drained p) (threads p) (ended p) (fired p) (cut p)
  else mkPool (turns p) (idleConns p) (closed p) (S (overFrees p)) (opened p) (next p) (drained p) (threads p) (ended p) (fired p) (cut p).

Definition young (now : Z) (c : pooledConn) : bool := now - lastUsed c <? idleTimeout.

(** [takeIdleConn] on an open client: reused, stale, the idle list after. *)
Definition takeIdleConn (now : Z) (l : list pooledConn) : option pooledConn * list pooledConn * list pooledConn :=
  let survivors := List.filter (young now) l in
  let stale := List.filter (fun c => negb (young now c)) l in
  match reverse survivors with
  | [] => (None, stale, [])
  | c :: _ => (Some c, stale, take (length survivors - 1) survivors)
  end.

(** [parkIdleConn] *)
Definition parkIdleConn (now : Z) (s : nat) (p : pool) : option pool :=
  if closed p || (maxIdleConns <=? length (idleConns p))%nat then None
  else Some (set_idle p (idleConns p ++ [{| sock := s; lastUsed := now |}])).

(** [borrowSocket] once it holds a turn: the idle list, or past it. *)
Definition take_next (now : Z) (skipIdle : bool) (p : pool) : pool * pc :=
  if closed p then (p, PFree)
  else if skipIdle then (p, PDial)
  else let '(reused, stale, l) := takeIdleConn now (idleConns p) in
       (set_idle p l, PSweep (map sock stale) (sock <$> reused)).

(** [release]: park a clean socket, else close it; the turn is freed after. *)
Definition release_next (now : Z) (s : nat) (reusable : bool) (p : pool) : pool * pc :=
  if reusable then match parkIdleConn now s p with Some p' => (p', PFree) | None => (p, PShut s) end
  else (p, PShut s).

(** One step of goroutine [t]; what the network, the clock and the context
    decide is left open. *)
Inductive step : pool -> pool -> Prop :=
| s_spawn p t c : threads p !! t = None -> c = PBorrow false \/ c = PClose -> step p (set_pc p t c)
(* borrowSocket *)
| s_closed p t b : threads p !! t = Some (PBorrow b) -> closed p = true -> step p (set_pc p t PRet)
| s_stop p t b : threads p !! t = Some (PBorrow b) -> closed p = false -> step p (set_pc p t PRet)
| s_enter p t b : threads p !! t = Some (PBorrow b) -> closed p = false -> step p (set_pc p t (PTry b))
| s_turn p t b : threads p !! t = Some (PTry b) \/ threads p !! t = Some (PWait b) -> (0 < turns p)%nat ->
    step p (set_pc (take_turn p) t (PTaken b))
| s_full p t b : threads p !! t = Some (PTry b) -> turns p = 0%nat -> step p (set_pc p t (PWait b))
| s_timeout p t b : threads p !! t = Some (PWait b) -> step p (set_pc p t PRet)
| s_take p t b now p' c : threads p !! t = Some (PTaken b) -> take_next now b p = (p', c) -> step p (set_pc p' t c)
| s_sweep p t s stale reused : threads p !! t = Some (PSweep (s :: stale) reused) ->
    step p (set_pc (close_sock p s) t (PSweep stale reused))
| s_reuse p t s : threads p !! t = Some (PSweep [] (Some s)) -> step p (set_pc p t (PUse s))
| s_idle_miss p t : threads p !! t = Some (PSweep [] None) -> step p (set_pc p t PDial)
| s_dial_fail p t : threads p !! t = Some PDial -> step p (set_pc p t PFree)
| s_dial p t : threads p !! t = Some PDial -> step p (set_pc (open_sock p) t (PHand (next p)))
| s_hand_fail p t s : threads p !! t = Some (PHand s) -> step p (set_pc (close_sock p s) t PFree)
| s_hand p t s : threads p !! t = Some (PHand s) -> step p (set_pc p t (PUse s))
(* the context of a command ends, its watch starts, the watch closes the socket: maybe late *)
| s_end p t c : threads p !! t = Some c -> step p (end_context p t)
| s_fire p t s : threads p !! t = Some (PHand s) \/ threads p !! t = Some (PUse s) -> t ∈ ended p -> step p (fire_watch p s)
| s_cut p s : s ∈ fired p -> step p (watch_close p s)
(* runOnConn and release: do stops its watch, then contextStop decides *)
| s_do p t s reusable : threads p !! t = Some (PUse s) -> (reusable = true -> t ∉ ended p) -> step p (set_pc p t (PRelease s reusable))
| s_release p t s reusable now p' c : threads p !! t = Some (PRelease s reusable) ->
    release_next now s reusable p = (p', c) -> step p (set_pc p' t c)
| s_shut p t s : threads p !! t = Some (PShut s) -> step p (set_pc (close_sock p s) t PFree)
| s_free p t : threads p !! t = Some PFree -> step p (set_pc (freeInUseTurn p) t PRet)
(* exec tries again, skipping the idle list or not *)
| s_retry p t b : threads p !! t = Some PRet -> step p (set_pc p t (PBorrow b))
(* the next command *)
| s_next p t : threads p !! t = Some PRet -> step p (set_pc (new_context p t) t (PBorrow false))
(* Close *)
| s_close_again p t : threads p !! t = Some PClose -> closed p = true -> step p (set_pc p t PRet)
| s_close p t : threads p !! t = Some PClose -> closed p = false -> step p (set_pc (set_closed p) t PDrain)
| s_drain p t : threads p !! t = Some PDrain -> step p (set_pc (drain p) t (PCloseAll (map sock (idleConns p))))
| s_close_one p t s l : threads p !! t = Some (PCloseAll (s :: l)) -> step p (set_pc (close_sock p s) t (PCloseAll l))
| s_close_done p t : threads p !! t = Some (PCloseAll []) -> step p (set_pc p t PRet).

Inductive reachable : pool -> Prop :=
| r_init : reachable ensureInUseTurns
| r_step p p' : reachable p -> step p p' -> reachable p'.

(** No goroutine bypasses the idle list. *)
Definition no_skip (p : pool) : Prop :=
  forall t, threads p !! t <> Some (PBorrow true) /\ threads p !! t <> Some (PTry true)
            /\ threads p !! t <> Some (PWait true) /\ threads p !! t <> Some (PTaken true).

(** Schedules in which none ever does. *)
Inductive reachable_no_skip : pool -> Prop :=
| rn_init : reachable_no_skip ensureInUseTurns
| rn_step p p' : reachable_no_skip p -> step p p' -> no_skip p' -> reachable_no_skip p'.

(** ** What a goroutine holds *)

(** Whether it holds a turn. *)
Definition holds (c : pc) : Z :=
  match c with
  | PTaken _ | PSweep _ _ | PDial | PHand _ | PUse _ | PRelease _ _ | PShut _ | PFree => 1
  | _ => 0
  end.

(** The sockets it must close or hand on. *)
Definition socks (c : pc) : list nat :=
  match c with
  | PSweep stale reused => stale ++ option_list reused
  | PHand s | PUse s | PRelease s _ | PShut s => [s]
  | PCloseAll l => l
  | _ => []
  end.

(** The live slot it occupies: a socket in use or being dialed. *)
Definition live (c : pc) : Z :=
  match c with
  | PSweep _ _ | PDial | PHand _ | PUse _ | PRelease _ _ | PShut _ => 1
  | _ => 0
  end.

(** Whether it is a [Close] that has not emptied the idle list yet. *)
Definition draining (c : pc) : Z := match c with PDrain => 1 | _ => 0 end.

Definition undrained (p : pool) : Z := if closed p && negb (drained p) then 1 else 0.

Definition idle_socks (p : pool) : list nat := map sock (idleConns p).

(** ** The invariant *)

(** Whether goroutine [t] at [c] may find the watch closing its socket: while its
    context is done, and after it gave the socket up as not reusable. *)
Definition may_cut (p : pool) (t : nat) (c : pc) : Prop :=
  match c with
  | PHand _ | PUse _ => t ∈ ended p
  | PRelease _ reusable => reusable = false
  | PShut _ => True
  | _ => False
  end.

(** A socket whose watch started is not parked, and its owner may find it cut. *)
Definition watched (p : pool) : Prop := forall s, s ∈ fired p ∪ cut p ->
  (s < next p)%nat /\ s ∉ idle_socks p /\ forall t c, threads p !! t = Some c -> s ∈ socks c -> may_cut p t c.

Record inv (p : pool) : Prop := {
  inv_turns : Z.of_nat (turns p) + msum holds (threads p) = Z.of_nat liveCap;
  inv_overFrees : overFrees p = 0%nat;
  inv_idle : (length (idleConns p) <= maxIdleConns)%nat;
  inv_socks : forall s, occ s (idle_socks p) + msum (fun c => occ s (socks c)) (threads p)
                        = if decide (s ∈ opened p) then 1 else 0;
  inv_next : forall s, s ∈ opened p -> (s < next p)%nat;
  inv_drained : drained p = true -> closed p = true /\ idleConns p = [];
  inv_draining : msum draining (threads p) = undrained p;
  inv_watched : watched p;
}.

Lemma holds_bound c : 0 <= holds c <= 1.
Proof. destruct c; simpl; lia. Qed.

Lemma draining_nonneg c : 0 <= draining c.
Proof. destruct c; simpl; lia. Qed.

Lemma live_holds c : live c <= holds c.
Proof. destruct c; simpl; lia. Qed.

Lemma occ_app x l l' : occ x (l ++ l') = occ x l + occ x l'.
Proof. induction l as [|y l IH]; simpl; [lia|]. rewrite IH. lia. Qed.

(** A thread moved. *)
Lemma msum_move f (m : gmap nat pc) t c c' : m !! t = Some c -> msum f (<[t := c']> m) = msum f m - f c + f c'.
Proof. apply msum_insert. Qed.

(** Sweeping and popping only moves sockets. *)
Lemma occ_filter now l s :
  occ s (map sock l) = occ s (map sock (List.filter (young now) l))
                       + occ s (map sock (List.filter (fun c => negb (young now c)) l)).
Proof.
  induction l as [|c l IH]; [done|]. cbn [List.filter map occ]. rewrite IH.
  destruct (young now c); cbn [negb map occ]; destruct (decide (sock c = s)); lia.
Qed.

Lemma takeIdleConn_occ now l reused stale l' s :
  takeIdleConn now l = (reused, stale, l') ->
  occ s (map sock l) = occ s (map sock l') + occ s (map sock stale ++ option_list (sock <$> reused)).
Proof.
  unfold takeIdleConn. rewrite (occ_filter now l s), occ_app.
  destruct (reverse (List.filter (young now) l)) as [|c rest] eqn:Hr.
  - intros [= <- <- <-]. apply (f_equal reverse) in Hr. rewrite reverse_involutive in Hr. rewrite Hr. simpl. lia.
  - intros [= <- <- <-]. apply (f_equal reverse) in Hr. rewrite reverse_involutive, reverse_cons in Hr. rewrite Hr.
    rewrite length_app. cbn [length]. rewrite Nat.add_sub, take_app_length, map_app, occ_app. simpl. lia.
Qed.

Lemma takeIdleConn_length now l reused stale l' :
  takeIdleConn now l = (reused, stale, l') -> (length l' + length (option_list reused) <= length l)%nat /\ (reused = None -> l' = []).
Proof.
  unfold takeIdleConn. pose proof (List.filter_length_le (young now) l) as Hl.
  destruct (reverse (List.filter (young now) l)) as [|c rest] eqn:Hr; intros [= <- <- <-].
  - simpl. split; [lia|done].
  - apply (f_equal length) in Hr. rewrite length_reverse in Hr. cbn [length] in Hr. rewrite length_take. simpl.
    split; [lia|done].
Qed.

(** Socket accounting: a socket is closed, opened, or only moved. *)
Definition accounted (p : pool) : Prop :=
  forall s, occ s (idle_socks p) + msum (fun c => occ s (socks c)) (threads p) = if decide (s ∈ opened p) then 1 else 0.

Lemma accounted_move p t c c' l :
  accounted p -> threads p !! t = Some c ->
  (forall x, occ x (idle_socks p) + occ x (socks c) = occ x (map sock l) + occ x (socks c')) ->
  accounted (set_pc (set_idle p l) t c').
Proof.
  intros A Ht H x. specialize (A x). specialize (H x). unfold idle_socks in *. cbn.
  rewrite (msum_move _ _ _ _ _ Ht). lia.
Qed.

Lemma accounted_close p t c c' s :
  accounted p -> threads p !! t = Some c -> (forall x, occ x (socks c) = occ x (s :: socks c')) ->
  accounted (set_pc (close_sock p s) t c').
Proof.
  intros A Ht H x. pose proof (A x) as Ax. specialize (H x). unfold idle_socks in *. cbn in *.
  rewrite (msum_move _ _ _ _ _ Ht). rewrite H.
  pose proof (msum_lookup (fun c => occ x (socks c)) _ _ _ (fun c => occ_nonneg x (socks c)) Ht) as Hge. cbn beta in Hge.
  pose proof (occ_nonneg x (map sock (idleConns p))). pose proof (occ_nonneg x (socks c')).
  destruct (decide (x ∈ opened p ∖ {[s]})) as [Hin|Hin]; destruct (decide (s = x)) as [->|Hne].
  - set_solver.
  - rewrite decide_True in Ax by set_solver. lia.
  - destruct (decide (x ∈ opened p)); lia.
  - rewrite decide_False in Ax by set_solver. lia.
Qed.

Lemma accounted_open p t c :
  accounted p -> (forall s, s ∈ opened p -> (s < next p)%nat) -> threads p !! t = Some c -> socks c = [] ->
  accounted (set_pc (open_sock p) t (PHand (next p))).
Proof.
  intros A Hn Ht Hc x. specialize (A x). unfold idle_socks in *. cbn.
  rewrite (msum_move _ _ _ _ _ Ht), Hc. cbn. destruct (decide (next p = x)) as [<-|Hne].
  - rewrite decide_False in A by (intros Hin; apply Hn in Hin; lia). rewrite decide_True by set_solver. lia.
  - destruct (decide (x ∈ opened p)); [rewrite decide_True by set_solver|rewrite decide_False by set_solver]; lia.
Qed.

Lemma accounted_drain p t :
  accounted p -> threads p !! t = Some PDrain ->
  accounted (set_pc (drain p) t (PCloseAll (map sock (idleConns p)))).
Proof.
  intros A Ht x. specialize (A x). unfold idle_socks in *. cbn. rewrite (msum_move _ _ _ _ _ Ht). cbn. lia.
Qed.

Lemma pool_inv_init : inv ensureInUseTurns.
Proof.
  split; cbn; rewrite ?msum_empty; try done; try lia.
Qed.

(** The turn count and the sockets are all a step can get wrong. *)
Lemma inv_moved p p' t c c' :
  inv p -> threads p !! t = Some c -> threads p' = <[t := c']> (threads p) ->
  Z.of_nat (turns p') - Z.of_nat (turns p) = holds c - holds c' -> overFrees p' = 0%nat ->
  (length (idleConns p') <= maxIdleConns)%nat -> accounted p' ->
  (forall s, s ∈ opened p' -> (s < next p')%nat) -> (drained p' = true -> closed p' = true /\ idleConns p' = []) ->
  undrained p' - undrained p = draining c' - draining c -> watched p' ->
  inv p'.
Proof.
  intros I Ht Ht' Hd Ho Hi A Hn Hdr Hdd Hw. split; try done; rewrite Ht', (msum_move _ _ _ _ _ Ht).
  - pose proof (inv_turns p I). lia.
  - pose proof (inv_draining p I). lia.
Qed.

(** A goroutine returns only a turn it holds, so the semaphore is not full. *)
Lemma freeInUseTurn_ok p t :
  inv p -> threads p !! t = Some PFree ->
  freeInUseTurn p = mkPool (S (turns p)) (idleConns p) (closed p) (overFrees p) (opened p) (next p) (drained p) (threads p) (ended p) (fired p) (cut p).
Proof.
  intros I Ht. unfold freeInUseTurn. pose proof (inv_turns p I).
  pose proof (msum_lookup holds _ _ _ (fun c => proj1 (holds_bound c)) Ht). cbn [holds] in *.
  destruct (Nat.ltb_spec (turns p) liveCap); [done|lia].
Qed.

Ltac moved Ht :=
  eapply inv_moved; [eassumption|exact Ht|reflexivity|cbn; try lia|cbn; try eassumption; try done|cbn; try eassumption|
    |cbn; try eassumption|cbn; try eassumption|unfold undrained; cbn; try lia|done].

(** The branches of [take_next] and [release_next]. *)
Lemma take_next_cases now b p p' c :
  take_next now b p = (p', c) ->
  (closed p = true /\ p' = p /\ c = PFree) \/
  (closed p = false /\ b = true /\ p' = p /\ c = PDial) \/
  (closed p = false /\ b = false /\ exists reused stale l, takeIdleConn now (idleConns p) = (reused, stale, l) /\
     p' = set_idle p l /\ c = PSweep (map sock stale) (sock <$> reused)).
Proof.
  unfold take_next. destruct (closed p); [intros [= <- <-]; by left|]. destruct b; [intros [= <- <-]; right; by left|].
  destruct (takeIdleConn _ _) as [[reused stale] l]. intros [= <- <-]. right; right. eauto 10.
Qed.

Lemma release_next_cases now s b p p' c :
  release_next now s b p = (p', c) ->
  (p' = p /\ c = PShut s) \/
  (b = true /\ closed p = false /\ (length (idleConns p) < maxIdleConns)%nat /\
     p' = set_idle p (idleConns p ++ [{| sock := s; lastUsed := now |}]) /\ c = PFree).
Proof.
  unfold release_next, parkIdleConn. destruct b; [|intros [= <- <-]; by left].
  destruct (closed p); [intros [= <- <-]; by left|]. cbn [orb].
  destruct (Nat.leb_spec maxIdleConns (length (idleConns p))); intros [= <- <-]; [by left|by right].
Qed.

Ltac split_next :=
  try match goal with
  | H : take_next _ _ _ = (_, _) |- _ =>
      apply take_next_cases in H as [(Hclosed & -> & ->)|[(Hclosed & -> & -> & ->)|(Hclosed & -> & reused & stale & l & Htake & -> & ->)]]
  | H : release_next _ _ _ _ = (_, _) |- _ => apply release_next_cases in H as [[-> ->]|(-> & Hclosed & Hroom & -> & ->)]
  end.

(** A goroutine moved: sockets it parks may not be cut, those it gets were parked
    or are new, and where it keeps one it may still find it cut. *)
Lemma watched_move p p' t c c' :
  watched p -> threads p !! t = Some c -> threads p' = <[t := c']> (threads p) -> fired p' = fired p -> cut p' = cut p ->
  (forall u, u <> t -> u ∈ ended p -> u ∈ ended p') -> (next p <= next p')%nat ->
  (forall s, s ∈ idle_socks p' -> s ∈ idle_socks p \/ s ∈ socks c /\ ~ may_cut p t c) ->
  (forall s, s ∈ socks c' -> s ∈ idle_socks p \/ (next p <= s)%nat \/ s ∈ socks c /\ (may_cut p t c -> may_cut p' t c')) ->
  watched p'.
Proof.
  intros W Ht Ht' Hf Hc He Hn Hi Hk s Hs. rewrite Hf, Hc in Hs. destruct (W s Hs) as (H1 & H2 & H3).
  split; [lia|]. split; [intros [?|[Hin Hno]]%Hi; [done|by eapply Hno, H3]|]. rewrite Ht'.
  intros u d [[<- <-]|[Hne Hu]]%lookup_insert_Some Hin.
  - destruct (Hk s Hin) as [?|[?|[Hs' Hm]]]; [done|lia|]. by eapply Hm, H3.
  - specialize (H3 u d Hu Hin). destruct d; cbn in *; auto.
Qed.

(** The sockets of the next position are those of the last one. *)
Lemma watched_keep p t c c' :
  watched p -> threads p !! t = Some c -> (forall s, s ∈ socks c' -> s ∈ socks c) -> (may_cut p t c -> may_cut p t c') ->
  watched (set_pc p t c').
Proof. intros W Ht Hs Hm. eapply watched_move; eauto. Qed.

Lemma takeIdleConn_elem now l reused stale l' s :
  takeIdleConn now l = (reused, stale, l') ->
  s ∈ map sock l' \/ s ∈ map sock stale ++ option_list (sock <$> reused) -> s ∈ map sock l.
Proof.
  intros Ht%(fun H => takeIdleConn_occ now l reused stale l' s H).
  pose proof (occ_nonneg s (map sock l')). pose proof (occ_nonneg s (map sock stale ++ option_list (sock <$> reused))).
  rewrite !occ_elem_of. lia.
Qed.

(** A goroutine that has a socket is its only owner. *)
Lemma one_owner p t c s :
  accounted p -> threads p !! t = Some c -> s ∈ socks c ->
  s ∈ opened p /\ s ∉ idle_socks p /\ forall t' c', threads p !! t' = Some c' -> s ∈ socks c' -> t' = t.
Proof.
  intros A Ht Hin%occ_elem_of. specialize (A s). pose proof (occ_nonneg s (idle_socks p)) as Hi.
  assert (Hnn : forall d, 0 <= occ s (socks d)) by (intros; apply occ_nonneg).
  pose proof (msum_lookup _ _ _ _ Hnn Ht) as H1. cbn beta in H1. rewrite occ_elem_of.
  destruct (decide (s ∈ opened p)); [|lia]. split; [done|]. split; [lia|].
  intros t' c' Ht' Hin'%occ_elem_of. destruct (decide (t' = t)) as [|Hne]; [done|].
  pose proof (msum_lookup2 _ _ _ _ _ _ Hnn Ht' Ht Hne) as H2. cbn beta in H2. lia.
Qed.

Lemma watched_fire p t c s :
  inv p -> threads p !! t = Some c -> s ∈ socks c -> may_cut p t c -> watched (fire_watch p s).
Proof.
  intros I Ht Hin Hm x Hx. cbn in Hx. destruct (decide (x = s)) as [->|Hne].
  - destruct (one_owner p t c s (inv_socks p I) Ht Hin) as (Ho & Hi & Hu). split; [by apply (inv_next p I)|].
    split; [done|]. cbn. intros u d Hd Hs. pose proof (Hu u d Hd Hs) as ->. rewrite Hd in Ht. injection Ht as ->. by destruct c.
  - apply (inv_watched p I x). set_solver.
Qed.

Lemma step_watched p p' : inv p -> step p p' -> watched p'.
Proof.
  intros I Hs. pose proof (inv_watched p I) as W. destruct Hs.
  { intros s Hs. destruct (W s Hs) as (H1 & H2 & H3). split; [done|]. split; [done|].
    cbn. intros u d [[<- <-]|[Hne Hu]]%lookup_insert_Some Hin; [destruct H0 as [-> | ->]; inversion Hin|by apply (H3 u d)]. }
  all: try match goal with H : _ \/ _ |- _ => destruct H as [H|H] end.
  all: split_next.
  all: try (match goal with Ht : lookup _ (threads _) = Some _ |- _ => apply (watched_keep _ _ _ _ W Ht); [cbn; set_solver|cbn; naive_solver] end).
  all: try (match goal with Ht : lookup _ (threads _) = Some _ |- _ =>
    eapply watched_move; [exact W|exact Ht|done|done|done|done|done|by left|by intros ? ?%elem_of_nil] end).
  - eapply watched_move; [exact W|exact H|done|done|done|done|done| |]; unfold idle_socks; cbn; intros s Hs; left; eapply takeIdleConn_elem; eauto.
  - eapply watched_move; [exact W|exact H|done|done|done|done|cbn; lia|by left|]. cbn. intros s ->%list_elem_of_singleton. by right; left.
  - intros s Hs. destruct (W s Hs) as (H1 & H2 & H3). split; [done|]. split; [done|]. cbn.
    intros u d Hd Hin. specialize (H3 u d Hd Hin). destruct d; cbn in *; set_solver.
  - eapply watched_fire; [done|exact H|cbn; set_solver|done].
  - eapply watched_fire; [done|exact H|cbn; set_solver|done].
  - intros x Hx. apply (W x). cbn in Hx. set_solver.
  - apply (watched_keep _ _ _ _ W H); [done|]. cbn. intros He. destruct reusable; [by destruct H0|done].
  - eapply watched_move; [exact W|exact H|done|done|done|done|done| |by intros ? ?%elem_of_nil].
    unfold idle_socks. cbn. rewrite map_app. cbn. intros x [?|Hx]%elem_of_app; [by left|]. right. by split.
  - unfold freeInUseTurn. destruct (_ <? _)%nat; (eapply watched_move; [exact W|exact H|done|done|done|done|done|by left|by intros ? ?%elem_of_nil]).
  - eapply watched_move; [exact W|exact H|done|done|done| |done|by left|by intros ? ?%elem_of_nil]. cbn. set_solver.
  - eapply watched_move; [exact W|exact H|done|done|done|done|done|by intros ? ?%elem_of_nil|]. cbn. intros s Hs. by left.
Qed.

Lemma step_inv p p' : inv p -> step p p' -> inv p'.
Proof.
  intros I Hs. pose proof I as [It Io Ii Is In Id Ic Iw]. pose proof (step_watched _ _ I Hs) as Hw. destruct Hs.
  { split; cbn; try done.
    - rewrite msum_insert_new by done. destruct H0 as [->| ->]; cbn; lia.
    - intros s. rewrite msum_insert_new by done. rewrite <- Is. unfold idle_socks. cbn. destruct H0 as [->| ->]; cbn; lia.
    - rewrite msum_insert_new by done. unfold undrained in *. cbn. destruct H0 as [->| ->]; cbn; lia. }
  all: try match goal with |- inv (?f _ _) => match f with end_context => by split | fire_watch => by split | watch_close => by split end end.
  all: try match goal with H : _ \/ _ |- _ => destruct H as [H|H] end.
  all: split_next.
  all: try match goal with Ht : lookup _ (threads _) = Some PFree |- _ => rewrite (freeInUseTurn_ok _ _ I Ht) in Hw |- * end.
  all: match goal with Ht : lookup _ (threads _) = Some _ |- _ => moved Ht end.
  all: try (match goal with Ht : lookup _ (threads _) = Some _ |- _ => apply (accounted_move _ _ _ _ _ Is Ht); intros; reflexivity end).
  all: try (match goal with Ht : lookup _ (threads _) = Some _ |- _ => apply (accounted_close _ _ _ _ _ Is Ht); intros; reflexivity end).
  all: try (match goal with Ht : lookup _ (threads _) = Some PDrain |- _ => pose proof (msum_lookup draining _ _ _ draining_nonneg Ht) end).
  all: try (by apply (accounted_drain _ _ Is)).
  all: try (by eapply accounted_open).
  all: try (intros x Hx; apply elem_of_difference in Hx as [Hx _]; by apply In).
  all: try (destruct (takeIdleConn_length _ _ _ _ _ Htake); intros; lia || (rewrite Id in *; congruence)).
  all: try lia.
  - apply (accounted_move _ _ _ _ _ Is H). intros x. unfold idle_socks. rewrite (takeIdleConn_occ _ _ _ _ _ x Htake). simpl. lia.
  - intros Hd. destruct (Id Hd). congruence.
  - intros x Hx. apply elem_of_union in Hx as [Hx%elem_of_singleton|Hx]; [lia|apply In in Hx; lia].
  - rewrite length_app. simpl. lia.
  - apply (accounted_move _ _ _ _ _ Is H). intros x. unfold idle_socks. rewrite map_app, occ_app. simpl. lia.
  - intros Hd. destruct (Id Hd). congruence.
  - intros Hd. destruct (Id Hd). congruence.
  - destruct (drained p); [|rewrite H0; done]. destruct (Id eq_refl). congruence.
  - unfold undrained in Ic. destruct (closed p); [done|]. cbn in *. lia.
  - unfold undrained in Ic. destruct (closed p), (drained p); cbn in *; lia.
Qed.

Lemma pool_inv_reachable p : reachable p -> inv p.
Proof. induction 1 as [|p p' _ IH Hs]; [apply pool_inv_init|by eapply step_inv]. Qed.

(** ** Theorems *)

(** C25: turns are never lost or invented: in every reachable state the free
    turns and the goroutines that hold one add up to the pool size, no extra
    return is ever dropped, and the idle list is within its trim.  In
    particular once every command has returned all turns are free again. *)
Theorem turns_conserved p :
  reachable p ->
  Z.of_nat (turns p) + msum holds (threads p) = Z.of_nat liveCap /\ overFrees p = 0%nat /\
  (length (idleConns p) <= maxIdleConns)%nat /\
  ((forall t c, threads p !! t = Some c -> c = PRet) -> turns p = liveCap).
Proof.
  intros [It Io Ii _ _ _ _ _]%pool_inv_reachable. split; [done|]. split; [done|]. split; [done|].
  intros Hall. assert (Hz : msum holds (threads p) = 0); [|lia].
  rewrite (msum_zero_all holds); [done|]. intros t c Ht. by rewrite (Hall t c Ht).
Qed.

(** C4: a socket has exactly one owner until the pool closes it: it is parked on
    the idle list once, or one goroutine uses it, hands it on or is closing it; a
    closed socket has none.  So two commands never share a socket, and a used one
    is not parked and not closed by the pool.  The watch of a context that ends
    may close a socket under the command that uses it, also late, but only a
    command whose own context is done: a parked socket, and one a live command
    uses, is never cut.  None leaks: after [Close], when every goroutine has
    returned, every socket ever dialed is closed. *)
Theorem sockets_have_one_owner p :
  reachable p ->
  (forall s, occ s (idle_socks p) + msum (fun c => occ s (socks c)) (threads p) = if decide (s ∈ opened p) then 1 else 0) /\
  (forall t t' s, threads p !! t = Some (PUse s) -> threads p !! t' = Some (PUse s) -> t = t') /\
  (forall t s, threads p !! t = Some (PUse s) -> s ∈ opened p /\ s ∉ idle_socks p) /\
  (forall s, s ∈ idle_socks p -> s ∈ opened p /\ s ∉ fired p /\ s ∉ cut p) /\
  (forall t s, threads p !! t = Some (PUse s) -> t ∉ ended p -> s ∉ fired p /\ s ∉ cut p) /\
  (closed p = true -> (forall t c, threads p !! t = Some c -> c = PRet) -> opened p = ∅).
Proof.
  intros [_ _ _ Is _ Id Ic Iw]%pool_inv_reachable. split; [exact Is|].
  assert (Hown : forall t s, threads p !! t = Some (PUse s) -> s ∈ socks (PUse s)) by (intros; cbn; set_solver).
  split; [|split; [|split; [|split]]].
  - intros t t' s Ht Ht'. eapply (one_owner p t' (PUse s) s Is); eauto.
  - intros t s Ht. by destruct (one_owner p t (PUse s) s Is Ht (Hown t s Ht)) as (? & ? & _).
  - intros s Hs. split.
    + specialize (Is s). apply occ_elem_of in Hs. pose proof (msum_nonneg (fun c => occ s (socks c)) (threads p) (fun c => occ_nonneg s (socks c))).
      destruct (decide (s ∈ opened p)); [done|lia].
    + split; intros Hf; destruct (Iw s) as (_ & Hi & _); set_solver.
  - intros t s Ht He. split; intros Hf; (destruct (Iw s) as (_ & _ & Hm); [set_solver|]); exact (He (Hm t _ Ht (Hown t s Ht))).
  - intros Hc Hall. apply set_eq. intros s. split; [|set_solver]. intros Hs. specialize (Is s).
    rewrite decide_True in Is by done.
    assert (Hd : drained p = true).
    { rewrite (msum_zero_all draining) in Ic by (intros t c Ht; by rewrite (Hall t c Ht)).
      unfold undrained in Ic. rewrite Hc in Ic. by destruct (drained p). }
    destruct (Id Hd) as [_ Hi]. unfold idle_socks in Is. rewrite Hi in Is.
    rewrite (msum_zero_all (fun c => occ s (socks c))) in Is by (intros t c Ht; by rewrite (Hall t c Ht)). cbn in Is. lia.
Qed.

(** ** The live-socket cap *)

Definition live_count (p : pool) : Z := Z.of_nat (length (idleConns p)) + msum live (threads p).

Lemma live_step p p' :
  inv p -> step p p' -> no_skip p -> live_count p <= Z.of_nat liveCap -> live_count p' <= Z.of_nat liveCap.
Proof.
  intros I Hs Hn Hl. unfold live_count in *. pose proof (inv_turns p I) as It. destruct Hs.
  { cbn. rewrite msum_insert_new by done. destruct H0 as [->| ->]; cbn; lia. }
  all: try exact Hl.
  all: try match goal with H : _ \/ _ |- _ => destruct H as [H|H] end.
  all: split_next.
  all: try match goal with Ht : lookup _ (threads _) = Some PFree |- _ => rewrite (freeInUseTurn_ok _ _ I Ht) end.
  all: cbn; match goal with Ht : lookup _ (threads _) = Some _ |- _ => rewrite (msum_move _ _ _ _ _ Ht) end; cbn; try lia.
  - destruct (Hn t) as (_ & _ & _ & Hskip). congruence.
  - pose proof (msum_le_at live holds _ _ _ live_holds H) as Hh. cbn in Hh.
    destruct (takeIdleConn_length _ _ _ _ _ Htake) as [Hlen Hnone]. destruct reused as [c|]; cbn in *; [lia|].
    rewrite Hnone by done. cbn. lia.
  - rewrite length_app. cbn. lia.
Qed.

Lemma no_skip_reachable p : reachable_no_skip p -> reachable p /\ no_skip p /\ live_count p <= Z.of_nat liveCap.
Proof.
  induction 1 as [|p p' _ (Hr & Hn & Hl) Hs Hn'].
  - split; [constructor|]. split; [by intros t; cbn; rewrite lookup_empty|]. unfold live_count. cbn. rewrite msum_empty. lia.
  - split; [by econstructor|]. split; [done|]. eapply live_step; [apply pool_inv_reachable|..]; done.
Qed.

(** Idle sockets plus sockets in use or being dialed never exceed the pool
    size as long as no command bypasses the idle list, and never exceed it by
    more than the idle trim when some do. *)
Theorem live_sockets_capped p :
  (reachable_no_skip p -> live_count p <= Z.of_nat liveCap) /\
  (reachable p -> live_count p <= Z.of_nat liveCap + Z.of_nat maxIdleConns).
Proof.
  split; [intros H; by destruct (no_skip_reachable p H) as (_ & _ & Hl)|].
  intros [It _ Ii _ _ _ _]%pool_inv_reachable. unfold live_count.
  pose proof (msum_le live holds (threads p) live_holds). lia.
Qed.

End Pool.

(** ** Concrete schedules *)

(** Extend a schedule by one step and compute the state it leads to. *)
Tactic Notation "next_step" hyp(H) uconstr(c) :=
  let H' := fresh in
  eassert (H' := r_step _ _ _ _ _ H ltac:(eapply c; first [reflexivity | left; reflexivity | vm_compute; lia | discriminate
    | intros _; apply (bool_decide_unpack _); vm_compute; exact I]));
  vm_compute in H'; clear H; rename H' into H.

(** With PoolSize 1 and a trim of 1 a schedule reaches two live sockets: a
    command that lost its idle socket retries with skipIdle and dials while the
    socket another command parked meanwhile stays on the idle list.  The cap the
    configuration documents (idle plus in-use) does not count it. *)
Theorem skip_idle_exceeds_pool_size :
  exists p, reachable 1 1 100 p /\ live_count p = 2.
Proof.
  pose proof (r_init 1 1 100) as H.
  (* goroutine 0 dials socket 0 and parks it *)
  next_step H (s_spawn 1 1 100 _ 0 (PBorrow false)).
  next_step H (s_enter 1 1 100 _ 0 false).
  next_step H (s_turn 1 1 100 _ 0 false).
  next_step H (s_take 1 1 100 _ 0 false 0).
  next_step H (s_idle_miss 1 1 100 _ 0).
  next_step H (s_dial 1 1 100 _ 0).
  next_step H (s_hand 1 1 100 _ 0 0).
  next_step H (s_do 1 1 100 _ 0 0 true).
  next_step H (s_release 1 1 100 _ 0 0 true 0).
  next_step H (s_free 1 1 100 _ 0).
  (* goroutine 1 takes it and fails on it *)
  next_step H (s_spawn 1 1 100 _ 1 (PBorrow false)).
  next_step H (s_enter 1 1 100 _ 1 false).
  next_step H (s_turn 1 1 100 _ 1 false).
  next_step H (s_take 1 1 100 _ 1 false 1).
  next_step H (s_reuse 1 1 100 _ 1 0).
  next_step H (s_do 1 1 100 _ 1 0 false).
  next_step H (s_release 1 1 100 _ 1 0 false 2).
  next_step H (s_shut 1 1 100 _ 1 0).
  next_step H (s_free 1 1 100 _ 1).
  (* goroutine 0 runs another command, dials socket 1 and parks it *)
  next_step H (s_next 1 1 100 _ 0).
  next_step H (s_enter 1 1 100 _ 0 false).
  next_step H (s_turn 1 1 100 _ 0 false).
  next_step H (s_take 1 1 100 _ 0 false 2).
  next_step H (s_idle_miss 1 1 100 _ 0).
  next_step H (s_dial 1 1 100 _ 0).
  next_step H (s_hand 1 1 100 _ 0 1).
  next_step H (s_do 1 1 100 _ 0 1 true).
  next_step H (s_release 1 1 100 _ 0 1 true 2).
  next_step H (s_free 1 1 100 _ 0).
  (* goroutine 1 retries past the idle list *)
  next_step H (s_retry 1 1 100 _ 1 true).
  next_step H (s_enter 1 1 100 _ 1 true).
  next_step H (s_turn 1 1 100 _ 1 true).
  next_step H (s_take 1 1 100 _ 1 true 3).
  next_step H (s_dial 1 1 100 _ 1).
  eexists. split; [exact H|]. vm_compute. reflexivity.
Qed.

(** A command on its socket, for the witnesses. *)
Definition one_taken : pool :=
  set_pc (take_turn (set_pc (set_pc (ensureInUseTurns 2) 0 (PBorrow false)) 0 (PTry false))) 0 (PTaken false).

Definition one_dial : pool := set_pc (set_pc (set_idle one_taken []) 0 (PSweep [] None)) 0 PDial.

Definition one_command : pool := set_pc (open_sock one_dial) 0 (PHand (next one_dial)).

Lemma one_command_reachable : reachable 2 1 100 one_command.
Proof.
  unfold one_command. eapply r_step; [|by apply (s_dial 2 1 100 one_dial 0)].
  eapply r_step; [|by apply (s_idle_miss 2 1 100 _ 0)].
  eapply r_step; [|by apply (s_take 2 1 100 one_taken 0 false 0)].
  eapply r_step; [|apply (s_turn 2 1 100 _ 0 false); [by left|cbn; lia]].
  eapply r_step; [|by apply (s_enter 2 1 100 _ 0 false)].
  eapply r_step; [apply r_init|]. apply s_spawn; [done|by left].
Qed.

Lemma turns_conserved_witness :
  turns one_command = 1%nat /\ Z.of_nat (turns one_command) + msum holds (threads one_command) = 2.
Proof.
  split; [reflexivity|]. apply (turns_conserved 2 1 100 one_command one_command_reachable).
Defined.

Lemma sockets_have_one_owner_witness :
  occ 0 (idle_socks one_command) + msum (fun c => occ 0 (socks c)) (threads one_command) = 1.
Proof.
  pose proof (proj1 (sockets_have_one_owner 2 1 100 one_command one_command_reachable) 0%nat) as H.
  rewrite decide_True in H by (apply (bool_decide_unpack _); vm_compute; exact I). exact H.
Defined.

Lemma live_sockets_capped_witness : live_count one_command <= 2 + 1.
Proof. apply (proj2 (live_sockets_capped 2 1 100 one_command)). apply one_command_reachable. Defined.
