(* ===== verification/RedisClient.v ===== *)
(** * RedisClient: the client value, as [New] builds it

    [simpleredis/simpleredis.go] with the helpers of [pool.go] and
    [commands_msetex.go] that read or write one field of it: [New], the frozen
    settings and their accessors, the in-use turns it starts with, the group-write
    cache, and the public error predicates.  The logger is left out. *)

From S2P Require Import Prelude.
From S2P Require Import Resp.
From S2P Require Import RedisExec.
From S2P Require Import RedisExecProofs.
From S2P Require Import RedisVerbs.
From S2P Require Import RedisPool.
From Stdlib Require Import ZArith Lia List.
From stdpp Require Import base option gmap.

Open Scope Z_scope.

Definition defaultPoolSize : Z := 8.
Definition defaultIdleTimeout : Z := 30 * Second.
Definition defaultDialTimeout : Z := 200 * Millisecond.
Definition defaultCommandTimeout : Z := 900 * Millisecond.
Definition defaultPoolTimeout : Z := 200 * Millisecond.

(** [SimpleRedis]; [inUseTurns] is the channel's capacity and length, [None]
    before New has made it. *)
Record SimpleRedis := mkClient {
  host : bytes; pass : bytes; database : bytes;
  maxRetries : Z; minRetryBackoff : Z; maxRetryBackoff : Z;
  poolSize : Z; maxIdleConns : Z; poolTimeout : Z; idleTimeout : Z; dialTimeout : Z; commandTimeout : Z;
  inUseTurns : option (nat * nat);
  groupWrite : groupWritePath;
}.

(** The zero value: a client that did not come from New. *)
Definition zero_client : SimpleRedis := mkClient [] [] [] 0 0 0 0 0 0 0 0 0 None groupWriteUnknown.

(** [liveCap] *)
Definition liveCap (sr : SimpleRedis) : Z :=
  match inUseTurns sr with
  | Some (cap, _) => Z.of_nat cap
  | None => if 0 <? poolSize sr then poolSize sr else defaultPoolSize
  end.

(** [inUseTurnWait] *)
Definition inUseTurnWait (sr : SimpleRedis) : Z := if 0 <? poolTimeout sr then poolTimeout sr else defaultPoolTimeout.

Definition set_turns (sr : SimpleRedis) (ch : nat * nat) : SimpleRedis :=
  mkClient (host sr) (pass sr) (database sr) (maxRetries sr) (minRetryBackoff sr) (maxRetryBackoff sr) (poolSize sr) (maxIdleConns sr)
    (poolTimeout sr) (idleTimeout sr) (dialTimeout sr) (commandTimeout sr) (Some ch) (groupWrite sr).

(** The fill loop of [ensureInUseTurns]: [n] sends on a channel of that
    capacity; [None] when one would block. *)
Fixpoint fill (n : nat) (ch : nat * nat) : option (nat * nat) :=
  match n with
  | O => Some ch
  | S n => if (ch.2 <? ch.1)%nat then fill n (ch.1, S ch.2) else None
  end.

(** [ensureInUseTurns] *)
Definition makeTurns (sr : SimpleRedis) : option SimpleRedis :=
  match inUseTurns sr with
  | Some _ => Some sr
  | None => let cap := Z.to_nat (liveCap sr) in set_turns sr <$> fill cap (cap, 0%nat)
  end.

(** [New]: [None] is a send that blocks for ever; [inr] is
    ErrMaxIdleConnsAbovePoolSize. *)
Definition New (h p db : bytes) (cfg : Config) : option (SimpleRedis + unit) :=
  match applyDefaults cfg with
  | None => Some (inr tt)
  | Some cfg =>
      let sr := mkClient h p db (RedisExec.MaxRetries cfg) (MinRetryBackoff cfg) (MaxRetryBackoff cfg) (RedisExec.PoolSize cfg)
        (RedisExec.MaxIdleConns cfg) (RedisExec.PoolTimeout cfg) (RedisExec.IdleTimeout cfg) (RedisExec.DialTimeout cfg)
        (RedisExec.CommandTimeout cfg) None groupWriteUnknown in
      inl <$> makeTurns sr
  end.

(** The accessors. *)
Definition PoolSize (sr : SimpleRedis) : Z := liveCap sr.
Definition MaxIdleConns (sr : SimpleRedis) : Z := maxIdleConns sr.
Definition PoolTimeout (sr : SimpleRedis) : Z := inUseTurnWait sr.
Definition IdleTimeout (sr : SimpleRedis) : Z := if 0 <? idleTimeout sr then idleTimeout sr else defaultIdleTimeout.
Definition DialTimeout (sr : SimpleRedis) : Z := if 0 <? dialTimeout sr then dialTimeout sr else defaultDialTimeout.
Definition CommandTimeout (sr : SimpleRedis) : Z := if 0 <? commandTimeout sr then commandTimeout sr else defaultCommandTimeout.
Definition MaxRetries (sr : SimpleRedis) : Z := maxRetries sr.

(** [cachedGroupWrite], [storeGroupWrite] *)
Definition cachedGroupWrite (sr : SimpleRedis) : groupWritePath := groupWrite sr.
Definition storeGroupWrite (path : groupWritePath) (sr : SimpleRedis) : SimpleRedis :=
  mkClient (host sr) (pass sr) (database sr) (maxRetries sr) (minRetryBackoff sr) (maxRetryBackoff sr) (poolSize sr) (maxIdleConns sr)
    (poolTimeout sr) (idleTimeout sr) (dialTimeout sr) (commandTimeout sr) (inUseTurns sr) path.

(** The public predicates; [ePoolWait] and [eNotFromNew] wrap [eUnreachable]. *)
Definition IsMiss (e : goerr) : bool := match e with eMiss => true | _ => false end.
Definition IsUnreachable (e : goerr) : bool := match e with eUnreachable | ePoolWait | eNotFromNew => true | _ => false end.
Definition IsPoolWait (e : goerr) : bool := match e with ePoolWait => true | _ => false end.

(** The predicates that [shouldRetry] uses compare identities. *)
Definition isCommandTimeout (e : goerr) : bool := bool_decide (e = eTimeout).
Definition isUnreachable (e : goerr) : bool := bool_decide (e = eUnreachable).

(** ** The client is well-formed *)

(** What every part of the client may rely on of its fields. *)
Definition client_ok (sr : SimpleRedis) : Prop :=
  (exists cap, inUseTurns sr = Some (cap, cap) /\ Z.of_nat cap = poolSize sr) /\
  0 < maxIdleConns sr <= poolSize sr /\ 0 < poolTimeout sr /\ 0 < idleTimeout sr /\ 0 < dialTimeout sr /\
  0 < commandTimeout sr /\ maxRetries sr <> 0 /\ groupWrite sr = groupWriteUnknown.

Lemma fill_room n : forall cap len, (len + n <= cap)%nat -> fill n (cap, len) = Some (cap, len + n)%nat.
Proof.
  induction n as [|n IH]; intros cap len H; cbn [fill fst snd]; [by rewrite Nat.add_0_r|].
  rewrite (proj2 (Nat.ltb_lt _ _)) by lia. rewrite IH by lia. do 2 f_equal. lia.
Qed.

(** A setting the caller gave, or its default. *)
Definition given_or (x d : Z) : Z := if 0 <? x then x else d.

Lemma given_or_positive x d : 0 < d -> positive_or x d = given_or x d /\ 0 < given_or x d.
Proof. intros Hd. unfold positive_or, given_or. destruct (Z.leb_spec x 0), (Z.ltb_spec 0 x); split; (done || lia). Qed.

(** The idle trim of a configuration. *)
Definition idle_trim (cfg : Config) : Z :=
  given_or (RedisExec.MaxIdleConns cfg) (Z.min 8 (given_or (RedisExec.PoolSize cfg) defaultPoolSize)).

Lemma applyDefaults_spec cfg :
  let pool := given_or (RedisExec.PoolSize cfg) defaultPoolSize in
  applyDefaults cfg =
    if (0 <? RedisExec.MaxIdleConns cfg) && (pool <? RedisExec.MaxIdleConns cfg) then None
    else Some {| RedisExec.PoolSize := pool; RedisExec.MaxIdleConns := idle_trim cfg;
                 RedisExec.PoolTimeout := given_or (RedisExec.PoolTimeout cfg) defaultPoolTimeout;
                 RedisExec.IdleTimeout := given_or (RedisExec.IdleTimeout cfg) defaultIdleTimeout;
                 RedisExec.DialTimeout := given_or (RedisExec.DialTimeout cfg) defaultDialTimeout;
                 RedisExec.CommandTimeout := given_or (RedisExec.CommandTimeout cfg) defaultCommandTimeout;
                 RedisExec.MaxRetries := if RedisExec.MaxRetries cfg =? 0 then 1 else RedisExec.MaxRetries cfg;
                 RedisExec.MinRetryBackoff := MinRetryBackoff cfg; RedisExec.MaxRetryBackoff := MaxRetryBackoff cfg |}.
Proof.
  cbn zeta. unfold applyDefaults, idle_trim, defaultPoolTimeout, defaultIdleTimeout, defaultDialTimeout, defaultCommandTimeout, defaultPoolSize.
  cbn zeta. rewrite !(fun x d H => proj1 (given_or_positive x d H)) by (unfold Second, Millisecond; lia).
  set (pool := given_or (RedisExec.PoolSize cfg) 8).
  assert (Hg : given_or (RedisExec.MaxIdleConns cfg) (Z.min 8 pool) = if 0 <? RedisExec.MaxIdleConns cfg then RedisExec.MaxIdleConns cfg else Z.min 8 pool) by done.
  rewrite Hg. destruct (Z.leb_spec (RedisExec.MaxIdleConns cfg) 0), (Z.ltb_spec 0 (RedisExec.MaxIdleConns cfg)); try lia; cbn [andb mbind option_bind].
  - destruct (Z.ltb_spec pool 8); do 2 f_equal; lia.
  - by destruct (pool <? RedisExec.MaxIdleConns cfg).
Qed.

(** The client of a configuration whose defaults have been applied. *)
Lemma built_client h p db c :
  0 < RedisExec.MaxIdleConns c <= RedisExec.PoolSize c -> 0 < RedisExec.PoolTimeout c -> 0 < RedisExec.IdleTimeout c ->
  0 < RedisExec.DialTimeout c -> 0 < RedisExec.CommandTimeout c -> RedisExec.MaxRetries c <> 0 ->
  exists sr, inl <$> makeTurns (mkClient h p db (RedisExec.MaxRetries c) (MinRetryBackoff c) (MaxRetryBackoff c) (RedisExec.PoolSize c)
        (RedisExec.MaxIdleConns c) (RedisExec.PoolTimeout c) (RedisExec.IdleTimeout c) (RedisExec.DialTimeout c)
        (RedisExec.CommandTimeout c) None groupWriteUnknown) = Some (inl sr : SimpleRedis + unit) /\
    client_ok sr /\ host sr = h /\ pass sr = p /\ database sr = db /\ PoolSize sr = RedisExec.PoolSize c /\
    MaxIdleConns sr = RedisExec.MaxIdleConns c /\ PoolTimeout sr = RedisExec.PoolTimeout c /\ IdleTimeout sr = RedisExec.IdleTimeout c /\
    DialTimeout sr = RedisExec.DialTimeout c /\ CommandTimeout sr = RedisExec.CommandTimeout c /\ MaxRetries sr = RedisExec.MaxRetries c.
Proof.
  intros [H1 H2] H3 H4 H5 H6 H7. unfold makeTurns. cbn [inUseTurns].
  set (cap := Z.to_nat _). assert (Hcap : Z.of_nat cap = RedisExec.PoolSize c).
  { subst cap. unfold liveCap. cbn [inUseTurns poolSize]. destruct (Z.ltb_spec 0 (RedisExec.PoolSize c)); lia. }
  rewrite fill_room by lia. cbn [Nat.add fmap option_fmap option_map]. eexists. split; [reflexivity|].
  unfold client_ok, PoolSize, MaxIdleConns, PoolTimeout, IdleTimeout, DialTimeout, CommandTimeout, inUseTurnWait, liveCap.
  cbn [set_turns inUseTurns host pass database poolSize maxIdleConns poolTimeout idleTimeout dialTimeout commandTimeout maxRetries groupWrite].
  rewrite !(proj2 (Z.ltb_lt _ _)) by done. split_and!; try done; try lia. by exists cap.
Qed.

(** C29: [New] always returns.  It fails, with the one documented error, exactly
    when an explicit idle trim is above the pool size; otherwise it returns a
    client with all PoolSize turns free, an idle trim between 1 and the pool size
    and positive timeouts, and every accessor reports the setting the caller gave,
    or its documented default when none was. *)
Theorem New_returns_a_client h p db cfg :
  let pool := given_or (RedisExec.PoolSize cfg) defaultPoolSize in
  New h p db cfg <> None /\
  (New h p db cfg = Some (inr tt) <-> 0 < RedisExec.MaxIdleConns cfg /\ pool < RedisExec.MaxIdleConns cfg) /\
  forall sr, New h p db cfg = Some (inl sr) ->
    client_ok sr /\ host sr = h /\ pass sr = p /\ database sr = db /\
    PoolSize sr = pool /\ MaxIdleConns sr = idle_trim cfg /\
    PoolTimeout sr = given_or (RedisExec.PoolTimeout cfg) defaultPoolTimeout /\
    IdleTimeout sr = given_or (RedisExec.IdleTimeout cfg) defaultIdleTimeout /\
    DialTimeout sr = given_or (RedisExec.DialTimeout cfg) defaultDialTimeout /\
    CommandTimeout sr = given_or (RedisExec.CommandTimeout cfg) defaultCommandTimeout /\
    MaxRetries sr = (if RedisExec.MaxRetries cfg =? 0 then 1 else RedisExec.MaxRetries cfg).
Proof.
  intros pool. unfold New. pose proof (defaults_sound cfg) as H. rewrite applyDefaults_spec in *. cbn zeta in *. fold pool in H. fold pool.
  destruct ((0 <? _) && (pool <? _)) eqn:E.
  { apply andb_true_iff in E as [E1%Z.ltb_lt E2%Z.ltb_lt]. by split_and!. }
  destruct H as (H1 & H3 & H4 & H5 & H6 & H7 & _). destruct (built_client h p db _ H1 H3 H4 H5 H6 H7) as (sr & -> & Hsr).
  split_and!; [done|split; [done|]|intros sr' [= <-]; exact Hsr].
  intros [E1%Z.ltb_lt E2%Z.ltb_lt]. by rewrite E1, E2 in E.
Qed.

(** The pool of a client from New is the one [RedisPool] starts from: its turns
    are [ensureInUseTurns] of its size. *)
Lemma client_turns sr cap len : client_ok sr -> inUseTurns sr = Some (cap, len) ->
  turns (ensureInUseTurns (Z.to_nat (PoolSize sr))) = len /\ (0 < len)%nat.
Proof.
  intros ((cap' & E & Hc) & Hm & _) E'. rewrite E in E'. injection E' as <- <-. unfold PoolSize, liveCap. rewrite E. cbn [ensureInUseTurns turns]. lia.
Qed.

(** [shouldRetry] is the code's chain of predicates. *)
Lemma shouldRetry_predicates e hs :
  shouldRetry e hs = match e with eCanceled | eDeadlineExceeded => false | _ =>
    if isCommandTimeout e then false else if hs then false else if isUnreachable e then true else isRetryableRedisReply e end.
Proof. by destruct e, hs. Qed.
