(* ===== verification/RedisTimed.v ===== *)
(** * RedisTimed: one command against the clock

    The client's [exec] with time made explicit: contexts that end, the command
    deadline, the backoff wait, the wait for a turn, the dial and the socket
    deadline ([commands_exec.go], [pool.go], [resp.go]).  Each operation ends
    when it is done or when what bounds it fires, at most [lag] late; the steps in
    between take no time.  What a stage decides is left to the functions of
    [RedisExec]; what the network and the server do is an argument per attempt. *)

From S2P Require Import Prelude.
From S2P Require Import Resp.
From S2P Require Import RedisExec.
From S2P Require Import RedisExecProofs.
From S2P Require Import RedisClient.
From Stdlib Require Import ZArith Lia List.
From stdpp Require Import base list option.

Open Scope Z_scope.

(** ** Contexts *)

(** A context: its deadline, and when Done closes and with which error. *)
Record context := mkContext { Deadline : option Z; Done : option (Z * goerr) }.

Definition Background : context := mkContext None None.

(** [ctx.Err()] at an instant. *)
Definition Err (c : context) (t : Z) : option goerr :=
  match Done c with Some (d, e) => if d <=? t then Some e else None | None => None end.

(** [contextStop] *)
Definition contextStop (c : context) (t : Z) : option goerr :=
  match Err c t with
  | Some e => Some e
  | None => match Deadline c with Some d => if d <=? t then Some eDeadlineExceeded else None | None => None end
  end.

(** The instant an operation that would end at [e] ends under the context. *)
Definition until (c : context) (t e : Z) : Z :=
  Z.max t (match Done c with Some (d, _) => Z.min d e | None => e end).

(** What one exchange on a socket meets: its length, SetDeadline, the bytes
    already buffered, a failing write, the reply; and, if it is cut off, whether
    in the write and what had arrived. *)
Record exchange := {
  x_length : Z; x_setDeadline : bool; x_unread : nat; x_write : option ioerr; x_stream : reader;
  x_inWrite : bool; x_partial : bytes; x_arrived : nat;
}.

(** What one attempt meets. *)
Record trial := {
  n_turn : Z;                      (* until a turn is free, 0 when one is *)
  n_idle : bool;                   (* a young socket is parked *)
  n_tcp : Z; n_connects : bool;    (* the TCP dial *)
  n_auth : exchange; n_select : exchange;
  n_cmd : bool -> exchange;        (* the command, on an idle or a dialed socket *)
  n_rnd : Z -> Z;                  (* the jitter *)
}.

Section Timed.
Context (lag : Z) (sr : SimpleRedis) (closedAt : option Z).

(** [isClosed] *)
Definition isClosed (t : Z) : bool := match closedAt with Some d => d <=? t | None => false end.

(** [context.WithDeadline] of a deadline before the parent's. *)
Definition WithDeadline (parent : context) (d : Z) : context :=
  mkContext (Some d)
    (Some (match Done parent with Some (x, e) => if x <=? d + lag then (x, e) else (d + lag, eDeadlineExceeded)
           | None => (d + lag, eDeadlineExceeded) end)).

(** [bindCommandDeadline] on a context. *)
Definition bindDeadline (c : context) (now : Z) : context * bool :=
  let '(d, owns) := bindCommandDeadline now (CommandTimeout sr) (Deadline c) in
  (if owns then WithDeadline c d else c, owns).

(** [waitUntil] *)
Definition waitUntil (c : context) (t delay : Z) : option goerr * Z :=
  if delay <=? 0 then (contextStop c t, t)
  else let fire := t + delay + lag in
       match Done c with
       | Some (d, e) => if d <=? fire then (Some e, Z.max t d) else (contextStop c fire, fire)
       | None => (contextStop c fire, fire)
       end.

(** [commandBudgetLeft] *)
Definition commandBudgetLeft (c : context) (t : Z) : Z :=
  match Deadline c with Some d => d - t | None => CommandTimeout sr end.

(** [watchConnClose]: the socket is closed when the context is done, so I/O
    that would block until [e] is over then. *)
Definition watchConnClose (c : context) (t e : Z) : Z :=
  match Done c with None => Z.max t e | Some (d, _) => Z.max t (Z.min d e) end.

(** [do] from [t]: what it meets, and when it is over. *)
Definition do_io (c : context) (t : Z) (x : exchange) : io * Z :=
  let budget := commandBudgetLeft c t in
  let starts := match contextStop c t with None => (0 <? budget) && x_setDeadline x && (x_unread x =? 0)%nat | Some _ => false end in
  let sockEnd := t + budget + lag in
  let stopAt := watchConnClose c t sockEnd in
  let finish := t + Z.max 0 (x_length x) in
  let cut := starts && (stopAt <? finish) in
  let t' := if starts then (if cut then stopAt else finish) else t in
  let why := match Done c with Some (d, _) => if d <=? sockEnd then OtherIO else OSDeadlineExceeded | None => OSDeadlineExceeded end in
  ({| d_stop_entry := contextStop c t; d_budget := budget; d_stop_budget := contextStop c t;
      d_hasDeadline := bool_decide (is_Some (Deadline c)); d_setDeadline := x_setDeadline x; d_unread := x_unread x;
      d_write := if cut then (if x_inWrite x then Some why else None) else x_write x; d_stop_write := contextStop c t';
      d_stream := if cut then {| rd := x_partial x; rend := why |} else x_stream x;
      d_stop_read := contextStop c t'; d_stop_map := contextStop c t'; d_arrived := x_arrived x |}, t').

(** [dial] *)
Definition dial_timed (c : context) (t : Z) (n : trial) : option (goerr * bool) * Z :=
  let limit := until c t (t + DialTimeout sr + lag) in
  let connects := n_connects n && (t + Z.max 0 (n_tcp n) <=? limit) in
  let t1 := Z.min (t + Z.max 0 (n_tcp n)) limit in
  let '(auth, ta) := do_io c t1 (n_auth n) in
  let t2 := match pass sr with [] => t1 | _ => ta end in
  let '(sel, ts) := do_io c t2 (n_select n) in
  let t3 := match database sr with [] => t2 | _ => ts end in
  let authErr := match pass sr with [] => None | _ => (do_cmd auth).2 end in
  (dial (pass sr) (database sr) (contextStop c t) connects (contextStop c t1) auth sel,
   match contextStop c t with
   | Some _ => t
   | None => if negb connects then t1 else match authErr with Some _ => t2 | None => t3 end
   end).

(** The two selects of [borrowSocket] on the turns. *)
Definition turn_timed (c : context) (t : Z) (n : trial) : option goerr * Z :=
  if n_turn n <=? 0 then (None, t)
  else let timer := t + inUseTurnWait sr + lag in
       let turn := t + n_turn n in
       let first := Z.min turn timer in
       match Done c with
       | Some (d, e) => if d <=? first then (Some e, Z.max t d)
                        else if turn <=? timer then (None, turn)
                        else (Some (default ePoolWait (contextStop c timer)), timer)
       | None => if turn <=? timer then (None, turn) else (Some (default ePoolWait (contextStop c timer)), timer)
       end.

(** [borrowSocket] *)
Definition borrow_timed (c : context) (t : Z) (skipIdle : bool) (n : trial) : borrowed * Z :=
  let notFromNew := match inUseTurns sr with None => true | Some _ => false end in
  let '(turn, t1) := turn_timed c t n in
  let '(dialed, t2) := dial_timed c t1 n in
  (borrowSocket (isClosed t) notFromNew (contextStop c t) turn
     (if isClosed t1 then TakeClosed else if n_idle n then TakeReused else TakeMiss) (isClosed t1) dialed skipIdle,
   if isClosed t || notFromNew then t
   else match contextStop c t with
   | Some _ => t
   | None => match turn with
             | Some _ => t1
             | None => if isClosed t1 || (negb skipIdle && n_idle n) then t1 else t2
             end
   end).

(** [runOnConn] *)
Definition run_timed (c : context) (t : Z) (fromIdle : bool) (n : trial) : (list (option bytes) * bool * option goerr) * Z :=
  let '(w, t') := do_io c t (n_cmd n fromIdle) in (runOnConn w (contextStop c t'), t').

(** The loop of [exec] from one attempt on: the outcome and the instant it
    returns. *)
Fixpoint timed_loop (budget attempt_no : nat) (env : nat -> trial) (c : context) (libraryOwns skipIdle : bool) (last : option goerr)
    (sent : nat) (retried : list (goerr * bool)) (t : Z) : outcome * Z :=
  let fail e t := ({| o_values := []; o_err := Some (libraryTimeout e libraryOwns); o_sent := sent; o_retried := retried |}, t) in
  match budget with
  | O => ({| o_values := []; o_err := Some (match last with Some e => libraryTimeout e libraryOwns | None => eTimeout end);
             o_sent := sent; o_retried := retried |}, t)
  | S budget =>
      let n := env attempt_no in
      match contextStop c t with
      | Some e => fail e t
      | None =>
      let '(_, minBackoff, maxBackoff) := retryLimits (maxRetries sr) (minRetryBackoff sr) (maxRetryBackoff sr) in
      let '(waited, t1) := if (attempt_no =? 0)%nat then (None, t)
                           else waitUntil c t (retryBackoff (Z.of_nat attempt_no) minBackoff maxBackoff (n_rnd n)) in
      match waited with
      | Some e => fail e t1
      | None =>
      let '(b, t2) := borrow_timed c t1 skipIdle n in
      match b with
      | BorrowErr e hs =>
          if isClosed t2 || negb (shouldRetry e hs) then fail e t2
          else timed_loop budget (S attempt_no) env c libraryOwns skipIdle (Some e) sent (retried ++ [(e, hs)]) t2
      | Borrowed fromIdle =>
          let '((vs, _, err), t3) := run_timed c t2 fromIdle n in
          match err with
          | None => ({| o_values := vs; o_err := None; o_sent := S sent; o_retried := retried |}, t3)
          | Some e =>
              let skipIdle := skipIdle || (fromIdle && bool_decide (e = eUnreachable)) in
              if negb (shouldRetry e false)
              then ({| o_values := vs; o_err := Some (libraryTimeout e libraryOwns); o_sent := S sent; o_retried := retried |}, t3)
              else timed_loop budget (S attempt_no) env c libraryOwns skipIdle (Some e) (S sent) (retried ++ [(e, false)]) t3
          end
      end
      end
      end
  end.

(** [exec] at [t0]; a nil context is Background. *)
Definition exec_timed (ctx : option context) (t0 : Z) (env : nat -> trial) : outcome * Z :=
  let c := default Background ctx in
  match Err c t0 with
  | Some e => ({| o_values := []; o_err := Some e; o_sent := 0; o_retried := [] |}, t0)
  | None =>
      let '(retries, _, _) := retryLimits (maxRetries sr) (minRetryBackoff sr) (maxRetryBackoff sr) in
      let '(c, libraryOwns) := bindDeadline c t0 in
      timed_loop (Z.to_nat (retries + 1)) 0 env c libraryOwns false None 0 [] t0
  end.

End Timed.

(** ** The command deadline bounds the whole command *)

Section Bound.
Context (lag : Z) (sr : SimpleRedis) (closedAt : option Z) (Hlag : 0 <= lag).

(** A context that ends by its deadline, up to the lag. *)
Definition ends_by (c : context) (D : Z) : Prop :=
  Deadline c = Some D /\ exists d e, Done c = Some (d, e) /\ d <= D + lag.

(** From [t], over by the deadline, or at once. *)
Definition by_deadline (D t t' : Z) : Prop := t <= t' <= Z.max t (D + lag).

Lemma by_refl D t : by_deadline D t t.
Proof. unfold by_deadline. lia. Qed.

Lemma by_trans D a b c : by_deadline D a b -> by_deadline D b c -> by_deadline D a c.
Proof. unfold by_deadline. lia. Qed.

Lemma until_by c D t e : ends_by c D -> by_deadline D t (until c t e).
Proof. intros (_ & d & er & E & Hd). unfold by_deadline, until. rewrite E. lia. Qed.

Lemma watch_by c D t e : ends_by c D -> by_deadline D t (watchConnClose c t e).
Proof. intros (_ & d & er & E & Hd). unfold by_deadline, watchConnClose. rewrite E. lia. Qed.

Lemma waitUntil_by c D t delay : ends_by c D -> by_deadline D t (waitUntil lag c t delay).2.
Proof.
  intros (_ & d & e & E & Hd). unfold by_deadline, waitUntil. rewrite E. destruct (Z.leb_spec delay 0); cbn [snd]; [lia|].
  destruct (Z.leb_spec d (t + delay + lag)); cbn [snd]; lia.
Qed.

Lemma do_io_by c D t x : ends_by c D -> by_deadline D t (do_io lag sr c t x).2.
Proof.
  intros Hc. pose proof (watch_by c D t (t + commandBudgetLeft sr c t + lag) Hc) as Hu. unfold do_io. cbn [snd].
  destruct (match contextStop c t with None => _ | Some _ => _ end); [|apply by_refl]. cbn [andb].
  destruct (Z.ltb_spec (watchConnClose c t (t + commandBudgetLeft sr c t + lag)) (t + Z.max 0 (x_length x))); [done|].
  unfold by_deadline in *. lia.
Qed.

Lemma dial_by c D t n : ends_by c D -> by_deadline D t (dial_timed lag sr c t n).2.
Proof.
  intros Hc. unfold dial_timed. pose proof (until_by c D t (t + DialTimeout sr + lag) Hc) as Hu.
  set (t1 := Z.min _ (until c t _)). assert (H1 : by_deadline D t t1) by (subst t1; unfold by_deadline in *; lia).
  pose proof (do_io_by c D t1 (n_auth n) Hc) as Ha. destruct (do_io lag sr c t1 (n_auth n)) as [auth ta]. cbn [snd] in Ha.
  set (t2 := match pass sr with [] => t1 | _ => ta end).
  assert (H2 : by_deadline D t t2) by (subst t2; destruct (pass sr); [done|by eapply by_trans]).
  pose proof (do_io_by c D t2 (n_select n) Hc) as Hs. destruct (do_io lag sr c t2 (n_select n)) as [sel ts]. cbn [snd] in *.
  destruct (contextStop c t); [apply by_refl|]. destruct (negb _); [done|]. destruct (match pass sr with [] => None | _ => _ end); [done|].
  destruct (database sr); [done|by eapply by_trans].
Qed.

Lemma turn_by c D t n : ends_by c D -> by_deadline D t (turn_timed lag sr c t n).2.
Proof.
  intros (_ & d & e & E & Hd). unfold by_deadline, turn_timed. rewrite E. destruct (Z.leb_spec (n_turn n) 0); cbn [snd]; [lia|].
  destruct (Z.leb_spec d (Z.min (t + n_turn n) (t + inUseTurnWait sr + lag))); cbn [snd]; [lia|].
  assert (0 < inUseTurnWait sr) by (unfold inUseTurnWait, defaultPoolTimeout, Millisecond; destruct (Z.ltb_spec 0 (poolTimeout sr)); lia).
  destruct (Z.leb_spec (t + n_turn n) (t + inUseTurnWait sr + lag)); cbn [snd]; lia.
Qed.

Lemma borrow_by c D t skip n : ends_by c D -> by_deadline D t (borrow_timed lag sr closedAt c t skip n).2.
Proof.
  intros Hc. unfold borrow_timed. pose proof (turn_by c D t n Hc) as H1. destruct (turn_timed lag sr c t n) as [turn t1]. cbn [snd] in H1.
  pose proof (dial_by c D t1 n Hc) as H2. destruct (dial_timed lag sr c t1 n) as [dialed t2]. cbn [snd] in *.
  destruct (_ || _); [apply by_refl|]. destruct (contextStop c t); [apply by_refl|]. destruct turn; [done|]. destruct (_ || _); [done|by eapply by_trans].
Qed.

Lemma run_by c D t fromIdle n : ends_by c D -> by_deadline D t (run_timed lag sr c t fromIdle n).2.
Proof.
  intros Hc. unfold run_timed. pose proof (do_io_by c D t (n_cmd n fromIdle) Hc) as H. by destruct (do_io lag sr c t (n_cmd n fromIdle)).
Qed.

Lemma loop_by c D budget : ends_by c D -> forall no env owns skip last sent retried t,
  by_deadline D t (timed_loop lag sr closedAt budget no env c owns skip last sent retried t).2.
Proof.
  intros Hc. induction budget as [|budget IH]; intros no env owns skip last sent retried t; cbn [timed_loop]; [apply by_refl|].
  destruct (contextStop c t); [apply by_refl|]. destruct (retryLimits _ _ _) as [[mr mn] mx].
  set (wt := if (no =? 0)%nat then _ else _).
  assert (Hw : by_deadline D t wt.2) by (subst wt; destruct (no =? 0)%nat; [apply by_refl|by apply waitUntil_by]).
  destruct wt as [[e|] t1]; cbn [snd] in *; [done|].
  pose proof (borrow_by c D t1 skip (env no) Hc) as Hb. destruct (borrow_timed _ _ _ _ _ _ _) as [[e hs|fromIdle] t2]; cbn [snd] in Hb.
  all: pose proof (by_trans D t t1 t2 Hw Hb) as H2.
  - destruct (_ || _); [done|]. eapply by_trans; [done|apply IH].
  - pose proof (run_by c D t2 fromIdle (env no) Hc) as Hr. destruct (run_timed _ _ _ _ _ _) as [[[vs reus] [e|]] t3]; cbn [snd] in Hr.
    all: pose proof (by_trans D t t2 t3 H2 Hr) as H3.
    + destruct (negb _); [done|]. eapply by_trans; [done|apply IH].
    + done.
Qed.

(** The caller's context, ended by its own deadline if it has one. *)
Definition caller_ok (c : context) : Prop := forall D, Deadline c = Some D -> exists d e, Done c = Some (d, e) /\ d <= D + lag.

Lemma bind_ends c t0 :
  caller_ok c ->
  let D := match Deadline c with Some p => Z.min p (t0 + CommandTimeout sr) | None => t0 + CommandTimeout sr end in
  ends_by (bindDeadline lag sr c t0).1 D.
Proof.
  intros Hc. cbn zeta. unfold bindDeadline, bindCommandDeadline.
  assert (HW : forall d, ends_by (WithDeadline lag c d) d).
  { intros d. split; [done|]. cbn [WithDeadline Done]. destruct (Done c) as [[x e]|]; [|by eexists _, _].
    destruct (Z.leb_spec x (d + lag)); by eexists _, _. }
  destruct (Deadline c) as [p|] eqn:E; [|apply HW]. destruct (Z.leb_spec p (t0 + CommandTimeout sr)).
  - rewrite Z.min_l by lia. cbn. split; [done|]. by apply Hc.
  - rewrite Z.min_r by lia. apply HW.
Qed.

End Bound.

(** ** It is the [exec] of the other theorems *)

Lemma exec_loop_ext budget : forall n env env' lo skip last sent retried,
  (forall i, (n <= i)%nat -> env i = env' i) ->
  exec_loop budget n env lo skip last sent retried = exec_loop budget n env' lo skip last sent retried.
Proof.
  induction budget as [|budget IH]; intros n env env' lo skip last sent retried He; cbn [exec_loop]; [done|].
  assert (Hn : forall i, (S n <= i)%nat -> env i = env' i) by (intros; apply He; lia).
  rewrite <- (He n) by lia. destruct (at_stop (env n)); [done|]. destruct (if (n =? 0)%nat then None else at_wait (env n)); [done|].
  destruct (at_borrow (env n) skip) as [e hs|fi].
  - destruct (_ || _); [done|]. by apply IH.
  - destruct (runOnConn _ _) as [[vs r] [e|]]; [|done]. destruct (negb _); [done|]. by apply IH.
Qed.

(** One attempt put before the others. *)
Definition first_attempt (n : nat) (a : attempt) (env : nat -> attempt) (i : nat) : attempt := if (i =? n)%nat then a else env i.

Lemma first_attempt_eq n a env : first_attempt n a env n = a.
Proof. unfold first_attempt. by rewrite Nat.eqb_refl. Qed.

Lemma first_attempt_later n a env budget lo skip last sent retried :
  exec_loop budget (S n) (first_attempt n a env) lo skip last sent retried = exec_loop budget (S n) env lo skip last sent retried.
Proof. apply exec_loop_ext. intros i Hi. unfold first_attempt. destruct (Nat.eqb_spec i n); [lia|done]. Qed.

Lemma timed_is_exec lag sr closedAt c budget : forall no env lo skip last sent retried t,
  exists env', exec_loop budget no env' lo skip last sent retried = (timed_loop lag sr closedAt budget no env c lo skip last sent retried t).1.
Proof.
  induction budget as [|budget IH]; intros no env lo skip last sent retried t; cbn [timed_loop exec_loop].
  { exists (fun _ => Build_attempt None None (fun _ => Borrowed false) false (fun _ => io_ok []) None). done. }
  destruct (contextStop c t) as [e|] eqn:Es.
  { exists (fun _ => Build_attempt (Some e) None (fun _ => Borrowed false) false (fun _ => io_ok []) None). done. }
  destruct (retryLimits _ _ _) as [[mr mn] mx]. destruct (if (no =? 0)%nat then (None, t) else _) as [w t1] eqn:Ew.
  assert (Hw : (if (no =? 0)%nat then None else w) = w) by (destruct (no =? 0)%nat; congruence).
  destruct w as [e|].
  { exists (fun _ => Build_attempt None (Some e) (fun _ => Borrowed false) false (fun _ => io_ok []) None). cbn [at_stop at_wait]. by rewrite Hw. }
  destruct (borrow_timed lag sr closedAt c t1 skip (env no)) as [b t2] eqn:Eb. destruct b as [e hs|fromIdle].
  - destruct (isClosed closedAt t2 || negb (shouldRetry e hs)) eqn:Er.
    + exists (fun _ => Build_attempt None None (fun _ => BorrowErr e hs) (isClosed closedAt t2) (fun _ => io_ok []) None).
      cbn [at_stop at_wait at_borrow at_closed]. by rewrite Hw, Er.
    + destruct (IH (S no) env lo skip (Some e) sent (retried ++ [(e, hs)]) t2) as [env' He].
      exists (first_attempt no (Build_attempt None None (fun _ => BorrowErr e hs) (isClosed closedAt t2) (fun _ => io_ok []) None) env').
      rewrite first_attempt_eq. cbn [at_stop at_wait at_borrow at_closed]. by rewrite Hw, Er, first_attempt_later.
  - unfold run_timed. destruct (do_io lag sr c t2 (n_cmd (env no) fromIdle)) as [w t3] eqn:Ed.
    set (a := Build_attempt None None (fun _ => Borrowed fromIdle) false (fun _ => w) (contextStop c t3)).
    destruct (runOnConn w (contextStop c t3)) as [[vs r] [e|]] eqn:Ev.
    + destruct (negb (shouldRetry e false)) eqn:Er.
      * exists (fun _ => a). cbn [a at_stop at_wait at_borrow at_io at_stop_do]. by rewrite Hw, Ev, Er.
      * destruct (IH (S no) env lo (skip || (fromIdle && bool_decide (e = eUnreachable))) (Some e) (S sent) (retried ++ [(e, false)]) t3) as [env' He].
        exists (first_attempt no a env'). rewrite first_attempt_eq. cbn [a at_stop at_wait at_borrow at_io at_stop_do].
        by rewrite Hw, Ev, Er, first_attempt_later.
    + exists (fun _ => a). cbn [a at_stop at_wait at_borrow at_io at_stop_do]. by rewrite Hw, Ev.
Qed.

Lemma timed_bounds lag sr closedAt c budget no env lo t :
  let o := (timed_loop lag sr closedAt budget no env c lo false None 0 [] t).1 in
  (o_sent o <= budget)%nat /\ Forall retryable (o_retried o) /\ (lo = true -> o_err o <> Some eDeadlineExceeded).
Proof.
  destruct (timed_is_exec lag sr closedAt c budget no env lo false None 0 [] t) as [env' <-].
  destruct (exec_loop_bounds budget no env' lo false None 0 [] (Forall_nil_2 _)) as (A & _ & C & _).
  split; [lia|]. split; [done|]. intros ->. apply exec_loop_deadline.
Qed.

(** C11: a command is over by its deadline: whatever the server, the network
    and the pool do, and however many retries are configured, [exec] returns no
    later than CommandTimeout after the call, or than the caller's sooner
    deadline, up to the lag of a timer; it has sent the command at most once
    more than the retries, and context.DeadlineExceeded is only returned for
    the caller's own deadline. *)
Theorem command_within_timeout lag sr closedAt ctx t0 env :
  0 <= lag -> caller_ok lag (default Background ctx) ->
  let c := default Background ctx in
  let D := match Deadline c with Some p => Z.min p (t0 + CommandTimeout sr) | None => t0 + CommandTimeout sr end in
  let '(o, t) := exec_timed lag sr closedAt ctx t0 env in
  t0 <= t <= Z.max t0 (D + lag) /\
  Z.of_nat (o_sent o) <= Z.max 0 ((retryLimits (maxRetries sr) (minRetryBackoff sr) (maxRetryBackoff sr)).1.1 + 1) /\
  Forall retryable (o_retried o) /\
  (o_err o = Some eDeadlineExceeded ->
     Err c t0 = Some eDeadlineExceeded \/ exists p, Deadline c = Some p /\ p <= t0 + CommandTimeout sr).
Proof.
  intros Hlag Hc. cbn zeta. unfold exec_timed. set (c := default Background ctx) in *.
  destruct (Err c t0) as [e|] eqn:Ee.
  { split; [lia|]. cbn [o_sent o_retried o_err]. split; [lia|]. split; [done|]. intros [= ->]. by left. }
  pose proof (bind_ends lag sr c t0 Hc) as HD. cbn zeta in HD. destruct (retryLimits _ _ _) as [[mr mn] mx]. cbn [fst].
  assert (Ho : (bindDeadline lag sr c t0).2 = false -> exists p, Deadline c = Some p /\ p <= t0 + CommandTimeout sr).
  { unfold bindDeadline, bindCommandDeadline. destruct (Deadline c) as [p|]; [|done]. destruct (Z.leb_spec p (t0 + CommandTimeout sr)); [|done].
    intros _. by exists p. }
  destruct (bindDeadline lag sr c t0) as [c' owns]. cbn [fst snd] in *.
  pose proof (loop_by lag sr closedAt Hlag c' _ (Z.to_nat (mr + 1)) HD 0 env owns false None 0 [] t0) as Hb.
  destruct (timed_bounds lag sr closedAt c' (Z.to_nat (mr + 1)) 0 env owns t0) as (A & B & C).
  destruct (timed_loop _ _ _ _ _ _ _ _ _ _ _ _ _) as [o t]. cbn [fst snd] in *. split; [exact Hb|]. split; [lia|]. split; [done|].
  intros Hd. right. destruct owns; [by destruct (C eq_refl)|by apply Ho].
Qed.

(** ** What fails fails fast *)

Definition attempts (sr : SimpleRedis) : Z := (retryLimits (maxRetries sr) (minRetryBackoff sr) (maxRetryBackoff sr)).1.1 + 1.

Lemma CommandTimeout_pos sr : 0 < CommandTimeout sr.
Proof. unfold CommandTimeout, defaultCommandTimeout, Millisecond. destruct (Z.ltb_spec 0 (commandTimeout sr)); lia. Qed.

(** The bound context has not ended when the caller's has not. *)
Lemma bind_live lag sr c t0 : 0 <= lag -> contextStop c t0 = None -> contextStop (bindDeadline lag sr c t0).1 t0 = None.
Proof.
  intros Hlag Hc. pose proof (CommandTimeout_pos sr) as Hp. unfold bindDeadline, bindCommandDeadline.
  assert (HW : contextStop (WithDeadline lag c (t0 + CommandTimeout sr)) t0 = None).
  { unfold contextStop, Err in *. cbn [WithDeadline Done Deadline]. destruct (Done c) as [[d e]|].
    - destruct (Z.leb_spec d t0); [done|]. destruct (Z.leb_spec d (t0 + CommandTimeout sr + lag)).
      + rewrite (proj2 (Z.leb_gt d t0)) by lia. by rewrite (proj2 (Z.leb_gt _ _)) by lia.
      + rewrite !(proj2 (Z.leb_gt _ t0)) by lia. done.
    - rewrite !(proj2 (Z.leb_gt _ t0)) by lia. done. }
  destruct (Deadline c) as [p|]; [|done]. by destruct (p <=? _).
Qed.

(** The first attempt when borrowing fails at once and may not be retried. *)
Lemma exec_borrow_fails lag sr closedAt ctx t0 env e hs t1 :
  0 <= lag -> let c := default Background ctx in
  contextStop c t0 = None -> 0 < attempts sr ->
  borrow_timed lag sr closedAt (bindDeadline lag sr c t0).1 t0 false (env 0%nat) = (BorrowErr e hs, t1) ->
  isClosed closedAt t1 || negb (shouldRetry e hs) = true ->
  exec_timed lag sr closedAt ctx t0 env
  = ({| o_values := []; o_err := Some (libraryTimeout e (bindDeadline lag sr c t0).2); o_sent := 0; o_retried := [] |}, t1).
Proof.
  intros Hlag c Hs Ha Hb Hr. unfold exec_timed. fold c. pose proof (bind_live lag sr c t0 Hlag Hs) as Hl.
  assert (He : Err c t0 = None) by (unfold contextStop in Hs; by destruct (Err c t0)). rewrite He.
  unfold attempts in Ha. destruct (retryLimits (maxRetries sr) _ _) as [[mr mn] mx] eqn:Er. cbn [fst] in Ha.
  destruct (bindDeadline lag sr c t0) as [c' owns]. cbn [fst snd] in *.
  destruct (Z.to_nat (mr + 1)) as [|b] eqn:Eb; [lia|]. cbn [timed_loop]. rewrite Hl, Er. cbn [Nat.eqb]. by rewrite Hb, Hr.
Qed.

Definition failed (e : goerr) : outcome := {| o_values := []; o_err := Some e; o_sent := 0; o_retried := [] |}.

(** C27: what cannot succeed fails at once, without a send and without using up
    the retries: a context that has ended returns its error; a closed client
    returns redis:unreachable and one that is not from New its own error, both
    without waiting; and for a call without a context, with PoolTimeout and the
    lag below CommandTimeout, a pool that stays full costs one PoolTimeout,
    however many retries are configured. *)
Theorem fails_fast lag sr closedAt ctx t0 env :
  0 <= lag -> 0 < attempts sr ->
  let c := default Background ctx in
  let run := exec_timed lag sr closedAt ctx t0 env in
  (forall e, Err c t0 = Some e -> run = (failed e, t0)) /\
  (contextStop c t0 = None -> isClosed closedAt t0 = true -> run = (failed eUnreachable, t0)) /\
  (contextStop c t0 = None -> isClosed closedAt t0 = false -> inUseTurns sr = None -> run = (failed eNotFromNew, t0)) /\
  (ctx = None -> isClosed closedAt t0 = false -> inUseTurns sr <> None ->
     PoolTimeout sr + lag < n_turn (env 0%nat) -> PoolTimeout sr + lag < CommandTimeout sr ->
     run = (failed ePoolWait, t0 + PoolTimeout sr + lag)).
Proof.
  intros Hlag Ha c run. subst run. split; [|split; [|split]].
  - intros e He. unfold exec_timed. fold c. by rewrite He.
  - intros Hs Hcl. rewrite (exec_borrow_fails lag sr closedAt ctx t0 env eUnreachable false t0); try done; [|by rewrite Hcl].
    unfold borrow_timed. rewrite Hcl. by destruct (turn_timed _ _ _ _ _), (dial_timed _ _ _ _ _).
  - intros Hs Hcl Hn. rewrite (exec_borrow_fails lag sr closedAt ctx t0 env eNotFromNew false t0); try done; [|by rewrite Hcl].
    unfold borrow_timed. rewrite Hcl, Hn. by destruct (turn_timed _ _ _ _ _), (dial_timed _ _ _ _ _).
  - intros -> Hcl Hn Hw Hp. unfold PoolTimeout in *. pose proof (CommandTimeout_pos sr).
    assert (0 < inUseTurnWait sr) by (unfold inUseTurnWait, defaultPoolTimeout, Millisecond; destruct (Z.ltb_spec 0 (poolTimeout sr)); lia).
    rewrite (exec_borrow_fails lag sr closedAt None t0 env ePoolWait false (t0 + inUseTurnWait sr + lag)); try done.
    2: by rewrite orb_true_r.
    subst c. cbn [default from_option id]. unfold borrow_timed, turn_timed. cbn [bindDeadline bindCommandDeadline Background Deadline WithDeadline Done fst].
    rewrite (proj2 (Z.leb_gt (n_turn _) 0)) by lia. rewrite Z.min_r by lia.
    rewrite (proj2 (Z.leb_gt (t0 + CommandTimeout sr + lag) _)) by lia. rewrite (proj2 (Z.leb_gt (t0 + n_turn _) _)) by lia.
    assert (Hst : forall t, t < t0 + CommandTimeout sr -> contextStop (WithDeadline lag Background (t0 + CommandTimeout sr)) t = None).
    { intros t Ht. unfold contextStop, Err. cbn. by rewrite !(proj2 (Z.leb_gt _ t)) by lia. }
    rewrite !Hst, Hcl by lia. destruct (dial_timed _ _ _ _ _). by destruct (inUseTurns sr).
Qed.

(** ** A run *)

Definition exchange_of (len : Z) (s : bytes) : exchange :=
  {| x_length := len; x_setDeadline := true; x_unread := 0; x_write := None; x_stream := {| rd := s; rend := EOF |};
     x_inWrite := false; x_partial := []; x_arrived := 0 |}.

(** The server never answers. *)
Definition silent (_ : nat) : trial :=
  {| n_turn := 0; n_idle := false; n_tcp := Millisecond; n_connects := true; n_auth := exchange_of 0 []; n_select := exchange_of 0 [];
     n_cmd := fun _ => exchange_of (3600 * Second) []; n_rnd := fun _ => 0 |}.

(** The pool is full for an hour. *)
Definition crowded (_ : nat) : trial :=
  {| n_turn := 3600 * Second; n_idle := false; n_tcp := 0; n_connects := true; n_auth := exchange_of 0 []; n_select := exchange_of 0 [];
     n_cmd := fun _ => exchange_of 0 []; n_rnd := fun _ => 0 |}.

Definition default_client : SimpleRedis :=
  mkClient [] [] [] 5 0 0 8 8 (200 * Millisecond) (30 * Second) (200 * Millisecond) (900 * Millisecond) (Some (8, 8)%nat) RedisVerbs.groupWriteUnknown.

Lemma command_within_timeout_witness :
  exec_timed Millisecond default_client None None 1000 silent = ({| o_values := []; o_err := Some eTimeout; o_sent := 1; o_retried := [] |}, 1000 + 901 * Millisecond) /\
  (exec_timed Millisecond default_client None None 1000 silent).2 <= 1000 + 901 * Millisecond.
Proof.
  split; [vm_compute; reflexivity|].
  pose proof (command_within_timeout Millisecond default_client None None 1000 silent ltac:(discriminate) ltac:(intros ? [=])) as H.
  cbn zeta in H. destruct (exec_timed _ _ _ _ _ _) as [o t]. destruct H as [[_ H] _]. eapply Z.le_trans; [exact H|]. vm_compute. discriminate.
Defined.

Lemma fails_fast_witness :
  exec_timed 0 default_client (Some 5) None 1000 silent = (failed eUnreachable, 1000) /\
  exec_timed 0 default_client None None 1000 crowded = (failed ePoolWait, 1000 + 200 * Millisecond).
Proof.
  split.
  - apply (proj1 (proj2 (fails_fast 0 default_client (Some 5) None 1000 silent ltac:(discriminate) ltac:(reflexivity)))); reflexivity.
  - apply (proj2 (proj2 (proj2 (fails_fast 0 default_client None None 1000 crowded ltac:(discriminate) ltac:(reflexivity))))); first [reflexivity|discriminate].
Defined.
