(* ===== verification/Float64.v ===== *)
(** * Float64: Go's float64

    IEEE 754 binary64 with round to nearest even: a finite number is its exact
    rational value, every operation the exact rational result rounded.  The sign
    of a zero is not kept; no operation of the modelled packages divides by a
    negative zero or asks for it.

    The lemmas (rounding is monotone, exact on integers up to 2^53) are what the
    limiters' comparisons rest on. *)

From S2P Require Import Prelude.
From stdpp Require Import base tactics decidable.
From Stdlib Require Import ZArith QArith Qround Qabs Lqa Lia.

Open Scope Z_scope.

Inductive f64 := NaN | Inf (neg : bool) | Fin (q : Q).

(** ** Rounding *)

(** 2^k as a rational. *)
Definition pow2 (k : Z) : Q := if 0 <=? k then inject_Z (2 ^ k) else / inject_Z (2 ^ (- k)).

(** floor(log2 q) of a positive rational. *)
Definition qlog2 (q : Q) : Z :=
  let k := Z.log2 (Qnum q) - Z.log2 (QDen q) in
  if Qle_bool (pow2 k) q then k else k - 1.

(** Nearest integer, ties to even. *)
Definition rne (q : Q) : Z :=
  let f := Qfloor q in
  match Qcompare (q - inject_Z f) (1 # 2) with
  | Lt => f
  | Gt => f + 1
  | Eq => if Z.even f then f else f + 1
  end.

(** Exponent of the last mantissa bit of numbers of the size of [q > 0]. *)
Definition ulp_exp (q : Q) : Z := Z.max (-1074) (qlog2 q - 52).

(** The nearest multiple of the ulp. *)
Definition round_abs (q : Q) : Q := Qred (inject_Z (rne (q / pow2 (ulp_exp q))) * pow2 (ulp_exp q)).

Definition round_q (q : Q) : Q :=
  match Qcompare q 0 with
  | Eq => 0
  | Gt => round_abs q
  | Lt => Qred (- round_abs (- q))
  end.

(** Values of magnitude 2^1024 and more overflow. *)
Definition overflow : Q := pow2 1024.

Definition round (q : Q) : f64 :=
  let r := round_q q in
  if Qle_bool overflow r then Inf false else if Qle_bool overflow (- r) then Inf true else Fin r.

(** ** Operations *)

(** [float64(n)] *)
Definition of_Z (n : Z) : f64 := round (inject_Z n).

Definition fneg (a : f64) : f64 := match a with NaN => NaN | Inf s => Inf (negb s) | Fin q => Fin (Qred (- q)) end.

Definition fadd (a b : f64) : f64 :=
  match a, b with
  | NaN, _ | _, NaN => NaN
  | Inf s, Inf t => if Bool.eqb s t then Inf s else NaN
  | Inf s, Fin _ | Fin _, Inf s => Inf s
  | Fin x, Fin y => round (x + y)
  end.

Definition fsub (a b : f64) : f64 := fadd a (fneg b).

Definition qneg (q : Q) : bool := negb (Qle_bool 0 q).

Definition fmul (a b : f64) : f64 :=
  match a, b with
  | NaN, _ | _, NaN => NaN
  | Inf s, Inf t => Inf (xorb s t)
  | Inf s, Fin q | Fin q, Inf s => if Qeq_bool q 0 then NaN else Inf (xorb s (qneg q))
  | Fin x, Fin y => round (x * y)
  end.

Definition fdiv (a b : f64) : f64 :=
  match a, b with
  | NaN, _ | _, NaN => NaN
  | Inf _, Inf _ => NaN
  | Inf s, Fin q => Inf (xorb s (qneg q))
  | Fin _, Inf _ => Fin 0
  | Fin x, Fin y => if Qeq_bool y 0 then (if Qeq_bool x 0 then NaN else Inf (qneg x)) else round (x / y)
  end.

(** [a <= b] and [a < b]: false when either is NaN. *)
Definition fle (a b : f64) : bool :=
  match a, b with
  | NaN, _ | _, NaN => false
  | Inf true, _ | _, Inf false => true
  | Inf false, _ | _, Inf true => false
  | Fin x, Fin y => Qle_bool x y
  end.

Definition flt (a b : f64) : bool :=
  match a, b with
  | NaN, _ | _, NaN => false
  | _, _ => negb (fle b a)
  end.

(** [int64(f)]: truncation; what an out-of-range value gives is up to the
    implementation. *)
Definition trunc (q : Q) : Z := Z.quot (Qnum q) (QDen q).

Definition to_int64 (out_of_range : f64 -> Z) (a : f64) : Z :=
  match a with
  | Fin q => if bool_decide (in_int64 (trunc q)) then trunc q else wrap64 (out_of_range a)
  | _ => wrap64 (out_of_range a)
  end.

(** ** Powers of two *)

Lemma inject_pos k : 0 < k -> (0 < inject_Z k)%Q.
Proof. intros H. change 0%Q with (inject_Z 0). by rewrite <- Zlt_Qlt. Qed.

Lemma pow2_pos k : (0 < pow2 k)%Q.
Proof.
  unfold pow2. destruct (Z.leb_spec 0 k).
  - apply inject_pos. lia.
  - apply Qinv_lt_0_compat, inject_pos. lia.
Qed.

Lemma pow2_add a b : (pow2 (a + b) == pow2 a * pow2 b)%Q.
Proof.
  assert (H : forall x y, 0 <= x -> (pow2 (x + y) == pow2 x * pow2 y)%Q).
  { intros x y Hx. unfold pow2. destruct (Z.leb_spec 0 x), (Z.leb_spec 0 y), (Z.leb_spec 0 (x + y)); try lia.
    - rewrite Z.pow_add_r by lia. by rewrite inject_Z_mult.
    - replace x with ((x + y) + (- y)) at 2 by lia. rewrite (Z.pow_add_r 2 (x + y) (- y)) by lia. rewrite inject_Z_mult.
      field. pose proof (inject_pos (2 ^ (- y)) ltac:(lia)). intros E. rewrite E in *. lra.
    - replace (- y) with (x + - (x + y)) by lia. rewrite (Z.pow_add_r 2 x (- (x + y))) by lia. rewrite inject_Z_mult.
      pose proof (inject_pos (2 ^ x) ltac:(lia)). pose proof (inject_pos (2 ^ (- (x + y))) ltac:(lia)).
      field. split; intros E; rewrite E in *; lra. }
  destruct (Z.le_gt_cases 0 a) as [Ha|Ha]; [by apply H|]. destruct (Z.le_gt_cases 0 b) as [Hb|Hb].
  { rewrite Z.add_comm, Qmult_comm. by apply H. }
  unfold pow2. destruct (Z.leb_spec 0 a), (Z.leb_spec 0 b), (Z.leb_spec 0 (a + b)); try lia.
  replace (- (a + b)) with (- a + - b) by lia. rewrite Z.pow_add_r by lia. rewrite inject_Z_mult. apply Qinv_mult_distr.
Qed.

Lemma pow2_le a b : a <= b -> (pow2 a <= pow2 b)%Q.
Proof.
  intros H. replace b with (a + (b - a)) by lia. rewrite pow2_add. pose proof (pow2_pos a).
  assert (1 <= pow2 (b - a))%Q.
  { unfold pow2. destruct (Z.leb_spec 0 (b - a)); [|lia]. change 1%Q with (inject_Z 1). rewrite <- Zle_Qle. lia. }
  nra.
Qed.

Lemma pow2_Z k : 0 <= k -> pow2 k = inject_Z (2 ^ k).
Proof. intros H. unfold pow2. by destruct (Z.leb_spec 0 k); [|lia]. Qed.

(** ** The binade of a number *)

Lemma Q_frac q : (q * inject_Z (QDen q) == inject_Z (Qnum q))%Q.
Proof. destruct q as [n d]. unfold Qeq, Qmult, inject_Z. cbn. lia. Qed.

Lemma qlog2_spec q : (0 < q)%Q -> (pow2 (qlog2 q) <= q)%Q /\ (q < pow2 (qlog2 q + 1))%Q.
Proof.
  intros Hq. assert (Hn : 0 < Qnum q) by (unfold Qlt in Hq; cbn in Hq; lia).
  pose proof (Z.log2_spec (Qnum q) Hn) as [N1 N2]. pose proof (Z.log2_spec (QDen q) ltac:(lia)) as [D1 D2].
  pose proof (Z.log2_nonneg (Qnum q)). pose proof (Z.log2_nonneg (QDen q)).
  set (a := Z.log2 (Qnum q)) in *. set (b := Z.log2 (QDen q)) in *.
  pose proof (Q_frac q) as F. set (d := inject_Z (QDen q)) in *. set (n := inject_Z (Qnum q)) in *.
  assert (Hn1 : (pow2 a <= n)%Q) by (rewrite pow2_Z by done; unfold n, d; by rewrite <- Zle_Qle).
  assert (Hn2 : (n < pow2 (a + 1))%Q) by (rewrite pow2_Z by lia; unfold n, d; rewrite <- Zlt_Qlt; by rewrite Z.add_1_r).
  assert (Hd1 : (pow2 b <= d)%Q) by (rewrite pow2_Z by done; unfold n, d; by rewrite <- Zle_Qle).
  assert (Hd2 : (d < pow2 (b + 1))%Q) by (rewrite pow2_Z by lia; unfold n, d; rewrite <- Zlt_Qlt; by rewrite Z.add_1_r).
  assert (E1 : (pow2 (a + 1) == pow2 (a - b + 1) * pow2 b)%Q) by (rewrite <- pow2_add; f_equiv; lia).
  assert (E2 : (pow2 a == pow2 (a - b - 1) * pow2 (b + 1))%Q) by (rewrite <- pow2_add; f_equiv; lia).
  pose proof (pow2_pos b). pose proof (pow2_pos (a - b + 1)). pose proof (pow2_pos (a - b - 1)).
  assert (Hup : (q < pow2 (a - b + 1))%Q).
  { destruct (Qlt_le_dec q (pow2 (a - b + 1))) as [|C]; [done|]. exfalso.
    assert (pow2 (a - b + 1) * pow2 b <= q * d)%Q by (apply Qmult_le_compat_nonneg; split; lra). lra. }
  assert (Hlo : (pow2 (a - b - 1) <= q)%Q).
  { destruct (Qlt_le_dec q (pow2 (a - b - 1))) as [C|]; [|done]. exfalso.
    assert (q * d < pow2 (a - b - 1) * d)%Q by (apply Qmult_lt_compat_r; lra).
    assert (pow2 (a - b - 1) * d <= pow2 (a - b - 1) * pow2 (b + 1))%Q by (apply Qmult_le_compat_nonneg; split; lra). lra. }
  unfold qlog2. fold a b. destruct (Qle_bool (pow2 (a - b)) q) eqn:E.
  - apply Qle_bool_iff in E. done.
  - split; [done|]. replace (a - b - 1 + 1) with (a - b) by lia.
    destruct (Qlt_le_dec q (pow2 (a - b))) as [|C]; [done|]. apply Qle_bool_iff in C. congruence.
Qed.

(** ** Rounding to an integer *)

Lemma rne_bounds q : Qfloor q <= rne q <= Qfloor q + 1.
Proof. unfold rne. destruct (Qcompare _ _); [destruct (Z.even _)| |]; lia. Qed.

Lemma rne_int n : rne (inject_Z n) = n.
Proof.
  unfold rne. rewrite Qfloor_Z. assert (E : (inject_Z n - inject_Z n == 0)%Q) by lra.
  rewrite (Qcompare_comp _ _ E _ _ (Qeq_refl _)). done.
Qed.

Lemma rne_comp x y : (x == y)%Q -> rne x = rne y.
Proof.
  intros E. unfold rne. rewrite (Qfloor_comp _ _ E).
  by rewrite (Qcompare_comp (x - inject_Z (Qfloor y))%Q (y - inject_Z (Qfloor y))%Q ltac:(lra) _ _ (Qeq_refl _)).
Qed.

Lemma rne_mono x y : (x <= y)%Q -> rne x <= rne y.
Proof.
  intros H. pose proof (Qfloor_resp_le _ _ H) as Hf. pose proof (rne_bounds x). pose proof (rne_bounds y).
  destruct (decide (Qfloor x = Qfloor y)) as [E|]; [|lia].
  unfold rne. rewrite E.
  destruct (Qcompare_spec (x - inject_Z (Qfloor y))%Q (1 # 2)) as [C|C|C],
    (Qcompare_spec (y - inject_Z (Qfloor y))%Q (1 # 2)) as [D|D|D]; try (destruct (Z.even _)); try lia; exfalso; lra.
Qed.

Lemma rne_le_int x n : (x <= inject_Z n)%Q -> rne x <= n.
Proof. intros H. rewrite <- (rne_int n). by apply rne_mono. Qed.

Lemma rne_ge_int x n : (inject_Z n <= x)%Q -> n <= rne x.
Proof. intros H. rewrite <- (rne_int n). by apply rne_mono. Qed.

(** ** Rounding to a float *)

Lemma round_abs_eq q : (round_abs q == inject_Z (rne (q / pow2 (ulp_exp q))) * pow2 (ulp_exp q))%Q.
Proof. apply Qred_correct. Qed.

Lemma scaled_le q c k : (q <= c * pow2 k)%Q -> (q / pow2 k <= c)%Q.
Proof. intros H. apply Qle_shift_div_r; [apply pow2_pos|done]. Qed.

Lemma scaled_ge q c k : (c * pow2 k <= q)%Q -> (c <= q / pow2 k)%Q.
Proof. intros H. apply Qle_shift_div_l; [apply pow2_pos|done]. Qed.

(** The mantissa has at most 53 bits, and 53 unless the number is subnormal. *)
Lemma mantissa_le q : (0 < q)%Q -> rne (q / pow2 (ulp_exp q)) <= 2 ^ 53.
Proof.
  intros Hq. apply rne_le_int, scaled_le. destruct (qlog2_spec q Hq) as [_ H].
  assert (E : (inject_Z (2 ^ 53) * pow2 (ulp_exp q) == pow2 (53 + ulp_exp q))%Q) by (by rewrite pow2_add, (pow2_Z 53)).
  rewrite E. assert (pow2 (qlog2 q + 1) <= pow2 (53 + ulp_exp q))%Q by (apply pow2_le; unfold ulp_exp; lia). lra.
Qed.

Lemma mantissa_ge q : (0 < q)%Q -> -1074 < ulp_exp q -> 2 ^ 52 <= rne (q / pow2 (ulp_exp q)).
Proof.
  intros Hq Hn. apply rne_ge_int, scaled_ge. destruct (qlog2_spec q Hq) as [H _].
  assert (E : (inject_Z (2 ^ 52) * pow2 (ulp_exp q) == pow2 (52 + ulp_exp q))%Q) by (by rewrite pow2_add, (pow2_Z 52)).
  rewrite E. assert (pow2 (52 + ulp_exp q) <= pow2 (qlog2 q))%Q by (apply pow2_le; unfold ulp_exp in *; lia). lra.
Qed.

Lemma pow2_lt_inv a b : (pow2 a < pow2 b)%Q -> a < b.
Proof. intros H. destruct (Z.lt_ge_cases a b) as [|C]; [done|]. apply pow2_le in C. lra. Qed.

Lemma ulp_exp_mono x y : (0 < x)%Q -> (x <= y)%Q -> ulp_exp x <= ulp_exp y.
Proof.
  intros Hx H. destruct (qlog2_spec x Hx) as [X _]. destruct (qlog2_spec y ltac:(lra)) as [_ Y].
  assert (qlog2 x < qlog2 y + 1) by (apply pow2_lt_inv; lra). unfold ulp_exp. lia.
Qed.

Lemma inject_le a b : a <= b -> (inject_Z a <= inject_Z b)%Q.
Proof. intros H. by rewrite <- Zle_Qle. Qed.

Lemma round_abs_mono x y : (0 < x)%Q -> (x <= y)%Q -> (round_abs x <= round_abs y)%Q.
Proof.
  intros Hx H. rewrite !round_abs_eq. pose proof (ulp_exp_mono x y Hx H) as He.
  destruct (decide (ulp_exp x = ulp_exp y)) as [E|E].
  - rewrite E. pose proof (pow2_pos (ulp_exp y)). apply Qmult_le_compat_r; [|lra]. apply inject_le, rne_mono.
    apply scaled_le. rewrite Qmult_comm, Qmult_div_r; [done|]. intros C. rewrite C in *. lra.
  - pose proof (inject_le _ _ (mantissa_le x Hx)) as Hx'. pose proof (inject_le _ _ (mantissa_ge y ltac:(lra) ltac:(unfold ulp_exp in *; lia))) as Hy'.
    pose proof (pow2_pos (ulp_exp x)). pose proof (pow2_pos (ulp_exp y)).
    assert (E1 : (inject_Z (2 ^ 53) * pow2 (ulp_exp x) == pow2 (53 + ulp_exp x))%Q) by (by rewrite pow2_add, (pow2_Z 53)).
    assert (E2 : (inject_Z (2 ^ 52) * pow2 (ulp_exp y) == pow2 (52 + ulp_exp y))%Q) by (by rewrite pow2_add, (pow2_Z 52)).
    assert (pow2 (53 + ulp_exp x) <= pow2 (52 + ulp_exp y))%Q by (apply pow2_le; lia).
    assert (inject_Z (rne (x / pow2 (ulp_exp x))) * pow2 (ulp_exp x) <= inject_Z (2 ^ 53) * pow2 (ulp_exp x))%Q by (apply Qmult_le_compat_r; lra).
    assert (inject_Z (2 ^ 52) * pow2 (ulp_exp y) <= inject_Z (rne (y / pow2 (ulp_exp y))) * pow2 (ulp_exp y))%Q by (apply Qmult_le_compat_r; lra).
    lra.
Qed.

Lemma round_abs_nonneg q : (0 < q)%Q -> (0 <= round_abs q)%Q.
Proof.
  intros Hq. rewrite round_abs_eq. pose proof (pow2_pos (ulp_exp q)). apply Qmult_le_0_compat; [|lra].
  change 0%Q with (inject_Z 0). apply inject_le, rne_ge_int. change (inject_Z 0) with 0%Q. apply scaled_ge. lra.
Qed.

Lemma round_q_mono x y : (x <= y)%Q -> (round_q x <= round_q y)%Q.
Proof.
  intros H. unfold round_q. destruct (Qcompare_spec x 0) as [X|X|X], (Qcompare_spec y 0) as [Y|Y|Y]; try lra;
    rewrite ?Qred_correct.
  - by apply round_abs_nonneg.
  - pose proof (round_abs_nonneg (- x) ltac:(lra)). lra.
  - pose proof (round_abs_mono (- y) (- x) ltac:(lra) ltac:(lra)). lra.
  - pose proof (round_abs_nonneg (- x) ltac:(lra)). pose proof (round_abs_nonneg y ltac:(lra)). lra.
  - by apply round_abs_mono.
Qed.

(** ** Exactness *)

(** A multiple of a power of two with a 53-bit mantissa is not rounded. *)
Lemma round_abs_exact q m e :
  (0 < q)%Q -> (q == inject_Z m * pow2 e)%Q -> m <= 2 ^ 53 -> -1074 <= e -> (round_abs q == q)%Q.
Proof.
  intros Hq E Hm He. rewrite round_abs_eq. destruct (qlog2_spec q Hq) as [L _].
  assert (Hup : (q <= pow2 (53 + e))%Q).
  { rewrite E, pow2_add, (pow2_Z 53) by lia. pose proof (pow2_pos e). apply Qmult_le_compat_r; [by apply inject_le|lra]. }
  set (k := ulp_exp q) in *. pose proof (pow2_pos k) as Hk.
  assert (Hint : exists n, (q == inject_Z n * pow2 k)%Q).
  { destruct (Z.le_gt_cases k e) as [C|C].
    - exists (m * 2 ^ (e - k)). rewrite E, inject_Z_mult, <- (pow2_Z (e - k)) by lia. rewrite <- Qmult_assoc, <- pow2_add.
      by replace (e - k + k) with e by lia.
    - assert (qlog2 q = 53 + e).
      { assert (qlog2 q < 53 + e + 1) by (apply pow2_lt_inv; assert (pow2 (53 + e) < pow2 (53 + e + 1))%Q by
          (rewrite (pow2_add (53 + e) 1); pose proof (pow2_pos (53 + e)); change (pow2 1) with (inject_Z 2); change (inject_Z 2) with (2 # 1); lra); lra).
        unfold k, ulp_exp in C. lia. }
      exists (2 ^ 52). rewrite H in L. assert (q == pow2 (53 + e))%Q by lra. rewrite H0, <- (pow2_Z 52), <- pow2_add by lia.
      unfold k, ulp_exp. rewrite H. by replace (52 + Z.max (-1074) (53 + e - 52)) with (53 + e) by lia. }
  destruct Hint as [n Hn].
  assert (D : (q / pow2 k == inject_Z n)%Q).
  { rewrite Hn. field. intros C. rewrite C in *. lra. }
  rewrite (rne_comp _ _ D), rne_int. by rewrite Hn.
Qed.

(** Representable numbers: what every operation returns. *)
Definition representable (q : Q) : Prop := (round_q q == q)%Q.

Lemma round_abs_representable q : (0 < q)%Q -> (round_abs (round_abs q) == round_abs q)%Q \/ (round_abs q == 0)%Q.
Proof.
  intros Hq. pose proof (round_abs_nonneg q Hq) as H0. destruct (Qlt_le_dec 0 (round_abs q)) as [Hp|Hz]; [left|right; lra].
  eapply round_abs_exact; [done|apply round_abs_eq|by apply mantissa_le|unfold ulp_exp; lia].
Qed.

Lemma Qcompare_pos q : (0 < q)%Q -> (q ?= 0)%Q = Gt.
Proof. intros H. destruct (Qcompare_spec q 0); [lra|lra|done]. Qed.

Lemma Qcompare_neg q : (q < 0)%Q -> (q ?= 0)%Q = Lt.
Proof. intros H. destruct (Qcompare_spec q 0); [lra|done|lra]. Qed.

Lemma Qcompare_zero q : (q == 0)%Q -> (q ?= 0)%Q = Eq.
Proof. intros H. destruct (Qcompare_spec q 0); [done|lra|lra]. Qed.

Lemma qlog2_comp_aux x y : (0 < x)%Q -> (x == y)%Q -> qlog2 x <= qlog2 y.
Proof.
  intros Hx E. destruct (qlog2_spec x Hx) as [X _]. destruct (qlog2_spec y ltac:(lra)) as [_ Y].
  assert (qlog2 x < qlog2 y + 1) by (apply pow2_lt_inv; lra). lia.
Qed.

Lemma round_abs_comp x y : (0 < x)%Q -> (x == y)%Q -> (round_abs x == round_abs y)%Q.
Proof.
  intros Hx E. rewrite !round_abs_eq.
  assert (ulp_exp x = ulp_exp y) as ->.
  { unfold ulp_exp. pose proof (qlog2_comp_aux x y Hx E). pose proof (qlog2_comp_aux y x ltac:(lra) (Qeq_sym _ _ E)). lia. }
  by rewrite (rne_comp (x / pow2 (ulp_exp y)) (y / pow2 (ulp_exp y))) by (by rewrite E).
Qed.

#[export] Instance round_q_proper : Proper (Qeq ==> Qeq) round_q.
Proof.
  intros x y E. unfold round_q. destruct (Qcompare_spec x 0) as [X|X|X], (Qcompare_spec y 0) as [Y|Y|Y]; try lra;
    rewrite ?Qred_correct; try lra.
  - by rewrite (round_abs_comp (- x) (- y)) by lra.
  - by apply round_abs_comp.
Qed.

Lemma round_q_representable q : representable (round_q q).
Proof.
  unfold representable. unfold round_q at 2 3. destruct (Qcompare_spec q 0) as [X|X|X]; [done| |].
  - destruct (round_abs_representable (- q) ltac:(lra)) as [H|H].
    + rewrite Qred_correct. pose proof (round_abs_nonneg (- q) ltac:(lra)) as H0. unfold round_q.
      destruct (Qcompare_spec (- round_abs (- q)) 0) as [Y|Y|Y]; [lra| |lra].
      rewrite Qred_correct, (round_abs_comp (- - round_abs (- q)) (round_abs (- q))) by lra. lra.
    + assert (E : (Qred (- round_abs (- q)) == 0)%Q) by (rewrite Qred_correct; lra). by rewrite E.
  - destruct (round_abs_representable q X) as [H|H].
    + unfold round_q. destruct (Qcompare_spec (round_abs q) 0); [lra|pose proof (round_abs_nonneg q X); lra|done].
    + by rewrite H.
Qed.

Lemma representable_int n : - 2 ^ 53 <= n <= 2 ^ 53 -> representable (inject_Z n).
Proof.
  intros Hn. unfold representable, round_q. destruct (Qcompare_spec (inject_Z n) 0) as [X|X|X]; [lra| |].
  - rewrite Qred_correct. rewrite (round_abs_exact _ (- n) 0); try lra; try lia.
    rewrite inject_Z_opp. change (pow2 0) with 1%Q. lra.
  - apply (round_abs_exact _ n 0); [done| |lia|lia]. change (pow2 0) with 1%Q. lra.
Qed.

(** Rounding does not cross a representable number. *)
Lemma round_q_le x y : representable y -> (x <= y)%Q -> (round_q x <= y)%Q.
Proof. unfold representable. intros Hy H%round_q_mono. lra. Qed.

Lemma round_q_ge x y : representable y -> (y <= x)%Q -> (y <= round_q x)%Q.
Proof. unfold representable. intros Hy H%round_q_mono. lra. Qed.

(** ** Comparisons and arithmetic of floats *)

(** The extended-real order, on numbers. *)
Definition is_num (a : f64) : Prop := a <> NaN.

(** A finite float is a representable number below the overflow bound. *)
Definition wf (a : f64) : Prop :=
  match a with Fin q => representable q /\ (- overflow < q < overflow)%Q | _ => True end.

Lemma Qle_bool_false x y : Qle_bool x y = false <-> (y < x)%Q.
Proof.
  split.
  - intros H. destruct (Qlt_le_dec y x) as [|C]; [done|]. apply Qle_bool_iff in C. congruence.
  - intros H. destruct (Qle_bool x y) eqn:E; [|done]. apply Qle_bool_iff in E. lra.
Qed.

Lemma overflow_pos : (0 < overflow)%Q.
Proof. apply pow2_pos. Qed.

Lemma round_wf q : wf (round q).
Proof.
  unfold round. destruct (Qle_bool overflow (round_q q)) eqn:A; [done|]. destruct (Qle_bool overflow (- round_q q)) eqn:B; [done|].
  apply Qle_bool_false in A, B. split; [apply round_q_representable|lra].
Qed.

Lemma round_num q : is_num (round q).
Proof. unfold round, is_num. by destruct (Qle_bool overflow (round_q q)), (Qle_bool overflow (- round_q q)). Qed.

Lemma Qred_ext x y : (x == y)%Q -> Qred x = Qred y.
Proof. apply Qred_complete. Qed.

(** Rounding depends on the value only. *)
Lemma round_q_ext x y : (x == y)%Q -> round_q x = round_q y.
Proof.
  intros E. unfold round_q. assert (Hlog : forall a b, (0 < a)%Q -> (a == b)%Q -> round_abs a = round_abs b).
  { intros a b Ha Eab. unfold round_abs. apply Qred_ext.
    assert (ulp_exp a = ulp_exp b) as ->.
    { unfold ulp_exp. pose proof (qlog2_comp_aux a b Ha Eab). pose proof (qlog2_comp_aux b a ltac:(lra) (Qeq_sym _ _ Eab)). lia. }
    by rewrite (rne_comp (a / pow2 (ulp_exp b)) (b / pow2 (ulp_exp b))) by (by rewrite Eab). }
  destruct (Qcompare_spec x 0) as [X|X|X], (Qcompare_spec y 0) as [Y|Y|Y]; try lra; try done.
  - by rewrite (Hlog (- x) (- y))%Q by lra.
  - by apply Hlog.
Qed.

Lemma round_comp x y : (x == y)%Q -> round x = round y.
Proof. intros E. unfold round. by rewrite (round_q_ext x y E). Qed.

Lemma fle_trans a b c : fle a b = true -> fle b c = true -> fle a c = true.
Proof.
  destruct a as [|[]|x], b as [|[]|y], c as [|[]|z]; cbn; try done. rewrite !Qle_bool_iff. lra.
Qed.

Lemma fle_refl a : is_num a -> fle a a = true.
Proof. unfold is_num. destruct a as [|[]|x]; cbn; try done. intros _. apply Qle_bool_iff. lra. Qed.

Lemma flt_spec a b : is_num a -> is_num b -> flt a b = negb (fle b a).
Proof. unfold is_num. by destruct a as [|[]|x], b as [|[]|y]. Qed.

Lemma fle_total a b : is_num a -> is_num b -> fle a b = false -> fle b a = true.
Proof.
  unfold is_num. destruct a as [|[]|x], b as [|[]|y]; cbn; try done. intros _ _ H%Qle_bool_false. apply Qle_bool_iff. lra.
Qed.

(** Rounding is monotone into the extended reals. *)
Lemma round_mono x y : (x <= y)%Q -> fle (round x) (round y) = true.
Proof.
  intros H%round_q_mono. pose proof overflow_pos. unfold round.
  destruct (Qle_bool overflow (round_q x)) eqn:A, (Qle_bool overflow (round_q y)) eqn:C;
  destruct (Qle_bool overflow (- round_q x)) eqn:B; destruct (Qle_bool overflow (- round_q y)) eqn:D;
    rewrite ?Qle_bool_iff, ?Qle_bool_false in *; cbn; try done; try lra; by apply Qle_bool_iff.
Qed.

(** A well-formed finite float is its own rounding, up to the order. *)
Lemma round_ge q x : wf (Fin q) -> (q <= x)%Q -> fle (Fin q) (round x) = true.
Proof.
  intros [Hr Hb] H. pose proof (round_q_ge x q Hr H). unfold round.
  destruct (Qle_bool overflow (round_q x)) eqn:A; [done|]. destruct (Qle_bool overflow (- round_q x)) eqn:B.
  - apply Qle_bool_iff in B. lra.
  - cbn. by apply Qle_bool_iff.
Qed.

Lemma round_le q x : wf (Fin q) -> (x <= q)%Q -> fle (round x) (Fin q) = true.
Proof.
  intros [Hr Hb] H. pose proof (round_q_le x q Hr H). unfold round.
  destruct (Qle_bool overflow (round_q x)) eqn:A.
  - apply Qle_bool_iff in A. lra.
  - destruct (Qle_bool overflow (- round_q x)) eqn:B; [done|]. cbn. by apply Qle_bool_iff.
Qed.

(** [float64(n)] of an integer up to 2^53 is that integer. *)
Lemma of_Z_exact n : - 2 ^ 53 <= n <= 2 ^ 53 -> exists q, of_Z n = Fin q /\ (q == inject_Z n)%Q /\ wf (Fin q).
Proof.
  intros Hn. pose proof (representable_int n Hn) as Hr. unfold representable in Hr. pose proof (round_wf (inject_Z n)) as Hw.
  unfold of_Z. unfold round in *.
  assert (Hb : (- overflow < round_q (inject_Z n) < overflow)%Q).
  { rewrite Hr. unfold overflow. rewrite pow2_Z by lia. rewrite <- inject_Z_opp. rewrite <- !Zlt_Qlt. lia. }
  destruct (Qle_bool overflow (round_q (inject_Z n))) eqn:A; [apply Qle_bool_iff in A; lra|].
  destruct (Qle_bool overflow (- round_q (inject_Z n))) eqn:B; [apply Qle_bool_iff in B; lra|].
  eauto.
Qed.

Lemma of_Z_fle a b : - 2 ^ 53 <= a <= 2 ^ 53 -> - 2 ^ 53 <= b <= 2 ^ 53 -> fle (of_Z a) (of_Z b) = true <-> a <= b.
Proof.
  intros Ha Hb. destruct (of_Z_exact a Ha) as (p & -> & P & _). destruct (of_Z_exact b Hb) as (q & -> & Q & _).
  cbn. rewrite Qle_bool_iff, P, Q, <- Zle_Qle. done.
Qed.

(** Any integers: [float64] is monotone. *)
Lemma of_Z_mono a b : a <= b -> fle (of_Z a) (of_Z b) = true.
Proof. intros H. apply round_mono. by apply inject_le. Qed.

(** Adding a non-negative number does not go below. *)
Lemma fadd_ge a b : is_num (fadd a b) -> wf a -> fle (Fin 0) b = true -> fle a (fadd a b) = true.
Proof.
  unfold is_num. destruct a as [|[]|x], b as [|[]|y]; cbn [fadd Bool.eqb fle]; try done.
  intros _ Hw Hy%Qle_bool_iff. apply round_ge; [done|]. lra.
Qed.

Lemma fmul_nonneg a b : is_num (fmul a b) -> fle (Fin 0) a = true -> fle (Fin 0) b = true -> fle (Fin 0) (fmul a b) = true.
Proof.
  unfold is_num. destruct a as [|[]|x], b as [|[]|y]; cbn [fmul fle xorb]; try done; unfold qneg.
  - destruct (Qeq_bool y 0); [done|]. intros _ _ ->. done.
  - destruct (Qeq_bool x 0); [done|]. intros _ -> _. done.
  - intros _ Hx%Qle_bool_iff Hy%Qle_bool_iff. apply round_ge; [|by apply Qmult_le_0_compat].
    split; [done|]. split; [|exact overflow_pos]. pose proof overflow_pos. lra.
Qed.

Lemma fmul_fin_num x y : is_num (fmul (Fin x) (Fin y)).
Proof. apply round_num. Qed.

(** Subtracting one does not go above. *)
Lemma fsub_one_le a : is_num a -> wf a -> fle (fsub a (of_Z 1)) a = true.
Proof.
  unfold is_num. destruct (of_Z_exact 1 ltac:(lia)) as (q & -> & Hq & _). unfold fsub, fneg.
  destruct a as [|[]|x]; cbn [fadd fle]; try done.
  intros _ Hw. apply round_le; [done|]. rewrite Qred_correct, Hq. change (inject_Z 1) with 1%Q. lra.
Qed.

(** The familiar decimal sum, a tie to even, the largest float and overflow. *)
Example float_samples :
  fadd (round (1 # 10)) (round (2 # 10)) = round (30000000000000004 # 100000000000000000)
  /\ fadd (round (1 # 10)) (round (2 # 10)) <> round (3 # 10)
  /\ of_Z (2 ^ 53 + 1) = of_Z (2 ^ 53)
  /\ fadd (Fin (inject_Z (2 ^ 1024 - 2 ^ 970))) (Fin (inject_Z (2 ^ 970))) = Inf false
  /\ fdiv (of_Z 1) (Fin 0) = Inf false.
Proof. repeat split; vm_compute; try reflexivity; discriminate. Qed.

(** ** Negation *)

Lemma round_q_red q : round_q q = Qred (round_q q).
Proof.
  assert (H : forall a, Qred (Qred a) = Qred a) by (intros a; apply Qred_ext, Qred_correct).
  unfold round_q, round_abs. destruct (Qcompare_spec q 0); by rewrite ?H.
Qed.

Lemma representable_neg q : representable q -> representable (- q).
Proof.
  unfold representable. intros Hr. unfold round_q in *.
  destruct (Qcompare_spec q 0) as [X|X|X], (Qcompare_spec (- q) 0) as [Y|Y|Y]; try lra; rewrite ?Qred_correct in *.
  - lra.
  - rewrite (round_abs_comp (- - q) q) by lra. lra.
Qed.

Lemma round_neg q x : representable q -> (- overflow < q < overflow)%Q -> (x == - q)%Q -> round x = Fin (Qred (- q)).
Proof.
  intros Hr Hb E. rewrite (round_comp x (- q)) by done. apply representable_neg in Hr. unfold representable in Hr. unfold round.
  destruct (Qle_bool overflow (round_q (- q))) eqn:A; [apply Qle_bool_iff in A; lra|].
  destruct (Qle_bool overflow (- round_q (- q))) eqn:B; [apply Qle_bool_iff in B; lra|].
  by rewrite round_q_red, (Qred_ext _ _ Hr).
Qed.
