(* ===== verification/WindowCounter.v ===== *)
(** * WindowCounter: the sliding-window hit counter in exact mode
    ([windowcounter/limiter.go])

    Window arithmetic, [takeExact] and [peekExact] over the verbs of the Redis
    client; what the engine does is an interface, with the behaviour of INCR,
    GET and EXPIRE that the limiter relies on as its laws. *)

From S2P Require Import Prelude.
From S2P Require Import Strconv.
From S2P Require Import Resp.
From S2P Require Import RedisExec.
From S2P Require Import RedisVerbs.
From S2P Require Import Float64.
From stdpp Require Import base list option.
From Stdlib Require Import ZArith QArith Lqa Lia List String.

Open Scope Z_scope.

Inductive wcErr := wRedis (e : goerr) | wIssue | wShortWindow | wFractionalWindow | wRequired | wNegativeRate.

Definition minSyncRate : Z := 20 * Millisecond.

(** [New]: the effective sync rate. *)
Definition New (redisNil : bool) (syncRate : Z) : Z + wcErr :=
  if redisNil then inr wRequired
  else if syncRate <? 0 then inr wNegativeRate
  else inl (if (0 <? syncRate) && (syncRate <? minSyncRate) then minSyncRate else syncRate).

Record slidingWindow := {
  currentKey : bytes; previousKey : bytes; weight : f64; ttlSec : Z; expireAt : Z;
}.

(** [redisWindowKey] *)
Definition redisWindowKey (opaqueKey : bytes) (windowStart : Z) : bytes :=
  opaqueKey ++ bs ":" ++ FormatInt windowStart.

(** [now.Unix()] of a clock reading in nanoseconds. *)
Definition Unix (now : Z) : Z := now / Second.

Definition window_start (unix windowSec : Z) : Z := Z.quot unix windowSec * windowSec.

(** The weight of the previous window. *)
Definition sliding_weight (unix windowStart windowSec : Z) : f64 :=
  let elapsed := wrap64 ((unix - windowStart) * Second) in
  let weight := fsub (of_Z 1) (fdiv (of_Z elapsed) (fmul (of_Z windowSec) (of_Z Second))) in
  if flt weight (of_Z 0) then of_Z 0 else weight.

(** [slidingAt] at the clock reading [now]. *)
Definition slidingAt (now : Z) (key : bytes) (window : Z) : slidingWindow + wcErr :=
  if window <? Second then inr wShortWindow
  else if negb (Z.rem window Second =? 0) then inr wFractionalWindow
  else
    let windowSec := Z.quot window Second in
    let windowStart := window_start (Unix now) windowSec in
    let ttlSec := 2 * windowSec in
    inl {| currentKey := redisWindowKey key windowStart;
           previousKey := redisWindowKey key (windowStart - windowSec);
           weight := sliding_weight (Unix now) windowStart windowSec;
           ttlSec := ttlSec; expireAt := windowStart + ttlSec |}.

(** [countFromRedisGet] *)
Definition countFromRedisGet (r : bytes + goerr) : Z + wcErr :=
  match r with
  | inr eMiss => inl 0
  | inr e => inr (wRedis e)
  | inl raw => match ParseInt raw with Some n => inl n | None => inr wIssue end
  end.

(** [parseEvalInt] *)
Definition parseEvalInt (values : list (option bytes)) : Z + wcErr :=
  match values with
  | [v] => match ParseInt (slot_text v) with Some n => inl n | None => inr wIssue end
  | _ => inr wIssue
  end.

(** The estimate and whether it is within the limit. *)
Definition estimate (current previous : Z) (weight : f64) : f64 :=
  fadd (of_Z current) (fmul (of_Z previous) weight).

Definition admits (current previous : Z) (weight : f64) (limit : Z) : bool * f64 :=
  let estimated := estimate current previous weight in
  (fle estimated (of_Z limit), estimated).

Section Exact.
Context {W : Type} (exec : list bytes -> W -> exec_result * W).

(** [getCount] *)
Definition getCount (redisKey : bytes) (w : W) : (Z + wcErr) * W :=
  let '(r, w) := Get exec redisKey w in (countFromRedisGet r, w).

(** [takeExact] *)
Definition takeExact (currentKey previousKey : bytes) (ttlSec : Z) (weight : f64) (limit : Z) (w : W)
    : ((bool * f64) + wcErr) * W :=
  let '(r, w) := Incr exec currentKey w in
  match r with
  | inr e => (inr (wRedis e), w)
  | inl current =>
      let '(expireErr, w) := if current =? 1 then Expire exec currentKey ttlSec w else (None, w) in
      match expireErr with
      | Some e => (inr (wRedis e), w)
      | None =>
          let '(p, w) := getCount previousKey w in
          match p with
          | inr e => (inr e, w)
          | inl previous => (inl (admits current previous weight limit), w)
          end
      end
  end.

(** [peekExact] *)
Definition peekExact (currentKey previousKey : bytes) (weight : f64) (limit : Z) (w : W)
    : ((bool * f64) + wcErr) * W :=
  let '(c, w) := getCount currentKey w in
  match c with
  | inr e => (inr e, w)
  | inl current =>
      let '(p, w) := getCount previousKey w in
      match p with
      | inr e => (inr e, w)
      | inl previous => (inl (admits current previous weight limit), w)
      end
  end.

(** [Take] in exact mode; [ctxErr] is ctx.Err() at entry. *)
Definition Take (ctxErr : option goerr) (now : Z) (key : bytes) (limit window : Z) (w : W)
    : ((bool * f64) + wcErr) * W :=
  match ctxErr with
  | Some e => (inr (wRedis e), w)
  | None =>
      match slidingAt now key window with
      | inr e => (inr e, w)
      | inl s => takeExact (currentKey s) (previousKey s) (ttlSec s) (weight s) limit w
      end
  end.

(** [Peek] in exact mode. *)
Definition Peek (ctxErr : option goerr) (now : Z) (key : bytes) (limit window : Z) (w : W)
    : ((bool * f64) + wcErr) * W :=
  match ctxErr with
  | Some e => (inr (wRedis e), w)
  | None =>
      match slidingAt now key window with
      | inr e => (inr e, w)
      | inl s => peekExact (currentKey s) (previousKey s) (weight s) limit w
      end
  end.

End Exact.

(** ** Window arithmetic *)

Lemma window_start_bounds unix windowSec :
  0 <= unix -> 0 < windowSec -> window_start unix windowSec <= unix < window_start unix windowSec + windowSec.
Proof.
  intros Hu Hw. unfold window_start. rewrite Z.quot_div_nonneg by lia.
  pose proof (Z.div_mod unix windowSec ltac:(lia)). pose proof (Z.mod_pos_bound unix windowSec Hw). nia.
Qed.

Lemma window_start_unique u v windowSec :
  0 <= u -> 0 <= v -> 0 < windowSec -> window_start u windowSec = window_start v windowSec
    <-> Z.quot u windowSec = Z.quot v windowSec.
Proof. intros Hu Hv Hw. unfold window_start. nia. Qed.

(** A finite float between zero and one. *)
Definition unit_weight (a : f64) : Prop := exists q, a = Fin q /\ wf a /\ (0 <= q <= 1)%Q.

Lemma round_unit x : (0 <= x <= 1)%Q -> unit_weight (round x).
Proof.
  intros H. pose proof (round_wf x) as Hw.
  assert (H0 : wf (Fin 0)) by (split; [reflexivity|split; reflexivity]).
  assert (H1 : wf (Fin 1)) by (split; [reflexivity|split; reflexivity]).
  pose proof (round_ge 0 x H0 ltac:(lra)) as L. pose proof (round_le 1 x H1 ltac:(lra)) as U.
  destruct (round x) as [|[]|q]; try done. exists q. cbn in L, U. rewrite Qle_bool_iff in L, U. auto.
Qed.

(** Quotient of two conversions of ordered integers. *)
Lemma of_Z_quotient a b :
  0 <= a <= b -> 0 < b <= 2 ^ 63 -> exists x, fdiv (of_Z a) (of_Z b) = round x /\ (0 <= x <= 1)%Q.
Proof.
  intros Ha Hb. pose proof (of_Z_mono a b ltac:(lia)) as M. pose proof (of_Z_mono 0 a ltac:(lia)) as Z0.
  pose proof (of_Z_mono 1 b ltac:(lia)) as O. pose proof (of_Z_mono b (2 ^ 63) ltac:(lia)) as T.
  change (of_Z 0) with (Fin 0) in Z0. change (of_Z 1) with (Fin 1) in O.
  replace (of_Z (2 ^ 63)) with (Fin (inject_Z (2 ^ 63))) in T by (vm_compute; reflexivity).
  destruct (of_Z b) as [|[]|q]; try done. destruct (of_Z a) as [|[]|p]; try done.
  cbn [fle] in *. rewrite Qle_bool_iff in *. cbn [fdiv].
  destruct (Qeq_bool q 0) eqn:E; [apply Qeq_bool_iff in E; lra|].
  exists (p / q)%Q. split; [done|]. split.
  - apply Qle_shift_div_l; lra.
  - apply Qle_shift_div_r; lra.
Qed.

Lemma sliding_weight_unit unix windowSec :
  0 <= unix -> 0 < windowSec -> windowSec * Second <= int64_max ->
  unit_weight (sliding_weight unix (window_start unix windowSec) windowSec).
Proof.
  intros Hu Hw Hmax. pose proof (window_start_bounds unix windowSec Hu Hw) as Hs. unfold sliding_weight.
  set (d := unix - window_start unix windowSec) in *. assert (Hd : 0 <= d < windowSec) by lia.
  unfold Second, Millisecond, int64_max in Hmax.
  rewrite wrap64_id by (unfold in_int64, int64_min, int64_max, Second, Millisecond; lia).
  assert (E : fmul (of_Z windowSec) (of_Z Second) = of_Z (windowSec * Second)).
  { destruct (of_Z_exact windowSec ltac:(lia)) as (q & Hq & Eq & _).
    destruct (of_Z_exact Second ltac:(done)) as (p & Hp & Ep & _). rewrite Hq, Hp. cbn [fmul]. unfold of_Z.
    apply round_comp. by rewrite Eq, Ep, inject_Z_mult. }
  rewrite E. destruct (of_Z_quotient (d * Second) (windowSec * Second)) as (x & -> & Hx).
  { unfold Second, Millisecond. lia. }
  { unfold Second, Millisecond. lia. }
  destruct (round_unit x Hx) as (r & -> & _ & Hr). unfold fsub, fneg. change (of_Z 1) with (Fin 1). cbn [fadd].
  destruct (round_unit (1 + Qred (- r))) as (v & Hv & Hvw & Hvr); [rewrite Qred_correct; lra|].
  rewrite Hv. unfold flt. change (of_Z 0) with (Fin 0). cbn [fle].
  destruct (Qle_bool 0 v) eqn:C; cbn [negb].
  - exists v. rewrite Hv in Hvw. auto.
  - apply Qle_bool_false in C. lra.
Qed.

(** C34: at any clock reading since the epoch and any whole-second window,
    [slidingAt] picks the window that contains the reading and the one before,
    weights the latter between 0 and 1, and gives the counter an expiry no
    earlier than the end of the following window, the last moment it is read as
    the previous one; other windows are rejected. *)
Theorem slidingAt_sound now key window :
  0 <= now -> in_int64 window ->
  match slidingAt now key window with
  | inl s =>
      exists windowSec start,
        window = windowSec * Second /\ start <= Unix now < start + windowSec /\ (exists k, start = k * windowSec) /\
        currentKey s = redisWindowKey key start /\ previousKey s = redisWindowKey key (start - windowSec) /\
        unit_weight (weight s) /\ ttlSec s = 2 * windowSec /\ expireAt s = start + 2 * windowSec /\
        Unix now + windowSec < expireAt s <= Unix now + ttlSec s
  | inr e => window < Second /\ e = wShortWindow \/ ~ (Second | window) /\ e = wFractionalWindow
  end.
Proof.
  intros Hn [_ Hm]. unfold slidingAt. destruct (Z.ltb_spec window Second) as [|Hs]; [by left|].
  destruct (Z.eqb_spec (Z.rem window Second) 0) as [Hr|Hr]; cbn [negb].
  - assert (HS : 0 < Second) by done. set (windowSec := Z.quot window Second).
    assert (Hw : window = windowSec * Second) by (pose proof (Z.quot_rem' window Second); unfold windowSec; lia).
    assert (Hp : 0 < windowSec) by nia.
    assert (Hu : 0 <= Unix now) by (apply Z.div_pos; lia).
    pose proof (window_start_bounds (Unix now) windowSec Hu Hp) as Hb.
    exists windowSec, (window_start (Unix now) windowSec). cbn [currentKey previousKey weight ttlSec expireAt].
    split; [done|]. split; [done|]. split; [by eexists|]. split; [done|]. split; [done|].
    split; [by apply sliding_weight_unit; [| |rewrite <- Hw]|]. split; [done|]. split; [done|]. lia.
  - right. split; [|done]. intros [k ->]. rewrite Z.rem_mul in Hr; [done|done].
Qed.

Lemma slidingAt_sound_witness :
  exists s, slidingAt (1700000000 * Second + 5) (bs "ip") (60 * Second) = inl s /\ unit_weight (weight s) /\ expireAt s = 1700000100.
Proof.
  pose proof (slidingAt_sound (1700000000 * Second + 5) (bs "ip") (60 * Second)) as H.
  specialize (H ltac:(vm_compute; discriminate) ltac:(split; vm_compute; discriminate)).
  destruct (slidingAt (1700000000 * Second + 5) (bs "ip") (60 * Second)) as [s|e] eqn:E.
  - exists s. destruct H as (w & st & _ & _ & _ & _ & _ & Hu & _). split; [done|]. split; [exact Hu|].
    injection E as <-. vm_compute. reflexivity.
  - vm_compute in E. discriminate E.
Defined.

(** ** Admission in one window *)

(** What the limiter relies on of the client and its engine, for as long as none
    of its keys expires: a successful INCR has raised the count and returns a
    value the count had meanwhile (it may have been applied more than once, and
    others may count too), GET returns a count or a miss, nothing lowers a
    count. *)
Class CounterServer {W} (exec : list bytes -> W -> exec_result * W) (count : bytes -> W -> Z) : Prop := {
  cs_range k w : 0 <= count k w <= int64_max;
  cs_incr k w vs w' : exec [bs "INCR"; k] w = ((vs, None), w') ->
    exists c, vs = [Some (FormatInt c)] /\ count k w < c <= count k w';
  cs_get k w vs w' : exec [bs "GET"; k] w = ((vs, None), w') ->
    vs = [None] \/ exists c, vs = [Some (FormatInt c)] /\ 0 <= c <= int64_max;
  cs_mono argv k w : count k w <= count k (exec argv w).2;
}.

Lemma admit_within current previous q limit :
  0 <= previous -> limit < 2 ^ 53 -> - 2 ^ 53 <= limit -> unit_weight q ->
  (admits current previous q limit).1 = true -> current <= limit.
Proof.
  intros Hp Hl Hl' (v & -> & Hw & Hv) H. cbn [admits fst] in H. unfold estimate in H.
  destruct (Z.le_gt_cases current limit) as [|C]; [done|]. exfalso.
  assert (H1 : fle (of_Z (limit + 1)) (of_Z current) = true) by (apply of_Z_mono; lia).
  assert (Hprev : fle (Fin 0) (of_Z previous) = true) by (change (Fin 0) with (of_Z 0); by apply of_Z_mono).
  set (a := of_Z current) in *. set (b := fmul (of_Z previous) (Fin v)) in *.
  assert (Ha : wf a) by apply round_wf.
  assert (Hnum : is_num (fadd a b)) by (intros E; rewrite E in H; by destruct (of_Z limit)).
  assert (Hb : fle (Fin 0) b = true).
  { apply fmul_nonneg; [|exact Hprev|apply Qle_bool_iff, Hv]. intros E. unfold is_num in Hnum. apply Hnum. fold b in E. rewrite E. by destruct a as [|[]|]. }
  pose proof (fadd_ge a b Hnum Ha Hb) as H2.
  pose proof (fle_trans _ _ _ (fle_trans _ _ _ H1 H2) H) as H3. apply of_Z_fle in H3; lia.
Qed.

Section Admission.
Context {W : Type} (exec : list bytes -> W -> exec_result * W) (count : bytes -> W -> Z)
  `{!CounterServer exec count} (key : bytes) (limit : Z).

(** One Take of the window: what other clients did before it, and its previous
    key, TTL and weight. *)
Record take_call := { tc_others : W -> W; tc_prev : bytes; tc_ttl : Z; tc_weight : f64 }.

Definition call_ok (c : take_call) : Prop :=
  (forall w, count key w <= count key (tc_others c w)) /\ unit_weight (tc_weight c).

(** How many of the Takes are admitted, one after the other. *)
Fixpoint admitted (calls : list take_call) (w : W) : nat :=
  match calls with
  | [] => 0
  | c :: calls =>
      let '(r, w') := takeExact exec key (tc_prev c) (tc_ttl c) (tc_weight c) limit (tc_others c w) in
      ((match r with inl (true, _) => 1 | _ => 0 end) + admitted calls w')%nat
  end.

Lemma getCount_nonneg k w n w' : getCount exec k w = (inl n, w') -> 0 <= n /\ count key w <= count key w'.
Proof.
  unfold getCount, Get. pose proof (cs_mono [bs "GET"; k] key w) as M.
  destruct (exec [bs "GET"; k] w) as [[vs err] w1] eqn:E. destruct err as [e|].
  - destruct e; cbn; intros [= <- <-]; split; done.
  - destruct (cs_get k w vs w1 E) as [->|(c & -> & R1 & R2)].
    + intros [= <- <-]. split; done.
    + cbn [countFromRedisGet].
      rewrite ParseInt_FormatInt by (split; [unfold int64_min; lia|done]). intros [= <- <-]. done.
Qed.

Lemma takeExact_count prev ttl q w r w' :
  takeExact exec key prev ttl q limit w = (r, w') ->
  count key w <= count key w' /\
  (limit < 2 ^ 53 -> unit_weight q -> match r with inl (true, _) => count key w + 1 <= limit /\ count key w + 1 <= count key w' | _ => True end).
Proof.
  unfold takeExact, Incr. pose proof (cs_mono [bs "INCR"; key] key w) as M.
  destruct (exec [bs "INCR"; key] w) as [[vs err] w1] eqn:E. cbn [snd] in M. destruct err as [e|].
  { cbn. intros [= <- <-]. done. }
  destruct (cs_incr key w vs w1 E) as (c & -> & Hc). unfold parseIntegerReply, slot_text, default, from_option, id.
  pose proof (cs_range key w1) as [R1 R2]. pose proof (cs_range key w) as [R3 _].
  rewrite ParseInt_FormatInt by (split; [unfold int64_min; lia|lia]).
  destruct (if c =? 1 then Expire exec key ttl w1 else (None, w1)) as [ee w2] eqn:Ee.
  assert (M2 : count key w1 <= count key w2).
  { destruct (c =? 1); [|injection Ee as <- <-; lia]. unfold Expire in Ee.
    pose proof (cs_mono [bs "EXPIRE"; key; FormatInt ttl] key w1) as M1.
    destruct (exec [bs "EXPIRE"; key; FormatInt ttl] w1) as [[? ?] ?]. by injection Ee as <- <-. }
  destruct ee as [e|]; [intros [= <- <-]; split; [lia|done]|].
  destruct (getCount exec prev w2) as [p w3] eqn:Eg. destruct p as [n|e].
  - destruct (getCount_nonneg _ _ _ _ Eg) as [Hn M3]. intros [= <- <-]. split; [lia|]. intros Hl Hq.
    destruct (admits _ _ _ _) as [[|] est] eqn:Ea; [|done].
    assert (Hlim : - 2 ^ 53 <= limit \/ limit < - 2 ^ 53) by lia. destruct Hlim as [Hlim|Hlim].
    + pose proof (admit_within c n q limit Hn Hl Hlim Hq) as Ha. rewrite Ea in Ha. specialize (Ha eq_refl). lia.
    + exfalso. pose proof (admit_within c n q (-1) Hn ltac:(lia) ltac:(lia) Hq) as Ha.
      cbn [admits fst] in Ha. apply (f_equal fst) in Ea. cbn [admits fst] in Ea.
      specialize (Ha (fle_trans _ _ _ Ea (of_Z_mono limit (-1) ltac:(lia)))). lia.
  - unfold getCount, Get in Eg. pose proof (cs_mono [bs "GET"; prev] key w2) as M3.
    destruct (exec [bs "GET"; prev] w2) as [[? ?] ?]. injection Eg as _ <-. intros [= <- <-]. split; [cbn in M3; lia|done].
Qed.

Lemma admitted_bound calls w :
  limit < 2 ^ 53 -> Forall call_ok calls ->
  Z.of_nat (admitted calls w) <= Z.max 0 (limit - count key w).
Proof.
  intros Hl Hc. revert w. induction Hc as [|c calls [Ho Hq] _ IH]; intros w; cbn [admitted]; [cbn; lia|].
  destruct (takeExact _ _ _ _ _ _ _) as [r w'] eqn:E. specialize (Ho w).
  destruct (takeExact_count _ _ _ _ _ _ E) as [M A]. specialize (A Hl Hq). specialize (IH w').
  destruct r as [[[|] est]|e]; lia.
Qed.

(** C8: in exact mode one window never admits more than the limit: whatever
    other clients add meanwhile, whatever the previous window held, and whatever
    the float estimate rounds to, the Takes admitted on a window's counter from
    a state where it stands at c number at most limit - c, for any limit that
    float64 holds exactly. *)
Theorem exact_window_limit calls w :
  limit < 2 ^ 53 -> Forall call_ok calls ->
  Z.of_nat (admitted calls w) <= Z.max 0 (limit - count key w).
Proof. intros. by apply admitted_bound. Qed.
End Admission.

(** A concrete engine: a count per key, INCR refused at the top of int64. *)
Module CounterEngine.

Definition world : Type := bytes -> Z.
Definition count (k : bytes) (w : world) : Z := Z.max 0 (Z.min int64_max (w k)).

Definition exec (argv : list bytes) (w : world) : exec_result * world :=
  match argv with
  | [verb; k] =>
      if decide (verb = bs "INCR") then
        if count k w =? int64_max then (([], Some (eReply (bs "ERR increment or decrement would overflow"))), w)
        else (([Some (FormatInt (count k w + 1))], None), fun k' => if decide (k' = k) then count k w + 1 else w k')
      else (([Some (FormatInt (count k w))], None), w)
  | _ => (([Some (bs "1")], None), w)
  end.

#[global] Instance engine : CounterServer exec count.
Proof.
  split.
  - intros k w. unfold count, int64_max. lia.
  - intros k w vs w'. unfold exec. rewrite decide_True by done.
    destruct (Z.eqb_spec (count k w) int64_max) as [|Hne]; [done|]. intros [= <- <-].
    assert (Hc : 0 <= count k w <= int64_max) by (unfold count, int64_max; lia).
    assert (E : count k (fun k' => if decide (k' = k) then count k w + 1 else w k') = count k w + 1).
    { unfold count at 1. rewrite decide_True by done. unfold int64_max in *. lia. }
    exists (count k w + 1). split; [done|]. rewrite E. lia.
  - intros k w vs w'. unfold exec. rewrite decide_False by done. intros [= <- <-]. right. exists (count k w).
    split; [done|]. unfold count, int64_max. lia.
  - intros argv k w. unfold exec. destruct argv as [|v [|k' [|? ?]]]; cbn [snd]; try lia.
    destruct (decide (v = bs "INCR")); [|cbn [snd]; lia]. destruct (Z.eqb_spec (count k' w) int64_max) as [|Hne]; cbn [snd]; [lia|].
    unfold count, int64_max in *. destruct (decide (k = k')) as [->|]; lia.
Qed.

End CounterEngine.

Definition sample_take : take_call (W := CounterEngine.world) :=
  {| tc_others := fun w => w; tc_prev := bs "ip:0"; tc_ttl := 120; tc_weight := Fin (1 # 2) |}.

Lemma exact_window_limit_witness :
  admitted CounterEngine.exec (bs "ip:60") 3 (replicate 5 sample_take) (fun _ => 0) = 3%nat /\
  Z.of_nat (admitted CounterEngine.exec (bs "ip:60") 3 (replicate 5 sample_take) (fun _ => 0)) <= Z.max 0 (3 - 0).
Proof.
  split; [vm_compute; reflexivity|].
  apply (exact_window_limit CounterEngine.exec CounterEngine.count (bs "ip:60") 3 (replicate 5 sample_take) (fun _ => 0)).
  - done.
  - repeat constructor; try done.
    all: exists (1 # 2); split; [done|]; split; [split; [reflexivity|split; reflexivity]|split; discriminate].
Defined.
