(* ===== verification/WindowClient.v ===== *)
(** * WindowClient: the exact mode over the retrying client

    The layers put together: [takeExact] sends its commands through the verbs,
    the retry loop and the codec of the Redis client to an engine, over
    connections that may break before a command arrives or lose its reply after
    it was applied.  The client then promises the limiter what it relies on
    ([CounterServer]), so its limit holds on such a network too. *)

From S2P Require Import Prelude.
From S2P Require Import Strconv.
From S2P Require Import Resp.
From S2P Require Import RespProofs.
From S2P Require Import RedisExec.
From S2P Require Import RedisExecProofs.
From S2P Require Import RedisVerbs.
From S2P Require Import Float64.
From S2P Require Import WindowCounter.
From Stdlib Require Import ZArith QArith Lia List String.
From stdpp Require Import base list option.

Open Scope Z_scope.

(** What becomes of one attempt: answered, applied with its reply lost, or never
    received. *)
Inductive fate := Answered | ReplyLost | NeverReceived.

Section Wire.
Context {E : Type} (apply : list bytes -> E -> E * rvalue) (cfg : Config).

(** The engine after the first [n] attempts of a command. *)
Fixpoint state_after (argv : list bytes) (fates : nat -> fate) (n : nat) (st : E) : E :=
  match n with
  | O => st
  | S n =>
      let st := state_after argv fates n st in
      match fates n with NeverReceived => st | _ => (apply argv st).1 end
  end.

(** Attempt [i] dials a socket; a lost reply is a stream that ends at once. *)
Definition wire_attempt (argv : list bytes) (fates : nat -> fate) (st : E) (i : nat) : attempt :=
  {| at_stop := None; at_wait := None; at_borrow := fun _ => Borrowed false; at_closed := false;
     at_io := fun _ => io_ok (match fates i with
                              | Answered => encode (apply argv (state_after argv fates i st)).2
                              | _ => []
                              end);
     at_stop_do := None |}.

(** One command on a world that says what becomes of the attempts to come. *)
Definition exec_wire (argv : list bytes) (w : E * list (list fate)) : exec_result * (E * list (list fate)) :=
  let fates := fun i => nth i (hd [] w.2) Answered in
  let o := exec cfg None true (wire_attempt argv fates w.1) in
  ((o_values o, o_err o), (state_after argv fates (o_sent o) w.1, tl w.2)).

Hypothesis apply_ok : forall argv st, value_ok (apply argv st).2.

Lemma do_lost : do_cmd (io_ok []) = ([], false, Some eUnreachable).
Proof. reflexivity. Qed.

Lemma do_wire argv fates st i :
  do_cmd (at_io (wire_attempt argv fates st i) false) =
    match fates i with
    | Answered => let v := (apply argv (state_after argv fates i st)).2 in (values (decode v), true, rerror (decode v))
    | _ => ([], false, Some eUnreachable)
    end.
Proof. cbn [wire_attempt at_io]. destruct (fates i); [by rewrite do_io_ok by done|apply do_lost..]. Qed.

(** A success is the answer to the last attempt that was sent. *)
Lemma wire_loop_ok argv fates st budget : forall i last retried lo skip,
  let o := exec_loop budget i (wire_attempt argv fates st) lo skip last i retried in
  o_err o = None ->
  exists j, o_sent o = S j /\ fates j = Answered /\
    let v := (apply argv (state_after argv fates j st)).2 in o_values o = values (decode v) /\ rerror (decode v) = None.
Proof.
  induction budget as [|budget IH]; intros i last retried lo skip; cbn [exec_loop]; [done|].
  cbn [wire_attempt at_stop at_wait at_borrow at_closed at_stop_do]. fold (wire_attempt argv fates st).
  replace (if (i =? 0)%nat then None else None) with (@None goerr) by (by destruct (i =? 0)%nat).
  unfold runOnConn. rewrite (do_wire argv fates st i). destruct (fates i) eqn:Ef.
  - cbn zeta. set (v := (apply argv _).2). destruct (rerror (decode v)) as [e|] eqn:Er.
    + destruct (negb (shouldRetry e false)); [done|]. apply IH.
    + intros _. exists i. by split_and!.
  - cbn [shouldRetry negb]. apply IH.
  - cbn [shouldRetry negb]. apply IH.
Qed.

Lemma exec_wire_ok argv w vs w' :
  exec_wire argv w = ((vs, None), w') ->
  exists j, let fates := fun i => nth i (hd [] w.2) Answered in
    fates j = Answered /\ w'.1 = state_after argv fates (S j) w.1 /\
    let v := (apply argv (state_after argv fates j w.1)).2 in vs = values (decode v) /\ rerror (decode v) = None.
Proof.
  unfold exec_wire, exec. destruct (retryLimits _ _ _) as [[mr ?] ?]. cbn [fst snd]. intros Hw.
  set (fates := fun i => nth i (hd [] w.2) Answered) in *.
  pose proof (wire_loop_ok argv fates w.1 (Z.to_nat (mr + 1)) 0 None [] true false) as HL. cbn zeta in HL.
  destruct (exec_loop _ _ _ _ _ _ _ _) as [ovs oerr osent oret]. cbn [o_err o_sent o_values] in *.
  injection Hw as <- -> <-. destruct (HL eq_refl) as (j & -> & Hf & Hv). exists j.
  split; [exact Hf|]. split; [reflexivity|exact Hv].
Qed.

(** A command that arrives at last: [n] attempts that are never received, then
    an answer. *)
Definition arrives (fs : list fate) (n : nat) : Prop := fs = replicate n NeverReceived.

(** Every command arrives within its retries. *)
Definition delivers (fss : list (list fate)) : Prop :=
  let maxRetries := (retryLimits (MaxRetries cfg) (MinRetryBackoff cfg) (MaxRetryBackoff cfg)).1.1 in
  0 <= maxRetries /\ Forall (fun fs => exists n, arrives fs n /\ Z.of_nat n <= maxRetries) fss.

Lemma delivers_hd fss : delivers fss -> exists n, arrives (hd [] fss) n /\
  Z.of_nat n <= (retryLimits (MaxRetries cfg) (MinRetryBackoff cfg) (MaxRetryBackoff cfg)).1.1.
Proof. intros [H0 [|fs fss' H _]]; cbn; [by exists 0%nat|done]. Qed.

Lemma delivers_tl fss : delivers fss -> delivers (tl fss).
Proof. intros [H0 [|fs fss' _ H]]; by split. Qed.

Lemma state_unreceived argv fates st n : (forall k, (k < n)%nat -> fates k = NeverReceived) -> state_after argv fates n st = st.
Proof. induction n as [|n IH]; intros Hf; cbn [state_after]; [done|]. rewrite Hf, IH by lia || auto. done. Qed.

Lemma wire_loop_arrives argv fates st v n : forall budget i last retried lo skip,
  v = (apply argv st).2 -> final v -> (forall k, (k < i + n)%nat -> fates k = NeverReceived) -> fates (i + n)%nat = Answered -> (n < budget)%nat ->
  let o := exec_loop budget i (wire_attempt argv fates st) lo skip last i retried in
  o_values o = values (decode v) /\ o_err o = rerror (decode v) /\ o_sent o = S (i + n).
Proof.
  induction n as [|n IH]; intros budget i last retried lo skip Hv Hfin Hf Ha Hb; (destruct budget as [|budget]; [lia|]); cbn [exec_loop].
  all: cbn [wire_attempt at_stop at_wait at_borrow at_closed at_stop_do]; fold (wire_attempt argv fates st).
  all: replace (if (i =? 0)%nat then None else None) with (@None goerr) by (by destruct (i =? 0)%nat).
  all: unfold runOnConn; rewrite (do_wire argv fates st i).
  - rewrite Nat.add_0_r in *. rewrite Ha, (state_unreceived argv fates st i), <- Hv by done. cbn zeta.
    destruct v as [el|s|l]; cbn [decode ok_reply values rerror]; try (by repeat split).
    unfold final in Hfin. rewrite Hfin. cbn [negb o_values o_err o_sent]. unfold replyError. by destruct (existsb _ _).
  - rewrite (Hf i) by lia. cbn [shouldRetry negb]. rewrite <- Nat.add_succ_comm in *. apply IH; auto; lia.
Qed.

(** Through retries that were never received, a command is applied once and
    answered. *)
Lemma exec_wire_arrives argv st fss n v :
  v = (apply argv st).2 -> final v -> arrives (hd [] fss) n ->
  Z.of_nat n <= (retryLimits (MaxRetries cfg) (MinRetryBackoff cfg) (MaxRetryBackoff cfg)).1.1 ->
  exec_wire argv (st, fss) = ((values (decode v), rerror (decode v)), ((apply argv st).1, tl fss)).
Proof.
  intros Hv Hfin Hfs Hn. unfold exec_wire, exec. cbn [fst snd]. rewrite Hfs. destruct (retryLimits _ _ _) as [[mr ?] ?]. cbn [fst] in Hn.
  set (fates := fun i => nth i (replicate n NeverReceived) Answered).
  assert (Hf : forall k, (k < 0 + n)%nat -> fates k = NeverReceived).
  { intros k Hk. apply nth_lookup_Some, lookup_replicate_2. lia. }
  assert (Ha : fates (0 + n)%nat = Answered) by (apply nth_overflow; by rewrite length_replicate).
  destruct (wire_loop_arrives argv fates st v n (Z.to_nat (mr + 1)) 0 None [] true false Hv Hfin Hf Ha ltac:(lia)) as (-> & -> & ->).
  cbn [Nat.add state_after] in *. by rewrite Ha, state_unreceived.
Qed.

Lemma exec_wire_delivers argv st fss :
  final (apply argv st).2 -> delivers fss ->
  exec_wire argv (st, fss) = ((values (decode (apply argv st).2), rerror (decode (apply argv st).2)), ((apply argv st).1, tl fss)).
Proof. intros Hf Hd. destruct (delivers_hd fss Hd) as (n & Ha & Hn). by apply (exec_wire_arrives argv st fss n). Qed.

End Wire.

(** ** An engine with counters and expiries *)

(** Counts per key, and whether a key has an expiry. *)
Record engine := mkEngine { counts : bytes -> Z; has_ttl : bytes -> bool }.

Definition count_of_key (k : bytes) (e : engine) : Z := Z.max 0 (Z.min int64_max (counts e k)).

(** INCR, EXPIRE and GET as Redis documents them; other commands are errors. *)
Definition engine_apply (argv : list bytes) (e : engine) : engine * rvalue :=
  match argv with
  | [verb; k] =>
      if decide (verb = bs "INCR") then
        if count_of_key k e =? int64_max then (e, VError (bs "ERR increment or decrement would overflow"))
        else let n := count_of_key k e + 1 in
             (mkEngine (fun k' => if decide (k' = k) then n else counts e k') (has_ttl e), VElem (EInt n))
      else if decide (verb = bs "GET") then
        (e, VElem (EBulk (if count_of_key k e =? 0 then None else Some (FormatInt (count_of_key k e)))))
      else (e, VError (bs "ERR unknown command"))
  | [verb; k; _] =>
      if decide (verb = bs "EXPIRE") then
        (mkEngine (counts e) (fun k' => if decide (k' = k) then negb (count_of_key k e =? 0) else has_ttl e k'),
         VElem (EInt (if count_of_key k e =? 0 then 0 else 1)))
      else (e, VError (bs "ERR unknown command"))
  | _ => (e, VError (bs "ERR unknown command"))
  end.

Lemma count_range k e : 0 <= count_of_key k e <= int64_max.
Proof. unfold count_of_key, int64_max. lia. Qed.

Lemma error_ok s : forallb (fun b => negb (bool_decide (b = b_lf))) s = true -> (length s + 3 <= bufSize)%nat -> value_ok (VError s).
Proof.
  intros Hs Hl. split; [|done]. intros Hin. rewrite forallb_forall in Hs. apply list_elem_of_In in Hin. specialize (Hs _ Hin).
  by rewrite bool_decide_eq_true_2 in Hs.
Qed.

Lemma engine_apply_ok argv e : value_ok (engine_apply argv e).2.
Proof.
  unfold engine_apply. destruct argv as [|verb [|k [|x [|? ?]]]]; try (apply error_ok; [reflexivity|vm_compute; lia]).
  - destruct (decide _).
    + pose proof (count_range k e) as R. destruct (Z.eqb_spec (count_of_key k e) int64_max).
      * apply error_ok; [reflexivity|vm_compute; lia].
      * cbn. unfold in_int64, int64_min. lia.
    + destruct (decide _); [|apply error_ok; [reflexivity|vm_compute; lia]]. cbn.
      destruct (_ =? 0); [done|]. pose proof (FormatInt_length (count_of_key k e) ltac:(pose proof (count_range k e); unfold in_int64, int64_min; lia)).
      unfold maxBulkLength. lia.
  - destruct (decide _); [|apply error_ok; [reflexivity|vm_compute; lia]]. cbn. unfold in_int64, int64_min, int64_max. destruct (_ =? 0); lia.
Qed.

Lemma engine_mono argv k e : count_of_key k e <= count_of_key k (engine_apply argv e).1.
Proof.
  unfold engine_apply. destruct argv as [|verb [|k' [|x [|? ?]]]]; cbn [fst]; try lia.
  - destruct (decide _); [|destruct (decide _); cbn [fst]; lia]. pose proof (count_range k' e).
    destruct (Z.eqb_spec (count_of_key k' e) int64_max); cbn [fst]; [lia|]. cbn zeta. unfold count_of_key at 2. cbn [counts].
    destruct (decide (k = k')) as [->|]; [|unfold count_of_key; lia]. unfold int64_max in *. lia.
  - destruct (decide _); cbn [fst]; [unfold count_of_key; cbn [counts]; lia|lia].
Qed.

Lemma state_mono argv fates k e n : count_of_key k e <= count_of_key k (state_after engine_apply argv fates n e).
Proof.
  induction n as [|n IH]; cbn [state_after]; [lia|]. destruct (fates n); [|..|done].
  all: pose proof (engine_mono argv k (state_after engine_apply argv fates n e)); lia.
Qed.

(** The client over such a network promises the limiter what it relies on: with
    at-least-once INCRs, whatever is lost. *)
#[global] Instance wire_counter cfg : CounterServer (exec_wire engine_apply cfg) (fun k w => count_of_key k w.1).
Proof.
  split.
  - intros k w. apply count_range.
  - intros k w vs w' Hw. apply exec_wire_ok in Hw; [|apply engine_apply_ok]. destruct Hw as (j & Hf & -> & Hv & He).
    cbn [state_after]. rewrite Hf. pose proof (state_mono [bs "INCR"; k] (fun i => nth i (hd [] w.2) Answered) k w.1 j) as M.
    set (e := state_after _ _ _ j w.1) in *. pose proof (count_range k e) as R. subst vs. revert He. unfold engine_apply.
    rewrite decide_True by done. destruct (Z.eqb_spec (count_of_key k e) int64_max); [done|]. intros _. cbn [fst snd]. cbn zeta.
    exists (count_of_key k e + 1). split; [done|]. split; [lia|]. apply Z.eq_le_incl. symmetry.
    unfold count_of_key at 1. cbn [counts]. rewrite decide_True by done. lia.
  - intros k w vs w' Hw. apply exec_wire_ok in Hw; [|apply engine_apply_ok]. destruct Hw as (j & Hf & _ & Hv & He).
    set (e := state_after _ _ _ j w.1) in *. subst vs. unfold engine_apply. rewrite decide_False, decide_True by done.
    cbn [snd decode ok_reply values decode_elem]. destruct (_ =? 0); [by left|]. right. exists (count_of_key k e). split; [done|apply count_range].
  - intros argv k w. unfold exec_wire. cbn [snd fst]. apply state_mono.
Qed.

(** C9: the limit of the exact mode holds end to end: through the verbs, the
    retry loop with any configuration and the RESP codec, over connections that
    break before a command arrives or after it was applied, as often as they
    like, the Takes admitted on a window number at most the limit minus what the
    counter stood at. *)
Theorem exact_limit_over_lossy_client cfg key limit calls (w : engine * list (list fate)) :
  limit < 2 ^ 53 -> Forall (call_ok (fun k w => count_of_key k w.1) key) calls ->
  Z.of_nat (admitted (exec_wire engine_apply cfg) key limit calls w) <= Z.max 0 (limit - count_of_key key w.1).
Proof. intros Hl Hc. exact (admitted_bound (exec_wire engine_apply cfg) (fun k w => count_of_key k w.1) key limit calls w Hl Hc). Qed.

Definition empty_engine : engine := mkEngine (fun _ => 0) (fun _ => false).

Definition wire_take : take_call (W := engine * list (list fate)) :=
  {| tc_others := fun w => w; tc_prev := bs "ip:0"; tc_ttl := 120; tc_weight := Fin (1 # 2) |}.

(** Five Takes with limit 3, the second INCR's reply lost once: it counts twice
    and only two are admitted. *)
Lemma exact_limit_over_lossy_client_witness :
  let w := (empty_engine, [[]; []; []; [ReplyLost]]) in
  admitted (exec_wire engine_apply default_config) (bs "ip:60") 3 (replicate 5 wire_take) w = 2%nat /\
  Z.of_nat (admitted (exec_wire engine_apply default_config) (bs "ip:60") 3 (replicate 5 wire_take) w) <= 3.
Proof.
  cbn zeta. split; [vm_compute; reflexivity|].
  apply (exact_limit_over_lossy_client default_config (bs "ip:60") 3 (replicate 5 wire_take) (empty_engine, [[]; []; []; [ReplyLost]])).
  - done.
  - repeat constructor; try (intros; cbn; lia).
    all: exists (1 # 2); split; [done|]; split; [split; [reflexivity|split; reflexivity]|split; discriminate].
Defined.

(** When the reply to a window's first INCR is lost, the retried one returns 2
    and [takeExact] never sends EXPIRE: the Take succeeds and the counter stays
    in Redis without an expiry. *)
Theorem lost_reply_leaves_no_expiry :
  let w := (empty_engine, [[ReplyLost]]) in
  let '(r, (e, _)) := takeExact (exec_wire engine_apply default_config) (bs "ip:60") (bs "ip:0") 120 (of_Z 1) 10 w in
  r = inl (true, of_Z 2) /\ counts e (bs "ip:60") = 2 /\ has_ttl e (bs "ip:60") = false.
Proof. vm_compute. split_and!; reflexivity. Qed.
