(* ===== verification/ProbeHTTP.v ===== *)
(** * ProbeHTTP: the Redis client behind HTTP ([e2e/simpleredisprobe/plugin.go])

    The probe plugin that maps each verb of the client to a path.  Module
    [Handler] is the plugin: [New], [ServeHTTP] and the handler of each verb, on
    two clients (the engine's, and one through the relay that drops replies), each
    with its group-write cache.  Below it, an engine with strings and expiries,
    behind the retrying client, shows what a caller of the plugin sees. *)

From Stdlib Require Import ZArith Lia List String.
From Stdlib Require Import Strings.Byte.
From stdpp Require Import base list option gmap.
From S2P Require Import Prelude.
From S2P Require Import Strconv.
From S2P Require Import Sha1.
From S2P Require Import Resp.
From S2P Require Import RespProofs.
From S2P Require Import RedisExec.
From S2P Require Import RedisExecProofs.
From S2P Require Import RedisVerbs.
From S2P Require Import RedisClient.
From S2P Require Import WindowClient.

Open Scope Z_scope.

(** ** What the plugin uses of strings and net/http *)

Definition b_slash : byte := x2f.

(** [strings.Split] and [strings.Join] on a separator of one byte. *)
Fixpoint Split (sep : byte) (s : bytes) : list bytes :=
  match s with
  | [] => [[]]
  | c :: s =>
      if decide (c = sep) then [] :: Split sep s
      else match Split sep s with [] => [[c]] | p :: ps => (c :: p) :: ps end
  end.

Fixpoint Join (sep : byte) (l : list bytes) : bytes :=
  match l with
  | [] => []
  | [p] => p
  | p :: l => p ++ sep :: Join sep l
  end.

Fixpoint trim_left (c : byte) (s : bytes) : bytes :=
  match s with b :: r => if decide (b = c) then trim_left c r else s | [] => [] end.

(** [strings.Trim] with a cutset of one byte. *)
Definition Trim (c : byte) (s : bytes) : bytes := rev (trim_left c (rev (trim_left c s))).

(** A request: the path, the query's pairs in order, what the body delivers and
    the error that ends it instead of EOF. *)
Record request := { url_path : bytes; query : list (bytes * bytes); body : bytes; body_err : option bytes }.

(** [q[name]] and [q.Get(name)] *)
Definition q_all (q : list (bytes * bytes)) (name : bytes) : list bytes := (filter (fun p => p.1 = name) q).*2.
Definition q_Get (q : list (bytes * bytes)) (name : bytes) : bytes := hd [] (q_all q name).

Record response := { status : Z; payload : bytes }.

(** [http.Error], [http.NotFound] *)
Definition http_Error (msg : bytes) (code : Z) : response := {| status := code; payload := msg ++ [b_lf] |}.
Definition NotFound : response := http_Error (bs "404 page not found") 404.

Definition BadRequest (msg : bytes) : response := http_Error msg 400.
Definition BadGateway (e : goerr) : response := http_Error (err_text e) 502.

Module Handler.

Definition maxBodyBytes : Z := 2 ^ 20.

(** [requestPathCase] *)
Definition requestPathCase (path : bytes) : bytes :=
  let trimmed := Trim b_slash path in
  if decide (trimmed = []) then []
  else match Split b_slash trimmed with
       | [_] => bs "health"
       | [_; case] => case
       | _ => []
       end.

(** [requestKeyPrefix] at [nanos]. *)
Definition requestKeyPrefix (nanos : Z) : bytes := bs "srp:" ++ FormatInt nanos.

(** [writeOK] *)
Definition writeOK (b : bytes) : response := {| status := 200; payload := b |}.

(** [firstKey], [parseInt64Query], [bodyValues]: a value or the 400 written. *)
Definition firstKey (keys : list bytes) : bytes + response :=
  match keys with
  | k :: _ => if decide (k = []) then inr (BadRequest (bs "key required")) else inl k
  | [] => inr (BadRequest (bs "key required"))
  end.

Definition parseInt64Query (name raw : bytes) : Z + response :=
  if decide (raw = []) then inr (BadRequest (name ++ bs " required"))
  else match ParseInt raw with Some n => inl n | None => inr (BadRequest (name ++ bs " invalid")) end.

Definition bodyValues (keys : list bytes) (body : bytes) : list bytes + response :=
  match keys with
  | [] => inr (BadRequest (bs "key required"))
  | [_] => inl [body]
  | _ => let parts := Split b_lf body in
         if (length parts =? length keys)%nat then inl parts else inr (BadRequest (bs "value count"))
  end.

(** [io.ReadAll] of the body through a [LimitReader] of [maxBodyBytes+1]; the
    body's error is seen when the limit is not reached first. *)
Definition readBody (r : request) : bytes + bytes :=
  match body_err r with
  | Some e => if Z.of_nat (length (body r)) <=? maxBodyBytes then inr e else inl (take (Z.to_nat (maxBodyBytes + 1)) (body r))
  | None => inl (take (Z.to_nat (maxBodyBytes + 1)) (body r))
  end.

Section Verbs.
Context {W : Type} (exec : list bytes -> W -> exec_result * W).

(** The answer to a verb that only reports an error, and to a verb with a
    result. *)
Definition answer_err (r : option goerr * W) : response * W :=
  (match r.1 with Some e => BadGateway e | None => writeOK [] end, r.2).
Definition answer {A} (text : A -> bytes) (r : (A + goerr) * W) : response * W :=
  (match r.1 with inr e => BadGateway e | inl a => writeOK (text a) end, r.2).

Definition serveGet (keys : list bytes) (w : W) : response * W :=
  match firstKey keys with
  | inr e => (e, w)
  | inl name => answer id (Get exec name w)
  end.

Definition serveMGet (keys : list bytes) (w : W) : response * W :=
  answer (fun slots => Join b_lf (slot_text <$> slots)) (MGet exec keys w).

Definition serveSet (keys : list bytes) (ex body : bytes) (w : W) : response * W :=
  match firstKey keys with
  | inr e => (e, w)
  | inl name => match parseInt64Query (bs "ex") ex with
                | inr e => (e, w)
                | inl seconds => answer_err (Set_ exec name body seconds w)
                end
  end.

Definition serveDel (keys : list bytes) (w : W) : response * W :=
  match firstKey keys with
  | inr e => (e, w)
  | inl name => answer_err (Del exec name w)
  end.

Definition serveIncr (keys : list bytes) (w : W) : response * W :=
  match firstKey keys with
  | inr e => (e, w)
  | inl name => answer FormatInt (Incr exec name w)
  end.

Definition serveIncrBy (keys : list bytes) (delta : bytes) (w : W) : response * W :=
  match firstKey keys with
  | inr e => (e, w)
  | inl name => match parseInt64Query (bs "delta") delta with
                | inr e => (e, w)
                | inl n => answer FormatInt (IncrBy exec name n w)
                end
  end.

Definition serveExpire (keys : list bytes) (ex : bytes) (w : W) : response * W :=
  match firstKey keys with
  | inr e => (e, w)
  | inl name => match parseInt64Query (bs "ex") ex with
                | inr e => (e, w)
                | inl seconds => answer_err (Expire exec name seconds w)
                end
  end.

Definition serveExpireAt (keys : list bytes) (at_ : bytes) (w : W) : response * W :=
  match firstKey keys with
  | inr e => (e, w)
  | inl name => match parseInt64Query (bs "at") at_ with
                | inr e => (e, w)
                | inl unixSeconds => answer_err (ExpireAt exec name unixSeconds w)
                end
  end.

Definition serveEval (keys args : list bytes) (digest body : bytes) (w : W) : response * W :=
  if decide (digest = []) then (BadRequest (bs "digest required"), w)
  else let '((values, err), w) := Eval exec body digest keys args w in
       (match err with Some e => BadGateway e | None => writeOK (Join b_lf (slot_text <$> values)) end, w).

Definition serveMSetEX (keys : list bytes) (ex body : bytes) (gw : groupWritePath) (w : W) : response * groupWritePath * W :=
  match parseInt64Query (bs "ex") ex with
  | inr e => (e, gw, w)
  | inl seconds => match bodyValues keys body with
                   | inr e => (e, gw, w)
                   | inl values => let '(err, gw, w) := MSetEX exec keys values seconds gw w in
                                   let '(r, w) := answer_err (err, w) in (r, gw, w)
                   end
  end.

Definition serveMSetEXAt (keys : list bytes) (at_ body : bytes) (gw : groupWritePath) (w : W) : response * groupWritePath * W :=
  match parseInt64Query (bs "at") at_ with
  | inr e => (e, gw, w)
  | inl unixSeconds => match bodyValues keys body with
                       | inr e => (e, gw, w)
                       | inl values => let '(err, gw, w) := MSetEXAt exec keys values unixSeconds gw w in
                                       let '(r, w) := answer_err (err, w) in (r, gw, w)
                       end
  end.

(** [serveHealth] at [nanos]. *)
Definition serveHealth (nanos : Z) (w : W) : response * W :=
  let prefix := requestKeyPrefix nanos in
  let setKey := prefix ++ bs ":set" in
  let '(err, w) := Set_ exec setKey prefix 60 w in
  match err with
  | Some e => (BadGateway e, w)
  | None => answer id (Get exec setKey w)
  end.

(** The switch of [ServeHTTP] on one client. *)
Definition serveVerb (pathCase : bytes) (q : list (bytes * bytes)) (body : bytes) (gw : groupWritePath) (w : W)
    : response * groupWritePath * W :=
  let keys := q_all q (bs "key") in
  let args := q_all q (bs "arg") in
  let plain (r : response * W) := (r.1, gw, r.2) in
  if decide (pathCase = bs "get") then plain (serveGet keys w)
  else if decide (pathCase = bs "mget") then plain (serveMGet keys w)
  else if decide (pathCase = bs "set") then plain (serveSet keys (q_Get q (bs "ex")) body w)
  else if decide (pathCase = bs "del") then plain (serveDel keys w)
  else if decide (pathCase = bs "incr") then plain (serveIncr keys w)
  else if decide (pathCase = bs "incrby") then plain (serveIncrBy keys (q_Get q (bs "delta")) w)
  else if decide (pathCase = bs "expire") then plain (serveExpire keys (q_Get q (bs "ex")) w)
  else if decide (pathCase = bs "expireat") then plain (serveExpireAt keys (q_Get q (bs "at")) w)
  else if decide (pathCase = bs "eval") then plain (serveEval keys args (q_Get q (bs "digest")) body w)
  else if decide (pathCase = bs "msetex") then serveMSetEX keys (q_Get q (bs "ex")) body gw w
  else if decide (pathCase = bs "msetexat") then serveMSetEXAt keys (q_Get q (bs "at")) body gw w
  else (NotFound, gw, w).

End Verbs.

(** [middleware]: the group-write cache of each client; [None] is a dropClient
    that was not built. *)
Record middleware := { client : groupWritePath; dropClient : option groupWritePath }.

(** [commandClient]: whether the drop client serves; [inr] is its absence. *)
Definition commandClient (m : middleware) (q : list (bytes * bytes)) : bool + bytes :=
  if decide (q_Get q (bs "drop") = []) then inl false
  else match dropClient m with None => inr (bs "dropHost unset") | Some _ => inl true end.

Section Serve.
Context {W : Type} (exec : bool -> list bytes -> W -> exec_result * W) (nanos : Z).

(** [ServeHTTP]; [exec] says which client sends. *)
Definition ServeHTTP (r : request) (m : middleware) (w : W) : response * middleware * W :=
  let pathCase := requestPathCase (url_path r) in
  if decide (pathCase = []) then (NotFound, m, w)
  else if decide (pathCase = bs "health") then
    let '(resp, w) := serveHealth (exec false) nanos w in (resp, m, w)
  else match commandClient m (query r) with
  | inr e => (http_Error e 502, m, w)
  | inl drop =>
      match readBody r with
      | inr e => (BadRequest e, m, w)
      | inl body =>
          if maxBodyBytes <? Z.of_nat (length body) then (BadRequest (bs "body too large"), m, w)
          else
            let gw := if drop then default groupWriteUnknown (dropClient m) else client m in
            let '(resp, gw, w) := serveVerb (exec drop) pathCase (query r) body gw w in
            (resp, (if drop then {| client := client m; dropClient := Some gw |}
                    else {| client := gw; dropClient := dropClient m |}), w)
      end
  end.

End Serve.

(** [Config] and [CreateConfig] of the plugin. *)
Record pluginConfig := { Host : bytes; Password : bytes; Database : bytes; DropHost : bytes }.
Definition defaultHost : bytes := bs "redis:6379".
Definition CreateConfig : pluginConfig := {| Host := defaultHost; Password := []; Database := []; DropHost := [] |}.

(** The client's Config of the plugin: only the command timeout is set. *)
Definition clientConfig : Config :=
  {| RedisExec.PoolSize := 0; RedisExec.MaxIdleConns := 0; RedisExec.PoolTimeout := 0; RedisExec.IdleTimeout := 0;
     RedisExec.DialTimeout := 0; RedisExec.CommandTimeout := 3 * Second; RedisExec.MaxRetries := 0;
     RedisExec.MinRetryBackoff := 0; RedisExec.MaxRetryBackoff := 0 |}.

(** [New]: the clients it builds; [inr None] is the missing next handler,
    [inr (Some tt)] an error of the client's New, [None] one that blocks. *)
Definition New (next : bool) (cfg : option pluginConfig) : option ((SimpleRedis * option SimpleRedis) + option unit) :=
  if negb next then Some (inr None)
  else
    let cfg := default CreateConfig cfg in
    let host := if decide (Host cfg = []) then defaultHost else Host cfg in
    match RedisClient.New host (Password cfg) (Database cfg) clientConfig with
    | None => None
    | Some (inr e) => Some (inr (Some e))
    | Some (inl client) =>
        if decide (DropHost cfg = []) then Some (inl (client, None))
        else match RedisClient.New (DropHost cfg) [] [] clientConfig with
             | None => None
             | Some (inr e) => Some (inr (Some e))
             | Some (inl dropClient) => Some (inl (client, Some dropClient))
             end
    end.

(** The state [ServeHTTP] starts from. *)
Definition start (c : SimpleRedis * option SimpleRedis) : middleware :=
  {| client := groupWrite c.1; dropClient := groupWrite <$> c.2 |}.

End Handler.

Import Handler.

(** ** Every answer *)

Definition refused (r : response) : Prop := status r = 400 \/ status r = 404.
Definition served (r : response) : Prop := status r = 200 \/ status r = 502.

Section Answers.
Context {W : Type} (exec : list bytes -> W -> exec_result * W).

(** A response that was refused comes with the state it started from. *)
Definition untouched {S : Type} (x : S) (r : response * S) : Prop := served r.1 \/ refused r.1 /\ r.2 = x.

Lemma answer_served {A} text (r : (A + goerr) * W) w : untouched w (answer text r).
Proof. left. unfold answer, served. destruct r as [[a|e] w']; cbn; auto. Qed.

Lemma answer_err_served (r : option goerr * W) w : untouched w (answer_err r).
Proof. left. unfold answer_err, served. destruct r as [[e|] w']; cbn; auto. Qed.

Lemma firstKey_refuses keys e : firstKey keys = inr e -> refused e.
Proof. unfold firstKey. intros H. repeat case_match; simplify_eq; by left. Qed.

Lemma parseInt64Query_refuses name raw e : parseInt64Query name raw = inr e -> refused e.
Proof. unfold parseInt64Query. intros H. repeat case_match; simplify_eq; by left. Qed.

Lemma bodyValues_refuses keys b e : bodyValues keys b = inr e -> refused e.
Proof. unfold bodyValues. intros H. repeat case_match; simplify_eq; by left. Qed.

Ltac refuse :=
  repeat match goal with
  | |- context [match firstKey ?k with _ => _ end] => let E := fresh in destruct (firstKey k) eqn:E; [|right; split; [by eapply firstKey_refuses|done]]
  | |- context [match parseInt64Query ?n ?k with _ => _ end] =>
      let E := fresh in destruct (parseInt64Query n k) eqn:E; [|right; split; [by eapply parseInt64Query_refuses|done]]
  | |- context [match bodyValues ?n ?k with _ => _ end] =>
      let E := fresh in destruct (bodyValues n k) eqn:E; [|right; split; [by eapply bodyValues_refuses|done]]
  end.

Lemma serveVerb_untouched case q b gw w :
  let '(r, gw', w') := serveVerb exec case q b gw w in untouched (gw, w) (r, (gw', w')).
Proof.
  assert (P : forall x : response * W, untouched w x -> untouched (gw, w) (x.1, (gw, x.2))).
  { intros [r w'] [H|[H1 H2]]; [by left|right]. cbn in *. by subst. }
  unfold serveVerb. repeat (case_decide; [try (apply P)|]).
  - unfold serveGet. refuse. apply answer_served.
  - apply answer_served.
  - unfold serveSet. refuse. apply answer_err_served.
  - unfold serveDel. refuse. apply answer_err_served.
  - unfold serveIncr. refuse. apply answer_served.
  - unfold serveIncrBy. refuse. apply answer_served.
  - unfold serveExpire. refuse. apply answer_err_served.
  - unfold serveExpireAt. refuse. apply answer_err_served.
  - unfold serveEval. case_decide; [by right; split; [left|]|]. destruct (Eval _ _ _ _ _ _) as [[vs [e|]] w']; left; unfold served; cbn; auto.
  - unfold serveMSetEX. refuse. destruct (MSetEX _ _ _ _ _ _) as [[[e|] gw'] w']; left; unfold served; cbn; auto.
  - unfold serveMSetEXAt. refuse. destruct (MSetEXAt _ _ _ _ _ _) as [[[e|] gw'] w']; left; unfold served; cbn; auto.
  - right. by split; [right|].
Qed.

End Answers.

(** C28: the probe answers every request with 200, 400, 404 or 502, and a request
    it refuses with 400 or 404 sends nothing to Redis and changes no client. *)
Theorem refused_sends_nothing {W} (exec : bool -> list bytes -> W -> exec_result * W) nanos r m w :
  let '(resp, m', w') := ServeHTTP exec nanos r m w in
  served resp \/ refused resp /\ m' = m /\ w' = w.
Proof.
  unfold ServeHTTP. case_decide; [by right; split; [right|]|]. case_decide.
  { unfold serveHealth. destruct (Set_ _ _ _ _ _) as [[e|] w1]; [left; right; done|]. unfold answer. destruct (Get _ _ _) as [[v|e] w2]; left; cbn; [by left|by right]. }
  unfold commandClient. case_decide as Hq; [|destruct (dropClient m) as [gd|] eqn:Ed; [|left; by right]].
  all: destruct (readBody r) as [b|e]; [|by right; split; [left|]]; destruct (_ <? _); [by right; split; [left|]|]; cbn [default].
  - pose proof (serveVerb_untouched (exec false) (requestPathCase (url_path r)) (query r) b (client m) w) as H1.
    destruct (serveVerb _ _ _ _ _ _) as [[resp gw'] w']. destruct H1 as [H1|[H1 H2]]; [by left|right]. cbn [fst snd] in *. simplify_eq. by destruct m.
  - pose proof (serveVerb_untouched (exec true) (requestPathCase (url_path r)) (query r) b gd w) as H1. cbn [from_option id].
    destruct (serveVerb _ _ _ _ _ _) as [[resp gw'] w']. destruct H1 as [H1|[H1 H2]]; [by left|right]. cbn [fst snd] in *. simplify_eq.
    rewrite <- Ed. by destruct m.
Qed.

(** ** Split and Join *)

Lemma Split_not_nil sep s : Split sep s <> [].
Proof. destruct s as [|c s]; [done|]. cbn. case_decide; [done|]. by destruct (Split sep s). Qed.

Lemma Join_cons sep p l : l <> [] -> Join sep (p :: l) = p ++ sep :: Join sep l.
Proof. by destruct l. Qed.

Lemma Join_Split sep s : Join sep (Split sep s) = s.
Proof.
  induction s as [|c s IH]; [done|]. cbn [Split]. case_decide as Hc; [rewrite Join_cons by apply Split_not_nil; by rewrite IH, Hc|].
  destruct (Split sep s) as [|p [|p' ps]] eqn:E; [by apply Split_not_nil in E|..].
  - cbn in *. by subst.
  - rewrite Join_cons in * by done. cbn [app]. by rewrite IH.
Qed.

Lemma Split_lengths sep s : Forall (fun p => (length p <= length s)%nat) (Split sep s).
Proof.
  induction s as [|c s IH]; [by repeat constructor|]. cbn [Split]. case_decide.
  - constructor; [cbn; lia|]. eapply Forall_impl; [exact IH|]. cbn. lia.
  - destruct (Split sep s) as [|p ps] eqn:E; [by apply Split_not_nil in E|]. inversion IH; subst. constructor; [cbn; lia|].
    eapply Forall_impl; [eassumption|]. cbn. lia.
Qed.

(** ** An engine with strings

    An example engine that answers SET, MGET, MSETEX, EVAL and EVALSHA as Redis
    documents them. *)

(** Values with the second they expire at, the clock, and the digests of the
    scripts EVAL has run; [native] says whether the engine knows MSETEX. *)
Record kv := mkKv { strings : gmap bytes (bytes * Z); clock : Z; scripts : list bytes }.

Definition look (e : kv) (k : bytes) : option bytes :=
  strings e !! k ≫= (fun '(v, t) => if t <=? clock e then None else Some v).

Definition eInvalid : rvalue := VError (bs "ERR invalid expire time").
Definition eSyntax : rvalue := VError (bs "ERR syntax error").
Definition eUnknown : rvalue := VError (bs "ERR unknown command").

(** The second EX or EXAT stands for; a time that is not positive or does not fit
    is refused. *)
Definition expiry (token ttl : bytes) (e : kv) : Z + rvalue :=
  match ParseInt ttl with
  | None => inr (VError (bs "ERR value is not an integer or out of range"))
  | Some n =>
      if (n <=? 0) || (int64_max / 1000 <? n) then inr eInvalid
      else if decide (token = bs "EX") then
        if int64_max / 1000 <? clock e + n then inr eInvalid else inl (clock e + n)
      else if decide (token = bs "EXAT") then inl n
      else inr eSyntax
  end.

Definition put_string (k v : bytes) (t : Z) (e : kv) : kv := mkKv (<[k := (v, t)]> (strings e)) (clock e) (scripts e).

(** SET with an expiry. *)
Definition set_cmd (k v token ttl : bytes) (e : kv) : kv * rvalue :=
  match expiry token ttl e with
  | inr err => (e, err)
  | inl t => (put_string k v t e, VElem (EStatus (bs "OK")))
  end.

Fixpoint pairs_of (l : list bytes) : list (bytes * bytes) :=
  match l with k :: v :: l => (k, v) :: pairs_of l | _ => [] end.

Definition put_all (t : Z) (l : list (bytes * bytes)) (e : kv) : kv := fold_left (fun e '(k, v) => put_string k v t e) l e.

(** MSETEX numkeys key value ... EX|EXAT time. *)
Definition msetex_cmd (rest : list bytes) (e : kv) : kv * rvalue :=
  match rest with
  | nk :: rest =>
      match ParseInt nk with
      | Some n =>
          match drop (2 * Z.to_nat n) rest with
          | [token; ttl] => match expiry token ttl e with
                            | inr err => (e, err)
                            | inl t => (put_all t (pairs_of (take (2 * Z.to_nat n) rest)) e, VElem (EInt 1))
                            end
          | _ => (e, eSyntax)
          end
      | None => (e, eSyntax)
      end
  | [] => (e, eSyntax)
  end.

(** The SETs a script calls, up to the first one that fails. *)
Fixpoint run_sets (calls : list (list bytes)) (result : Z) (e : kv) : kv * rvalue :=
  match calls with
  | [] => (e, VElem (EInt result))
  | [_; k; v; token; ttl] :: calls =>
      match set_cmd k v token ttl e with
      | (e, VError err) => (e, VError err)
      | (e, _) => run_sets calls result e
      end
  | _ :: _ => (e, eSyntax)
  end.

Definition run_script (x : bytes) (KEYS ARGV : list bytes) (e : kv) : kv * rvalue :=
  if decide (x = msetexFallbackScript) then
    match run_msetexFallbackScript KEYS ARGV with
    | Some (calls, result) => run_sets calls result e
    | None => (e, VError (bs "ERR Lua redis lib command arguments must be strings or integers"))
    end
  else (e, VError (bs "ERR Error running script")).

(** EVALSHA or EVAL: script or digest, numkeys, keys, arguments. *)
Definition eval_cmd (sha : bool) (rest : list bytes) (e : kv) : kv * rvalue :=
  match rest with
  | x :: nk :: rest =>
      match ParseInt nk with
      | Some n =>
          let KEYS := take (Z.to_nat n) rest in
          let ARGV := drop (Z.to_nat n) rest in
          if sha then
            if decide (x ∈ scripts e) then
              if decide (x = msetexFallbackDigest) then run_script msetexFallbackScript KEYS ARGV e else run_script [] KEYS ARGV e
            else (e, VError (bs "NOSCRIPT No matching script. Please use EVAL."))
          else run_script x KEYS ARGV (mkKv (strings e) (clock e) (ScriptSHA1Hex x :: scripts e))
      | None => (e, eSyntax)
      end
  | _ => (e, eSyntax)
  end.

#[global] Instance elem_ok_decision x : Decision (elem_ok x).
Proof. destruct x as [[d|]|n|s]; cbn [elem_ok]; unfold line_ok, in_int64; apply _. Defined.

#[global] Instance value_ok_decision v : Decision (value_ok v).
Proof. destruct v as [x|s|l]; cbn [value_ok]; unfold line_ok; apply _. Defined.

Section Engine.
Context (native : bool).

Definition kv_command (argv : list bytes) (e : kv) : kv * rvalue :=
  match argv with
  | verb :: rest =>
      if decide (verb = bs "GET") then match rest with [k] => (e, VElem (EBulk (look e k))) | _ => (e, eSyntax) end
      else if decide (verb = bs "MGET") then (e, VArray ((fun k => EBulk (look e k)) <$> rest))
      else if decide (verb = bs "SET") then
        match rest with [k; v; token; ttl] => set_cmd k v token ttl e | _ => (e, eSyntax) end
      else if decide (verb = bs "MSETEX") then if native then msetex_cmd rest e else (e, eUnknown)
      else if decide (verb = bs "EVALSHA") then eval_cmd true rest e
      else if decide (verb = bs "EVAL") then eval_cmd false rest e
      else (e, eUnknown)
  | [] => (e, eSyntax)
  end.

(** The engine; a reply beyond the client's caps becomes an error. *)
Definition kv_apply (argv : list bytes) (e : kv) : kv * rvalue :=
  let '(e, v) := kv_command argv e in
  (e, if decide (value_ok v) then v else VError (bs "ERR reply too large")).

Lemma kv_apply_ok argv e : value_ok (kv_apply argv e).2.
Proof. unfold kv_apply. destruct (kv_command argv e) as [e' v]. cbn [snd]. case_decide; [done|]. apply error_ok; [reflexivity|vm_compute; lia]. Qed.

Context (cfg : Config).
Abbreviation exec_kv := (exec_wire kv_apply cfg).

(** A command whose answer is within the caps, over the client. *)
Lemma exec_kv_answers argv e fss e' v :
  kv_command argv e = (e', v) -> value_ok v -> final v -> delivers cfg fss ->
  exec_kv argv (e, fss) = ((values (decode v), rerror (decode v)), (e', tl fss)).
Proof.
  intros Hc Hv Hf Hd. assert (E : kv_apply argv e = (e', v)) by (unfold kv_apply; rewrite Hc; by rewrite decide_True).
  rewrite (exec_wire_delivers kv_apply cfg kv_apply_ok); rewrite ?E; done.
Qed.

Lemma clock_put_all t l e : clock (put_all t l e) = clock e.
Proof. revert e. induction l as [|[k v] l IH]; intros e; [done|]. exact (IH (put_string k v t e)). Qed.

Lemma expiry_clock token ttl e e' : clock e' = clock e -> expiry token ttl e' = expiry token ttl e.
Proof. intros H. unfold expiry. by rewrite H. Qed.

Lemma pairs_of_flat (l : list (bytes * bytes)) : pairs_of (flat_map (fun '(k, v) => [k; v]) l) = l.
Proof. induction l as [|[k v] l IH]; [done|]. cbn. by rewrite IH. Qed.

Lemma length_flat_pairs (l : list (bytes * bytes)) : length (flat_map (fun '(k, v) => [k; v]) l) = (2 * length l)%nat.
Proof. induction l as [|[k v] l IH]; [done|]. cbn [flat_map app length]. rewrite IH. cbn [length]. lia. Qed.

Lemma run_sets_all token ttl t l e :
  expiry token ttl e = inl t ->
  run_sets (map (fun '(k, v) => [bs "SET"; k; v; token; ttl]) l) 1 e = (put_all t l e, VElem (EInt 1)).
Proof.
  revert e. induction l as [|[k v] l IH]; intros e He; [done|]. cbn [map run_sets]. unfold set_cmd. rewrite He.
  apply (IH (put_string k v t e)). rewrite <- He. by apply expiry_clock.
Qed.

(** What a group write leaves: the strings of [put_all], the clock unchanged. *)
Definition wrote (t : Z) (l : list (bytes * bytes)) (e e' : kv) : Prop :=
  strings e' = strings (put_all t l e) /\ clock e' = clock e.

Lemma wrote_scripts t l e sc : wrote t l e (put_all t l (mkKv (strings e) (clock e) sc)).
Proof.
  split; [|by rewrite clock_put_all]. revert e sc. induction l as [|[k v] l IH]; intros e sc; [done|].
  exact (IH (put_string k v t e) sc).
Qed.

Lemma one_ok : value_ok (VElem (EInt 1)).
Proof. split; vm_compute; discriminate. Qed.

Section Group.
Context (keys vals : list bytes) (token : bytes) (ttl t : Z).
Hypothesis Hlen : length keys = length vals.
Hypothesis Hmax : (1 <= length keys <= maxMSetEXPairs)%nat.

Lemma keys_int64 : in_int64 (Z.of_nat (length keys)).
Proof. unfold in_int64, int64_min, int64_max, maxMSetEXPairs in *. lia. Qed.

Lemma msetex_native e :
  native = true -> expiry token (FormatInt ttl) e = inl t ->
  kv_command (msetexArgs keys vals token ttl) e = (put_all t (combine keys vals) e, VElem (EInt 1)).
Proof.
  intros Hn He.
  change (kv_command (msetexArgs keys vals token ttl) e) with (if native then msetex_cmd (tail (msetexArgs keys vals token ttl)) e else (e, eUnknown)).
  rewrite Hn. unfold msetexArgs, msetex_cmd. cbn [app tail].
  rewrite (ParseInt_FormatInt _ keys_int64), Nat2Z.id.
  assert (L : length (flat_map (fun '(name, v) => [name; v]) (combine keys vals)) = (2 * length keys)%nat)
    by (rewrite length_flat_pairs, length_combine; lia).
  rewrite <- L, drop_app_length, He, take_app_length, pairs_of_flat. done.
Qed.

Lemma script_writes e : expiry token (FormatInt ttl) e = inl t ->
  run_script msetexFallbackScript keys (msetexArgv vals token ttl) e = (put_all t (combine keys vals) e, VElem (EInt 1)).
Proof.
  intros He. unfold run_script. rewrite decide_True by done.
  rewrite (proj1 (msetex_fallback_sets_pairs keys vals token ttl Hlen)). by apply run_sets_all.
Qed.

Lemma msetexEval_writes e fss :
  expiry token (FormatInt ttl) e = inl t -> delivers cfg fss ->
  exists e' fss', msetexEval exec_kv keys vals token ttl (e, fss) = (None, (e', fss')) /\ wrote t (combine keys vals) e e' /\ delivers cfg fss'.
Proof.
  intros He Hd. unfold msetexEval, Eval.
  assert (C : forall b rest, kv_command (evalArgv (if b : bool then bs "EVALSHA" else bs "EVAL") rest keys (msetexArgv vals token ttl)) e =
    eval_cmd b (rest :: FormatInt (Z.of_nat (length keys)) :: keys ++ msetexArgv vals token ttl) e) by (by intros [] rest).
  unfold eval_cmd in C. rewrite (ParseInt_FormatInt _ keys_int64), Nat2Z.id, take_app_length, drop_app_length in C.
  destruct (decide (msetexFallbackDigest ∈ scripts e)) as [Hs|Hs].
  - specialize (C true msetexFallbackDigest). cbn beta iota zeta in C. rewrite !decide_True, (script_writes e He) in C by done.
    rewrite (exec_kv_answers _ _ _ _ _ C one_ok Logic.I Hd). eexists _, _. split; [reflexivity|]. split; [|by apply delivers_tl].
    apply (wrote_scripts t _ e (scripts e)) || by (destruct e; apply wrote_scripts).
  - pose proof (C true msetexFallbackDigest) as C1. cbn beta iota zeta in C1. rewrite decide_False in C1 by done.
    assert (V : value_ok (VError (bs "NOSCRIPT No matching script. Please use EVAL."))) by (apply error_ok; [reflexivity|vm_compute; lia]).
    rewrite (exec_kv_answers _ _ _ _ _ C1 V eq_refl Hd). clear C1.
    specialize (C false msetexFallbackScript). cbn beta iota zeta in C. rewrite script_writes in C by (by rewrite <- He; apply expiry_clock).
    cbn [decode values rerror noScript]. change (HasPrefix _ _) with true. cbn beta iota.
    rewrite (exec_kv_answers _ _ _ _ _ C one_ok Logic.I) by (by apply delivers_tl). eexists _, _. split; [reflexivity|].
    split; [apply wrote_scripts|by do 2 apply delivers_tl].
Qed.

Lemma msetex_writes e fss gw :
  expiry token (FormatInt ttl) e = inl t -> delivers cfg fss ->
  exists gw' e' fss', msetex exec_kv keys vals token ttl gw (e, fss) = (None, gw', (e', fss')) /\
    wrote t (combine keys vals) e e' /\ delivers cfg fss'.
Proof.
  intros He Hd. unfold msetex.
  assert (G : (length keys =? 0)%nat || negb (length keys =? length vals)%nat || (maxMSetEXPairs <? length keys)%nat = false).
  { rewrite Hlen, Nat.eqb_refl. rewrite <- Hlen. destruct (Nat.eqb_spec (length keys) 0), (Nat.ltb_spec maxMSetEXPairs (length keys)); (done || lia). }
  rewrite G.
  assert (Lua : forall gw0, exists e' fss', (let '(err, w) := msetexEval exec_kv keys vals token ttl (e, fss) in (err, gw0 : groupWritePath, w)) =
    (None, gw0, (e', fss')) /\ wrote t (combine keys vals) e e' /\ delivers cfg fss').
  { intros gw0. destruct (msetexEval_writes e fss He Hd) as (e' & fss' & -> & H). by exists e', fss'. }
  destruct gw; [| |destruct (Lua groupWriteLua) as (e' & fss' & H); by exists groupWriteLua, e', fss'].
  all: destruct native eqn:Hn.
  1,3: rewrite (exec_kv_answers _ _ _ _ _ (msetex_native e Hn He) one_ok Logic.I Hd); eexists _, _, _; split; [reflexivity|];
    split; [|by apply delivers_tl]; by destruct e; apply wrote_scripts.
  all: assert (C : kv_command (msetexArgs keys vals token ttl) e = (e, eUnknown)) by (unfold kv_command, msetexArgs; rewrite Hn; reflexivity).
  all: rewrite (exec_kv_answers _ _ _ _ _ C ltac:(apply error_ok; [reflexivity|vm_compute; lia]) eq_refl Hd).
  all: change (unknownCommand _) with true; cbn beta iota zeta.
  all: destruct (msetexEval_writes e (tl fss) He ltac:(by apply delivers_tl)) as (e' & fss' & -> & H); by exists groupWriteLua, e', fss'.
Qed.

End Group.
End Engine.

(** ** Writing and reading a group over HTTP *)

Lemma put_all_other t l e k : k ∉ l.*1 -> strings (put_all t l e) !! k = strings e !! k.
Proof.
  revert e. induction l as [|[k' v'] l IH]; intros e Hk; [done|]. cbn in Hk. apply not_elem_of_cons in Hk as [H1 H2].
  change (put_all t ((k', v') :: l) e) with (put_all t l (put_string k' v' t e)). rewrite IH by done. cbn. by rewrite lookup_insert_ne.
Qed.

Lemma put_all_key t l e i k v : NoDup l.*1 -> l !! i = Some (k, v) -> strings (put_all t l e) !! k = Some (v, t).
Proof.
  revert e i. induction l as [|[k' v'] l IH]; intros e i Hnd Hi; [done|]. cbn in Hnd. apply NoDup_cons in Hnd as [Hk Hnd].
  change (put_all t ((k', v') :: l) e) with (put_all t l (put_string k' v' t e)). destruct i as [|i]; cbn in Hi; [|by eapply IH].
  simplify_eq. rewrite put_all_other by done. cbn. apply lookup_insert_eq.
Qed.

Lemma fst_combine {A B} (l : list A) (l' : list B) : length l = length l' -> (combine l l').*1 = l.
Proof. revert l'. induction l as [|a l IH]; intros [|b l'] H; try done. cbn in *. by rewrite IH by lia. Qed.

(** What [look] sees of a group once the clock has moved to [now']. *)
Lemma look_wrote keys vals t e e' now' :
  NoDup keys -> length keys = length vals -> wrote t (combine keys vals) e e' ->
  look (mkKv (strings e') now' (scripts e')) <$> keys = (fun v => if t <=? now' then None else Some v) <$> vals.
Proof.
  intros Hnd Hl [Hs _]. apply list_eq. intros i. rewrite !list_lookup_fmap.
  destruct (keys !! i) as [k|] eqn:Hk; cbn.
  - destruct (lookup_lt_is_Some_2 vals i) as [v Hv]; [rewrite <- Hl; by eapply lookup_lt_Some|]. rewrite Hv. cbn. f_equal.
    unfold look. cbn [strings clock]. rewrite Hs, (put_all_key t _ e i k v); [done|by rewrite fst_combine|].
    clear -Hk Hv. revert i vals Hk Hv. induction keys as [|a keys IH]; intros [|i] [|b vals]; cbn; intros; simplify_eq; auto.
  - apply lookup_ge_None in Hk. rewrite (proj2 (lookup_ge_None vals i)) by lia. done.
Qed.

(** A body that [keys] can be written from: one value, or one line per key. *)
Definition one_line_each (keys : list bytes) (body : bytes) : Prop :=
  length keys = 1%nat \/ length (Split b_lf body) = length keys.

Lemma bodyValues_lines keys b :
  (1 <= length keys)%nat -> one_line_each keys b ->
  exists vals, bodyValues keys b = inl vals /\ length keys = length vals /\ Join b_lf vals = b /\ Forall (fun v => (length v <= length b)%nat) vals.
Proof.
  intros Hk Hb. unfold bodyValues. destruct keys as [|k [|k' keys]]; cbn in Hk; [lia|..].
  - exists [b]. split_and!; try done. by repeat constructor.
  - destruct Hb as [Hb|Hb]; [done|]. rewrite Hb, Nat.eqb_refl. exists (Split b_lf b). split_and!; [done..|apply Join_Split|apply Split_lengths].
Qed.

(** Requests of the two kinds, on the engine's client. *)
Definition group_write (keys : list bytes) (ex b : bytes) (r : request) : Prop :=
  requestPathCase (url_path r) = bs "msetex" /\ q_all (query r) (bs "key") = keys /\ q_Get (query r) (bs "ex") = ex /\
  q_Get (query r) (bs "drop") = [] /\ body r = b /\ body_err r = None.
Definition group_read (keys : list bytes) (r : request) : Prop :=
  requestPathCase (url_path r) = bs "mget" /\ q_all (query r) (bs "key") = keys /\ q_Get (query r) (bs "drop") = [] /\
  body r = [] /\ body_err r = None.

(** A request on the engine's client whose body is within the limit. *)
Lemma serve_engine {W} (exec : bool -> list bytes -> W -> exec_result * W) nanos r m w case :
  requestPathCase (url_path r) = case -> case <> [] -> case <> bs "health" -> q_Get (query r) (bs "drop") = [] -> body_err r = None ->
  Z.of_nat (length (body r)) <= maxBodyBytes ->
  ServeHTTP exec nanos r m w =
    let '(resp, gw, w) := serveVerb (exec false) case (query r) (body r) (client m) w in
    (resp, {| client := gw; dropClient := dropClient m |}, w).
Proof.
  intros <- H1 H2 Hq He Hb. unfold ServeHTTP. rewrite !decide_False by done. unfold commandClient. rewrite decide_True by done.
  unfold readBody. rewrite He, take_ge by lia. destruct (Z.ltb_spec maxBodyBytes (Z.of_nat (length (body r)))); [lia|done].
Qed.

(** The engine's clock moves on to [now'] between two requests. *)
Definition at_clock (now' : Z) (w : kv * list (list fate)) : kv * list (list fate) :=
  (mkKv (strings w.1) now' (scripts w.1), w.2).

Section RoundTrip.
Context (native : bool) (cfg : Config) (nanos : Z).
Abbreviation serve := (ServeHTTP (fun _ => exec_wire (kv_apply native) cfg) nanos).

Lemma serve_write keys ex b r m e fss s :
  group_write keys ex b r -> (1 <= length keys <= maxMSetEXPairs)%nat -> one_line_each keys b -> Z.of_nat (length b) <= maxBodyBytes ->
  ParseInt ex = Some s -> 0 < s -> 0 <= clock e -> clock e + s <= int64_max / 1000 -> delivers cfg fss ->
  exists m' e' fss' vals, serve r m (e, fss) = (writeOK [], m', (e', fss')) /\ wrote (clock e + s) (combine keys vals) e e' /\
    delivers cfg fss' /\ length keys = length vals /\ Join b_lf vals = b /\ Forall (fun v => (length v <= length b)%nat) vals.
Proof.
  intros (Hp & Hk & Hx & Hd & Hb & Hbe) Hn Hl Hsz Hs Hpos Hc Hmax Hdel. subst b ex.
  rewrite (serve_engine _ nanos r m (e, fss) (bs "msetex")) by done.
  change (serveVerb ?x (bs "msetex") ?q ?y ?g ?w) with (serveMSetEX x (q_all q (bs "key")) (q_Get q (bs "ex")) y g w).
  unfold serveMSetEX, parseInt64Query. rewrite decide_False by (intros Hemp; by rewrite Hemp in Hs). rewrite Hs, Hk.
  destruct (bodyValues_lines keys (body r)) as (vals & -> & Hlen & Hj & Hf); [lia|done|].
  assert (Hx : expiry (bs "EX") (FormatInt s) e = inl (clock e + s)).
  { assert (int64_max / 1000 <= int64_max) by (vm_compute; discriminate). unfold expiry.
    rewrite ParseInt_FormatInt by (unfold in_int64, int64_min in *; lia).
    destruct (Z.leb_spec s 0); [lia|]. destruct (Z.ltb_spec (int64_max / 1000) s); [lia|]. cbn [orb]. rewrite decide_True by done.
    destruct (Z.ltb_spec (int64_max / 1000) (clock e + s)); [lia|done]. }
  destruct (msetex_writes native cfg keys vals (bs "EX") s (clock e + s) Hlen Hn e fss (client m) Hx Hdel) as (gw' & e' & fss' & Hm & Hw & Hd').
  unfold MSetEX. rewrite Hm. cbn. eexists _, e', fss', vals. split; [reflexivity|]. done.
Qed.

Lemma serve_read keys r m e fss slots :
  group_read keys r -> (1 <= length keys <= maxMSetEXPairs)%nat -> look e <$> keys = slots ->
  Forall (fun v => match v with Some v => Z.of_nat (length v) <= maxBulkLength | None => True end) slots -> delivers cfg fss ->
  (serve r m (e, fss)).1.1 = writeOK (Join b_lf (slot_text <$> slots)).
Proof.
  intros (Hp & Hk & Hd & Hb & Hbe) Hn Hs Hv Hdel. rewrite (serve_engine _ nanos r m (e, fss) (bs "mget")); try done; [|rewrite Hb; done].
  change (serveVerb ?x (bs "mget") ?q ?y ?g ?w) with ((serveMGet x (q_all q (bs "key")) w).1, g, (serveMGet x (q_all q (bs "key")) w).2).
  unfold serveMGet. rewrite Hk. destruct keys as [|k ks] eqn:Ek; [cbn in Hn; lia|]. rewrite <- Ek in *. unfold MGet. rewrite Ek at 1.
  assert (C : kv_command native (bs "MGET" :: keys) e = (e, VArray ((fun k => EBulk (look e k)) <$> keys))) by reflexivity.
  assert (Hd1 : map decode_elem ((fun k => EBulk (look e k)) <$> keys) = slots) by (rewrite <- Hs; clear; by induction keys; cbn; f_equal).
  rewrite (exec_kv_answers native cfg _ _ _ _ _ C); [|split|done|done].
  - cbn [decode ok_reply values rerror]. rewrite Hd1. rewrite <- Hs, length_fmap, Nat.eqb_refl. done.
  - rewrite length_fmap. unfold maxArrayCount, maxMSetEXPairs in *. lia.
  - apply Forall_fmap. rewrite <- Hs in Hv. apply Forall_fmap in Hv. eapply Forall_impl; [exact Hv|]. intros x Hx. cbn in *. by destruct (look e x).
Qed.

End RoundTrip.

(** C16: what a caller writes with one msetex request is what it reads back with
    one mget request of the same distinct keys: the body comes back byte for byte until the expiry, and
    empty lines after it, whether the engine knows MSETEX or the client falls
    back to its script, whether that script is known or not, and over retries of
    commands that were not received. *)
Theorem group_write_reads_back native cfg nanos keys ex b s r r' m e fss :
  group_write keys ex b r -> group_read keys r' -> NoDup keys -> (1 <= length keys <= maxMSetEXPairs)%nat ->
  one_line_each keys b -> Z.of_nat (length b) <= maxBodyBytes ->
  ParseInt ex = Some s -> 0 < s -> 0 <= clock e -> clock e + s <= int64_max / 1000 -> delivers cfg fss ->
  let serve := ServeHTTP (fun _ => exec_wire (kv_apply native) cfg) nanos in
  let '(resp, m', w') := serve r m (e, fss) in
  resp = writeOK [] /\
  forall now', (serve r' m' (at_clock now' w')).1.1 =
    writeOK (if clock e + s <=? now' then Join b_lf (replicate (length keys) []) else b).
Proof.
  intros Hw Hr Hnd Hn Hl Hsz Hs Hpos Hc Hmax Hdel serve.
  destruct (serve_write native cfg nanos keys ex b r m e fss s Hw Hn Hl Hsz Hs Hpos Hc Hmax Hdel)
    as (m' & e' & fss' & vals & E & Hwr & Hd' & Hlen & Hj & Hf).
  subst serve. rewrite E. split; [done|]. intros now'. unfold at_clock. cbn [fst snd].
  rewrite (serve_read native cfg nanos keys r' m' _ fss' _ Hr Hn (look_wrote keys vals _ e e' now' Hnd Hlen Hwr)); [|apply Forall_fmap|done].
  - f_equal. destruct (_ <=? now'); rewrite <- ?Hj; f_equal.
    + rewrite Hlen. clear. induction vals as [|v vals IH]; [done|]. cbn in *. by rewrite IH.
    + clear. induction vals as [|v vals IH]; [done|]. cbn in *. by rewrite IH.
  - eapply Forall_impl; [exact Hf|]. intros v Hv. cbn in *. destruct (_ <=? now'); [done|]. unfold maxBodyBytes, maxBulkLength in *. lia.
Qed.

(** Two keys, an engine without MSETEX that does not know the script, and a first
    command that is lost once on its way. *)
Definition demo_keys : list (bytes * bytes) := [(bs "key", bs "a"); (bs "key", bs "b")].
Definition demo_body : bytes := bs "one" ++ b_lf :: bs "two".
Definition demo_write : request :=
  {| url_path := bs "/probe/msetex"; query := (bs "ex", bs "60") :: demo_keys; body := demo_body; body_err := None |}.
Definition demo_read : request := {| url_path := bs "/probe/mget"; query := demo_keys; body := []; body_err := None |}.
Definition demo_start : middleware := {| client := groupWriteUnknown; dropClient := None |}.

Lemma group_write_reads_back_witness :
  let serve := ServeHTTP (fun _ => exec_wire (kv_apply false) default_config) 0 in
  let '(resp, m', w') := serve demo_write demo_start (mkKv ∅ 1000 [], [[NeverReceived]]) in
  status resp = 200 /\ (serve demo_read m' (at_clock 1059 w')).1.1 = writeOK demo_body.
Proof.
  pose proof (group_write_reads_back false default_config 0 [bs "a"; bs "b"] (bs "60") demo_body 60 demo_write demo_read demo_start
    (mkKv ∅ 1000 []) [[NeverReceived]]) as H.
  cbn zeta. cbn zeta in H. set (x := ServeHTTP _ _ demo_write _ _) in *. clearbody x.
  assert (E : 1000 + 60 <=? 1059 = false) by reflexivity.
  destruct x as [[resp m'] w'], H as [-> H]; [| | | | | | | | | | |split; [reflexivity|]; specialize (H 1059); cbn [clock] in H; by rewrite E in H].
  - by vm_compute.
  - by vm_compute.
  - apply (bool_decide_unpack _). by vm_compute.
  - cbn [length]. unfold maxMSetEXPairs. lia.
  - by right; vm_compute.
  - by vm_compute.
  - by vm_compute.
  - lia.
  - by vm_compute.
  - by vm_compute.
  - split; [by vm_compute|]. repeat constructor. exists 1%nat. by split; [|vm_compute].
Defined.
