(* ===== verification/WindowBuffer.v ===== *)
(** * WindowBuffer: the buffered mode of the hit counter
    ([windowcounter/limiter.go])

    [takeBuffered], [peekBuffered], the flush and the outage probe as a step
    relation: a step is one critical section under [l.mu], from a lock to the
    next unlock for Redis, so a GET or EVAL in flight is a program counter and
    other goroutines run meanwhile.  Window states are heap identifiers, because
    [takeBuffered] keeps a pointer to the current one across a GET.

    The clock, the replies and the keys a walk of the map visits, in any order,
    are choices of the step; one critical section reads the clock once. *)

From S2P Require Import Prelude.
From S2P Require Import RedisExec.
From S2P Require Import Float64.
From S2P Require Import WindowCounter.
From Stdlib Require Import ZArith Lia List.
From stdpp Require Import base list option gmap sets.

Open Scope Z_scope.

Record windowState := { redisKnown : Z; localDelta : Z; ws_expireAt : Z; flushDelta : Z }.

Section Buffer.
Context {K : Type} `{Countable K} (syncRate : Z).

(** One window's EVAL snapshot. *)
Record pendingFlush := { job_key : K; job_delta : Z; job_expireAt : Z }.

Abbreviation answer := ((bool * f64) * option wcErr)%type.

(** What follows a flush: the ticker and Sleep ignore its result, a Take or Peek
    goes on with the outage check. *)
Inductive after := ADone | AOutage (r : bool * f64).

Inductive pc :=
| PTake (cur prev : K) (exp : Z) (q : f64) (limit : Z)
| PTakeCur (cur prev : K) (exp : Z) (q : f64) (limit : Z)      (* GET cur in flight *)
| PTakePrev (id : nat) (prev : K) (q : f64) (limit : Z)        (* GET prev in flight *)
| PPeek (cur prev : K) (exp : Z) (q : f64) (limit : Z)
| PPeekCur (cur prev : K) (exp : Z) (q : f64) (limit : Z)
| PPeekPrev (current : Z) (prev : K) (q : f64) (limit : Z)
| PFlush                                                      (* flushPending, lock free *)
| PEval (j : pendingFlush) (jobs : list pendingFlush) (nowUnix : Z) (firstErr : option wcErr) (k : after)
| PProbe (r : bool * f64)                                     (* GET probeKey in flight *)
| PRet (r : answer).

(** The limiter's fields under [l.mu].  The last four are books that no code
    reads: [taken] and [flushed] count, per key, the hits recorded and the hits a
    successful EVAL has carried to Redis; [late] the hits recorded on a state that
    [windows] no longer has; [dropped] the clock of the flush that dropped a
    state. *)
Record buffer := mkBuffer {
  windows : gmap K nat;
  heap : gmap nat (K * windowState);
  nextId : nat;
  lastFlushErr : option wcErr;
  lastRedisOK : option Z;
  taken : K -> Z;
  flushed : K -> Z;
  late : K -> Z;
  dropped : nat -> option Z;
}.

Definition put (b : buffer) (id : nat) (k : K) (st : windowState) : buffer :=
  mkBuffer (windows b) (<[id := (k, st)]> (heap b)) (nextId b) (lastFlushErr b) (lastRedisOK b) (taken b) (flushed b) (late b) (dropped b).
Definition set_err (b : buffer) (e : option wcErr) : buffer :=
  mkBuffer (windows b) (heap b) (nextId b) e (lastRedisOK b) (taken b) (flushed b) (late b) (dropped b).
Definition set_ok (b : buffer) (now : Z) : buffer :=
  mkBuffer (windows b) (heap b) (nextId b) (lastFlushErr b) (Some now) (taken b) (flushed b) (late b) (dropped b).
Definition alloc (b : buffer) (k : K) (st : windowState) : buffer :=
  mkBuffer (<[k := nextId b]> (windows b)) (<[nextId b := (k, st)]> (heap b)) (S (nextId b))
    (lastFlushErr b) (lastRedisOK b) (taken b) (flushed b) (late b) (dropped b).
Definition add_at (f : K -> Z) (k : K) (d : Z) : K -> Z := fun k' => if decide (k' = k) then f k' + d else f k'.
Definition record_hit (b : buffer) (id : nat) (k : K) : buffer :=
  mkBuffer (windows b) (heap b) (nextId b) (lastFlushErr b) (lastRedisOK b) (add_at (taken b) k 1) (flushed b)
    (add_at (late b) k (if decide (windows b !! k = Some id) then 0 else 1)) (dropped b).
Definition record_flush (b : buffer) (k : K) (d : Z) : buffer :=
  mkBuffer (windows b) (heap b) (nextId b) (lastFlushErr b) (lastRedisOK b) (taken b) (add_at (flushed b) k d) (late b) (dropped b).
Definition drop_windows (b : buffer) (m : gmap K nat) (d : nat -> option Z) : buffer :=
  mkBuffer m (heap b) (nextId b) (lastFlushErr b) (lastRedisOK b) (taken b) (flushed b) (late b) d.

(** An empty limiter. *)
Definition init : buffer := mkBuffer ∅ ∅ 0 None None (fun _ => 0) (fun _ => 0) (fun _ => 0) (fun _ => None).

(** [l.windows[k]] *)
Definition state_of (b : buffer) (k : K) : option (nat * windowState) :=
  match windows b !! k with
  | Some id => match heap b !! id with Some (_, st) => Some (id, st) | None => None end
  | None => None
  end.

Definition count_of (st : windowState) : Z := wrap64 (redisKnown st + localDelta st).

(** [if expireAt > state.expireAt] *)
Definition raise_expire (st : windowState) (exp : Z) : windowState :=
  if ws_expireAt st <? exp
  then {| redisKnown := redisKnown st; localDelta := localDelta st; ws_expireAt := exp; flushDelta := flushDelta st |}
  else st.

(** [applyGetLocked]: the limiter after, the state and its id. *)
Definition applyGetLocked (k : K) (known exp : Z) (b : buffer) : buffer * nat * windowState :=
  match state_of b k with
  | None =>
      let st := {| redisKnown := known; localDelta := 0; ws_expireAt := exp; flushDelta := 0 |} in
      (alloc b k st, nextId b, st)
  | Some (id, st) =>
      let st := raise_expire st exp in
      let st := if localDelta st =? 0
                then {| redisKnown := known; localDelta := localDelta st; ws_expireAt := ws_expireAt st; flushDelta := flushDelta st |}
                else st in
      (put b id k st, id, st)
  end.

(** What a critical section meets: the clock, the keys in the order it walks the
    map (the first is the probe key), the reply it resumes with. *)
Record choice := { c_now : Z; c_order : list K; c_reply : Z + wcErr }.

(** [contactedWithinSyncRate] *)
Definition contacted (now : Z) (b : buffer) : bool :=
  match lastRedisOK b with Some t => now - t <? syncRate | None => false end.

(** ** The flush *)

(** The windows that are due, in the order the map is walked. *)
Definition due (b : buffer) (k : K) : option (nat * windowState) :=
  match state_of b k with
  | Some (id, st) => if (0 <? localDelta st) && (flushDelta st =? 0) then Some (id, st) else None
  | None => None
  end.

(** Copy each due window and mark it in flight. *)
Fixpoint snapshot (order : list K) (b : buffer) : buffer * list pendingFlush :=
  match order with
  | [] => (b, [])
  | k :: order =>
      match due b k with
      | None => snapshot order b
      | Some (id, st) =>
          let st := {| redisKnown := redisKnown st; localDelta := localDelta st; ws_expireAt := ws_expireAt st;
                       flushDelta := localDelta st |} in
          let '(b, jobs) := snapshot order (put b id k st) in
          (b, {| job_key := k; job_delta := flushDelta st; job_expireAt := ws_expireAt st |} :: jobs)
      end
  end.

(** One EVAL is back: its error or the count Redis returned. *)
Definition finish_job (now : Z) (j : pendingFlush) (reply : Z + wcErr) (b : buffer) (firstErr : option wcErr)
    : buffer * option wcErr :=
  match reply with
  | inr e =>
      (match state_of b (job_key j) with
       | Some (id, st) => put b id (job_key j)
           {| redisKnown := redisKnown st; localDelta := localDelta st; ws_expireAt := ws_expireAt st; flushDelta := 0 |}
       | None => b
       end,
       match firstErr with None => Some e | Some _ => firstErr end)
  | inl n =>
      (match state_of b (job_key j) with
       | Some (id, st) =>
           set_err (set_ok (record_flush (put b id (job_key j)
             {| redisKnown := n; localDelta := localDelta st - job_delta j; ws_expireAt := ws_expireAt st; flushDelta := 0 |})
             (job_key j) (job_delta j)) now) None
       | None => b
       end, firstErr)
  end.

(** Whether a window is dropped after a flush. *)
Definition expired (nowUnix : Z) (b : buffer) (id : nat) : bool :=
  match heap b !! id with
  | Some (_, st) => (localDelta st =? 0) && (flushDelta st =? 0) && ((ws_expireAt st =? 0) || (ws_expireAt st <=? nowUnix))
  | None => false
  end.

(** The books of a drop: the clock for each state that goes. *)
Definition note_dropped (nowUnix : Z) (b : buffer) (id : nat) : option Z :=
  match heap b !! id with
  | Some (k, _) => if decide (windows b !! k = Some id) then if expired nowUnix b id then Some nowUnix else dropped b id else dropped b id
  | None => dropped b id
  end.

Definition drop_expired (nowUnix : Z) (b : buffer) : buffer :=
  drop_windows b (base.filter (fun '(_, id) => expired nowUnix b id = false) (windows b)) (note_dropped nowUnix b).

(** The end of [flushPendingLocked] and what follows it. *)
Definition flush_end (now nowUnix : Z) (probe : option K) (firstErr : option wcErr) (k : after) (b : buffer) : buffer * pc :=
  let b := drop_expired nowUnix b in
  let b := match firstErr with Some e => set_err b (Some e) | None => b end in
  match k with
  | ADone => (b, PRet ((false, of_Z 0), firstErr))
  | AOutage r =>
      match firstErr with
      | Some e => (b, PRet (r, Some e))
      | None =>
          match lastFlushErr b with
          | Some e => (b, PRet (r, Some e))
          | None =>
              if contacted now b then (b, PRet (r, None))
              else match probe with
                   | Some k => if bool_decide (is_Some (windows b !! k)) then (b, PProbe r) else (b, PRet (r, None))
                   | None => (b, PRet (r, None))
                   end
          end
      end
  end.

Definition flush_next (now nowUnix : Z) (probe : option K) (firstErr : option wcErr) (k : after)
    (jobs : list pendingFlush) (b : buffer) : buffer * pc :=
  match jobs with
  | [] => flush_end now nowUnix probe firstErr k b
  | j :: jobs => (b, PEval j jobs nowUnix firstErr k)
  end.

(** [flushPendingLocked] up to its first EVAL. *)
Definition flush_begin (c : choice) (k : after) (b : buffer) : buffer * pc :=
  let nowUnix := Unix (c_now c) in
  let '(b, jobs) := snapshot (c_order c) b in
  flush_next (c_now c) nowUnix (head (c_order c)) None k jobs b.

(** [bufferedOutageErrorLocked] *)
Definition outage (c : choice) (r : bool * f64) (b : buffer) : buffer * pc :=
  match lastFlushErr b with
  | Some e => (b, PRet (r, Some e))
  | None => if contacted (c_now c) b then (b, PRet (r, None)) else flush_begin c (AOutage r) b
  end.

(** ** Take and Peek *)

(** [takeBuffered] with both counts: record the hit. *)
Definition take_hit (c : choice) (id : nat) (previous : Z) (q : f64) (limit : Z) (b : buffer) : buffer * pc :=
  match heap b !! id with
  | Some (k, st) =>
      let st := {| redisKnown := redisKnown st; localDelta := localDelta st + 1; ws_expireAt := ws_expireAt st;
                   flushDelta := flushDelta st |} in
      outage c (admits (count_of st) previous q limit) (record_hit (put b id k st) id k)
  | None => (b, PRet ((false, of_Z 0), None))
  end.

Definition failed (e : wcErr) : answer := ((false, of_Z 0), Some e).

(** [takeBuffered] once it has the current state. *)
Definition take_prev (c : choice) (id : nat) (prev : K) (q : f64) (limit : Z) (b : buffer) : buffer * pc :=
  match state_of b prev with
  | Some (_, st) => take_hit c id (count_of st) q limit b
  | None => (b, PTakePrev id prev q limit)
  end.

Definition peek_prev (c : choice) (current : Z) (prev : K) (q : f64) (limit : Z) (b : buffer) : buffer * pc :=
  match state_of b prev with
  | Some (_, st) => outage c (admits current (count_of st) q limit) b
  | None => (b, PPeekPrev current prev q limit)
  end.

(** One critical section of a goroutine. *)
Definition run (c : choice) (p : pc) (b : buffer) : buffer * pc :=
  match p with
  | PTake cur prev exp q limit =>                       (* windowLocked *)
      match state_of b cur with
      | Some (id, st) =>
          let st := raise_expire st exp in
          let b := put b id cur st in
          if negb (localDelta st =? 0) then take_prev c id prev q limit b
          else (b, PTakeCur cur prev exp q limit)
      | None => (b, PTakeCur cur prev exp q limit)
      end
  | PTakeCur cur prev exp q limit =>
      match c_reply c with
      | inr e => (b, PRet (failed e))
      | inl known =>
          let '(b, id, _) := applyGetLocked cur known exp (set_ok b (c_now c)) in
          take_prev c id prev q limit b
      end
  | PTakePrev id prev q limit =>
      match c_reply c with
      | inr e => (b, PRet (failed e))
      | inl known =>
          let '(b, _, st) := applyGetLocked prev known 0 (set_ok b (c_now c)) in
          take_hit c id (count_of st) q limit b
      end
  | PPeek cur prev exp q limit =>                       (* peekCountLocked *)
      match state_of b cur with
      | Some (id, st) =>
          let st := raise_expire st exp in
          peek_prev c (count_of st) prev q limit (put b id cur st)
      | None => (b, PPeekCur cur prev exp q limit)
      end
  | PPeekCur cur prev exp q limit =>
      match c_reply c with
      | inr e => (b, PRet (failed e))
      | inl known =>
          let '(b, _, st) := applyGetLocked cur known exp (set_ok b (c_now c)) in
          peek_prev c (count_of st) prev q limit b
      end
  | PPeekPrev current prev q limit =>
      match c_reply c with
      | inr e => (b, PRet (failed e))
      | inl known =>
          let '(b, _, st) := applyGetLocked prev known 0 (set_ok b (c_now c)) in
          outage c (admits current (count_of st) q limit) b
      end
  | PFlush => flush_begin c ADone b
  | PEval j jobs nowUnix firstErr k =>
      let '(b, firstErr) := finish_job (c_now c) j (c_reply c) b firstErr in
      flush_next (c_now c) nowUnix (head (c_order c)) firstErr k jobs b
  | PProbe r =>
      match c_reply c with
      | inr e => (set_err b (Some e), PRet (r, Some e))
      | inl _ => (set_ok b (c_now c), PRet (r, None))
      end
  | PRet r => (b, PRet r)
  end.

(** A call comes in; the window a Take counts on ends after 1970. *)
Definition starts (p : pc) : Prop :=
  match p with PTake _ _ exp _ _ => 0 < exp | PPeek _ _ _ _ _ | PFlush => True | _ => False end.

(** The limiter and its goroutines. *)
Record world := mkWorld { w_buf : buffer; w_threads : gmap nat pc }.

Inductive step : world -> world -> Prop :=
| s_start w t p : w_threads w !! t = None -> starts p -> step w (mkWorld (w_buf w) (<[t := p]> (w_threads w)))
| s_run w t p c : w_threads w !! t = Some p ->
    step w (mkWorld (run c p (w_buf w)).1 (<[t := (run c p (w_buf w)).2]> (w_threads w))).

Inductive reachable : world -> Prop :=
| r_init : reachable (mkWorld init ∅)
| r_step w w' : reachable w -> step w w' -> reachable w'.

(** ** The invariant *)

(** The hits the limiter still holds for key [k]: those of its window in the map,
    which is all a later flush can see. *)
Definition held (b : buffer) (k : K) : Z := match state_of b k with Some (_, st) => localDelta st | None => 0 end.

(** The snapshots a goroutine has in flight or still to send. *)
Definition jobs_of (p : pc) : list pendingFlush := match p with PEval j jobs _ _ _ => j :: jobs | _ => [] end.

(** The map points at states of its keys, a state's in-flight part is within its
    hits, and every hit recorded is flushed, held by the map's window or late; a
    state that left the map had expired, and a late hit is on such a state. *)
Record sound (b : buffer) : Prop := {
  ok_map k id : windows b !! k = Some id -> exists st, heap b !! id = Some (k, st);
  ok_fresh id x : heap b !! id = Some x -> (id < nextId b)%nat;
  ok_st id k st : heap b !! id = Some (k, st) -> 0 <= flushDelta st <= localDelta st;
  ok_cons k : held b k + late b k + flushed b k = taken b k;
  ok_gone id k st : heap b !! id = Some (k, st) -> windows b !! k <> Some id ->
    exists t, dropped b id = Some t /\ (ws_expireAt st = 0 \/ ws_expireAt st <= t);
  ok_late k : 0 <= late b k /\
    (late b k <> 0 -> exists id st, heap b !! id = Some (k, st) /\ windows b !! k <> Some id /\ 0 < ws_expireAt st);
}.

(** [L] are the snapshots of all goroutines: one per window that is marked, of
    the marked amount. *)
Record ok (b : buffer) (L : list pendingFlush) : Prop := {
  ok_sound : sound b;
  ok_nodup : NoDup (map job_key L);
  ok_jobs k : k ∈ map job_key L <-> exists id st, state_of b k = Some (id, st) /\ flushDelta st <> 0;
  ok_delta j id st : j ∈ L -> state_of b (job_key j) = Some (id, st) -> flushDelta st = job_delta j;
}.

Lemma state_of_Some b k id st :
  state_of b k = Some (id, st) -> windows b !! k = Some id /\ exists k', heap b !! id = Some (k', st).
Proof.
  unfold state_of. destruct (windows b !! k) as [i|]; [|done]. destruct (heap b !! i) as [[k' st']|] eqn:E; [|done].
  intros [= <- <-]. eauto.
Qed.

Lemma ok_state b k id st :
  sound b -> state_of b k = Some (id, st) -> windows b !! k = Some id /\ heap b !! id = Some (k, st).
Proof.
  intros O [Hw [k' Hh]]%state_of_Some. split; [done|]. destruct (ok_map b O k id Hw) as [st' Hst]. congruence.
Qed.

(** The buffer with one state replaced, [hit] new hits and [sent] flushed ones. *)
Definition update (b : buffer) (id : nat) (k : K) (st : windowState) (hit sent : Z) : buffer :=
  mkBuffer (windows b) (<[id := (k, st)]> (heap b)) (nextId b) (lastFlushErr b) (lastRedisOK b)
    (add_at (taken b) k hit) (add_at (flushed b) k sent) (add_at (late b) k (if decide (windows b !! k = Some id) then 0 else hit)) (dropped b).

Lemma state_of_update b id k st hit sent k' :
  sound b -> (exists st0, heap b !! id = Some (k, st0)) ->
  state_of (update b id k st hit sent) k' = if decide (k' = k /\ windows b !! k = Some id) then Some (id, st) else state_of b k'.
Proof.
  intros O [st0 Hh]. unfold state_of. cbn. destruct (decide _) as [[-> ->]|Hn]; [by rewrite lookup_insert_eq|].
  destruct (windows b !! k') as [id'|] eqn:Hw; [|done]. rewrite lookup_insert_ne; [done|]. intros <-.
  destruct (ok_map b O k' id Hw) as [st' Hst]. rewrite Hh in Hst. injection Hst as <- <-. tauto.
Qed.

(** A state that is not in the map keeps its expiry, and takes a hit only when it
    had one. *)
Definition may_update (b : buffer) (id : nat) (k : K) (st st' : windowState) (hit sent : Z) : Prop :=
  windows b !! k = Some id \/
  sent = 0 /\ 0 <= hit /\ ws_expireAt st' = ws_expireAt st /\ (hit <> 0 -> 0 < ws_expireAt st).

Lemma sound_update b id k st st' hit sent :
  sound b -> heap b !! id = Some (k, st) -> 0 <= flushDelta st' <= localDelta st' ->
  localDelta st' = localDelta st + hit - sent -> may_update b id k st st' hit sent -> sound (update b id k st' hit sent).
Proof.
  intros O Hh Hf Hl Hm. assert (HS := fun k' => state_of_update b id k st' hit sent k' O (ex_intro _ st Hh)).
  assert (HE : windows b !! k = Some id -> state_of b k = Some (id, st)) by (intros E; unfold state_of; by rewrite E, Hh).
  split; cbn.
  - intros k' id' Hw. destruct (ok_map b O k' id' Hw) as [st1 H1]. destruct (decide (id' = id)) as [->|].
    + rewrite lookup_insert_eq. rewrite Hh in H1. injection H1 as <- <-. eauto.
    + rewrite lookup_insert_ne by done. eauto.
  - intros id' x. destruct (decide (id' = id)) as [->|].
    + intros _. by eapply ok_fresh.
    + rewrite lookup_insert_ne by done. by eapply ok_fresh.
  - intros id' k' st1. destruct (decide (id' = id)) as [->|].
    + rewrite lookup_insert_eq. by intros [= <- <-].
    + rewrite lookup_insert_ne by done. by eapply ok_st.
  - intros k'. pose proof (ok_cons b O k') as Hc. unfold held in *. rewrite HS. unfold add_at. destruct (decide (k' = k)) as [->|Hne].
    + destruct (decide (k = k /\ windows b !! k = Some id)) as [[_ Hw]|Hn].
      * rewrite (HE Hw) in Hc. rewrite decide_True by done. lia.
      * rewrite decide_False by tauto. destruct Hm as [Hw|[-> _]]; [tauto|]. lia.
    + rewrite decide_False by tauto. lia.
  - intros id' k' st1. destruct (decide (id' = id)) as [->|]; [|rewrite lookup_insert_ne by done; apply (ok_gone b O)].
    rewrite lookup_insert_eq. intros [= <- <-] Hw. destruct Hm as [Hm|(_ & _ & -> & _)]; [done|]. by apply (ok_gone b O id k st).
  - intros k'. destruct (ok_late b O k') as [Hl0 Hl1]. unfold add_at. destruct (decide (k' = k)) as [->|Hne].
    + destruct (decide (windows b !! k = Some id)) as [Hw|Hw].
      * split; [lia|]. rewrite Z.add_0_r. intros Hn. destruct (Hl1 Hn) as (i & s0 & H1 & H2 & H3). exists i, s0.
        rewrite lookup_insert_ne by congruence. done.
      * destruct Hm as [|(_ & Hh0 & He & Hp)]; [done|]. split; [lia|]. intros Hn. destruct (decide (hit = 0)) as [->|Hne].
        -- destruct (Hl1 ltac:(lia)) as (i & s0 & H1 & H2 & H3). destruct (decide (i = id)) as [->|].
           ++ exists id, st'. rewrite lookup_insert_eq. split_and!; [done..|]. rewrite He. congruence.
           ++ exists i, s0. by rewrite lookup_insert_ne.
        -- exists id, st'. rewrite lookup_insert_eq, He. split_and!; [done..|by apply Hp].
    + split; [done|]. intros Hn. destruct (Hl1 Hn) as (i & s0 & H1 & H2 & H3). exists i, s0. split; [|done].
      rewrite lookup_insert_ne; [done|]. intros <-. congruence.
Qed.

(** A state changes and keeps its in-flight mark. *)
Lemma ok_update b L id k st st' hit :
  ok b L -> heap b !! id = Some (k, st) -> flushDelta st' = flushDelta st -> localDelta st' = localDelta st + hit -> 0 <= hit ->
  may_update b id k st st' hit 0 -> ok (update b id k st' hit 0) L.
Proof.
  intros [O Hnd Hj Hd] Hh Hf Hl Hhit Hm. pose proof (ok_st b O _ _ _ Hh) as Hst.
  assert (HS := fun k' => state_of_update b id k st' hit 0 k' O (ex_intro _ st Hh)).
  assert (HE : windows b !! k = Some id -> state_of b k = Some (id, st)) by (intros E; unfold state_of; by rewrite E, Hh).
  split; [eapply sound_update; [done..|lia|lia|done]|done| |].
  - intros k'. rewrite Hj, HS. destruct (decide _) as [[-> Hw]|]; [|done]. rewrite (HE Hw).
    split; intros (i & s & [= <- <-] & Hs); exists id; eexists; (split; [done|congruence]).
  - intros j id' s Hin. rewrite HS. destruct (decide _) as [[E Hw]|]; [|by apply Hd]. intros [= <- <-].
    rewrite Hf. apply (Hd j id st Hin). rewrite E. by apply HE.
Qed.

Lemma job_key_in j L : j ∈ L -> job_key j ∈ map job_key L.
Proof. intros Hj. apply list_elem_of_In, in_map, list_elem_of_In, Hj. Qed.

(** A due window is marked with all its hits. *)
Lemma ok_mark b L id k st st' :
  ok b L -> due b k = Some (id, st) -> flushDelta st' = localDelta st -> localDelta st' = localDelta st ->
  ok (update b id k st' 0 0) ({| job_key := k; job_delta := flushDelta st'; job_expireAt := ws_expireAt st' |} :: L).
Proof.
  intros [O Hnd Hj Hd] Hdue Hf Hl. unfold due in Hdue. destruct (state_of b k) as [[i s]|] eqn:E; [|done].
  destruct ((0 <? localDelta s) && (flushDelta s =? 0)) eqn:C; [|done]. injection Hdue as -> ->.
  apply andb_true_iff in C as [C1%Z.ltb_lt C2%Z.eqb_eq]. destruct (ok_state b k id st O E) as [Hw Hh].
  assert (HS := fun k' => state_of_update b id k st' 0 0 k' O (ex_intro _ st Hh)).
  assert (Hfresh : k ∉ map job_key L) by (rewrite Hj; intros (i & s & Hs & Hn); congruence).
  split; [eapply sound_update; [done..|lia|lia|by left]|by constructor| |].
  - intros k'. cbn [map job_key]. rewrite elem_of_cons, Hj, HS. destruct (decide _) as [[-> _]|Hn].
    + split; [intros _|by left]. exists id, st'. split; [done|lia].
    + assert (k' <> k) by (intros ->; tauto). tauto.
  - intros j id' s Hin. rewrite HS. apply elem_of_cons in Hin as [->|Hin].
    + cbn [job_key job_delta]. rewrite decide_True by done. by intros [= <- <-].
    + rewrite decide_False; [by apply Hd|]. intros [<- _]. by apply Hfresh, job_key_in.
Qed.

(** The state of a snapshot in flight is still there, marked with its amount. *)
Lemma job_state b j L : ok b (j :: L) -> exists id st, state_of b (job_key j) = Some (id, st) /\ flushDelta st = job_delta j.
Proof.
  intros [O Hnd Hj Hd]. destruct (proj1 (Hj (job_key j))) as (id & st & Hs & _); [by left|].
  exists id, st. split; [done|]. apply (Hd j id st); [by left|done].
Qed.

(** An EVAL is back: the mark is cleared, with all its hits flushed or none. *)
Lemma ok_unmark b j L id st st' sent :
  ok b (j :: L) -> state_of b (job_key j) = Some (id, st) -> flushDelta st' = 0 ->
  sent = 0 \/ sent = job_delta j -> localDelta st' = localDelta st - sent -> ok (update b id (job_key j) st' 0 sent) L.
Proof.
  intros OK E Hf Hsent Hl. pose proof OK as [O Hnd Hj Hd]. destruct (ok_state b _ id st O E) as [Hw Hh].
  pose proof (ok_st b O _ _ _ Hh) as Hst. pose proof (Hd j id st (list_elem_of_here _ _) E) as Hdel.
  assert (HS := fun k' => state_of_update b id (job_key j) st' 0 sent k' O (ex_intro _ st Hh)).
  cbn [map] in Hnd. apply NoDup_cons in Hnd as [Hnew Hnd].
  split; [eapply sound_update; [done..|lia|lia|by left]|done| |].
  - intros k'. rewrite HS. destruct (decide _) as [[-> _]|Hn].
    + split; [done|]. intros (? & ? & [= <- <-] & ?). lia.
    + assert (k' <> job_key j) by (intros ->; tauto). rewrite <- Hj. cbn [map]. rewrite elem_of_cons. tauto.
  - intros j' id' s Hin. rewrite HS. rewrite decide_False; [apply Hd; by right|].
    intros [E' _]. apply Hnew. rewrite <- E'. by apply job_key_in.
Qed.

Lemma ok_perm b L L' : L ≡ₚ L' -> ok b L -> ok b L'.
Proof.
  intros P [O Hnd Hj Hd]. assert (P' : map job_key L ≡ₚ map job_key L') by (by apply Permutation_map).
  split; [done|by rewrite <- P'| |]; [intros k; by rewrite <- P'|intros j id st Hin; rewrite <- P in Hin; by apply Hd].
Qed.

(** The same heap and map. *)
Lemma ok_same b b' L :
  ok b L -> windows b' = windows b -> heap b' = heap b -> nextId b' = nextId b ->
  (forall k, taken b' k = taken b k) -> (forall k, flushed b' k = flushed b k) -> (forall k, late b' k = late b k) ->
  (forall id, dropped b' id = dropped b id) -> ok b' L.
Proof.
  intros [[A B C D G T] Hnd Hj Hd] Ew Eh En Et Ef El Ed.
  assert (HS : forall k, state_of b' k = state_of b k) by (intros k; unfold state_of; by rewrite Ew, Eh).
  split; [split; rewrite ?Ew, ?Eh, ?En; try done|done| |].
  - intros k. unfold held. rewrite HS, Et, Ef, El. apply D.
  - intros id k st. rewrite Ed. apply G.
  - intros k. rewrite El. apply T.
  - intros k. by rewrite HS.
  - intros j id st. rewrite HS. apply Hd.
Qed.

Lemma ok_alloc b L k st :
  ok b L -> windows b !! k = None -> localDelta st = 0 -> flushDelta st = 0 -> ok (alloc b k st) L.
Proof.
  intros [O Hnd Hj Hd] Hw Hl Hf. assert (Hn : heap b !! nextId b = None).
  { destruct (heap b !! nextId b) eqn:E; [|done]. apply (ok_fresh b O) in E. lia. }
  assert (HS : forall k', state_of (alloc b k st) k' = if decide (k' = k) then Some (nextId b, st) else state_of b k').
  { intros k'. unfold state_of. cbn. destruct (decide (k' = k)) as [->|Hne]; [by rewrite !lookup_insert_eq|].
    rewrite lookup_insert_ne by done. destruct (windows b !! k') as [id|] eqn:E; [|done].
    rewrite lookup_insert_ne; [done|]. destruct (ok_map b O k' id E) as [st' H']. intros <-. congruence. }
  assert (Hnone : state_of b k = None) by (unfold state_of; by rewrite Hw).
  split; [split; cbn|done| |].
  - intros k' id. destruct (decide (k' = k)) as [->|].
    + rewrite lookup_insert_eq. intros [= <-]. exists st. by rewrite lookup_insert_eq.
    + rewrite lookup_insert_ne by done. intros H'. destruct (ok_map b O k' id H') as [st' Hh]. exists st'.
      rewrite lookup_insert_ne; [done|]. intros <-. congruence.
  - intros id x. destruct (decide (id = nextId b)) as [->|]; [lia|]. rewrite lookup_insert_ne by done.
    intros H'. apply (ok_fresh b O) in H'. lia.
  - intros id k' st'. destruct (decide (id = nextId b)) as [->|].
    + rewrite lookup_insert_eq. intros [= <- <-]. lia.
    + rewrite lookup_insert_ne by done. by eapply ok_st.
  - intros k'. pose proof (ok_cons b O k') as Hc. unfold held in *. rewrite HS. destruct (decide (k' = k)) as [->|]; [|done].
    rewrite Hnone in Hc. lia.
  - intros id k' st'. destruct (decide (id = nextId b)) as [->|Hne].
    + rewrite lookup_insert_eq. intros [= <- <-]. by rewrite lookup_insert_eq.
    + rewrite lookup_insert_ne by done. intros Hh Hm. apply (ok_gone b O id k' st' Hh). intros Hw'.
      apply Hm. rewrite lookup_insert_ne; [done|]. intros <-. congruence.
  - intros k'. destruct (ok_late b O k') as [Hl0 Hl1]. split; [done|]. intros Hn'. destruct (Hl1 Hn') as (id & s & H1 & H2 & H3).
    assert (Hid : (id < nextId b)%nat) by (by eapply ok_fresh). exists id, s. rewrite lookup_insert_ne by lia. split; [done|]. split; [|done].
    destruct (decide (k' = k)) as [->|]; [|by rewrite lookup_insert_ne]. rewrite lookup_insert_eq. intros [= E]. lia.
  - intros k'. rewrite Hj, HS. destruct (decide (k' = k)) as [->|]; [|done]. rewrite Hnone.
    split; [by intros (? & ? & ? & _)|]. intros (? & ? & [= <- <-] & ?). done.
  - intros j id s Hin. rewrite HS. destruct (decide (job_key j = k)) as [<-|]; [|by apply Hd].
    exfalso. apply job_key_in in Hin. apply Hj in Hin as (id' & s' & Hs & _). congruence.
Qed.

Lemma ok_drop_expired b L nowUnix : ok b L -> ok (drop_expired nowUnix b) L.
Proof.
  intros [O Hnd Hj Hd].
  assert (HS : forall k id st, state_of (drop_expired nowUnix b) k = Some (id, st) <-> state_of b k = Some (id, st) /\ expired nowUnix b id = false).
  { intros k id st. unfold state_of. cbn. destruct (windows b !! k) as [i|] eqn:E.
    - destruct (expired nowUnix b i) eqn:X.
      + rewrite (proj2 (map_lookup_filter_None _ _ k)) by (right; intros j Hj'; rewrite E in Hj'; injection Hj' as <-; congruence).
        split; [done|]. intros [Hs Hx]. destruct (heap b !! i) as [[? ?]|]; [|done]. injection Hs as -> ->. congruence.
      + rewrite (proj2 (map_lookup_filter_Some _ _ k i)) by done. split; [intros Hs|by intros [? _]].
        split; [done|]. destruct (heap b !! i) as [[? ?]|]; [|done]. by injection Hs as -> ->.
    - rewrite (proj2 (map_lookup_filter_None _ _ k)) by (by left). split; [done|by intros [? _]]. }
  assert (HF : forall k id, windows (drop_expired nowUnix b) !! k = Some id <-> windows b !! k = Some id /\ expired nowUnix b id = false)
    by (intros k id; apply map_lookup_filter_Some).
  destruct O as [A B C D G T]. split; [split; try done|done| |].
  - intros k id Hw. apply HF in Hw as [Hw _]. by apply A.
  - intros k. cbn [taken late flushed drop_expired drop_windows]. rewrite <- D. do 2 f_equal. unfold held.
    destruct (state_of b k) as [[id st]|] eqn:Hs.
    + destruct (expired nowUnix b id) eqn:X; [|by rewrite (proj2 (HS k id st))].
      destruct (state_of (drop_expired nowUnix b) k) as [[i s]|] eqn:Hs'; [apply HS in Hs' as [Hs' X']; congruence|].
      apply state_of_Some in Hs as [_ [k' Hh]]. unfold expired in X. rewrite Hh in X. destruct (Z.eqb_spec (localDelta st) 0); [done|by cbn in X].
    + destruct (state_of (drop_expired nowUnix b) k) as [[i s]|] eqn:Hs'; [apply HS in Hs' as [Hs' _]; congruence|done].
  - intros id k st Hh Hw. cbn [dropped drop_expired drop_windows]. unfold note_dropped. change (heap b !! id = Some (k, st)) in Hh. rewrite Hh.
    destruct (decide (windows b !! k = Some id)) as [Hk|Hk]; [|by apply (G id k st)].
    destruct (expired nowUnix b id) eqn:X; [|by exfalso; apply Hw, HF]. exists nowUnix. split; [done|]. unfold expired in X. rewrite Hh in X.
    apply andb_true_iff in X as [_ X]. apply orb_true_iff in X as [X%Z.eqb_eq|X%Z.leb_le]; auto.
  - intros k. destruct (T k) as [T0 T1]. split; [done|]. intros Hn. destruct (T1 Hn) as (id & st & H1 & H2 & H3). exists id, st. split_and!; [done| |done].
    intros Hw. apply HF in Hw as [Hw _]. done.
  - intros k. rewrite Hj. split.
    + intros (id & st & Hs & Hf). exists id, st. rewrite HS. split; [|done]. split; [done|]. apply state_of_Some in Hs as [_ [k' Hh]].
      unfold expired. rewrite Hh. apply Z.eqb_neq in Hf. rewrite Hf. by destruct (localDelta st =? 0).
    + intros (id & st & Hs & Hf). apply HS in Hs as [Hs _]. eauto.
  - intros j id st Hin Hs. apply HS in Hs as [Hs _]. by apply (Hd j id st).
Qed.

(** ** Expiries only grow *)

(** [id] is a state with an expiry. *)
Definition expiring (b : buffer) (id : nat) : Prop := (id < nextId b)%nat /\ exists x, heap b !! id = Some x /\ 0 < ws_expireAt x.2.

(** A Take waits for its GETs on a window that expires. *)
Definition armed (b : buffer) (p : pc) : Prop :=
  match p with
  | PTake _ _ exp _ _ | PTakeCur _ _ exp _ _ => 0 < exp
  | PTakePrev id _ _ _ => expiring b id
  | _ => True
  end.

Definition grows (b b' : buffer) : Prop :=
  (nextId b <= nextId b')%nat /\
  forall id x, (id < nextId b)%nat -> heap b !! id = Some x -> exists x', heap b' !! id = Some x' /\ ws_expireAt x.2 <= ws_expireAt x'.2.

#[local] Instance grows_preorder : PreOrder grows.
Proof.
  split; [intros b; split; [lia|eauto with lia]|]. intros b1 b2 b3 [N1 H1] [N2 H2]. split; [lia|]. intros id x Hi Hx.
  destruct (H1 id x Hi Hx) as (y & Hy & ?). destruct (H2 id y ltac:(lia) Hy) as (z & Hz & ?). exists z. split; [done|lia].
Qed.

Lemma grows_same b b' : heap b' = heap b -> nextId b' = nextId b -> grows b b'.
Proof. intros Eh En. split; [lia|]. rewrite Eh. eauto with lia. Qed.

Lemma grows_put b id k st x : heap b !! id = Some x -> ws_expireAt x.2 <= ws_expireAt st -> grows b (put b id k st).
Proof.
  intros Hx Hle. split; [done|]. intros id' y _ Hy. cbn. destruct (decide (id' = id)) as [->|].
  - rewrite lookup_insert_eq. rewrite Hx in Hy. injection Hy as <-. eexists. split; [done|]. done.
  - rewrite lookup_insert_ne by done. exists y. by split.
Qed.

Lemma expiring_grows b b' id : grows b b' -> expiring b id -> expiring b' id.
Proof. intros [N G] [Hi (x & Hx & Hp)]. destruct (G id x Hi Hx) as (y & Hy & ?). split; [lia|]. exists y. split; [done|lia]. Qed.

Lemma armed_grows b b' p : grows b b' -> armed b p -> armed b' p.
Proof. destruct p; cbn; try done. apply expiring_grows. Qed.

Lemma raise_expire_le st exp : ws_expireAt st <= ws_expireAt (raise_expire st exp) /\ exp <= ws_expireAt (raise_expire st exp).
Proof. unfold raise_expire. destruct (Z.ltb_spec (ws_expireAt st) exp); cbn; lia. Qed.

Lemma grows_apply b k known exp b' id st :
  sound b -> applyGetLocked k known exp b = (b', id, st) -> grows b b' /\ (0 < exp -> expiring b' id).
Proof.
  intros O. unfold applyGetLocked. destruct (state_of b k) as [[i s]|] eqn:E; intros [= <- <- <-].
  - apply (ok_state b k i s O) in E as [_ Hh]. pose proof (raise_expire_le s exp) as [L1 L2]. set (s' := if _ : bool then _ else _).
    assert (Es : ws_expireAt s' = ws_expireAt (raise_expire s exp)) by (unfold s'; by destruct (_ =? 0)).
    split; [eapply grows_put; [done|cbn; lia]|]. intros Hp. split; [by apply (ok_fresh b O i (k, s))|]. eexists. cbn. rewrite lookup_insert_eq. split; [done|]. cbn. lia.
  - split.
    + split; [cbn; lia|]. intros id' x Hi Hx. exists x. cbn. by rewrite lookup_insert_ne by lia.
    + intros Hp. split; [cbn; lia|]. eexists. cbn. rewrite lookup_insert_eq. done.
Qed.

Lemma grows_snapshot order : forall b b' jobs, snapshot order b = (b', jobs) -> grows b b'.
Proof.
  induction order as [|k order IH]; intros b b' jobs; cbn [snapshot]; [by intros [= <- <-]|]. unfold due.
  destruct (state_of b k) as [[id st]|] eqn:E; [|by apply IH]. destruct (_ && _); [|by apply IH].
  destruct (snapshot order _) as [b1 js] eqn:Es. intros [= <- <-]. etrans; [|by eapply IH].
  apply state_of_Some in E as [_ [k' Hh]]. by eapply grows_put.
Qed.

Lemma grows_flush_next now nowUnix probe fe k jobs b b' p' :
  flush_next now nowUnix probe fe k jobs b = (b', p') -> grows b b' /\ armed b' p'.
Proof.
  destruct jobs as [|j jobs]; cbn [flush_next]; [|by intros [= <- <-]]. unfold flush_end.
  assert (G : forall fe : option wcErr, grows b (match fe with Some e => set_err (drop_expired nowUnix b) (Some e) | None => drop_expired nowUnix b end))
    by (intros [e|]; by apply grows_same).
  specialize (G fe). destruct k as [|r]; [by intros [= <- <-]|]. destruct fe as [e|]; [by intros [= <- <-]|].
  destruct (lastFlushErr _); [by intros [= <- <-]|]. destruct (contacted _ _); [by intros [= <- <-]|].
  destruct probe as [k|]; [|by intros [= <- <-]]. by destruct (bool_decide _); intros [= <- <-].
Qed.

Lemma grows_flush_begin c k b b' p' : flush_begin c k b = (b', p') -> grows b b' /\ armed b' p'.
Proof.
  unfold flush_begin. destruct (snapshot _ b) as [b1 jobs] eqn:E. intros [G A]%grows_flush_next. split; [|done].
  etrans; [by eapply grows_snapshot|done].
Qed.

Lemma grows_outage c r b b' p' : outage c r b = (b', p') -> grows b b' /\ armed b' p'.
Proof. unfold outage. destruct (lastFlushErr b); [by intros [= <- <-]|]. destruct (contacted _ _); [by intros [= <- <-]|]. apply grows_flush_begin. Qed.

Lemma grows_take_hit c id prev q limit b b' p' : take_hit c id prev q limit b = (b', p') -> grows b b' /\ armed b' p'.
Proof.
  unfold take_hit. destruct (heap b !! id) as [[k st]|] eqn:Hh; [|by intros [= <- <-]]. intros [G A]%grows_outage. split; [|done].
  etrans; [|exact G]. etrans; [eapply (grows_put b id k); [done|]|apply grows_same; done]. done.
Qed.

Lemma grows_take_prev c id prev q limit b b' p' : expiring b id -> take_prev c id prev q limit b = (b', p') -> grows b b' /\ armed b' p'.
Proof. intros Hx. unfold take_prev. destruct (state_of b prev) as [[i st]|]; [apply grows_take_hit|by intros [= <- <-]]. Qed.

Lemma grows_peek_prev c cur prev q limit b b' p' : peek_prev c cur prev q limit b = (b', p') -> grows b b' /\ armed b' p'.
Proof. unfold peek_prev. destruct (state_of b prev) as [[i st]|]; [apply grows_outage|by intros [= <- <-]]. Qed.

Lemma grows_raise b k id st exp :
  sound b -> state_of b k = Some (id, st) -> grows b (put b id k (raise_expire st exp)) /\ (0 < exp -> expiring (put b id k (raise_expire st exp)) id).
Proof.
  intros O E. apply (ok_state b k id st O) in E as [_ Hh]. pose proof (raise_expire_le st exp) as [L1 L2]. split; [by eapply grows_put|].
  intros Hp. split; [by apply (ok_fresh b O id (k, st))|]. eexists. cbn. rewrite lookup_insert_eq. split; [done|]. cbn. lia.
Qed.

Lemma grows_set_ok b b' now : grows (set_ok b now) b' -> grows b b'.
Proof. done. Qed.

Lemma sound_set_ok b now : sound b -> sound (set_ok b now).
Proof. by intros [A B C D G T]. Qed.

Lemma run_grows c p b : sound b -> armed b p -> grows b (run c p b).1 /\ armed (run c p b).1 (run c p b).2.
Proof.
  intros O A. pose proof (sound_set_ok b (c_now c) O) as O1. destruct (run c p b) as [b' p'] eqn:E. cbn [fst snd]. destruct p; cbn [run armed] in *.
  - destruct (state_of b cur) as [[id st]|] eqn:Es; [|by injection E as <- <-]. destruct (grows_raise b cur id st exp O Es) as [G X].
    destruct (negb _); [|by injection E as <- <-]. apply grows_take_prev in E as [G' A']; [|by apply X]. split; [by etrans|done].
  - destruct (c_reply c) as [n|e]; [|by injection E as <- <-]. destruct (applyGetLocked _ _ _ _) as [[b1 id] st] eqn:Ea.
    apply (grows_apply _ _ _ _ _ _ _ O1) in Ea as [G X]. apply grows_take_prev in E as [G' A']; [|by apply X]. split; [by etrans|done].
  - destruct (c_reply c) as [n|e]; [|by injection E as <- <-]. destruct (applyGetLocked _ _ _ _) as [[b1 i] st] eqn:Ea.
    apply (grows_apply _ _ _ _ _ _ _ O1) in Ea as [G X]. apply grows_take_hit in E as [G' A']. split; [by etrans|done].
  - destruct (state_of b cur) as [[id st]|] eqn:Es; [|by injection E as <- <-]. destruct (grows_raise b cur id st exp O Es) as [G X].
    apply grows_peek_prev in E as [G' A']. split; [by etrans|done].
  - destruct (c_reply c) as [n|e]; [|by injection E as <- <-]. destruct (applyGetLocked _ _ _ _) as [[b1 id] st] eqn:Ea.
    apply (grows_apply _ _ _ _ _ _ _ O1) in Ea as [G X]. apply grows_peek_prev in E as [G' A']. split; [by etrans|done].
  - destruct (c_reply c) as [n|e]; [|by injection E as <- <-]. destruct (applyGetLocked _ _ _ _) as [[b1 id] st] eqn:Ea.
    apply (grows_apply _ _ _ _ _ _ _ O1) in Ea as [G X]. apply grows_outage in E as [G' A']. split; [by etrans|done].
  - by eapply grows_flush_begin.
  - destruct (finish_job _ _ _ _ _) as [b1 fe] eqn:Ef. apply grows_flush_next in E as [G A']. split; [|done]. etrans; [|exact G].
    unfold finish_job in Ef. destruct (state_of b (job_key j)) as [[id st]|] eqn:Es; [|by destruct (c_reply c); injection Ef as <- <-].
    apply state_of_Some in Es as [_ [k' Hh]]. destruct (c_reply c); injection Ef as <- <-; [|by eapply grows_put].
    etrans; [eapply (grows_put b id (job_key j) (Build_windowState _ _ (ws_expireAt st) _)); [done|done]|by apply grows_same].
  - destruct (c_reply c); injection E as <- <-; (split; [by apply grows_same|done]).
  - by injection E as <- <-.
Qed.

(** ** Steps keep the invariant *)

Lemma add_at_0 f k k' : add_at f k 0 k' = f k'.
Proof. unfold add_at. destruct (decide _); lia. Qed.

(** [update] without a hit leaves the books of late hits. *)
Lemma late_update_0 b id k st sent k' : late (update b id k st 0 sent) k' = late b k'.
Proof. cbn. destruct (decide (windows b !! k = Some id)); apply add_at_0. Qed.

Lemma ok_put b L id k st st' :
  ok b L -> state_of b k = Some (id, st) -> flushDelta st' = flushDelta st -> localDelta st' = localDelta st -> ok (put b id k st') L.
Proof.
  intros O E Hf Hl. destruct (ok_state b k id st (ok_sound _ _ O) E) as [Hw Hh].
  eapply ok_same; [eapply (ok_update b L id k st st' 0); [..|by left]|..]; try done; try lia; intros k'; rewrite ?late_update_0; cbn; by rewrite ?add_at_0.
Qed.

Lemma raise_expire_same st exp : flushDelta (raise_expire st exp) = flushDelta st /\ localDelta (raise_expire st exp) = localDelta st.
Proof. unfold raise_expire. by destruct (_ <? _). Qed.

Lemma ok_apply b L k known exp b' id st :
  ok b L -> applyGetLocked k known exp b = (b', id, st) -> ok b' L.
Proof.
  intros O. unfold applyGetLocked. destruct (state_of b k) as [[i s]|] eqn:E.
  - intros [= <- <- <-]. destruct (raise_expire_same s exp) as [A B]. eapply ok_put; [done|done|..]; by destruct (localDelta (raise_expire s exp) =? 0).
  - intros [= <- <- <-]. apply ok_alloc; [done| |done|done]. unfold state_of in E. destruct (windows b !! k) as [i|] eqn:Ew; [|done].
    destruct (ok_map b (ok_sound _ _ O) k i Ew) as [s Hs]. by rewrite Hs in E.
Qed.

Lemma ok_snapshot order : forall b L b' jobs, ok b L -> snapshot order b = (b', jobs) -> ok b' (jobs ++ L).
Proof.
  induction order as [|k order IH]; intros b L b' jobs O; cbn [snapshot]; [by intros [= <- <-]|].
  destruct (due b k) as [[id st]|] eqn:Ed; [|by apply IH].
  set (st' := Build_windowState _ _ _ _). destruct (snapshot order (put b id k st')) as [b1 js] eqn:E. intros [= <- <-].
  eapply ok_perm; [|eapply IH; [|exact E]].
  - cbn [app]. symmetry. apply Permutation_middle.
  - eapply ok_same; [apply (ok_mark b L id k st st' O Ed); done|..]; try done; intros k'; rewrite ?late_update_0; cbn; by rewrite ?add_at_0.
Qed.

Lemma ok_finish_job now j reply b fe b' fe' L :
  ok b (j :: L) -> finish_job now j reply b fe = (b', fe') -> ok b' L.
Proof.
  intros O. unfold finish_job. destruct (job_state b j L O) as (id & st & E & Hd). rewrite E. destruct reply as [n|e]; intros [= <- <-].
  - eapply ok_same; [eapply (ok_unmark b j L id st _ (job_delta j) O E); [|by right|]|..]; try done; try (intros k'; rewrite ?late_update_0; cbn; by rewrite ?add_at_0).
    all: done.
  - eapply ok_same; [eapply (ok_unmark b j L id st _ 0 O E); [|by left|]|..]; try done; try (intros k'; rewrite ?late_update_0; cbn; by rewrite ?add_at_0).
    all: cbn; lia.
Qed.

Lemma ok_set_err b L e : ok b L -> ok (set_err b e) L.
Proof. intros O. by eapply ok_same. Qed.

Lemma ok_set_ok b L now : ok b L -> ok (set_ok b now) L.
Proof. intros O. by eapply ok_same. Qed.

Lemma ok_flush_end now nowUnix probe fe k b L b' p' :
  ok b L -> flush_end now nowUnix probe fe k b = (b', p') -> ok b' L /\ jobs_of p' = [].
Proof.
  intros O. apply (ok_drop_expired _ _ nowUnix) in O. unfold flush_end.
  assert (O' : forall fe : option wcErr, ok (match fe with Some e => set_err (drop_expired nowUnix b) (Some e) | None => drop_expired nowUnix b end) L).
  { intros [e|]; [by apply ok_set_err|done]. }
  specialize (O' fe). destruct k as [|r]; [by intros [= <- <-]|]. destruct fe as [e|]; [by intros [= <- <-]|].
  destruct (lastFlushErr _); [by intros [= <- <-]|]. destruct (contacted _ _); [by intros [= <- <-]|].
  destruct probe as [k|]; [|by intros [= <- <-]]. by destruct (bool_decide _); intros [= <- <-].
Qed.

Lemma ok_flush_next now nowUnix probe fe k jobs b L b' p' :
  ok b (jobs ++ L) -> flush_next now nowUnix probe fe k jobs b = (b', p') -> ok b' (jobs_of p' ++ L).
Proof.
  intros O. unfold flush_next. destruct jobs as [|j jobs]; [|by intros [= <- <-]].
  intros E. destruct (ok_flush_end _ _ _ _ _ _ _ _ _ O E) as [O' ->]. done.
Qed.

Lemma ok_flush_begin c k b L b' p' : ok b L -> flush_begin c k b = (b', p') -> ok b' (jobs_of p' ++ L).
Proof.
  intros O. unfold flush_begin. destruct (snapshot _ b) as [b1 jobs] eqn:E. apply ok_flush_next. by eapply ok_snapshot.
Qed.

Lemma ok_outage c r b L b' p' : ok b L -> outage c r b = (b', p') -> ok b' (jobs_of p' ++ L).
Proof.
  intros O. unfold outage. destruct (lastFlushErr b); [by intros [= <- <-]|]. destruct (contacted _ _); [by intros [= <- <-]|].
  by apply ok_flush_begin.
Qed.

Lemma ok_take_hit c id prev q limit b L b' p' :
  ok b L -> expiring b id -> take_hit c id prev q limit b = (b', p') -> ok b' (jobs_of p' ++ L).
Proof.
  intros O [_ (x & Hx & Hp)]. unfold take_hit. destruct (heap b !! id) as [[k st]|] eqn:Hh; [|by intros [= <- <-]]. set (st' := Build_windowState _ _ _ _). apply ok_outage.
  injection Hx as <-. eapply ok_same; [apply (ok_update b L id k st st' 1 O Hh)|..]; try done.
  - right. split_and!; try done; try lia.
  - intros k'. cbn. by rewrite add_at_0.
Qed.

Lemma ok_take_prev c id prev q limit b L b' p' :
  ok b L -> expiring b id -> take_prev c id prev q limit b = (b', p') -> ok b' (jobs_of p' ++ L).
Proof.
  intros O Hx. unfold take_prev. destruct (state_of b prev) as [[i st]|]; [by apply ok_take_hit|by intros [= <- <-]].
Qed.

Lemma ok_peek_prev c cur prev q limit b L b' p' : ok b L -> peek_prev c cur prev q limit b = (b', p') -> ok b' (jobs_of p' ++ L).
Proof.
  intros O. unfold peek_prev. destruct (state_of b prev) as [[i st]|]; [by apply ok_outage|by intros [= <- <-]].
Qed.

Lemma ok_raise b L k id st exp : ok b L -> state_of b k = Some (id, st) -> ok (put b id k (raise_expire st exp)) L.
Proof.
  intros O E. destruct (raise_expire_same st exp). by eapply ok_put.
Qed.

Lemma ok_run c p b R : ok b (jobs_of p ++ R) -> armed b p -> ok (run c p b).1 (jobs_of (run c p b).2 ++ R).
Proof.
  destruct (run c p b) as [b' p'] eqn:E. cbn [fst snd].
  destruct p; cbn [run jobs_of app armed] in *; intros O A; pose proof (sound_set_ok b (c_now c) (ok_sound _ _ O)) as O1.
  - destruct (state_of b cur) as [[id st]|] eqn:Es; [|by injection E as <- <-].
    pose proof (ok_raise _ _ _ _ _ exp O Es) as O'. destruct (negb _); [|by injection E as <- <-].
    eapply ok_take_prev; [done| |done]. by eapply (proj2 (grows_raise b cur id st exp (ok_sound _ _ O) Es)).
  - destruct (c_reply c) as [n|e]; [|by injection E as <- <-].
    destruct (applyGetLocked _ _ _ _) as [[b1 id] st] eqn:Ea. eapply ok_take_prev; [| |done].
    + eapply ok_apply; [|done]. by apply ok_set_ok.
    + by apply (proj2 (grows_apply _ _ _ _ _ _ _ O1 Ea)).
  - destruct (c_reply c) as [n|e]; [|by injection E as <- <-].
    destruct (applyGetLocked _ _ _ _) as [[b1 i] st] eqn:Ea. eapply ok_take_hit; [| |done].
    + eapply ok_apply; [|done]. by apply ok_set_ok.
    + by eapply expiring_grows, A; apply (proj1 (grows_apply _ _ _ _ _ _ _ O1 Ea)).
  - destruct (state_of b cur) as [[id st]|] eqn:Es; [|by injection E as <- <-].
    pose proof (ok_raise _ _ _ _ _ exp O Es) as O'. by eapply ok_peek_prev.
  - destruct (c_reply c) as [n|e]; [|by injection E as <- <-].
    destruct (applyGetLocked _ _ _ _) as [[b1 id] st] eqn:Ea. eapply ok_peek_prev; [|done]. eapply ok_apply; [|done]. by apply ok_set_ok.
  - destruct (c_reply c) as [n|e]; [|by injection E as <- <-].
    destruct (applyGetLocked _ _ _ _) as [[b1 id] st] eqn:Ea. eapply ok_outage; [|done]. eapply ok_apply; [|done]. by apply ok_set_ok.
  - by eapply ok_flush_begin.
  - destruct (finish_job _ _ _ _ _) as [b1 fe] eqn:Ef. eapply ok_flush_next; [|done]. by eapply ok_finish_job.
  - destruct (c_reply c) as [n|e]; injection E as <- <-; [by apply ok_set_ok|by apply ok_set_err].
  - by injection E as <- <-.
Qed.

(** ** All goroutines *)

Definition all_jobs (T : gmap nat pc) : list pendingFlush := concat (map (fun x => jobs_of x.2) (map_to_list T)).

Lemma all_jobs_insert T t p : T !! t = None -> all_jobs (<[t := p]> T) ≡ₚ jobs_of p ++ all_jobs T.
Proof. intros Ht. unfold all_jobs. by rewrite (map_to_list_insert T t p Ht). Qed.

Lemma all_jobs_move T t p p' : T !! t = Some p -> exists R, all_jobs T ≡ₚ jobs_of p ++ R /\ all_jobs (<[t := p']> T) ≡ₚ jobs_of p' ++ R.
Proof.
  intros Ht. exists (all_jobs (delete t T)). split.
  - rewrite <- (insert_delete_id T t p Ht) at 1. apply all_jobs_insert, lookup_delete_eq.
  - rewrite <- insert_delete_eq. apply all_jobs_insert, lookup_delete_eq.
Qed.

Lemma buffer_inv w : reachable w -> ok (w_buf w) (all_jobs (w_threads w)) /\ forall t p, w_threads w !! t = Some p -> armed (w_buf w) p.
Proof.
  induction 1 as [|w w' _ [IH IA] Hs].
  - split; [|done]. split; [split; try done|constructor| |].
    + intros k. split; [inversion 1|]. by intros (? & ? & ? & _).
    + intros j id st Hj. inversion Hj.
  - destruct Hs as [w t p Ht Hp|w t p c Ht]; cbn [w_buf w_threads].
    + split; [eapply ok_perm; [symmetry; by apply all_jobs_insert|]; by destruct p|].
      intros t' p'. rewrite lookup_insert_Some. intros [[_ <-]|[_ E]]; [by destruct p|by eapply IA].
    + destruct (run_grows c p (w_buf w) (ok_sound _ _ IH) (IA t p Ht)) as [G A]. split.
      * destruct (all_jobs_move _ t p (run c p (w_buf w)).2 Ht) as (R & P1 & P2).
        eapply ok_perm; [symmetry; exact P2|]. apply ok_run; [by eapply ok_perm|by eapply IA].
      * intros t' p'. rewrite lookup_insert_Some. intros [[_ <-]|[_ E]]; [done|]. by eapply armed_grows, IA.
Qed.

(** ** Theorems *)

(** An EVAL in flight is for a mapped window and carries its marked hits. *)
Lemma eval_in_flight w t j jobs now fe a :
  reachable w -> w_threads w !! t = Some (PEval j jobs now fe a) ->
  exists id st, state_of (w_buf w) (job_key j) = Some (id, st) /\ job_delta j = flushDelta st /\ 0 < job_delta j <= localDelta st.
Proof.
  intros [O _]%buffer_inv Ht. destruct (all_jobs_move _ t _ (PRet (false, of_Z 0, None)) Ht) as (R & P & _). cbn [jobs_of app] in P.
  eapply ok_perm in O; [|exact P]. pose proof O as [Os _ Hj _].
  destruct (job_state _ _ _ O) as (id & st & Hs & Hd). exists id, st. split; [done|]. split; [done|].
  destruct (proj1 (Hj (job_key j))) as (id' & st' & Hs' & Hne); [by left|]. rewrite Hs in Hs'. injection Hs' as <- <-.
  destruct (ok_state _ _ _ _ Os Hs) as [_ Hh]. pose proof (ok_st _ Os _ _ _ Hh). lia.
Qed.

Lemma hits_balance w k : reachable w -> taken (w_buf w) k = flushed (w_buf w) k + held (w_buf w) k + late (w_buf w) k.
Proof. intros [O _]%buffer_inv. pose proof (ok_cons _ (ok_sound _ _ O) k). lia. Qed.

(** A late hit: its Take waited for a GET until a flush saw the window expired,
    and dropped it. *)
Definition expired_meanwhile (b : buffer) (k : K) : Prop :=
  exists id st t, heap b !! id = Some (k, st) /\ windows b !! k <> Some id /\ dropped b id = Some t /\ 0 < ws_expireAt st <= t.

Lemma late_expired w k : reachable w -> 0 <= late (w_buf w) k /\ (late (w_buf w) k <> 0 -> expired_meanwhile (w_buf w) k).
Proof.
  intros [[O _ _ _] _]%buffer_inv. destruct (ok_late _ O k) as [H0 H1]. split; [done|]. intros Hn.
  destruct (H1 Hn) as (id & st & Hh & Hw & Hp). destruct (ok_gone _ O id k st Hh Hw) as (t & Hd & Ht). exists id, st, t. split_and!; try done. lia.
Qed.

(** C6: the buffering loses no hit and sends none twice: in every schedule of
    Takes, Peeks, flushes, failures and slow replies, the hits recorded on a key
    are exactly those that a successful EVAL carried to Redis plus those the
    key's window in the map still holds, except for hits whose Take waited for a
    GET until a flush had found that very window past its expiry; every EVAL in
    flight is for a window that is still mapped, carries no more than it holds,
    and no window has two in flight. *)
Theorem hits_conserved w :
  reachable w ->
  (forall k, taken (w_buf w) k = flushed (w_buf w) k + held (w_buf w) k + late (w_buf w) k /\
             0 <= late (w_buf w) k /\ (late (w_buf w) k <> 0 -> expired_meanwhile (w_buf w) k)) /\
  NoDup (map job_key (all_jobs (w_threads w))) /\
  (forall t j jobs now fe a, w_threads w !! t = Some (PEval j jobs now fe a) ->
     exists id st, state_of (w_buf w) (job_key j) = Some (id, st) /\ job_delta j = flushDelta st /\ 0 < job_delta j <= localDelta st).
Proof.
  intros Hr. split; [intros k; split; [by apply hits_balance|by apply late_expired]|]. split; [by eapply ok_nodup, buffer_inv|].
  intros t j jobs now fe a. by apply eval_in_flight.
Qed.

(** ** A probe error that nothing clears *)

Definition peeking (p : pc) : Prop :=
  match p with PPeek _ _ _ _ _ | PPeekCur _ _ _ _ _ | PPeekPrev _ _ _ _ => True | _ => False end.

(** No Take or EVAL is under way. *)
Definition calm (p : pc) : Prop :=
  match p with PPeek _ _ _ _ _ | PPeekCur _ _ _ _ _ | PPeekPrev _ _ _ _ | PFlush | PProbe _ | PRet _ => True | _ => False end.

#[global] Instance calm_dec p : Decision (calm p).
Proof. destruct p; apply _. Defined.

(** An error is retained and no window holds a hit. *)
Definition stuck (b : buffer) : Prop :=
  lastFlushErr b <> None /\ forall id k st, heap b !! id = Some (k, st) -> localDelta st = 0.

Definition quiet (w : world) : Prop := stuck (w_buf w) /\ forall t p, w_threads w !! t = Some p -> calm p.

(** Steps in which only Peeks and flushes are started. *)
Inductive peeks : world -> world -> Prop :=
| pk_refl w : peeks w w
| pk_start w w' t p : peeks w w' -> w_threads w' !! t = None -> peeking p \/ p = PFlush ->
    peeks w (mkWorld (w_buf w') (<[t := p]> (w_threads w')))
| pk_run w w' t p c : peeks w w' -> w_threads w' !! t = Some p ->
    peeks w (mkWorld (run c p (w_buf w')).1 (<[t := (run c p (w_buf w')).2]> (w_threads w'))).

Lemma state_of_heap b k id st : state_of b k = Some (id, st) -> exists k', heap b !! id = Some (k', st).
Proof. by intros [_ ?]%state_of_Some. Qed.

Lemma stuck_put b id k st k0 st0 : stuck b -> heap b !! id = Some (k0, st0) -> localDelta st = localDelta st0 -> stuck (put b id k st).
Proof.
  intros [He Hl] Hh E. split; [done|]. intros id' k' st'. cbn. destruct (decide (id' = id)) as [->|].
  - rewrite lookup_insert_eq. intros [= <- <-]. rewrite E. by eapply Hl.
  - rewrite lookup_insert_ne by done. apply Hl.
Qed.

Lemma stuck_apply b k known exp b' id st : stuck b -> applyGetLocked k known exp b = (b', id, st) -> stuck b'.
Proof.
  intros S. unfold applyGetLocked. destruct (state_of b k) as [[i s]|] eqn:E; intros [= <- <- <-].
  - destruct (state_of_heap _ _ _ _ E) as [k' Hh]. destruct (raise_expire_same s exp) as [_ B].
    eapply stuck_put; [done|done|]. by destruct (localDelta (raise_expire s exp) =? 0).
  - destruct S as [He Hl]. split; [done|]. intros id' k' st'. cbn. destruct (decide (id' = nextId b)) as [->|].
    + rewrite lookup_insert_eq. by intros [= <- <-].
    + rewrite lookup_insert_ne by done. apply Hl.
Qed.

(** With no hit to flush there is no snapshot. *)
Lemma snapshot_stuck order b : stuck b -> snapshot order b = (b, []).
Proof.
  intros [_ Hl]. induction order as [|k order IH]; [done|]. cbn [snapshot]. unfold due.
  destruct (state_of b k) as [[id st]|] eqn:E; [|done]. destruct (state_of_heap _ _ _ _ E) as [k' Hh]. by rewrite (Hl _ _ _ Hh).
Qed.

Lemma stuck_outage c r b : stuck b -> exists e, outage c r b = (b, PRet (r, Some e)).
Proof. intros [He _]. unfold outage. destruct (lastFlushErr b) as [e|]; [by eexists|done]. Qed.

Ltac stays := split_and!; [done|done|unfold failed; intros; discriminate || done].

Lemma stuck_peek_prev c cur prev q limit b :
  stuck b -> stuck (peek_prev c cur prev q limit b).1 /\ calm (peek_prev c cur prev q limit b).2
             /\ (forall r, (peek_prev c cur prev q limit b).2 <> PRet (r, None)).
Proof.
  intros S. unfold peek_prev. destruct (state_of b prev) as [[id st]|]; [|stays].
  destruct (stuck_outage c (admits cur (count_of st) q limit) b S) as [e ->]. stays.
Qed.

Lemma run_stuck c p b :
  stuck b -> calm p ->
  stuck (run c p b).1 /\ calm (run c p b).2 /\ (peeking p -> forall r, (run c p b).2 <> PRet (r, None)).
Proof.
  intros S Hp. assert (S1 : stuck (set_ok b (c_now c))) by exact S. destruct p; cbn [run]; try done.
  - destruct (state_of b cur) as [[id st]|] eqn:E; [|stays]. destruct (state_of_heap _ _ _ _ E) as [k' Hh].
    destruct (stuck_peek_prev c (count_of (raise_expire st exp)) prev q limit (put b id cur (raise_expire st exp))) as (A & B & C).
    + eapply stuck_put; [done|done|]. apply raise_expire_same.
    + stays.
  - destruct (c_reply c) as [n|e]; [|stays].
    destruct (applyGetLocked _ _ _ _) as [[b1 id] st] eqn:Ea. destruct (stuck_peek_prev c (count_of st) prev q limit b1) as (A & B & C).
    + by eapply stuck_apply.
    + stays.
  - destruct (c_reply c) as [n|e]; [|stays].
    destruct (applyGetLocked _ _ _ _) as [[b1 id] st] eqn:Ea. pose proof (stuck_apply _ _ _ _ _ _ _ S1 Ea) as S2.
    destruct (stuck_outage c (admits current (count_of st) q limit) b1 S2) as [e ->]. stays.
  - unfold flush_begin. rewrite (snapshot_stuck _ _ S). cbn [flush_next flush_end]. stays.
  - destruct (c_reply c) as [n|e]; [stays|]. split; [|done]. split; [done|]. apply S.
Qed.

Lemma quiet_peeks w w' : quiet w -> peeks w w' -> quiet w'.
Proof.
  intros Q Hp. induction Hp as [w|w w' t p _ IH Ht Hs|w w' t p c _ IH Ht]; [done| |].
  - destruct (IH Q) as [S C]. split; [done|]. intros t' p'. cbn. destruct (decide (t' = t)) as [->|].
    + rewrite lookup_insert_eq. intros [= <-]. by destruct Hs as [Hs| ->]; [destruct p|].
    + rewrite lookup_insert_ne by done. apply C.
  - destruct (IH Q) as [S C]. destruct (run_stuck c p _ S (C t p Ht)) as (S' & C' & _). split; [done|].
    intros t' p'. cbn. destruct (decide (t' = t)) as [->|].
    + rewrite lookup_insert_eq. by intros [= <-].
    + rewrite lookup_insert_ne by done. apply C.
Qed.

(** An outage that a Peek's probe saw is reported for ever to a client that
    only peeks: while no Take adds a hit, no flush and no successful GET clears
    the retained error, however many succeed, and every Peek returns an
    error. *)
Theorem peek_error_sticks w w' t p c :
  quiet w -> peeks w w' -> w_threads w' !! t = Some p -> peeking p ->
  lastFlushErr (w_buf w') <> None /\ forall r, (run c p (w_buf w')).2 <> PRet (r, None).
Proof.
  intros Q P Ht Hp. destruct (quiet_peeks w w' Q P) as [S C]. split; [apply S|].
  destruct (run_stuck c p _ S (C t p Ht)) as (_ & _ & Hr). by apply Hr.
Qed.

End Buffer.

(** ** A schedule that gets there *)

Section Outage.
Open Scope nat_scope.

Definition at_time (now : Z) (reply : Z + wcErr) (order : list nat) : choice (K := nat) :=
  {| c_now := now; c_order := order; c_reply := reply |}.

(** Key 1 is the current window, key 0 the previous one; sync rate 1 s. *)
Definition run1 (t : nat) (c : choice (K := nat)) (w : world (K := nat)) : world (K := nat) :=
  match w_threads w !! t with
  | Some p => let '(b, p') := run Second c p (w_buf w) in mkWorld b (<[t := p']> (w_threads w))
  | None => w
  end.

Definition spawn (t : nat) (p : pc (K := nat)) (w : world (K := nat)) : world (K := nat) :=
  mkWorld (w_buf w) (<[t := p]> (w_threads w)).

Definition peek : pc (K := nat) := PPeek 1 0 200 (of_Z 1) 10.

(** One Peek reads both windows; a later one probes and the probe fails. *)
Definition outage_seen : world (K := nat) :=
  let w := spawn 0 peek (mkWorld init ∅) in
  let w := run1 0 (at_time (100 * Second) (inl 0%Z) []) w in
  let w := run1 0 (at_time (100 * Second) (inl 3%Z) []) w in
  let w := run1 0 (at_time (100 * Second) (inl 2%Z) []) w in
  let w := spawn 1 peek w in
  let w := run1 1 (at_time (150 * Second) (inl 0%Z) [1]) w in
  run1 1 (at_time (150 * Second) (inr (wRedis Resp.eTimeout)) []) w.

Lemma run1_reachable t c w : reachable Second w -> reachable Second (run1 t c w).
Proof.
  intros H. unfold run1. destruct (w_threads w !! t) as [p|] eqn:E; [|done].
  pose proof (s_run Second w t p c E) as S. destruct (run Second c p (w_buf w)) as [b p']. by eapply r_step.
Qed.

Lemma spawn_reachable t p w : reachable Second w -> w_threads w !! t = None -> starts p -> reachable Second (spawn t p w).
Proof. intros H Ht Hp. eapply r_step; [done|]. by apply s_start. Qed.

Lemma outage_seen_reachable : reachable Second outage_seen.
Proof.
  unfold outage_seen. repeat apply run1_reachable. apply spawn_reachable; [|reflexivity|exact I].
  repeat apply run1_reachable. apply spawn_reachable; [apply r_init|reflexivity|exact I].
Qed.

(** A Take hits window 1 and a flush sends it; while that EVAL is in flight a
    second Take hits the window again, then the EVAL is answered. *)
Definition hits_seen : world (K := nat) :=
  let take := PTake 1 0 200 (of_Z 1) 10 in
  let w := spawn 0 take (mkWorld init ∅) in
  let w := run1 0 (at_time (100 * Second) (inl 0%Z) []) w in
  let w := run1 0 (at_time (100 * Second) (inl 0%Z) []) w in
  let w := run1 0 (at_time (100 * Second) (inl 0%Z) []) w in
  let w := run1 1 (at_time (101 * Second) (inl 0%Z) [1]) (spawn 1 PFlush w) in
  let w := run1 2 (at_time (101 * Second) (inl 0%Z) []) (spawn 2 take w) in
  run1 1 (at_time (101 * Second) (inl 1%Z) [1]) w.

Lemma hits_seen_reachable : reachable Second hits_seen.
Proof.
  unfold hits_seen. do 2 (apply run1_reachable). apply spawn_reachable; [|vm_compute; reflexivity|reflexivity].
  apply run1_reachable, spawn_reachable; [|vm_compute; reflexivity|exact I].
  do 3 apply run1_reachable. apply spawn_reachable; [apply r_init|reflexivity|reflexivity].
Qed.

Lemma hits_conserved_witness :
  taken (w_buf hits_seen) 1 = 2%Z /\ flushed (w_buf hits_seen) 1 = 1%Z /\ late (w_buf hits_seen) 1 = 0%Z /\ held (w_buf hits_seen) 1 = 1%Z.
Proof.
  pose proof (proj1 (proj1 (hits_conserved Second hits_seen hits_seen_reachable) 1)) as H.
  assert (E1 : taken (w_buf hits_seen) 1 = 2%Z) by (vm_compute; reflexivity).
  assert (E2 : flushed (w_buf hits_seen) 1 = 1%Z) by (vm_compute; reflexivity).
  assert (E3 : late (w_buf hits_seen) 1 = 0%Z) by (vm_compute; reflexivity).
  split; [exact E1|]. split; [exact E2|]. split; [exact E3|]. rewrite E1, E2, E3 in H. lia.
Defined.

Lemma peek_error_sticks_witness :
  lastFlushErr (w_buf (spawn 2 peek outage_seen)) <> None /\
  forall n, (run Second (at_time (1000 * Second) (inl n) [1]) peek (w_buf (spawn 2 peek outage_seen))).2 <> PRet ((true, of_Z 5), None).
Proof.
  assert (Q : quiet outage_seen).
  { split; [split; [vm_compute; discriminate|]|].
    - assert (F : map_Forall (fun _ x => localDelta x.2 = 0%Z) (heap (w_buf outage_seen))) by (apply (bool_decide_unpack _); vm_compute; exact I).
      intros id k st E. apply (F id (k, st) E).
    - assert (F : map_Forall (fun _ p => calm p) (w_threads outage_seen)) by (apply (bool_decide_unpack _); vm_compute; exact I).
      intros t p E. apply (F t p E). }
  assert (P : peeks Second outage_seen (spawn 2 peek outage_seen)).
  { apply (pk_start Second _ outage_seen 2 peek); [apply pk_refl|reflexivity|left; exact I]. }
  split.
  - apply (peek_error_sticks Second outage_seen (spawn 2 peek outage_seen) 2 peek (at_time 0 (inl 0%Z) []) Q P eq_refl I).
  - intros n. apply (peek_error_sticks Second outage_seen (spawn 2 peek outage_seen) 2 peek _ Q P eq_refl I).
Defined.
End Outage.
