(* ===== verification/WindowFlush.v ===== *)
(** * WindowFlush: the script a flush runs ([windowcounter/limiter.go])

    [flushScript] on the counters of the engine, with EXISTS, INCRBY and EXPIREAT
    as Redis documents them. *)

From S2P Require Import Prelude.
From S2P Require Import Strconv.
From S2P Require Import WindowCounter.
From Stdlib Require Import ZArith Lia List.
From stdpp Require Import base list option gmap.

Open Scope Z_scope.

(** A counter and the Unix second it expires at, if any. *)
Record counter := mkCounter { value : Z; expires : option Z }.

Section Script.
Context {K : Type} `{Countable K}.

(** What EXISTS and INCRBY see at Unix second [now]: an expired key is gone. *)
Definition present (now : Z) (s : gmap K counter) (k : K) : option counter :=
  s !! k ≫= (fun c => match expires c with Some t => if t <=? now then None else Some c | None => Some c end).

(** INCRBY keeps the expiry, starts a missing key at zero and refuses a sum
    beyond int64 ([None]). *)
Definition incrby (now : Z) (k : K) (d : Z) (s : gmap K counter) : option (Z * gmap K counter) :=
  let c := default (mkCounter 0 None) (present now s k) in
  let v := value c + d in
  if bool_decide (in_int64 v) then Some (v, <[k := mkCounter v (expires c)]> s) else None.

(** EXPIREAT on a key that exists; a moment that has passed deletes it. *)
Definition expireat (now : Z) (k : K) (t : Z) (s : gmap K counter) : gmap K counter :=
  match present now s k with
  | None => s
  | Some c => if t <=? now then delete k s else <[k := mkCounter (value c) (Some t)]> s
  end.

(** [flushScript] on [delta] and [expireAt]: what it returns and the counters
    after it; [None] is the error of INCRBY, which ends the script. *)
Definition flushScript (now : Z) (k : K) (delta expireAt : Z) (s : gmap K counter) : option (Z * gmap K counter) :=
  let exists_ := bool_decide (is_Some (present now s k)) in
  match incrby now k delta s with
  | None => None
  | Some (v, s) => Some (v, if exists_ then s else expireat now k expireAt s)
  end.

(** The flushes of all clients on one key, in the order the engine runs them;
    each at its own second with its own delta.  The values returned and the
    counters after. *)
Fixpoint flushes (k : K) (expireAt : Z) (l : list (Z * Z)) (s : gmap K counter) : option (list Z * gmap K counter) :=
  match l with
  | [] => Some ([], s)
  | (now, delta) :: l =>
      match flushScript now k delta expireAt s with
      | None => None
      | Some (v, s) => match flushes k expireAt l s with
                       | None => None
                       | Some (vs, s) => Some (v :: vs, s)
                       end
      end
  end.

(** The running totals from [v]. *)
Fixpoint totals (v : Z) (l : list Z) : list Z :=
  match l with [] => [] | d :: l => (v + d) :: totals (v + d) l end.

Definition sumZ (l : list Z) : Z := fold_right Z.add 0 l.

Lemma flushScript_present now k d e c s :
  present now s k = Some c -> in_int64 (value c + d) ->
  flushScript now k d e s = Some (value c + d, <[k := mkCounter (value c + d) (expires c)]> s).
Proof.
  intros Hp Hv. unfold flushScript, incrby. rewrite Hp. cbn [default]. rewrite (bool_decide_eq_true_2 _ Hv).
  by rewrite bool_decide_eq_true_2 by (by eexists).
Qed.

Lemma flushScript_new now k d e s :
  present now s k = None -> in_int64 d -> now < e ->
  flushScript now k d e s = Some (d, <[k := mkCounter d (Some e)]> s).
Proof.
  intros Hp Hv He. unfold flushScript, incrby. rewrite Hp. cbn [default value expires]. rewrite Z.add_0_l, (bool_decide_eq_true_2 _ Hv).
  rewrite bool_decide_eq_false_2 by (by intros [? ?]). do 2 f_equal.
  unfold expireat, present. rewrite lookup_insert_eq. cbn. rewrite (proj2 (Z.leb_gt _ _)) by lia. by rewrite insert_insert_eq.
Qed.

Lemma sumZ_pos (e : Z) l : Forall (fun '(now, d) => now < e /\ 0 < d) l -> 0 <= sumZ (map snd l).
Proof.
  induction 1 as [|[n d] l [_ Hd] _ IH]; cbn [map sumZ fold_right snd] in *; [lia|]. fold (sumZ (map snd l)) in *. lia.
Qed.

Lemma flushes_present k e l : forall v s,
  s !! k = Some (mkCounter v (Some e)) -> 0 <= v -> v + sumZ (map snd l) <= int64_max ->
  Forall (fun '(now, d) => now < e /\ 0 < d) l ->
  flushes k e l s = Some (totals v (map snd l), <[k := mkCounter (v + sumZ (map snd l)) (Some e)]> s).
Proof.
  induction l as [|[now d] l IH]; intros v s Hs Hv Hsum Hl; cbn [flushes map totals sumZ fold_right snd] in *.
  { rewrite Z.add_0_r. by rewrite insert_id. }
  apply Forall_cons in Hl as [[Hn Hd] Hl'].
  pose proof (sumZ_pos e l Hl') as Hpos.
  fold (sumZ (map snd l)) in *. rewrite (flushScript_present now k d e (mkCounter v (Some e))).
  - cbn [value expires]. rewrite (IH (v + d)); [|by rewrite lookup_insert_eq|lia|lia|done].
    rewrite insert_insert_eq. by rewrite Z.add_assoc.
  - unfold present. rewrite Hs. cbn. by rewrite (proj2 (Z.leb_gt _ _)) by lia.
  - cbn [value]. unfold in_int64, int64_min. lia.
Qed.

(** The flushes of all clients on one window add up: from a missing
    counter, as long as the window's expiry has not come and the total fits,
    every flush returns the running total, the counter ends as the sum of the
    deltas, its expiry is the one the first flush gave it, and no other key
    changes. *)
Theorem flushes_add_up k e now0 d0 l s :
  present now0 s k = None -> now0 < e -> 0 < d0 ->
  Forall (fun '(now, d) => now < e /\ 0 < d) l -> sumZ (d0 :: map snd l) <= int64_max ->
  exists s', flushes k e ((now0, d0) :: l) s = Some (totals 0 (d0 :: map snd l), s') /\
    s' !! k = Some (mkCounter (sumZ (d0 :: map snd l)) (Some e)) /\ forall k', k' <> k -> s' !! k' = s !! k'.
Proof.
  intros Hp Hn Hd Hl Hsum. cbn [sumZ fold_right] in Hsum. fold (sumZ (map snd l)) in Hsum.
  pose proof (sumZ_pos e l Hl) as Hpos.
  cbn [flushes]. rewrite flushScript_new by (done || unfold in_int64, int64_min; lia).
  rewrite (flushes_present k e l d0); [|by rewrite lookup_insert_eq|lia|lia|done]. rewrite insert_insert_eq.
  eexists. split; [done|]. split; [by rewrite lookup_insert_eq|]. intros k' Hk. by rewrite lookup_insert_ne by congruence.
Qed.

End Script.

(** Two clients flush 3 and 2, then the first one 4 more. *)
Lemma flushes_add_up_witness :
  exists s' : gmap nat counter, flushes 7%nat 180 [(60, 3); (61, 2); (99, 4)] ∅ = Some ([3; 5; 9], s') /\
    s' !! 7%nat = Some (mkCounter 9 (Some 180)).
Proof.
  destruct (flushes_add_up (K := nat) 7%nat 180 60 3 [(61, 2); (99, 4)] ∅) as (s' & A & B & _).
  - reflexivity.
  - lia.
  - lia.
  - repeat constructor; lia.
  - vm_compute. discriminate.
  - exists s'. split; [exact A|exact B].
Defined.
