(* ===== verification/WindowFleet.v ===== *)
(** * WindowFleet: buffered hit counters that share one Redis

    The buffered mode of [windowcounter/limiter.go] put together: any number of
    limiters, each with its goroutines ([WindowBuffer]), whose EVALs run the flush
    script ([WindowFlush]) on one engine.  The engine may run an EVAL at any time
    while it is in flight, more than once when the client retries a lost reply,
    or not at all; a limiter only gets a count back from an EVAL that ran.  The
    replies to its GETs are any counts or errors. *)

From Stdlib Require Import ZArith Lia List.
From stdpp Require Import base list option gmap sets.
From S2P Require Import Prelude.
From S2P Require Import RedisExec.
From S2P Require Import Float64.
From S2P Require Import WindowCounter.
From S2P Require Import WindowBuffer.
From S2P Require Import WindowFlush.

Open Scope Z_scope.

Section Fleet.
Context {K : Type} `{Countable K} (syncRate : Z).

(** What the engine has done for an EVAL in flight: its key, the hits it added
    so far and the count it returned last. *)
Record ran := mkRan { r_key : K; r_sum : Z; r_last : Z }.

(** A limiter and the EVALs of its goroutines that have run. *)
Record client := mkClient { c_world : world (K := K); c_ran : gmap nat ran }.

(** [lost] counts the hits added by runs of the script whose reply was lost. *)
Record fleet := mkFleet { clients : gmap nat client; redis : gmap K counter; lost : K -> Z }.

Definition empty_fleet : fleet := mkFleet ∅ ∅ (fun _ => 0).

Definition new_client : client := mkClient (mkWorld WindowBuffer.init ∅) ∅.

(** Goroutine [t] of the limiter takes its next step. *)
Definition resume (c : choice (K := K)) (t : nat) (p : pc (K := K)) (w : world (K := K)) : world (K := K) :=
  mkWorld (run syncRate c p (w_buf w)).1 (<[t := (run syncRate c p (w_buf w)).2]> (w_threads w)).

Definition is_eval (p : pc (K := K)) : bool := match p with PEval _ _ _ _ _ => true | _ => false end.

(** The hits already added for goroutine [t]'s EVAL. *)
Definition ran_sum (cl : client) (t : nat) : Z := match c_ran cl !! t with Some r => r_sum r | None => 0 end.

(** The counter of a window that has not expired. *)
Definition unexpired (now : Z) (s : gmap K counter) (k : K) : Prop := forall c, s !! k = Some c -> present now s k = Some c.

Definition set_client (f : fleet) (i : nat) (cl : client) : fleet := mkFleet (<[i := cl]> (clients f)) (redis f) (lost f).

(** With [lossy] unset every EVAL runs once and is answered, or fails without
    having run. *)
Inductive fstep (lossy : bool) : fleet -> fleet -> Prop :=
| f_join f i : clients f !! i = None -> fstep lossy f (set_client f i new_client)
| f_start f i cl t p : clients f !! i = Some cl -> w_threads (c_world cl) !! t = None -> starts p ->
    fstep lossy f (set_client f i (mkClient (mkWorld (w_buf (c_world cl)) (<[t := p]> (w_threads (c_world cl)))) (c_ran cl)))
| f_run f i cl t p c : clients f !! i = Some cl -> w_threads (c_world cl) !! t = Some p -> is_eval p = false ->
    fstep lossy f (set_client f i (mkClient (resume c t p (c_world cl)) (c_ran cl)))
| f_script f i cl t j jobs n fe a now v s :
    clients f !! i = Some cl -> w_threads (c_world cl) !! t = Some (PEval j jobs n fe a) ->
    flushScript now (job_key j) (job_delta j) (job_expireAt j) (redis f) = Some (v, s) ->
    unexpired now (redis f) (job_key j) -> now < job_expireAt j -> (lossy = false -> c_ran cl !! t = None) ->
    fstep lossy f (mkFleet (<[i := mkClient (c_world cl) (<[t := mkRan (job_key j) (ran_sum cl t + job_delta j) v]> (c_ran cl))]> (clients f)) s (lost f))
| f_answer f i cl t j jobs n fe a c r :
    clients f !! i = Some cl -> w_threads (c_world cl) !! t = Some (PEval j jobs n fe a) -> c_ran cl !! t = Some r -> c_reply c = inl (r_last r) ->
    fstep lossy f (mkFleet (<[i := mkClient (resume c t (PEval j jobs n fe a) (c_world cl)) (delete t (c_ran cl))]> (clients f)) (redis f)
                     (add_at (lost f) (job_key j) (r_sum r - job_delta j)))
| f_fail f i cl t j jobs n fe a c e :
    clients f !! i = Some cl -> w_threads (c_world cl) !! t = Some (PEval j jobs n fe a) -> c_reply c = inr e ->
    (lossy = false -> c_ran cl !! t = None) ->
    fstep lossy f (mkFleet (<[i := mkClient (resume c t (PEval j jobs n fe a) (c_world cl)) (delete t (c_ran cl))]> (clients f)) (redis f)
                     (add_at (lost f) (job_key j) (ran_sum cl t))).

Inductive freachable (lossy : bool) : fleet -> Prop :=
| fr_init : freachable lossy empty_fleet
| fr_step f f' : freachable lossy f -> fstep lossy f f' -> freachable lossy f'.

(** Sums over all limiters. *)
Definition total_taken (k : K) (f : fleet) : Z := msum (fun cl => taken (w_buf (c_world cl)) k) (clients f).
Definition total_flushed (k : K) (f : fleet) : Z := msum (fun cl => flushed (w_buf (c_world cl)) k) (clients f).
Definition total_held (k : K) (f : fleet) : Z := msum (fun cl => held (w_buf (c_world cl)) k) (clients f).
Definition total_late (k : K) (f : fleet) : Z := msum (fun cl => late (w_buf (c_world cl)) k) (clients f).

Definition redis_count (k : K) (f : fleet) : Z := match redis f !! k with Some c => value c | None => 0 end.

(** ** What a step adds to Redis and to the books *)

Lemma snapshot_flushed order : forall b : buffer (K := K), flushed (snapshot order b).1 = flushed b.
Proof.
  induction order as [|k order IH]; intros b; cbn [snapshot]; [done|]. destruct (due b k) as [[id st]|]; [|done].
  specialize (IH (put b id k {| redisKnown := redisKnown st; localDelta := localDelta st; ws_expireAt := ws_expireAt st; flushDelta := localDelta st |})).
  destruct (snapshot order _) as [b' jobs]. done.
Qed.

Lemma flush_next_flushed now nowUnix probe fe k jobs (b : buffer (K := K)) : flushed (flush_next syncRate now nowUnix probe fe k jobs b).1 = flushed b.
Proof.
  destruct jobs as [|j jobs]; cbn [flush_next]; [|done]. unfold flush_end. destruct fe, k; try done; cbn [lastFlushErr drop_expired drop_windows];
    repeat case_match; done.
Qed.

Lemma flush_begin_flushed c k (b : buffer (K := K)) : flushed (flush_begin syncRate c k b).1 = flushed b.
Proof.
  unfold flush_begin. pose proof (snapshot_flushed (c_order c) b) as Hs. destruct (snapshot (c_order c) b) as [b' jobs]. by rewrite flush_next_flushed.
Qed.

Lemma outage_flushed c r (b : buffer (K := K)) : flushed (outage syncRate c r b).1 = flushed b.
Proof. unfold outage. repeat case_match; try done. apply flush_begin_flushed. Qed.

Lemma get_flushed k known exp (b : buffer (K := K)) : flushed (applyGetLocked k known exp b).1.1 = flushed b.
Proof. unfold applyGetLocked. by destruct (state_of b k) as [[id st]|]. Qed.

Lemma run_flushed c p (b : buffer (K := K)) : is_eval p = false -> flushed (run syncRate c p b).1 = flushed b.
Proof.
  intros Hp. assert (HT : forall id prev q l b0, flushed (take_prev syncRate c id prev q l b0).1 = flushed b0).
  { intros. unfold take_prev, take_hit. repeat case_match; try done. by rewrite outage_flushed. }
  assert (HH : forall id n q l b0, flushed (take_hit syncRate c id n q l b0).1 = flushed b0).
  { intros. unfold take_hit. repeat case_match; try done. by rewrite outage_flushed. }
  assert (HP : forall n prev q l b0, flushed (peek_prev syncRate c n prev q l b0).1 = flushed b0).
  { intros. unfold peek_prev. repeat case_match; try done. by rewrite outage_flushed. }
  destruct p; try done; cbn [run]; try (by apply flush_begin_flushed).
  - destruct (state_of b cur) as [[id st]|]; [|done]. destruct (negb _); [by rewrite HT|done].
  - destruct (c_reply c) as [kn|e]; [|done]. pose proof (get_flushed cur kn exp (set_ok b (c_now c))) as Hg.
    destruct (applyGetLocked _ _ _ _) as [[b' id] st]. by rewrite HT.
  - destruct (c_reply c) as [kn|e]; [|done]. pose proof (get_flushed prev kn 0 (set_ok b (c_now c))) as Hg.
    destruct (applyGetLocked _ _ _ _) as [[b' id'] st]. by rewrite HH.
  - destruct (state_of b cur) as [[id st]|]; [|done]. by rewrite HP.
  - destruct (c_reply c) as [kn|e]; [|done]. pose proof (get_flushed cur kn exp (set_ok b (c_now c))) as Hg.
    destruct (applyGetLocked _ _ _ _) as [[b' id] st]. by rewrite HP.
  - destruct (c_reply c) as [kn|e]; [|done]. pose proof (get_flushed prev kn 0 (set_ok b (c_now c))) as Hg.
    destruct (applyGetLocked _ _ _ _) as [[b' id] st]. by rewrite outage_flushed.
  - by destruct (c_reply c).
Qed.

Lemma eval_flushed c j jobs n fe a (b : buffer (K := K)) :
  flushed (run syncRate c (PEval j jobs n fe a) b).1 =
  match c_reply c, state_of b (job_key j) with
  | inl _, Some _ => add_at (flushed b) (job_key j) (job_delta j)
  | _, _ => flushed b
  end.
Proof.
  cbn [run]. unfold finish_job. destruct (c_reply c) as [v|e]; destruct (state_of b (job_key j)) as [[id st]|]; by rewrite flush_next_flushed.
Qed.

(** The script adds its delta to a counter that has not expired. *)
Lemma script_adds now k d e s v s' :
  flushScript now k d e s = Some (v, s') -> unexpired now s k -> now < e ->
  forall k', match s' !! k' with Some c => value c | None => 0 end
             = match s !! k' with Some c => value c | None => 0 end + if decide (k' = k) then d else 0.
Proof.
  intros Hs Hu He k'. unfold flushScript, incrby in Hs. destruct (bool_decide (in_int64 _)); [|done].
  assert (Hp : present now s k = s !! k).
  { destruct (s !! k) as [c|] eqn:E; [by rewrite (Hu c E)|]. unfold present. by rewrite E. }
  rewrite Hp in Hs. destruct (s !! k) as [c|] eqn:E; cbn [default] in Hs.
  - rewrite bool_decide_eq_true_2 in Hs by (by eexists). injection Hs as <- <-.
    destruct (decide (k' = k)) as [->|]; [by rewrite lookup_insert_eq, E|rewrite lookup_insert_ne by done; lia].
  - rewrite bool_decide_eq_false_2 in Hs by (by intros []). injection Hs as <- <-.
    unfold expireat, present. rewrite lookup_insert_eq. cbn. rewrite (proj2 (Z.leb_gt e now)) by lia. rewrite insert_insert_eq.
    destruct (decide (k' = k)) as [->|]; [by rewrite lookup_insert_eq, E|rewrite lookup_insert_ne by done; lia].
Qed.

Definition ran_at (k : K) (r : ran) : Z := if decide (r_key r = k) then r_sum r else 0.

(** Hits of key [k] one limiter has sent: acknowledged, or run and in flight. *)
Definition sent (k : K) (cl : client) : Z := flushed (w_buf (c_world cl)) k + msum (ran_at k) (c_ran cl).

Lemma ran_add cl t k0 d v k :
  (forall r, c_ran cl !! t = Some r -> r_key r = k0) ->
  msum (ran_at k) (<[t := mkRan k0 (ran_sum cl t + d) v]> (c_ran cl)) = msum (ran_at k) (c_ran cl) + if decide (k = k0) then d else 0.
Proof.
  intros Hk. unfold ran_sum. destruct (c_ran cl !! t) as [r|] eqn:E.
  - rewrite (msum_insert _ _ _ _ _ E). unfold ran_at. cbn. rewrite (Hk r eq_refl). destruct (decide (k0 = k)), (decide (k = k0)); try congruence; lia.
  - rewrite msum_insert_new by done. unfold ran_at at 1. cbn. destruct (decide (k0 = k)), (decide (k = k0)); try congruence; lia.
Qed.

Lemma ran_delete cl t k0 k :
  (forall r, c_ran cl !! t = Some r -> r_key r = k0) ->
  msum (ran_at k) (delete t (c_ran cl)) = msum (ran_at k) (c_ran cl) - if decide (k = k0) then ran_sum cl t else 0.
Proof.
  intros Hk. unfold ran_sum. destruct (c_ran cl !! t) as [r|] eqn:E.
  - rewrite (msum_delete _ _ _ _ E). unfold ran_at at 2. rewrite (Hk r eq_refl). destruct (decide (k0 = k)), (decide (k = k0)); try congruence; lia.
  - rewrite delete_id by done. destruct (decide _); lia.
Qed.

(** ** The books balance *)

Definition ran_ok (lossy : bool) (cl : client) (t : nat) (r : ran) : Prop :=
  exists j jobs n fe a, w_threads (c_world cl) !! t = Some (PEval j jobs n fe a) /\ r_key r = job_key j /\ job_delta j <= r_sum r /\
    (lossy = false -> r_sum r = job_delta j).

Definition client_ok (lossy : bool) (cl : client) : Prop :=
  reachable syncRate (c_world cl) /\ forall t r, c_ran cl !! t = Some r -> ran_ok lossy cl t r.

Record books (lossy : bool) (f : fleet) : Prop := {
  b_client i cl : clients f !! i = Some cl -> client_ok lossy cl;
  b_count k : redis_count k f = msum (sent k) (clients f) + lost f k;
  b_lost k : 0 <= lost f k /\ (lossy = false -> lost f k = 0);
}.

Lemma ran_key lossy cl t j jobs n fe a r :
  client_ok lossy cl -> w_threads (c_world cl) !! t = Some (PEval j jobs n fe a) -> c_ran cl !! t = Some r ->
  r_key r = job_key j /\ job_delta j <= r_sum r /\ (lossy = false -> r_sum r = job_delta j).
Proof. intros [_ Hr] Ht E. destruct (Hr t r E) as (j' & jobs' & n' & fe' & a' & Ht' & H1). rewrite Ht in Ht'. by injection Ht' as <- <- <- <- <-. Qed.

(** One limiter is replaced. *)
Lemma books_set lossy f i cl cl' s l :
  books lossy f -> clients f !! i = Some cl -> client_ok lossy cl' ->
  (forall k, match s !! k with Some c => value c | None => 0 end - redis_count k f = sent k cl' - sent k cl + (l k - lost f k)) ->
  (forall k, 0 <= l k /\ (lossy = false -> l k = 0)) ->
  books lossy (mkFleet (<[i := cl']> (clients f)) s l).
Proof.
  intros [Bc Bn Bl] Hi Hc Hk Hl. split; [|intros k|done].
  - intros i' x. cbn. rewrite lookup_insert_Some. intros [[<- <-]|[_ Hx]]; [done|by eapply Bc].
  - cbn [clients lost]. unfold redis_count at 1. cbn [redis]. rewrite (msum_insert _ _ _ _ _ Hi). specialize (Hk k). specialize (Bn k). lia.
Qed.

Lemma resume_reachable c t p w : reachable syncRate w -> w_threads w !! t = Some p -> reachable syncRate (resume c t p w).
Proof. intros Hr Ht. eapply r_step; [done|]. by apply s_run. Qed.

(** A goroutine without an EVAL that ran moves on. *)
Lemma client_moves lossy cl w' m t :
  client_ok lossy cl -> reachable syncRate w' ->
  (forall t', t' <> t -> w_threads w' !! t' = w_threads (c_world cl) !! t') -> (forall t', t' <> t -> m !! t' = c_ran cl !! t') -> m !! t = None ->
  client_ok lossy (mkClient w' m).
Proof.
  intros [_ Hr] Hw Ht Hm Hn. split; [done|]. cbn [c_ran c_world]. intros t' r E. destruct (decide (t' = t)) as [->|Hne]; [congruence|].
  rewrite Hm in E by done. destruct (Hr t' r E) as (j & jobs & n & fe & a & H1 & H2). exists j, jobs, n, fe, a. cbn [c_world]. by rewrite Ht.
Qed.

Lemma books_eval lossy f i cl t j jobs n fe a c l :
  books lossy f -> clients f !! i = Some cl -> w_threads (c_world cl) !! t = Some (PEval j jobs n fe a) ->
  (forall k, l k = lost f k + if decide (k = job_key j) then ran_sum cl t - match c_reply c with inl _ => job_delta j | inr _ => 0 end else 0) ->
  (forall k, 0 <= l k /\ (lossy = false -> l k = 0)) ->
  books lossy (mkFleet (<[i := mkClient (resume c t (PEval j jobs n fe a) (c_world cl)) (delete t (c_ran cl))]> (clients f)) (redis f) l).
Proof.
  intros B Hi Ht Hl Hl'. pose proof (b_client _ _ B i cl Hi) as Hc. pose proof (proj1 Hc) as Hr.
  apply (books_set lossy f i cl _ (redis f) l B Hi); [| |done].
  - apply (client_moves lossy cl _ _ t); [done|by apply resume_reachable| | |apply lookup_delete_eq].
    + intros t' Hne. cbn. by rewrite lookup_insert_ne.
    + intros t' Hne. by rewrite lookup_delete_ne.
  - intros k. fold (redis_count k f). unfold sent. cbn [c_world c_ran resume w_buf]. rewrite eval_flushed.
    rewrite (ran_delete cl t (job_key j)) by (intros r E; by apply (ran_key lossy cl t j jobs n fe a r Hc Ht E)).
    destruct (eval_in_flight syncRate (c_world cl) t j jobs n fe a Hr Ht) as (id & st & Hs & _). rewrite Hs, Hl.
    destruct (c_reply c); unfold add_at; destruct (decide (k = job_key j)); lia.
Qed.

Lemma books_step lossy f f' : books lossy f -> fstep lossy f f' -> books lossy f'.
Proof.
  intros B S. revert B. destruct S as [f i Hi|f i cl t p Hi Ht Hp|f i cl t p c Hi Ht Hp|f i cl t j jobs n fe a now v s Hi Ht Hs Hu He Hl
    |f i cl t j jobs n fe a c r Hi Ht Hr Hc|f i cl t j jobs n fe a c e Hi Ht Hc Hl]; intros B.
  - destruct B as [Bc Bn Bl]. split; [|intros k|done].
    + intros i' x. cbn. rewrite lookup_insert_Some. intros [[<- <-]|[_ Hx]]; [split; [apply r_init|done]|by eapply Bc].
    + cbn [set_client clients lost]. unfold redis_count. cbn [redis set_client]. rewrite msum_insert_new by done. unfold sent at 1. cbn. rewrite msum_empty.
      specialize (Bn k). unfold redis_count in Bn. lia.
  - pose proof (b_client _ _ B i cl Hi) as Hc. apply (books_set lossy f i cl _ (redis f) (lost f) B Hi); [| |apply (b_lost _ _ B)].
    + destruct (c_ran cl !! t) as [r|] eqn:E.
      { destruct (proj2 Hc t r E) as (? & ? & ? & ? & ? & Ht' & _). congruence. }
      apply (client_moves lossy cl _ _ t); [done| |intros t' Hne; cbn; by rewrite lookup_insert_ne|done|done].
      eapply r_step; [apply Hc|]. by apply s_start.
    + intros k. fold (redis_count k f). unfold sent. cbn. lia.
  - pose proof (b_client _ _ B i cl Hi) as Hc'. apply (books_set lossy f i cl _ (redis f) (lost f) B Hi); [| |apply (b_lost _ _ B)].
    + destruct (c_ran cl !! t) as [r|] eqn:E.
      { destruct (proj2 Hc' t r E) as (? & ? & ? & ? & ? & Ht' & _). rewrite Ht in Ht'. by injection Ht' as ->. }
      apply (client_moves lossy cl _ _ t); [done|apply resume_reachable; [apply Hc'|done]|intros t' Hne; cbn; by rewrite lookup_insert_ne|done|done].
    + intros k. fold (redis_count k f). unfold sent. cbn [c_world c_ran resume w_buf]. rewrite run_flushed by done. lia.
  - pose proof (b_client _ _ B i cl Hi) as Hc. pose proof (eval_in_flight syncRate (c_world cl) t j jobs n fe a (proj1 Hc) Ht) as (id & st & _ & _ & Hd).
    apply (books_set lossy f i cl _ s (lost f) B Hi); [| |apply (b_lost _ _ B)].
    + split; [apply Hc|]. cbn [c_ran c_world]. intros t' r. rewrite lookup_insert_Some. intros [[<- <-]|[Hne E]].
      * exists j, jobs, n, fe, a. cbn [c_world r_key r_sum]. split_and!; try done.
        { unfold ran_sum. destruct (c_ran cl !! t) as [r|] eqn:E; [|lia]. pose proof (ran_key lossy cl t j jobs n fe a r Hc Ht E) as (_ & ? & _). lia. }
        { intros Hlo. unfold ran_sum. by rewrite (Hl Hlo). }
      * destruct (proj2 Hc t' r E) as (j' & jobs' & n' & fe' & a' & H1 & H2). by exists j', jobs', n', fe', a'.
    + intros k. unfold redis_count. rewrite (script_adds _ _ _ _ _ _ _ Hs Hu He k). unfold sent. cbn [c_world c_ran].
      rewrite (ran_add cl t (job_key j)) by (intros r E; by apply (ran_key lossy cl t j jobs n fe a r Hc Ht E)). lia.
  - pose proof (b_client _ _ B i cl Hi) as Hcl. pose proof (ran_key lossy cl t j jobs n fe a r Hcl Ht Hr) as (_ & H1 & H2).
    apply (books_eval lossy f i cl t j jobs n fe a c _ B Hi Ht).
    + intros k. rewrite Hc. unfold add_at, ran_sum. rewrite Hr. destruct (decide (k = job_key j)); lia.
    + intros k. pose proof (b_lost _ _ B k) as [Hb1 Hb2]. unfold add_at. destruct (decide (k = job_key j)); [|done]. split; [lia|].
      intros Hlo. rewrite (H2 Hlo), (Hb2 Hlo). lia.
  - pose proof (b_client _ _ B i cl Hi) as Hcl. apply (books_eval lossy f i cl t j jobs n fe a c _ B Hi Ht).
    + intros k. rewrite Hc. unfold add_at. destruct (decide (k = job_key j)); lia.
    + intros k. pose proof (b_lost _ _ B k) as [Hb1 Hb2]. unfold add_at. destruct (decide (k = job_key j)); [|done].
      pose proof (eval_in_flight syncRate (c_world cl) t j jobs n fe a (proj1 Hcl) Ht) as (id & st & _ & _ & Hd). split.
      * unfold ran_sum. destruct (c_ran cl !! t) as [r|] eqn:E; [|lia]. pose proof (ran_key lossy cl t j jobs n fe a r Hcl Ht E) as (_ & ? & _). lia.
      * intros Hlo. unfold ran_sum. rewrite (Hl Hlo), (Hb2 Hlo). lia.
Qed.

Lemma books_reachable lossy f : freachable lossy f -> books lossy f.
Proof.
  induction 1 as [|f f' _ IH S]; [|by eapply books_step]. split; [done| |done]. intros k. unfold redis_count. cbn. by rewrite lookup_empty, msum_empty.
Qed.

Lemma ran_nonneg lossy cl k : client_ok lossy cl -> 0 <= msum (ran_at k) (c_ran cl).
Proof.
  intros Hc. assert (H1 : forall t r, c_ran cl !! t = Some r -> 0 <= r_sum r).
  { intros t r E. destruct (proj2 Hc t r E) as (j & jobs & n & fe & a & Ht & _ & Hle & _).
    pose proof (eval_in_flight syncRate (c_world cl) t j jobs n fe a (proj1 Hc) Ht) as (id & st & _ & _ & Hd). lia. }
  revert H1. generalize (c_ran cl). intros m. induction m as [|t r m Hn IH] using map_ind; intros H1; [by rewrite msum_empty|].
  rewrite msum_insert_new by done. assert (0 <= r_sum r) by (apply (H1 t); apply lookup_insert_eq).
  assert (0 <= msum (ran_at k) m). { apply IH. intros t' r' E. apply (H1 t'). rewrite lookup_insert_ne; [done|congruence]. }
  unfold ran_at at 1. destruct (decide _); lia.
Qed.

Lemma msum_eq {A} (f g : A -> Z) (m : gmap nat A) : (forall i a, m !! i = Some a -> f a = g a) -> msum f m = msum g m.
Proof.
  induction m as [|i a m Hn IH] using map_ind; intros Hfg; [by rewrite !msum_empty|]. rewrite !msum_insert_new by done.
  rewrite (Hfg i a) by apply lookup_insert_eq. f_equal. apply IH. intros i' a' E. apply (Hfg i'). rewrite lookup_insert_ne; [done|congruence].
Qed.

Lemma msum_plus {A} (f g : A -> Z) (m : gmap nat A) : msum (fun a => f a + g a) m = msum f m + msum g m.
Proof. induction m as [|i a m Hn IH] using map_ind; [by rewrite !msum_empty|]. rewrite !msum_insert_new by done. lia. Qed.

Lemma msum_nonneg_at {A} (f : A -> Z) (m : gmap nat A) : (forall i a, m !! i = Some a -> 0 <= f a) -> 0 <= msum f m.
Proof.
  induction m as [|i a m Hn IH] using map_ind; intros Hf; [by rewrite msum_empty|]. rewrite msum_insert_new by done.
  pose proof (Hf i a (lookup_insert_eq _ _ _)). assert (0 <= msum f m); [|lia].
  apply IH. intros i' a' E. apply (Hf i'). rewrite lookup_insert_ne; [done|congruence].
Qed.

(** C7: Redis never under-counts the buffered limiters: over any number of
    limiters, goroutines, flushes, failures, retries and lost replies, while the
    window's counter has not expired in Redis, that counter plus the hits the
    limiters' windows still hold is at least the hits they recorded, except for
    hits of a limiter whose Take waited for a GET until its flush had found the
    window past its expiry; and where every EVAL runs once and is answered, or
    fails without running, they are equal whenever no EVAL that ran is in
    flight. *)
Theorem redis_never_undercounts lossy f k :
  freachable lossy f ->
  total_taken k f <= redis_count k f + total_held k f + total_late k f /\
  (lossy = false -> (forall i cl, clients f !! i = Some cl -> c_ran cl = ∅) ->
     total_taken k f = redis_count k f + total_held k f + total_late k f) /\
  ((forall i cl, clients f !! i = Some cl -> ~ expired_meanwhile (w_buf (c_world cl)) k) -> total_late k f = 0).
Proof.
  intros Hr. apply books_reachable in Hr as B. pose proof (b_count _ _ B k) as Hn. pose proof (b_lost _ _ B k) as [Hl1 Hl2].
  assert (Ht : total_taken k f = total_flushed k f + total_held k f + total_late k f).
  { unfold total_taken, total_flushed, total_held, total_late. rewrite <- !msum_plus. apply msum_eq. intros i cl Hi.
    by apply (hits_balance syncRate), (b_client _ _ B i cl Hi). }
  assert (Hs : msum (sent k) (clients f) = total_flushed k f + msum (fun cl => msum (ran_at k) (c_ran cl)) (clients f)).
  { unfold total_flushed. by rewrite <- msum_plus. }
  split; [|split].
  - assert (0 <= msum (fun cl => msum (ran_at k) (c_ran cl)) (clients f)); [|lia].
    apply msum_nonneg_at. intros i cl Hi. by eapply ran_nonneg, (b_client _ _ B i).
  - intros Hlo He. rewrite (Hl2 Hlo) in Hn. rewrite (msum_zero_all (fun cl => msum (ran_at k) (c_ran cl)) (clients f)) in Hs; [lia|].
    intros i cl Hi. rewrite (He i cl Hi). apply msum_empty.
  - intros He. apply msum_zero_all. intros i cl Hi. destruct (late_expired syncRate (c_world cl) k) as [_ H1]; [by apply (b_client _ _ B i cl Hi)|].
    destruct (decide (late (w_buf (c_world cl)) k = 0)) as [|Hne]; [done|]. by exfalso; apply (He i cl Hi), H1.
Qed.

End Fleet.

(** ** A run *)

Section Run.
Context (lossy : bool).
Abbreviation fl := (fleet (K := nat)).

Definition go_start (i t : nat) (p : pc (K := nat)) (f : fl) : fl :=
  match clients f !! i with
  | Some cl => set_client f i (mkClient (mkWorld (w_buf (c_world cl)) (<[t := p]> (w_threads (c_world cl)))) (c_ran cl))
  | None => f
  end.

Definition go_run (i t : nat) (c : choice (K := nat)) (f : fl) : fl :=
  match clients f !! i with
  | Some cl => match w_threads (c_world cl) !! t with
               | Some p => if is_eval p then f else set_client f i (mkClient (resume Second c t p (c_world cl)) (c_ran cl))
               | None => f
               end
  | None => f
  end.

(** The script runs for goroutine [t] at [now]. *)
Definition go_script (i t : nat) (now : Z) (f : fl) : fl :=
  match clients f !! i with
  | Some cl =>
      match w_threads (c_world cl) !! t with
      | Some (PEval j _ _ _ _) =>
          match flushScript now (job_key j) (job_delta j) (job_expireAt j) (redis f) with
          | Some (v, s) => mkFleet (<[i := mkClient (c_world cl) (<[t := mkRan (job_key j) (ran_sum cl t + job_delta j) v]> (c_ran cl))]> (clients f)) s (lost f)
          | None => f
          end
      | _ => f
      end
  | None => f
  end.

Definition go_answer (i t : nat) (now : Z) (f : fl) : fl :=
  match clients f !! i with
  | Some cl =>
      match w_threads (c_world cl) !! t, c_ran cl !! t with
      | Some (PEval j jobs n fe a), Some r =>
          mkFleet (<[i := mkClient (resume Second (at_time now (inl (r_last r)) [1%nat]) t (PEval j jobs n fe a) (c_world cl)) (delete t (c_ran cl))]> (clients f))
            (redis f) (add_at (lost f) (job_key j) (r_sum r - job_delta j))
      | _, _ => f
      end
  | None => f
  end.

Lemma go_start_ok i t p f :
  freachable Second lossy f -> (match clients f !! i with Some cl => w_threads (c_world cl) !! t = None | None => True end) -> starts p ->
  freachable Second lossy (go_start i t p f).
Proof. intros Hr Ht Hp. unfold go_start. destruct (clients f !! i) eqn:E; [|done]. eapply fr_step; [done|]. by apply f_start. Qed.

Lemma go_run_ok i t c f : freachable Second lossy f -> freachable Second lossy (go_run i t c f).
Proof.
  intros Hr. unfold go_run. destruct (clients f !! i) eqn:E; [|done]. destruct (w_threads _ !! t) as [p|] eqn:Ht; [|done].
  destruct (is_eval p) eqn:Hp; [done|]. eapply fr_step; [done|]. by apply f_run.
Qed.

Lemma go_script_ok i t now f :
  freachable Second lossy f -> (match clients f !! i with Some cl => c_ran cl !! t = None | None => True end) ->
  (forall k c, redis f !! k = Some c -> present now (redis f) k = Some c) ->
  (match clients f !! i with Some cl => match w_threads (c_world cl) !! t with Some (PEval j _ _ _ _) => now < job_expireAt j | _ => True end | None => True end) ->
  freachable Second lossy (go_script i t now f).
Proof.
  intros Hr Hn Hu He. unfold go_script. destruct (clients f !! i) as [cl|] eqn:E; [|done]. destruct (w_threads _ !! t) as [p|] eqn:Ht; [|done].
  destruct p; try done. destruct (flushScript _ _ _ _ _) as [[v s]|] eqn:Hs; [|done]. rewrite ?E in Hn, He; rewrite ?Ht in He.
  eapply fr_step; [done|]. eapply f_script; [done..| |done|by intros _]. intros c Hc. by apply Hu.
Qed.

Lemma go_answer_ok i t now f : freachable Second lossy f -> freachable Second lossy (go_answer i t now f).
Proof.
  intros Hr. unfold go_answer. destruct (clients f !! i) as [cl|] eqn:E; [|done]. destruct (w_threads _ !! t) as [p|] eqn:Ht; [|done].
  destruct p; try done. destruct (c_ran cl !! t) as [r|] eqn:Er; [|done]. eapply fr_step; [done|]. by eapply f_answer.
Qed.

(** Limiter [i] takes a hit on window 1. *)
Definition take_one (i : nat) (f : fl) : fl :=
  let f := go_start i 0 (PTake 1%nat 0%nat 200 (of_Z 1) 10) (set_client f i new_client) in
  let f := go_run i 0 (at_time (100 * Second) (inl 0) []) f in
  let f := go_run i 0 (at_time (100 * Second) (inl 0) []) f in
  go_run i 0 (at_time (100 * Second) (inl 0) []) f.

(** Two limiters have a hit each, and the first is about to flush its own. *)
Definition hits_taken : fl :=
  go_run 0 1 (at_time (101 * Second) (inl 0) [1%nat]) (go_start 0 1 PFlush (take_one 1 (take_one 0 empty_fleet))).

Definition one_flushed : fl := go_answer 0 1 (101 * Second) (go_script 0 1 101 hits_taken).

Lemma take_one_ok i f : freachable Second lossy f -> clients f !! i = None -> freachable Second lossy (take_one i f).
Proof.
  intros Hr Hi. unfold take_one. do 3 apply go_run_ok. apply go_start_ok; [|cbn [clients set_client]; by rewrite lookup_insert_eq|reflexivity].
  eapply fr_step; [done|]. by apply f_join.
Qed.

Lemma hits_taken_reachable : freachable Second lossy hits_taken.
Proof.
  unfold hits_taken. apply go_run_ok, go_start_ok; [|vm_compute; reflexivity|exact Logic.I].
  apply take_one_ok; [|vm_compute; reflexivity]. apply take_one_ok; [apply fr_init|reflexivity].
Qed.

Lemma one_flushed_reachable : freachable Second lossy one_flushed.
Proof.
  unfold one_flushed. apply go_answer_ok, go_script_ok; [apply hits_taken_reachable|vm_compute; reflexivity| |vm_compute; reflexivity].
  assert (redis hits_taken = ∅) as -> by (vm_compute; reflexivity). intros k c Hk. by rewrite lookup_empty in Hk.
Qed.

End Run.

Lemma redis_never_undercounts_witness :
  total_taken 1%nat one_flushed = 2 /\ redis_count 1%nat one_flushed = 1 /\ total_late 1%nat one_flushed = 0 /\ total_held 1%nat one_flushed = 1.
Proof.
  pose proof (proj1 (proj2 (redis_never_undercounts Second false one_flushed 1%nat (one_flushed_reachable false))) eq_refl) as H.
  assert (F : map_Forall (fun _ cl => c_ran cl = ∅) (clients one_flushed)) by (apply (bool_decide_unpack _); vm_compute; exact Logic.I).
  specialize (H F).
  assert (E1 : total_taken 1%nat one_flushed = 2) by (vm_compute; reflexivity).
  assert (E2 : redis_count 1%nat one_flushed = 1) by (vm_compute; reflexivity).
  assert (E3 : total_late 1%nat one_flushed = 0) by (vm_compute; reflexivity).
  split; [exact E1|]. split; [exact E2|]. split; [exact E3|]. rewrite E1, E2, E3 in H. lia.
Defined.
