(* ===== verification/WindowTimer.v ===== *)
(** * WindowTimer: the flush timer of the hit counter
    ([windowcounter/limiter.go]: [New], [Sleep], [Wake], [Close],
    [startFlushLocked], [flushAfterTick], [stopFlushAndWait])

    A step relation over the goroutines that sleep, wake and close one buffered
    limiter and the timer goroutines.  A step is one critical section under
    [l.mu], one [timer.Stop], one WaitGroup operation, or one whole flush, whose
    effect on the windows is the business of the buffer's own model. *)

From S2P Require Import Prelude.
From Stdlib Require Import ZArith Lia List.
From stdpp Require Import base list option gmap sets.

Open Scope Z_scope.

Inductive pc :=
| PSleep                      (* Sleep: flushPending next *)
| PWake
| PClose                      (* Close: first critical section *)
| PCloseFlush                 (* Close: flushPending next *)
| PStop                       (* stopFlushAndWait: first critical section *)
| PStopTimer (id : nat)       (* timer.Stop() *)
| PStopDone                   (* flushBusy.Done() after a successful Stop *)
| PStopWait                   (* flushBusy.Wait() *)
| PStopEnd                    (* second critical section *)
| PTick                       (* flushAfterTick: flushPending next *)
| PTickEnd                    (* flushAfterTick: critical section *)
| PTickDone                   (* flushBusy.Done() *)
| PRet.

(** [armed] are the AfterFunc timers that have neither fired nor been stopped. *)
Record limiter := mkLimiter {
  closed : bool;
  stopping : bool;
  flushTimer : option nat;
  flushBusy : Z;
  armed : gset nat;
  nextTimer : nat;
  threads : gmap nat pc;
}.

Definition set_pc (l : limiter) (t : nat) (p : pc) : limiter :=
  mkLimiter (closed l) (stopping l) (flushTimer l) (flushBusy l) (armed l) (nextTimer l) (<[t := p]> (threads l)).

(** [l.flushTimer = time.AfterFunc(...)] *)
Definition arm (l : limiter) : limiter :=
  mkLimiter (closed l) (stopping l) (Some (nextTimer l)) (flushBusy l) ({[nextTimer l]} ∪ armed l) (S (nextTimer l)) (threads l).

Definition busy_add (l : limiter) (d : Z) : limiter :=
  mkLimiter (closed l) (stopping l) (flushTimer l) (flushBusy l + d) (armed l) (nextTimer l) (threads l).

Definition disarm (l : limiter) (id : nat) : limiter :=
  mkLimiter (closed l) (stopping l) (flushTimer l) (flushBusy l) (armed l ∖ {[id]}) (nextTimer l) (threads l).

(** [startFlushLocked] *)
Definition startFlushLocked (l : limiter) : limiter :=
  match flushTimer l with Some _ => l | None => arm (busy_add l 1) end.

(** [New] with a positive sync rate. *)
Definition New_buffered : limiter := startFlushLocked (mkLimiter false false None 0 ∅ 0 ∅).

(** [Wake] of a limiter with a positive sync rate. *)
Definition Wake (l : limiter) : limiter :=
  if closed l || bool_decide (is_Some (flushTimer l)) || stopping l then l else startFlushLocked l.

(** [Close], first critical section: what runs next. *)
Definition close_begin (l : limiter) : limiter * pc :=
  if closed l then (l, PRet)
  else (mkLimiter true (stopping l) (flushTimer l) (flushBusy l) (armed l) (nextTimer l) (threads l), PCloseFlush).

(** [stopFlushAndWait], first critical section. *)
Definition stop_begin (l : limiter) : limiter * pc :=
  match flushTimer l with
  | None => (mkLimiter (closed l) false None (flushBusy l) (armed l) (nextTimer l) (threads l), PRet)
  | Some id => (mkLimiter (closed l) true None (flushBusy l) (armed l) (nextTimer l) (threads l), PStopTimer id)
  end.

(** [timer.Stop()] *)
Definition stop_timer (l : limiter) (id : nat) : limiter * pc :=
  if bool_decide (id ∈ armed l) then (disarm l id, PStopDone) else (l, PStopWait).

(** [stopFlushAndWait], second critical section. *)
Definition stop_end (l : limiter) : limiter :=
  mkLimiter (closed l) false (flushTimer l) (flushBusy l) (armed l) (nextTimer l) (threads l).

(** [flushAfterTick] after its flush. *)
Definition tick_end (l : limiter) : limiter * pc :=
  if closed l || stopping l || negb (bool_decide (is_Some (flushTimer l))) then (l, PTickDone) else (arm l, PRet).

Definition starts (p : pc) : bool := match p with PSleep | PWake | PClose => true | _ => false end.

(** The next operation of a goroutine; [None] is one that waits. *)
Definition run (p : pc) (l : limiter) : option (limiter * pc) :=
  match p with
  | PSleep => Some (l, PStop)
  | PWake => Some (Wake l, PRet)
  | PClose => Some (close_begin l)
  | PCloseFlush => Some (l, PStop)
  | PStop => Some (stop_begin l)
  | PStopTimer id => Some (stop_timer l id)
  | PStopDone => Some (busy_add l (-1), PStopWait)
  | PStopWait => if flushBusy l =? 0 then Some (l, PStopEnd) else None
  | PStopEnd => Some (stop_end l, PRet)
  | PTick => Some (l, PTickEnd)
  | PTickEnd => Some (tick_end l)
  | PTickDone => Some (busy_add l (-1), PRet)
  | PRet => None
  end.

Inductive step : limiter -> limiter -> Prop :=
| s_start l t p : threads l !! t = None -> starts p = true -> step l (set_pc l t p)
| s_fire l t id : threads l !! t = None -> id ∈ armed l -> step l (set_pc (disarm l id) t PTick)
| s_run l t p l' p' : threads l !! t = Some p -> run p l = Some (l', p') -> step l (set_pc l' t p').

Inductive reachable : limiter -> Prop :=
| r_init : reachable New_buffered
| r_step l l' : reachable l -> step l l' -> reachable l'.

(** Inside [stopFlushAndWait] past its first section, with the timer taken. *)
Definition inner (p : pc) : Z := match p with PStopTimer _ | PStopDone | PStopWait | PStopEnd => 1 | _ => 0 end.

(** Schedules in which calls of [stopFlushAndWait] do not overlap. *)
Inductive reachable_seq : limiter -> Prop :=
| q_init : reachable_seq New_buffered
| q_step l l' : reachable_seq l -> step l l' ->
    (forall t, threads l !! t = Some PStop -> threads l' !! t <> Some PStop -> msum inner (threads l) = 0) -> reachable_seq l'.

(** ** The WaitGroup *)

(** Goroutines that still owe a Done. *)
Definition owes (p : pc) : Z := match p with PTick | PTickEnd | PTickDone | PStopDone => 1 | _ => 0 end.

Definition counted (l : limiter) : Prop :=
  flushBusy l = Z.of_nat (size (armed l)) + msum owes (threads l) /\ (forall id, id ∈ armed l -> (id < nextTimer l)%nat).

Lemma owes_nonneg p : 0 <= owes p.
Proof. destruct p; simpl; lia. Qed.

Lemma inner_nonneg p : 0 <= inner p.
Proof. destruct p; simpl; lia. Qed.

Lemma size_disarm l id : id ∈ armed l -> size (armed l) = S (size (armed l ∖ {[id]})).
Proof. intros H. rewrite (union_difference_singleton_L id (armed l)) at 1 by done. rewrite size_union by set_solver. by rewrite size_singleton. Qed.

Lemma size_arm l : (forall id, id ∈ armed l -> (id < nextTimer l)%nat) -> size ({[nextTimer l]} ∪ armed l) = S (size (armed l)).
Proof.
  intros H. rewrite size_union, size_singleton; [done|]. intros x Hx%elem_of_singleton Hin. subst. apply H in Hin. lia.
Qed.

(** One goroutine's operation: the counter moves with what it owes and arms. *)
Lemma run_counted p l l' p' :
  run p l = Some (l', p') -> (forall id, id ∈ armed l -> (id < nextTimer l)%nat) ->
  threads l' = threads l /\ (forall id, id ∈ armed l' -> (id < nextTimer l')%nat) /\
  flushBusy l' - flushBusy l = Z.of_nat (size (armed l')) - Z.of_nat (size (armed l)) + owes p' - owes p.
Proof.
  intros Hr Hf. assert (Hf' : forall id, id ∈ {[nextTimer l]} ∪ armed l -> (id < S (nextTimer l))%nat).
  { intros id [->%elem_of_singleton|H%Hf]%elem_of_union; lia. }
  assert (Hself : forall p', threads l = threads l /\ (forall id, id ∈ armed l -> (id < nextTimer l)%nat) /\
    flushBusy l - flushBusy l = Z.of_nat (size (armed l)) - Z.of_nat (size (armed l)) + owes p' - owes p') by (intros; split_and!; [done|done|lia]).
  destruct p; cbn [run] in Hr; try discriminate Hr.
  - injection Hr as <- <-. apply (Hself PStop).
  - injection Hr as <- <-. unfold Wake, startFlushLocked. destruct (closed l || _ || stopping l); [apply (Hself PRet)|].
    destruct (flushTimer l); [apply (Hself PRet)|]. split_and!; [done|done|]. cbn. rewrite (size_arm l Hf). lia.
  - unfold close_begin in Hr. destruct (closed l); injection Hr as <- <-; cbn; apply (Hself PRet).
  - injection Hr as <- <-. apply (Hself PStop).
  - unfold stop_begin in Hr. destruct (flushTimer l); injection Hr as <- <-; cbn; apply (Hself PRet).
  - unfold stop_timer in Hr. destruct (bool_decide _) eqn:E; injection Hr as <- <-; [|apply (Hself PRet)].
    apply bool_decide_eq_true in E. cbn. split_and!; [done|set_solver|]. rewrite (size_disarm l id E). lia.
  - injection Hr as <- <-. cbn. split_and!; [done|done|lia].
  - destruct (flushBusy l =? 0); [|done]. injection Hr as <- <-. apply (Hself PRet).
  - injection Hr as <- <-. cbn. apply (Hself PRet).
  - injection Hr as <- <-. apply (Hself PTick).
  - unfold tick_end in Hr. destruct (closed l || stopping l || _); injection Hr as <- <-; [apply (Hself PTick)|].
    cbn. split_and!; [done|done|]. rewrite (size_arm l Hf). lia.
  - injection Hr as <- <-. cbn. split_and!; [done|done|lia].
Qed.

Lemma step_counted l l' : counted l -> step l l' -> counted l'.
Proof.
  intros [Hb Hf] Hs. destruct Hs as [l t p Ht Hp|l t id Ht Hin|l t p l' p' Ht Hr];
    (split; [cbn [set_pc disarm flushBusy armed threads]|]).
  - rewrite msum_insert_new by done. destruct p; try done; cbn [owes]; lia.
  - done.
  - rewrite msum_insert_new by done. rewrite (size_disarm l id Hin) in Hb. cbn [owes]. lia.
  - cbn [set_pc disarm armed nextTimer]. set_solver.
  - destruct (run_counted p l l' p' Hr Hf) as (Et & Hf' & Hd). rewrite Et, (msum_insert _ _ _ _ _ Ht). lia.
  - by destruct (run_counted p l l' p' Hr Hf) as (Et & Hf' & Hd).
Qed.

Lemma counted_reachable l : reachable l -> counted l.
Proof.
  induction 1 as [|l l' _ IH Hs]; [|by eapply step_counted]. split; [|cbn; set_solver].
  cbn. rewrite msum_empty, size_union, size_singleton, size_empty by set_solver. done.
Qed.

(** C32: the WaitGroup counts the armed timers and the goroutines that owe a
    Done, in every schedule; so it never goes negative, no Done panics, and
    when [stopFlushAndWait]'s wait returns no timer is armed and no tick is
    running, provided nothing was started since. *)
Theorem flushBusy_counts_ticks l :
  reachable l ->
  flushBusy l = Z.of_nat (size (armed l)) + msum owes (threads l) /\
  (forall t p, threads l !! t = Some p -> owes p = 1 -> 0 < flushBusy l) /\
  (forall t l' p', threads l !! t = Some PStopWait -> run PStopWait l = Some (l', p') ->
     armed l = ∅ /\ forall t' p, threads l !! t' = Some p -> owes p = 0).
Proof.
  intros [Hb _]%counted_reachable. split; [done|].
  pose proof (msum_nonneg owes (threads l) owes_nonneg) as Hn. split.
  - intros t p Ht Ho. pose proof (msum_lookup owes _ _ _ owes_nonneg Ht). lia.
  - intros t l' p' _ Hr. cbn in Hr. destruct (Z.eqb_spec (flushBusy l) 0) as [E|]; [|done].
    split; [apply leibniz_equiv, size_empty_iff; lia|]. intros t' p Ht'. apply (msum_zero owes (threads l) t' p owes_nonneg); [lia|done].
Qed.

(** ** One ticker *)

(** What holds when stops do not overlap. *)
Record single (l : limiter) : Prop := {
  sg_busy : flushBusy l <= 1;
  sg_inner : msum inner (threads l) = if stopping l then 1 else 0;
  sg_stopping : stopping l = true -> flushTimer l = None;
  sg_idle : stopping l = false -> flushTimer l = None -> flushBusy l = 0;
  sg_end t : threads l !! t = Some PStopEnd -> flushBusy l = 0;
}.

Lemma busy_nonneg l : counted l -> 0 <= flushBusy l.
Proof. intros [-> _]. pose proof (msum_nonneg owes (threads l) owes_nonneg). lia. Qed.

Lemma single_init : single New_buffered.
Proof.
  split; cbn [New_buffered startFlushLocked flushTimer arm busy_add flushBusy stopping threads]; try done.
Qed.

(** The stopper is alone. *)
Lemma inner_alone l t t' p p' :
  single l -> threads l !! t = Some p -> threads l !! t' = Some p' -> inner p = 1 -> inner p' = 1 -> t = t'.
Proof.
  intros S Ht Ht' H H'. destruct (decide (t = t')) as [|Hne]; [done|].
  pose proof (msum_lookup2 inner _ _ _ _ _ inner_nonneg Ht Ht' Hne). pose proof (sg_inner l S). destruct (stopping l); lia.
Qed.

Lemma sg_not_inner l t p : single l -> threads l !! t = Some p -> inner p = 1 -> stopping l = true.
Proof.
  intros S Ht Hp. pose proof (msum_lookup inner _ _ _ inner_nonneg Ht). pose proof (sg_inner l S). destruct (stopping l); [done|lia].
Qed.

(** A goroutine moves and the other fields satisfy the conditions. *)
Lemma single_move l l' t p p' :
  single l -> threads l !! t = Some p -> threads l' = threads l ->
  flushBusy l' <= 1 ->
  (if stopping l' then 1 else 0) = (if stopping l then 1 else 0) - inner p + inner p' ->
  (stopping l' = true -> flushTimer l' = None) -> (stopping l' = false -> flushTimer l' = None -> flushBusy l' = 0) ->
  (p' = PStopEnd -> flushBusy l' = 0) -> (flushBusy l = 0 -> stopping l = true -> inner p = 0 -> flushBusy l' = 0) ->
  single (set_pc l' t p').
Proof.
  intros S Ht Et Hb Hi Hst Hid Hend Hoth. split; cbn [set_pc flushBusy stopping flushTimer threads]; try done.
  - rewrite Et, (msum_insert _ _ _ _ _ Ht), (sg_inner l S). lia.
  - intros t'. rewrite Et. destruct (decide (t' = t)) as [->|Hne].
    + rewrite lookup_insert_eq. intros [= E]. by apply Hend.
    + rewrite lookup_insert_ne by done. intros Ht'. pose proof (sg_not_inner l t' _ S Ht' eq_refl) as Hs.
      apply Hoth; [by eapply sg_end|done|]. destruct (decide (inner p = 1)) as [E|E]; [|destruct p; cbn in *; lia].
      pose proof (inner_alone l t t' p PStopEnd S Ht Ht' E eq_refl). congruence.
Qed.

Lemma owes_busy l t p : counted l -> threads l !! t = Some p -> owes p = 1 -> 0 < flushBusy l.
Proof. intros [-> _] Ht Ho. pose proof (msum_lookup owes _ _ _ owes_nonneg Ht). lia. Qed.

Lemma run_single l l' t p p' :
  single l -> counted l -> threads l !! t = Some p -> run p l = Some (l', p') ->
  (p = PStop -> msum inner (threads l) = 0) -> single (set_pc l' t p').
Proof.
  intros S C Ht Hr Hseq. pose proof S as [Sb Si Ss Sd Se]. pose proof (sg_not_inner l t p S Ht) as Hin.
  pose proof (owes_busy l t p C Ht) as Ho.
  destruct p; cbn [run] in Hr; try discriminate Hr; cbn [inner owes] in *.
  - injection Hr as <- <-. by eapply (single_move l l); try done; cbn [inner]; lia.
  - injection Hr as <- <-. unfold Wake, startFlushLocked. destruct (stopping l) eqn:Es.
    { rewrite orb_true_r. eapply (single_move l l); try done; rewrite ?Es; cbn [inner]; try done; lia. }
    destruct (closed l); cbn [orb]. { eapply (single_move l l); try done; rewrite ?Es; cbn [inner]; try done; lia. }
    destruct (flushTimer l) eqn:Et.
    { rewrite bool_decide_eq_true_2 by (by eexists). cbn [orb]. eapply (single_move l l); try done; rewrite ?Es, ?Et; cbn [inner]; try done; lia. }
    rewrite bool_decide_eq_false_2 by (by intros [? ?]). cbn [orb]. specialize (Sd eq_refl eq_refl).
    eapply (single_move l); try done; cbn [arm busy_add flushBusy stopping flushTimer inner]; rewrite ?Es; try done; lia.
  - unfold close_begin in Hr. destruct (closed l); injection Hr as <- <-; eapply (single_move l); try done; cbn [inner stopping flushBusy]; lia.
  - injection Hr as <- <-. by eapply (single_move l l); try done; cbn [inner]; lia.
  - specialize (Hseq eq_refl). rewrite Hseq in Si. destruct (stopping l) eqn:Es; [lia|]. unfold stop_begin in Hr.
    destruct (flushTimer l) eqn:Et; injection Hr as <- <-; eapply (single_move l); try done;
      cbn [inner stopping flushBusy flushTimer]; rewrite ?Es; try done; try lia; intros; by apply Sd.
  - unfold stop_timer in Hr. destruct (bool_decide _); injection Hr as <- <-; eapply (single_move l); try done; cbn [inner stopping flushBusy disarm]; lia.
  - injection Hr as <- <-. specialize (Hin eq_refl).
    eapply (single_move l); try done; cbn [inner stopping flushBusy busy_add flushTimer]; rewrite ?Hin; try done; lia.
  - destruct (Z.eqb_spec (flushBusy l) 0); [|done]. injection Hr as <- <-. by eapply (single_move l l); try done; cbn [inner]; lia.
  - injection Hr as <- <-. specialize (Hin eq_refl). pose proof (Se t Ht).
    eapply (single_move l); try done; cbn [inner stopping flushBusy stop_end flushTimer]; rewrite ?Hin; try done; lia.
  - injection Hr as <- <-. by eapply (single_move l l); try done; cbn [inner]; lia.
  - unfold tick_end in Hr. destruct (stopping l) eqn:Es.
    { rewrite orb_true_r in Hr. injection Hr as <- <-. eapply (single_move l l); try done; rewrite ?Es; cbn [inner]; try done; lia. }
    destruct (closed l || false || _); injection Hr as <- <-; eapply (single_move l); try done;
      cbn [inner stopping flushBusy arm flushTimer]; rewrite ?Es; try done; lia.
  - injection Hr as <- <-. specialize (Ho eq_refl).
    eapply (single_move l); try done; cbn [inner stopping flushBusy busy_add flushTimer]; try done; try lia.
Qed.

Lemma seq_single l : reachable_seq l -> reachable l /\ single l.
Proof.
  induction 1 as [|l l' _ [R S] Hs Hseq]; [split; [constructor|apply single_init]|]. split; [by econstructor|].
  pose proof (counted_reachable l R) as C. pose proof S as [Sb Si Ss Sd Se]. destruct Hs as [l t p Ht Hp|l t id Ht Hin|l t p l' p' Ht Hr].
  - split; cbn [set_pc flushBusy stopping flushTimer threads]; try done.
    + rewrite msum_insert_new by done. rewrite Si. destruct p; try done; cbn [inner]; lia.
    + intros t'. destruct (decide (t' = t)) as [->|]; [rewrite lookup_insert_eq; intros [= ->]; done|rewrite lookup_insert_ne by done; apply Se].
  - split; cbn [set_pc disarm flushBusy stopping flushTimer threads]; try done.
    + rewrite msum_insert_new by done. rewrite Si. cbn [inner]. lia.
    + intros t'. destruct (decide (t' = t)) as [->|]; [by rewrite lookup_insert_eq|rewrite lookup_insert_ne by done; apply Se].
  - eapply run_single; try done. intros ->. apply (Hseq t Ht). cbn [set_pc threads]. rewrite lookup_insert_eq.
    intros [= ->]. cbn [run] in Hr. unfold stop_begin in Hr. by destruct (flushTimer l).
Qed.

(** C33: as long as calls of [Sleep] and [Close] do not overlap there is at most
    one ticker: never two armed timers, two ticks, or a timer beside a tick,
    and none at all when such a call is about to return. *)
Theorem one_ticker l :
  reachable_seq l ->
  Z.of_nat (size (armed l)) + msum owes (threads l) <= 1 /\
  (forall t, threads l !! t = Some PStopEnd -> armed l = ∅ /\ msum owes (threads l) = 0 /\ flushTimer l = None).
Proof.
  intros [R S]%seq_single. pose proof (counted_reachable l R) as [Hb _]. pose proof S as [Sb Si Ss Sd Se]. split; [lia|].
  intros t Ht. specialize (Se t Ht). pose proof (msum_nonneg owes (threads l) owes_nonneg).
  split; [apply leibniz_equiv, size_empty_iff; lia|]. split; [lia|]. apply Ss. by eapply sg_not_inner.
Qed.

(** ** Overlapping stops *)

Fixpoint run_all (ts : list nat) (l : limiter) : option limiter :=
  match ts with
  | [] => Some l
  | t :: ts =>
      match threads l !! t with
      | Some p => match run p l with Some (l', p') => run_all ts (set_pc l' t p') | None => None end
      | None => None
      end
  end.

Lemma run_all_reachable ts : forall l l', run_all ts l = Some l' -> reachable l -> reachable l'.
Proof.
  induction ts as [|t ts IH]; intros l l'; cbn [run_all]; [by intros [= <-]|].
  destruct (threads l !! t) as [p|] eqn:E; [|done]. destruct (run p l) as [[l1 p1]|] eqn:Er; [|done].
  intros H R. eapply IH; [done|]. eapply r_step; [done|]. by eapply s_run.
Qed.

(** Timer 0 has fired (goroutine 0); goroutines 1 and 2 sleep, 3 wakes. *)
Definition overlap_start : limiter :=
  set_pc (set_pc (set_pc (set_pc (disarm New_buffered 0) 0 PTick) 1 PSleep) 2 PSleep) 3 PWake.

Lemma overlap_start_reachable : reachable overlap_start.
Proof.
  eapply r_step; [|by apply s_start]. eapply r_step; [|by apply s_start]. eapply r_step; [|by apply s_start].
  eapply r_step; [apply r_init|]. apply s_fire; [done|]. cbn. set_solver.
Qed.

(** Two overlapping Sleeps break that: the second finds no timer, returns
    without waiting for the tick in flight and clears the flag the first one
    set, so a Wake starts a second ticker while the first Sleep waits; two
    timers are armed and that Sleep still waits. *)
Theorem overlapping_sleeps_start_two_tickers :
  exists l, reachable l /\ size (armed l) = 2%nat /\ flushBusy l = 2 /\ threads l !! 1%nat = Some PStopWait /\
    threads l !! 2%nat = Some PRet.
Proof.
  destruct (run_all [1; 1; 1; 2; 2; 3; 0; 0]%nat overlap_start) as [l|] eqn:E; [|vm_compute in E; discriminate E].
  exists l. split; [by eapply run_all_reachable; [|apply overlap_start_reachable]|].
  vm_compute in E. injection E as <-. repeat split; vm_compute; reflexivity.
Qed.

Lemma flushBusy_counts_ticks_witness :
  flushBusy overlap_start = 1 /\ forall t p, threads overlap_start !! t = Some p -> owes p = 1 -> 0 < flushBusy overlap_start.
Proof. split; [reflexivity|]. apply (flushBusy_counts_ticks overlap_start overlap_start_reachable). Defined.

Lemma one_ticker_witness :
  Z.of_nat (size (armed (set_pc New_buffered 0 PSleep))) + msum owes (threads (set_pc New_buffered 0 PSleep)) <= 1.
Proof.
  apply (one_ticker (set_pc New_buffered 0 PSleep)). eapply q_step; [apply q_init|by apply s_start|].
  intros t Ht. cbn in Ht. by rewrite lookup_empty in Ht.
Defined.
