(* ===== verification/StoredLimiter.v ===== *)
(** * StoredLimiter: a hit counter kept in a reclaim table

    The documented use of the two packages together: the buffered limiter of
    [windowcounter/limiter.go] is the stored value, and its [Sleep], [Wake] and
    [Close] are the hooks that [reclaim/table.go] calls.  A run of the limiter is
    driven by the hook events that the table's trace has for its incarnation;
    the lifecycle of the table then gives the limiter what its timer relies on
    (stops that do not overlap), and the limiter gives the table what Sleep is
    for: nothing runs while the value is asleep. *)

From S2P Require Import Prelude.
From S2P Require Import ReclaimAlias.
From S2P Require Import Reclaim.
From S2P Require Import ReclaimInv.
From S2P Require Import ReclaimSafety.
From S2P Require Import WindowTimer.
From Stdlib Require Import ZArith Lia List String.
From stdpp Require Import base list strings option gmap sets.

Open Scope Z_scope.

(** ** The events of one incarnation *)

(** Newest first. *)
Fixpoint events_of (tr : list (sid * event)) (s : sid) : list event :=
  match tr with
  | [] => []
  | (s', e) :: tr => if decide (s' = s) then e :: events_of tr s else events_of tr s
  end.

Fixpoint phase_after (evs : list event) : phase :=
  match evs with [] => PhNone | e :: evs => next (phase_after evs) e end.

Lemma phase_events tr s : phase_of tr s = phase_after (events_of tr s).
Proof. induction tr as [|[s' e] tr IH]; cbn; [done|]. destruct (decide (s' = s)); cbn; by rewrite IH. Qed.

(** ** The limiter driven by them *)

(** The hook a call event starts, and the event of its return. *)
Definition hook_pc (e : event) : option WindowTimer.pc :=
  match e with ESleep => Some PSleep | EWake => Some PWake | EClose => Some PClose | _ => None end.

Definition returned (e : event) : event :=
  match e with ESleep => ESlept | EWake => EWoke | _ => EClosed end.

(** A tick fires, or a goroutine of the limiter takes its next step. *)
Inductive internal : limiter -> limiter -> Prop :=
| i_fire l t id : threads l !! t = None -> id ∈ armed l -> internal l (WindowTimer.set_pc (disarm l id) t PTick)
| i_run l t p l' p' : threads l !! t = Some p -> WindowTimer.run p l = Some (l', p') -> internal l (WindowTimer.set_pc l' t p').

(** Runs of the limiter under a history of events; [hs] are the hook calls that
    have not returned, with their goroutine.  create builds the limiter while it
    runs, a hook call starts a goroutine, and its return is only reported once
    that goroutine is done; the hooks do not panic. *)
Inductive driven : list event -> option limiter -> list (nat * event) -> Prop :=
| d_nil : driven [] None []
| d_create evs hs : driven evs None hs -> driven (ECreate :: evs) None hs
| d_failed evs ol hs : driven evs ol hs -> driven (ECreateFailed :: evs) None hs
| d_new evs hs : driven (ECreate :: evs) None hs -> driven (ECreate :: evs) (Some New_buffered) hs
| d_created evs l hs : driven evs (Some l) hs -> driven (ECreated :: evs) (Some l) hs
| d_log evs ol hs lg msg key : driven evs ol hs -> driven (ELog lg msg key :: evs) ol hs
| d_call evs l hs e p t : driven evs (Some l) hs -> hook_pc e = Some p -> threads l !! t = None ->
    driven (e :: evs) (Some (WindowTimer.set_pc l t p)) ((t, e) :: hs)
| d_return evs l hs1 hs2 e t : driven evs (Some l) (hs1 ++ (t, e) :: hs2) -> threads l !! t = Some PRet ->
    driven (returned e :: evs) (Some l) (hs1 ++ hs2)
| d_step evs l l' hs : driven evs (Some l) hs -> internal l l' -> driven evs (Some l') hs.

(** ** What holds in each phase *)

(** No timer is armed, no tick runs and no stop is waiting. *)
Definition quiet (l : limiter) : Prop :=
  armed l = ∅ /\ flushTimer l = None /\ stopping l = false /\
  forall t p, threads l !! t = Some p -> owes p = 0 /\ inner p = 0.

Definition tickish (p : WindowTimer.pc) : bool := match p with PTick | PTickEnd | PTickDone | PRet => true | _ => false end.

Definition sleep_code (p : WindowTimer.pc) : bool :=
  match p with PSleep | PStop | PStopTimer _ | PStopDone | PStopWait | PStopEnd | PRet => true | _ => false end.

Definition close_code (p : WindowTimer.pc) : bool := match p with PClose | PCloseFlush | PStop | PRet => true | _ => false end.

(** Every goroutine but [t] is a tick or done. *)
Definition others_tick (l : limiter) (t : option nat) : Prop :=
  forall t' p, threads l !! t' = Some p -> Some t' <> t -> tickish p = true.

(** One hook call is running: its goroutine satisfies [P]. *)
Definition one_hook (l : limiter) (hs : list (nat * event)) (e : event) (P : WindowTimer.pc -> Prop) : Prop :=
  exists t p, hs = [(t, e)] /\ threads l !! t = Some p /\ P p /\ others_tick l (Some t).

Definition phase_ok (ph : phase) (l : limiter) (hs : list (nat * event)) : Prop :=
  match ph with
  | PhCreating | PhAwake => hs = [] /\ others_tick l None
  | PhSleeping => one_hook l hs ESleep (fun p => sleep_code p = true /\ (p = PRet -> quiet l))
  | PhSlept | PhAsleep => hs = [] /\ others_tick l None /\ quiet l
  | PhWaking => one_hook l hs EWake (fun p => p = PWake /\ quiet l \/ p = PRet)
  | PhClosing => one_hook l hs EClose (fun p => close_code p = true /\ quiet l /\ (p = PClose \/ closed l = true))
  | PhClosed | PhDisposed => hs = [] /\ others_tick l None /\ quiet l /\ closed l = true
  | _ => False
  end.

Lemma internal_step l l' : internal l l' -> WindowTimer.step l l'.
Proof. intros [? t id H1 H2|? t p l1 p1 H1 H2]; [by apply s_fire|by eapply s_run]. Qed.

Lemma tickish_inner p : tickish p = true -> inner p = 0.
Proof. by destruct p. Qed.

(** A lone stopper: its step keeps the stops apart. *)
Lemma seq_internal l l' ot : reachable_seq l -> others_tick l ot -> internal l l' -> reachable_seq l'.
Proof.
  intros R O Hi. eapply q_step; [done|by apply internal_step|]. intros t Ht _. apply msum_zero_all. intros t' p Ht'.
  destruct (decide (Some t' = ot)) as [E|E]; [|by apply tickish_inner, (O t')].
  destruct (decide (Some t = ot)) as [E'|E']; [|by specialize (O t PStop Ht E')].
  rewrite <- E in E'. injection E' as ->. rewrite Ht in Ht'. by injection Ht' as <-.
Qed.

(** A hook call on a limiter without other calls. *)
Lemma seq_call l t p : reachable_seq l -> threads l !! t = None -> starts p = true -> reachable_seq (WindowTimer.set_pc l t p).
Proof.
  intros R Ht Hp. eapply q_step; [done|by apply s_start|]. intros t' Ht' Hn. exfalso. apply Hn. cbn.
  rewrite lookup_insert_ne; [done|]. intros ->. congruence.
Qed.

(** The step of a tick. *)
Lemma run_tick p l l' p' :
  tickish p = true -> WindowTimer.run p l = Some (l', p') -> owes p = 1 /\ tickish p' = true /\ threads l' = threads l /\ closed l' = closed l.
Proof.
  destruct p; try done; cbn [WindowTimer.run]; intros _ H; try done.
  - by injection H as <- <-.
  - unfold tick_end in H. destruct (_ || _ || _); by injection H as <- <-.
  - by injection H as <- <-.
Qed.

(** Either the hook's goroutine moves, or a tick fires or moves, which does not
    happen on a quiet limiter. *)
Lemma internal_cases l l' ot :
  others_tick l ot -> internal l l' ->
  (exists t p l1 p1, ot = Some t /\ threads l !! t = Some p /\ WindowTimer.run p l = Some (l1, p1) /\ l' = WindowTimer.set_pc l1 t p1) \/
  (others_tick l' ot /\ closed l' = closed l /\ (forall t p, ot = Some t -> threads l !! t = Some p -> threads l' !! t = Some p) /\ ~ quiet l).
Proof.
  intros O Hi. revert O. destruct Hi as [l0 t id Ht Hid|l0 t p l1 p1 Ht Hr]; intros O.
  - right. split_and!; [|done| |intros (Ha & _); set_solver].
    + intros t' p. cbn. destruct (decide (t' = t)) as [->|]; [rewrite lookup_insert_eq; by intros [= <-]|rewrite lookup_insert_ne by done; exact (O t' p)].
    + intros t' p _ Ht'. cbn. rewrite lookup_insert_ne; [done|]. intros ->. congruence.
  - destruct (decide (Some t = ot)) as [E|E]; [left; by exists t, p, l1, p1|right].
    destruct (run_tick p l0 l1 p1 (O t p Ht E) Hr) as (Ho & Hp & Hth & Hc). cbn. split_and!; [|done| |].
    + intros t' q. cbn. rewrite Hth. destruct (decide (t' = t)) as [->|]; [rewrite lookup_insert_eq; by intros [= <-]|rewrite lookup_insert_ne by done; exact (O t' q)].
    + intros t' q -> Ht'. rewrite Hth, lookup_insert_ne; [done|]. intros ->. done.
    + intros (_ & _ & _ & Hq). destruct (Hq t p Ht). lia.
Qed.

(** The hook's goroutine moves to [p1]; the others stay. *)
Lemma others_moved l l1 t p1 : others_tick l (Some t) -> threads l1 = threads l -> others_tick (WindowTimer.set_pc l1 t p1) (Some t).
Proof.
  intros O Hth t' q. cbn. rewrite Hth. destruct (decide (t' = t)) as [->|]; [done|]. rewrite lookup_insert_ne by done. exact (O t' q).
Qed.

(** A limiter whose WaitGroup is at zero, with no stop inside, is quiet. *)
Lemma busy_zero_quiet l t p :
  WindowTimer.reachable l -> flushBusy l = 0 -> flushTimer l = None -> stopping l = false ->
  others_tick l (Some t) -> owes p = 0 -> inner p = 0 -> quiet (WindowTimer.set_pc l t p).
Proof.
  intros R Hb Hf Hs O Hp Hi. pose proof (counted_reachable l R) as [Hc _]. pose proof (msum_nonneg owes (threads l) owes_nonneg).
  split_and!; try done; [apply leibniz_equiv, size_empty_iff; cbn; lia|].
  intros t' q. cbn. destruct (decide (t' = t)) as [->|Hne]; [rewrite lookup_insert_eq; by intros [= <-]|].
  rewrite lookup_insert_ne by done. intros Hq. split; [|apply tickish_inner, (O t'); [done|congruence]].
  apply (msum_zero owes (threads l) t' q owes_nonneg); [lia|done].
Qed.

(** ** The hooks' own steps *)

Lemma sleep_step l t p l1 p1 :
  reachable_seq l -> threads l !! t = Some p -> others_tick l (Some t) -> sleep_code p = true -> WindowTimer.run p l = Some (l1, p1) ->
  sleep_code p1 = true /\ others_tick (WindowTimer.set_pc l1 t p1) (Some t) /\ (p1 = PRet -> quiet (WindowTimer.set_pc l1 t p1)).
Proof.
  intros R Ht O Hc Hr. pose proof (seq_single l R) as [R0 S]. pose proof S as [_ Si Ss Sd Se].
  assert (Hth : threads l1 = threads l) by (eapply run_counted; [done|apply (counted_reachable l R0)]).
  split; [|split; [by apply (others_moved l)|]].
  - destruct p; try done; cbn [WindowTimer.run] in Hr; unfold stop_begin, WindowTimer.stop_timer in Hr; repeat case_match; simplify_eq; done.
  - intros ->. destruct p; try done; cbn [WindowTimer.run] in Hr; try (by simplify_eq).
    + (* PStop: there was no timer *)
      unfold stop_begin in Hr. destruct (flushTimer l) eqn:Ef; [done|]. injection Hr as <-.
      assert (Hi : msum inner (threads l) = 0).
      { apply msum_zero_all. intros t' q Hq. destruct (decide (t' = t)) as [->|]; [rewrite Ht in Hq; by injection Hq as <-|].
        apply tickish_inner, (O t' q Hq). congruence. }
      assert (Hst : stopping l = false) by (destruct (stopping l); [lia|done]).
      pose proof (busy_zero_quiet l t PRet R0 (Sd Hst eq_refl) Ef Hst O eq_refl eq_refl) as (Q1 & Q2 & Q3 & Q4). split_and!; try done.
    + unfold WindowTimer.stop_timer in Hr. by destruct (bool_decide _).
    + by destruct (flushBusy l =? 0).
    + (* PStopEnd *)
      injection Hr as <-. pose proof (Se t Ht) as Hb. pose proof (sg_not_inner l t _ S Ht eq_refl) as Hst.
      pose proof (counted_reachable l R0) as [Hc' _]. pose proof (msum_nonneg owes (threads l) owes_nonneg).
      split_and!; [apply leibniz_equiv, size_empty_iff; cbn; lia|by apply Ss|done|].
      intros t' q. cbn. destruct (decide (t' = t)) as [->|Hne]; [rewrite lookup_insert_eq; by intros [= <-]|].
      rewrite lookup_insert_ne by done. intros Hq. split; [|apply tickish_inner, (O t' q Hq); congruence].
      apply (msum_zero owes (threads l) t' q owes_nonneg); [lia|done].
Qed.

(** A goroutine of a quiet limiter moves without arming anything. *)
Lemma quiet_moved l l1 t p1 :
  quiet l -> threads l1 = threads l -> armed l1 = armed l -> flushTimer l1 = flushTimer l -> stopping l1 = false ->
  owes p1 = 0 -> inner p1 = 0 -> quiet (WindowTimer.set_pc l1 t p1).
Proof.
  intros (Q1 & Q2 & Q3 & Q4) Hth Ha Hf Hs Ho Hi. split_and!; cbn; [congruence..|]. rewrite Hth. intros t' q.
  destruct (decide (t' = t)) as [->|]; [rewrite lookup_insert_eq; by intros [= <-]|rewrite lookup_insert_ne by done; apply Q4].
Qed.

Lemma close_step l t p l1 p1 :
  threads l !! t = Some p -> others_tick l (Some t) -> close_code p = true -> quiet l -> (p = PClose \/ closed l = true) ->
  WindowTimer.run p l = Some (l1, p1) ->
  close_code p1 = true /\ others_tick (WindowTimer.set_pc l1 t p1) (Some t) /\ quiet (WindowTimer.set_pc l1 t p1) /\ closed l1 = true.
Proof.
  intros Ht O Hc Q Hcl Hr. pose proof Q as (Q1 & Q2 & Q3 & Q4). destruct p; try done; cbn [WindowTimer.run] in Hr.
  - unfold close_begin in Hr. destruct (closed l) eqn:Ec; injection Hr as <- <-;
      (split_and!; [done|by apply (others_moved l)|by apply (quiet_moved l)|done]).
  - injection Hr as <- <-. destruct Hcl as [?|Hcl]; [done|]. split_and!; [done|by apply (others_moved l)|by apply (quiet_moved l)|done].
  - unfold stop_begin in Hr. rewrite Q2 in Hr. injection Hr as <- <-. destruct Hcl as [?|Hcl]; [done|].
    split_and!; [done|by apply (others_moved l)|by apply (quiet_moved l)|done].
Qed.

Lemma one_hook_internal l l' hs e (P Q : WindowTimer.pc -> Prop) :
  one_hook l hs e P -> internal l l' ->
  (forall t p l1 p1, threads l !! t = Some p -> others_tick l (Some t) -> P p -> WindowTimer.run p l = Some (l1, p1) ->
     l' = WindowTimer.set_pc l1 t p1 -> Q p1 /\ others_tick l' (Some t)) ->
  (forall p, P p -> closed l' = closed l -> ~ quiet l -> Q p) -> one_hook l' hs e Q.
Proof.
  intros (t & p & -> & Ht & HP & O) Hi Hmove Htick. destruct (internal_cases l l' (Some t) O Hi) as [(t' & p' & l1 & p1 & [= <-] & Ht' & Hr & Hl)|(O' & Hc & Hk & Hq)].
  - rewrite Ht in Ht'. injection Ht' as <-. destruct (Hmove t p l1 p1 Ht O HP Hr Hl) as [HQ O']. exists t, p1. split_and!; try done.
    subst l'. cbn. by rewrite lookup_insert_eq.
  - exists t, p. split_and!; try done; [by apply Hk|by apply Htick].
Qed.

Lemma phase_internal ph l l' hs : reachable_seq l -> phase_ok ph l hs -> internal l l' -> reachable_seq l' /\ phase_ok ph l' hs.
Proof.
  intros R Hp Hi. assert (Hno : forall ot, others_tick l ot -> quiet l -> internal l l' -> ot = None -> False).
  { intros ot O Hq _ ->. destruct (internal_cases l l' None O Hi) as [(? & ? & ? & ? & [=] & _)|(_ & _ & _ & Hn)]. done. }
  assert (Hwake : forall P, one_hook l hs ESleep P \/ one_hook l hs EWake P \/ one_hook l hs EClose P -> reachable_seq l').
  { intros P [(t & p & _ & _ & _ & O)|[(t & p & _ & _ & _ & O)|(t & p & _ & _ & _ & O)]]; by eapply seq_internal. }
  destruct ph; cbn [phase_ok] in *; try done.
  - destruct Hp as [-> O]. split; [by eapply seq_internal|]. split; [done|].
    by destruct (internal_cases l l' None O Hi) as [(? & ? & ? & ? & [=] & _)|(O' & _)].
  - destruct Hp as [-> O]. split; [by eapply seq_internal|]. split; [done|].
    by destruct (internal_cases l l' None O Hi) as [(? & ? & ? & ? & [=] & _)|(O' & _)].
  - split; [eapply Hwake; by left|]. eapply one_hook_internal; [done|done|..].
    + intros t p l1 p1 Ht O [Hc _] Hr ->. destruct (sleep_step l t p l1 p1 R Ht O Hc Hr) as (A & B & C). done.
    + intros p [Hc Hq] _ Hn. split; [done|]. intros ->. by specialize (Hq eq_refl).
  - destruct Hp as (-> & O & Q). by exfalso; eapply Hno.
  - destruct Hp as (-> & O & Q). by exfalso; eapply Hno.
  - split; [eapply Hwake; right; by left|]. eapply one_hook_internal; [done|done|..].
    + intros t p l1 p1 Ht O [[-> Q]| ->] Hr ->; [|done]. cbn [WindowTimer.run] in Hr. injection Hr as <- <-. split; [by right|].
      apply (others_moved l); [done|]. unfold Wake, startFlushLocked. destruct (_ || _ || _); [done|]. by destruct (flushTimer l).
    + intros p [[-> Q]| ->] _ Hn; [done|by right].
  - split; [eapply Hwake; right; by right|]. eapply one_hook_internal; [done|done|..].
    + intros t p l1 p1 Ht O (Hc & Q & Hcl) Hr ->. destruct (close_step l t p l1 p1 Ht O Hc Q Hcl Hr) as (A & B & C & D). split; [|done]. split_and!; try done. by right.
    + intros p (Hc & Q & Hcl) _ Hn. done.
  - destruct Hp as (-> & O & Q & _). by exfalso; eapply Hno.
  - destruct Hp as (-> & O & Q & _). by exfalso; eapply Hno.
Qed.

(** ** The whole run *)

Definition good (evs : list event) (ol : option limiter) (hs : list (nat * event)) : Prop :=
  match ol with
  | None => hs = [] /\ (phase_after evs = PhNone \/ phase_after evs = PhCreating \/ phase_after evs = PhFailed)
  | Some l => reachable_seq l /\ phase_ok (phase_after evs) l hs
  end.

Lemma next_bad e : next PhBad e = PhBad.
Proof. destruct e; try done. cbn. by repeat case_match. Qed.

Lemma not_bad_before e evs : phase_after (e :: evs) <> PhBad -> phase_after evs <> PhBad.
Proof. cbn. intros H E. apply H. rewrite E. apply next_bad. Qed.

(** A log line: orphan and dispose move the phase, others do not. *)
Lemma next_log ph lg msg key :
  next ph (ELog lg msg key) <> PhBad ->
  next ph (ELog lg msg key) = ph \/ (ph = PhSlept /\ next ph (ELog lg msg key) = PhAsleep)
  \/ (ph = PhClosed /\ next ph (ELog lg msg key) = PhDisposed).
Proof. cbn. destruct (String.eqb msg MsgOrphan); [destruct ph; auto; done|]. destruct (String.eqb msg MsgDispose); [destruct ph; auto; done|auto]. Qed.

Lemma others_call l t p : others_tick l None -> others_tick (WindowTimer.set_pc l t p) (Some t).
Proof.
  intros O t' q. cbn. destruct (decide (t' = t)) as [->|]; [done|]. rewrite lookup_insert_ne by done. intros Hq _. by apply (O t' q Hq).
Qed.

Lemma others_return l t : others_tick l (Some t) -> threads l !! t = Some PRet -> others_tick l None.
Proof.
  intros O Ht t' q Hq _. destruct (decide (t' = t)) as [->|]; [rewrite Ht in Hq; by injection Hq as <-|]. apply (O t' q Hq). congruence.
Qed.

Lemma good_call evs l hs e p t :
  good evs (Some l) hs -> hook_pc e = Some p -> threads l !! t = None -> phase_after (e :: evs) <> PhBad ->
  good (e :: evs) (Some (WindowTimer.set_pc l t p)) ((t, e) :: hs).
Proof.
  intros [R Hp] He Ht Hb. cbn [phase_after] in Hb. assert (Hs : starts p = true) by (by destruct e; cbn in He; simplify_eq).
  split; [by apply seq_call|]. cbn [phase_after].
  destruct e; try done; injection He as <-; destruct (phase_after evs); try done; cbn [next phase_ok] in *.
  - destruct Hp as [-> O]. exists t, PSleep. cbn. rewrite lookup_insert_eq. split_and!; try done. by apply others_call.
  - destruct Hp as (-> & O & Q). exists t, PWake. cbn. rewrite lookup_insert_eq. split_and!; try done; [|by apply others_call].
    left. split; [done|]. pose proof Q as (_ & _ & Q3 & _). by apply (quiet_moved l).
  - destruct Hp as (-> & O & Q). exists t, PClose. cbn. rewrite lookup_insert_eq. split_and!; try done; [| |by apply others_call].
    + pose proof Q as (_ & _ & Q3 & _). by apply (quiet_moved l).
    + by left.
Qed.

Lemma one_hook_return l hs1 hs2 t e e' P :
  one_hook l (hs1 ++ (t, e) :: hs2) e' P -> threads l !! t = Some PRet ->
  e = e' /\ hs1 ++ hs2 = [] /\ P PRet /\ others_tick l None.
Proof.
  intros (t' & p & Hh & Ht' & HP & O) Ht. destruct hs1 as [|? hs1]; [|by destruct hs1]. injection Hh as <- <- ->.
  rewrite Ht in Ht'. injection Ht' as <-. split_and!; try done. by eapply others_return.
Qed.

Lemma good_return evs l hs1 hs2 e t :
  good evs (Some l) (hs1 ++ (t, e) :: hs2) -> threads l !! t = Some PRet -> phase_after (returned e :: evs) <> PhBad ->
  good (returned e :: evs) (Some l) (hs1 ++ hs2).
Proof.
  intros [R Hp] Ht Hb. split; [done|]. cbn [phase_after] in *.
  assert (Hne : hs1 ++ (t, e) :: hs2 <> []) by (by destruct hs1).
  destruct (phase_after evs); cbn [phase_ok] in Hp; try done; try (by destruct Hp as (? & _)).
  - destruct (one_hook_return _ _ _ _ _ _ _ Hp Ht) as (-> & -> & [_ Hq] & O). cbn. split_and!; auto.
  - destruct (one_hook_return _ _ _ _ _ _ _ Hp Ht) as (-> & -> & _ & O). cbn. split_and!; auto.
  - destruct (one_hook_return _ _ _ _ _ _ _ Hp Ht) as (-> & -> & (_ & Q & [?|Hc]) & O); [done|]. cbn. split_and!; auto.
Qed.

Lemma driven_good evs ol hs : driven evs ol hs -> phase_after evs <> PhBad -> good evs ol hs.
Proof.
  induction 1 as [|evs hs _ IH|evs ol hs _ IH|evs hs _ IH|evs l hs _ IH|evs ol hs lg msg key _ IH|evs l hs e p t _ IH He Ht
    |evs l hs1 hs2 e t _ IH Ht|evs l l' hs _ IH Hi]; intros Hb.
  - split; [done|by left].
  - destruct (IH (not_bad_before _ _ Hb)) as [-> Hph]. split; [done|]. cbn in *. destruct (phase_after evs); try done; auto.
  - specialize (IH (not_bad_before _ _ Hb)). cbn in Hb |- *. destruct (phase_after evs) eqn:E; try done. split; [|auto].
    destruct ol as [l|]; cbn in IH; rewrite E in IH; cbn in IH; [by destruct IH as (_ & -> & _)|by destruct IH].
  - destruct (IH Hb) as [-> Hph]. split; [constructor|]. cbn in *. by destruct (phase_after evs).
  - destruct (IH (not_bad_before _ _ Hb)) as [R Hp]. split; [done|]. cbn in *. by destruct (phase_after evs).
  - specialize (IH (not_bad_before _ _ Hb)). cbn [phase_after] in Hb. unfold good in *. cbn [phase_after].
    destruct (next_log (phase_after evs) lg msg key Hb) as [E|[[E1 E2]|[E1 E2]]].
    + by rewrite E.
    + rewrite E2. rewrite E1 in IH. destruct ol; [done|]. destruct IH as [_ IH]. naive_solver.
    + rewrite E2. rewrite E1 in IH. destruct ol; [done|]. destruct IH as [_ IH]. naive_solver.
  - apply good_call; try done. apply IH. by eapply not_bad_before.
  - apply (good_return evs l hs1 hs2 e t); try done. apply IH. by eapply not_bad_before.
  - destruct (IH Hb) as [R Hp]. by apply (phase_internal _ l).
Qed.

(** C15: a buffered hit counter stored in a reclaim table, its Sleep, Wake and
    Close being the hooks: in every schedule of the table (Reset included) and
    every interleaving of the limiter's ticks with the hooks, no two hook calls
    overlap and there is at most one ticker; and while the slot is asleep, as
    after its Close has returned, no timer is armed and no tick runs. *)
Theorem stored_limiter_quiet_asleep resets grace w s l hs :
  Reclaim.reachable resets grace w -> driven (events_of (w_trace w) s) (Some l) hs ->
  (length hs <= 1)%nat /\ Z.of_nat (size (armed l)) + msum owes (threads l) <= 1 /\
  (forall x, w_slots w !! s = Some x -> s_state x = slotAsleep -> armed l = ∅ /\ msum owes (threads l) = 0) /\
  (phase_of (w_trace w) s = PhDisposed -> armed l = ∅ /\ msum owes (threads l) = 0 /\ closed l = true).
Proof.
  intros Hr Hd. pose proof (inv_reachable _ _ Hr) as I. pose proof (inv_phase _ _ s I) as Hb.
  destruct (driven_good _ _ _ Hd) as [R Hp]; [by rewrite <- phase_events|]. rewrite <- phase_events in Hp.
  destruct (seq_single l R) as [R0 [Sb _ _ _ _]]. pose proof (counted_reachable l R0) as [Hc _].
  assert (Hq : quiet l -> armed l = ∅ /\ msum owes (threads l) = 0).
  { intros (Q1 & _ & _ & Q4). split; [done|]. apply msum_zero_all. intros t p Ht. by apply (Q4 t p). }
  split_and!.
  - destruct (phase_of (w_trace w) s); cbn [phase_ok] in Hp; try done;
      try (destruct Hp as (-> & _); cbn; lia); destruct Hp as (? & ? & -> & _); cbn; lia.
  - lia.
  - intros x Hx Hst. pose proof (inv_slot I s) as Hs. unfold slot_ok in Hs. rewrite Hx, Hst in Hs.
    destruct Hs as (_ & _ & _ & _ & _ & Hph & _). rewrite Hph in Hp. by apply Hq, Hp.
  - intros Hph. rewrite Hph in Hp. destruct Hp as (_ & _ & Q & Hcl). by destruct (Hq Q).
Qed.

(** ** A run *)

(** Goroutine [t] of the limiter takes up to [n] steps. *)
Fixpoint run_n (t n : nat) (l : limiter) : limiter :=
  match n with
  | O => l
  | S n => match threads l !! t with
           | Some p => match WindowTimer.run p l with Some (l', p') => run_n t n (WindowTimer.set_pc l' t p') | None => l end
           | None => l
           end
  end.

Lemma driven_run t n : forall evs l hs, driven evs (Some l) hs -> driven evs (Some (run_n t n l)) hs.
Proof.
  induction n as [|n IH]; intros evs l hs Hd; cbn [run_n]; [done|]. destruct (threads l !! t) as [p|] eqn:Ht; [|done].
  destruct (WindowTimer.run p l) as [[l' p']|] eqn:Hr; [|done]. apply IH. eapply d_step; [done|]. by eapply i_run.
Qed.

(** Goroutine 0 opens key k; its context ends and goroutine 1 puts the value to
    sleep. *)
Definition sched_asleep : list label :=
  [LOpen (demo_ctx 0) "k" 0; go 0; create_ok 0; go 0; go 0; LCancel 0; go 1; go 1; go 1; go 1; go 1].

(** The limiter after its Sleep has returned. *)
Definition slept_limiter : limiter := run_n 0 9 (WindowTimer.set_pc New_buffered 0 PSleep).

Lemma slept_driven lg lg' k :
  driven [ESlept; ESleep; ELog lg MsgBind k; ELog lg' MsgPut k; ECreated; ECreate] (Some slept_limiter) [].
Proof.
  apply (d_return _ slept_limiter [] [] ESleep 0); [|vm_compute; reflexivity].
  apply driven_run. apply d_call; [|done|done]. do 2 apply d_log. apply d_created, d_new, d_create, d_nil.
Qed.

Lemma stored_limiter_quiet_asleep_witness :
  exists w x, steps (NewTable 5) sched_asleep = Some w /\ w_slots w !! 0%nat = Some x /\ s_state x = slotAsleep /\
    driven (events_of (w_trace w) 0%nat) (Some slept_limiter) [] /\
    armed slept_limiter = ∅ /\ msum owes (threads slept_limiter) = 0.
Proof.
  destruct (steps (NewTable 5) sched_asleep) as [w|] eqn:E; [|vm_compute in E; discriminate E].
  assert (Hr : Reclaim.reachable false 5 w) by (apply (reach_schedule 5 sched_asleep w); [repeat constructor|exact E]).
  assert (Hx : exists x, w_slots w !! 0%nat = Some x /\ s_state x = slotAsleep).
  { vm_compute in E. injection E as <-. eexists. split; vm_compute; reflexivity. }
  destruct Hx as (x & Hx & Hst). exists w, x. split; [reflexivity|]. split; [exact Hx|]. split; [exact Hst|].
  assert (Hd : driven (events_of (w_trace w) 0%nat) (Some slept_limiter) []).
  { replace (events_of (w_trace w) 0%nat) with [ELog 0 MsgOrphan "k"; ESlept; ESleep; ELog 0 MsgBind "k"; ELog 0 MsgPut "k"; ECreated; ECreate]
      by (vm_compute in E; injection E as <-; vm_compute; reflexivity).
    apply d_log, slept_driven. }
  split; [exact Hd|]. exact (proj1 (proj2 (proj2 (stored_limiter_quiet_asleep false 5 w 0%nat slept_limiter [] Hr Hd))) x Hx Hst).
Defined.
