(* ===== verification/ExpiryMap.v ===== *)
(** * ExpiryMap: a bounded map of entries with an idle TTL

    The map that [tokenbucket.Memory] and [backendbackoff.Gate] both keep: an
    entry past its [expireAt] counts as absent, a new one first drops the expired
    ones and, at the cap, one more.  Which key a [range] over a Go map yields
    first is an argument. *)

From S2P Require Import Prelude.
From Stdlib Require Import ZArith Lia List.
From stdpp Require Import base option gmap fin_maps fin_map_dom.

Open Scope Z_scope.

(** What the code relies on of a [range] over a map: it yields a key of the map
    when there is one. *)
Class FirstKey {K A} `{Countable K} (pick : gmap K A -> option K) : Prop := {
  pick_in m k : pick m = Some k -> is_Some (m !! k);
  pick_nonempty m : m <> ∅ -> is_Some (pick m);
}.

(** Some order of the keys. *)
Definition first_key {K A} `{Countable K} (m : gmap K A) : option K := fst <$> head (map_to_list m).

#[global] Instance first_key_ok {K A} `{Countable K} : FirstKey (K := K) (A := A) first_key.
Proof.
  split; unfold first_key.
  - intros m k. destruct (map_to_list m) as [|[k' a] l] eqn:E; [done|]. intros [= <-].
    exists a. apply elem_of_map_to_list. rewrite E. by left.
  - intros m Hm. destruct (map_to_list m) as [|[k a] l] eqn:E; [|by eexists]. by apply map_to_list_empty_iff in E.
Qed.

(** Keys of a set that is no larger than [n]. *)
Lemma size_delete_below {K A} `{Countable K} (ks : gset K) (key : K) (b : gmap K A) n :
  dom b ⊆ ks -> key ∈ ks -> (size ks <= n)%nat -> (size (delete key b) < n)%nat.
Proof.
  intros Hd Hk Hs. rewrite <- (size_dom (D := gset K)). assert (Hsub : dom (delete key b) ⊆ ks ∖ {[key]}) by set_solver.
  apply subseteq_size in Hsub. rewrite size_difference, size_singleton in Hsub by set_solver.
  assert (size ks <> 0%nat) by (intros E; apply size_empty_inv in E; set_solver). lia.
Qed.

Section Expiry.
Context {K A : Type} `{Countable K} (expireAt : A -> Z) (pick : gmap K A -> option K) `{!FirstKey pick} (cap : nat).

(** Still alive at [now]: [now.Before(entry.expireAt)]. *)
Definition alive (now : Z) (e : A) : bool := now <? expireAt e.

Definition drop_expired (now : Z) (m : gmap K A) : gmap K A := base.filter (fun '(_, e) => alive now e = true) m.

Definition drop_one (now : Z) (m : gmap K A) : gmap K A :=
  let m := drop_expired now m in
  if (size m <? cap)%nat then m
  else match pick m with Some k => delete k m | None => m end.

(** The live entry of [key], or [fresh] stored in its place. *)
Definition load (now : Z) (key : K) (fresh : A) (m : gmap K A) : gmap K A * A :=
  match (e ← m !! key; if alive now e then Some e else None) with
  | Some e => (m, e)
  | None =>
      let m := drop_expired now (delete key m) in
      let m := if (cap <=? size m)%nat then drop_one now m else m in
      (<[key := fresh]> m, fresh)
  end.

Lemma drop_expired_lookup now m k e : drop_expired now m !! k = Some e <-> m !! k = Some e /\ alive now e = true.
Proof. apply map_lookup_filter_Some. Qed.

Lemma drop_expired_size now m : (size (drop_expired now m) <= size m)%nat.
Proof. apply map_subseteq_size, map_filter_subseteq. Qed.

Lemma drop_one_size now m : (0 < cap)%nat -> (size m <= cap)%nat -> (size (drop_one now m) < cap)%nat.
Proof.
  intros Hc Hm. unfold drop_one. pose proof (drop_expired_size now m) as Hd.
  destruct (Nat.ltb_spec (size (drop_expired now m)) cap); [done|].
  destruct (pick (drop_expired now m)) as [k|] eqn:E.
  - destruct (pick_in _ _ E) as [e He]. rewrite map_size_delete_Some by (by eexists). lia.
  - destruct (pick_nonempty (drop_expired now m)); [|congruence]. intros E'. rewrite E' in *. rewrite map_size_empty in *. lia.
Qed.

(** The entry in hand is the one stored, and the map stays within the cap. *)
Lemma load_lookup now key fresh m : (load now key fresh m).1 !! key = Some (load now key fresh m).2.
Proof.
  unfold load. destruct (m !! key) as [e|] eqn:E; cbn [mbind option_bind]; [destruct (alive now e)|]; cbn [fst snd]; try done; apply lookup_insert_eq.
Qed.

Lemma load_size now key fresh m : (0 < cap)%nat -> (size m <= cap)%nat -> (size (load now key fresh m).1 <= cap)%nat.
Proof.
  intros Hc Hm. unfold load. destruct (e ← m !! key; if alive now e then Some e else None); [done|]. cbn [fst].
  set (m' := drop_expired now (delete key m)).
  assert (Hk : m' !! key = None).
  { destruct (m' !! key) as [e|] eqn:E; [|done]. apply drop_expired_lookup in E as [E _]. by rewrite lookup_delete_eq in E. }
  assert (Hs : (size m' <= cap)%nat).
  { pose proof (drop_expired_size now (delete key m)). fold m' in H0. pose proof (map_subseteq_size (delete key m) m (delete_subseteq _ _)). lia. }
  destruct (Nat.leb_spec cap (size m')) as [Hge|Hlt].
  - rewrite map_size_insert_None; [pose proof (drop_one_size now m' Hc Hs); lia|].
    unfold drop_one. assert (Hk' : drop_expired now m' !! key = None).
    { destruct (drop_expired now m' !! key) eqn:E; [|done]. apply drop_expired_lookup in E as [E _]. congruence. }
    destruct (size _ <? cap)%nat; [done|]. destruct (pick _); [|done]. rewrite lookup_delete_None. by right.
  - rewrite map_size_insert_None by done. lia.
Qed.

Lemma load_live now key fresh m e : m !! key = Some e -> alive now e = true -> load now key fresh m = (m, e).
Proof. intros E L. unfold load. rewrite E. cbn. by rewrite L. Qed.

(** Whatever else is in the map afterwards was there before. *)
Lemma load_others now key fresh m k e : k <> key -> (load now key fresh m).1 !! k = Some e -> m !! k = Some e.
Proof.
  intros Hk. unfold load. destruct (e ← m !! key; if alive now e then Some e else None); [done|]. cbn [fst].
  rewrite lookup_insert_ne by done.
  assert (Hd : forall m0 : gmap K A, drop_expired now m0 !! k = Some e -> m0 !! k = Some e) by (intros m0 [? _]%drop_expired_lookup; done).
  assert (Hm : drop_expired now (delete key m) !! k = Some e -> m !! k = Some e).
  { intros E%Hd. by rewrite lookup_delete_ne in E. }
  destruct (cap <=? _)%nat; [|done]. unfold drop_one.
  destruct (_ <? cap)%nat; [by intros E%Hd%Hm|]. destruct (pick _); [|by intros E%Hd%Hm].
  rewrite lookup_delete_Some. by intros [_ E%Hd%Hm].
Qed.

(** An invariant of entries survives a load and an update of the loaded one. *)
Lemma load_forall (P : A -> Prop) now key fresh m :
  map_Forall (fun _ e => P e) m -> P fresh -> map_Forall (fun _ e => P e) (load now key fresh m).1 /\ P (load now key fresh m).2.
Proof.
  intros Hm Hf. assert (H2 : P (load now key fresh m).2).
  { unfold load. destruct (m !! key) as [e|] eqn:E; cbn [mbind option_bind]; [|done]. destruct (alive now e); [|done]. by apply (Hm key). }
  split; [|done]. intros k e. destruct (decide (k = key)) as [->|Hne].
  - rewrite load_lookup. by intros [= <-].
  - intros E%load_others; [|done]. by apply (Hm k).
Qed.

(** The entry of a key that is not past its expiry. *)
Definition live (now : Z) (m : gmap K A) (k : K) : option A := e ← m !! k; if alive now e then Some e else None.

(** Liveness at a later instant follows from the entry live now. *)
Lemma live_later now now' m k : now <= now' -> live now' m k = e ← live now m k; if alive now' e then Some e else None.
Proof.
  unfold live, alive. intros Hn. destruct (m !! k) as [e|]; cbn [mbind option_bind]; [|done].
  destruct (Z.ltb_spec now' (expireAt e)), (Z.ltb_spec now (expireAt e)); cbn [mbind option_bind]; try lia; [..|done].
  all: destruct (Z.ltb_spec now' (expireAt e)); (done || lia).
Qed.

Lemma live_drop_expired now m k : live now (drop_expired now m) k = live now m k.
Proof.
  unfold live. destruct (drop_expired now m !! k) as [e|] eqn:E.
  - apply drop_expired_lookup in E as [-> _]. done.
  - destruct (m !! k) as [e|] eqn:E'; cbn; [|done]. destruct (alive now e) eqn:L; [|done].
    assert (drop_expired now m !! k = Some e) by (by apply drop_expired_lookup). congruence.
Qed.

(** Below the cap a load keeps every other live entry. *)
Lemma load_live_others now key fresh m k :
  k <> key -> (size (delete key m) < cap)%nat -> live now (load now key fresh m).1 k = live now m k.
Proof.
  intros Hk Hs. unfold load. destruct (e ← m !! key; if alive now e then Some e else None); [done|]. cbn [fst].
  pose proof (drop_expired_size now (delete key m)). rewrite (proj2 (Nat.leb_gt _ _)) by lia.
  unfold live at 1. rewrite lookup_insert_ne by done. fold (live now (drop_expired now (delete key m)) k).
  rewrite live_drop_expired. unfold live. by rewrite lookup_delete_ne.
Qed.

Lemma load_result now key fresh m : (load now key fresh m).2 = default fresh (live now m key).
Proof. unfold load, live. by destruct (e ← m !! key; if alive now e then Some e else None). Qed.

Lemma load_dom now key fresh m : dom (load now key fresh m).1 ⊆@{gset K} {[ key ]} ∪ dom m.
Proof.
  intros k. rewrite elem_of_dom. intros [e He]. destruct (decide (k = key)) as [->|Hk]; [set_solver|].
  apply load_others in He; [|done]. apply elem_of_union_r. by eapply elem_of_dom_2.
Qed.

End Expiry.
