(* ===== verification/TokenBucket.v ===== *)
(** * TokenBucket: Traefik's token bucket, in process and as a Redis script
    ([tokenbucket/clock.go], [memory.go], [redis.go], [lua.go])

    Arithmetic is float64 without fused multiply-add.  Arguments: what [int64] of
    an out-of-range float gives, which key a [range] over the map yields,
    [strconv.ParseFloat] and [FormatFloat]. *)

From S2P Require Import Prelude.
From S2P Require Import Strconv.
From S2P Require Import Resp.
From S2P Require Import RedisExec.
From S2P Require Import RedisVerbs.
From S2P Require Import Float64.
From S2P Require Import ExpiryMap.
From Stdlib Require Import ZArith QArith Lqa Lia List String.
From stdpp Require Import base list option gmap.

Open Scope Z_scope.

Inductive tbErr := errRate | errBurst | errDelay | errTTL | errRedis | errEvalLen | errEvalWait | errClient (e : goerr).

Record clockConfig := { rate : f64; burst : Z; maxDelay : Z; ttl : Z }.

(** [validateClock] *)
Definition validateClock (rate : f64) (burst maxDelay ttl : Z) : option tbErr :=
  if fle rate (of_Z 0) || (match rate with NaN | Inf _ => true | Fin _ => false end) then Some errRate
  else if burst <? 1 then Some errBurst
  else if maxDelay <? 0 then Some errDelay
  else if (ttl <? Second) || negb (Z.rem ttl Second =? 0) then Some errTTL
  else None.

(** [limitPerMicro] *)
Definition limitPerMicro (c : clockConfig) : f64 := fdiv (rate c) (of_Z 1000000).

(** [ttlSeconds] *)
Definition ttlSeconds (c : clockConfig) : Z := Z.quot (ttl c) Second.

(** [Duration.Microseconds], [Time.UnixMicro] of nanoseconds. *)
Definition Microseconds (d : Z) : Z := Z.quot d 1000.
Definition UnixMicro (now : Z) : Z := now / 1000.

(** [if tokens > burst { tokens = burst }] *)
Definition cap_at (burst tokens : f64) : f64 := if flt burst tokens then burst else tokens.

(** [consumeOne]: newTokens, newLast, waitMicro. *)
Definition consumeOne (tokens : f64) (last : Z) (limitPerMicro burst : f64) (nowMicro maxDelayMicro : Z) : f64 * Z * f64 :=
  let previousLast := last in
  let last := if nowMicro <? last then nowMicro else last in
  let elapsed := of_Z (wrap64 (nowMicro - last)) in
  let tokens := cap_at burst (fadd tokens (fmul limitPerMicro elapsed)) in
  let tokens := fsub tokens (of_Z 1) in
  let '(tokens, waitMicro) :=
    if flt tokens (of_Z 0) then
      let waitMicro := fdiv (fneg tokens) limitPerMicro in
      if flt (of_Z maxDelayMicro) waitMicro then (cap_at burst (fadd tokens (of_Z 1)), waitMicro)
      else (tokens, waitMicro)
    else (tokens, of_Z 0) in
  (tokens, (if nowMicro <? previousLast then previousLast else nowMicro), waitMicro).

Section Wait.
Context (out_of_range : f64 -> Z).

(** [waitDuration] *)
Definition waitDuration (waitMicro : f64) : Z :=
  if fle waitMicro (of_Z 0) then 0 else to_int64 out_of_range (fmul waitMicro (of_Z 1000)).

End Wait.

(** [allowedFromWait] *)
Definition allowedFromWait (wait maxDelay : Z) : bool := wait <=? maxDelay.

(** ** In process *)

Record memEntry := { tokens : f64; last : Z; expireAt : Z }.

Definition maxMemorySources : nat := 65536.

Section Memory.
Context {K : Type} `{Countable K} (out_of_range : f64 -> Z) (pick : gmap K memEntry -> option K) `{!FirstKey pick}.

Record Memory := { clock : clockConfig; buckets : gmap K memEntry }.

(** [NewMemory] *)
Definition NewMemory (rate : f64) (burst maxDelay ttl : Z) : Memory + tbErr :=
  match validateClock rate burst maxDelay ttl with
  | Some e => inr e
  | None => inl {| clock := {| rate := rate; burst := burst; maxDelay := maxDelay; ttl := ttl |}; buckets := ∅ |}
  end.

(** [dropExpired], [dropOne] *)
Definition dropExpired (now : Z) (m : gmap K memEntry) : gmap K memEntry := drop_expired expireAt now m.
Definition dropOne (now : Z) (m : gmap K memEntry) : gmap K memEntry := drop_one expireAt pick maxMemorySources now m.

(** [Allow]; [ctxErr] is ctx.Err() at entry. *)
Definition Allow (ctxErr : option goerr) (now : Z) (key : K) (m : Memory) : (bool * Z + goerr) * Memory :=
  match ctxErr with
  | Some e => (inr e, m)
  | None =>
      let c := clock m in
      let nowMicro := UnixMicro now in
      let fresh := {| tokens := of_Z (burst c); last := nowMicro; expireAt := 0 |} in
      let '(buckets, entry) := load expireAt pick maxMemorySources now key fresh (buckets m) in
      let '(newTokens, newLast, waitMicro) :=
        consumeOne (tokens entry) (last entry) (limitPerMicro c) (of_Z (burst c)) nowMicro (Microseconds (maxDelay c)) in
      let entry := {| tokens := newTokens; last := newLast; expireAt := now + ttl c |} in
      let wait := waitDuration out_of_range waitMicro in
      (inl (allowedFromWait wait (maxDelay c), wait), {| clock := c; buckets := <[key := entry]> buckets |})
  end.

End Memory.

(** ** In Redis *)

(** What [allowScript] does to the hash of its key, [None] when it is empty: the
    fields it stores and the wait it returns; Lua numbers are float64. *)
Definition allowScript (limit burst t max_delay : f64) (bucket : option (f64 * f64)) : (f64 * f64) * f64 :=
  let '(bucket_last, bucket_tokens) := match bucket with Some b => b | None => (t, burst) end in
  let lua_min a b := if flt b a then b else a in
  let last := if flt t bucket_last then t else bucket_last in
  let elapsed := fsub t last in
  let delta := fmul limit elapsed in
  let tokens := lua_min (fadd bucket_tokens delta) burst in
  let tokens := fsub tokens (of_Z 1) in
  let '(tokens, wait_duration) :=
    if flt tokens (of_Z 0) then
      let wait_duration := fdiv (fmul tokens (of_Z (-1))) limit in
      if flt max_delay wait_duration then (lua_min (fadd tokens (of_Z 1)) burst, wait_duration)
      else (tokens, wait_duration)
    else (tokens, of_Z 0) in
  let persistLast := if flt bucket_last t then t else bucket_last in
  ((persistLast, tokens), wait_duration).

Section Redis.
Context {W : Type} (exec : list bytes -> W -> exec_result * W) (script digest : bytes)
  (FormatFloat : f64 -> bytes) (ParseFloat : bytes -> option f64) (out_of_range : f64 -> Z).

(** [NewRedis] *)
Definition NewRedis (redisNil : bool) (rate : f64) (burst maxDelay ttl : Z) : clockConfig + tbErr :=
  if redisNil then inr errRedis
  else match validateClock rate burst maxDelay ttl with
       | Some e => inr e
       | None => inl {| rate := rate; burst := burst; maxDelay := maxDelay; ttl := ttl |}
       end.

(** The script's ARGV. *)
Definition allowArgs (c : clockConfig) (nowMicro : Z) : list bytes :=
  [FormatFloat (limitPerMicro c); FormatInt (burst c); FormatInt (ttlSeconds c); FormatInt nowMicro;
   FormatInt (Microseconds (maxDelay c))].

(** [Redis.Allow] *)
Definition RedisAllow (ctxErr : option goerr) (now : Z) (key : bytes) (c : clockConfig) (w : W) : (bool * Z + tbErr) * W :=
  match ctxErr with
  | Some e => (inr (errClient e), w)
  | None =>
      let '((values, err), w) := Eval exec script digest [key] (allowArgs c (UnixMicro now)) w in
      (match err with
       | Some e => inr (errClient e)
       | None =>
           match values with
           | [_; v; _] =>
               match ParseFloat (slot_text v) with
               | Some (Fin q) => let wait := waitDuration out_of_range (Fin q) in inl (allowedFromWait wait (maxDelay c), wait)
               | _ => inr errEvalWait
               end
           | _ => inr errEvalLen
           end
       end, w)
  end.

End Redis.

(** ** Exact integer arithmetic *)

Lemma fsub_of_Z a b : Z.abs a <= 2 ^ 53 -> Z.abs b <= 2 ^ 53 -> fsub (of_Z a) (of_Z b) = of_Z (a - b).
Proof.
  intros Ha Hb. destruct (of_Z_exact a ltac:(lia)) as (p & -> & P & _). destruct (of_Z_exact b ltac:(lia)) as (q & -> & Q & _).
  unfold fsub. cbn [fneg fadd]. apply round_comp. rewrite Qred_correct, P, Q. unfold Z.sub. rewrite inject_Z_plus, inject_Z_opp. lra.
Qed.

Lemma fadd_of_Z a b : Z.abs a <= 2 ^ 53 -> Z.abs b <= 2 ^ 53 -> fadd (of_Z a) (of_Z b) = of_Z (a + b).
Proof.
  intros Ha Hb. destruct (of_Z_exact a ltac:(lia)) as (p & -> & P & _). destruct (of_Z_exact b ltac:(lia)) as (q & -> & Q & _).
  cbn [fadd]. apply round_comp. by rewrite P, Q, inject_Z_plus.
Qed.

Lemma flt_of_Z a b : Z.abs a <= 2 ^ 53 -> Z.abs b <= 2 ^ 53 -> flt (of_Z a) (of_Z b) = (a <? b).
Proof.
  intros Ha Hb. rewrite flt_spec by apply round_num. apply eq_true_iff_eq. rewrite negb_true_iff, Z.ltb_lt.
  pose proof (of_Z_fle b a ltac:(lia) ltac:(lia)) as H. destruct (fle (of_Z b) (of_Z a)); [|intuition lia].
  split; [done|]. intros Hlt. pose proof (proj1 H eq_refl). lia.
Qed.

(** Multiplying by -1 is negation. *)
Lemma fmul_minus_one a : wf a -> fmul a (of_Z (-1)) = fneg a.
Proof.
  change (of_Z (-1)) with (Fin (-1 # 1)). destruct a as [|[]|q]; cbn [fmul fneg]; try done. intros [Hr Hb]. apply round_neg; [done|done|]. lra.
Qed.

Lemma wf_fadd a b : wf (fadd a b).
Proof. destruct a as [|[]|x], b as [|[]|y]; try done; apply round_wf. Qed.

Lemma wf_of_Z n : wf (of_Z n).
Proof. apply round_wf. Qed.

(** ** The two stores agree *)

Lemma allowScript_consume toks last limit b now md :
  0 <= last <= 2 ^ 53 -> 0 <= now <= 2 ^ 53 ->
  let go toks last := let '(t, l, w) := consumeOne toks last limit (of_Z b) now md in ((of_Z l, t), w) in
  allowScript limit (of_Z b) (of_Z now) (of_Z md) (Some (of_Z last, toks)) = go toks last /\
  allowScript limit (of_Z b) (of_Z now) (of_Z md) None = go (of_Z b) now.
Proof.
  intros Hl Hn go.
  assert (Hgo : forall toks last, 0 <= last <= 2 ^ 53 ->
    allowScript limit (of_Z b) (of_Z now) (of_Z md) (Some (of_Z last, toks)) = go toks last).
  { clear toks last Hl. intros toks last Hl. unfold allowScript, go, consumeOne, cap_at. cbn zeta.
    rewrite !flt_of_Z by lia.
    assert (E : (if now <? last then of_Z now else of_Z last) = of_Z (if now <? last then now else last)) by (by destruct (now <? last)).
    rewrite E. set (last' := if now <? last then now else last).
    assert (Hl' : 0 <= last' <= now) by (subst last'; destruct (Z.ltb_spec now last); lia).
    rewrite fsub_of_Z by lia. rewrite wrap64_id by (unfold in_int64, int64_min, int64_max; lia).
    set (t := fsub _ (of_Z 1)). rewrite fmul_minus_one by apply wf_fadd.
    assert (P : (if last <? now then of_Z now else of_Z last) = of_Z (if now <? last then last else now)).
    { destruct (Z.ltb_spec last now), (Z.ltb_spec now last); try lia; try done. by replace last with now by lia. }
    rewrite P. by destruct (flt t (of_Z 0)); [destruct (flt (of_Z md) _)|]. }
  split; [by apply Hgo|]. apply (Hgo (of_Z b) now Hn).
Qed.

(** C22: the Redis script and the in-process bucket are the same function: on a
    stored bucket, and on an empty hash as on a full fresh bucket, [allowScript]
    stores the tokens and the last instant and returns the wait that
    [consumeOne] computes, for every clock reading float64 holds exactly. *)
Theorem script_matches_consumeOne toks last limit b now md :
  0 <= last <= 2 ^ 53 -> 0 <= now <= 2 ^ 53 ->
  let go toks last := let '(t, l, w) := consumeOne toks last limit (of_Z b) now md in ((of_Z l, t), w) in
  allowScript limit (of_Z b) (of_Z now) (of_Z md) (Some (of_Z last, toks)) = go toks last /\
  allowScript limit (of_Z b) (of_Z now) (of_Z md) None = go (of_Z b) now.
Proof. exact (allowScript_consume toks last limit b now md). Qed.

Lemma script_matches_consumeOne_witness :
  allowScript (round (1 # 100000)) (of_Z 5) (of_Z 1700000000000000) (of_Z 0) (Some (of_Z 1699999999999000, of_Z 2))
  = let '(t, l, w) := consumeOne (of_Z 2) 1699999999999000 (round (1 # 100000)) (of_Z 5) 1700000000000000 0 in ((of_Z l, t), w).
Proof.
  exact (proj1 (script_matches_consumeOne (of_Z 2) 1699999999999000 (round (1 # 100000)) 5 1700000000000000 0 ltac:(lia) ltac:(lia))).
Defined.

(** ** The bucket never exceeds its burst *)

Lemma fsub_one_not_above a x : wf x -> flt a x = false -> flt a (fsub x (of_Z 1)) = false.
Proof.
  intros Hw Ha. assert (Na : is_num a \/ a = NaN) by (unfold is_num; destruct a; auto). destruct Na as [Na| ->]; [|done].
  destruct (fsub x (of_Z 1)) eqn:E; [by destruct a as [|[]|]|..].
  all: assert (Nx : is_num x) by (intros ->; discriminate E).
  all: pose proof (fsub_one_le x Nx Hw) as Hle; rewrite E in Hle.
  all: rewrite flt_spec in Ha by done; apply negb_false_iff in Ha; rewrite flt_spec by done; apply negb_false_iff; by eapply fle_trans.
Qed.

Lemma cap_at_ok b x : wf b -> wf x -> is_num b -> wf (cap_at b x) /\ flt b (cap_at b x) = false.
Proof.
  intros Hb Hx Nb. unfold cap_at. destruct (flt b x) eqn:E; [|done]. split; [done|].
  rewrite flt_spec by done. by rewrite fle_refl.
Qed.

Lemma consumeOne_capped toks last limit b now md t l w :
  wf b -> is_num b -> consumeOne toks last limit b now md = (t, l, w) -> wf t /\ flt b t = false.
Proof.
  intros Hb Nb. unfold consumeOne. cbn zeta. set (x := cap_at b _).
  destruct (cap_at_ok b (fadd toks (fmul limit (of_Z (wrap64 (now - (if now <? last then now else last)))))) Hb (wf_fadd _ _) Nb) as [Wx Fx]. fold x in Wx, Fx.
  assert (Hy : wf (fsub x (of_Z 1)) /\ flt b (fsub x (of_Z 1)) = false) by (split; [apply wf_fadd|by apply fsub_one_not_above]).
  destruct (flt (fsub x (of_Z 1)) (of_Z 0)); [destruct (flt (of_Z md) _)|]; intros [= <- _ _]; try done.
  apply cap_at_ok; [done|apply wf_fadd|done].
Qed.

Lemma maxMemorySources_pos : (0 < maxMemorySources)%nat.
Proof. apply Nat.ltb_lt. vm_compute. reflexivity. Qed.

Section MemoryProofs.
Context {K : Type} `{Countable K} (out_of_range : f64 -> Z) (pick : gmap K memEntry -> option K) `{!FirstKey pick}.

Definition entry_ok (b : f64) (e : memEntry) : Prop := wf (tokens e) /\ flt b (tokens e) = false.

Definition memory_ok (m : Memory (K := K)) : Prop :=
  (size (buckets m) <= maxMemorySources)%nat /\ map_Forall (fun _ e => entry_ok (of_Z (burst (clock m))) e) (buckets m).

(** A history of calls: the context error, the clock and the key of each. *)
Definition after (m : Memory (K := K)) (calls : list (option goerr * Z * K)) : Memory (K := K) :=
  fold_left (fun m '(ctxErr, now, key) => (Allow out_of_range pick ctxErr now key m).2) calls m.

Lemma Allow_ok ctxErr now key m : memory_ok m -> memory_ok (Allow out_of_range pick ctxErr now key m).2 /\
  clock (Allow out_of_range pick ctxErr now key m).2 = clock m.
Proof.
  intros [Hs Hf]. destruct ctxErr as [e|]; [done|]. unfold Allow. cbn zeta.
  set (fresh := {| tokens := _; last := _; expireAt := 0 |}).
  assert (Ffresh : entry_ok (of_Z (burst (clock m))) fresh).
  { split; [apply wf_of_Z|]. cbn. rewrite flt_spec by apply round_num. by rewrite fle_refl by apply round_num. }
  destruct (load_forall expireAt pick maxMemorySources _ now key fresh (buckets m) Hf Ffresh) as [Hl He].
  pose proof (load_size expireAt pick maxMemorySources now key fresh (buckets m) maxMemorySources_pos Hs) as Hsz.
  pose proof (load_lookup expireAt pick maxMemorySources now key fresh (buckets m)) as Hlk.
  destruct (load _ _ _ now key fresh (buckets m)) as [bs e] eqn:El. cbn [fst snd] in *.
  destruct (consumeOne _ _ _ _ _ _) as [[t l] w] eqn:Ec. cbn [snd]. split; [split|done]; cbn [buckets clock].
  - rewrite map_size_insert_Some by (by eexists). done.
  - apply map_Forall_insert_2; [|done]. eapply consumeOne_capped; [apply wf_of_Z|apply round_num|exact Ec].
Qed.

(** C36: whatever the calls, clocks (also ones that go back) and keys, no bucket
    of the in-process limiter ever holds more than its burst, the map never
    exceeds the source cap, and the configuration does not change. *)
Theorem memory_bounded r b d ttl0 m calls :
  NewMemory (K := K) r b d ttl0 = inl m ->
  let m' := after m calls in
  (size (buckets m') <= maxMemorySources)%nat /\
  map_Forall (fun _ e => flt (of_Z b) (tokens e) = false) (buckets m') /\ clock m' = clock m.
Proof.
  intros Hnew. assert (Hm : memory_ok m /\ burst (clock m) = b).
  { unfold NewMemory in Hnew. destruct (validateClock _ _ _ _); [done|]. injection Hnew as <-. split; [|done]. split; [|by intros ? ?].
    cbn [buckets]. rewrite map_size_empty. lia. }
  cbn zeta. destruct Hm as [Hm Hb]. clear Hnew. revert m Hm Hb. induction calls as [|[[ce now] key] calls IH]; intros m Hm Hb; cbn [after fold_left].
  - destruct Hm as [Hs Hf]. split; [done|]. split; [|done]. intros k e Hk. rewrite <- Hb. by apply (Hf k e Hk).
  - destruct (Allow_ok ce now key m Hm) as [Hm' Hc]. destruct (IH _ Hm') as (A & B & C); [by rewrite Hc|]. split; [done|]. split; [done|].
    unfold after in C. by rewrite C.
Qed.
End MemoryProofs.

(** ** A full bucket admits its burst, then refuses *)

Lemma trunc_bounds q a b : (inject_Z a <= q)%Q -> (q <= inject_Z b)%Q -> 0 <= a -> a <= trunc q <= b.
Proof.
  intros Ha Hb H0. unfold trunc. destruct q as [n d]. unfold Qle in *. cbn in *. rewrite Z.quot_div_nonneg by nia.
  split; [apply Z.div_le_lower_bound; lia|apply Z.div_le_upper_bound; lia].
Qed.

(** A rounding between two finite floats is finite and between them. *)
Lemma round_between x a b : wf (Fin a) -> wf (Fin b) -> (a <= x)%Q -> (x <= b)%Q ->
  exists q, round x = Fin q /\ wf (Fin q) /\ (a <= q <= b)%Q.
Proof.
  intros Wa Wb Ha Hb. pose proof (round_ge a x Wa Ha) as G. pose proof (round_le b x Wb Hb) as L. pose proof (round_wf x) as W.
  destruct (round x) as [|[]|q]; try done. exists q. cbn in G, L. by rewrite Qle_bool_iff in G, L.
Qed.

Lemma wf_check q : bool_decide (Qcompare (round_q q) q = Eq /\ Qcompare (- overflow) q = Lt /\ Qcompare q overflow = Lt) = true -> wf (Fin q).
Proof. intros (A & B & C)%bool_decide_eq_true. by apply Qeq_alt in A; apply Qlt_alt in B; apply Qlt_alt in C. Qed.

Lemma consume_full n nm lq b md :
  1 <= n <= b -> b <= 2 ^ 53 -> consumeOne (of_Z n) nm (Fin lq) (of_Z b) nm md = (of_Z (n - 1), nm, of_Z 0).
Proof.
  intros Hn Hb. unfold consumeOne, cap_at. cbn zeta. rewrite Z.ltb_irrefl, Z.sub_diag. change (of_Z (wrap64 0)) with (of_Z 0).
  assert (E : fmul (Fin lq) (of_Z 0) = of_Z 0) by (change (of_Z 0) with (Fin 0); cbn [fmul]; apply (round_comp (lq * 0) 0); lra).
  rewrite E, fadd_of_Z, Z.add_0_r by lia. rewrite flt_of_Z by lia. destruct (Z.ltb_spec b n); [lia|].
  rewrite fsub_of_Z, flt_of_Z by lia. by destruct (Z.ltb_spec (n - 1) 0); [lia|].
Qed.

(** The per-microsecond rate of a valid rate is finite. *)
Lemma limit_finite c q : rate c = Fin q -> wf (Fin q) -> (0 < q)%Q -> exists lq, limitPerMicro c = Fin lq /\ (0 <= lq)%Q.
Proof.
  intros E W Hq. unfold limitPerMicro. rewrite E. change (of_Z 1000000) with (Fin (1000000 # 1)). cbn [fdiv Qeq_bool].
  change (Qeq_bool (1000000 # 1) 0) with false. cbv iota.
  destruct (round_between (q / (1000000 # 1)) 0 q) as (lq & -> & _ & Hl).
  - by apply wf_check.
  - done.
  - apply Qle_shift_div_l; lra.
  - apply Qle_shift_div_r; lra.
  - exists lq. split; [done|lra].
Qed.

(** The float of [n / 10^6]. *)
Definition limit_of (n : Z) : Q := round_q (inject_Z n / (1000000 # 1)).

Section Burst.
Context {K : Type} `{Countable K} (out_of_range : f64 -> Z) (pick : gmap K memEntry -> option K) `{!FirstKey pick}
  (now : Z) (key : K).

(** [n] calls at the same instant on one key. *)
Fixpoint allows (n : nat) (m : Memory (K := K)) : list (bool * Z + goerr) * Memory (K := K) :=
  match n with
  | O => ([], m)
  | S n => let '(r, m) := Allow out_of_range pick None now key m in
           let '(rs, m) := allows n m in (r :: rs, m)
  end.

(** The key's bucket holds [n] tokens since [now]. *)
Definition holds (m : Memory (K := K)) (n : Z) : Prop :=
  match buckets m !! key with
  | Some e => tokens e = of_Z n /\ last e = UnixMicro now /\ now < expireAt e
  | None => n = burst (clock m)
  end.

Lemma Allow_holds m n :
  holds m n -> forall t l w,
  consumeOne (of_Z n) (UnixMicro now) (limitPerMicro (clock m)) (of_Z (burst (clock m))) (UnixMicro now) (Microseconds (maxDelay (clock m))) = (t, l, w) ->
  let wait := waitDuration out_of_range w in
  exists m', Allow out_of_range pick None now key m = (inl (allowedFromWait wait (maxDelay (clock m)), wait), m') /\
    clock m' = clock m /\ buckets m' !! key = Some {| tokens := t; last := l; expireAt := now + ttl (clock m) |}.
Proof.
  intros Hh t l w Ec. cbn zeta. unfold Allow. cbn zeta. set (fresh := {| tokens := of_Z _; last := _; expireAt := 0 |}).
  assert (HL : exists bk e, load expireAt pick maxMemorySources now key fresh (buckets m) = (bk, e) /\ tokens e = of_Z n /\ last e = UnixMicro now).
  { unfold holds in Hh. destruct (buckets m !! key) as [e|] eqn:E.
    - destruct Hh as (Ht & Hl & Hx). exists (buckets m), e. split; [|done]. apply load_live; [done|]. by apply Z.ltb_lt.
    - subst n. unfold load. rewrite E. cbn [mbind option_bind]. by eexists _, fresh. }
  destruct HL as (bk & e & -> & -> & ->). rewrite Ec. eexists. split; [done|]. split; [done|]. cbn. by rewrite lookup_insert_eq.
Qed.

Lemma allows_burst n : forall m k,
  holds m k -> Z.of_nat n <= k <= burst (clock m) -> burst (clock m) <= 2 ^ 53 -> 0 <= maxDelay (clock m) -> 0 < ttl (clock m) ->
  (exists lq, limitPerMicro (clock m) = Fin lq) ->
  exists m', allows n m = (replicate n (inl (true, 0)), m') /\ holds m' (k - Z.of_nat n) /\ clock m' = clock m.
Proof.
  induction n as [|n IH]; intros m k Hh Hk Hb Hd Ht Hl.
  { exists m. by rewrite Z.sub_0_r. }
  destruct Hl as [lq Hl]. cbn [allows].
  assert (Ec := consume_full k (UnixMicro now) lq (burst (clock m)) (Microseconds (maxDelay (clock m))) ltac:(lia) Hb).
  rewrite <- Hl in Ec. destruct (Allow_holds m k Hh _ _ _ Ec) as (m1 & -> & Hc & He).
  change (waitDuration out_of_range (of_Z 0)) with 0. unfold allowedFromWait. rewrite (proj2 (Z.leb_le _ _)) by done.
  destruct (IH m1 (k - 1)) as (m2 & -> & Hh2 & Hc2); rewrite ?Hc; try lia; try done.
  - unfold holds. rewrite He. cbn. split; [done|]. split; [done|lia].
  - by exists lq.
  - exists m2. split; [done|]. split; [|congruence]. by replace (k - Z.of_nat (S n)) with (k - 1 - Z.of_nat n) by lia.
Qed.
End Burst.

(** One token short and more than the delay to wait: the consume is refunded. *)
Lemma consume_empty nm lq b md w :
  1 <= b <= 2 ^ 53 -> fdiv (Fin 1) (Fin lq) = w -> flt (of_Z md) w = true ->
  consumeOne (of_Z 0) nm (Fin lq) (of_Z b) nm md = (of_Z 0, nm, w).
Proof.
  intros Hb Hw Hpos. unfold consumeOne, cap_at. cbn zeta. rewrite Z.ltb_irrefl, Z.sub_diag. change (of_Z (wrap64 0)) with (of_Z 0).
  assert (E : fmul (Fin lq) (of_Z 0) = of_Z 0) by (change (of_Z 0) with (Fin 0); cbn [fmul]; apply (round_comp (lq * 0) 0); lra).
  rewrite E, (fadd_of_Z 0 0), (flt_of_Z b (0 + 0)) by lia. destruct (Z.ltb_spec b (0 + 0)); [lia|].
  rewrite (fsub_of_Z (0 + 0) 1) by lia. rewrite (flt_of_Z _ 0) by lia. change (0 + 0 - 1 <? 0) with true. cbv iota.
  change (fneg (of_Z (0 + 0 - 1))) with (Fin 1). rewrite Hw, Hpos. rewrite (fadd_of_Z _ 1), flt_of_Z by lia.
  by destruct (Z.ltb_spec b (0 + 0 - 1 + 1)); [lia|].
Qed.

Definition slowest : Q := 1 # 1000000000.
Definition fastest : Q := 1000000000 # 1.

(** A rounding lies between the roundings of its bounds. *)
Lemma round_within x a b :
  (a <= x)%Q -> (x <= b)%Q -> (- overflow < round_q a)%Q -> (round_q b < overflow)%Q ->
  exists q, round x = Fin q /\ wf (Fin q) /\ (round_q a <= q <= round_q b)%Q.
Proof.
  intros Ha%round_q_mono Hb%round_q_mono Oa Ob. pose proof (round_wf x) as W. unfold round in *.
  destruct (Qle_bool overflow (round_q x)) eqn:A; [apply Qle_bool_iff in A; lra|].
  destruct (Qle_bool overflow (- round_q x)) eqn:B; [apply Qle_bool_iff in B; lra|]. eauto.
Qed.

(** Waits of rates between [slowest] and [fastest] per second are at least one
    nanosecond and fit an int64. *)
Lemma one_token_wait c q out :
  rate c = Fin q -> wf (Fin q) -> (slowest <= q <= fastest)%Q ->
  exists lq w, limitPerMicro c = Fin lq /\ fdiv (Fin 1) (Fin lq) = w /\ flt (of_Z 0) w = true /\ 0 < waitDuration out w.
Proof.
  intros E W [H1 H2]. unfold slowest, fastest in *. unfold limitPerMicro. rewrite E. change (of_Z 1000000) with (Fin (1000000 # 1)).
  cbn [fdiv]. change (Qeq_bool (1000000 # 1) 0) with false. cbv iota.
  destruct (round_within (q / (1000000 # 1)) (1 # 1000000000000000) (1000 # 1)) as (lq & -> & _ & Hl).
  { apply Qle_shift_div_l; lra. }
  { apply Qle_shift_div_r; lra. }
  { vm_compute. reflexivity. }
  { vm_compute. reflexivity. }
  assert (Hlo : ((1 # 2000000000000000) <= round_q (1 # 1000000000000000))%Q) by (vm_compute; discriminate).
  assert (Hhi : (round_q (1000 # 1) == 1000 # 1)%Q) by (vm_compute; reflexivity).
  exists lq, (fdiv (Fin 1) (Fin lq)). split; [done|]. split; [done|]. cbn [fdiv].
  destruct (Qeq_bool lq 0) eqn:Z0; [apply Qeq_bool_iff in Z0; lra|].
  destruct (round_within (1 / lq) (1 # 1000) (2000000000000000 # 1)) as (w & -> & _ & Hw).
  { apply Qle_shift_div_l; lra. }
  { apply Qle_shift_div_r; lra. }
  { vm_compute. reflexivity. }
  { vm_compute. reflexivity. }
  assert (Hw1 : ((1 # 2000) <= round_q (1 # 1000))%Q) by (vm_compute; discriminate).
  assert (Hw2 : (round_q (2000000000000000 # 1) == 2000000000000000 # 1)%Q) by (vm_compute; reflexivity).
  assert (Hneg : Qle_bool w 0 = false) by (apply Qle_bool_false; lra).
  change (of_Z 0) with (Fin 0). split; [unfold flt; cbn [fle]; by rewrite Hneg|].
  unfold waitDuration. change (of_Z 0) with (Fin 0). cbn [fle]. rewrite Hneg. change (of_Z 1000) with (Fin (1000 # 1)). cbn [fmul].
  destruct (round_within (w * (1000 # 1)) (round_q (1 # 1000) * (1000 # 1)) (2000000000000000000 # 1)) as (p & -> & _ & Hp).
  { apply Qmult_le_compat_r; lra. }
  { lra. }
  { vm_compute. reflexivity. }
  { vm_compute. reflexivity. }
  assert (Hp1 : (inject_Z 1 <= round_q (round_q (1 # 1000) * (1000 # 1)))%Q) by (vm_compute; discriminate).
  assert (Hp2 : (round_q (2000000000000000000 # 1) <= inject_Z (2 ^ 62))%Q) by (vm_compute; discriminate).
  pose proof (trunc_bounds p 1 (2 ^ 62) ltac:(lra) ltac:(lra) ltac:(lia)) as Ht.
  cbn [to_int64]. rewrite bool_decide_eq_true_2; [lia|]. unfold in_int64, int64_min, int64_max. lia.
Qed.

(** C23: a new in-process limiter without delay admits exactly its burst at one
    instant: the first [burst] calls on a key are allowed at once and the next
    is refused with a positive wait, for any burst float64 holds and any rate
    from one per 31 years to one per nanosecond. *)
Theorem burst_then_refused {K} `{Countable K} out pick `{!FirstKey (K := K) pick} now key r b ttl0 m :
  wf (Fin r) -> (slowest <= r <= fastest)%Q -> b <= 2 ^ 53 -> NewMemory (Fin r) b 0 ttl0 = inl m ->
  exists m1 m2 w,
    allows out pick now key (Z.to_nat b) m = (replicate (Z.to_nat b) (inl (true, 0)), m1) /\
    Allow out pick None now key m1 = (inl (false, w), m2) /\ 0 < w.
Proof.
  intros W Hr Hb Hnew.
  assert (Hm : clock m = {| rate := Fin r; burst := b; maxDelay := 0; ttl := ttl0 |} /\ buckets m = ∅ /\ 1 <= b /\ 0 < ttl0).
  { unfold NewMemory, validateClock in Hnew. destruct (fle (Fin r) (of_Z 0)); [done|]. cbn [orb] in Hnew.
    destruct (Z.ltb_spec b 1); [done|]. change (0 <? 0) with false in Hnew. cbv iota in Hnew.
    destruct (Z.ltb_spec ttl0 Second) as [|Hs]; [done|]. cbn [orb] in Hnew. destruct (negb _); [done|]. injection Hnew as <-.
    unfold Second, Millisecond in Hs. by repeat split; try lia. }
  destruct Hm as (Hc & He & Hb1 & Ht). destruct (one_token_wait (clock m) r out) as (lq & w & Hl & Hd & Hp & Hw); [by rewrite Hc|done|done|].
  destruct (allows_burst out pick now key (Z.to_nat b) m b) as (m1 & H1 & H2 & H3).
  - unfold holds. rewrite He, lookup_empty. by rewrite Hc.
  - rewrite Hc. cbn. lia.
  - by rewrite Hc.
  - by rewrite Hc.
  - by rewrite Hc.
  - eauto.
  - replace (b - Z.of_nat (Z.to_nat b)) with 0 in H2 by lia.
    assert (Ec := consume_empty (UnixMicro now) lq b 0 w ltac:(lia) Hd Hp).
    assert (Hc1 : clock m1 = {| rate := Fin r; burst := b; maxDelay := 0; ttl := ttl0 |}) by congruence.
    destruct (Allow_holds out pick now key m1 0 H2 (of_Z 0) (UnixMicro now) w) as (m2 & H4 & _ & _).
    { rewrite H3, Hl, Hc. exact Ec. }
    exists m1, m2, (waitDuration out w). split; [done|]. split; [|done]. rewrite H4, Hc1. cbn [maxDelay]. unfold allowedFromWait.
    by rewrite (proj2 (Z.leb_gt _ _)).
Qed.

Lemma burst_then_refused_witness :
  exists m m1 m2 w, NewMemory (K := nat) (of_Z 10) 3 0 Second = inl m /\
    allows (fun _ => 0%Z) first_key 5000%Z 1%nat 3 m = (replicate 3 (inl (true, 0)), m1) /\
    Allow (fun _ => 0%Z) first_key None 5000 1%nat m1 = (inl (false, w), m2) /\ 0 < w.
Proof.
  destruct (NewMemory (K := nat) (of_Z 10) 3 0 Second) as [m|e] eqn:E; [|vm_compute in E; discriminate E].
  exists m. destruct (burst_then_refused (K := nat) (fun _ => 0%Z) first_key 5000%Z 1%nat 10 3 Second m) as (m1 & m2 & w & A & B & C).
  - apply wf_check. vm_compute. reflexivity.
  - split; vm_compute; discriminate.
  - lia.
  - exact E.
  - exists m1, m2, w. split; [reflexivity|]. split; [exact A|]. split; [exact B|exact C].
Defined.

Lemma memory_bounded_witness :
  exists m, NewMemory (K := nat) (of_Z 10) 3 0 Second = inl m /\
    (size (buckets (after (fun _ => 0%Z) first_key m [(None, 5000%Z, 1%nat); (None, 4000%Z, 2%nat)])) <= maxMemorySources)%nat.
Proof.
  destruct (NewMemory (K := nat) (of_Z 10) 3 0 Second) as [m|e] eqn:E; [|vm_compute in E; discriminate E].
  exists m. split; [reflexivity|]. apply (memory_bounded (fun _ => 0%Z) first_key (of_Z 10) 3 0 Second m _ E).
Defined.

(** ** Two ways past the limit *)

(** A maxDelay that is not a whole number of microseconds opens the gate:
    with 800000 requests per second, burst 1 and 1500 ns, the consume compares
    the wait of 1.25 us with 1 us and refunds the token, while the answer
    compares 1250 ns with 1500 ns and admits; so at one instant every call is
    admitted, however many there are. *)
Theorem sub_microsecond_delay_admits_all {K} `{Countable K} out pick `{!FirstKey (K := K) pick} now key m n :
  NewMemory (of_Z 800000) 1 1500 Second = inl m ->
  Forall (fun r => exists w, r = inl (true, w)) (allows out pick now key n m).1.
Proof.
  intros Hnew.
  assert (Hm : clock m = {| rate := of_Z 800000; burst := 1; maxDelay := 1500; ttl := Second |} /\ buckets m = ∅).
  { vm_compute in Hnew. injection Hnew as <-. done. }
  destruct Hm as [Hc He].
  assert (Hl : limitPerMicro (clock m) = Fin (limit_of 800000)) by (rewrite Hc; vm_compute; reflexivity).
  assert (Hh : holds now key m 1) by (unfold holds; rewrite He, lookup_empty, Hc; done).
  (* the first call takes the token, every later one finds an empty bucket *)
  assert (Hrest : forall n m', clock m' = clock m -> holds now key m' 0 ->
    Forall (fun r => exists w, r = inl (true, w)) (allows out pick now key n m').1).
  { clear n. induction n as [|n IH]; intros m' Hc' H0; [constructor|]. cbn [allows].
    assert (Ec := consume_empty (UnixMicro now) (limit_of 800000) 1 1 (Fin (5 # 4)) ltac:(lia) ltac:(vm_compute; reflexivity) ltac:(vm_compute; reflexivity)).
    destruct (Allow_holds out pick now key m' 0 H0 (of_Z 0) (UnixMicro now) (Fin (5 # 4))) as (m2 & -> & Hc2 & H2).
    { rewrite Hc', Hl, Hc. exact Ec. }
    specialize (IH m2). destruct (allows out pick now key n m2) as [rs m3]. cbn [fst] in *. constructor.
    - rewrite Hc', Hc. exists 1250. change (waitDuration out (Fin (5 # 4))) with 1250. reflexivity.
    - apply IH; [congruence|]. unfold holds. rewrite H2. cbn. rewrite Hc', Hc. cbn. unfold Second, Millisecond. split; [done|]. split; [done|lia]. }
  destruct n as [|n]; [constructor|]. cbn [allows].
  assert (Ec := consume_full 1 (UnixMicro now) (limit_of 800000) 1 1 ltac:(lia) ltac:(lia)).
  destruct (Allow_holds out pick now key m 1 Hh (of_Z 0) (UnixMicro now) (of_Z 0)) as (m2 & -> & Hc2 & H2).
  { rewrite Hl, Hc. exact Ec. }
  specialize (Hrest n m2 Hc2). destruct (allows out pick now key n m2) as [rs m3]. cbn [fst] in *. constructor.
  - rewrite Hc. exists 0. reflexivity.
  - apply Hrest. unfold holds. rewrite H2. cbn. rewrite Hc. cbn. unfold Second, Millisecond. split; [done|]. split; [done|lia].
Qed.

Lemma sub_microsecond_delay_admits_all_witness :
  exists m, NewMemory (K := nat) (of_Z 800000) 1 1500 Second = inl m /\
    Forall (fun r => exists w, r = inl (true, w)) (allows (fun _ => 0%Z) first_key 5000%Z 1%nat 100 m).1.
Proof.
  destruct (NewMemory (K := nat) (of_Z 800000) 1 1500 Second) as [m|e] eqn:E; [|vm_compute in E; discriminate E].
  exists m. split; [reflexivity|]. apply (sub_microsecond_delay_admits_all (K := nat) (fun _ => 0%Z) first_key 5000%Z 1%nat m 100 E).
Defined.

(** A rate below one per 293 years overflows the wait in nanoseconds; where
    the conversion of an out-of-range float gives the least int64, the empty
    bucket admits. *)
Theorem tiny_rate_admits :
  match NewMemory (K := nat) (round (1 # 10000000000)) 1 0 Second with
  | inl m => (allows (fun _ => int64_min) first_key 5000%Z 1%nat 3 m).1 = [inl (true, 0); inl (true, int64_min); inl (true, int64_min)]
  | inr _ => False
  end.
Proof. vm_compute. reflexivity. Qed.
