(* ===== verification/BucketClient.v ===== *)
(** * BucketClient: the Redis token bucket over the client, beside the in-process one

    [tokenbucket.Redis] put together from its layers: [Allow] formats the
    script's arguments, [Eval] sends the digest and then the body, the retry loop
    and the codec carry them to a server that runs [allowScript] on a hash.  The
    same calls are made on [tokenbucket.Memory]; the two answer alike.

    Arguments: what the server's Lua makes of text and of numbers, which is code
    outside the repository. *)

From Stdlib Require Import ZArith QArith Lia List String Sorted.
From Stdlib Require Import Strings.Byte.
From stdpp Require Import base list option gmap sets fin_map_dom countable.
From S2P Require Import Prelude.
From S2P Require Import Strconv.
From S2P Require Import Sha1.
From S2P Require Import Resp.
From S2P Require Import RespProofs.
From S2P Require Import RedisExec.
From S2P Require Import RedisExecProofs.
From S2P Require Import RedisVerbs.
From S2P Require Import Float64.
From S2P Require Import WindowClient.
From S2P Require Import ExpiryMap.
From S2P Require Import TokenBucket.

Open Scope Z_scope.

(** ** A server with hashes and scripts

    An example engine, with the commands the script calls as Redis documents
    them: HGETALL lists the two fields in the order they were first set, as a
    small hash does, and the clock is set by the calls. *)

(** A hash: its fields in the order HGETALL lists them, and its expiry. *)
Record hash := { fields : list (bytes * bytes); expires : option Z }.

(** Hashes by key, digests of the scripts it has seen, and its clock. *)
Record server := { hashes : bytes -> option hash; seen : list bytes; time : Z }.

Definition at_time (now : Z) (s : server) : server := {| hashes := hashes s; seen := seen s; time := now |}.

(** The hash of a key whose expiry has not passed. *)
Definition live_hash (s : server) (key : bytes) : option hash :=
  h ← hashes s key; match expires h with Some t => if t <=? time s then None else Some h | None => Some h end.

Definition store (key : bytes) (h : hash) (s : server) : server :=
  {| hashes := fun k => if decide (k = key) then Some h else hashes s k; seen := seen s; time := time s |}.

(** HSET of one field: in place, or at the end. *)
Fixpoint hset (f v : bytes) (l : list (bytes * bytes)) : list (bytes * bytes) :=
  match l with
  | [] => [(f, v)]
  | (g, u) :: l => if decide (g = f) then (f, v) :: l else (g, u) :: hset f v l
  end.

(** What the server's Lua does with text: [tonumber], [tostring], and the text
    of a number passed to [redis.call].  The named laws are the documented ones:
    decimal text reads as the nearest float, [%.17g] text reads back exactly and
    prints integers plainly, and what [FormatFloat] prints with the fewest
    digits reads back as the same float ([tonumber] is C's strtod, which reads
    the texts of the infinities and of NaN too). *)
Class LuaText (tonumber : bytes -> option f64) (tostring argtext FormatFloat : f64 -> bytes) : Prop := {
  tonumber_int n : in_int64 n -> tonumber (FormatInt n) = Some (of_Z n);
  tonumber_float f : wf f -> tonumber (FormatFloat f) = Some f;
  tonumber_arg f : wf f -> tonumber (argtext f) = Some f;
  argtext_int n : - 2 ^ 53 <= n <= 2 ^ 53 -> argtext (of_Z n) = FormatInt n;
  tostring_short f : (length (tostring f) <= 64)%nat;
}.

Section Server.
Context (tonumber : bytes -> option f64) (tostring argtext : f64 -> bytes) (script : bytes).

Definition script_error : rvalue := VError (bs "ERR user_script: attempt to perform arithmetic on a nil value").

(** One run of [allowScript], from KEYS and ARGV to the reply; a nil number or a
    TTL that is no integer is an error. *)
Definition run_allowScript (KEYS ARGV : list bytes) (s : server) : server * rvalue :=
  match KEYS, ARGV with
  | [key], [a1; a2; a3; a4; a5] =>
      match tonumber a1, tonumber a2, tonumber a3, tonumber a4, tonumber a5 with
      | Some limit, Some burst, Some ttl, Some t, Some max_delay =>
          let old := default {| fields := []; expires := None |} (live_hash s key) in
          let rl_source := flat_map (fun '(f, v) => [f; v]) (fields old) in
          match (match rl_source with
                 | [_; l; _; k] => last ← tonumber l; tokens ← tonumber k; Some (Some (last, tokens))
                 | _ => Some None
                 end) with
          | Some bucket =>
              let '((persistLast, tokens), wait_duration) := allowScript limit burst t max_delay bucket in
              let fs := hset (bs "tokens") (argtext tokens) (hset (bs "last") (argtext persistLast) (fields old)) in
              match ParseInt (argtext ttl) with
              | Some secs =>
                  (store key {| fields := fs; expires := Some (time s + secs * Second) |} s,
                   VArray [EBulk (Some (bs "true")); EBulk (Some (tostring wait_duration)); EBulk (Some (tostring tokens))])
              | None => (store key {| fields := fs; expires := expires old |} s, script_error)
              end
          | None => (s, script_error)
          end
      | _, _, _, _, _ => (s, script_error)
      end
  | _, _ => (s, script_error)
  end.

(** EVALSHA and EVAL as Redis documents them; EVAL keeps the script. *)
Definition server_apply (argv : list bytes) (s : server) : server * rvalue :=
  match argv with
  | verb :: x :: nk :: rest =>
      match ParseInt nk with
      | Some n =>
          let KEYS := take (Z.to_nat n) rest in
          let ARGV := drop (Z.to_nat n) rest in
          if decide (verb = bs "EVALSHA") then
            if decide (x ∈ seen s) then
              if decide (x = ScriptSHA1Hex script) then run_allowScript KEYS ARGV s else (s, script_error)
            else (s, VError (bs "NOSCRIPT No matching script. Please use EVAL."))
          else if decide (verb = bs "EVAL") then
            let s := {| hashes := hashes s; seen := ScriptSHA1Hex x :: seen s; time := time s |} in
            if decide (x = script) then run_allowScript KEYS ARGV s else (s, script_error)
          else (s, VError (bs "ERR unknown command"))
      | None => (s, VError (bs "ERR value is not an integer or out of range"))
      end
  | _ => (s, VError (bs "ERR unknown command"))
  end.

End Server.

(** ** One call *)

Lemma wf_fdiv a b : wf (fdiv a b).
Proof. destruct a as [|[]|x], b as [|[]|y]; cbn [fdiv]; repeat case_match; try done; apply round_wf. Qed.

Lemma quot_int64 a b : 0 < b -> in_int64 a -> in_int64 (Z.quot a b).
Proof.
  unfold in_int64, int64_min, int64_max. intros Hb Ha. pose proof (Z.quot_rem' a b). pose proof (Z.rem_bound_abs a b ltac:(lia)).
  destruct (Z.le_gt_cases 0 a).
  - pose proof (Z.quot_pos a b ltac:(lia) ltac:(lia)). pose proof (Z.quot_le_upper_bound a b (2 ^ 63 - 1) ltac:(lia) ltac:(nia)). lia.
  - pose proof (Z.quot_opp_l a b ltac:(lia)). pose proof (Z.quot_pos (- a) b ltac:(lia) ltac:(lia)).
    pose proof (Z.quot_le_upper_bound (- a) b (2 ^ 63) ltac:(lia) ltac:(nia)). lia.
Qed.

(** A configuration as the constructors accept it, in Go's widths. *)
Definition config_ok (c : clockConfig) : Prop :=
  validateClock (rate c) (burst c) (maxDelay c) (ttl c) = None /\ in_int64 (burst c) /\ in_int64 (maxDelay c) /\ in_int64 (ttl c).

Lemma config_ttl c : config_ok c -> ttlSeconds c * Second = ttl c /\ 0 <= ttlSeconds c <= 2 ^ 53 /\ 0 < ttl c.
Proof.
  intros (V & _ & _ & T). unfold validateClock in V. destruct (_ || _) in V; [done|]. destruct (_ <? 1) in V; [done|].
  destruct (_ <? 0) in V; [done|]. destruct (Z.ltb_spec (ttl c) Second); [done|].
  destruct (Z.eqb_spec (Z.rem (ttl c) Second) 0) as [E|]; [|done]. clear V.
  unfold ttlSeconds, in_int64, int64_min, int64_max, Second, Millisecond in *. pose proof (Z.quot_rem' (ttl c) (1000 * 1000000)).
  lia.
Qed.

Section Call.
Context (tonumber : bytes -> option f64) (tostring argtext FormatFloat : f64 -> bytes) `{!LuaText tonumber tostring argtext FormatFloat}.
Context (script : bytes) (c : clockConfig).
Hypothesis Hc : config_ok c.

(** The hash of an in-process entry. *)
Definition hash_of (e : memEntry) : hash :=
  {| fields := [(bs "last", argtext (of_Z (last e))); (bs "tokens", argtext (tokens e))]; expires := Some (expireAt e) |}.

Definition in_range (e : memEntry) : Prop := 0 <= last e <= 2 ^ 53 /\ wf (tokens e).

(** The entry after a call, and its wait. *)
Definition spend (now : Z) (oe : option memEntry) : memEntry * f64 :=
  let e := default {| tokens := of_Z (burst c); last := UnixMicro now; expireAt := 0 |} oe in
  let '(t, l, w) := consumeOne (tokens e) (last e) (limitPerMicro c) (of_Z (burst c)) (UnixMicro now) (Microseconds (maxDelay c)) in
  ({| tokens := t; last := l; expireAt := now + ttl c |}, w).

Lemma spend_in_range now oe :
  0 <= UnixMicro now <= 2 ^ 53 -> (forall e, oe = Some e -> in_range e) -> in_range (spend now oe).1.
Proof.
  intros Hn Ho. unfold spend. set (e := default _ oe).
  assert (He : in_range e) by (destruct oe as [e'|]; cbn; [by apply Ho|split; [done|apply wf_of_Z]]).
  destruct (consumeOne _ _ _ _ _ _) as [[t l] w] eqn:E. cbn [fst]. split; cbn [last tokens].
  - unfold consumeOne in E. cbn zeta in E. destruct (if flt _ _ then _ else _) as [? ?] in E. injection E as _ <- _. destruct He. destruct (_ <? _); lia.
  - eapply consumeOne_capped; [apply wf_of_Z|apply round_num|exact E].
Qed.

Lemma run_spends key now s oe :
  0 <= UnixMicro now <= 2 ^ 53 -> time s = now -> live_hash s key = hash_of <$> oe -> (forall e, oe = Some e -> in_range e) ->
  exists tw, run_allowScript tonumber tostring argtext [key] (allowArgs FormatFloat c (UnixMicro now)) s
  = (store key (hash_of (spend now oe).1) s, VArray [EBulk (Some (bs "true")); EBulk (Some (tostring (spend now oe).2)); EBulk (Some (tostring tw))]).
Proof.
  intros Hn Ht Hl Hr. destruct (config_ttl c Hc) as (T1 & T2 & _). destruct Hc as (_ & Hb & Hd & Htl).
  assert (Hsm : forall n, 0 <= n <= 2 ^ 53 -> in_int64 n) by (unfold in_int64, int64_min, int64_max; intros; lia).
  assert (Hlw : wf (limitPerMicro c)) by exact (wf_fdiv (rate c) (of_Z 1000000)).
  assert (Hmd : in_int64 (Microseconds (maxDelay c))) by (apply quot_int64; [lia|exact Hd]).
  unfold run_allowScript, allowArgs. rewrite (tonumber_float _ Hlw).
  rewrite (tonumber_int _ Hb), (tonumber_int _ (Hsm _ T2)), (tonumber_int _ (Hsm _ Hn)), (tonumber_int _ Hmd).
  rewrite Hl. cbn zeta. rewrite argtext_int, (ParseInt_FormatInt _ (Hsm _ T2)), Ht by lia. rewrite T1.
  unfold spend. destruct oe as [e|]; cbn [fmap option_fmap option_map default from_option id hash_of fields flat_map app expires].
  - destruct (Hr e eq_refl) as [R1 R2]. rewrite (tonumber_arg _ (wf_of_Z (last e))), (tonumber_arg _ R2). cbn [mbind option_bind].
    rewrite (proj1 (allowScript_consume (tokens e) (last e) (limitPerMicro c) (burst c) (UnixMicro now) (Microseconds (maxDelay c)) R1 Hn)).
    destruct (consumeOne _ _ _ _ _ _) as [[t l] w]. cbn [fst snd]. exists t. reflexivity.
  - rewrite (proj2 (allowScript_consume (of_Z (burst c)) (UnixMicro now) (limitPerMicro c) (burst c) (UnixMicro now) (Microseconds (maxDelay c)) Hn Hn)).
    cbn [tokens last]. destruct (consumeOne _ _ _ _ _ _) as [[t l] w]. cbn [fst snd]. exists t. reflexivity.
Qed.

(** What the client makes of the wait's text. *)
Definition answer_of (ParseFloat : bytes -> option f64) (out : f64 -> Z) (text : bytes) : bool * Z + tbErr :=
  match ParseFloat text with
  | Some (Fin q) => let wait := waitDuration out (Fin q) in inl (allowedFromWait wait (maxDelay c), wait)
  | _ => inr errEvalWait
  end.

Abbreviation apply := (server_apply tonumber tostring argtext script).

Lemma run_value_ok KEYS ARGV s : value_ok (run_allowScript tonumber tostring argtext KEYS ARGV s).2.
Proof.
  assert (He : value_ok script_error) by (apply error_ok; [reflexivity|vm_compute; lia]).
  assert (Hs : forall f, Z.of_nat (length (tostring f)) <= maxBulkLength) by (intros f; pose proof (tostring_short f); unfold maxBulkLength; lia).
  unfold run_allowScript. repeat case_match; cbn [snd]; try exact He.
  all: split; [vm_compute; discriminate|]; repeat constructor; (apply Hs || (vm_compute; discriminate)).
Qed.

Lemma apply_value_ok argv s : value_ok (apply argv s).2.
Proof.
  unfold server_apply. repeat case_match; try apply run_value_ok; apply error_ok; (reflexivity || (vm_compute; lia)).
Qed.

Lemma apply_one verb x key args s :
  apply (evalArgv verb x [key] args) s =
  if decide (verb = bs "EVALSHA") then
    if decide (x ∈ seen s) then
      if decide (x = ScriptSHA1Hex script) then run_allowScript tonumber tostring argtext [key] args s else (s, script_error)
    else (s, VError (bs "NOSCRIPT No matching script. Please use EVAL."))
  else if decide (verb = bs "EVAL") then
    let s := {| hashes := hashes s; seen := ScriptSHA1Hex x :: seen s; time := time s |} in
    if decide (x = script) then run_allowScript tonumber tostring argtext [key] args s else (s, script_error)
  else (s, VError (bs "ERR unknown command")).
Proof. reflexivity. Qed.

Lemma apply_sha key args s : ScriptSHA1Hex script ∈ seen s ->
  apply (evalArgv (bs "EVALSHA") (ScriptSHA1Hex script) [key] args) s = run_allowScript tonumber tostring argtext [key] args s.
Proof. intros Hs. rewrite apply_one. rewrite !decide_True by done. done. Qed.

Lemma apply_noscript key args s : ScriptSHA1Hex script ∉ seen s ->
  apply (evalArgv (bs "EVALSHA") (ScriptSHA1Hex script) [key] args) s = (s, VError (bs "NOSCRIPT No matching script. Please use EVAL.")).
Proof. intros Hs. rewrite apply_one. rewrite decide_True, decide_False by done. done. Qed.

Definition with_script (s : server) : server := {| hashes := hashes s; seen := ScriptSHA1Hex script :: seen s; time := time s |}.

Lemma apply_eval key args s :
  apply (evalArgv (bs "EVAL") script [key] args) s = run_allowScript tonumber tostring argtext [key] args (with_script s).
Proof. rewrite apply_one. rewrite decide_False, !decide_True by done. done. Qed.

Context (cfg : Config) (ParseFloat : bytes -> option f64) (out : f64 -> Z).

(** [Redis.Allow] over the client: the server spends from the key's hash and the
    caller gets the wait, whether the script was known or had to be sent. *)
Lemma RedisAllow_spends key now s fss oe :
  0 <= UnixMicro now <= 2 ^ 53 -> time s = now -> live_hash s key = hash_of <$> oe -> (forall e, oe = Some e -> in_range e) ->
  delivers cfg fss ->
  exists s' fss', RedisAllow (exec_wire apply cfg) script (ScriptSHA1Hex script) FormatFloat ParseFloat out None now key c (s, fss)
    = (answer_of ParseFloat out (tostring (spend now oe).2), (s', fss')) /\
    hashes s' = hashes (store key (hash_of (spend now oe).1) s) /\ delivers cfg fss'.
Proof.
  intros Hn Ht Hl Hr Hd. unfold RedisAllow, Eval.
  destruct (decide (ScriptSHA1Hex script ∈ seen s)) as [Hs|Hs].
  - destruct (run_spends key now s oe Hn Ht Hl Hr) as [tw Hrun].
    rewrite (exec_wire_delivers apply cfg apply_value_ok _ s fss) by (rewrite ?(apply_sha _ _ _ Hs), ?Hrun; done).
    rewrite (apply_sha _ _ _ Hs), Hrun. cbn [fst snd]. eexists _, _. split; [reflexivity|]. split; [done|by apply delivers_tl].
  - destruct (run_spends key now (with_script s) oe Hn Ht Hl Hr) as [tw Hrun].
    rewrite (exec_wire_delivers apply cfg apply_value_ok _ s fss) by (rewrite ?(apply_noscript _ _ _ Hs); done).
    rewrite (apply_noscript _ _ _ Hs). cbn [fst snd]. change (noScript _) with true. cbn iota.
    rewrite (exec_wire_delivers apply cfg apply_value_ok _ s (tl fss)) by (rewrite ?apply_eval, ?Hrun; done || by apply delivers_tl).
    rewrite apply_eval, Hrun. cbn [fst snd]. eexists _, _. split; [reflexivity|]. split; [done|by do 2 apply delivers_tl].
Qed.

End Call.

(** ** Runs: both refine one bucket per key with an idle TTL *)

(** The reference: an unbounded map of buckets; what each call waits. *)
Fixpoint waits (c : clockConfig) (calls : list (Z * bytes)) (st : gmap bytes memEntry) : list f64 :=
  match calls with
  | [] => []
  | (now, key) :: calls =>
      let '(e, w) := spend c now (live expireAt now st key) in w :: waits c calls (<[key := e]> st)
  end.

Lemma live_insert (now : Z) (key k : bytes) (e : memEntry) (st : gmap bytes memEntry) :
  live expireAt now (<[key := e]> st) k = if decide (k = key) then (if alive expireAt now e then Some e else None) else live expireAt now st k.
Proof.
  unfold live. destruct (decide (k = key)) as [->|]; [by rewrite lookup_insert_eq|by rewrite lookup_insert_ne].
Qed.

Lemma spend_alive c now oe : config_ok c -> alive expireAt now (spend c now oe).1 = true.
Proof.
  intros Hc. destruct (config_ttl c Hc) as (_ & _ & Ht). unfold spend, alive. destruct (consumeOne _ _ _ _ _ _) as [[t l] w]. cbn.
  apply Z.ltb_lt. lia.
Qed.

Section Memory.
Context (out : f64 -> Z) (pick : gmap bytes memEntry -> option bytes) `{!FirstKey pick} (c : clockConfig).
Hypothesis Hc : config_ok c.

Fixpoint memory_run (calls : list (Z * bytes)) (m : Memory (K := bytes)) : list (bool * Z + goerr) :=
  match calls with
  | [] => []
  | (now, key) :: calls => let '(r, m) := Allow out pick None now key m in r :: memory_run calls m
  end.

Lemma Allow_spends now key m :
  clock m = c ->
  let b := load expireAt pick maxMemorySources now key {| tokens := of_Z (burst c); last := UnixMicro now; expireAt := 0 |} (buckets m) in
  let '(e, w) := spend c now (live expireAt now (buckets m) key) in
  Allow out pick None now key m = (inl (allowedFromWait (waitDuration out w) (maxDelay c), waitDuration out w), {| clock := c; buckets := <[key := e]> b.1 |}).
Proof.
  intros Hm. cbn zeta. unfold Allow, spend. rewrite Hm. set (fresh := {| tokens := _; last := _; expireAt := 0 |}).
  rewrite <- (load_result expireAt pick maxMemorySources now key fresh). destruct (load _ _ _ _ _ _ _) as [b e]. cbn [fst snd].
  by destruct (consumeOne _ _ _ _ _ _) as [[t l] w].
Qed.

Lemma memory_refines (ks : gset bytes) calls : forall t m st,
  clock m = c -> dom (buckets m) ⊆ ks -> (size ks <= maxMemorySources)%nat -> Forall (fun '(_, key) => key ∈ ks) calls ->
  (forall k, live expireAt t (buckets m) k = live expireAt t st k) -> Sorted Z.le (t :: map fst calls) ->
  memory_run calls m = map (fun w => inl (allowedFromWait (waitDuration out w) (maxDelay c), waitDuration out w)) (waits c calls st).
Proof.
  induction calls as [|[now key] calls IH]; intros t m st Hm Hd Hs Hk Hl Hord; [done|]. cbn [memory_run waits map fst].
  inversion_clear Hk as [|? ? Hkey Hk']. apply Sorted_inv in Hord as [Hord Hle]. apply HdRel_inv in Hle. cbn [fst] in Hle.
  assert (Hl' : forall k, live expireAt now (buckets m) k = live expireAt now st k)
    by (intros k; by rewrite !(live_later expireAt t now) by done; rewrite Hl).
  pose proof (Allow_spends now key m Hm) as HA. cbn zeta in HA. rewrite Hl' in HA.
  pose proof (spend_alive c now (live expireAt now st key) Hc) as Ha.
  destruct (spend c now (live expireAt now st key)) as [e w]. rewrite HA. cbn [map fst]. f_equal. apply (IH now); try done.
  - cbn [buckets]. rewrite dom_insert. pose proof (load_dom expireAt pick maxMemorySources now key {| tokens := of_Z (burst c); last := UnixMicro now; expireAt := 0 |} (buckets m)). set_solver.
  - intros k. cbn [buckets]. rewrite !live_insert. destruct (decide (k = key)); [done|].
    rewrite load_live_others by (done || by apply (size_delete_below ks)). apply Hl'.
Qed.
End Memory.

Section Store.
Context (tonumber : bytes -> option f64) (tostring argtext FormatFloat : f64 -> bytes) `{!LuaText tonumber tostring argtext FormatFloat}.
Context (script : bytes) (c : clockConfig).
Context (cfg : Config) (ParseFloat : bytes -> option f64) (out : f64 -> Z).
Hypothesis Hc : config_ok c.

(** The calls through the client, on a server whose clock is the caller's. *)
Fixpoint redis_run (calls : list (Z * bytes)) (w : server * list (list fate)) : list (bool * Z + tbErr) :=
  match calls with
  | [] => []
  | (now, key) :: calls =>
      let '(r, w) := RedisAllow (exec_wire (server_apply tonumber tostring argtext script) cfg) script (ScriptSHA1Hex script)
                       FormatFloat ParseFloat out None now key c (at_time now w.1, w.2) in
      r :: redis_run calls w
  end.

(** The server's live hashes are the reference's live buckets. *)
Definition agrees (now : Z) (s : server) (st : gmap bytes memEntry) : Prop :=
  forall k, live_hash (at_time now s) k = hash_of argtext <$> live expireAt now st k /\ (forall e, live expireAt now st k = Some e -> in_range e).

Lemma live_hash_later now now' s k : now <= now' ->
  live_hash (at_time now' s) k = h ← live_hash (at_time now s) k; match expires h with Some t => if t <=? now' then None else Some h | None => Some h end.
Proof.
  intros Hn. unfold live_hash, at_time. cbn [hashes time]. destruct (hashes s k) as [h|]; cbn [mbind option_bind]; [|done].
  destruct (expires h) as [t|] eqn:E; cbn [mbind option_bind]; [|by rewrite E].
  destruct (Z.leb_spec t now'), (Z.leb_spec t now); cbn [mbind option_bind]; rewrite ?E; try lia; try done.
  all: destruct (Z.leb_spec t now'); (done || lia).
Qed.

Lemma agrees_later now now' s st : now <= now' -> agrees now s st -> agrees now' s st.
Proof.
  intros Hn Ha k. destruct (Ha k) as [H1 H2]. rewrite (live_hash_later now now' s k Hn), (live_later expireAt now now' st k Hn), H1.
  destruct (live expireAt now st k) as [e|]; cbn; [|done]. unfold alive.
  destruct (Z.leb_spec (expireAt e) now'), (Z.ltb_spec now' (expireAt e)); try lia; [done|]. split; [done|]. by apply H2.
Qed.

Lemma redis_refines calls : forall t s fss st,
  agrees t s st -> Forall (fun '(now, _) => 0 <= UnixMicro now <= 2 ^ 53) calls -> Sorted Z.le (t :: map fst calls) -> delivers cfg fss ->
  redis_run calls (s, fss) = map (fun w => answer_of c ParseFloat out (tostring w)) (waits c calls st).
Proof.
  induction calls as [|[now key] calls IH]; intros t s fss st Ha Hr Hord Hd; [done|]. cbn [redis_run waits map fst].
  inversion_clear Hr as [|? ? Hnow Hr']. apply Sorted_inv in Hord as [Hord Hle]. apply HdRel_inv in Hle. cbn [fst] in Hle.
  apply (agrees_later t now) in Ha; [|done]. destruct (Ha key) as [Hl Hir].
  destruct (RedisAllow_spends tonumber tostring argtext FormatFloat script c Hc cfg ParseFloat out key now (at_time now s) fss
              (live expireAt now st key) Hnow eq_refl Hl Hir Hd) as (s' & fss' & HA & Hh & Hd').
  cbn [fst snd]. rewrite HA. pose proof (spend_alive c now (live expireAt now st key) Hc) as Hal.
  pose proof (spend_in_range c now (live expireAt now st key) Hnow Hir) as Hin.
  destruct (spend c now (live expireAt now st key)) as [e w]. cbn [fst snd map] in *. f_equal. apply (IH now); try done.
  intros k. rewrite live_insert. unfold live_hash, at_time in *. cbn [hashes time] in *. rewrite Hh. unfold store. cbn [hashes].
  destruct (decide (k = key)) as [->|]; [|apply (Ha k)]. rewrite Hal. cbn [mbind option_bind hash_of expires fmap option_fmap option_map].
  unfold alive in Hal. apply Z.ltb_lt in Hal. destruct (Z.leb_spec (expireAt e) now); [lia|]. split; [done|]. by intros ? [= <-].
Qed.

End Store.

Definition empty_server : server := {| hashes := fun _ => None; seen := []; time := 0 |}.

(** C10: the two limiters are one: for every sequence of calls in clock order
    on at most as many keys as the in-process map holds, with a configuration
    both constructors accept, [Memory.Allow] and [Redis.Allow] (its script run
    by a server behind the retrying client, on the caller's clock, commands lost on the way in and the
    first script unknown included) both answer from the waits of one reference,
    an unbounded map of buckets with an idle TTL; they differ only in that the
    Redis limiter reads the wait from the text that Lua prints, and are equal
    where that text reads back as the wait. *)
Theorem redis_and_memory_refine_one_bucket tonumber tostring argtext FormatFloat `{!LuaText tonumber tostring argtext FormatFloat}
    (script : bytes) (ParseFloat : bytes -> option f64) (out : f64 -> Z)
    (pick : gmap bytes memEntry -> option bytes) `{!FirstKey pick} (cfg : Config) (r : f64) (b d t : Z) (m : Memory (K := bytes))
    (c : clockConfig) (calls : list (Z * bytes)) (fss : list (list fate)) :
  NewMemory r b d t = inl m -> NewRedis false r b d t = inl c -> in_int64 b -> in_int64 d -> in_int64 t ->
  Sorted Z.le (map fst calls) -> Forall (fun '(now, _) => 0 <= UnixMicro now <= 2 ^ 53) calls ->
  (size (list_to_set (map snd calls) : gset bytes) <= maxMemorySources)%nat -> delivers cfg fss ->
  let answer w := (allowedFromWait (waitDuration out w) d, waitDuration out w) in
  let redis := redis_run tonumber tostring argtext FormatFloat script c cfg ParseFloat out calls (empty_server, fss) in
  memory_run out pick calls m = map (fun w => inl (answer w)) (waits c calls ∅) /\
  redis = map (fun w => answer_of c ParseFloat out (tostring w)) (waits c calls ∅) /\
  (Forall (fun w => exists q, w = Fin q /\ ParseFloat (tostring w) = Some w) (waits c calls ∅) ->
     redis = map (fun w => inl (answer w)) (waits c calls ∅)).
Proof.
  intros Hm Hr Hb Hd Ht Hord Hn Hs Hdel. unfold NewMemory in Hm. unfold NewRedis in Hr.
  destruct (validateClock r b d t) eqn:V; [done|]. injection Hr as <-. injection Hm as <-.
  set (c := {| rate := r; burst := b; maxDelay := d; ttl := t |}). assert (Hc : config_ok c) by done.
  assert (Hord' : Sorted Z.le (match calls with [] => 0 | (now, _) :: _ => now end :: map fst calls)).
  { constructor; [done|]. destruct calls as [|[now key] calls]; [constructor|]. constructor. cbn. lia. }
  assert (HR : redis_run tonumber tostring argtext FormatFloat script c cfg ParseFloat out calls (empty_server, fss)
    = map (fun w => answer_of c ParseFloat out (tostring w)) (waits c calls ∅)).
  { apply (redis_refines tonumber tostring argtext FormatFloat script c cfg ParseFloat out Hc calls _ empty_server fss ∅) with (3 := Hord'); done. }
  assert (Hdom : dom (∅ : gmap bytes memEntry) ⊆ (list_to_set (map snd calls) : gset bytes)) by set_solver.
  assert (Hks : Forall (fun '(_, key) => key ∈ (list_to_set (map snd calls) : gset bytes)) calls).
  { apply Forall_forall. intros [now key] Hin. apply elem_of_list_to_set, (list_elem_of_fmap_2 snd calls (now, key)), list_elem_of_In, Hin. }
  cbn zeta. split; [|split].
  - exact (memory_refines out pick c Hc (list_to_set (map snd calls)) calls _ {| clock := c; buckets := ∅ |} ∅ eq_refl Hdom Hs Hks (fun _ => eq_refl) Hord').
  - exact HR.
  - intros Hx. rewrite HR. apply map_ext_Forall. revert Hx. apply Forall_impl. intros w (q & -> & Hq). unfold answer_of. by rewrite Hq.
Qed.

(** ** A text of numbers *)

#[global] Instance f64_eq_decision : EqDecision f64.
Proof. intros a b. unfold Decision. repeat decide equality. Defined.

#[global] Instance f64_countable : Countable f64.
Proof.
  refine (inj_countable' (fun f => match f with NaN => inl tt | Inf s => inr (inl s) | Fin q => inr (inr (Qnum q, Qden q)) end)
            (fun x => match x with inl _ => NaN | inr (inl s) => Inf s | inr (inr (n, d)) => Fin (n # d) end) _).
  by intros [| |[]].
Defined.

Fixpoint bits (p : positive) : bytes := match p with xH => [] | xO p => x30 :: bits p | xI p => x31 :: bits p end.
Fixpoint unbits (s : bytes) : positive :=
  match s with [] => xH | b :: s => if decide (b = x30) then xO (unbits s) else xI (unbits s) end.

Lemma unbits_bits p : unbits (bits p) = p.
Proof. by induction p as [p IH|p IH|]; cbn; rewrite ?IH. Qed.

(** Integers in decimal, other floats as a code. *)
Definition code_text (f : f64) : bytes := x71 :: bits (countable.encode f).
Definition number_text (f : f64) : bytes :=
  match f with
  | Fin q => if bool_decide (of_Z (trunc q) = f /\ - 2 ^ 53 <= trunc q <= 2 ^ 53) then FormatInt (trunc q) else code_text f
  | _ => code_text f
  end.
Definition text_number (s : bytes) : option f64 :=
  match ParseInt s with Some n => Some (of_Z n) | None => countable.decode (unbits (tl s)) end.

Lemma text_number_code f : text_number (code_text f) = Some f.
Proof. unfold text_number, code_text. cbn. by rewrite unbits_bits, decode_encode. Qed.

Lemma text_number_text f : text_number (number_text f) = Some f.
Proof.
  unfold number_text. destruct f as [|s|q]; try apply text_number_code. case_bool_decide as Hq; [|apply text_number_code].
  unfold text_number. rewrite ParseInt_FormatInt by (unfold in_int64, int64_min, int64_max; lia). f_equal. apply Hq.
Qed.

#[global] Instance plain_lua : LuaText text_number (fun f => take 64 (number_text f)) number_text number_text.
Proof.
  split; intros.
  - unfold text_number. by rewrite ParseInt_FormatInt.
  - apply text_number_text.
  - apply text_number_text.
  - destruct (of_Z_exact n H) as (q & E & Hq & _). rewrite E. unfold number_text.
    assert (T : trunc q = n).
    { unfold trunc. unfold Qeq in Hq. cbn in Hq. rewrite Z.mul_1_r in Hq. rewrite Hq. apply Z.quot_mul. lia. }
    rewrite T, bool_decide_eq_true_2 by (split; [exact E|exact H]). done.
  - rewrite length_take. lia.
Qed.

Definition demo_calls : list (Z * bytes) := [(5000000, bs "a"); (5000000, bs "a"); (5000000, bs "b"); (1005000000, bs "a")].

(** One request per second with burst 1, two keys: the first script is unknown
    and the third command is lost once on its way. *)
Lemma redis_and_memory_refine_one_bucket_witness :
  exists (m : Memory (K := bytes)) c, NewMemory (of_Z 1) 1 0 (60 * Second) = inl m /\ NewRedis false (of_Z 1) 1 0 (60 * Second) = inl c /\
    memory_run (fun _ => 0) first_key demo_calls m = [inl (true, 0); inl (false, 1000000000); inl (true, 0); inl (true, 0)] /\
    redis_run text_number (fun f => take 64 (number_text f)) number_text number_text (bs "s") c default_config text_number (fun _ => 0)
      demo_calls (empty_server, [[]; []; [NeverReceived]])
    = [inl (true, 0); inl (false, 1000000000); inl (true, 0); inl (true, 0)].
Proof.
  assert (V : validateClock (of_Z 1) 1 0 (60 * Second) = None) by (vm_compute; reflexivity).
  set (c := {| rate := of_Z 1; burst := 1; maxDelay := 0; ttl := 60 * Second |}).
  set (m := {| clock := c; buckets := ∅ |} : Memory (K := bytes)).
  assert (Em : NewMemory (of_Z 1) 1 0 (60 * Second) = inl m) by (unfold NewMemory; rewrite V; reflexivity).
  assert (Ec : NewRedis false (of_Z 1) 1 0 (60 * Second) = inl c) by (unfold NewRedis; rewrite V; reflexivity).
  exists m, c. split; [exact Em|]. split; [exact Ec|].
  pose proof (redis_and_memory_refine_one_bucket text_number (fun f => take 64 (number_text f)) number_text number_text (bs "s")
    text_number (fun _ => 0) first_key default_config (of_Z 1) 1 0 (60 * Second) m c demo_calls [[]; []; [NeverReceived]] Em Ec) as H.
  assert (Hw : waits c demo_calls ∅ = [of_Z 0; of_Z 1000000; of_Z 0; of_Z 0]).
  { vm_compute. reflexivity. }
  clearbody m c.
  destruct H as (H1 & _ & H3).
  - split; vm_compute; discriminate.
  - split; vm_compute; discriminate.
  - split; vm_compute; discriminate.
  - repeat constructor; vm_compute; discriminate.
  - repeat constructor; vm_compute; discriminate.
  - apply Nat.leb_le. vm_compute. reflexivity.
  - split; [vm_compute; discriminate|]. repeat constructor; [by exists 0%nat|by exists 0%nat|by exists 1%nat].
  - rewrite H1, H3 by (rewrite Hw; repeat constructor; eexists; split; vm_compute; reflexivity). rewrite Hw. split; vm_compute; reflexivity.
Defined.
