(* ===== verification/Backoff.v ===== *)
(** * Backoff: the admission gate for an unhealthy backend
    ([backendbackoff/gate.go], [allow.go])

    [Allow] and [Report] hold the gate's mutex for their whole body, so a history
    of the gate is a sequence of calls.  Arguments: the clock reading, the jitter
    sample, what [int64] of an out-of-range float gives, and the key a [range]
    over the map yields. *)

From S2P Require Import Prelude.
From S2P Require Import RedisExec.
From S2P Require Import Float64.
From S2P Require Import ExpiryMap.
From S2P Require Import TokenBucket.
From Stdlib Require Import ZArith QArith Lqa Lia List.
From stdpp Require Import base list option gmap.

Open Scope Z_scope.

Inductive bbErr := errRatio | errTrip | errBase | errMax | errJitter | errTTL | errClosed | errUnknown.

Record Config := {
  FailureRatio : f64; TripFailures : Z; BaseCooldown : Z; MaxCooldown : Z; Jitter : f64; TTL : Z;
}.

(** [x == 0] *)
Definition fzero (a : f64) : bool := fle a (of_Z 0) && fle (of_Z 0) a.

(** [resolveConfig] *)
Definition resolveConfig (cfg : Config) : Config + bbErr :=
  let allZero := fzero (FailureRatio cfg) && (TripFailures cfg =? 0) && (BaseCooldown cfg =? 0) && (MaxCooldown cfg =? 0)
                 && fzero (Jitter cfg) && (TTL cfg =? 0) in
  let or_default (x d : Z) := if x =? 0 then d else x in
  let ratio := if fzero (FailureRatio cfg) then round (3 # 10) else FailureRatio cfg in
  let trip := or_default (TripFailures cfg) 5 in
  let base := or_default (BaseCooldown cfg) Second in
  let max := or_default (MaxCooldown cfg) (10 * Second) in
  let ttl := or_default (TTL cfg) (60 * Second) in
  let jitter := if allZero then round (1 # 10) else Jitter cfg in
  if fle ratio (of_Z 0) || fle (of_Z 1) ratio then inr errRatio
  else if trip <? 1 then inr errTrip
  else if base <=? 0 then inr errBase
  else if max <? base then inr errMax
  else if flt jitter (of_Z 0) || fle (of_Z 1) jitter then inr errJitter
  else if ttl <? Second then inr errTTL
  else inl {| FailureRatio := ratio; TripFailures := trip; BaseCooldown := base; MaxCooldown := max; Jitter := jitter; TTL := ttl |}.

Inductive gateState := stateClosed | stateOpen | stateHalfOpen.

(** A zero [closedSince] is [None]. *)
Record memEntry := mkEntry {
  credit : f64; n : Z; state : gateState; openUntil : Z; closedSince : option Z; probeUntil : Z;
  probeOutstanding : bool; expireAt : Z;
}.

(** The doubling loop of [cooldownDuration] over [n] rounds. *)
Fixpoint cooldown_loop (n : nat) (wait max : Z) : Z :=
  match n with
  | O => wait
  | S n => if Z.quot max 2 <? wait then max else cooldown_loop n (wait * 2) max
  end.

Section Gate.
Context {K : Type} `{Countable K} (out_of_range : f64 -> Z) (pick : gmap K memEntry -> option K) `{!FirstKey pick}.

Record Gate := mkGate { cfg : Config; budget : f64; closed : bool; keys : gmap K memEntry }.

(** [New] *)
Definition New (c : Config) : Gate + bbErr :=
  match resolveConfig c with
  | inr e => inr e
  | inl c => inl (mkGate c (of_Z (TripFailures c)) false ∅)
  end.

(** [Close] *)
Definition Close (g : Gate) : Gate := mkGate (cfg g) (budget g) true ∅.

(** [successCredit] *)
Definition successCredit (c : Config) : f64 := fdiv (FailureRatio c) (fsub (of_Z 1) (FailureRatio c)).

(** [cooldownDuration]; [sample] is what [rng.Float64] returns. *)
Definition cooldownDuration (c : Config) (sample : f64) (n : Z) : Z :=
  let wait := cooldown_loop (Z.to_nat n) (BaseCooldown c) (MaxCooldown c) in
  let wait := if MaxCooldown c <? wait then MaxCooldown c else wait in
  if fle (Jitter c) (of_Z 0) then wait
  else
    let factor := fadd (of_Z 1) (fmul (Jitter c) (fsub (fmul (of_Z 2) sample) (of_Z 1))) in
    let jittered := to_int64 out_of_range (fmul (of_Z wait) factor) in
    let jittered := if jittered <? 0 then 0 else jittered in
    if MaxCooldown c <? jittered then MaxCooldown c else jittered.

Definition maxMemorySources : nat := 65536.

(** [dropExpired], [dropOne] *)
Definition dropExpired (now : Z) (m : gmap K memEntry) : gmap K memEntry := drop_expired expireAt now m.
Definition dropOne (now : Z) (m : gmap K memEntry) : gmap K memEntry := drop_one expireAt pick maxMemorySources now m.

(** [loadEntry]: the map and the entry. *)
Definition loadEntry (g : Gate) (key : K) (now : Z) : gmap K memEntry * memEntry :=
  load expireAt pick maxMemorySources now key (mkEntry (budget g) 0 stateClosed 0 (Some now) 0 false 0) (keys g).

(** [resetNIfClosedLongEnough] *)
Definition resetNIfClosedLongEnough (c : Config) (e : memEntry) (now : Z) : memEntry :=
  match closedSince e with
  | None => e
  | Some since =>
      if now <? since + MaxCooldown c then e
      else mkEntry (credit e) 0 (state e) (openUntil e) (closedSince e) (probeUntil e) (probeOutstanding e) (expireAt e)
  end.

Definition set_expire (e : memEntry) (x : Z) : memEntry :=
  mkEntry (credit e) (n e) (state e) (openUntil e) (closedSince e) (probeUntil e) (probeOutstanding e) x.

(** [Allow] on the loaded entry: the entry after, allowed and the wait. *)
Definition allowEntry (c : Config) (now : Z) (e : memEntry) : memEntry * bool * Z :=
  let probe e := mkEntry (credit e) (n e) stateHalfOpen (openUntil e) (closedSince e) (now + BaseCooldown c) true (expireAt e) in
  match state e with
  | stateClosed => (resetNIfClosedLongEnough c e now, true, 0)
  | stateOpen => if now <? openUntil e then (e, false, openUntil e - now) else (probe e, true, 0)
  | stateHalfOpen =>
      if probeOutstanding e && (now <? probeUntil e) then (e, false, probeUntil e - now) else (probe e, true, 0)
  end.

(** [Allow] *)
Definition Allow (now : Z) (key : K) (g : Gate) : (bool * Z + bbErr) * Gate :=
  if closed g then (inr errClosed, g)
  else
    let '(m, e) := loadEntry g key now in
    let '(e, allowed, wait) := allowEntry (cfg g) now (set_expire e (now + TTL (cfg g))) in
    (inl (allowed, wait), mkGate (cfg g) (budget g) false (<[key := e]> m)).

(** [Report] on the entry. *)
Definition reportEntry (c : Config) (budget : f64) (sample : f64) (now : Z) (success : bool) (e : memEntry) : memEntry :=
  match state e with
  | stateOpen => e
  | stateHalfOpen =>
      if negb (probeOutstanding e) then e
      else if success then
        mkEntry budget (n e) stateClosed (openUntil e) (Some now) (probeUntil e) false (expireAt e)
      else
        let n' := wrap64 (n e + 1) in
        mkEntry (credit e) n' stateOpen (now + cooldownDuration c sample n') (closedSince e) (probeUntil e) false (expireAt e)
  | stateClosed =>
      if success then
        mkEntry (cap_at budget (fadd (credit e) (successCredit c))) (n e) stateClosed (openUntil e) (closedSince e)
          (probeUntil e) (probeOutstanding e) (expireAt e)
      else
        let e := resetNIfClosedLongEnough c e now in
        let credit := fsub (credit e) (of_Z 1) in
        if fle credit (of_Z 0) then
          mkEntry credit (n e) stateOpen (now + cooldownDuration c sample (n e)) None (probeUntil e) (probeOutstanding e) (expireAt e)
        else mkEntry credit (n e) stateClosed (openUntil e) (closedSince e) (probeUntil e) (probeOutstanding e) (expireAt e)
  end.

(** [Report] *)
Definition Report (now : Z) (sample : f64) (key : K) (success : bool) (g : Gate) : option bbErr * Gate :=
  if closed g then (Some errClosed, g)
  else match keys g !! key with
       | None => (None, g)
       | Some e =>
           let e := reportEntry (cfg g) (budget g) sample now success (set_expire e (now + TTL (cfg g))) in
           (None, mkGate (cfg g) (budget g) false (<[key := e]> (keys g)))
       end.

(** ** Cooldowns *)

Lemma cooldown_loop_min n wait max : 0 < wait -> 0 <= max -> Z.min max (cooldown_loop n wait max) = Z.min max (wait * 2 ^ Z.of_nat n).
Proof.
  revert wait. induction n as [|n IH]; intros wait Hw Hm; cbn [cooldown_loop].
  - by rewrite Z.mul_1_r.
  - rewrite Nat2Z.inj_succ, Z.pow_succ_r by lia. rewrite Z.quot_div_nonneg by lia.
    pose proof (Z.pow_pos_nonneg 2 (Z.of_nat n) ltac:(lia) ltac:(lia)).
    destruct (Z.ltb_spec (max / 2) wait) as [Hlt|Hge].
    + pose proof (Z.mul_succ_div_gt max 2 ltac:(lia)). rewrite !Z.min_l; [done| |lia]. nia.
    + rewrite IH by lia. f_equal. lia.
Qed.

(** The cooldown after n failed probes: without jitter exactly
    min(MaxCooldown, BaseCooldown * 2^n), and never more than MaxCooldown or less
    than zero whatever the jitter, the sample and the float conversion give. *)
Theorem cooldown_doubles_to_cap c sample k :
  0 < BaseCooldown c <= MaxCooldown c -> 0 <= k ->
  0 <= cooldownDuration c sample k <= MaxCooldown c /\
  (fle (Jitter c) (of_Z 0) = true -> cooldownDuration c sample k = Z.min (MaxCooldown c) (BaseCooldown c * 2 ^ k)).
Proof.
  intros Hc Hk. pose proof (cooldown_loop_min (Z.to_nat k) (BaseCooldown c) (MaxCooldown c) ltac:(lia) ltac:(lia)) as Hm.
  rewrite Z2Nat.id in Hm by done. unfold cooldownDuration. cbn zeta.
  set (w := cooldown_loop _ _ _) in *. pose proof (Z.pow_pos_nonneg 2 k ltac:(lia) Hk).
  assert (Hw : (if MaxCooldown c <? w then MaxCooldown c else w) = Z.min (MaxCooldown c) (BaseCooldown c * 2 ^ k)).
  { rewrite <- Hm. destruct (Z.ltb_spec (MaxCooldown c) w); lia. }
  rewrite Hw. destruct (fle (Jitter c) (of_Z 0)).
  - split; [nia|done].
  - split; [|done]. set (j := to_int64 _ _). destruct (Z.ltb_spec j 0).
    + destruct (Z.ltb_spec (MaxCooldown c) 0); lia.
    + destruct (Z.ltb_spec (MaxCooldown c) j); lia.
Qed.
(** ** The invariant of the entries *)

(** At clock reading [now]: the credit is not above the budget, a half-open key
    has a probe outstanding, a closed one knows since when, and no deadline is
    further away than the configuration allows. *)
Record entry_ok (c : Config) (b : f64) (now : Z) (e : memEntry) : Prop := {
  e_wf : wf (credit e);
  e_credit : flt b (credit e) = false;
  e_probe : state e = stateHalfOpen -> probeOutstanding e = true;
  e_since : state e = stateClosed -> is_Some (closedSince e);
  e_open : state e = stateOpen -> openUntil e <= now + MaxCooldown c;
  e_until : state e = stateHalfOpen -> probeUntil e <= now + BaseCooldown c;
  e_n : in_int64 (n e);
}.

Definition config_ok (c : Config) : Prop := 0 < BaseCooldown c <= MaxCooldown c /\ Second <= TTL c.

Definition gate_ok (now : Z) (g : Gate) : Prop :=
  config_ok (cfg g) /\ budget g = of_Z (TripFailures (cfg g)) /\ (size (keys g) <= maxMemorySources)%nat /\
  map_Forall (fun _ e => entry_ok (cfg g) (budget g) now e) (keys g).

Lemma entry_ok_mono c b now now' e : now <= now' -> entry_ok c b now e -> entry_ok c b now' e.
Proof. intros Hn [A B C D E F G]. split; try done; intros Hs; [specialize (E Hs)|specialize (F Hs)]; lia. Qed.

Lemma reset_ok c b now e t : entry_ok c b now e -> entry_ok c b now (resetNIfClosedLongEnough c e t).
Proof.
  intros [A B C D E F G]. unfold resetNIfClosedLongEnough. destruct (closedSince e) eqn:Es; [|by split; rewrite ?Es].
  destruct (_ <? _); split; cbn; rewrite ?Es; try done.
Qed.

Lemma allowEntry_ok c b now e : config_ok c -> entry_ok c b now e -> entry_ok c b now (allowEntry c now e).1.1.
Proof.
  intros Hc Ok. pose proof Ok as [A B C D E F G]. unfold allowEntry. destruct (state e) eqn:Es.
  - by apply reset_ok.
  - destruct (now <? openUntil e); [done|]. cbn. split; cbn; try done; intros _; lia.
  - destruct (probeOutstanding e && _); [done|]. cbn. split; cbn; try done; intros _; lia.
Qed.

Lemma cooldown_bounds c sample k : config_ok c -> 0 <= cooldownDuration c sample k <= MaxCooldown c.
Proof.
  intros [Hc _]. destruct (Z.le_gt_cases 0 k) as [Hk|Hk].
  - unfold cooldownDuration. cbn zeta. pose proof (cooldown_loop_min (Z.to_nat k) (BaseCooldown c) (MaxCooldown c) ltac:(lia) ltac:(lia)) as Hm.
    set (w := cooldown_loop _ _ _) in *. pose proof (Z.pow_pos_nonneg 2 (Z.of_nat (Z.to_nat k)) ltac:(lia) ltac:(lia)).
    assert (0 <= w) by nia. destruct (fle _ _).
    + destruct (Z.ltb_spec (MaxCooldown c) w); lia.
    + set (j := to_int64 _ _). destruct (Z.ltb_spec j 0); [destruct (Z.ltb_spec (MaxCooldown c) 0); lia|destruct (Z.ltb_spec (MaxCooldown c) j); lia].
  - unfold cooldownDuration. rewrite Z2Nat.nonpos by lia. cbn [cooldown_loop]. cbn zeta.
    destruct (fle _ _); [destruct (Z.ltb_spec (MaxCooldown c) (BaseCooldown c)); lia|].
    set (j := to_int64 _ _). destruct (Z.ltb_spec j 0); [destruct (Z.ltb_spec (MaxCooldown c) 0); lia|destruct (Z.ltb_spec (MaxCooldown c) j); lia].
Qed.

Lemma reportEntry_ok c b now e sample success :
  config_ok c -> wf b -> is_num b -> entry_ok c b now e -> entry_ok c b now (reportEntry c b sample now success e).
Proof.
  intros Hc Wb Nb Ok. pose proof (cooldown_bounds c sample) as Hcd. unfold reportEntry. destruct (state e) eqn:Es.
  - destruct success.
    + destruct Ok as [A B C D E F G]. destruct (cap_at_ok b (fadd (credit e) (successCredit c)) Wb (wf_fadd _ _) Nb) as [W1 W2].
      split; cbn; rewrite ?Es in *; try done.
    + pose proof (reset_ok c b now e now Ok) as [A B C D E F G]. set (e' := resetNIfClosedLongEnough c e now) in *.
      assert (Es' : state e' = stateClosed).
      { subst e'. unfold resetNIfClosedLongEnough. destruct (closedSince e); [destruct (_ <? _)|]; done. }
      assert (W1 := wf_fadd (credit e') (fneg (of_Z 1))). assert (W2 := fsub_one_not_above b (credit e') A B).
      destruct (fle _ _); split; cbn; try done; intros Hst.
      * specialize (Hcd (n e') Hc). lia.
      * by apply D.
  - done.
  - destruct (negb (probeOutstanding e)); [done|]. destruct Ok as [A B C D E F G]. destruct success; split; cbn; try done.
    + rewrite flt_spec by done. by rewrite fle_refl.
    + intros _. specialize (Hcd (wrap64 (n e + 1)) Hc). lia.
    + apply wrap64_range.
Qed.

(** ** Histories *)

Inductive op := OpAllow (now : Z) (key : K) | OpReport (now : Z) (sample : f64) (key : K) (success : bool) | OpClose (now : Z).

Definition op_time (o : op) : Z := match o with OpAllow t _ | OpReport t _ _ _ | OpClose t => t end.

Definition apply_op (o : op) (g : Gate) : Gate :=
  match o with
  | OpAllow now key => (Allow now key g).2
  | OpReport now sample key success => (Report now sample key success g).2
  | OpClose _ => Close g
  end.

(** Calls whose clock does not go back. *)
Inductive history (g0 : Gate) (t0 : Z) : Gate -> Z -> Prop :=
| h_nil : history g0 t0 g0 t0
| h_op g t o : history g0 t0 g t -> t <= op_time o -> history g0 t0 (apply_op o g) (op_time o).

Lemma gate_ok_mono t t' g : t <= t' -> gate_ok t g -> gate_ok t' g.
Proof. intros Ht (A & B & C & D). split_and!; try done. intros k e Hk. eapply entry_ok_mono; [done|]. by apply (D k). Qed.

Lemma set_expire_ok c b now e x : entry_ok c b now e -> entry_ok c b now (set_expire e x).
Proof. by intros [A B C D E F G]. Qed.

Lemma maxSources_pos : (0 < maxMemorySources)%nat.
Proof. apply Nat.ltb_lt. vm_compute. reflexivity. Qed.

Lemma loadEntry_ok g key now :
  gate_ok now g -> let '(m, e) := loadEntry g key now in
  entry_ok (cfg g) (budget g) now e /\ (size m <= maxMemorySources)%nat /\ m !! key = Some e /\
  map_Forall (fun _ e => entry_ok (cfg g) (budget g) now e) m.
Proof.
  intros (Hc & Hb & Hs & Hf). unfold loadEntry. set (fresh := mkEntry _ _ _ _ _ _ _ _).
  assert (F : entry_ok (cfg g) (budget g) now fresh).
  { assert (Hnum : is_num (budget g)) by (rewrite Hb; apply round_num).
    split; cbn; try done; [rewrite Hb; apply wf_of_Z|]. rewrite flt_spec by done. by rewrite fle_refl. }
  destruct (load_forall expireAt pick maxMemorySources _ now key fresh (keys g) Hf F) as [H1 H2].
  pose proof (load_size expireAt pick maxMemorySources now key fresh (keys g) maxSources_pos Hs) as H3.
  pose proof (load_lookup expireAt pick maxMemorySources now key fresh (keys g)) as H4.
  destruct (load _ _ _ _ _ _ _) as [m e]. done.
Qed.

Lemma map_Forall_put (P : memEntry -> Prop) (m : gmap K memEntry) k e :
  map_Forall (fun _ e => P e) m -> P e -> map_Forall (fun _ e => P e) (<[k := e]> m).
Proof. intros Hm He. by apply map_Forall_insert_2. Qed.

Lemma apply_op_ok o g : gate_ok (op_time o) g -> gate_ok (op_time o) (apply_op o g).
Proof.
  destruct o as [now key|now sample key success|now]; cbn [op_time apply_op]; intros G; pose proof G as (Hc & Hb & Hs & Hf).
  - unfold Allow. destruct (closed g); [done|]. pose proof (loadEntry_ok g key now G) as HL.
    destruct (loadEntry g key now) as [m e]. destruct HL as (He & Hsz & Hlk & Hm).
    pose proof (allowEntry_ok (cfg g) (budget g) now _ Hc (set_expire_ok _ _ _ _ (now + TTL (cfg g)) He)) as Ha.
    destruct (allowEntry _ _ _) as [[e' al] w]. cbn [fst snd] in *. split_and!; cbn [cfg budget keys]; try done.
    + by rewrite map_size_insert_Some by (by eexists).
    + by apply map_Forall_put.
  - unfold Report. destruct (closed g); [done|]. destruct (keys g !! key) as [e|] eqn:E; [|done]. cbn [snd].
    split_and!; cbn [cfg budget keys]; try done.
    + by rewrite map_size_insert_Some by (by eexists).
    + apply map_Forall_put; [done|]. apply reportEntry_ok; [done|rewrite Hb; apply wf_of_Z|rewrite Hb; apply round_num|].
      apply set_expire_ok. by apply (Hf key).
  - split_and!; cbn [Close cfg budget keys]; try done. rewrite map_size_empty. lia.
Qed.

Lemma resolveConfig_spec c c' :
  resolveConfig c = inl c' ->
  config_ok c' /\ FailureRatio c' = (if fzero (FailureRatio c) then round (3 # 10) else FailureRatio c) /\
  1 <= TripFailures c' /\ flt (Jitter c') (of_Z 0) = false /\ fle (of_Z 1) (Jitter c') = false.
Proof.
  unfold resolveConfig. cbn zeta. intros E. destruct (_ || _) in E; [done|].
  destruct (Z.ltb_spec (if TripFailures c =? 0 then 5 else TripFailures c) 1) in E; [done|].
  destruct (Z.leb_spec (if BaseCooldown c =? 0 then Second else BaseCooldown c) 0) in E; [done|].
  match type of E with context [?a <? ?b] => destruct (Z.ltb_spec a b) in E; [done|] end.
  destruct (_ || _) eqn:Ej in E; [done|]. apply orb_false_iff in Ej as [Ej1 Ej2].
  match type of E with context [?a <? ?b] => destruct (Z.ltb_spec a b) in E; [done|] end.
  injection E as <-. split; [split; cbn; lia|]. cbn [FailureRatio TripFailures Jitter]. done.
Qed.

Lemma New_ok c g t : New c = inl g -> gate_ok t g /\ closed g = false /\ keys g = ∅.
Proof.
  unfold New. destruct (resolveConfig c) as [c'|] eqn:E; [|done]. intros [= <-]. split; [|done].
  destruct (resolveConfig_spec c c' E) as (Hc & _).
  split_and!; cbn [cfg budget keys]; try done. rewrite map_size_empty. lia.
Qed.

Lemma history_ok c g0 t0 g t : New c = inl g0 -> history g0 t0 g t -> gate_ok t g.
Proof.
  intros Hn. induction 1 as [|g t o _ IH Ht]; [by eapply New_ok|]. apply apply_op_ok. by eapply gate_ok_mono.
Qed.

(** ** Refusals are bounded *)

(** C21: in any history of calls with a clock that does not go back, a refusal
    names a wait that is positive and at most MaxCooldown, so no key is ever
    locked out for longer; an admission names none; and the stored credits stay
    within the budget and the keys within the cap. *)
Theorem refusals_bounded c g0 t0 g t now key :
  New c = inl g0 -> history g0 t0 g t -> t <= now ->
  (forall allowed wait, (Allow now key g).1 = inl (allowed, wait) ->
     if allowed then wait = 0 else 0 < wait <= MaxCooldown (cfg g)) /\
  (size (keys g) <= maxMemorySources)%nat /\
  map_Forall (fun _ e => flt (budget g) (credit e) = false) (keys g).
Proof.
  intros Hn Hh Ht. pose proof (gate_ok_mono t now g Ht (history_ok c g0 t0 g t Hn Hh)) as G. pose proof G as (Hc & Hb & Hs & Hf).
  split; [|split; [done|intros k e Hk; by apply (Hf k e Hk)]]. intros allowed wait. unfold Allow. destruct (closed g); [done|].
  pose proof (loadEntry_ok g key now G) as HL. destruct (loadEntry g key now) as [m e]. destruct HL as (He & _).
  apply (set_expire_ok _ _ _ _ (now + TTL (cfg g))) in He. destruct He as [A B C D E F _]. cbn [set_expire state openUntil probeUntil probeOutstanding] in *.
  unfold allowEntry. cbn [set_expire state openUntil probeUntil probeOutstanding]. destruct (state e) eqn:Es; cbn [fst].
  - by intros [= <- <-].
  - specialize (E eq_refl). destruct (Z.ltb_spec now (openUntil e)); cbn [fst]; intros [= <- <-]; [split; lia|done].
  - specialize (C eq_refl). specialize (F eq_refl). rewrite C. cbn [andb]. destruct Hc as [Hc _].
    destruct (Z.ltb_spec now (probeUntil e)); cbn [fst]; intros [= <- <-]; [split; lia|done].
Qed.

(** ** Tripping *)

(** Failures reported one after the other: the clock and the jitter sample. *)
Definition fails (key : K) (l : list (Z * f64)) (g : Gate) : Gate :=
  fold_left (fun g '(t, sample) => (Report t sample key false g).2) l g.


Lemma reset_state c e t : state (resetNIfClosedLongEnough c e t) = state e.
Proof. unfold resetNIfClosedLongEnough. destruct (closedSince e); [destruct (_ <? _)|]; done. Qed.





Lemma Allow_closed g key e now :
  closed g = false -> keys g !! key = Some e -> state e = stateClosed -> exists g', Allow now key g = (inl (true, 0), g').
Proof.
  intros Hcl He Hst. unfold Allow. rewrite Hcl. unfold loadEntry, load. rewrite He. cbn [mbind option_bind].
  destruct (alive expireAt now e).
  - unfold allowEntry. change (state (set_expire e (now + TTL (cfg g)))) with (state e). rewrite Hst. by eexists.
  - by eexists.
Qed.

(** ** Cooldowns and probes hold *)

Definition op_key (o : op) : option K := match o with OpAllow _ k | OpReport _ _ k _ => Some k | OpClose _ => None end.

(** A key counts as idle, and its entry as absent, once no call has named it for
    the TTL: [touch] is when one last did. *)
Fixpoint in_use (ttl : Z) (key : K) (touch : Z) (ops : list op) : Prop :=
  match ops with
  | [] => True
  | o :: ops => op_time o < touch + ttl /\ in_use ttl key (if decide (op_key o = Some key) then op_time o else touch) ops
  end.

(** Allows and Reports on keys of a set. *)
Definition calls_on (S : gset K) (ops : list op) : Prop := Forall (fun o => exists k, op_key o = Some k /\ k ∈ S) ops.

Definition reports_on (key : K) (o : op) : Prop := match o with OpReport _ _ k _ => k = key | _ => False end.

(** What the Allows of [key] among the calls answer. *)
Fixpoint answers (key : K) (ops : list op) (g : Gate) : list (bool * Z + bbErr) :=
  match ops with
  | [] => []
  | o :: ops =>
      match o with
      | OpAllow t k => if decide (k = key) then (Allow t k g).1 :: answers key ops (apply_op o g) else answers key ops (apply_op o g)
      | _ => answers key ops (apply_op o g)
      end
  end.

(** All of them refused until [u]. *)
Definition refusals (u : Z) (key : K) (ops : list op) : list (bool * Z + bbErr) :=
  omap (fun o => match o with OpAllow t k => if decide (k = key) then Some (inl (false, u - t)) else None | _ => None end) ops.

(** The entry refuses Allows before [u]. *)
Definition refusing (e : memEntry) (u : Z) : Prop :=
  match state e with
  | stateOpen => openUntil e = u
  | stateHalfOpen => probeOutstanding e = true /\ probeUntil e = u
  | stateClosed => False
  end.

(** A key in state [st] that refuses until [u] and was last named at [touch],
    among keys of [S]. *)
Record guarded (c : Config) (key : K) (st : gateState) (u touch : Z) (S : gset K) (g : Gate) : Prop := {
  gd_closed : closed g = false;
  gd_cfg : cfg g = c;
  gd_dom : dom (keys g) ⊆ S;
  gd_entry : exists e, keys g !! key = Some e /\ refusing e u /\ state e = st /\ expireAt e = touch + TTL c;
}.

Lemma allowEntry_refuses c now e u : refusing e u -> now < u -> allowEntry c now e = (e, false, u - now).
Proof.
  unfold refusing, allowEntry. intros Hr Ht. destruct (state e); [done| |].
  - by rewrite Hr, (proj2 (Z.ltb_lt _ _) Ht).
  - destruct Hr as [-> ->]. by rewrite (proj2 (Z.ltb_lt _ _) Ht).
Qed.

Lemma loadEntry_alive g key now e : keys g !! key = Some e -> now < expireAt e -> loadEntry g key now = (keys g, e).
Proof. intros He Ht. unfold loadEntry. apply load_live; [done|]. by apply Z.ltb_lt. Qed.

Lemma guarded_Allow c key st u touch S g t :
  guarded c key st u touch S g -> t < u -> t < touch + TTL c ->
  (Allow t key g).1 = inl (false, u - t) /\ guarded c key st u t S (Allow t key g).2.
Proof.
  intros [Hcl <- Hd (e & He & Hr & Hst & Hx)] Hu Hx'. unfold Allow. rewrite Hcl, (loadEntry_alive g key t e He) by lia.
  rewrite (allowEntry_refuses _ _ _ u) by done. split; [done|]. split; cbn [snd closed cfg keys]; try done.
  - rewrite dom_insert. apply elem_of_dom_2 in He. set_solver.
  - eexists. rewrite lookup_insert_eq. split; [done|]. done.
Qed.

Lemma guarded_Report c key st u touch S g t sample ok :
  guarded c key st u touch S g -> st = stateOpen -> guarded c key st u t S (Report t sample key ok g).2.
Proof.
  intros [Hcl <- Hd (e & He & Hr & Hst & Hx)] ->. unfold Report. rewrite Hcl, He. unfold reportEntry. cbn [set_expire state]. rewrite Hst.
  split; cbn [snd closed cfg keys]; try done.
  - rewrite dom_insert. apply elem_of_dom_2 in He. set_solver.
  - eexists. rewrite lookup_insert_eq. split; [done|]. done.
Qed.

Lemma guarded_Allow_other c key st u touch S g t k :
  guarded c key st u touch S g -> k <> key -> k ∈ S -> (size S <= maxMemorySources)%nat -> t < touch + TTL c ->
  guarded c key st u touch S (Allow t k g).2.
Proof.
  intros [Hcl <- Hd (e & He & Hr & Hst & Hx)] Hk HkS HS Hx'. unfold Allow. rewrite Hcl. unfold loadEntry. set (fresh := mkEntry _ _ _ _ _ _ _ _).
  pose proof (load_dom expireAt pick maxMemorySources t k fresh (keys g)) as Hdom.
  pose proof (load_live_others expireAt pick maxMemorySources t k fresh (keys g) key ltac:(done) (size_delete_below S k (keys g) _ Hd HkS HS)) as Hlive.
  destruct (load _ _ _ _ _ _ _) as [m e1]. cbn [fst] in *. destruct (allowEntry _ _ _) as [[e2 al] w]. split; cbn [snd closed cfg keys]; try done.
  - rewrite dom_insert. set_solver.
  - exists e. rewrite lookup_insert_ne by done. split; [|done]. unfold live, alive in Hlive. rewrite He in Hlive. cbn [mbind option_bind] in Hlive.
    rewrite (proj2 (Z.ltb_lt t (expireAt e))) in Hlive by lia. destruct (m !! key) as [e'|]; cbn [mbind option_bind] in Hlive; [|done].
    by destruct (t <? expireAt e').
Qed.

Lemma guarded_Report_other c key st u touch S g t sample k ok :
  guarded c key st u touch S g -> k <> key -> guarded c key st u touch S (Report t sample k ok g).2.
Proof.
  intros G Hk. pose proof G as [Hcl <- Hd (e & He & H1)]. unfold Report. rewrite Hcl. destruct (keys g !! k) as [e'|] eqn:E; [|done].
  split; cbn [snd closed cfg keys]; try done.
  - rewrite dom_insert. apply elem_of_dom_2 in E. set_solver.
  - exists e. by rewrite lookup_insert_ne.
Qed.

(** Before [u] every Allow of the key is refused, whatever other calls come in
    between; a Report on the key must find it open. *)
Lemma guarded_answers c key st u S ops : forall touch g,
  guarded c key st u touch S g -> (size S <= maxMemorySources)%nat -> calls_on S ops -> in_use (TTL c) key touch ops ->
  Forall (fun o => op_time o < u) ops -> (st = stateOpen \/ Forall (fun o => ~ reports_on key o) ops) ->
  answers key ops g = refusals u key ops /\
  forall t, in_use (TTL c) key touch (ops ++ [OpAllow t key]) ->
    exists touch', t < touch' + TTL c /\ guarded c key st u touch' S (fold_left (fun g o => apply_op o g) ops g).
Proof.
  induction ops as [|o ops IH]; intros touch g G HS Hc Hi Hu Hst.
  { split; [done|]. intros t [Ht _]. by exists touch. }
  apply Forall_cons in Hc as [(k & Hk & HkS) Hc]. apply Forall_cons in Hu as [Hu Hu']. destruct Hi as [Ht Hi].
  assert (Hst' : st = stateOpen \/ Forall (fun o => ~ reports_on key o) ops) by (destruct Hst as [|Hst]; [by left|right; by inversion Hst]).
  assert (Hstep : guarded c key st u (if decide (op_key o = Some key) then op_time o else touch) S (apply_op o g) /\
    (forall t, o = OpAllow t key -> (Allow t key g).1 = inl (false, u - t))).
  { rewrite Hk. destruct o as [now k'|now sample k' ok|now]; cbn [op_key op_time apply_op] in *; [| |done]; injection Hk as ->.
    - destruct (decide (Some k = Some key)) as [[= ->]|Hne].
      + destruct (guarded_Allow c key st u touch S g now G Hu Ht) as [H1 H2]. split; [done|]. by intros t [= <-].
      + assert (k <> key) by congruence. split; [by apply guarded_Allow_other|]. by intros t [= _ ->].
    - destruct (decide (Some k = Some key)) as [[= ->]|Hne].
      + split; [|done]. destruct Hst as [Hst|Hst]; [by eapply guarded_Report|]. apply Forall_cons in Hst as [Hst _]. by destruct Hst.
      + split; [|done]. apply guarded_Report_other; [done|congruence]. }
  destruct Hstep as [G' Ha]. destruct (IH _ _ G' HS Hc Hi Hu' Hst') as [E1 E2]. split.
  - unfold refusals in *. cbn [answers omap list_omap]. destruct o as [now k'|now sample k' ok|now]; try exact E1.
    destruct (decide (k' = key)) as [->|]; [|exact E1]. by rewrite (Ha now eq_refl), E1.
  - intros t [_ Hin]. by apply E2.
Qed.


(** C35: one probe at a time: once an Allow of a key that was open or half-open
    is admitted, it is the only one: every further Allow of the key within
    BaseCooldown of it is refused with the time that is left, whatever calls on
    other keys come in between, until a Report on the key decides.  The calls
    name at most as many keys as the map holds, and never leave the key idle for
    its TTL. *)
Theorem probes_are_exclusive now key g g1 e S ops :
  keys g !! key = Some e -> now < expireAt e -> state e <> stateClosed -> Allow now key g = (inl (true, 0), g1) ->
  dom (keys g) ⊆ S -> (size S <= maxMemorySources)%nat -> calls_on S ops -> Forall (fun o => ~ reports_on key o) ops ->
  in_use (TTL (cfg g)) key now ops -> Forall (fun o => op_time o < now + BaseCooldown (cfg g)) ops ->
  answers key ops g1 = refusals (now + BaseCooldown (cfg g)) key ops.
Proof.
  intros He Hx Hst Ha Hd HS Hcalls Hrep Hin Hu. unfold Allow in Ha. destruct (closed g) eqn:Hcl; [done|].
  rewrite (loadEntry_alive g key now e He Hx) in Ha. set (e1 := set_expire e (now + TTL (cfg g))) in Ha.
  assert (Hprobe : (allowEntry (cfg g) now e1).1.2 = true ->
    (allowEntry (cfg g) now e1).1.1 = mkEntry (credit e1) (n e1) stateHalfOpen (openUntil e1) (closedSince e1) (now + BaseCooldown (cfg g)) true (expireAt e1)).
  { unfold allowEntry. change (state e1) with (state e). destruct (state e); [done| |].
    - by destruct (now <? openUntil e1).
    - by destruct (probeOutstanding e1 && _). }
  destruct (allowEntry (cfg g) now e1) as [[e2 al] w] eqn:Ea. injection Ha as -> -> <-. cbn [fst snd] in Hprobe. rewrite (Hprobe eq_refl).
  apply (guarded_answers (cfg g) key stateHalfOpen (now + BaseCooldown (cfg g)) S ops now); [|done..|by right].
  split; cbn [closed cfg keys]; try done.
  - rewrite dom_insert. apply elem_of_dom_2 in He. set_solver.
  - eexists. rewrite lookup_insert_eq. split; [done|]. unfold refusing. cbn. done.
Qed.

(** ** A ratio that is not a number *)

(** A NaN FailureRatio passes [resolveConfig], and one successful report
    then turns the key's credit into NaN, after which no number of failures
    trips the gate. *)
Theorem nan_ratio_never_trips c g0 key t ts sample l now :
  FailureRatio c = NaN -> New c = inl g0 ->
  exists g', Allow now key (fails key l (Report ts sample key true (Allow t key g0).2).2) = (inl (true, 0), g').
Proof.
  intros Hr Hn. destruct (New_ok c g0 t Hn) as (_ & Hcl & Hk).
  assert (Hnan : successCredit (cfg g0) = NaN).
  { unfold New in Hn. destruct (resolveConfig c) as [c'|] eqn:E; [|done]. injection Hn as <-. cbn [cfg].
    assert (FailureRatio c' = NaN) as Er; [|unfold successCredit; by rewrite Er].
    destruct (resolveConfig_spec c c' E) as (_ & -> & _). by rewrite Hr. }
  (* the key is closed with a NaN credit, and stays so *)
  assert (Hinv : forall l g, closed g = false /\ (exists e, keys g !! key = Some e /\ state e = stateClosed /\ credit e = NaN) ->
    closed (fails key l g) = false /\ exists e, keys (fails key l g) !! key = Some e /\ state e = stateClosed /\ credit e = NaN).
  { clear l. induction l as [|[tt ss] l IH]; intros g Hg; [done|]. cbn [fails fold_left]. apply IH. clear IH.
    destruct Hg as (Hc & e & He & Hst & Hcr). unfold Report. rewrite Hc, He. cbn [snd closed keys]. split; [done|].
    rewrite lookup_insert_eq. eexists. split; [done|]. unfold reportEntry. set (e' := set_expire e _).
    assert (Es : state e' = stateClosed) by done. rewrite Es.
    assert (Ec : credit (resetNIfClosedLongEnough (cfg g) e' tt) = NaN).
    { unfold resetNIfClosedLongEnough. destruct (closedSince e'); [destruct (_ <? _)|]; done. }
    rewrite Ec. done. }
  destruct (Hinv l (Report ts sample key true (Allow t key g0).2).2) as (Hc & e & He & Hst & _).
  { unfold Allow. rewrite Hcl. unfold loadEntry, load. rewrite Hk, lookup_empty. cbn [mbind option_bind].
    unfold allowEntry. cbn [set_expire state]. set (e := resetNIfClosedLongEnough _ _ _). cbn [snd fst].
    unfold Report. cbn [closed keys]. rewrite lookup_insert_eq. cbn [snd closed keys cfg budget]. split; [done|].
    rewrite lookup_insert_eq. eexists. split; [done|]. unfold reportEntry.
    assert (Es : state (set_expire e (ts + TTL (cfg g0))) = stateClosed).
    { subst e. unfold resetNIfClosedLongEnough. cbn. by destruct (_ <? _). }
    rewrite Es. cbn [state credit]. split; [done|]. rewrite Hnan.
    assert (Hadd : forall x, fadd x NaN = NaN) by (by intros []). rewrite Hadd. unfold cap_at. by destruct (budget g0). }
  by eapply Allow_closed.
Qed.

End Gate.

(** ** The theorems at a concrete configuration *)

(** Three failures trip; cooldowns of 1 s, 2 s, 4 s, ... up to 10 s, no jitter. *)
Definition sample_config : Config :=
  {| FailureRatio := round (1 # 4); TripFailures := 3; BaseCooldown := Second; MaxCooldown := 10 * Second; Jitter := of_Z 0; TTL := 60 * Second |}.

Definition zero_out : f64 -> Z := fun _ => 0.

Definition sample_gate : Gate (K := nat) := mkGate sample_config (of_Z 3) false ∅.

Lemma New_sample : New (K := nat) sample_config = inl sample_gate.
Proof. vm_compute. reflexivity. Qed.

Lemma cooldown_doubles_to_cap_witness : cooldownDuration zero_out sample_config (of_Z 0) 2 = 4 * Second.
Proof.
  rewrite (proj2 (cooldown_doubles_to_cap zero_out sample_config (of_Z 0) 2 ltac:(vm_compute; split; [reflexivity|discriminate]) ltac:(lia))).
  - vm_compute. reflexivity.
  - vm_compute. reflexivity.
Defined.

Lemma refusals_bounded_witness :
  let h1 := apply_op zero_out first_key (OpAllow 5 1%nat) sample_gate in
  let h2 := apply_op zero_out first_key (OpReport 7 (of_Z 0) 1%nat false) h1 in
  (size (keys h2) <= maxMemorySources)%nat.
Proof.
  cbn zeta. eapply (refusals_bounded (K := nat) zero_out first_key sample_config sample_gate 0 _ 7 9 1%nat New_sample).
  - apply (h_op zero_out first_key sample_gate 0 _ 5 (OpReport 7 (of_Z 0) 1%nat false)); [|cbn; lia].
    apply (h_op zero_out first_key sample_gate 0 _ 0 (OpAllow 5 1%nat)); [apply h_nil|cbn; lia].
  - lia.
Defined.



Definition two_keys : gset nat := {[ 1%nat; 2%nat ]}.

Lemma two_keys_fit : (size two_keys <= maxMemorySources)%nat.
Proof. apply Nat.leb_le. vm_compute. reflexivity. Qed.


(** A key whose cooldown has just ended. *)
Definition opened_gate : Gate (K := nat) :=
  mkGate sample_config (of_Z 3) false {[ 1%nat := mkEntry (of_Z 0) 0 stateOpen 90 None 0 false (50 * Second) ]}.

(** Key 1 is probed at 100 and called twice while the probe is out, with calls of
    key 2 in between. *)
Definition probing : list (op (K := nat)) :=
  [OpAllow 150 1%nat; OpAllow 160 2%nat; OpReport 170 (of_Z 0) 2%nat false; OpAllow 200 1%nat].

Lemma probes_are_exclusive_witness :
  answers zero_out first_key 1%nat probing (Allow first_key 100 1%nat opened_gate).2 = [inl (false, Second - 50); inl (false, Second - 100)].
Proof.
  assert (E : exists g1, Allow first_key 100 1%nat opened_gate = (inl (true, 0), g1)) by (eexists; vm_compute; reflexivity).
  destruct E as [g1 E]. rewrite E. cbn [snd].
  rewrite (probes_are_exclusive (K := nat) zero_out first_key 100 1%nat opened_gate g1 (mkEntry (of_Z 0) 0 stateOpen 90 None 0 false (50 * Second)) two_keys probing).
  - vm_compute. reflexivity.
  - reflexivity.
  - vm_compute. reflexivity.
  - discriminate.
  - exact E.
  - apply (bool_decide_unpack _). vm_compute. exact Logic.I.
  - apply two_keys_fit.
  - repeat constructor; eexists; (split; [reflexivity|set_solver]).
  - repeat constructor; cbn; intros H; discriminate H || exact H.
  - vm_compute. repeat split.
  - repeat constructor; vm_compute; reflexivity.
Defined.

Definition nan_config : Config :=
  {| FailureRatio := NaN; TripFailures := 3; BaseCooldown := Second; MaxCooldown := Second; Jitter := of_Z 0; TTL := Second |}.

Lemma nan_ratio_never_trips_witness :
  exists g' : Gate (K := nat),
    match New (K := nat) nan_config with
    | inl g0 => Allow first_key 100 1%nat (fails zero_out 1%nat [(10, of_Z 0); (15, of_Z 0); (16, of_Z 0); (17, of_Z 0)]
                  (Report zero_out 8 (of_Z 0) 1%nat true (Allow first_key 5 1%nat g0).2).2) = (inl (true, 0), g')
    | inr _ => False
    end.
Proof.
  destruct (New _) as [g0|] eqn:E; [|vm_compute in E; discriminate E].
  exact (nan_ratio_never_trips (K := nat) zero_out first_key nan_config g0 1%nat 5 8 (of_Z 0) [(10, of_Z 0); (15, of_Z 0); (16, of_Z 0); (17, of_Z 0)] 100 eq_refl E).
Defined.
