(* ===== verification/Emulator.v ===== *)
(** * Emulator: one configuration generation at a time
    ([traefikemulator/emulator.go])

    The plugin constructor is an argument: it gets the generation's context (and
    can ask which contexts are cancelled), the next handler, the configuration and
    the middleware name, and may change the state [W] that the test shares with
    it.  Each call of it is logged with what it saw and returned. *)

From S2P Require Import Prelude.
From Stdlib Require Import String List Lia.
From stdpp Require Import base list option strings gmap sets.

(** A context is the number it was created with. *)
Record contexts := mkCtxs { issued : nat; cancelled : gset nat }.

Definition live (x : contexts) (ctx : nat) : Prop := ctx < issued x /\ ctx ∉ cancelled x.

Definition no_contexts : contexts := mkCtxs 0 ∅.

(** [context.WithCancel(context.Background())] and the cancel function it returns. *)
Definition WithCancel (x : contexts) : nat * contexts := (issued x, mkCtxs (S (issued x)) (cancelled x)).
Definition do_cancel (ctx : nat) (x : contexts) : contexts := mkCtxs (issued x) ({[ctx]} ∪ cancelled x).

Section Emulator.
Context {H N C Err W : Type}.

Definition Constructor := contexts -> nat -> N -> C -> string -> W -> (H + Err) * W.

Record Route := mkRoute { Name : string; MiddlewareName : string; Next : N; RouteConfig : C }.

Inductive applyErr := duplicate_route (name : string) | constructor_err (err : Err).

(** A nil [routes] map reads as the empty one. *)
Record Emulator := mkEmulator { newMiddleware : Constructor; cancel_fn : option nat; routes : gmap string H }.

(** [New]; [None] is the panic on a nil constructor. *)
Definition New (newMiddleware : option Constructor) : option Emulator :=
  match newMiddleware with
  | None => None
  | Some f => Some (mkEmulator f None ∅)
  end.

(** [recordFailure]; a nil map is [None]. *)
Definition recordFailure (failed : option (gmap string applyErr)) (routeName : string) (err : applyErr) : option (gmap string applyErr) :=
  Some (<[routeName := err]> (default ∅ failed)).

Record call := mkCall { c_route : Route; c_ctx : nat; c_seen : contexts; c_name : string; c_result : H + Err }.

Definition middleware_name (r : Route) : string :=
  if decide (MiddlewareName r = EmptyString) then Name r else MiddlewareName r.

(** The loop of [Apply]: the constructed handlers, the failures, the state and
    the constructor calls. *)
Fixpoint apply_loop (f : Constructor) (x : contexts) (generation : nat) (rs : list Route) (seen : gset string)
    (constructed : gmap string H) (failed : option (gmap string applyErr)) (w : W)
    : gmap string H * option (gmap string applyErr) * W * list call :=
  match rs with
  | [] => (constructed, failed, w, [])
  | route :: rs =>
      if decide (Name route ∈ seen) then
        apply_loop f x generation rs seen constructed (recordFailure failed (Name route) (duplicate_route (Name route))) w
      else
        let '(res, w) := f x generation (Next route) (RouteConfig route) (middleware_name route) w in
        let '(constructed, failed) :=
          match res with
          | inr err => (constructed, recordFailure failed (Name route) (constructor_err err))
          | inl handler => (<[Name route := handler]> constructed, failed)
          end in
        let '(out, log) := apply_loop f x generation rs ({[Name route]} ∪ seen) constructed failed w in
        (out, mkCall route generation x (middleware_name route) res :: log)
  end.

(** [Apply] *)
Definition Apply (rs : list Route) (e : Emulator) (x : contexts) (w : W)
    : option (gmap string applyErr) * Emulator * contexts * W * list call :=
  let x := match cancel_fn e with Some ctx => do_cancel ctx x | None => x end in
  let '(generation, x) := WithCancel x in
  let '(constructed, failed, w, log) := apply_loop (newMiddleware e) x generation rs ∅ ∅ None w in
  (failed, mkEmulator (newMiddleware e) (Some generation) constructed, x, w, log).

(** [Stop] *)
Definition Stop (e : Emulator) (x : contexts) : Emulator * contexts :=
  (mkEmulator (newMiddleware e) None ∅, match cancel_fn e with Some ctx => do_cancel ctx x | None => x end).

(** [Handler] *)
Definition Handler (routeName : string) (e : Emulator) : option H := routes e !! routeName.

(** [Serve] with what a handler does to the state. *)
Definition Serve (ServeHTTP : H -> W -> W) (routeName : string) (e : Emulator) (w : W) : bool * W :=
  match routes e !! routeName with
  | None => (false, w)
  | Some handler => (true, ServeHTTP handler w)
  end.

(** ** Which routes are constructed *)

(** The first route of each name, in order. *)
Fixpoint firsts (rs : list Route) : list Route :=
  match rs with
  | [] => []
  | r :: rs => r :: base.filter (fun r' => Name r' <> Name r) (firsts rs)
  end.

Definition called (name : string) (log : list call) : option (H + Err) :=
  c_result <$> List.find (fun c => bool_decide (Name (c_route c) = name)) log.

(** What the failures say of one name. *)
Definition failure (name : string) (failed : option (gmap string applyErr)) : option applyErr := failed ≫= (fun m => m !! name).

Lemma failure_record name failed k err :
  failure name (recordFailure failed k err) = if decide (name = k) then Some err else failure name failed.
Proof.
  unfold failure, recordFailure. cbn. rewrite lookup_insert. destruct (decide (k = name)), (decide (name = k)); try congruence.
  destruct failed; cbn; [done|apply lookup_empty].
Qed.

(** How many routes have that name. *)
Definition occurrences (name : string) (rs : list Route) : nat := length (base.filter (fun r => Name r = name) rs).

Lemma occurrences_cons name r rs : occurrences name (r :: rs) = (if decide (Name r = name) then 1 else 0) + occurrences name rs.
Proof. unfold occurrences. rewrite filter_cons. by destruct (decide (Name r = name)). Qed.

Lemma filter_seen (seen : gset string) (r : Route) (rs : list Route) :
  base.filter (fun r' => Name r' ∉ {[Name r]} ∪ seen) rs = base.filter (fun r' => Name r' ∉ seen) (base.filter (fun r' => Name r' <> Name r) rs).
Proof. rewrite list_filter_filter. apply list_filter_iff. intros r'. set_solver. Qed.

Lemma filter_every (P : Route -> Prop) `{!forall r, Decision (P r)} (rs : list Route) : (forall r, P r) -> base.filter P rs = rs.
Proof. intros HP. induction rs as [|r rs IH]; [done|]. rewrite filter_cons_True by done. by rewrite IH. Qed.

(** The loop, name by name. *)
Lemma apply_loop_spec f x gen rs : forall seen constructed failed w,
  let '(constructed', failed', _, log) := apply_loop f x gen rs seen constructed failed w in
  map c_route log = base.filter (fun r => Name r ∉ seen) (firsts rs) /\
  Forall (fun c => c_ctx c = gen /\ c_seen c = x /\ c_name c = middleware_name (c_route c)) log /\
  (failed <> Some ∅ -> failed' <> Some ∅) /\
  forall name,
    (name ∈ seen -> called name log = None) /\
    constructed' !! name = match called name log with Some (inl h) => Some h | _ => constructed !! name end /\
    failure name failed' =
      if decide ((if decide (name ∈ seen) then 1 else 2) <= occurrences name rs) then Some (duplicate_route name)
      else match called name log with Some (inr err) => Some (constructor_err err) | _ => failure name failed end.
Proof.
  induction rs as [|r rs IH]; intros seen constructed failed w; cbn [apply_loop firsts].
  { split_and!; try done. intros name. split_and!; try done. destruct (decide _) as [Hd|]; [|done]. unfold occurrences in Hd. cbn in Hd.
    destruct (decide (name ∈ seen)); lia. }
  destruct (decide (Name r ∈ seen)) as [Hs|Hs].
  - specialize (IH seen constructed (recordFailure failed (Name r) (duplicate_route (Name r))) w).
    destruct (apply_loop _ _ _ _ _ _ _ _) as [[[c' f'] w'] log]. destruct IH as (A & B & D & E).
    rewrite filter_cons_False by (intros X; by apply X). split_and!; try done.
    + rewrite A, list_filter_filter. apply list_filter_iff. intros r'. split; [|tauto]. intros Hr. split; [done|congruence].
    + intros _. apply D. intros [= X]. by apply insert_non_empty in X.
    + intros name. destruct (E name) as (E1 & E2 & E3). split_and!; try done. rewrite E3, failure_record, occurrences_cons.
      destruct (decide (Name r = name)) as [<-|Hn].
      * rewrite (decide_True (P := Name r ∈ seen)) by done. rewrite (decide_True (P := 1 <= 1 + _)) by lia.
        rewrite (E1 Hs), (decide_True (P := Name r = Name r)) by done.
        by destruct (decide (1 <= _)).
      * rewrite Nat.add_0_l. destruct (decide (_ <= _)); [done|]. by rewrite (decide_False (P := name = Name r)) by congruence.
  - destruct (f x gen (Next r) (RouteConfig r) (middleware_name r) w) as [res w1].
    set (c1 := match res with inr _ => constructed | inl h => <[Name r := h]> constructed end).
    set (f1 := match res with inr err => recordFailure failed (Name r) (constructor_err err) | inl _ => failed end).
    replace (match res with inl handler => (<[Name r := handler]> constructed, failed)
             | inr err => (constructed, recordFailure failed (Name r) (constructor_err err)) end) with (c1, f1) by (by destruct res).
    specialize (IH ({[Name r]} ∪ seen) c1 f1 w1). destruct (apply_loop _ _ _ _ _ _ _ _) as [[[c' f'] w'] log].
    destruct IH as (A & B & D & E). rewrite filter_cons_True by done. cbn [map c_route]. split_and!.
    + by rewrite A, filter_seen.
    + by constructor.
    + intros Hf. apply D. subst f1. destruct res; [done|]. intros [= X]. by apply insert_non_empty in X.
    + intros name. destruct (E name) as (E1 & E2 & E3). unfold called in *. cbn [List.find c_route]. rewrite occurrences_cons.
      destruct (decide (Name r = name)) as [<-|Hn].
      * rewrite bool_decide_eq_true_2 by done. cbn [fmap option_fmap option_map c_result].
        assert (Hc := E1 ltac:(set_solver)). rewrite Hc in E2, E3. clear E1 Hc. rewrite (decide_True (P := Name r ∈ _)) in E3 by set_solver.
        rewrite (decide_False (P := Name r ∈ seen)) by done. rewrite E2, E3. split; [done|]. split.
        { subst c1. destruct res; [by rewrite lookup_insert_eq|done]. }
        destruct (decide (1 <= _)), (decide (2 <= 1 + _)); try lia; [done|].
        subst f1. destruct res; [done|]. by rewrite failure_record, decide_True.
      * rewrite bool_decide_eq_false_2 by done. split; [intros Hin; apply E1; set_solver|]. rewrite E2, E3, Nat.add_0_l. split.
        { subst c1. destruct res; [by rewrite lookup_insert_ne|done]. }
        assert (Hd : (if decide (name ∈ {[Name r]} ∪ seen) then 1 else 2) = (if decide (name ∈ seen) then 1 else 2)).
        { destruct (decide (name ∈ {[Name r]} ∪ seen)), (decide (name ∈ seen)); set_solver. }
        assert (Hf : failure name f1 = failure name failed).
        { subst f1. destruct res; [done|]. rewrite failure_record. by rewrite decide_False by congruence. }
        rewrite Hf, Hd. by repeat case_decide.
Qed.

Lemma occurrences_in name rs : name ∈ map Name rs <-> 1 <= occurrences name rs.
Proof.
  induction rs as [|r rs IH]; [unfold occurrences; cbn; split; [by intros ?%elem_of_nil|lia]|].
  cbn [map]. rewrite elem_of_cons, IH, occurrences_cons. destruct (decide (Name r = name)); split; try lia; try naive_solver.
Qed.

Lemma occurrences_nodup rs : NoDup (map Name rs) <-> forall name, occurrences name rs <= 1.
Proof.
  induction rs as [|r rs IH]; [split; [intros _ name; unfold occurrences; cbn; lia|constructor]|].
  cbn [map]. rewrite NoDup_cons, IH, occurrences_in. setoid_rewrite occurrences_cons. split.
  - intros [Hr Hs] name. specialize (Hs name). destruct (decide (Name r = name)) as [<-|]; lia.
  - intros Hs. split; [specialize (Hs (Name r)); rewrite decide_True in Hs by done; lia|].
    intros name. specialize (Hs name). lia.
Qed.

Lemma firsts_cover name rs : name ∈ map Name rs -> exists r, r ∈ firsts rs /\ Name r = name.
Proof.
  induction rs as [|r rs IH]; [by intros ?%elem_of_nil|]. cbn [map firsts]. intros Hin.
  destruct (decide (Name r = name)) as [Hr|Hr]; [exists r; set_solver|].
  destruct IH as (r' & Hr' & Hn); [set_solver|]. exists r'. split; [|done]. apply elem_of_cons. right. apply list_elem_of_filter. split; [congruence|done].
Qed.

Lemma called_covers name rs log : map c_route log = firsts rs -> name ∈ map Name rs -> is_Some (called name log).
Proof.
  intros Hl (r & Hr & Hn)%firsts_cover. rewrite <- Hl in Hr. apply list_elem_of_fmap in Hr as (c & -> & Hc).
  unfold called. destruct (List.find _ log) as [c'|] eqn:Ef; [by eexists|].
  apply list_elem_of_In in Hc. apply (List.find_none _ _ Ef c) in Hc. by rewrite bool_decide_eq_true_2 in Hc.
Qed.

Lemma firsts_sub r rs : r ∈ firsts rs -> r ∈ rs.
Proof.
  induction rs as [|r' rs IH]; [done|]. cbn [firsts]. rewrite !elem_of_cons, list_elem_of_filter. naive_solver.
Qed.

Lemma called_route name rs log res :
  map c_route log = firsts rs -> called name log = Some res -> exists r, r ∈ rs /\ Name r = name.
Proof.
  intros Hl. unfold called. destruct (List.find _ log) as [c|] eqn:Ef; [|done]. intros _.
  apply List.find_some in Ef as [Hin Hn]. apply bool_decide_eq_true_1 in Hn. exists (c_route c). split; [|done].
  apply firsts_sub. rewrite <- Hl. apply list_elem_of_fmap_2. by apply list_elem_of_In.
Qed.

(** Apply, whatever ran before: the constructor runs exactly once for the
    first route of each name, in order, under the middleware name (the route name
    when that is empty), always on the generation created by this Apply; Handler
    then finds exactly the handlers those calls returned; a name given twice is
    reported as a duplicate, another failed call with its own error; and the
    returned map is nil exactly when every route was constructed. *)
Theorem Apply_constructs_first_routes rs e x w :
  let '(failed, e', _, _, log) := Apply rs e x w in
  map c_route log = firsts rs /\
  Forall (fun c => c_ctx c = issued x /\ c_name c = middleware_name (c_route c)) log /\
  (forall name, Handler name e' = called name log ≫= (fun res => match res with inl h => Some h | inr _ => None end)) /\
  (forall name, failure name failed =
     if decide (2 <= occurrences name rs) then Some (duplicate_route name)
     else called name log ≫= (fun res => match res with inl _ => None | inr err => Some (constructor_err err) end)) /\
  (failed = None <-> NoDup (map Name rs) /\ Forall (fun r => is_Some (Handler (Name r) e')) rs).
Proof.
  unfold Apply. set (x1 := match cancel_fn e with Some _ => _ | None => _ end). cbn [WithCancel].
  assert (Hi : issued x1 = issued x) by (subst x1; by destruct (cancel_fn e)).
  pose proof (apply_loop_spec (newMiddleware e) (mkCtxs (S (issued x1)) (cancelled x1)) (issued x1) rs ∅ ∅ None w) as L.
  unfold WithCancel. destruct (apply_loop _ _ _ _ _ _ _ _) as [[[c' f'] w'] log]. destruct L as (A & B & D & E).
  assert (A' : map c_route log = firsts rs).
  { rewrite A. apply filter_every. set_solver. }
  assert (EH : forall name, c' !! name = called name log ≫= (fun res => match res with inl h => Some h | inr _ => None end)).
  { intros name. destruct (E name) as (_ & -> & _). by destruct (called name log) as [[]|]. }
  assert (EF : forall name, failure name f' = if decide (2 <= occurrences name rs) then Some (duplicate_route name)
     else called name log ≫= (fun res => match res with inl _ => None | inr err => Some (constructor_err err) end)).
  { intros name. destruct (E name) as (_ & _ & ->). rewrite (decide_False (P := name ∈ ∅)) by set_solver.
    destruct (decide (2 <= _)); [done|]. by destruct (called name log) as [[]|]. }
  split_and!; try done.
  { eapply Forall_impl; [exact B|]. cbn. intros c (-> & _ & ->). by rewrite Hi. }
  rewrite occurrences_nodup, Forall_forall. cbn [Handler routes]. unfold Handler. cbn [routes]. split.
  - intros ->. split.
    + intros name. specialize (EF name). cbn in EF. destruct (decide (2 <= _)); [done|lia].
    + intros r Hr. specialize (EF (Name r)). rewrite EH. cbn in EF. destruct (decide (2 <= _)); [done|].
      destruct (called_covers (Name r) rs log A') as [[h|err] Hc]; [by apply list_elem_of_fmap_2|by rewrite Hc|by rewrite Hc in EF].
  - intros [Ho Hh]. destruct f' as [m|]; [|done]. exfalso. apply D; [done|]. f_equal. apply map_empty. intros name. specialize (EF name).
    cbn in EF. rewrite EF. specialize (Ho name). rewrite decide_False by lia. destruct (called name log) as [[h|err]|] eqn:Ec; try done.
    destruct (called_route name rs log _ A' Ec) as (r & Hr & Hn). specialize (Hh r Hr). rewrite Hn, EH, Ec in Hh. by destruct Hh.
Qed.

(** ** One live generation *)

Inductive op := OpApply (rs : list Route) | OpStop.

(** The calls of a test, one after the other, with the constructor calls they made. *)
Fixpoint run (ops : list op) (e : Emulator) (x : contexts) (w : W) : Emulator * contexts * list call :=
  match ops with
  | [] => (e, x, [])
  | OpApply rs :: ops =>
      let '(_, e, x, w, log) := Apply rs e x w in
      let '(out, log') := run ops e x w in (out, log ++ log')
  | OpStop :: ops => let '(e, x) := Stop e x in run ops e x w
  end.

(** Exactly the current generation is live, and only it has handlers. *)
Definition one_live (e : Emulator) (x : contexts) : Prop :=
  (forall ctx, live x ctx <-> cancel_fn e = Some ctx) /\ (cancel_fn e = None -> routes e = ∅) /\
  (forall ctx, ctx ∈ cancelled x -> ctx < issued x).

Lemma cancel_none_live e x :
  one_live e x -> let x' := match cancel_fn e with Some ctx => do_cancel ctx x | None => x end in
  (forall ctx, ~ live x' ctx) /\ (forall ctx, ctx ∈ cancelled x' -> ctx < issued x').
Proof.
  intros (A & _ & B). cbn zeta. destruct (cancel_fn e) as [c|] eqn:Ec.
  - split.
    + intros ctx [H1 H2]. cbn in *. assert (Hl : live x ctx) by (split; [done|set_solver]). apply A in Hl. set_solver.
    + cbn. intros ctx Hc. apply elem_of_union in Hc as [->%elem_of_singleton|Hc]; [|by apply B]. by apply A.
  - split; [|done]. intros ctx Hl. by apply A in Hl.
Qed.

Lemma run_one_live ops : forall e x w,
  one_live e x ->
  let '(e', x', log) := run ops e x w in
  one_live e' x' /\ Forall (fun c => forall ctx, live (c_seen c) ctx <-> ctx = c_ctx c) log.
Proof.
  induction ops as [|[rs|] ops IH]; intros e x w Ho; cbn [run]; [done|..]; destruct (cancel_none_live e x Ho) as [Hn Hb].
  - unfold Apply. set (x1 := match cancel_fn e with Some _ => _ | None => _ end) in *.
    unfold WithCancel. set (x2 := mkCtxs _ _). assert (Hl : forall ctx, live x2 ctx <-> ctx = issued x1).
    { intros ctx. specialize (Hn ctx). specialize (Hb ctx). unfold live in *. cbn. split; [intros [H1 H2]|intros ->].
      - destruct (decide (ctx = issued x1)); [done|]. exfalso. apply Hn. split; [lia|done].
      - split; [lia|]. intros Hc. specialize (Hb Hc). lia. }
    pose proof (apply_loop_spec (newMiddleware e) x2 (issued x1) rs ∅ ∅ None w) as L.
    destruct (apply_loop _ _ _ _ _ _ _ _) as [[[c' f'] w'] log]. destruct L as (_ & B & _).
    specialize (IH (mkEmulator (newMiddleware e) (Some (issued x1)) c') x2 w'). destruct (run _ _ _ _) as [[e' x'] log'].
    destruct IH as [H1 H2].
    { split_and!; [|done|]; cbn [cancel_fn].
      - intros ctx. rewrite Hl. split; congruence.
      - intros ctx Hc. specialize (Hb ctx Hc). cbn. lia. }
    split; [done|]. apply Forall_app. split; [|done]. eapply Forall_impl; [exact B|]. cbn. by intros c (-> & -> & _).
  - specialize (IH (Stop e x).1 (Stop e x).2 w). unfold Stop in *. cbn [fst snd] in IH. apply IH.
    split_and!; [|done|done]. cbn. intros ctx. split; [|done]. intros Hl. by apply Hn in Hl.
Qed.

(** C38: over any sequence of Apply and Stop from New, exactly one context is
    live while a generation is installed and none after Stop; handlers exist only
    then; and every constructor call, in every Apply, sees its own generation
    live and every earlier one already cancelled. *)
Theorem one_live_generation f ops w :
  match New (Some f) with
  | None => False
  | Some e0 =>
      let '(e, x, log) := run ops e0 no_contexts w in
      one_live e x /\ Forall (fun c => forall ctx, live (c_seen c) ctx <-> ctx = c_ctx c) log
  end.
Proof.
  cbn [New]. apply run_one_live. split_and!; [|done|by intros ? ?%elem_of_empty].
  intros ctx. cbn. split; [intros [H1 _]; cbn in H1; lia|done].
Qed.

End Emulator.
